(* ===== verification/_CoqProject ===== *)
-Q . S2P
Prelude.v
Posix.v
Status.v
Coding.v
InternalKey.v
Mvcc.v
WriteBatch.v
Wal.v
BloomFilter.v
BlockBuilder.v
BlockIterator.v
TableFormat.v
SSTableBuilder.v
Iterator.v
SSTableReader.v
Arena.v
SkipList.v
MemTable.v
MergingIterator.v
DbIterator.v
Filename.v
Level.v
Manifest.v
Snapshot.v
DbFiles.v
Version.v
Compaction.v
CompactionReads.v
CompactionBuild.v
FlushMemTable.v
DbImpl.v
History.v
DbState.v
DbLog.v
DbDisk.v
DbSteps.v
DbWrite.v
DbFlush.v
DbCompact.v
DbRefine.v
DbRecovery.v
Database.v
DbLiveness.v
CApi.v
CApiSpec.v
RaftLog.v
Raft.v
RaftNode.v
RaftRead.v
RaftCluster.v
