(* ===== verification/Prelude.v ===== *)
(** * The storage engine of Mizu, verified

    Mizu (src/) is a distributed key-value store: Go processes replicate regions
    with Raft and keep their data in an embedded storage engine written in C++,
    a log-structured merge tree (src/engine/lsmtree).  This development models
    the engine, every source file of it, up to the C interface the Go code
    calls, and proves what makes it correct.

    ** The engine and how its parts interact

    A write ([DBImpl::write]) encodes its batch, appends it to the write-ahead
    log, optionally syncs the log, and adds it to the memtable, a skip list in an
    arena.  A full memtable becomes the immutable memtable, with a new log and a
    new memtable; the background thread writes the immutable memtable to an
    SSTable of level 0, names it in a new manifest, publishes a new version and
    removes the logs that are no longer needed.  When a level is over its limit
    the same thread merges tables into the next level and drops versions no
    snapshot can see.  Lookups search the memtable, the immutable memtable and
    the version; iterators merge all of them and show each visible key once.
    Opening a directory locks it, reads the manifest, opens its tables and
    replays the logs.  The C interface wraps all of this in handles.

    ** Files

    Conventions and the world outside:
    - Prelude: bytes, machine integers with their wrap-around, the tactics and
      lemmas shared by all files.
    - Posix: system calls as finite scripts of answers (short counts, EINTR,
      errors; calls succeed when the script ends), files with the part of them
      that is durable, and what a crash leaves.
    - Status: [Status] and [result] (util/status.cc, include/lsmtree/db.h).

    Encodings:
    - Coding: fixed-width integers and CRC-32C (util/coding.cc, util/crc32c.cc).
    - InternalKey: user key, sequence number and type in one key, and its order
      (db/internal_key.cc).
    - WriteBatch: batches and their payload (db/write_batch.cc,
      db/write_batch_codec.cc).
    - Filename, Level: names of numbered files, levels (db/filename.cc,
      db/level.h).

    Files on disk:
    - Wal: log writer and reader (wal/wal_writer.cc, wal/wal_reader.cc).
    - BloomFilter, BlockBuilder, BlockIterator, TableFormat, SSTableBuilder,
      SSTableReader: the SSTable, from its blocks up (table/).
    - Manifest: codec and atomic replacement (db/manifest.cc).
    - DbFiles: directory, lock, scan and removal (db/db_files.cc).

    In memory:
    - Arena, SkipList, MemTable (util/arena.cc, db/skiplist.h, db/memtable.cc).
      [SystemAllocator] is the allocator below the arena, a parameter with the
      guarantees of operator new[] as its laws.
    - Iterator: the interface [InternalIterator] and its contract
      [IteratorSpec], which the memtable, table and merging iterators
      implement and their clients are verified against
      (db/internal_iterator.h).
    - MergingIterator, DbIterator (db/merging_iterator.cc, db/db_iterator.cc).
    - Version, Snapshot, Compaction, CompactionReads, CompactionBuild,
      FlushMemTable (db/version.cc, db/snapshot.cc, db/compaction.cc,
      db/flush_memtable.cc).

    The database:
    - DbImpl: the state of [DBImpl] and each of its operations, cut where the
      mutex is released (db/db_impl.cc, db/db.cc).
    - DbSteps: the state machine: client calls interleaved with the sections of
      the background thread, and its invariant.
    - Mvcc, History: the specifications: lookups in a multiset of versions, and
      the abstract store, a history of writes with the live snapshots.
    - DbState, DbLog, DbDisk: the invariant, for reads, logs and directory.
    - DbWrite, DbFlush, DbCompact, DbRefine: every step keeps the invariant and
      refines the store.
    - DbRecovery: what opening does with the directory a crash or an exit left.
    - Database: the theorems about whole executions.  DbLiveness: a waiting
      write is released.

    The C interface:
    - CApi: a process with a heap of handles, the live databases and the
      directories, and every function of include/lsmtree/c_api.h (c_api.cc).
    - CApiSpec: sessions, any sequence of calls by any threads.

    ** How the code is represented

    A C++ object is a record with the members of the class, a method a function
    that returns the new record.  [option] is defined behaviour: [None] is a
    failed assertion, an access outside an object or a loop that exhausted its
    fuel, so a theorem that says [Some] also says that this does not happen.
    [result] is a [Status] with the output of the call.  Unsigned arithmetic
    wraps where the code can overflow.  A file is its bytes and how many of them
    are durable; a directory maps paths to files.

    ** What is proved

    - Codecs: encoders and decoders invert each other on exactly the inputs they
      accept; damage of up to four adjacent bytes is detected by the checksum
      (WriteBatch, Wal, Manifest, TableFormat, Filename).
    - Tables: what the builder writes opens and reads back, by lookup and by
      scan; the reader is safe on arbitrary bytes; the Bloom filter has no false
      negatives (BlockIterator, SSTableBuilder, SSTableReader, BloomFilter).
    - Memory: allocations are disjoint and aligned, the skip list is a sorted
      set, the memtable implements the lookup specification (Arena, SkipList,
      MemTable).
    - Iterators: the merging iterator is the sorted union, the database iterator
      shows each visible key once; an error is never shown as the end.
    - Compaction: planning is exact, building touches no live file, no read at
      or above the oldest snapshot changes, and compactions come to an end
      (Compaction, CompactionReads, CompactionBuild).
    - The database: every interleaving refines the store, synced writes survive
      crashes, an orderly exit keeps all writes, no call is undefined, waiting
      writes are released (Database, DbLiveness).
    - The C interface: ownership is sound in every session, and readers are
      isolated from everything after their opening (CApiSpec).

    ** Bounds and fuel

    Loops over data recurse on the data.  Other loops take fuel.  Bisections and
    searches compute enough of it themselves (the number of restart points of a
    block, of elements of a range, of nodes and levels of a skip list), and are
    proved not to run out.  The loops that skip hidden versions ([di_seek],
    [di_next]) and the merge of a compaction get theirs from the caller; the
    theorems hold for all fuel above a bound they give (twice the number of
    entries for a scan, the number of entries for a merge), so fuel never cuts
    a loop short.  Assumptions on sizes are stated where they are needed: keys
    below 4 GiB (the record format of the memtable), tables below 4 GiB, files below
    2^63 bytes, sequence numbers below 2^56.

    ** Assumptions

    Directory operations (create, rename, unlink) are atomic and durable when
    they return: the engine never syncs a directory.  Appended bytes that were
    not synced may be lost in a crash, in order; bytes that were synced are not.
    Members read without the mutex are immutable or owned by the reader.  An
    iterator keeps the memtable as it was when it was created; later writes have
    larger sequence numbers, which the iterator skips.  A library call that
    throws inside the C interface does so before the engine changed anything.
    A session opens directories in which opening establishes a database, as it
    does for a new one, after a crash and after an exit (DbRecovery).

    ** Not modelled

    - The Go side: client, cmd, kv, raft, proto and internal/lsmtree.  The C
      interface is the boundary of this development.
    - Condition variables and the shared mutex, except for where they divide the
      operations into sections; notifications (a waiting write is retried by its
      caller in the model).
    - Copy and move of Status, Slice and the handles, which C++ generates.
    - tests/ and the build files. *)
From Stdlib Require Export ZArith Lia Strings.Byte.
From stdpp Require Export sorting.
From stdpp Require Export base tactics list gmap strings numbers.

#[global] Open Scope Z_scope.

(** ** Bytes, byte strings and machine integers *)

Notation bytes := (list byte).

(** Machine widths used by the engine: [std::uint32_t], [std::uint64_t] and
    the 64-bit [std::size_t]. *)
Definition kUint32Max : Z := 4294967295.
Definition kUint64Max : Z := 18446744073709551615.

Definition wrap8 (z : Z) : Z := z mod 256.
Definition wrap32 (z : Z) : Z := z mod 4294967296.
Definition wrap64 (z : Z) : Z := z mod 18446744073709551616.

(** [static_cast<unsigned char>] and [static_cast<char>]. *)
Definition byte_to_Z (b : byte) : Z := Z.of_N (Byte.to_N b).
Definition byte_of_Z (z : Z) : byte :=
  default x00 (Byte.of_N (Z.to_N (wrap8 z))).

(** [std::string::size], as an unbounded integer. *)
Definition len {A} (s : list A) : Z := Z.of_nat (length s).

(** [std::string_view::substr] and [remove_prefix] for positions inside the
    view. *)
Definition substr (s : bytes) (pos n : Z) : bytes :=
  take (Z.to_nat n) (drop (Z.to_nat pos) s).
Definition remove_prefix (n : Z) (s : bytes) : bytes := drop (Z.to_nat n) s.

(** ASCII literals of the source as byte strings. *)
Definition of_ascii (s : string) : bytes := String.list_byte_of_string s.

#[global] Instance byte_eq_decision : EqDecision byte := Byte.byte_eq_dec.

(** Defined behaviour: operations that assert, dereference memory or loop
    return [option]; [None] is a failed [assert], an access outside the object
    or an exhausted loop bound. *)
Definition assert_that (b : bool) : option unit := if b then Some tt else None.

(** Little-endian digit expansion in base 256: the reference the fixed-width
    codecs are compared with. *)
Fixpoint le_bytes (n : nat) (z : Z) : bytes :=
  match n with
  | O => []
  | S n => byte_of_Z z :: le_bytes n (z / 256)
  end.

Fixpoint le_value (s : bytes) : Z :=
  match s with
  | [] => 0
  | b :: s => byte_to_Z b + 256 * le_value s
  end.

(** [std::to_string] of an unsigned integer: decimal digits, most significant
    first.  The fuel is the number of binary digits, which bounds the number of
    decimal ones. *)
Definition digit_char (d : Z) : Ascii.ascii := Ascii.ascii_of_N (Z.to_N (48 + d)).
Fixpoint decimal_loop (fuel : nat) (n : Z) (acc : list Ascii.ascii) : list Ascii.ascii :=
  match fuel with
  | O => acc
  | S fuel =>
      let acc := digit_char (n mod 10) :: acc in
      if n <? 10 then acc else decimal_loop fuel (n / 10) acc
  end.
Definition decimal (n : Z) : list Ascii.ascii := decimal_loop (S (Z.to_nat (Z.log2 n))) n [].
Definition to_string (n : Z) : string := String.string_of_list_ascii (decimal n).

(** [dropwhile p l] removes the longest prefix satisfying [p]. *)
Fixpoint dropwhile {A} (p : A -> bool) (l : list A) : list A :=
  match l with
  | [] => []
  | x :: l' => if p x then dropwhile p l' else l
  end.

Fixpoint takewhile {A} (p : A -> bool) (l : list A) : list A :=
  match l with
  | [] => []
  | x :: l' => if p x then x :: takewhile p l' else []
  end.

(** ** Lengths *)

Create HintDb len discriminated.

Lemma len_nil {A} : len (@nil A) = 0.
Proof. done. Qed.
Lemma len_cons {A} (x : A) l : len (x :: l) = 1 + len l.
Proof. unfold len; simpl; lia. Qed.
Lemma len_app {A} (l k : list A) : len (l ++ k) = len l + len k.
Proof. unfold len; rewrite length_app; lia. Qed.
Lemma len_nonneg {A} (l : list A) : 0 <= len l.
Proof. unfold len; lia. Qed.
Lemma len_take {A} n (l : list A) : len (take n l) = Z.min (Z.of_nat n) (len l).
Proof. unfold len; rewrite length_take; lia. Qed.
Lemma len_drop {A} n (l : list A) : len (drop n l) = Z.max 0 (len l - Z.of_nat n).
Proof. unfold len; rewrite length_drop; lia. Qed.
Lemma len_zero {A} (l : list A) : len l = 0 <-> l = [].
Proof. unfold len; destruct l; simpl; split; intros; (done || lia). Qed.
Lemma length_len {A} (l : list A) : length l = Z.to_nat (len l).
Proof. unfold len; lia. Qed.
Lemma len_replicate {A} n (x : A) : len (replicate n x) = Z.of_nat n.
Proof. unfold len; by rewrite length_replicate. Qed.
Lemma len_fmap {A B} (f : A -> B) l : len (f <$> l) = len l.
Proof. unfold len; by rewrite length_fmap. Qed.

Lemma len_le_bytes n z : len (le_bytes n z) = Z.of_nat n.
Proof. revert z; induction n as [|n IH]; intros z; simpl; [done|]. rewrite len_cons, IH; lia. Qed.

#[export] Hint Rewrite @len_nil @len_cons @len_app @len_take @len_drop
  @len_replicate @len_fmap len_le_bytes : len.

(** Normalise every [len] in the goal and the context, then [lia]. *)
Ltac len_norm := autorewrite with len in *.
Ltac len_pose :=
  repeat match goal with
  | |- context [@len ?A ?l] =>
      lazymatch goal with
      | _ : 0 <= @len A l |- _ => fail
      | _ => pose proof (@len_nonneg A l)
      end
  | _ : context [@len ?A ?l] |- _ =>
      lazymatch goal with
      | _ : 0 <= @len A l |- _ => fail
      | _ => pose proof (@len_nonneg A l)
      end
  end.
Ltac llia := len_norm; len_pose; lia.

(** ** Bytes *)

Lemma byte_to_Z_range b : 0 <= byte_to_Z b < 256.
Proof. unfold byte_to_Z. pose proof (Byte.to_N_bounded b). lia. Qed.

Lemma byte_to_of_Z z : byte_to_Z (byte_of_Z z) = wrap8 z.
Proof.
  unfold byte_to_Z, byte_of_Z, wrap8.
  pose proof (Z.mod_pos_bound z 256 ltac:(lia)) as Hb.
  destruct (Byte.of_N (Z.to_N (z mod 256))) as [b|] eqn:E; simpl.
  - apply Byte.to_of_N in E. rewrite E. lia.
  - apply Byte.of_N_None_iff in E. lia.
Qed.

Lemma byte_of_to_Z b : byte_of_Z (byte_to_Z b) = b.
Proof.
  unfold byte_of_Z, wrap8. rewrite Z.mod_small by apply byte_to_Z_range.
  unfold byte_to_Z. by rewrite N2Z.id, Byte.of_to_N.
Qed.

Lemma byte_to_Z_inj a b : byte_to_Z a = byte_to_Z b -> a = b.
Proof. intros H. by rewrite <- (byte_of_to_Z a), H, byte_of_to_Z. Qed.

(** ** Machine integers *)

Lemma wrap32_small z : 0 <= z <= kUint32Max -> wrap32 z = z.
Proof. unfold wrap32, kUint32Max. intros. apply Z.mod_small. lia. Qed.

Lemma wrap64_small z : 0 <= z <= kUint64Max -> wrap64 z = z.
Proof. unfold wrap64, kUint64Max. intros. apply Z.mod_small. lia. Qed.

Lemma wrap64_range z : 0 <= wrap64 z <= kUint64Max.
Proof. unfold wrap64, kUint64Max. pose proof (Z.mod_pos_bound z 18446744073709551616). lia. Qed.

Lemma wrap32_range z : 0 <= wrap32 z < 4294967296.
Proof. apply Z.mod_pos_bound. lia. Qed.

(** ** Little-endian digits *)

Lemma le_value_range s : 0 <= le_value s < 256 ^ len s.
Proof.
  induction s as [|b s IH]; [done|]. simpl. rewrite len_cons, Z.pow_add_r by llia.
  pose proof (byte_to_Z_range b). nia.
Qed.

Lemma le_value_le_bytes n z : le_value (le_bytes n z) = z mod 256 ^ Z.of_nat n.
Proof.
  revert z; induction n as [|n IH]; intros z; simpl le_bytes; simpl le_value.
  { by rewrite Z.mod_1_r. }
  rewrite IH, byte_to_of_Z. unfold wrap8.
  replace (Z.of_nat (S n)) with (1 + Z.of_nat n) by lia.
  rewrite Z.pow_add_r, Z.pow_1_r by lia.
  pose proof (Z.pow_pos_nonneg 256 (Z.of_nat n) ltac:(lia) ltac:(lia)).
  rewrite Z.rem_mul_r by lia. lia.
Qed.

Lemma le_bytes_le_value s : le_bytes (length s) (le_value s) = s.
Proof.
  induction s as [|b s IH]; [done|]. simpl length. simpl le_bytes. simpl le_value.
  f_equal.
  - apply byte_to_Z_inj. rewrite byte_to_of_Z. unfold wrap8.
    rewrite Z.mul_comm, Z.mod_add by lia. apply Z.mod_small, byte_to_Z_range.
  - replace ((byte_to_Z b + 256 * le_value s) / 256) with (le_value s); [done|].
    rewrite Z.mul_comm, Z.div_add by lia.
    rewrite Z.div_small by apply byte_to_Z_range. lia.
Qed.

(** [|] of a digit below [2^n] with a shifted word is an addition. *)
Lemma lor_shiftl_add a b n :
  0 <= n -> 0 <= a < 2 ^ n -> Z.lor a (Z.shiftl b n) = a + b * 2 ^ n.
Proof.
  intros Hn Ha. rewrite <- Z.shiftl_mul_pow2 by done.
  assert (Z.land a (Z.shiftl b n) = 0) as Hl.
  { apply Z.bits_inj'; intros i Hi. rewrite Z.land_spec, Z.bits_0.
    destruct (decide (i < n)).
    - by rewrite (Z.shiftl_spec_low b n i), andb_false_r.
    - destruct (decide (a = 0)) as [->|]; [by rewrite Z.bits_0|].
      rewrite (Z.bits_above_log2 a i); [done|lia|].
      apply Z.log2_lt_pow2; [lia|].
      apply Z.lt_le_trans with (2 ^ n); [lia|]. apply Z.pow_le_mono_r; lia. }
  rewrite Z.add_nocarry_lxor by done. symmetry. by apply Z.lxor_lor.
Qed.

(** ** [dropwhile] and [takewhile] *)

Section while.
Context {A : Type} (p : A -> bool).
Implicit Types l : list A.

Lemma takewhile_dropwhile l : takewhile p l ++ dropwhile p l = l.
Proof. induction l as [|x l IH]; simpl; [done|]. destruct (p x); simpl; by rewrite ?IH. Qed.

Lemma takewhile_all l : Forall (fun x => p x = true) (takewhile p l).
Proof. induction l as [|x l IH]; simpl; [done|]. destruct (p x) eqn:E; auto. Qed.

Lemma dropwhile_head l x r : dropwhile p l = x :: r -> p x = false.
Proof.
  induction l as [|y l IH]; simpl; [done|]. destruct (p y) eqn:E; [done|].
  intros; by simplify_eq.
Qed.

Lemma dropwhile_app_all l k :
  Forall (fun x => p x = true) l -> dropwhile p (l ++ k) = dropwhile p k.
Proof. induction 1 as [|x l Hx _ IH]; simpl; [done|]. by rewrite Hx. Qed.

Lemma dropwhile_none l :
  (forall x r, l = x :: r -> p x = false) -> dropwhile p l = l.
Proof. destruct l as [|x l]; simpl; [done|]. intros H. by rewrite (H x l eq_refl). Qed.

Lemma dropwhile_app_split l k :
  Forall (fun x => p x = true) l ->
  (forall x r, k = x :: r -> p x = false) ->
  dropwhile p (l ++ k) = k.
Proof. intros Hl Hk. rewrite dropwhile_app_all by done. by apply dropwhile_none. Qed.

End while.

(** ** Lists *)

Lemma Forall_elem {A} (P : A -> Prop) l : Forall P l <-> forall x, x ∈ l -> P x.
Proof. apply list.Forall_forall. Qed.

Lemma length_le_bytes n z : length (le_bytes n z) = n.
Proof. pose proof (len_le_bytes n z). unfold len in *. lia. Qed.

(** ** [std::lower_bound]: bisection for the first element not below the target.
    [comp] may assert; the range has [count] elements from [first] on. *)
Fixpoint lower_bound_loop {A} (fuel : nat) (comp : A -> option bool) (l : list A) (first count : nat) : option nat :=
  match fuel with
  | O => None
  | S fuel =>
      if (count =? 0)%nat then Some first
      else
        let half := (count / 2)%nat in
        middle ← l !! (first + half)%nat;
        below ← comp middle;
        if below : bool then lower_bound_loop fuel comp l (first + half + 1) (count - half - 1)
        else lower_bound_loop fuel comp l first half
  end.
Definition lower_bound {A} (comp : A -> option bool) (l : list A) : option nat :=
  lower_bound_loop (S (length l)) comp l 0 (length l).

(** On a range partitioned by [p] it is the length of the part that satisfies
    [p], found within the fuel. *)
Lemma lower_bound_loop_spec {A} (comp : A -> option bool) (p : A -> bool) l n fuel : forall first count,
  (count < fuel)%nat -> (first <= n)%nat -> (n <= first + count)%nat -> (first + count <= length l)%nat ->
  (forall i x, l !! i = Some x -> comp x = Some (p x) /\ (p x = true <-> (i < n)%nat)) ->
  lower_bound_loop fuel comp l first count = Some n.
Proof.
  induction fuel as [|fuel IH]; intros first count Hf H1 H2 H3 Hp; [lia|]. cbn [lower_bound_loop].
  destruct (Nat.eqb_spec count 0) as [->|Hc]; [f_equal; lia|].
  pose proof (Nat.div_lt count 2 ltac:(lia) ltac:(lia)). set (half := (count / 2)%nat) in *.
  destruct (lookup_lt_is_Some_2 l (first + half)) as [x Hx]; [lia|]. rewrite Hx. cbn [mbind option_bind].
  destruct (Hp _ _ Hx) as [-> Hpx]. cbn [mbind option_bind]. destruct (p x).
  - assert (first + half < n)%nat by (by apply Hpx). apply IH; (lia || done).
  - assert (~ first + half < n)%nat by (intros ?%Hpx; done). apply IH; (lia || done).
Qed.

Lemma lower_bound_spec {A} (comp : A -> option bool) (p : A -> bool) l :
  Forall (fun x => comp x = Some (p x)) l -> Forall (fun x => p x = false) (dropwhile p l) ->
  lower_bound comp l = Some (length (takewhile p l)).
Proof.
  intros Hc Hd. unfold lower_bound. pose proof (takewhile_dropwhile p l) as Htd. pose proof (takewhile_all p l) as Ht.
  assert (length l = length (takewhile p l) + length (dropwhile p l))%nat as Hl by (rewrite <- Htd at 1; apply length_app).
  apply (lower_bound_loop_spec comp p); [lia|lia|lia|lia|]. intros i x Hx. rewrite Forall_elem in Hc, Hd, Ht.
  split; [apply Hc; by eapply list_elem_of_lookup_2|]. rewrite <- Htd in Hx. destruct (decide (i < length (takewhile p l))%nat) as [Hi|Hi].
  - rewrite lookup_app_l in Hx by done. split; [done|]. intros _. apply Ht. by eapply list_elem_of_lookup_2.
  - rewrite lookup_app_r in Hx by lia. apply list_elem_of_lookup_2, Hd in Hx. rewrite Hx. split; [done|lia].
Qed.
