(* ===== verification/Posix.v ===== *)
(** The POSIX calls the engine makes, as the environment answers them: short
    reads and writes, [EINTR], hard errors, and what a crash leaves of a file. *)
From S2P Require Import Prelude.

Definition EINTR : Z := 4.
Definition EIO : Z := 5.

(** One [::write] call: it accepts at most [n] bytes, or fails.  A script of
    events is what the environment does; calls after its end take everything. *)
Inductive write_event :=
  | WriteCount (n : Z)
  | WriteErrno (errno : Z).

(** One [::read] call on a regular file: it returns up to [n] bytes (at least
    one unless at end of file), or fails. *)
Inductive read_event :=
  | ReadCount (n : Z)
  | ReadErrno (errno : Z).

(** A file opened for appending: its contents and how many leading bytes are
    on stable storage. *)
Record LogFile := mkLogFile { contents : bytes; durable : nat }.

(** What a crash may leave of a file: any prefix that keeps the durable part. *)
Inductive crash_file : LogFile -> bytes -> Prop :=
  | crash_file_intro f k :
      (durable f <= k)%nat -> crash_file f (take k (contents f)).

(** Environments that may shorten and interrupt calls, but never fail them. *)
Definition benign_write (ev : write_event) : Prop :=
  match ev with WriteCount n => 0 < n | WriteErrno errno => errno = EINTR end.
Definition benign_read (ev : read_event) : Prop :=
  match ev with ReadCount _ => True | ReadErrno errno => errno = EINTR end.


(** A directory: its files by path. Names are changed atomically by [rename]
    and [unlink]. *)
Notation Directory := (gmap string LogFile).

Definition fs_rename (from to : string) (fs : Directory) : Directory :=
  match fs !! from with
  | Some f => <[to := f]> (delete from fs)
  | None => fs
  end.

(** [ENOENT], what [::open] answers for a path that does not exist. *)
Definition ENOENT : Z := 2.

(** A call whose result is ignored: the environment decides whether it takes
    effect. *)
Definition fs_unlink (effective : bool) (path : string) (fs : Directory) : Directory :=
  if effective then delete path fs else fs.

(** What a crash leaves of a directory: every file loses at most what it had
    not yet synced. *)
Definition crash_directory (fs fs' : Directory) : Prop :=
  forall path,
    match fs !! path, fs' !! path with
    | Some f, Some f' => crash_file f (contents f') /\ durable f' = length (contents f')
    | None, None => True
    | _, _ => False
    end.

Lemma map_incl (fs fs' : Directory) : (forall path f, fs !! path = Some f -> fs' !! path = Some f) <-> fs ⊆ fs'.
Proof. by rewrite map_subseteq_spec. Qed.
