(* ===== verification/Status.v ===== *)
(** [lsmtree::Status] (include/lsmtree/db.h, src/util/status.cc) and the
    result type the rest of the library uses for functions that return a
    [Status] and fill an output only on success. *)
From S2P Require Import Prelude.

(** [enum class StatusCode]. *)
Inductive StatusCode :=
  | kOk
  | kNotFound
  | kAlreadyExists
  | kInvalidArgument
  | kIOError
  | kCorruption
  | kBusy
  | kNotSupported.

#[global] Instance StatusCode_eq_dec : EqDecision StatusCode.
Proof. solve_decision. Defined.

(** The numeric value of the enumerator, which the C API hands out. *)
Definition StatusCode_value (c : StatusCode) : Z :=
  match c with
  | kOk => 0
  | kNotFound => 1
  | kAlreadyExists => 2
  | kInvalidArgument => 3
  | kIOError => 4
  | kCorruption => 5
  | kBusy => 6
  | kNotSupported => 7
  end.

Record Status := mkStatus { code_ : StatusCode; message_ : string }.

#[global] Instance Status_eq_dec : EqDecision Status.
Proof. solve_decision. Defined.

Definition codeName (code : StatusCode) : string :=
  match code with
  | kOk => "OK"
  | kNotFound => "NotFound"
  | kAlreadyExists => "AlreadyExists"
  | kInvalidArgument => "InvalidArgument"
  | kIOError => "IOError"
  | kCorruption => "Corruption"
  | kBusy => "Busy"
  | kNotSupported => "NotSupported"
  end.

Definition success : Status := mkStatus kOk "".
Definition notFound (message : string) : Status := mkStatus kNotFound message.
Definition alreadyExists (message : string) : Status := mkStatus kAlreadyExists message.
Definition invalidArgument (message : string) : Status := mkStatus kInvalidArgument message.
Definition ioError (message : string) : Status := mkStatus kIOError message.
Definition corruption (message : string) : Status := mkStatus kCorruption message.
Definition busy (message : string) : Status := mkStatus kBusy message.
Definition notSupported (message : string) : Status := mkStatus kNotSupported message.

Definition ok (s : Status) : bool := bool_decide (code_ s = kOk).
Definition isNotFound (s : Status) : bool := bool_decide (code_ s = kNotFound).

Definition toString (s : Status) : string :=
  if ok s then codeName (code_ s)
  else String.append (codeName (code_ s)) (String.append ": " (message_ s)).

(** A call that returns [Status::success()] and sets its outputs to [a], or
    returns a failing status and leaves its outputs alone. *)
Inductive result (A : Type) :=
  | Ok (a : A)
  | Err (s : Status).
Arguments Ok {A} a.
Arguments Err {A} s.

Definition status_of {A} (r : result A) : Status :=
  match r with Ok _ => success | Err s => s end.

(** A fallible call returns: a value that satisfies [P], or an error, which only
    an environment that is not [benign] can cause. *)
Definition returns {A} (benign : Prop) (P : A -> Prop) (res : option (result A)) : Prop :=
  exists r, res = Some r /\ match r with Ok x => P x | Err st => ok st = false /\ ~ benign end.

#[global] Instance result_ret : MRet result := fun A a => Ok a.
#[global] Instance result_bind : MBind result := fun A B f r =>
  match r with Ok a => f a | Err s => Err s end.

Lemma Ok_inj {A} (a b : A) : Ok a = Ok b -> a = b.
Proof. congruence. Qed.

Lemma result_bind_Ok {A B} (r : result A) (f : A -> result B) b :
  r ≫= f = Ok b <-> exists a, r = Ok a /\ f a = Ok b.
Proof. destruct r; simpl; split; [eauto|intros (?&?&?)|done|intros (?&?&?)]; by simplify_eq. Qed.
