(* ===== verification/Coding.v ===== *)
(** Fixed-width little-endian codecs (src/util/coding.cc) and the CRC-32C
    checksum (src/util/crc32c.cc). *)
From S2P Require Import Prelude.

(** ** src/util/coding.cc *)

(** [static_cast<std::uint32_t>(static_cast<unsigned char>(src[i]))]. *)
Definition byte_at (src : bytes) (i : nat) : Z := byte_to_Z (nth i src x00).

Definition encodeFixed32 (value : Z) : bytes :=
  [ byte_of_Z (Z.land value 255);
    byte_of_Z (Z.land (Z.shiftr value 8) 255);
    byte_of_Z (Z.land (Z.shiftr value 16) 255);
    byte_of_Z (Z.land (Z.shiftr value 24) 255) ].

(** The caller provides at least four readable bytes. *)
Definition decodeFixed32 (src : bytes) : Z :=
  Z.lor (Z.lor (Z.lor (byte_at src 0)
                      (Z.shiftl (byte_at src 1) 8))
               (Z.shiftl (byte_at src 2) 16))
        (Z.shiftl (byte_at src 3) 24).

(** The accumulation loop of [decodeFixed64], from [index] on. *)
Fixpoint decodeFixed64_loop (data : bytes) (fuel index : nat) (value : Z) : Z :=
  match fuel with
  | O => value
  | S fuel =>
      decodeFixed64_loop data fuel (S index)
        (Z.lor value (Z.shiftl (byte_at data index) (Z.of_nat index * 8)))
  end.
Definition decodeFixed64 (data : bytes) : Z := decodeFixed64_loop data 8 0 0.

Definition putFixed32 (dst : bytes) (value : Z) : bytes := dst ++ encodeFixed32 value.

Fixpoint putFixed64_loop (dst : bytes) (fuel index : nat) (value : Z) : bytes :=
  match fuel with
  | O => dst
  | S fuel =>
      putFixed64_loop
        (dst ++ [byte_of_Z (Z.land (Z.shiftr value (Z.of_nat index * 8)) 255)])
        fuel (S index) value
  end.
Definition putFixed64 (dst : bytes) (value : Z) : bytes := putFixed64_loop dst 8 0 value.

(** On success the decoded value and the advanced input; on failure neither
    output is touched. *)
Definition getFixed32 (input : bytes) : option (Z * bytes) :=
  if len input <? 4 then None
  else Some (decodeFixed32 input, drop 4 input).

Definition getFixed64 (input : bytes) : option (Z * bytes) :=
  if len input <? 8 then None
  else Some (decodeFixed64 input, drop 8 input).

(** ** src/util/crc32c.cc *)

Definition kCrc32cPolynomial : Z := 2197175160. (* 0x82f63b78 *)

Definition crc_bit (crc : Z) : Z :=
  if Z.land crc 1 =? 0 then Z.shiftr crc 1
  else Z.lxor (Z.shiftr crc 1) kCrc32cPolynomial.

Definition crc_byte (crc : Z) (character : byte) : Z :=
  Nat.iter 8 crc_bit (Z.lxor crc (byte_to_Z character)).

(** [~crc] at 32 bits is the exclusive or with [0xffffffff]. *)
Definition crc32c (input : bytes) : Z :=
  Z.lxor (foldl crc_byte kUint32Max input) kUint32Max.

(** ** The codecs against the digit expansion *)

Lemma land_255 z : Z.land z 255 = z mod 256.
Proof. change 255 with (Z.ones 8). by rewrite Z.land_ones by lia. Qed.

Lemma byte_of_Z_mod z : byte_of_Z (z mod 256) = byte_of_Z z.
Proof. unfold byte_of_Z, wrap8. by rewrite Z.mod_mod by lia. Qed.

Lemma encodeFixed32_le_bytes value : encodeFixed32 value = le_bytes 4 value.
Proof.
  unfold encodeFixed32. rewrite !land_255, !byte_of_Z_mod, !Z.shiftr_div_pow2 by lia.
  simpl. rewrite !Z.div_div by lia. done.
Qed.

Lemma byte_at_range s i : 0 <= byte_at s i < 256.
Proof. apply byte_to_Z_range. Qed.

Lemma decodeFixed32_sum s :
  decodeFixed32 s =
  byte_at s 0 + byte_at s 1 * 2 ^ 8 + byte_at s 2 * 2 ^ 16 + byte_at s 3 * 2 ^ 24.
Proof.
  pose proof (byte_at_range s 0). pose proof (byte_at_range s 1).
  pose proof (byte_at_range s 2). pose proof (byte_at_range s 3).
  unfold decodeFixed32.
  rewrite (lor_shiftl_add (byte_at s 0)) by lia.
  rewrite (lor_shiftl_add (byte_at s 0 + _)) by lia.
  by rewrite lor_shiftl_add by lia.
Qed.

Lemma decodeFixed32_range s : 0 <= decodeFixed32 s <= kUint32Max.
Proof.
  rewrite decodeFixed32_sum. unfold kUint32Max.
  pose proof (byte_at_range s 0). pose proof (byte_at_range s 1).
  pose proof (byte_at_range s 2). pose proof (byte_at_range s 3). lia.
Qed.

Lemma byte_at_app_l s t i : (i < length s)%nat -> byte_at (s ++ t) i = byte_at s i.
Proof. intros. unfold byte_at. by rewrite app_nth1. Qed.

Lemma decodeFixed32_app s t : len s = 4 -> decodeFixed32 (s ++ t) = le_value s.
Proof.
  intros Hs. destruct s as [|a [|b [|c [|d [|]]]]]; try (revert Hs; llia).
  rewrite decodeFixed32_sum. unfold byte_at; simpl. lia.
Qed.

Lemma decodeFixed64_loop_spec fuel : forall data index value,
  0 <= value < 256 ^ Z.of_nat index ->
  (index + fuel <= length data)%nat ->
  decodeFixed64_loop data fuel index value =
  value + 256 ^ Z.of_nat index * le_value (take fuel (drop index data)).
Proof.
  induction fuel as [|fuel IH]; intros data index value Hv Hl; simpl.
  { lia. }
  destruct (drop index data) as [|b rest] eqn:Hd.
  { apply (f_equal length) in Hd. rewrite length_drop in Hd. simpl in Hd. lia. }
  assert (byte_at data index = byte_to_Z b) as Hb.
  { unfold byte_at. rewrite <- (take_drop index data), Hd.
    rewrite app_nth2; rewrite length_take; [|lia].
    by replace (index - index `min` length data)%nat with 0%nat by lia. }
  assert (drop (S index) data = rest) as Hr.
  { replace (S index) with (index + 1)%nat by lia. by rewrite <- drop_drop, Hd. }
  pose proof (byte_to_Z_range b).
  assert (256 ^ Z.of_nat (S index) = 256 * 256 ^ Z.of_nat index) as Hp
    by (rewrite Nat2Z.inj_succ, Z.pow_succ_r by lia; lia).
  assert (2 ^ (Z.of_nat index * 8) = 256 ^ Z.of_nat index) as Hq
    by (rewrite Z.mul_comm, Z.pow_mul_r by lia; done).
  rewrite lor_shiftl_add by (rewrite ?Hq; lia). rewrite Hq, Hb.
  rewrite IH; [|rewrite Hp; nia|lia].
  rewrite Hr, Hp. simpl. lia.
Qed.

Lemma decodeFixed64_app s t : len s = 8 -> decodeFixed64 (s ++ t) = le_value s.
Proof.
  intros Hs. unfold decodeFixed64.
  assert (length s = 8%nat) as Hl by (unfold len in Hs; lia).
  rewrite decodeFixed64_loop_spec; [|lia|rewrite length_app; lia].
  rewrite drop_0, take_app_le, take_ge by lia. simpl (256 ^ _). lia.
Qed.

Lemma putFixed64_loop_spec fuel : forall dst index value,
  putFixed64_loop dst fuel index value =
  dst ++ le_bytes fuel (value / 256 ^ Z.of_nat index).
Proof.
  induction fuel as [|fuel IH]; intros dst index value; simpl; [by rewrite app_nil_r|].
  rewrite IH, <- app_assoc, land_255, byte_of_Z_mod, Z.shiftr_div_pow2 by lia. simpl.
  rewrite Z.mul_comm, Z.pow_mul_r by lia. change (2 ^ 8) with 256.
  pose proof (Z.pow_pos_nonneg 256 (Z.of_nat index) ltac:(lia) ltac:(lia)).
  rewrite Z.div_div by lia.
  replace (Z.pos (Pos.of_succ_nat index)) with (Z.of_nat (S index)) by lia.
  rewrite Nat2Z.inj_succ, Z.pow_succ_r by lia. by rewrite (Z.mul_comm 256).
Qed.

Lemma putFixed64_le_bytes dst value : putFixed64 dst value = dst ++ le_bytes 8 value.
Proof. unfold putFixed64. rewrite putFixed64_loop_spec. by rewrite Z.div_1_r. Qed.

Lemma putFixed32_le_bytes dst value : putFixed32 dst value = dst ++ le_bytes 4 value.
Proof. unfold putFixed32. by rewrite encodeFixed32_le_bytes. Qed.

#[export] Hint Rewrite putFixed64_le_bytes putFixed32_le_bytes encodeFixed32_le_bytes : len.

Lemma le_value_le_bytes4 v : 0 <= v <= kUint32Max -> le_value (le_bytes 4 v) = v.
Proof. intros. rewrite le_value_le_bytes. apply Z.mod_small. unfold kUint32Max in *. simpl. lia. Qed.

Lemma le_value_le_bytes8 v : 0 <= v <= kUint64Max -> le_value (le_bytes 8 v) = v.
Proof. intros. rewrite le_value_le_bytes. apply Z.mod_small. unfold kUint64Max in *. simpl. lia. Qed.

(** Reading back what was appended. *)
Lemma getFixed32_app v rest :
  0 <= v <= kUint32Max -> getFixed32 (le_bytes 4 v ++ rest) = Some (v, rest).
Proof.
  intros Hv. unfold getFixed32. destruct (Z.ltb_spec (len (le_bytes 4 v ++ rest)) 4); [llia|].
  rewrite decodeFixed32_app, le_value_le_bytes4 by llia. done.
Qed.

Lemma getFixed64_app v rest :
  0 <= v <= kUint64Max -> getFixed64 (le_bytes 8 v ++ rest) = Some (v, rest).
Proof.
  intros Hv. unfold getFixed64. destruct (Z.ltb_spec (len (le_bytes 8 v ++ rest)) 8); [llia|].
  rewrite decodeFixed64_app, le_value_le_bytes8 by llia. done.
Qed.

(** Whatever [getFixed] accepts is the encoding of what it returns. *)
Lemma getFixed32_Some input v rest :
  getFixed32 input = Some (v, rest) ->
  input = le_bytes 4 v ++ rest /\ 0 <= v <= kUint32Max.
Proof.
  unfold getFixed32. destruct (Z.ltb_spec (len input) 4); [done|]. intros; simplify_eq.
  assert (len (take 4 input) = 4) as Ht by llia.
  assert (decodeFixed32 input = le_value (take 4 input)) as He.
  { rewrite <- (take_drop 4 input) at 1. by apply decodeFixed32_app. }
  split; [|rewrite He; pose proof (le_value_range (take 4 input)); rewrite Ht in *;
           unfold kUint32Max; lia].
  rewrite He. rewrite <- (take_drop 4 input) at 1. f_equal.
  rewrite <- (le_bytes_le_value (take 4 input)) at 1. f_equal. unfold len in Ht; lia.
Qed.

Lemma getFixed64_Some input v rest :
  getFixed64 input = Some (v, rest) ->
  input = le_bytes 8 v ++ rest /\ 0 <= v <= kUint64Max.
Proof.
  unfold getFixed64. destruct (Z.ltb_spec (len input) 8); [done|]. intros; simplify_eq.
  assert (len (take 8 input) = 8) as Ht by llia.
  assert (decodeFixed64 input = le_value (take 8 input)) as He.
  { rewrite <- (take_drop 8 input) at 1. by apply decodeFixed64_app. }
  split; [|rewrite He; pose proof (le_value_range (take 8 input)); rewrite Ht in *;
           unfold kUint64Max; lia].
  rewrite He. rewrite <- (take_drop 8 input) at 1. f_equal.
  rewrite <- (le_bytes_le_value (take 8 input)) at 1. f_equal. unfold len in Ht; lia.
Qed.

Lemma getFixed32_None input : getFixed32 input = None <-> len input < 4.
Proof. unfold getFixed32. destruct (Z.ltb_spec (len input) 4); split; (done || lia). Qed.

Lemma getFixed64_None input : getFixed64 input = None <-> len input < 8.
Proof. unfold getFixed64. destruct (Z.ltb_spec (len input) 8); split; (done || lia). Qed.

(** ** CRC-32C *)

Lemma lxor_range n a b :
  0 <= n -> 0 <= a < 2 ^ n -> 0 <= b < 2 ^ n -> 0 <= Z.lxor a b < 2 ^ n.
Proof.
  intros Hn Ha Hb. assert (0 <= Z.lxor a b) by (apply Z.lxor_nonneg; lia). split; [done|].
  destruct (decide (Z.lxor a b = 0)) as [->|]; [lia|].
  apply Z.log2_lt_pow2; [lia|]. pose proof (Z.log2_lxor a b ltac:(lia) ltac:(lia)).
  destruct (decide (n = 0)) as [->|].
  { assert (a = 0) as -> by lia. assert (b = 0) as -> by lia. done. }
  assert (forall x, 0 <= x < 2 ^ n -> Z.log2 x < n) as Hlog.
  { intros x Hx. destruct (decide (x = 0)) as [->|]; [simpl; lia|]. apply Z.log2_lt_pow2; lia. }
  pose proof (Hlog a Ha). pose proof (Hlog b Hb). lia.
Qed.

Definition in_u32 (z : Z) : Prop := 0 <= z < 2 ^ 32.

Lemma byte_in_u32 b : in_u32 (byte_to_Z b).
Proof. unfold in_u32. pose proof (byte_to_Z_range b). lia. Qed.

Lemma lxor_in_u32 a b : in_u32 a -> in_u32 b -> in_u32 (Z.lxor a b).
Proof. unfold in_u32. intros. apply lxor_range; lia. Qed.

Lemma shiftr_in_u32 a : in_u32 a -> in_u32 (Z.shiftr a 1).
Proof.
  unfold in_u32. intros. rewrite Z.shiftr_div_pow2 by lia. change (2 ^ 1) with 2. split.
  - apply Z.div_pos; lia.
  - apply Z.div_lt_upper_bound; lia.
Qed.

Lemma crc_bit_in_u32 c : in_u32 c -> in_u32 (crc_bit c).
Proof.
  intros. unfold crc_bit. case_match; [by apply shiftr_in_u32|].
  apply lxor_in_u32; [by apply shiftr_in_u32|done].
Qed.

(** The top bit of the shifted register is the bit that was shifted out, as
    the reflected polynomial has bit 31 set. *)
Lemma crc_bit_top c : in_u32 c -> Z.testbit (crc_bit c) 31 = negb (Z.land c 1 =? 0).
Proof.
  unfold in_u32. intros Hc.
  assert (Z.testbit (Z.shiftr c 1) 31 = false) as Hs.
  { rewrite Z.shiftr_spec by lia. change (31 + 1) with 32.
    destruct (decide (c = 0)) as [->|]; [done|].
    apply Z.bits_above_log2; [lia|]. apply Z.log2_lt_pow2; lia. }
  unfold crc_bit. case_match; [done|]. by rewrite Z.lxor_spec, Hs.
Qed.

Lemma crc_bit_inj a b : in_u32 a -> in_u32 b -> crc_bit a = crc_bit b -> a = b.
Proof.
  intros Ha Hb Heq.
  assert ((Z.land a 1 =? 0) = (Z.land b 1 =? 0)) as Hl.
  { rewrite <- (negb_involutive (Z.land a 1 =? 0)), <- (negb_involutive (Z.land b 1 =? 0)).
    by rewrite <- !crc_bit_top, Heq. }
  assert (Z.shiftr a 1 = Z.shiftr b 1) as Hs.
  { unfold crc_bit in Heq. rewrite Hl in Heq. case_match; [done|].
    apply (f_equal (fun x => Z.lxor x kCrc32cPolynomial)) in Heq.
    by rewrite !Z.lxor_assoc, !Z.lxor_nilpotent, !Z.lxor_0_r in Heq. }
  assert (Z.land a 1 = Z.land b 1) as Hlow.
  { revert Hl. change 1 with (Z.ones 1). rewrite !Z.land_ones by lia. change (2 ^ 1) with 2.
    pose proof (Z.mod_pos_bound a 2 ltac:(lia)). pose proof (Z.mod_pos_bound b 2 ltac:(lia)).
    destruct (Z.eqb_spec (a mod 2) 0), (Z.eqb_spec (b mod 2) 0); (done || lia). }
  revert Hs Hlow. change 1 with (Z.ones 1) at 3 4. rewrite !Z.land_ones by lia.
  rewrite !Z.shiftr_div_pow2 by lia. change (2 ^ 1) with 2.
  pose proof (Z.div_mod a 2 ltac:(lia)). pose proof (Z.div_mod b 2 ltac:(lia)). lia.
Qed.

Lemma crc_bits_inj n : forall a b, in_u32 a -> in_u32 b ->
  Nat.iter n crc_bit a = Nat.iter n crc_bit b -> a = b.
Proof.
  assert (forall n c, in_u32 c -> in_u32 (Nat.iter n crc_bit c)) as Hr.
  { intros m c; induction m; simpl; intros; auto using crc_bit_in_u32. }
  induction n as [|n IH]; simpl; [done|]. intros a b Ha Hb Heq.
  apply IH; auto. apply crc_bit_inj; auto.
Qed.

Lemma lxor_inj_l a b c : Z.lxor a c = Z.lxor b c -> a = b.
Proof.
  intros H. apply (f_equal (fun x => Z.lxor x c)) in H.
  by rewrite !Z.lxor_assoc, !Z.lxor_nilpotent, !Z.lxor_0_r in H.
Qed.

Lemma crc_byte_in_u32 c b : in_u32 c -> in_u32 (crc_byte c b).
Proof.
  intros. unfold crc_byte.
  assert (forall n c, in_u32 c -> in_u32 (Nat.iter n crc_bit c)) as Hr.
  { intros m x; induction m; simpl; intros; auto using crc_bit_in_u32. }
  apply Hr, lxor_in_u32; auto using byte_in_u32.
Qed.

Lemma crc_byte_inj_l a b x : in_u32 a -> in_u32 b -> crc_byte a x = crc_byte b x -> a = b.
Proof.
  intros Ha Hb Heq. apply crc_bits_inj in Heq; auto using lxor_in_u32, byte_in_u32.
  by apply lxor_inj_l in Heq.
Qed.

Lemma crc_byte_inj_r c x y : in_u32 c -> crc_byte c x = crc_byte c y -> x = y.
Proof.
  intros Hc Heq. apply crc_bits_inj in Heq; auto using lxor_in_u32, byte_in_u32.
  apply byte_to_Z_inj. rewrite !(Z.lxor_comm c) in Heq. by apply lxor_inj_l in Heq.
Qed.

Lemma crc_fold_in_u32 s : forall c, in_u32 c -> in_u32 (foldl crc_byte c s).
Proof. induction s; simpl; intros; auto using crc_byte_in_u32. Qed.

Lemma crc_fold_inj s : forall a b, in_u32 a -> in_u32 b ->
  foldl crc_byte a s = foldl crc_byte b s -> a = b.
Proof.
  induction s as [|x s IH]; simpl; [done|]. intros a b Ha Hb Heq.
  apply (crc_byte_inj_l a b x); auto. apply IH; auto using crc_byte_in_u32.
Qed.

Lemma kUint32Max_in_u32 : in_u32 kUint32Max.
Proof. done. Qed.
#[export] Hint Resolve kUint32Max_in_u32 : core.

Lemma crc32c_range s : 0 <= crc32c s <= kUint32Max.
Proof.
  assert (in_u32 (crc32c s)) as H by (apply lxor_in_u32; auto using crc_fold_in_u32).
  unfold in_u32, kUint32Max in *. lia.
Qed.

(** Exclusive or with an even word commutes with the shift, so the checksum of
    a run of bytes is the register shifted out of their little-endian word. *)
Lemma crc_bit_lxor_even a b :
  Z.even b = true -> crc_bit (Z.lxor a b) = Z.lxor (crc_bit a) (Z.shiftr b 1).
Proof.
  intros Hb. unfold crc_bit.
  assert (Z.land (Z.lxor a b) 1 = Z.land a 1) as ->.
  { apply Z.bits_inj'; intros i Hi. rewrite !Z.land_spec, Z.lxor_spec.
    destruct (decide (i = 0)) as [->|].
    - rewrite (Z.bit0_odd b), <- Z.negb_even, Hb. simpl. by rewrite xorb_false_r.
    - assert (Z.testbit 1 i = false) as -> by (apply Z.bits_above_log2; simpl; lia).
      by rewrite !andb_false_r. }
  rewrite Z.shiftr_lxor. case_match; [done|].
  rewrite !Z.lxor_assoc. f_equal. apply Z.lxor_comm.
Qed.

Lemma crc_bits_lxor n : forall a b,
  Nat.iter n crc_bit (Z.lxor a (Z.shiftl b (Z.of_nat n))) = Z.lxor (Nat.iter n crc_bit a) b.
Proof.
  induction n as [|n IH]; intros a b; [simpl; by rewrite Z.shiftl_0_r|].
  rewrite !Nat.iter_succ_r, crc_bit_lxor_even.
  - rewrite Z.shiftr_shiftl_l by lia.
    replace (Z.of_nat (S n) - 1) with (Z.of_nat n) by lia. apply IH.
  - rewrite Nat2Z.inj_succ, Z.shiftl_mul_pow2, Z.pow_succ_r by lia.
    by rewrite Z.even_mul, Z.even_mul, orb_true_r.
Qed.

Lemma crc_fold_word w : forall c,
  foldl crc_byte c w = Nat.iter (8 * length w) crc_bit (Z.lxor c (le_value w)).
Proof.
  induction w as [|x w IH]; intros c; [simpl; by rewrite Z.lxor_0_r|].
  simpl foldl. rewrite IH. simpl length.
  replace (8 * S (length w))%nat with (8 * length w + 8)%nat by lia.
  rewrite Nat.iter_add. f_equal. simpl le_value.
  replace (byte_to_Z x + 256 * le_value w)
    with (Z.lxor (byte_to_Z x) (Z.shiftl (le_value w) (Z.of_nat 8))).
  - by rewrite <- Z.lxor_assoc, crc_bits_lxor.
  - pose proof (byte_to_Z_range x). rewrite <- Z.add_nocarry_lxor.
    + rewrite Z.shiftl_mul_pow2 by lia. change (2 ^ Z.of_nat 8) with 256. lia.
    + apply Z.bits_inj'; intros i Hi. rewrite Z.land_spec, Z.bits_0.
      destruct (decide (i < 8)); [by rewrite Z.shiftl_spec_low, andb_false_r by lia|].
      destruct (decide (byte_to_Z x = 0)) as [->|]; [by rewrite Z.bits_0|].
      rewrite (Z.bits_above_log2 (byte_to_Z x)); [done|lia|].
      apply Z.log2_lt_pow2; [lia|]. apply Z.lt_le_trans with (2 ^ 8); [lia|].
      apply Z.pow_le_mono_r; lia.
Qed.

Lemma crc32c_burst p u v s :
  length u = length v -> len u <= 4 ->
  crc32c (p ++ u ++ s) = crc32c (p ++ v ++ s) -> u = v.
Proof.
  intros Hl H4. unfold crc32c. intros H%lxor_inj_l. rewrite !foldl_app in H.
  assert (in_u32 (foldl crc_byte kUint32Max p)) as Hp by auto using crc_fold_in_u32.
  revert Hp H. generalize (foldl crc_byte kUint32Max p) as c. intros c Hp H.
  assert (forall w, len w <= 4 -> in_u32 (le_value w)) as Hw.
  { intros w Hw. pose proof (le_value_range w). unfold in_u32.
    assert (256 ^ len w <= 256 ^ 4) by (apply Z.pow_le_mono_r; lia). lia. }
  assert (len v <= 4) by (unfold len in *; lia).
  apply crc_fold_inj in H; [|by apply crc_fold_in_u32..].
  rewrite !crc_fold_word, Hl in H. apply crc_bits_inj in H; auto using lxor_in_u32.
  rewrite !(Z.lxor_comm c) in H. apply lxor_inj_l in H.
  by rewrite <- (le_bytes_le_value u), <- (le_bytes_le_value v), H, Hl.
Qed.

#[global] Opaque le_bytes.
#[global] Arguments crc32c : simpl never.
