(* ===== verification/InternalKey.v ===== *)
(** Internal keys (src/db/internal_key.h, src/db/internal_key.cc): a user key
    followed by a 64-bit tag holding the sequence number and the value type,
    and the order the whole engine sorts by. *)
From S2P Require Import Prelude Coding.

(** ** Data *)

Definition kMaxSequenceNumber : Z := 72057594037927935. (* 2^56 - 1 *)
Definition kTagSize : Z := 8.

Inductive ValueType := kDeletion | kValue.

#[global] Instance ValueType_eq_dec : EqDecision ValueType.
Proof. solve_decision. Defined.

Definition ValueType_value (t : ValueType) : Z :=
  match t with kDeletion => 0 | kValue => 1 end.

(** [static_cast<ValueType>] followed by [isValidValueType]. *)
Definition isValidValueType (v : Z) : option ValueType :=
  if v =? 0 then Some kDeletion else if v =? 1 then Some kValue else None.

Record ParsedInternalKey := mkParsed {
  user_key : bytes;
  sequence : Z;
  type : ValueType;
}.

(** ** [std::string_view] comparison: lexicographic on unsigned bytes *)

Fixpoint bytes_compare (a b : bytes) : comparison :=
  match a, b with
  | [], [] => Eq
  | [], _ :: _ => Lt
  | _ :: _, [] => Gt
  | x :: a', y :: b' =>
      match byte_to_Z x ?= byte_to_Z y with
      | Eq => bytes_compare a' b'
      | c => c
      end
  end.

Definition bytes_ltb (a b : bytes) : bool :=
  match bytes_compare a b with Lt => true | _ => false end.
Definition bytes_leb (a b : bytes) : bool := negb (bytes_ltb b a).
Definition bytes_eqb (a b : bytes) : bool := bool_decide (a = b).

(** ** Operations *)

Definition decodeTag (internal_key : bytes) : Z :=
  decodeFixed64 (drop (length internal_key - 8) internal_key).

(** [internal_key.substr(0, internal_key.size() - kTagSize)]. *)
Definition strip_tag (internal_key : bytes) : bytes :=
  take (length internal_key - 8) internal_key.

Definition encodeInternalKey (key : bytes) (seq : Z) (t : ValueType) : bytes :=
  putFixed64 key (Z.lor (wrap64 (Z.shiftl seq 8)) (ValueType_value t)).

Definition parseInternalKey (encoded : bytes) : option ParsedInternalKey :=
  if len encoded <? kTagSize then None
  else
    let tag := decodeTag encoded in
    match isValidValueType (Z.land tag 255) with
    | None => None
    | Some t => Some (mkParsed (strip_tag encoded) (Z.shiftr tag 8) t)
    end.

Definition InternalKeyLess (lhs rhs : bytes) : bool :=
  match bytes_compare (strip_tag lhs) (strip_tag rhs) with
  | Lt => true
  | Gt => false
  | Eq => decodeTag rhs <? decodeTag lhs
  end.

(** The order on decoded keys the encoding is meant to realise: user keys
    ascending, then sequence numbers descending, then values before deletions. *)
Definition parsed_ltb (a b : ParsedInternalKey) : bool :=
  match bytes_compare (user_key a) (user_key b) with
  | Lt => true
  | Gt => false
  | Eq =>
      (sequence b <? sequence a)
      || ((sequence a =? sequence b)
          && (ValueType_value (type b) <? ValueType_value (type a)))
  end.

(** ** User key order *)

Lemma bytes_compare_refl a : bytes_compare a a = Eq.
Proof. induction a as [|x a IH]; simpl; [done|]. by rewrite Z.compare_refl. Qed.

Lemma bytes_compare_eq a : forall b, bytes_compare a b = Eq <-> a = b.
Proof.
  induction a as [|x a IH]; intros [|y b]; simpl; try done.
  destruct (Z.compare_spec (byte_to_Z x) (byte_to_Z y)) as [E|E|E].
  - apply byte_to_Z_inj in E as ->. rewrite IH. split; congruence.
  - split; [done|]. intros; simplify_eq; lia.
  - split; [done|]. intros; simplify_eq; lia.
Qed.

Lemma bytes_compare_antisym a : forall b, bytes_compare b a = CompOpp (bytes_compare a b).
Proof.
  induction a as [|x a IH]; intros [|y b]; simpl; try done.
  rewrite Z.compare_antisym. destruct (byte_to_Z x ?= byte_to_Z y); simpl; auto.
Qed.

Lemma bytes_compare_lt_trans a : forall b c,
  bytes_compare a b = Lt -> bytes_compare b c = Lt -> bytes_compare a c = Lt.
Proof.
  induction a as [|x a IH]; intros [|y b] [|z c]; simpl; try done.
  destruct (Z.compare_spec (byte_to_Z x) (byte_to_Z y)) as [E|E|E],
    (Z.compare_spec (byte_to_Z y) (byte_to_Z z)) as [F|F|F];
    destruct (Z.compare_spec (byte_to_Z x) (byte_to_Z z)); try done; try lia; eauto.
Qed.

(** One case analysis for two user keys. *)
Inductive bytes_order (a b : bytes) : comparison -> Prop :=
  | bytes_order_lt : bytes_ltb a b = true -> bytes_ltb b a = false -> a <> b -> bytes_order a b Lt
  | bytes_order_eq : a = b -> bytes_order a b Eq
  | bytes_order_gt : bytes_ltb b a = true -> bytes_ltb a b = false -> a <> b -> bytes_order a b Gt.

Lemma bytes_compare_spec a b : bytes_order a b (bytes_compare a b).
Proof.
  pose proof (bytes_compare_antisym a b) as Hs.
  destruct (bytes_compare a b) eqn:E.
  - constructor. by apply bytes_compare_eq.
  - constructor; unfold bytes_ltb; rewrite ?E, ?Hs; simpl; try done.
    intros ->. by rewrite bytes_compare_refl in E.
  - constructor; unfold bytes_ltb; rewrite ?E, ?Hs; simpl; try done.
    intros ->. by rewrite bytes_compare_refl in E.
Qed.

Lemma bytes_ltb_lt a b : bytes_ltb a b = true <-> bytes_compare a b = Lt.
Proof. unfold bytes_ltb. by destruct (bytes_compare a b). Qed.

Lemma bytes_ltb_irrefl a : bytes_ltb a a = false.
Proof. unfold bytes_ltb. by rewrite bytes_compare_refl. Qed.

Lemma bytes_ltb_trans a b c : bytes_ltb a b = true -> bytes_ltb b c = true -> bytes_ltb a c = true.
Proof. rewrite !bytes_ltb_lt. apply bytes_compare_lt_trans. Qed.

Lemma bytes_ltb_asym a b : bytes_ltb a b = true -> bytes_ltb b a = false.
Proof.
  intros H. destruct (bytes_ltb b a) eqn:E; [|done].
  by rewrite <- (bytes_ltb_irrefl a), (bytes_ltb_trans a b a).
Qed.

Lemma bytes_ltb_total a b : bytes_ltb a b = false -> bytes_ltb b a = false -> a = b.
Proof. intros. destruct (bytes_compare_spec a b); congruence. Qed.

Lemma bytes_ltb_leb_trans a b c :
  bytes_ltb a b = true -> bytes_ltb c b = false -> bytes_ltb a c = true.
Proof.
  intros H1 H2. destruct (bytes_compare_spec b c) as [H _ _| -> |H _ _]; [|done|congruence].
  by apply bytes_ltb_trans with b.
Qed.

Lemma bytes_leb_ltb_trans a b c :
  bytes_ltb b a = false -> bytes_ltb b c = true -> bytes_ltb a c = true.
Proof.
  intros H1 H2. destruct (bytes_compare_spec a b) as [H _ _| -> |H _ _]; [|done|congruence].
  by apply bytes_ltb_trans with b.
Qed.

(** ** Tags *)

Definition tag_of (seq : Z) (t : ValueType) : Z := seq * 256 + ValueType_value t.

Lemma ValueType_value_range t : 0 <= ValueType_value t <= 1.
Proof. destruct t; simpl; lia. Qed.

Lemma tag_encoding seq t :
  0 <= seq <= kMaxSequenceNumber ->
  Z.lor (wrap64 (Z.shiftl seq 8)) (ValueType_value t) = tag_of seq t.
Proof.
  unfold kMaxSequenceNumber. intros. pose proof (ValueType_value_range t). unfold wrap64.
  rewrite Z.mod_small by (rewrite Z.shiftl_mul_pow2 by lia; lia).
  rewrite Z.lor_comm, lor_shiftl_add by lia. unfold tag_of. lia.
Qed.

Lemma tag_of_range seq t :
  0 <= seq <= kMaxSequenceNumber -> 0 <= tag_of seq t <= kUint64Max.
Proof. unfold kMaxSequenceNumber, kUint64Max, tag_of. pose proof (ValueType_value_range t). lia. Qed.

Lemma encodeInternalKey_eq key seq t :
  0 <= seq <= kMaxSequenceNumber ->
  encodeInternalKey key seq t = key ++ le_bytes 8 (tag_of seq t).
Proof. intros. unfold encodeInternalKey. by rewrite tag_encoding, putFixed64_le_bytes. Qed.

Lemma strip_tag_app key suffix : length suffix = 8%nat -> strip_tag (key ++ suffix) = key.
Proof.
  intros H. unfold strip_tag. rewrite length_app, H.
  replace (length key + 8 - 8)%nat with (length key) by lia. by rewrite take_app_length.
Qed.

Lemma decodeTag_app key tag :
  0 <= tag <= kUint64Max -> decodeTag (key ++ le_bytes 8 tag) = tag.
Proof.
  intros H. unfold decodeTag. rewrite length_app.
  assert (length (le_bytes 8 tag) = 8%nat) as -> by done.
  replace (length key + 8 - 8)%nat with (length key) by lia. rewrite drop_app_length.
  rewrite <- (app_nil_r (le_bytes 8 tag)), decodeFixed64_app by done. by apply le_value_le_bytes8.
Qed.

(** Every string of at least eight bytes is a user key followed by a tag. *)
Lemma internal_key_split s :
  kTagSize <= len s -> s = strip_tag s ++ le_bytes 8 (decodeTag s) /\ 0 <= decodeTag s <= kUint64Max.
Proof.
  unfold kTagSize, len. intros H. unfold strip_tag, decodeTag.
  set (n := (length s - 8)%nat).
  assert (length (drop n s) = 8%nat) as Hd by (rewrite length_drop; lia).
  assert (decodeFixed64 (drop n s) = le_value (drop n s)) as He.
  { rewrite <- (app_nil_r (drop n s)) at 1. apply decodeFixed64_app. unfold len; lia. }
  rewrite He. split.
  - rewrite <- (take_drop n s) at 1. f_equal. by rewrite <- Hd, le_bytes_le_value.
  - pose proof (le_value_range (drop n s)) as Hr. unfold len in Hr. rewrite Hd in Hr.
    change (256 ^ Z.of_nat 8) with (kUint64Max + 1) in Hr. lia.
Qed.

Lemma decodeTag_range s : kTagSize <= len s -> 0 <= decodeTag s <= kUint64Max.
Proof. intros H. apply internal_key_split in H as [_ H]. exact H. Qed.

(** ** Parsing *)

Lemma isValidValueType_Some v t : isValidValueType v = Some t <-> v = ValueType_value t.
Proof.
  unfold isValidValueType. destruct (Z.eqb_spec v 0) as [->|]; [|destruct (Z.eqb_spec v 1) as [->|]];
    destruct t; simpl; split; (done || lia).
Qed.

Lemma parse_encode key seq t :
  0 <= seq <= kMaxSequenceNumber ->
  parseInternalKey (encodeInternalKey key seq t) = Some (mkParsed key seq t).
Proof.
  intros H. rewrite encodeInternalKey_eq by done. unfold parseInternalKey.
  pose proof (tag_of_range seq t H). pose proof (ValueType_value_range t).
  destruct (Z.ltb_spec (len (key ++ le_bytes 8 (tag_of seq t))) kTagSize); [unfold kTagSize in *; llia|].
  rewrite decodeTag_app, strip_tag_app by done. rewrite land_255, Z.shiftr_div_pow2 by lia.
  unfold tag_of. change (2 ^ 8) with 256.
  rewrite Z.add_comm, Z.mod_add, Z.div_add, Z.mod_small, Z.div_small by lia.
  by rewrite (proj2 (isValidValueType_Some _ t)).
Qed.

Lemma parse_Some s p :
  parseInternalKey s = Some p ->
  s = encodeInternalKey (user_key p) (sequence p) (type p) /\
  0 <= sequence p <= kMaxSequenceNumber.
Proof.
  unfold parseInternalKey. destruct (Z.ltb_spec (len s) kTagSize) as [|Hl]; [done|].
  apply internal_key_split in Hl as [Hs Ht]. case_match eqn:Hv; [|done]. intros; simplify_eq; simpl.
  apply isValidValueType_Some in Hv. rewrite land_255 in Hv. rewrite Z.shiftr_div_pow2 by lia.
  change (2 ^ 8) with 256.
  assert (0 <= decodeTag s / 256 <= kMaxSequenceNumber) as Hr.
  { unfold kUint64Max, kMaxSequenceNumber in *. split; [apply Z.div_pos; lia|].
    apply Z.lt_succ_r, Z.div_lt_upper_bound; lia. }
  split; [|done]. rewrite encodeInternalKey_eq by done. rewrite Hs at 1. do 2 f_equal.
  unfold tag_of. rewrite <- Hv. pose proof (Z.div_mod (decodeTag s) 256 ltac:(lia)). lia.
Qed.

Lemma parse_len s p : parseInternalKey s = Some p -> kTagSize <= len s.
Proof. unfold parseInternalKey. by destruct (Z.ltb_spec (len s) kTagSize). Qed.

Lemma parse_inj s s' p : parseInternalKey s = Some p -> parseInternalKey s' = Some p -> s = s'.
Proof. intros [-> _]%parse_Some [-> _]%parse_Some. done. Qed.

(** ** The internal key order *)

Lemma InternalKeyLess_irrefl a : InternalKeyLess a a = false.
Proof. unfold InternalKeyLess. rewrite bytes_compare_refl. apply Z.ltb_irrefl. Qed.

Lemma InternalKeyLess_trans a b c :
  InternalKeyLess a b = true -> InternalKeyLess b c = true -> InternalKeyLess a c = true.
Proof.
  unfold InternalKeyLess.
  destruct (bytes_compare_spec (strip_tag a) (strip_tag b)) as [H1 _ _|E1|H1 _ _]; [| |done];
  destruct (bytes_compare_spec (strip_tag b) (strip_tag c)) as [H2 _ _|E2|H2 _ _]; try done.
  - apply bytes_ltb_lt in H1, H2. by rewrite (bytes_compare_lt_trans _ _ _ H1 H2).
  - rewrite <- E2. apply bytes_ltb_lt in H1. by rewrite H1.
  - rewrite E1. apply bytes_ltb_lt in H2. by rewrite H2.
  - rewrite E1, E2, bytes_compare_refl. lia.
Qed.

Lemma InternalKeyLess_asym a b : InternalKeyLess a b = true -> InternalKeyLess b a = false.
Proof.
  intros H. destruct (InternalKeyLess b a) eqn:E; [|done].
  by rewrite <- (InternalKeyLess_irrefl a), (InternalKeyLess_trans a b a).
Qed.

Lemma InternalKeyLess_total a b :
  kTagSize <= len a -> kTagSize <= len b ->
  InternalKeyLess a b = false -> InternalKeyLess b a = false -> a = b.
Proof.
  intros [Ha _]%internal_key_split [Hb _]%internal_key_split. unfold InternalKeyLess.
  rewrite (bytes_compare_antisym (strip_tag a) (strip_tag b)).
  destruct (bytes_compare_spec (strip_tag a) (strip_tag b)) as [|E|]; simpl; try done.
  intros. rewrite Ha, Hb, E. do 2 f_equal. lia.
Qed.

Lemma InternalKeyLess_le_trans a b c :
  kTagSize <= len b -> kTagSize <= len c ->
  InternalKeyLess a b = true -> InternalKeyLess c b = false -> InternalKeyLess a c = true.
Proof.
  intros Hb Hc H1 H2. destruct (InternalKeyLess b c) eqn:E.
  - by apply InternalKeyLess_trans with b.
  - by rewrite <- (InternalKeyLess_total b c).
Qed.

Lemma InternalKeyLess_le_trans' a b c :
  kTagSize <= len a -> kTagSize <= len b ->
  InternalKeyLess b a = false -> InternalKeyLess b c = true -> InternalKeyLess a c = true.
Proof.
  intros Ha Hb H1 H2. destruct (InternalKeyLess a b) eqn:E.
  - by apply InternalKeyLess_trans with b.
  - by rewrite (InternalKeyLess_total a b).
Qed.

Lemma InternalKeyLess_parsed a b p q :
  parseInternalKey a = Some p -> parseInternalKey b = Some q ->
  InternalKeyLess a b = parsed_ltb p q.
Proof.
  intros [-> Hp]%parse_Some [-> Hq]%parse_Some. rewrite !encodeInternalKey_eq by done.
  unfold InternalKeyLess. rewrite !strip_tag_app, !decodeTag_app by auto using tag_of_range.
  unfold parsed_ltb. destruct (bytes_compare _ _); [|done..].
  unfold tag_of. pose proof (ValueType_value_range (type p)).
  pose proof (ValueType_value_range (type q)). apply Bool.eq_iff_eq_true.
  rewrite orb_true_iff, andb_true_iff. lia.
Qed.
