(* ===== verification/Mvcc.v ===== *)
(** Multi-version reads, abstractly: what a point lookup at a sequence number
    must return from a collection of internal entries.  Every read path of the
    engine (memtable, SSTable, version, database, compaction) is stated against
    [mvcc_get].  [LookupResult] is src/db/lookup_result.h. *)
From S2P Require Import Prelude Coding InternalKey.

(** An internal entry: encoded internal key and value. *)
Notation entry := (bytes * bytes)%type.

(** [enum class LookupResult] together with the value output, which the code
    assigns exactly when the result is [LookupResult::kValue]. *)
Inductive LookupResult :=
  | LookupAbsent
  | LookupValue (value : bytes)
  | LookupDeleted.

#[global] Instance LookupResult_eq_dec : EqDecision LookupResult.
Proof. solve_decision. Defined.

Definition result_of (t : ValueType) (value : bytes) : LookupResult :=
  match t with kDeletion => LookupDeleted | kValue => LookupValue value end.

(** The version an entry contributes to a read of [key] at [seq]: its tag and
    what the read returns if this version wins. *)
Definition candidate (key : bytes) (seq : Z) (e : entry) : option (Z * LookupResult) :=
  match parseInternalKey e.1 with
  | None => None
  | Some p =>
      if bytes_eqb (user_key p) key && (sequence p <=? seq)
      then Some (tag_of (sequence p) (type p), result_of (type p) e.2)
      else None
  end.

(** The version with the largest tag, the first of equal ones. *)
Definition newer (a b : option (Z * LookupResult)) : option (Z * LookupResult) :=
  match a, b with
  | None, b => b
  | a, None => a
  | Some (t, r), Some (t', r') => if t <? t' then Some (t', r') else Some (t, r)
  end.

Definition newest (l : list (Z * LookupResult)) : option (Z * LookupResult) :=
  foldr (fun c acc => newer (Some c) acc) None l.

Definition outcome (o : option (Z * LookupResult)) : LookupResult :=
  match o with Some (_, r) => r | None => LookupAbsent end.

Definition mvcc_newest (es : list entry) (key : bytes) (seq : Z) : option (Z * LookupResult) :=
  newest (omap (candidate key seq) es).

(** The specification of a point read. *)
Definition mvcc_get (es : list entry) (key : bytes) (seq : Z) : LookupResult :=
  outcome (mvcc_newest es key seq).

(** Entry order, validity and well-formed sorted runs. *)
Definition entry_ltb (a b : entry) : bool := InternalKeyLess a.1 b.1.
Definition entry_lt (a b : entry) : Prop := entry_ltb a b = true.
Definition entry_valid (e : entry) : Prop := is_Some (parseInternalKey e.1).
Definition sorted_run (es : list entry) : Prop :=
  StronglySorted entry_lt es /\ Forall entry_valid es.

(** A sorted run as a reader sees it: the first entry not below the lookup key
    decides. *)
Definition run_get (es : list entry) (key : bytes) (seq : Z) : LookupResult :=
  match dropwhile (fun e => InternalKeyLess e.1 (encodeInternalKey key seq kValue)) es with
  | [] => LookupAbsent
  | e :: _ =>
      match parseInternalKey e.1 with
      | Some p => if bytes_eqb (user_key p) key then result_of (type p) e.2 else LookupAbsent
      | None => LookupAbsent
      end
  end.

(** ** The newest version *)

Lemma newer_None_r a : newer a None = a.
Proof. by destruct a as [[]|]. Qed.

Lemma newer_assoc a b c : newer a (newer b c) = newer (newer a b) c.
Proof.
  destruct a as [[t r]|], b as [[t' r']|], c as [[t'' r'']|]; simpl; try done;
    [|by case_match].
  destruct (Z.ltb_spec t' t''), (Z.ltb_spec t t'); simpl;
    destruct (Z.ltb_spec t' t''), (Z.ltb_spec t t''), (Z.ltb_spec t t'); (done || lia).
Qed.

Lemma newest_cons c l : newest (c :: l) = newer (Some c) (newest l).
Proof. done. Qed.

Lemma newest_app l k : newest (l ++ k) = newer (newest l) (newest k).
Proof.
  induction l as [|c l IH]; [done|]. rewrite <- app_comm_cons, !newest_cons, IH.
  apply newer_assoc.
Qed.

Lemma mvcc_newest_app es es' key seq :
  mvcc_newest (es ++ es') key seq = newer (mvcc_newest es key seq) (mvcc_newest es' key seq).
Proof. unfold mvcc_newest. by rewrite omap_app, newest_app. Qed.

Lemma mvcc_newest_cons e es key seq :
  mvcc_newest (e :: es) key seq = newer (candidate key seq e) (mvcc_newest es key seq).
Proof. unfold mvcc_newest. simpl. by destruct (candidate key seq e). Qed.

Lemma newest_In l c : newest l = Some c -> c ∈ l.
Proof.
  induction l as [|[t r] l IH]; [done|]. rewrite newest_cons.
  destruct (newest l) as [[t' r']|]; simpl.
  - case_match; intros; simplify_eq; set_solver.
  - intros; simplify_eq; set_solver.
Qed.

Lemma newest_None l : newest l = None <-> l = [].
Proof.
  destruct l as [|[t r] l]; [done|]. rewrite newest_cons. split; [|done].
  destruct (newest l) as [[]|]; simpl; [case_match|]; done.
Qed.

Lemma newest_max l c : newest l = Some c -> Forall (fun c' => c'.1 <= c.1) l.
Proof.
  revert c. induction l as [|[t r] l IH]; [done|]. intros c. rewrite newest_cons.
  destruct (newest l) as [[t' r']|] eqn:E; simpl.
  - specialize (IH _ eq_refl).
    destruct (Z.ltb_spec t t'); intros; simplify_eq; constructor; simpl in *; try done; try lia.
    eapply Forall_impl; [|exact IH]. simpl. intros; lia.
  - intros; simplify_eq. apply newest_None in E as ->. constructor; [simpl; lia|constructor].
Qed.


(** Order of presentation does not matter when a tag determines the version. *)
Lemma newest_unique l c :
  (forall a b, a ∈ l -> b ∈ l -> a.1 = b.1 -> a = b) ->
  c ∈ l -> Forall (fun c' => c'.1 <= c.1) l -> newest l = Some c.
Proof.
  intros Hf Hc Hm. destruct (newest l) as [d|] eqn:E.
  - f_equal. pose proof (newest_In _ _ E) as Hd. apply newest_max in E.
    rewrite Forall_elem in E, Hm. apply Hf; [done..|].
    pose proof (E _ Hc). pose proof (Hm _ Hd). lia.
  - apply newest_None in E as ->. set_solver.
Qed.

Lemma newest_ext l k :
  (forall a b, a ∈ l -> b ∈ l -> a.1 = b.1 -> a = b) ->
  (forall c, c ∈ l <-> c ∈ k) -> newest l = newest k.
Proof.
  intros Hf Hi. destruct (newest k) as [c|] eqn:E.
  - apply newest_unique; [done|by apply Hi, newest_In|].
    apply newest_max in E. rewrite Forall_elem in *. intros x Hx. by apply E, Hi.
  - apply newest_None in E as ->. apply newest_None. destruct l as [|c l]; [done|].
    assert (c ∈ ([] : list (Z * LookupResult))) by (apply Hi; set_solver). set_solver.
Qed.

(** ** Candidates *)

Lemma candidate_Some key seq e c :
  candidate key seq e = Some c <->
  exists p, parseInternalKey e.1 = Some p /\ user_key p = key /\ sequence p <= seq /\
            c = (tag_of (sequence p) (type p), result_of (type p) e.2).
Proof.
  unfold candidate, bytes_eqb. destruct (parseInternalKey e.1) as [p|]; [|naive_solver].
  case_bool_decide; simpl; [|naive_solver].
  destruct (Z.leb_spec (sequence p) seq); [naive_solver|]. split; [done|].
  intros (?&?&?&?&?); simplify_eq. lia.
Qed.

Lemma tag_of_le s t s' t' : tag_of s t <= tag_of s' t' -> s <= s'.
Proof.
  unfold tag_of. pose proof (ValueType_value_range t). pose proof (ValueType_value_range t'). lia.
Qed.

Lemma tag_of_inj s t s' t' : tag_of s t = tag_of s' t' -> s = s' /\ t = t'.
Proof.
  unfold tag_of. pose proof (ValueType_value_range t). pose proof (ValueType_value_range t').
  intros. assert (s = s') as -> by lia. split; [done|].
  destruct t, t'; simpl in *; (done || lia).
Qed.

Lemma mvcc_newest_nil key seq : mvcc_newest [] key seq = None.
Proof. done. Qed.

Lemma mvcc_newest_none es key seq :
  Forall (fun e => candidate key seq e = None) es -> mvcc_newest es key seq = None.
Proof. induction 1 as [|e es He _ IH]; [done|]. by rewrite mvcc_newest_cons, He, IH. Qed.

Lemma mvcc_get_none es key seq :
  Forall (fun e => candidate key seq e = None) es -> mvcc_get es key seq = LookupAbsent.
Proof. intros. unfold mvcc_get. by rewrite mvcc_newest_none. Qed.

Lemma result_of_not_absent t v : result_of t v <> LookupAbsent.
Proof. by destruct t. Qed.

Lemma outcome_absent es key seq :
  mvcc_get es key seq = LookupAbsent <-> mvcc_newest es key seq = None.
Proof.
  unfold mvcc_get. destruct (mvcc_newest es key seq) as [[t r]|] eqn:E; simpl; [|done].
  split; [|done]. intros ->. apply newest_In, list_elem_of_omap in E as (e & _ & He).
  apply candidate_Some in He as (p & _ & _ & _ & He).
  simplify_eq. by destruct (result_of_not_absent (type p) e.2).
Qed.

(** Searching newer layers first: when every version of [key] in [es] is at
    least as new as every version in [es'], the first layer that answers is
    right. *)
Lemma mvcc_get_layer es es' key seq :
  (forall c c', mvcc_newest es key seq = Some c -> mvcc_newest es' key seq = Some c' -> c'.1 <= c.1) ->
  mvcc_get (es ++ es') key seq =
  match mvcc_get es key seq with LookupAbsent => mvcc_get es' key seq | r => r end.
Proof.
  intros H. pose proof (outcome_absent es key seq) as Ha.
  unfold mvcc_get in *. rewrite mvcc_newest_app.
  destruct (mvcc_newest es key seq) as [[t r]|] eqn:E; [|done].
  assert (newer (Some (t, r)) (mvcc_newest es' key seq) = Some (t, r)) as ->.
  { destruct (mvcc_newest es' key seq) as [[t' r']|]; [|done].
    specialize (H _ _ eq_refl eq_refl). simpl in *. destruct (Z.ltb_spec t t'); (done || lia). }
  simpl in *. destruct r; try done. by discriminate (proj1 Ha eq_refl).
Qed.

(** ** Sorted runs *)

Lemma entry_lt_trans : Transitive entry_lt.
Proof. intros a b c. apply InternalKeyLess_trans. Qed.

Lemma entry_lt_parsed (e e' : entry) p p' :
  parseInternalKey e.1 = Some p -> parseInternalKey e'.1 = Some p' ->
  entry_lt e e' <-> parsed_ltb p p' = true.
Proof. intros Hp Hp'. unfold entry_lt, entry_ltb. by rewrite (InternalKeyLess_parsed _ _ p p'). Qed.

Lemma less_lookup_key (e : entry) p key seq :
  0 <= seq <= kMaxSequenceNumber -> parseInternalKey e.1 = Some p ->
  InternalKeyLess e.1 (encodeInternalKey key seq kValue) =
  parsed_ltb p (mkParsed key seq kValue).
Proof. intros Hs Hp. apply InternalKeyLess_parsed; [done|by apply parse_encode]. Qed.

(** Entries before the lookup key hold no visible version of the user key. *)
Lemma candidate_before (e : entry) p key seq :
  parseInternalKey e.1 = Some p -> parsed_ltb p (mkParsed key seq kValue) = true ->
  candidate key seq e = None.
Proof.
  intros Hp Hl. destruct (candidate key seq e) as [c|] eqn:E; [|done].
  apply candidate_Some in E as (q & Hq & <- & Hs & _). simplify_eq.
  unfold parsed_ltb in Hl. simpl in Hl. rewrite bytes_compare_refl in Hl.
  pose proof (ValueType_value_range (type p)). lia.
Qed.

(** Entries whose user key lies above [key] hold none either. *)
Lemma candidate_above (e : entry) p key seq :
  parseInternalKey e.1 = Some p -> user_key p <> key -> candidate key seq e = None.
Proof.
  intros Hp Hk. destruct (candidate key seq e) eqn:E; [|done].
  by apply candidate_Some in E as (q & Hq & Hk' & _); simplify_eq.
Qed.

Lemma parsed_ltb_user p q : parsed_ltb p q = true -> bytes_ltb (user_key q) (user_key p) = false.
Proof.
  unfold parsed_ltb. destruct (bytes_compare_spec (user_key p) (user_key q)) as [| -> |]; try done.
  intros _. apply bytes_ltb_irrefl.
Qed.

Lemma parsed_ltb_tag p q :
  parsed_ltb p q = true -> user_key p = user_key q ->
  tag_of (sequence q) (type q) < tag_of (sequence p) (type p).
Proof.
  unfold parsed_ltb. intros H Hk. rewrite Hk, bytes_compare_refl in H. unfold tag_of.
  pose proof (ValueType_value_range (type p)). pose proof (ValueType_value_range (type q)). lia.
Qed.

(** What follows the first entry at or after the lookup key cannot win. *)
Lemma mvcc_newest_after (e : entry) p es key seq :
  parseInternalKey e.1 = Some p -> parsed_ltb p (mkParsed key seq kValue) = false ->
  Forall (entry_lt e) es -> Forall entry_valid es ->
  outcome (newer (candidate key seq e) (mvcc_newest es key seq)) =
  if bytes_eqb (user_key p) key then result_of (type p) e.2 else LookupAbsent.
Proof.
  intros Hp Hl Hlt Hv. unfold bytes_eqb. case_bool_decide as Hk.
  - assert (candidate key seq e = Some (tag_of (sequence p) (type p), result_of (type p) e.2)) as ->.
    { apply candidate_Some. exists p. split_and!; try done.
      unfold parsed_ltb in Hl. simpl in Hl. rewrite Hk, bytes_compare_refl in Hl.
      pose proof (ValueType_value_range (type p)). lia. }
    destruct (mvcc_newest es key seq) as [[t r]|] eqn:E; [|done]. simpl.
    apply newest_In, list_elem_of_omap in E as (e' & He' & Hc).
    apply candidate_Some in Hc as (q & Hq & Hk' & _ & Hc). simplify_eq.
    rewrite Forall_elem in Hlt. specialize (Hlt _ He'). apply (entry_lt_parsed e e' p q) in Hlt; [|done..].
    apply parsed_ltb_tag in Hlt; [|congruence]. case_match; [lia|done].
  - rewrite (candidate_above e p) by done. rewrite mvcc_newest_none; [done|].
    assert (bytes_ltb key (user_key p) = true) as Hgt.
    { unfold parsed_ltb in Hl. simpl in Hl.
      destruct (bytes_compare_spec (user_key p) key); (done || congruence). }
    rewrite Forall_elem in *. intros e' He'. destruct (Hv _ He') as [q Hq].
    apply (candidate_above e' q); [done|]. intros <-. specialize (Hlt _ He').
    apply (entry_lt_parsed e e' p q), parsed_ltb_user in Hlt; [congruence|done..].
Qed.

Lemma run_get_mvcc es key seq :
  sorted_run es -> 0 <= seq <= kMaxSequenceNumber ->
  run_get es key seq = mvcc_get es key seq.
Proof.
  intros [Hs Hv] Hseq. unfold run_get, mvcc_get.
  induction Hs as [|e es Hs IH Hlt]; [done|].
  apply Forall_cons_iff in Hv as [[p Hp] Hv]. specialize (IH Hv). simpl dropwhile.
  rewrite (less_lookup_key e p), mvcc_newest_cons by done.
  destruct (parsed_ltb p (mkParsed key seq kValue)) eqn:Hl.
  - rewrite (candidate_before e p) by done. by rewrite IH.
  - by rewrite Hp, (mvcc_newest_after e p).
Qed.

Lemma sorted_run_cons e es :
  sorted_run (e :: es) <-> entry_valid e /\ Forall (entry_lt e) es /\ sorted_run es.
Proof.
  unfold sorted_run. rewrite Forall_cons_iff. split.
  - intros [H1 [H2 H3]]. inversion H1; subst. done.
  - intros (H1 & H2 & H3 & H4). split_and!; try done. by constructor.
Qed.

Lemma sorted_run_app es es' :
  sorted_run (es ++ es') <->
  sorted_run es /\ sorted_run es' /\ (forall a b, a ∈ es -> b ∈ es' -> entry_lt a b).
Proof.
  induction es as [|e es IH]; simpl.
  { split; [|naive_solver]. intros H. split_and!; [split; constructor|done|set_solver]. }
  rewrite !sorted_run_cons, IH, Forall_app, (Forall_elem (entry_lt e) es').
  split; [|naive_solver set_solver]. intros (?&[]&?&?&?). split_and!; try done.
  intros a b. rewrite elem_of_cons. naive_solver.
Qed.

Lemma sorted_run_suffix es es' : sorted_run (es ++ es') -> sorted_run es'.
Proof. by intros (_ & ? & _)%sorted_run_app. Qed.

(** ** Collections without duplicate internal keys *)

(** The tag decides the version of a user key. *)
Lemma candidates_unique es key seq :
  NoDup (map fst es) ->
  forall a b, a ∈ omap (candidate key seq) es -> b ∈ omap (candidate key seq) es -> a.1 = b.1 -> a = b.
Proof.
  intros Hnd a b Ha Hb Heq. apply list_elem_of_omap in Ha as (e & He & Ha), Hb as (e' & He' & Hb).
  apply candidate_Some in Ha as (p & Hp & Hk & _ & ->), Hb as (q & Hq & Hk' & _ & ->). simpl in Heq.
  apply tag_of_inj in Heq as [Hs Ht]. assert (p = q) as -> by (destruct p, q; simpl in *; congruence).
  pose proof (parse_inj _ _ _ Hp Hq) as Hk1. assert (e = e') as ->; [|done].
  apply list_elem_of_lookup in He as [i Hi], He' as [j Hj].
  assert (i = j) as ->; [|congruence]. eapply (NoDup_lookup (map fst es)); [done|..];
    change (map fst es) with (fst <$> es); rewrite list_lookup_fmap; [by rewrite Hi|rewrite Hj; simpl; congruence].
Qed.

Lemma mvcc_newest_perm es es' key seq :
  NoDup (map fst es) -> es ≡ₚ es' -> mvcc_newest es key seq = mvcc_newest es' key seq.
Proof.
  intros Hnd Hp. unfold mvcc_newest. apply newest_ext; [by apply candidates_unique|].
  intros c. rewrite !list_elem_of_omap. by setoid_rewrite Hp.
Qed.

Lemma mvcc_get_perm es es' key seq :
  NoDup (map fst es) -> es ≡ₚ es' -> mvcc_get es key seq = mvcc_get es' key seq.
Proof. intros. unfold mvcc_get. by rewrite (mvcc_newest_perm es es'). Qed.

Lemma sorted_run_nodup es : sorted_run es -> NoDup (map fst es).
Proof.
  induction es as [|e es IH]; simpl; [constructor|]. intros (_ & Hlt & Hr)%sorted_run_cons.
  apply list.NoDup_cons. split; [|by apply IH]. intros Hin. apply list_elem_of_In, in_map_iff in Hin as (e' & He & Hin).
  rewrite Forall_elem in Hlt. apply list_elem_of_In in Hin. specialize (Hlt _ Hin). unfold entry_lt, entry_ltb in Hlt.
  by rewrite He, InternalKeyLess_irrefl in Hlt.
Qed.

(** Insertion into a sorted run. *)
Definition insert_run (e : entry) (es : list entry) : list entry :=
  takewhile (fun x : entry => InternalKeyLess x.1 e.1) es ++ e :: dropwhile (fun x : entry => InternalKeyLess x.1 e.1) es.

Lemma insert_run_perm e es : insert_run e es ≡ₚ e :: es.
Proof.
  unfold insert_run. rewrite <- Permutation_middle. by rewrite takewhile_dropwhile.
Qed.

Lemma insert_run_sorted e es :
  sorted_run es -> entry_valid e -> e.1 ∉ map fst es -> sorted_run (insert_run e es).
Proof.
  intros Hr Hv Hn. unfold insert_run. set (p := fun x : entry => InternalKeyLess x.1 e.1).
  pose proof (takewhile_dropwhile p es) as Htd. pose proof (takewhile_all p es) as Hlo.
  pose proof (dropwhile_head p es) as Hhd. revert Htd Hlo Hhd. generalize (takewhile p es) as lo, (dropwhile p es) as hi.
  intros lo hi <- Hlo Hhd. apply sorted_run_app in Hr as (Hrl & Hrh & Hlh). rewrite Forall_elem in Hlo.
  assert (Forall (entry_lt e) hi) as Hkh.
  { destruct hi as [|c hi]; [constructor|]. specialize (Hhd c hi eq_refl). unfold p in Hhd.
    apply sorted_run_cons in Hrh as ([q Hq] & Hch & _). destruct Hv as [r Hr].
    assert (entry_lt e c) as Hec.
    { unfold entry_lt, entry_ltb. destruct (InternalKeyLess e.1 c.1) eqn:E; [done|]. exfalso. apply Hn.
      rewrite (InternalKeyLess_total e.1 c.1); eauto using parse_len. rewrite map_app. set_solver. }
    constructor; [done|]. eapply Forall_impl; [|exact Hch]. intros x Hx. by apply entry_lt_trans with c. }
  apply sorted_run_app. split_and!; [done|by apply sorted_run_cons|].
  intros a b Ha Hb. specialize (Hlo _ Ha). apply elem_of_cons in Hb as [->|Hb]; [done|by apply Hlh].
Qed.

(** ** Layers: memtables and tables from newest to oldest *)

(** Every version in [a] is newer than every version of the same key in [b]. *)
Definition newer_layer (a b : list entry) : Prop :=
  forall e e' p p', e ∈ a -> e' ∈ b -> parseInternalKey e.1 = Some p -> parseInternalKey e'.1 = Some p' ->
    user_key p = user_key p' -> sequence p' < sequence p.

Definition layers_ok (layers : list (list entry)) : Prop := StronglySorted newer_layer layers.

(** What a search through the layers returns: the first that knows the key. *)
Fixpoint first_answer (results : list LookupResult) : LookupResult :=
  match results with
  | [] => LookupAbsent
  | LookupAbsent :: results => first_answer results
  | r :: _ => r
  end.

Lemma newer_layer_sub a b a' b' : newer_layer a b -> (forall e, e ∈ a' -> e ∈ a) -> (forall e, e ∈ b' -> e ∈ b) -> newer_layer a' b'.
Proof. intros Hn Ha Hb e e' p p' He He'. apply Hn; auto. Qed.

Lemma newer_layer_concat a layers : Forall (newer_layer a) layers -> newer_layer a (concat layers).
Proof.
  intros Hf e e' p p' He He'. apply list_elem_of_In, in_concat in He' as (l & Hl & He'). apply list_elem_of_In in Hl, He'.
  rewrite Forall_elem in Hf. by apply (Hf l Hl).
Qed.

Lemma mvcc_newest_candidate es key seq c :
  mvcc_newest es key seq = Some c -> exists e p, e ∈ es /\ parseInternalKey e.1 = Some p /\ user_key p = key /\
    sequence p <= seq /\ c = (tag_of (sequence p) (type p), result_of (type p) e.2).
Proof.
  intros Hc. apply newest_In, list_elem_of_omap in Hc as (e & He & Hc). apply candidate_Some in Hc as (p & Hp & ? & ? & ?).
  by exists e, p.
Qed.

Lemma mvcc_get_newer_layer a b key seq : newer_layer a b ->
  mvcc_get (a ++ b) key seq = match mvcc_get a key seq with LookupAbsent => mvcc_get b key seq | r => r end.
Proof.
  intros Hn. apply mvcc_get_layer. intros c c' Hc Hc'.
  apply mvcc_newest_candidate in Hc as (e & p & He & Hp & Hk & _ & ->), Hc' as (e' & p' & He' & Hp' & Hk' & _ & ->).
  specialize (Hn e e' p p' He He' Hp Hp' ltac:(congruence)). unfold tag_of. simpl.
  pose proof (ValueType_value_range (type p)). pose proof (ValueType_value_range (type p')). lia.
Qed.

Lemma layers_get layers key seq : layers_ok layers ->
  mvcc_get (concat layers) key seq = first_answer (map (fun l => mvcc_get l key seq) layers).
Proof.
  induction 1 as [|a layers Hs IH Ha]; [done|]. cbn [concat map first_answer].
  rewrite mvcc_get_newer_layer by (by apply newer_layer_concat). rewrite IH. by destruct (mvcc_get a key seq).
Qed.

(** A concrete run, for examples. *)
Definition sample_run : list entry :=
  [(encodeInternalKey [x61] 7 kValue, [x01]); (encodeInternalKey [x61] 3 kDeletion, []);
   (encodeInternalKey [x61; x62] 5 kValue, [x02; x03])].

Lemma sample_run_sorted : sorted_run sample_run.
Proof.
  split.
  - unfold sample_run. repeat (constructor; [|repeat (constructor; [by vm_compute|]); constructor]). constructor.
  - unfold sample_run. repeat (constructor; [eexists; by vm_compute|]). constructor.
Qed.
