(* ===== verification/WriteBatch.v ===== *)
(** Write batches (src/db/write_batch.cc, src/db/write_batch_internal.h) and
    the payload codec that puts one batch into one WAL record
    (src/db/write_batch_codec.h, src/db/write_batch_codec.cc). *)
From S2P Require Import Prelude Status Coding InternalKey.

(** ** WriteBatch *)

Inductive OperationType := kPut | kDelete.

Record Operation := mkOperation {
  op_type : OperationType;
  op_key : bytes;
  op_value : bytes;
}.

(** [WriteBatch::Rep::operations]. *)
Notation WriteBatch := (list Operation).

Definition wb_put (batch : WriteBatch) (key value : bytes) : WriteBatch :=
  batch ++ [mkOperation kPut key value].
Definition wb_erase (batch : WriteBatch) (key : bytes) : WriteBatch :=
  batch ++ [mkOperation kDelete key []].
Definition wb_clear (batch : WriteBatch) : WriteBatch := [].
Definition wb_count (batch : WriteBatch) : Z := len batch.
Definition wb_empty (batch : WriteBatch) : bool := bool_decide (batch = []).

(** ** WriteBatchCodec *)

Definition kMaxWalRecordPayloadSize : Z := 67108864. (* 64 MiB *)
Definition kMaxWriteBatchPayloadSize : Z := kMaxWalRecordPayloadSize.
Definition kPutRecord : Z := 1.
Definition kDeleteRecord : Z := 2.
Definition kBatchHeaderSize : Z := 12.
Definition kOperationHeaderSize : Z := 5.

Definition hasValidSequenceRange (first_sequence operation_count : Z) : bool :=
  if (first_sequence =? 0) || (kMaxSequenceNumber <? first_sequence)
     || (operation_count =? 0) || (kUint32Max <? operation_count)
  then false
  else operation_count - 1 <=? kMaxSequenceNumber - first_sequence.

Definition addEncodedSize (amount total : Z) : option Z :=
  if kMaxWriteBatchPayloadSize - total <? amount then None else Some (total + amount).

Definition takeByte (input : bytes) : option (Z * bytes) :=
  match input with [] => None | b :: rest => Some (byte_to_Z b, rest) end.

Definition takeBytes (input : bytes) (length : Z) : option (bytes * bytes) :=
  if len input <? length then None
  else Some (substr input 0 length, remove_prefix length input).

(** One iteration of the size-checking loop of [encode]. *)
Definition encode_check_op (op : Operation) (encoded_size : Z) : result Z :=
  if kUint32Max <? len (op_key op)
  then Err (invalidArgument "write batch key is too large")
  else
    match addEncodedSize kOperationHeaderSize encoded_size ≫= addEncodedSize (len (op_key op)) with
    | None => Err (invalidArgument "write batch payload exceeds 64 MiB")
    | Some encoded_size =>
        match op_type op with
        | kPut =>
            if kUint32Max <? len (op_value op)
            then Err (invalidArgument "write batch value is too large")
            else
              match addEncodedSize 4 encoded_size ≫= addEncodedSize (len (op_value op)) with
              | None => Err (invalidArgument "write batch payload exceeds 64 MiB")
              | Some encoded_size => Ok encoded_size
              end
        | kDelete => Ok encoded_size
        end
    end.

Fixpoint encode_check (ops : list Operation) (encoded_size : Z) : result Z :=
  match ops with
  | [] => Ok encoded_size
  | op :: ops => encode_check_op op encoded_size ≫= encode_check ops
  end.

(** One iteration of the writing loop. *)
Definition encode_op (encoded : bytes) (op : Operation) : bytes :=
  let encoded :=
    match op_type op with
    | kPut => encoded ++ [byte_of_Z kPutRecord]
    | kDelete => encoded ++ [byte_of_Z kDeleteRecord]
    end in
  let encoded := putFixed32 encoded (wrap32 (len (op_key op))) ++ op_key op in
  match op_type op with
  | kPut => putFixed32 encoded (wrap32 (len (op_value op))) ++ op_value op
  | kDelete => encoded
  end.

Definition encode (batch : WriteBatch) (first_sequence : Z) : result bytes :=
  let operation_count := len batch in
  if operation_count =? 0
  then Err (invalidArgument "cannot encode an empty write batch")
  else if negb (hasValidSequenceRange first_sequence operation_count)
  then Err (invalidArgument "invalid write batch sequence range")
  else
    _ ← encode_check batch kBatchHeaderSize;
    let encoded := putFixed64 [] first_sequence in
    let encoded := putFixed32 encoded (wrap32 operation_count) in
    mret (foldl encode_op encoded batch).

(** One iteration of the decoding loop: the operation and the advanced
    cursor. *)
Definition decode_op (cursor : bytes) : result (Operation * bytes) :=
  match takeByte cursor with
  | None => Err (corruption "missing write batch operation type")
  | Some (operation_type, cursor) =>
      if negb (operation_type =? kPutRecord) && negb (operation_type =? kDeleteRecord)
      then Err (corruption "unknown write batch operation type")
      else
        match getFixed32 cursor with
        | None => Err (corruption "truncated write batch key length")
        | Some (key_length, cursor) =>
            match takeBytes cursor key_length with
            | None => Err (corruption "truncated write batch key")
            | Some (key, cursor) =>
                if operation_type =? kPutRecord then
                  match getFixed32 cursor with
                  | None => Err (corruption "truncated write batch value length")
                  | Some (value_length, cursor) =>
                      match takeBytes cursor value_length with
                      | None => Err (corruption "truncated write batch value")
                      | Some (value, cursor) => Ok (mkOperation kPut key value, cursor)
                      end
                  end
                else Ok (mkOperation kDelete key [], cursor)
            end
        end
  end.

(** The loop runs [n] more times. *)
Fixpoint decode_ops (n : nat) (cursor : bytes) (decoded_batch : WriteBatch) :
    result (WriteBatch * bytes) :=
  match n with
  | O => Ok (decoded_batch, cursor)
  | S n => '(op, cursor) ← decode_op cursor; decode_ops n cursor (decoded_batch ++ [op])
  end.

Definition decode (input : bytes) : result (Z * WriteBatch) :=
  if len input <? kBatchHeaderSize
  then Err (corruption "write batch payload is shorter than its header")
  else if kMaxWriteBatchPayloadSize <? len input
  then Err (corruption "write batch payload exceeds 64 MiB")
  else
    match getFixed64 input with
    | None => Err (corruption "invalid write batch header")
    | Some (decoded_sequence, cursor) =>
        match getFixed32 cursor with
        | None => Err (corruption "invalid write batch header")
        | Some (operation_count, cursor) =>
            if negb (hasValidSequenceRange decoded_sequence operation_count)
            then Err (corruption "invalid write batch sequence range")
            else if len cursor / kOperationHeaderSize <? operation_count
            then Err (corruption "write batch operation count exceeds payload")
            else
              '(decoded_batch, cursor) ← decode_ops (Z.to_nat operation_count) cursor [];
              if negb (bool_decide (cursor = []))
              then Err (corruption "write batch payload has trailing bytes")
              else mret (decoded_sequence, decoded_batch)
        end
    end.

(** Batches built through the public interface: an erase carries no value. *)
Definition wf_op (op : Operation) : Prop := op_type op = kDelete -> op_value op = [].
Definition wf_batch (batch : WriteBatch) : Prop := Forall wf_op batch.

(** ** Encoded operations *)

(** The bytes of one operation and their number. *)
Definition op_bytes (op : Operation) : bytes :=
  match op_type op with
  | kPut => byte_of_Z kPutRecord :: le_bytes 4 (len (op_key op)) ++ op_key op ++
            le_bytes 4 (len (op_value op)) ++ op_value op
  | kDelete => byte_of_Z kDeleteRecord :: le_bytes 4 (len (op_key op)) ++ op_key op
  end.

Definition small_op (op : Operation) : Prop :=
  len (op_key op) <= kUint32Max /\ (op_type op = kPut -> len (op_value op) <= kUint32Max).

Lemma encode_op_eq encoded op : small_op op -> encode_op encoded op = encoded ++ op_bytes op.
Proof.
  intros [Hk Hv]. unfold encode_op, op_bytes.
  pose proof (len_nonneg (op_key op)). pose proof (len_nonneg (op_value op)).
  destruct (op_type op); rewrite ?putFixed32_le_bytes, ?wrap32_small by auto;
    by rewrite <- !app_assoc.
Qed.

Lemma encode_ops_eq ops : forall encoded,
  Forall small_op ops -> foldl encode_op encoded ops = encoded ++ concat (map op_bytes ops).
Proof.
  induction ops as [|op ops IH]; simpl; intros encoded H; [by rewrite app_nil_r|].
  apply Forall_cons_iff in H as [Ho H]. rewrite encode_op_eq, IH by done. by rewrite <- app_assoc.
Qed.

Lemma op_bytes_min op : kOperationHeaderSize <= len (op_bytes op).
Proof. unfold op_bytes, kOperationHeaderSize. destruct (op_type op); llia. Qed.

Lemma ops_bytes_min ops : kOperationHeaderSize * len ops <= len (concat (map op_bytes ops)).
Proof.
  induction ops as [|op ops IH]; simpl; [done|]. pose proof (op_bytes_min op).
  unfold kOperationHeaderSize in *. llia.
Qed.

Lemma addEncodedSize_twice a b total :
  0 <= b ->
  addEncodedSize a total ≫= addEncodedSize b =
  if total + a + b <=? kMaxWriteBatchPayloadSize then Some (total + a + b) else None.
Proof.
  intros Hb. unfold addEncodedSize. destruct (Z.ltb_spec (kMaxWriteBatchPayloadSize - total) a); simpl.
  { destruct (Z.leb_spec (total + a + b) kMaxWriteBatchPayloadSize); (done || lia). }
  destruct (Z.ltb_spec (kMaxWriteBatchPayloadSize - (total + a)) b),
    (Z.leb_spec (total + a + b) kMaxWriteBatchPayloadSize); (done || lia).
Qed.

(** The size check succeeds exactly on operations of representable length that
    keep the payload within 64 MiB, and computes the encoded size. *)
Lemma encode_check_op_Ok op total r :
  encode_check_op op total = Ok r <->
  small_op op /\ r = total + len (op_bytes op) /\ r <= kMaxWriteBatchPayloadSize.
Proof.
  unfold encode_check_op, small_op, op_bytes, kOperationHeaderSize.
  pose proof (len_nonneg (op_key op)). pose proof (len_nonneg (op_value op)).
  rewrite !addEncodedSize_twice by done.
  destruct (Z.ltb_spec kUint32Max (len (op_key op))); [split; [done|lia]|].
  destruct (op_type op); autorewrite with len;
    (destruct (Z.leb_spec (total + 5 + len (op_key op)) kMaxWriteBatchPayloadSize); [|split; [done|lia]]).
  - destruct (Z.ltb_spec kUint32Max (len (op_value op))).
    { split; [done|]. intros ([_ Hv]&_). specialize (Hv eq_refl). lia. }
    rewrite addEncodedSize_twice by done.
    destruct (Z.leb_spec (total + 5 + len (op_key op) + 4 + len (op_value op)) kMaxWriteBatchPayloadSize);
      [|split; [done|lia]].
    split; [intros; simplify_eq; split_and!; try done; lia|intros (_&->&_); f_equal; lia].
  - split; [intros; simplify_eq; split_and!; try done; lia|intros (_&->&_); f_equal; lia].
Qed.

Lemma encode_check_Ok ops : forall total r,
  total <= kMaxWriteBatchPayloadSize ->
  encode_check ops total = Ok r <->
  Forall small_op ops /\ r = total + len (concat (map op_bytes ops)) /\
  r <= kMaxWriteBatchPayloadSize.
Proof.
  induction ops as [|op ops IH]; simpl; intros total r Ht.
  { rewrite len_nil, Forall_nil_iff. split; [intros; simplify_eq; split_and!; (done || lia)|].
    intros (_&->&_). f_equal; lia. }
  rewrite Forall_cons_iff, len_app. pose proof (len_nonneg (concat (map op_bytes ops))).
  destruct (encode_check_op op total) as [t|st] eqn:E; simpl.
  - apply encode_check_op_Ok in E as (?&->&?). rewrite IH by done.
    split; intros (?&->&?); split_and!; (done || lia || naive_solver).
  - split; [done|]. intros ([Hs ?]&->&?).
    assert (encode_check_op op total = Ok (total + len (op_bytes op))) as E'
      by (apply encode_check_op_Ok; split_and!; (done || lia)).
    congruence.
Qed.

(** ** The payload of a batch *)

Definition payload_bytes (batch : WriteBatch) (first_sequence : Z) : bytes :=
  le_bytes 8 first_sequence ++ le_bytes 4 (len batch) ++ concat (map op_bytes batch).

Lemma hasValidSequenceRange_spec first count :
  0 <= first -> 0 <= count ->
  hasValidSequenceRange first count = true <->
  1 <= first /\ 1 <= count <= kUint32Max /\ first + count - 1 <= kMaxSequenceNumber.
Proof. intros. unfold hasValidSequenceRange. case_match; split; lia. Qed.

(** Every error of [encode] is an error status. *)
Lemma encode_error batch first st : encode batch first = Err st -> ok st = false.
Proof.
  unfold encode. destruct (len batch =? 0); [by intros [= <-]|]. destruct (hasValidSequenceRange first (len batch)); [|by intros [= <-]].
  cbn [negb]. generalize kBatchHeaderSize. induction batch as [|op ops IH]; [done|]. intros total. simpl.
  destruct (encode_check_op op total) as [t|st'] eqn:E; simpl; [|intros [= <-]].
  - specialize (IH t). destruct (encode_check ops t); [done|]. by intros [= <-]; apply IH.
  - unfold encode_check_op in E. repeat case_match; by simplify_eq.
Qed.

(** Exactly when [encode] succeeds, and what it produces. *)
Lemma encode_Ok batch first payload :
  0 <= first ->
  encode batch first = Ok payload <->
  hasValidSequenceRange first (len batch) = true /\ Forall small_op batch /\
  payload = payload_bytes batch first /\ len payload <= kMaxWriteBatchPayloadSize.
Proof.
  intros Hf. unfold encode. pose proof (len_nonneg batch) as Hn.
  destruct (Z.eqb_spec (len batch) 0) as [E|].
  { rewrite (hasValidSequenceRange_spec first (len batch)) by done. split; [done|lia]. }
  destruct (hasValidSequenceRange first (len batch)) eqn:Hv; simpl; [|naive_solver].
  apply hasValidSequenceRange_spec in Hv as (?&?&?); [|done..].
  assert (forall b, payload_bytes batch first = b ->
    len b = kBatchHeaderSize + len (concat (map op_bytes batch))) as Hlen.
  { intros b <-. unfold payload_bytes, kBatchHeaderSize. llia. }
  destruct (encode_check batch kBatchHeaderSize) as [total|st] eqn:E; simpl.
  - apply encode_check_Ok in E as (Hs&->&?); [|done]. unfold mret, result_ret.
    rewrite putFixed32_le_bytes, putFixed64_le_bytes, wrap32_small, encode_ops_eq by (done || lia).
    rewrite <- !app_assoc. simpl. split.
    + intros; simplify_eq. split_and!; try done. by erewrite Hlen.
    + intros (_&_&->&_). done.
  - split; [done|]. intros (_&Hs&->&Hl). rewrite (Hlen _ eq_refl) in Hl.
    assert (encode_check batch kBatchHeaderSize =
      Ok (kBatchHeaderSize + len (concat (map op_bytes batch)))) as E'
      by (apply encode_check_Ok; [done|split_and!; (done || lia)]).
    congruence.
Qed.

(** ** Decoding *)

Lemma takeBytes_app (k rest : bytes) : takeBytes (k ++ rest) (len k) = Some (k, rest).
Proof.
  unfold takeBytes, substr, remove_prefix. destruct (Z.ltb_spec (len (k ++ rest)) (len k)); [llia|].
  rewrite <- length_len, drop_0, take_app_length, drop_app_length. done.
Qed.

Lemma takeBytes_Some input n k rest :
  takeBytes input n = Some (k, rest) -> 0 <= n -> input = k ++ rest /\ len k = n.
Proof.
  unfold takeBytes, substr, remove_prefix. destruct (Z.ltb_spec (len input) n); [done|].
  intros; simplify_eq. rewrite drop_0. split; [by rewrite take_drop|llia].
Qed.

Lemma getFixed32_len (k : bytes) rest :
  len k <= kUint32Max -> getFixed32 (le_bytes 4 (len k) ++ rest) = Some (len k, rest).
Proof. intros. apply getFixed32_app. split; [apply len_nonneg|done]. Qed.

Lemma decode_op_app op rest :
  small_op op -> wf_op op -> decode_op (op_bytes op ++ rest) = Ok (op, rest).
Proof.
  intros [Hk Hv] Hw. unfold decode_op, op_bytes. destruct op as [[] key value]; simpl in *.
  - rewrite <- !app_assoc, getFixed32_len, takeBytes_app by done. simpl.
    by rewrite getFixed32_len, takeBytes_app by auto.
  - rewrite <- !app_assoc, getFixed32_len, takeBytes_app by done. simpl.
    specialize (Hw eq_refl). simpl in Hw. by subst.
Qed.

Lemma decode_op_Ok cursor op rest :
  decode_op cursor = Ok (op, rest) -> cursor = op_bytes op ++ rest /\ small_op op /\ wf_op op.
Proof.
  unfold decode_op. destruct cursor as [|b cursor]; simpl; [done|].
  case_match eqn:Htype; [done|].
  destruct (getFixed32 cursor) as [[kl c1]|] eqn:Hkl; [|done].
  destruct (takeBytes c1 kl) as [[key c2]|] eqn:Hkey; [|done].
  apply getFixed32_Some in Hkl as [-> Hkl]. apply takeBytes_Some in Hkey as [-> <-]; [|lia].
  destruct (Z.eqb_spec (byte_to_Z b) kPutRecord) as [Hb|Hb].
  - assert (b = byte_of_Z kPutRecord) as -> by (by rewrite <- Hb, byte_of_to_Z).
    destruct (getFixed32 c2) as [[vl c3]|] eqn:Hvl; [|done].
    destruct (takeBytes c3 vl) as [[value c4]|] eqn:Hval; [|done].
    apply getFixed32_Some in Hvl as [-> Hvl]. apply takeBytes_Some in Hval as [-> <-]; [|lia].
    intros; simplify_eq. unfold op_bytes, small_op, wf_op; simpl. rewrite <- !app_assoc.
    split_and!; (done || lia || by intros).
  - assert (byte_to_Z b = kDeleteRecord) as Hd by lia.
    assert (b = byte_of_Z kDeleteRecord) as -> by (by rewrite <- Hd, byte_of_to_Z).
    intros; simplify_eq. unfold op_bytes, small_op, wf_op; simpl. rewrite <- !app_assoc.
    split_and!; (done || lia || by intros).
Qed.

Lemma decode_ops_app ops : forall rest acc,
  Forall small_op ops -> wf_batch ops ->
  decode_ops (length ops) (concat (map op_bytes ops) ++ rest) acc = Ok (acc ++ ops, rest).
Proof.
  induction ops as [|op ops IH]; simpl; intros rest acc Hs Hw; [by rewrite app_nil_r|].
  apply Forall_cons_iff in Hs as [Ho Hs], Hw as [How Hw].
  rewrite <- app_assoc, decode_op_app by done. simpl. rewrite IH by done. by rewrite <- app_assoc.
Qed.

Lemma decode_ops_Ok n : forall cursor acc batch rest,
  decode_ops n cursor acc = Ok (batch, rest) ->
  exists ops, batch = acc ++ ops /\ length ops = n /\
    cursor = concat (map op_bytes ops) ++ rest /\ Forall small_op ops /\ wf_batch ops.
Proof.
  induction n as [|n IH]; simpl; intros cursor acc batch rest H.
  { simplify_eq. exists []. rewrite app_nil_r. split_and!; (done || constructor). }
  apply result_bind_Ok in H as ([op c] & Hop & H). apply decode_op_Ok in Hop as (-> & Hs & Hw).
  apply IH in H as (ops & -> & <- & -> & Hss & Hws). exists (op :: ops). simpl.
  rewrite <- !app_assoc. split_and!; try done; by constructor.
Qed.

Lemma decode_encode batch first payload :
  0 <= first -> wf_batch batch ->
  encode batch first = Ok payload -> decode payload = Ok (first, batch).
Proof.
  intros Hf Hw He. apply encode_Ok in He as (Hv & Hs & -> & Hl); [|done].
  pose proof (ops_bytes_min batch) as Hmin. pose proof (len_nonneg batch).
  pose proof (proj1 (hasValidSequenceRange_spec first (len batch) Hf (len_nonneg _)) Hv) as (?&?&?).
  assert (first <= kUint64Max) by (unfold kMaxSequenceNumber, kUint64Max in *; lia).
  revert Hl. unfold decode, payload_bytes, kBatchHeaderSize.
  set (ops := concat (map op_bytes batch)) in *. intros Hl.
  destruct (Z.ltb_spec (len (le_bytes 8 first ++ le_bytes 4 (len batch) ++ ops)) 12); [llia|].
  destruct (Z.ltb_spec kMaxWriteBatchPayloadSize (len (le_bytes 8 first ++ le_bytes 4 (len batch) ++ ops)));
    [lia|].
  rewrite getFixed64_app, getFixed32_app, Hv by lia. simpl.
  destruct (Z.ltb_spec (len ops / kOperationHeaderSize) (len batch)) as [Hc|Hc].
  { unfold kOperationHeaderSize in *. pose proof (Z.div_le_lower_bound (len ops) 5 (len batch)). lia. }
  rewrite <- length_len, <- (app_nil_r ops). unfold ops. rewrite decode_ops_app by done. done.
Qed.

Lemma decode_Ok input first batch :
  decode input = Ok (first, batch) ->
  0 <= first /\ wf_batch batch /\ encode batch first = Ok input.
Proof.
  unfold decode. destruct (Z.ltb_spec (len input) kBatchHeaderSize); [done|].
  destruct (Z.ltb_spec kMaxWriteBatchPayloadSize (len input)); [done|].
  destruct (getFixed64 input) as [[s c1]|] eqn:H1; [|done].
  destruct (getFixed32 c1) as [[n c2]|] eqn:H2; [|done].
  apply getFixed64_Some in H1 as [-> ?]. apply getFixed32_Some in H2 as [-> ?].
  destruct (hasValidSequenceRange s n) eqn:Hv; [|done]. simpl.
  destruct (Z.ltb_spec (len c2 / kOperationHeaderSize) n); [done|].
  intros Hd. apply result_bind_Ok in Hd as ([b c3] & Hd & Hend).
  apply decode_ops_Ok in Hd as (ops & -> & Hn & -> & Hs & Hw).
  case_bool_decide as Hc; [|done]. subst c3. apply Ok_inj in Hend. simplify_eq/=. rewrite app_nil_r in *.
  assert (n = len batch) as -> by (unfold len; lia).
  split_and!; [lia|done|]. apply encode_Ok; [lia|]. by split_and!.
Qed.

(** ** Correctness of the codec *)

(** C11. [decode] is exactly the inverse of [encode]: it accepts a payload if and
    only if that payload is what [encode] produces for a batch built through
    the public interface, and then returns that batch and its first sequence
    number.  In particular encoding is injective, decoding is a left inverse,
    and every accepted payload is canonical. *)
Theorem write_batch_codec_inverse input first batch :
  decode input = Ok (first, batch) <->
  0 <= first /\ wf_batch batch /\ encode batch first = Ok input.
Proof.
  split; [apply decode_Ok|]. intros (Hf & Hw & He). by apply decode_encode.
Qed.

(** [encode] succeeds exactly when the batch is not empty, every operation
    can be given a sequence number of at most 56 bits, every length fits in 32
    bits and the payload fits in one WAL record; the payload is then the header
    followed by the operations in order. *)
Theorem write_batch_encode_domain batch first payload :
  0 <= first ->
  encode batch first = Ok payload <->
  (1 <= first /\ 1 <= len batch <= kUint32Max /\ first + len batch - 1 <= kMaxSequenceNumber) /\
  Forall small_op batch /\
  payload = le_bytes 8 first ++ le_bytes 4 (len batch) ++ concat (map op_bytes batch) /\
  len payload <= kMaxWalRecordPayloadSize.
Proof.
  intros Hf. rewrite encode_Ok, hasValidSequenceRange_spec by (done || apply len_nonneg). done.
Qed.

Lemma write_batch_encode_domain_witness :
  encode (wb_erase (wb_put [] [x61] [x62]) [x63]) 7 =
  Ok (le_bytes 8 7 ++ le_bytes 4 2 ++
      [x01] ++ le_bytes 4 1 ++ [x61] ++ le_bytes 4 1 ++ [x62] ++ [x02] ++ le_bytes 4 1 ++ [x63]).
Proof.
  apply (write_batch_encode_domain (wb_erase (wb_put [] [x61] [x62]) [x63]) 7 _ ltac:(lia)).
  split_and!; try done. repeat constructor; done.
Defined.
