(* ===== verification/Wal.v ===== *)
(** The write-ahead log (src/wal/wal_format.h, src/wal/wal_writer.cc,
    src/wal/wal_reader.cc) over a model of the POSIX calls it makes: short
    reads and writes, [EINTR] and hard errors are chosen by the environment. *)
From S2P Require Import Prelude Posix Status Coding InternalKey WriteBatch.

(** ** WalWriter *)

Definition kWalRecordHeaderSize : Z := 8.

Record WalWriter := mkWalWriter {
  w_file : LogFile;
  w_path : string;
  error_ : Status;
}.

Section wal.
(** [std::error_code(errno, std::generic_category()).message()]. *)
Context (strerror : Z -> string).

Definition latchIOError (operation : string) (errno : Z) (w : WalWriter) : WalWriter :=
  if ok (error_ w) then
    mkWalWriter (w_file w) (w_path w)
      (ioError (operation +:+ " " +:+ w_path w +:+ ": " +:+ strerror errno))
  else w.

Definition file_append (data : bytes) (w : WalWriter) : WalWriter :=
  mkWalWriter (mkLogFile (contents (w_file w) ++ data) (durable (w_file w))) (w_path w) (error_ w).

Definition file_sync (w : WalWriter) : WalWriter :=
  mkWalWriter (mkLogFile (contents (w_file w)) (length (contents (w_file w)))) (w_path w) (error_ w).

(** Returns the writer, the status and the events left for later calls. *)
Fixpoint writeAll (evs : list write_event) (w : WalWriter) (data : bytes) :
    WalWriter * Status * list write_event :=
  if bool_decide (data = []) then (w, success, evs)
  else
    match evs with
    | [] => (file_append data w, success, [])
    | WriteCount n :: evs =>
        if 0 <? n
        then writeAll evs (file_append (take (Z.to_nat n) data) w) (drop (Z.to_nat n) data)
        else let w := latchIOError "write WAL" EIO w in (w, error_ w, evs)
    | WriteErrno errno :: evs =>
        if errno =? EINTR then writeAll evs w data
        else let w := latchIOError "write WAL" errno w in (w, error_ w, evs)
    end.

Definition append (evs : list write_event) (w : WalWriter) (payload : bytes) :
    WalWriter * Status * list write_event :=
  if negb (ok (error_ w)) then (w, error_ w, evs)
  else if bool_decide (payload = [])
  then (w, invalidArgument "WAL record payload must not be empty", evs)
  else if kMaxWalRecordPayloadSize <? len payload
  then (w, invalidArgument "WAL record payload exceeds 64 MiB", evs)
  else
    let header := putFixed32 [] (wrap32 (len payload)) in
    let header := putFixed32 header (crc32c payload) in
    let '(w, status, evs) := writeAll evs w header in
    if negb (ok status) then (w, status, evs)
    else writeAll evs w payload.

(** [::fdatasync]: the errno of each failing call, then success. *)
Fixpoint sync_loop (errnos : list Z) (w : WalWriter) : WalWriter * Status :=
  match errnos with
  | [] => (file_sync w, success)
  | errno :: errnos =>
      if errno =? EINTR then sync_loop errnos w
      else let w := latchIOError "sync WAL" errno w in (w, error_ w)
  end.

Definition sync (errnos : list Z) (w : WalWriter) : WalWriter * Status :=
  if negb (ok (error_ w)) then (w, error_ w) else sync_loop errnos w.

(** ** WalReader *)

Record WalReader := mkWalReader {
  r_rest : bytes;       (* the file from the current offset on *)
  r_path : string;
  valid_bytes_ : Z;
}.

Definition corruptionAt (message : string) (r : WalReader) : Status :=
  corruption (message +:+ " at offset " +:+ to_string (valid_bytes_ r)).

(** [readUpTo]: the bytes read before [size] bytes, end of file or an error. *)
Fixpoint readUpTo (evs : list read_event) (r : WalReader) (size : nat) (got : bytes) :
    WalReader * result bytes * list read_event :=
  match size with
  | O => (r, Ok got, evs)
  | S _ =>
      match evs with
      | [] => (mkWalReader (drop size (r_rest r)) (r_path r) (valid_bytes_ r),
               Ok (got ++ take size (r_rest r)), [])
      | ReadCount n :: evs =>
          let chunk := take (Nat.min (Nat.max 1 (Z.to_nat n)) size) (r_rest r) in
          if bool_decide (chunk = []) then (r, Ok got, evs)
          else
            readUpTo evs
              (mkWalReader (drop (length chunk) (r_rest r)) (r_path r) (valid_bytes_ r))
              (size - length chunk) (got ++ chunk)
      | ReadErrno errno :: evs =>
          if errno =? EINTR then readUpTo evs r size got
          else (r, Err (ioError ("read WAL " +:+ r_path r +:+ ": " +:+ strerror errno)), evs)
      end
  end.

(** [Ok (Some payload)] is [WalReadResult::kRecord], [Ok None] is
    [WalReadResult::kEnd]. *)
Definition readNext (evs : list read_event) (r : WalReader) :
    WalReader * result (option bytes) * list read_event :=
  let '(r, res, evs) := readUpTo evs r (Z.to_nat kWalRecordHeaderSize) [] in
  match res with
  | Err status => (r, Err status, evs)
  | Ok header =>
      if len header <? kWalRecordHeaderSize then (r, Ok None, evs)
      else
        match getFixed32 header with
        | None => (r, Err (corruptionAt "invalid WAL record header" r), evs)
        | Some (payload_length, header_input) =>
            match getFixed32 header_input with
            | None => (r, Err (corruptionAt "invalid WAL record header" r), evs)
            | Some (expected_checksum, _) =>
                if payload_length =? 0
                then (r, Err (corruptionAt "empty WAL record payload" r), evs)
                else if kMaxWalRecordPayloadSize <? payload_length
                then (r, Err (corruptionAt "WAL record payload exceeds 64 MiB" r), evs)
                else
                  let '(r, res, evs) := readUpTo evs r (Z.to_nat payload_length) [] in
                  match res with
                  | Err status => (r, Err status, evs)
                  | Ok decoded_payload =>
                      if len decoded_payload <? payload_length then (r, Ok None, evs)
                      else if negb (crc32c decoded_payload =? expected_checksum)
                      then (r, Err (corruptionAt "WAL record checksum mismatch" r), evs)
                      else
                        (mkWalReader (r_rest r) (r_path r)
                           (wrap64 (valid_bytes_ r + wrap64 (kWalRecordHeaderSize + payload_length))),
                         Ok (Some decoded_payload), evs)
                  end
            end
        end
  end.

(** The reading half of [DBImpl::recoverWalFile]: call [readNext] until it
    reports the end or fails.  Each record consumes at least one byte, so the
    number of bytes bounds the iterations. *)
Fixpoint readAll (fuel : nat) (evs : list read_event) (r : WalReader) (acc : list bytes) :
    option (WalReader * result (list bytes)) :=
  match fuel with
  | O => None
  | S fuel =>
      let '(r, res, evs) := readNext evs r in
      match res with
      | Err status => Some (r, Err status)
      | Ok None => Some (r, Ok acc)
      | Ok (Some payload) => readAll fuel evs r (acc ++ [payload])
      end
  end.

Definition open_reader (path : string) (file : bytes) : WalReader := mkWalReader file path 0.

(** [WalReader::open] on a directory; [answer] is an errno of the system's own. *)
Definition reader_open (answer : option Z) (path : string) (fs : Directory) : result WalReader :=
  match answer, fs !! path with
  | None, Some f => Ok (open_reader path (contents f))
  | answer, _ => Err (ioError ("open WAL " +:+ path +:+ ": " +:+ strerror (default ENOENT answer)))
  end.

(** [WalWriter::open]: [O_CREAT | O_APPEND] keeps a file that is there. *)
Definition wal_open (answer : option Z) (path : string) (fs : Directory) : Directory * result WalWriter :=
  match answer with
  | Some errno => (fs, Err (ioError ("open WAL " +:+ path +:+ ": " +:+ strerror errno)))
  | None =>
      let file := default (mkLogFile [] 0) (fs !! path) in
      (<[path := file]> fs, Ok (mkWalWriter file path success))
  end.

Definition recover_log (path : string) (file : bytes) (evs : list read_event) :
    option (WalReader * result (list bytes)) :=
  readAll (S (length file)) evs (open_reader path file) [].

End wal.

(** ** Sessions

    The history of a writer on a fresh file: appends and syncs against an
    arbitrary environment.  [acked] are the payloads whose [append] returned
    success and [synced] how many of them precede the last successful sync. *)
Inductive wal_run (strerror : Z -> string) (path : string) :
    WalWriter -> list bytes -> nat -> Prop :=
  | wal_run_open :
      wal_run strerror path (mkWalWriter (mkLogFile [] 0) path success) [] 0
  | wal_run_append w acked synced evs payload w' st evs' :
      wal_run strerror path w acked synced ->
      append strerror evs w payload = (w', st, evs') ->
      wal_run strerror path w' (if ok st then acked ++ [payload] else acked) synced
  | wal_run_sync w acked synced errnos w' st :
      wal_run strerror path w acked synced ->
      sync strerror errnos w = (w', st) ->
      wal_run strerror path w' acked (if ok st then length acked else synced).

(** ** Record layout *)

Definition record_bytes (payload : bytes) : bytes :=
  le_bytes 4 (len payload) ++ le_bytes 4 (crc32c payload) ++ payload.

Definition log_bytes (payloads : list bytes) : bytes := concat (map record_bytes payloads).

Definition valid_payload (payload : bytes) : Prop :=
  0 < len payload <= kMaxWalRecordPayloadSize.

Lemma len_record payload : len (record_bytes payload) = kWalRecordHeaderSize + len payload.
Proof. unfold record_bytes, kWalRecordHeaderSize. llia. Qed.
#[export] Hint Rewrite len_record : len.

Lemma length_record payload : length (record_bytes payload) = (8 + length payload)%nat.
Proof. pose proof (len_record payload) as H. unfold len, kWalRecordHeaderSize in H. lia. Qed.

Lemma LogFile_eta f : mkLogFile (contents f) (durable f) = f.
Proof. by destruct f. Qed.
Lemma file_append_nil w : file_append [] w = w.
Proof. destruct w as [[]]. unfold file_append. simpl. by rewrite app_nil_r. Qed.
Lemma WalReader_eta r : mkWalReader (r_rest r) (r_path r) (valid_bytes_ r) = r.
Proof. by destruct r. Qed.

Section wal_lemmas.
Context (strerror : Z -> string).

(** *** Writing *)

(** A write puts down a prefix of the data; it is all of it exactly when the
    call succeeds, and otherwise the error is latched. *)
Lemma writeAll_spec evs : forall w data w' st evs',
  ok (error_ w) = true ->
  writeAll strerror evs w data = (w', st, evs') ->
  exists written rest, data = written ++ rest /\
    w_file w' = mkLogFile (contents (w_file w) ++ written) (durable (w_file w)) /\
    ((st = success /\ rest = [] /\ error_ w' = error_ w) \/
     (st = error_ w' /\ ok st = false /\ rest <> [])).
Proof.
  induction evs as [|ev evs IH]; intros w data w' st evs' Hok.
  - simpl. case_bool_decide as Hd; intros; simplify_eq.
    + exists [], []. split_and!; [done|by rewrite app_nil_r, LogFile_eta|auto].
    + exists data, []. split_and!; [by rewrite app_nil_r|done|auto].
  - simpl. case_bool_decide as Hd.
    { intros; simplify_eq. exists [], []. split_and!; [done|by rewrite app_nil_r, LogFile_eta|auto]. }
    assert (forall e, exists written rest, data = written ++ rest /\
      w_file (latchIOError strerror "write WAL" e w) =
        mkLogFile (contents (w_file w) ++ written) (durable (w_file w)) /\
      (error_ (latchIOError strerror "write WAL" e w) =
       error_ (latchIOError strerror "write WAL" e w) /\
       ok (error_ (latchIOError strerror "write WAL" e w)) = false /\ rest <> [])) as Hfail.
    { intros e. exists [], data. unfold latchIOError. rewrite Hok. split_and!; try done.
      simpl. by rewrite app_nil_r, LogFile_eta. }
    destruct ev as [n|e].
    + destruct (Z.ltb_spec 0 n).
      * intros H'. apply IH in H' as (written & rest & Hd' & Hf & Hc); [|done].
        exists (take (Z.to_nat n) data ++ written), rest. rewrite <- app_assoc, <- Hd', take_drop.
        split_and!; [done| |done]. rewrite Hf. simpl. by rewrite <- app_assoc.
      * intros; simplify_eq. destruct (Hfail EIO) as (a & b & H1 & H2 & H3). eauto 10.
    + destruct (Z.eqb_spec e EINTR); [by apply IH|].
      intros; simplify_eq. destruct (Hfail e) as (a & b & H1 & H2 & H3). eauto 10.
Qed.

Lemma writeAll_benign evs : forall w data,
  Forall benign_write evs ->
  exists evs', Forall benign_write evs' /\
    writeAll strerror evs w data = (file_append data w, success, evs').
Proof.
  induction evs as [|ev evs IH]; intros w data Hb; simpl.
  - exists []. split; [constructor|]. case_bool_decide; [|done]. subst. by rewrite file_append_nil.
  - pose proof Hb as [Hev Hb']%Forall_cons_iff. case_bool_decide as Hd.
    { subst. exists (ev :: evs). split; [done|]. by rewrite file_append_nil. }
    destruct ev as [n|e]; simpl in Hev.
    + destruct (Z.ltb_spec 0 n); [|lia].
      destruct (IH (file_append (take (Z.to_nat n) data) w) (drop (Z.to_nat n) data) Hb')
        as (evs' & Hb'' & ->).
      exists evs'. split; [done|]. unfold file_append. simpl.
      by rewrite <- app_assoc, take_drop.
    + subst e. rewrite Z.eqb_refl. by apply IH.
Qed.

Lemma header_bytes payload :
  valid_payload payload ->
  putFixed32 (putFixed32 [] (wrap32 (len payload))) (crc32c payload) =
  le_bytes 4 (len payload) ++ le_bytes 4 (crc32c payload).
Proof.
  intros [H1 H2]. rewrite !putFixed32_le_bytes, wrap32_small; [done|].
  unfold kMaxWalRecordPayloadSize, kUint32Max in *. lia.
Qed.

Lemma append_guards w payload evs :
  ok (error_ w) = true -> valid_payload payload ->
  append strerror evs w payload =
  let '(w, status, evs) :=
    writeAll strerror evs w (le_bytes 4 (len payload) ++ le_bytes 4 (crc32c payload)) in
  if negb (ok status) then (w, status, evs) else writeAll strerror evs w payload.
Proof.
  intros Hok Hv. unfold append. rewrite Hok. simpl. destruct Hv as [H1 H2].
  rewrite bool_decide_false by (intros ->; unfold len in H1; simpl in H1; lia).
  destruct (Z.ltb_spec kMaxWalRecordPayloadSize (len payload)); [lia|].
  by rewrite header_bytes.
Qed.

Lemma append_benign w payload evs :
  ok (error_ w) = true -> valid_payload payload -> Forall benign_write evs ->
  exists evs', Forall benign_write evs' /\
    append strerror evs w payload = (file_append (record_bytes payload) w, success, evs').
Proof.
  intros Hok Hv Hb. rewrite append_guards by done.
  destruct (writeAll_benign evs w (le_bytes 4 (len payload) ++ le_bytes 4 (crc32c payload)) Hb)
    as (evs1 & Hb1 & ->). simpl.
  destruct (writeAll_benign evs1 (file_append (le_bytes 4 (len payload) ++ le_bytes 4 (crc32c payload)) w)
    payload Hb1) as (evs2 & Hb2 & ->).
  exists evs2. split; [done|]. unfold file_append, record_bytes. simpl. by rewrite <- !app_assoc.
Qed.

(** Whatever the environment does, an append leaves a prefix of the record, the
    whole record exactly when it succeeds; a failure is latched. *)
Lemma append_spec w payload evs w' st evs' :
  ok (error_ w) = true -> valid_payload payload ->
  append strerror evs w payload = (w', st, evs') ->
  exists k, w_file w' =
      mkLogFile (contents (w_file w) ++ take k (record_bytes payload)) (durable (w_file w)) /\
    ((st = success /\ take k (record_bytes payload) = record_bytes payload /\ error_ w' = error_ w) \/
     (st = error_ w' /\ ok st = false /\ (k < length (record_bytes payload))%nat)).
Proof.
  intros Hok Hv. rewrite append_guards by done.
  set (hd := le_bytes 4 (len payload) ++ le_bytes 4 (crc32c payload)).
  assert (record_bytes payload = hd ++ payload) as Hrec
    by (unfold record_bytes, hd; by rewrite <- app_assoc).
  destruct (writeAll strerror evs w hd) as [[w1 st1] evs1] eqn:E1.
  apply writeAll_spec in E1 as (wr & rest & Hd & Hf & Hc); [|done].
  destruct Hc as [(-> & -> & He)|(Hst & Hno & Hrest)]; simpl.
  - rewrite app_nil_r in Hd. subst wr. intros E2.
    apply writeAll_spec in E2 as (wr2 & rest2 & Hd2 & Hf2 & Hc2); [|congruence].
    exists (length hd + length wr2)%nat. rewrite Hrec, Hd2, app_assoc.
    replace (length hd + length wr2)%nat with (length (hd ++ wr2)) by apply length_app.
    rewrite take_app_length. split; [rewrite Hf2, Hf; simpl; by rewrite <- app_assoc|].
    destruct Hc2 as [(-> & -> & He2)|(Hst2 & Hno2 & Hrest2)].
    + left. rewrite app_nil_r, He2, He. done.
    + right. split_and!; [done..|]. rewrite !length_app. destruct rest2; [done|simpl; lia].
  - rewrite Hno. simpl. intros; simplify_eq. exists (length wr).
    rewrite Hrec, Hd, <- app_assoc, take_app_length. split; [done|]. right.
    split_and!; [done..|]. rewrite !length_app. destruct rest; [done|simpl; lia].
Qed.

(** *** Reading *)

Lemma readUpTo_benign evs : forall r size got,
  Forall benign_read evs ->
  exists evs', Forall benign_read evs' /\
    readUpTo strerror evs r size got =
    (mkWalReader (drop size (r_rest r)) (r_path r) (valid_bytes_ r),
     Ok (got ++ take size (r_rest r)), evs').
Proof.
  induction evs as [|ev evs IH]; intros r size got Hb.
  { exists []. split; [constructor|]. destruct size as [|size]; simpl; [|done].
    by rewrite ?drop_0, ?take_0, app_nil_r, WalReader_eta. }
  pose proof Hb as [Hev Hb']%Forall_cons_iff. destruct size as [|size]; simpl.
  { exists (ev :: evs). split; [done|]. by rewrite ?drop_0, ?take_0, app_nil_r, WalReader_eta. }
  destruct ev as [n|e]; simpl in Hev.
  - set (m := (Nat.min (Nat.max 1 (Z.to_nat n)) (S size))).
    assert (1 <= m <= S size)%nat as Hm by lia.
    case_bool_decide as Hc.
    + exists evs. split; [done|].
      assert (r_rest r = []) as Hr.
      { apply (f_equal length) in Hc. rewrite length_take in Hc. simpl in Hc.
        destruct (r_rest r); [done|simpl in *; lia]. }
      rewrite Hr. simpl. rewrite app_nil_r. destruct r; simpl in *; by subst.
    + assert (take m (r_rest r) = take (length (take m (r_rest r))) (r_rest r)) as Hm'.
      { rewrite length_take. destruct (Nat.le_ge_cases m (length (r_rest r))).
        - by rewrite Nat.min_l.
        - by rewrite Nat.min_r, !take_ge. }
      assert (length (take m (r_rest r)) <= S size)%nat as Hle by (rewrite length_take; lia).
      revert Hc Hm' Hle. generalize (take m (r_rest r)) as chunk. intros chunk Hc Hm' Hle.
      destruct (IH (mkWalReader (drop (length chunk) (r_rest r)) (r_path r) (valid_bytes_ r))
        (S size - length chunk)%nat (got ++ chunk) Hb') as (evs' & Hb'' & E).
      exists evs'. split; [done|]. replace (match length chunk with 0%nat => S size | S l => (size - l)%nat end)
        with (S size - length chunk)%nat by (by destruct (length chunk)).
      rewrite E. simpl r_rest; simpl r_path; simpl valid_bytes_.
      rewrite drop_drop, <- app_assoc. rewrite Hm' at 3.
      rewrite take_take_drop. by replace (length chunk + (S size - length chunk))%nat with (S size) by lia.
  - subst e. rewrite Z.eqb_refl. by apply IH.
Qed.

Lemma readNext_short r evs :
  Forall benign_read evs -> len (r_rest r) < kWalRecordHeaderSize ->
  exists evs', readNext strerror evs r =
    (mkWalReader [] (r_path r) (valid_bytes_ r), Ok None, evs').
Proof.
  intros Hb Hl. unfold readNext.
  destruct (readUpTo_benign evs r (Z.to_nat kWalRecordHeaderSize) [] Hb) as (evs1 & Hb1 & ->). simpl.
  unfold len, kWalRecordHeaderSize in *. rewrite drop_ge, take_ge by (simpl; lia).
  destruct (Z.ltb_spec (Z.of_nat (length (r_rest r))) 8); [|lia]. by exists evs1.
Qed.

(** With a complete header in front, everything depends on the payload part. *)
Lemma readNext_header r evs payload tail :
  Forall benign_read evs -> valid_payload payload ->
  r_rest r = le_bytes 4 (len payload) ++ le_bytes 4 (crc32c payload) ++ tail ->
  exists evs', Forall benign_read evs' /\
    readNext strerror evs r =
    let r' := mkWalReader (drop (length payload) tail) (r_path r) (valid_bytes_ r) in
    if (length tail <? length payload)%nat then (r', Ok None, evs')
    else if negb (crc32c (take (length payload) tail) =? crc32c payload)
    then (r', Err (corruptionAt "WAL record checksum mismatch" r'), evs')
    else (mkWalReader (drop (length payload) tail) (r_path r)
            (wrap64 (valid_bytes_ r + len (record_bytes payload))),
          Ok (Some (take (length payload) tail)), evs').
Proof.
  intros Hb [Hv1 Hv2] Hr. unfold readNext.
  destruct (readUpTo_benign evs r (Z.to_nat kWalRecordHeaderSize) [] Hb) as (evs1 & Hb1 & ->).
  rewrite Hr. simpl r_path; simpl valid_bytes_.
  assert (Z.to_nat kWalRecordHeaderSize =
    length (le_bytes 4 (len payload) ++ le_bytes 4 (crc32c payload))) as ->
    by (rewrite length_app, !length_le_bytes; done).
  rewrite app_assoc, drop_app_length, take_app_length. simpl app.
  destruct (Z.ltb_spec (len (le_bytes 4 (len payload) ++ le_bytes 4 (crc32c payload))) kWalRecordHeaderSize);
    [unfold kWalRecordHeaderSize in *; llia|].
  assert (0 <= len payload <= kUint32Max) by (unfold kMaxWalRecordPayloadSize, kUint32Max in *; lia).
  rewrite getFixed32_app by done.
  rewrite <- (app_nil_r (le_bytes 4 (crc32c payload))), getFixed32_app by apply crc32c_range.
  destruct (Z.eqb_spec (len payload) 0); [lia|].
  destruct (Z.ltb_spec kMaxWalRecordPayloadSize (len payload)); [lia|].
  destruct (readUpTo_benign evs1 (mkWalReader tail (r_path r) (valid_bytes_ r))
    (Z.to_nat (len payload)) [] Hb1) as (evs2 & Hb2 & ->).
  exists evs2. split; [done|]. rewrite <- length_len. simpl.
  destruct (Z.ltb_spec (len (take (length payload) tail)) (len payload)),
    (Nat.ltb_spec (length tail) (length payload)); try (unfold len in *; rewrite length_take in *; lia); [done|].
  case_match; [done|]. do 3 f_equal. unfold wrap64, kWalRecordHeaderSize, kMaxWalRecordPayloadSize in *.
  rewrite len_record. unfold kWalRecordHeaderSize.
  rewrite (Z.mod_small (8 + len payload)) by lia. done.
Qed.

Lemma readNext_record r evs payload rest :
  Forall benign_read evs -> valid_payload payload -> r_rest r = record_bytes payload ++ rest ->
  exists evs', Forall benign_read evs' /\
    readNext strerror evs r =
    (mkWalReader rest (r_path r) (wrap64 (valid_bytes_ r + len (record_bytes payload))),
     Ok (Some payload), evs').
Proof.
  intros Hb Hv Hr. unfold record_bytes in Hr. rewrite <- !app_assoc in Hr.
  destruct (readNext_header r evs payload (payload ++ rest) Hb Hv Hr) as (evs' & Hb' & ->).
  exists evs'. split; [done|]. simpl. rewrite drop_app_length, take_app_length, Z.eqb_refl.
  destruct (Nat.ltb_spec (length (payload ++ rest)) (length payload)); [|done].
  rewrite length_app in *. lia.
Qed.

(** A strict prefix of a record is reported as the end of the log. *)
Lemma readNext_torn r evs payload k :
  Forall benign_read evs -> valid_payload payload ->
  (k < length (record_bytes payload))%nat -> r_rest r = take k (record_bytes payload) ->
  exists r' evs', readNext strerror evs r = (r', Ok None, evs') /\ valid_bytes_ r' = valid_bytes_ r.
Proof.
  intros Hb Hv Hk Hr. rewrite length_record in Hk.
  destruct (decide (k < 8)%nat) as [Hs|Hs].
  - destruct (readNext_short r evs Hb) as (evs' & E).
    { rewrite Hr, len_take. unfold kWalRecordHeaderSize. lia. }
    eauto.
  - unfold record_bytes in Hr. rewrite !take_app, !length_le_bytes, !take_ge in Hr
      by (rewrite length_le_bytes; lia).
    destruct (readNext_header r evs payload (take (k - 4 - 4) payload) Hb Hv Hr) as (evs' & Hb' & ->).
    simpl. destruct (Nat.ltb_spec (length (take (k - 4 - 4) payload)) (length payload)); [by eauto|].
    rewrite length_take in *. lia.
Qed.

Lemma len_log_cons p ps : len (log_bytes (p :: ps)) = len (record_bytes p) + len (log_bytes ps).
Proof. unfold log_bytes. simpl. apply len_app. Qed.

(** Recovery of any prefix of a log: exactly the records that fit, and the
    offset behind the last of them. *)
Lemma readAll_prefix ps : forall k evs r acc fuel,
  Forall benign_read evs -> Forall valid_payload ps ->
  r_rest r = take k (log_bytes ps) -> (length (r_rest r) < fuel)%nat ->
  0 <= valid_bytes_ r -> valid_bytes_ r + len (log_bytes ps) <= kUint64Max ->
  exists n r', readAll strerror fuel evs r acc = Some (r', Ok (acc ++ take n ps)) /\
    valid_bytes_ r' = valid_bytes_ r + len (log_bytes (take n ps)) /\
    len (log_bytes (take n ps)) <= Z.of_nat k /\
    (n = length ps \/ (n < length ps)%nat /\ Z.of_nat k < len (log_bytes (take (S n) ps))).
Proof.
  induction ps as [|p ps IH]; intros k evs r acc fuel Hb Hv Hr Hfuel H0 Hmax;
    (destruct fuel as [|fuel]; [lia|]); simpl readAll.
  - unfold log_bytes in Hr. simpl in Hr. rewrite take_nil in Hr.
    destruct (readNext_short r evs Hb) as (evs' & ->); [by rewrite Hr|].
    exists 0%nat. eexists. rewrite app_nil_r. unfold log_bytes. simpl. rewrite len_nil.
    split_and!; [done|simpl; lia|lia|by left].
  - apply Forall_cons_iff in Hv as [Hp Hv].
    assert (log_bytes (p :: ps) = record_bytes p ++ log_bytes ps) as Hlog by done.
    destruct (decide (k < length (record_bytes p))%nat) as [Hk|Hk].
    + destruct (readNext_torn r evs p k Hb Hp Hk) as (r' & evs' & -> & Hvb).
      { rewrite Hr, Hlog, take_app_le by lia. done. }
      exists 0%nat, r'. rewrite app_nil_r, Hvb. unfold log_bytes; simpl. rewrite len_nil.
      split_and!; [done|lia..|]. right. split; [lia|]. rewrite app_nil_r.
      unfold len. lia.
    + assert (r_rest r = record_bytes p ++ take (k - length (record_bytes p)) (log_bytes ps)) as Hr'.
      { by rewrite Hr, Hlog, take_app, take_ge by lia. }
      destruct (readNext_record r evs p _ Hb Hp Hr') as (evs' & Hb' & ->).
      rewrite len_log_cons in Hmax. pose proof (len_nonneg (log_bytes ps)).
      pose proof (len_nonneg (record_bytes p)).
      set (r' := mkWalReader _ _ _).
      assert (valid_bytes_ r' = valid_bytes_ r + len (record_bytes p)) as Hvb.
      { unfold r'; simpl. unfold wrap64, kUint64Max in *. apply Z.mod_small. lia. }
      destruct (IH (k - length (record_bytes p))%nat evs' r' (acc ++ [p]) fuel) as (n & r'' & E & Hvb' & Hn & Hcase);
        try done; [|lia|lia|].
      { unfold r'. simpl r_rest. rewrite Hr', length_app in Hfuel. pose proof (length_record p). lia. }
      exists (S n), r''. rewrite E, <- app_assoc. simpl take. rewrite !len_log_cons.
      split_and!; [done|lia| |].
      * unfold len in *. lia.
      * destruct Hcase as [->|[? ?]]; [by left|]. right. simpl. split; [lia|]. unfold len in *. lia.
Qed.

(** *** Sessions *)

Lemma log_bytes_app ps qs : log_bytes (ps ++ qs) = log_bytes ps ++ log_bytes qs.
Proof. unfold log_bytes. by rewrite map_app, concat_app. Qed.

Lemma log_bytes_take n m ps : (n <= m)%nat -> log_bytes (take n ps) `prefix_of` log_bytes (take m ps).
Proof.
  intros Hle. replace m with (n + (m - n))%nat by lia. rewrite <- take_take_drop, log_bytes_app. by apply prefix_app_r.
Qed.

(** The file holds the acknowledged records and at most a strict prefix of one
    more, which is only possible once an error is latched. *)
Definition wal_inv (w : WalWriter) (acked : list bytes) (synced : nat) : Prop :=
  Forall valid_payload acked /\
  (exists p k, valid_payload p /\ (k < length (record_bytes p))%nat /\
     contents (w_file w) = log_bytes acked ++ take k (record_bytes p) /\
     (ok (error_ w) = true -> k = 0%nat)) /\
  (synced <= length acked)%nat /\
  (length (log_bytes (take synced acked)) <= durable (w_file w))%nat.

Lemma append_invalid w payload evs :
  ok (error_ w) = true -> ~ valid_payload payload ->
  exists m, append strerror evs w payload = (w, invalidArgument m, evs).
Proof.
  intros Hok Hv. unfold append. rewrite Hok. simpl. case_bool_decide as Hp; [eauto|].
  destruct (Z.ltb_spec kMaxWalRecordPayloadSize (len payload)); [eauto|]. destruct Hv. split; [|lia].
  pose proof (len_nonneg payload). rewrite <- len_zero in Hp. lia.
Qed.

Lemma append_latched w payload evs :
  ok (error_ w) = false -> append strerror evs w payload = (w, error_ w, evs).
Proof. intros Hok. unfold append. by rewrite Hok. Qed.

Lemma wal_inv_append w acked synced evs payload w' st evs' :
  wal_inv w acked synced -> append strerror evs w payload = (w', st, evs') ->
  wal_inv w' (if ok st then acked ++ [payload] else acked) synced.
Proof.
  intros (Hva & (p & k & Hp & Hk & Hc & Hk0) & Hs & Hd).
  destruct (ok (error_ w)) eqn:Hok.
  2:{ rewrite append_latched by done. intros; simplify_eq. rewrite Hok.
      split_and!; try done. exists p, k. rewrite Hok. by split_and!. }
  rewrite (Hk0 eq_refl), take_0, app_nil_r in Hc.
  destruct (decide (valid_payload payload)) as [Hv|Hv].
  2:{ destruct (append_invalid w payload evs Hok Hv) as [m ->]. intros; simplify_eq. simpl.
      split_and!; try done. exists p, 0%nat. rewrite take_0, app_nil_r.
      split_and!; try done. lia. }
  intros E. apply append_spec in E as (j & Hf & Hcase); [|done..].
  destruct Hcase as [(-> & Hj & He)|(Hst & Hno & Hj)]; simpl.
  - split_and!.
    + apply Forall_app; split; [done|]. by constructor.
    + exists p, 0%nat. rewrite take_0, app_nil_r, Hf, log_bytes_app, Hc. simpl. rewrite Hj.
      unfold log_bytes at 3. simpl. rewrite app_nil_r. split_and!; try done. lia.
    + rewrite length_app. lia.
    + rewrite take_app_le by done. by rewrite Hf.
  - rewrite Hno. split_and!; try done.
    + exists payload, j. rewrite Hf, Hc. simpl. split_and!; try done.
      intros Ht. congruence.
    + by rewrite Hf.
Qed.

Lemma sync_loop_spec errnos : forall w w' st,
  ok (error_ w) = true -> sync_loop strerror errnos w = (w', st) ->
  contents (w_file w') = contents (w_file w) /\
  ((st = success /\ error_ w' = error_ w /\ durable (w_file w') = length (contents (w_file w))) \/
   (st = error_ w' /\ ok st = false /\ durable (w_file w') = durable (w_file w))).
Proof.
  induction errnos as [|e errnos IH]; simpl; intros w w' st Hok; [intros; simplify_eq; auto|].
  destruct (Z.eqb_spec e EINTR); [by apply IH|]. intros; simplify_eq.
  unfold latchIOError. rewrite Hok. auto.
Qed.

Lemma wal_inv_sync w acked synced errnos w' st :
  wal_inv w acked synced -> sync strerror errnos w = (w', st) ->
  wal_inv w' acked (if ok st then length acked else synced).
Proof.
  intros Hinv. pose proof Hinv as (Hva & (p & k & Hp & Hk & Hc & Hk0) & Hs & Hd). unfold sync.
  destruct (ok (error_ w)) eqn:Hok; simpl.
  2:{ intros; simplify_eq. by rewrite Hok. }
  intros (Hcon & Hcase)%sync_loop_spec; [|done].
  destruct Hcase as [(-> & He & Hdur)|(Hst & Hno & Hdur)]; simpl; unfold wal_inv; rewrite Hcon, Hdur.
  - rewrite firstn_all, He, Hok. split_and!; try done; [by exists p, k|].
    rewrite Hc, length_app. lia.
  - rewrite Hno. split_and!; try done. exists p, k. split_and!; try done. congruence.
Qed.

Lemma wal_run_inv path w acked synced :
  wal_run strerror path w acked synced -> wal_inv w acked synced.
Proof.
  induction 1.
  - split_and!; [constructor| |done..]. exists [x00], 0%nat. split_and!; try done. rewrite length_record. lia.
  - by eapply wal_inv_append.
  - by eapply wal_inv_sync.
Qed.

(** Recovery after a crash of a session. *)
Lemma wal_inv_recover path w acked synced file evs :
  wal_inv w acked synced -> len (contents (w_file w)) <= kUint64Max - 2 * kMaxWalRecordPayloadSize ->
  crash_file (w_file w) file -> Forall benign_read evs ->
  exists n r, recover_log strerror path file evs = Some (r, Ok (take n acked)) /\
    (synced <= n <= length acked)%nat /\ valid_bytes_ r = len (log_bytes (take n acked)).
Proof.
  intros (Hva & (p & k & Hp & Hk & Hc & _) & Hs & Hd) Hmax Hcrash Hb.
  destruct Hcrash as [f c Hdc].
  assert (contents f = take (length (log_bytes acked) + k) (log_bytes (acked ++ [p]))) as Hc'.
  { rewrite Hc, log_bytes_app. unfold log_bytes at 4. simpl. rewrite app_nil_r.
    by rewrite take_app_add. }
  unfold recover_log.
  destruct (readAll_prefix (acked ++ [p]) (Nat.min c (length (log_bytes acked) + k)) evs
    (open_reader path (take c (contents f))) [] (S (length (take c (contents f)))))
    as (n & r & E & Hvb & Hn & Hcase); try done.
  { apply Forall_app; split; [done|]. by constructor. }
  { simpl. by rewrite Hc', take_take. }
  { simpl. lia. }
  { simpl. rewrite log_bytes_app, len_app. unfold log_bytes at 2. simpl. rewrite app_nil_r, len_record.
    rewrite Hc, len_app in Hmax. destruct Hp as [_ Hp].
    pose proof (len_nonneg (take k (record_bytes p))).
    unfold kWalRecordHeaderSize, kMaxWalRecordPayloadSize in *. lia. }
  assert (n <= length acked)%nat as Hle.
  { destruct (Nat.le_gt_cases n (length acked)) as [|Hgt]; [done|]. exfalso.
    rewrite take_ge in Hn by (rewrite length_app; simpl; lia).
    rewrite log_bytes_app, len_app in Hn. unfold log_bytes at 2 in Hn. simpl in Hn.
    rewrite app_nil_r in Hn. unfold len in Hn. lia. }
  rewrite take_app_le in E, Hvb by done.
  exists n, r. split_and!; [done| |done|done].
  destruct (Nat.le_gt_cases synced n) as [|Hgt]; [done|]. exfalso.
  destruct Hcase as [->|[_ Hlt]]; [rewrite length_app in *; simpl in *; lia|].
  rewrite take_app_le in Hlt by lia.
  pose proof (prefix_length _ _ (log_bytes_take (S n) synced acked ltac:(lia))).
  pose proof (prefix_length _ _ (log_bytes_take synced (length acked) acked ltac:(lia))) as Hfull. rewrite firstn_all in Hfull.
  unfold len in *. lia.
Qed.

(** A damaged payload: at most four consecutive bytes of it changed. *)
Lemma readNext_damaged r evs pre u v post rest :
  Forall benign_read evs -> valid_payload (pre ++ u ++ post) ->
  length u = length v -> len u <= 4 -> u <> v ->
  r_rest r = le_bytes 4 (len (pre ++ u ++ post)) ++ le_bytes 4 (crc32c (pre ++ u ++ post)) ++
             (pre ++ v ++ post) ++ rest ->
  exists r' evs', readNext strerror evs r =
    (r', Err (corruptionAt "WAL record checksum mismatch" r), evs').
Proof.
  intros Hb Hv Hl H4 Hne Hr.
  assert (length (pre ++ u ++ post) = length (pre ++ v ++ post)) as Hlen
    by (rewrite !length_app; lia).
  destruct (readNext_header r evs _ _ Hb Hv Hr) as (evs' & _ & ->). simpl.
  rewrite Hlen, take_app_length.
  destruct (Nat.ltb_spec (length ((pre ++ v ++ post) ++ rest)) (length (pre ++ v ++ post)));
    [rewrite length_app in *; lia|].
  destruct (Z.eqb_spec (crc32c (pre ++ v ++ post)) (crc32c (pre ++ u ++ post))) as [Heq|]; simpl; [|by eauto].
  by apply eq_sym, crc32c_burst in Heq.
Qed.

End wal_lemmas.

(** ** Correctness of the log *)

(** C10. Crash recovery of the write-ahead log.  Take any session on a fresh
    log, with short writes, interrupts, hard errors and failing syncs at the
    environment's choice, and crash it so that the file keeps at least its
    synced part.  Reading the file back, with any pattern of short reads and
    interrupts, reports no error and returns a prefix of the acknowledged
    payloads, in order, that contains everything acknowledged before the last
    successful sync; [validBytes] is the offset behind the last of them. *)
Theorem wal_session_crash_recovery strerror path w acked synced file evs :
  wal_run strerror path w acked synced ->
  len (contents (w_file w)) <= kUint64Max - 2 * kMaxWalRecordPayloadSize ->
  crash_file (w_file w) file -> Forall benign_read evs ->
  exists n r, recover_log strerror path file evs = Some (r, Ok (take n acked)) /\
    (synced <= n <= length acked)%nat /\ valid_bytes_ r = len (log_bytes (take n acked)).
Proof. intros Hrun. by apply wal_inv_recover, (wal_run_inv strerror path). Qed.

Lemma wal_session_crash_recovery_witness :
  exists n r, recover_log (fun _ => "") "w" (take 18 (log_bytes [[x61]; [x62; x63]]))
      [ReadCount 1; ReadErrno EINTR; ReadCount 5] = Some (r, Ok (take n [[x61]; [x62; x63]])) /\
    (1 <= n <= 2)%nat /\ valid_bytes_ r = len (log_bytes (take n [[x61]; [x62; x63]])).
Proof.
  apply (wal_session_crash_recovery (fun _ => "") "w"
    (mkWalWriter (mkLogFile (log_bytes [[x61]; [x62; x63]]) 9) "w" success)
    [[x61]; [x62; x63]] 1).
  - apply (wal_run_append _ _ (mkWalWriter (mkLogFile (log_bytes [[x61]]) 9) "w" success)
      [[x61]] 1 [WriteErrno EINTR; WriteCount 3] [x62; x63] _ success []); [|vm_compute; reflexivity].
    apply (wal_run_sync _ _ (mkWalWriter (mkLogFile (log_bytes [[x61]]) 0) "w" success)
      [[x61]] 0 [EINTR] _ success); [|vm_compute; reflexivity].
    apply (wal_run_append _ _ (mkWalWriter (mkLogFile [] 0) "w" success)
      [] 0 [WriteCount 2] [x61] _ success []); [|vm_compute; reflexivity].
    apply wal_run_open.
  - vm_compute. discriminate.
  - apply (crash_file_intro (mkLogFile (log_bytes [[x61]; [x62; x63]]) 9)). simpl. lia.
  - repeat constructor.
Defined.



(** C12. The checksum detects every damage confined to four consecutive bytes of
    a record's payload: [readNext] returns a corruption status naming the
    offset of the record and no payload. *)
Theorem wal_damage_detected strerror r evs pre u v post rest :
  Forall benign_read evs -> valid_payload (pre ++ u ++ post) ->
  length u = length v -> len u <= 4 -> u <> v ->
  r_rest r = le_bytes 4 (len (pre ++ u ++ post)) ++ le_bytes 4 (crc32c (pre ++ u ++ post)) ++
             (pre ++ v ++ post) ++ rest ->
  exists r' evs', readNext strerror evs r =
    (r', Err (corruption ("WAL record checksum mismatch at offset " +:+ to_string (valid_bytes_ r))), evs').
Proof. apply readNext_damaged. Qed.

Lemma wal_damage_detected_witness :
  exists r' evs', readNext (fun _ => "") [ReadCount 2]
      (mkWalReader (le_bytes 4 2 ++ le_bytes 4 (crc32c [x61; x62]) ++ [x61; x63]) "w" 0) =
    (r', Err (corruption ("WAL record checksum mismatch at offset " +:+ to_string 0)), evs').
Proof.
  apply (wal_damage_detected (fun _ => "") (mkWalReader
    (le_bytes 4 2 ++ le_bytes 4 (crc32c [x61; x62]) ++ [x61; x63]) "w" 0) _ [x61] [x62] [x63] [] []);
    [repeat constructor|by split|done|by vm_compute|done|done].
Defined.
