(* ===== verification/BloomFilter.v ===== *)
(** The Bloom filter of an SSTable (src/table/bloom_filter.cc): 32-bit hashing
    with wrap-around, a bit array of ten bits per key and six probes. *)
From S2P Require Import Prelude Coding.

(** ** Definitions *)

Definition kBloomHashSeed : Z := 3164544308. (* 0xbc9f1d34 *)
Definition kBloomBitsPerKey : Z := 10.
Definition kBloomProbes : Z := 6.
Definition kMinimumBloomBits : Z := 64.
Definition kMaximumProbes : Z := 30.
Definition bloom_multiplier : Z := 3332679571. (* 0xc6a4a793 *)

(** The four-bytes-at-a-time loop; returns the hash and the bytes left. *)
Fixpoint bloomHash_loop (data : bytes) (hash : Z) : Z * bytes :=
  match data with
  | _ :: _ :: _ :: _ :: rest =>
      let hash := wrap32 (hash + decodeFixed32 data) in
      let hash := wrap32 (hash * bloom_multiplier) in
      let hash := Z.lxor hash (Z.shiftr hash 16) in
      bloomHash_loop rest hash
  | _ => (hash, data)
  end.

Definition bloomHash (key : bytes) : Z :=
  let hash := Z.lxor kBloomHashSeed (wrap32 (wrap32 (len key) * bloom_multiplier)) in
  let '(hash, data) := bloomHash_loop key hash in
  let remaining := length data in
  let hash := if (remaining =? 3)%nat then wrap32 (hash + Z.shiftl (byte_at data 2) 16) else hash in
  let hash :=
    if (2 <=? remaining)%nat then wrap32 (hash + Z.shiftl (byte_at data 1) 8) else hash in
  if (1 <=? remaining)%nat then
    let hash := wrap32 (hash + byte_at data 0) in
    let hash := wrap32 (hash * bloom_multiplier) in
    Z.lxor hash (Z.shiftr hash 24)
  else hash.

Definition rotatedDelta (hash : Z) : Z :=
  Z.lor (Z.shiftr hash 17) (wrap32 (Z.shiftl hash 15)).

(** [encoded[bit / 8] |= 1 << (bit % 8)]. *)
Definition set_bit (encoded : bytes) (bit : Z) : bytes :=
  <[ Z.to_nat (bit / 8) :=
       byte_of_Z (Z.lor (byte_at encoded (Z.to_nat (bit / 8))) (Z.shiftl 1 (bit mod 8))) ]> encoded.

Definition test_bit (encoded : bytes) (bit : Z) : bool :=
  negb (Z.land (byte_at encoded (Z.to_nat (bit / 8))) (Z.shiftl 1 (bit mod 8)) =? 0).

(** The probe loops of [buildFilter] and [bloomFilterMayContain]. *)
Fixpoint set_probes (probes : nat) (encoded : bytes) (bit_count hash delta : Z) : bytes :=
  match probes with
  | O => encoded
  | S probes =>
      set_probes probes (set_bit encoded (hash mod bit_count)) bit_count
        (wrap32 (hash + delta)) delta
  end.

Fixpoint test_probes (probes : nat) (encoded : bytes) (bit_count hash delta : Z) : bool :=
  match probes with
  | O => true
  | S probes =>
      if negb (test_bit encoded (hash mod bit_count)) then false
      else test_probes probes encoded bit_count (wrap32 (hash + delta)) delta
  end.

Definition filter_byte_count (key_count : Z) : Z :=
  (Z.max (key_count * kBloomBitsPerKey) kMinimumBloomBits + 7) / 8.

Definition buildFilter (hashes : list Z) : bytes :=
  let byte_count := filter_byte_count (len hashes) in
  let bit_count := byte_count * 8 in
  let encoded := replicate (Z.to_nat byte_count) x00 ++ [byte_of_Z kBloomProbes] in
  foldl (fun encoded hash =>
           set_probes (Z.to_nat kBloomProbes) encoded bit_count hash (rotatedDelta hash))
    encoded hashes.

(** [BloomFilterBuilder]: the hashes of the added keys. *)
Definition bloom_add (hashes_ : list Z) (key : bytes) : list Z := hashes_ ++ [bloomHash key].
Definition bloom_finish (hashes_ : list Z) : bytes := buildFilter hashes_.

Definition bloomFilterMayContain (key encoded_filter : bytes) : bool :=
  if bool_decide (encoded_filter = []) then true
  else if len encoded_filter =? 1 then true
  else
    let byte_count := len encoded_filter - 1 in
    let bit_count := byte_count * 8 in
    let probes := byte_at encoded_filter (Z.to_nat byte_count) in
    if (probes =? 0) || (kMaximumProbes <? probes) then true
    else
      let hash := bloomHash key in
      test_probes (Z.to_nat probes) encoded_filter bit_count hash (rotatedDelta hash).

(** ** Bits *)

Lemma length_set_bit s bit : length (set_bit s bit) = length s.
Proof. unfold set_bit. apply length_insert. Qed.

Lemma length_set_probes n : forall s bc h d, length (set_probes n s bc h d) = length s.
Proof. induction n as [|n IH]; simpl; intros; [done|]. by rewrite IH, length_set_bit. Qed.

Lemma byte_at_set_bit s bit i :
  byte_at (set_bit s bit) i =
  if decide (i = Z.to_nat (bit / 8) /\ (i < length s)%nat)
  then wrap8 (Z.lor (byte_at s i) (Z.shiftl 1 (bit mod 8))) else byte_at s i.
Proof.
  unfold byte_at at 1. unfold set_bit. rewrite nth_lookup. case_decide as H.
  - destruct H as [-> H]. rewrite list_lookup_insert_eq by done. apply byte_to_of_Z.
  - unfold byte_at. rewrite !nth_lookup. destruct (decide (i = Z.to_nat (bit / 8))) as [->|].
    + by rewrite list_insert_ge by lia.
    + by rewrite list_lookup_insert_ne by done.
Qed.

(** A byte with one more bit set: that bit, and every bit set before. *)
Lemma lor_bit_range b k : 0 <= b < 256 -> 0 <= k < 8 -> 0 <= Z.lor b (Z.shiftl 1 k) < 256.
Proof.
  intros Hb Hk. assert (0 <= Z.lor b (Z.shiftl 1 k)) by (apply Z.lor_nonneg; rewrite Z.shiftl_mul_pow2 by lia; lia).
  split; [done|]. destruct (decide (Z.lor b (Z.shiftl 1 k) = 0)); [lia|].
  change 256 with (2 ^ 8). apply Z.log2_lt_pow2; [lia|].
  rewrite Z.log2_lor by (rewrite ?Z.shiftl_mul_pow2 by lia; lia).
  rewrite Z.shiftl_1_l, Z.log2_pow2 by lia.
  destruct (decide (b = 0)) as [->|]; [simpl; lia|].
  pose proof (proj1 (Z.log2_lt_pow2 b 8 ltac:(lia))). lia.
Qed.

Lemma test_mask b k : 0 <= k -> (Z.land b (Z.shiftl 1 k) =? 0) = negb (Z.testbit b k).
Proof.
  intros Hk. rewrite Z.shiftl_1_l. destruct (Z.testbit b k) eqn:E; simpl.
  - apply Z.eqb_neq. intros H. apply (f_equal (fun x => Z.testbit x k)) in H.
    by rewrite Z.land_spec, E, Z.pow2_bits_true, Z.bits_0 in H by lia.
  - apply Z.eqb_eq, Z.bits_inj'. intros i Hi. rewrite Z.land_spec, Z.bits_0.
    destruct (decide (i = k)) as [->|]; [by rewrite E|].
    by rewrite Z.pow2_bits_false, andb_false_r by lia.
Qed.

Lemma test_bit_eq s bit : test_bit s bit = Z.testbit (byte_at s (Z.to_nat (bit / 8))) (bit mod 8).
Proof.
  unfold test_bit. rewrite test_mask; [by rewrite negb_involutive|].
  apply Z.mod_pos_bound. lia.
Qed.

Lemma set_bit_test s bit :
  0 <= bit -> (Z.to_nat (bit / 8) < length s)%nat -> test_bit (set_bit s bit) bit = true.
Proof.
  intros Hb Hl. rewrite test_bit_eq, byte_at_set_bit, decide_True by done.
  pose proof (Z.mod_pos_bound bit 8 ltac:(lia)) as Hm.
  pose proof (lor_bit_range (byte_at s (Z.to_nat (bit / 8))) (bit mod 8) (byte_at_range _ _) Hm) as Hr.
  unfold wrap8. rewrite Z.mod_small by done.
  by rewrite Z.lor_spec, Z.shiftl_1_l, Z.pow2_bits_true, orb_true_r by lia.
Qed.

Lemma set_bit_mono s bit bit' :
  test_bit s bit' = true -> test_bit (set_bit s bit) bit' = true.
Proof.
  rewrite !test_bit_eq, byte_at_set_bit. case_decide as H; [|done]. intros Ht.
  pose proof (Z.mod_pos_bound bit 8 ltac:(lia)) as Hm.
  pose proof (lor_bit_range (byte_at s (Z.to_nat (bit' / 8))) (bit mod 8) (byte_at_range _ _) Hm) as Hr.
  unfold wrap8. rewrite Z.mod_small by done. by rewrite Z.lor_spec, Ht.
Qed.

Lemma set_probes_mono n : forall s bc h d bit,
  test_bit s bit = true -> test_bit (set_probes n s bc h d) bit = true.
Proof. induction n as [|n IH]; simpl; intros; [done|]. apply IH. by apply set_bit_mono. Qed.

(** ** Probes *)

Lemma set_probes_test n : forall s bc h d,
  0 < bc -> bc <= 8 * len s -> 0 <= h ->
  test_probes n (set_probes n s bc h d) bc h d = true.
Proof.
  induction n as [|n IH]; simpl; intros s bc h d Hbc Hs Hh; [done|].
  pose proof (Z.mod_pos_bound h bc Hbc) as Hm.
  rewrite set_probes_mono; simpl.
  - apply IH; [done| |apply wrap32_range]. unfold len in *. by rewrite length_set_bit.
  - apply set_bit_test; [lia|]. unfold len in Hs.
    assert (h mod bc / 8 < Z.of_nat (length s)) by (apply Z.div_lt_upper_bound; lia).
    pose proof (Z.div_pos (h mod bc) 8). lia.
Qed.

Lemma test_probes_mono n : forall s s' bc h d,
  (forall bit, test_bit s bit = true -> test_bit s' bit = true) ->
  test_probes n s bc h d = true -> test_probes n s' bc h d = true.
Proof.
  induction n as [|n IH]; simpl; intros s s' bc h d Hm; [done|].
  destruct (test_bit s (h mod bc)) eqn:E; simpl; [|done]. rewrite (Hm _ E). simpl. by apply IH.
Qed.

(** The probe-count byte behind the bit array is never touched. *)
Lemma set_probes_last n : forall s bc h d i,
  0 < bc -> bc <= 8 * Z.of_nat i -> byte_at (set_probes n s bc h d) i = byte_at s i.
Proof.
  induction n as [|n IH]; simpl; intros s bc h d i Hbc Hi; [done|].
  rewrite IH, byte_at_set_bit by done. apply decide_False. intros [-> _].
  pose proof (Z.mod_pos_bound h bc Hbc). pose proof (Z.div_pos (h mod bc) 8 ltac:(lia) ltac:(lia)).
  assert (h mod bc / 8 < Z.of_nat (Z.to_nat (h mod bc / 8))) by (apply Z.div_lt_upper_bound; lia). lia.
Qed.

Section build.
Context (bc : Z) (Hbc : 0 < bc).

Definition add_hash (encoded : bytes) (hash : Z) : bytes :=
  set_probes (Z.to_nat kBloomProbes) encoded bc hash (rotatedDelta hash).

Lemma add_hashes_mono hs : forall s bit,
  test_bit s bit = true -> test_bit (foldl add_hash s hs) bit = true.
Proof. induction hs as [|h hs IH]; simpl; intros; [done|]. apply IH. by apply set_probes_mono. Qed.

Lemma length_add_hashes hs : forall s, length (foldl add_hash s hs) = length s.
Proof. induction hs as [|h hs IH]; simpl; intros; [done|]. by rewrite IH; apply length_set_probes. Qed.

Lemma add_hashes_last hs : forall s i,
  bc <= 8 * Z.of_nat i -> byte_at (foldl add_hash s hs) i = byte_at s i.
Proof.
  induction hs as [|h hs IH]; simpl; intros s i Hi; [done|]. rewrite IH by done.
  by apply set_probes_last.
Qed.

Lemma add_hashes_test hs : forall s h,
  bc <= 8 * len s -> Forall (fun h => 0 <= h) hs -> h ∈ hs ->
  test_probes (Z.to_nat kBloomProbes) (foldl add_hash s hs) bc h (rotatedDelta h) = true.
Proof.
  induction hs as [|h' hs IH]; intros s h Hs Hp Hin; [set_solver|]. cbn [foldl].
  apply Forall_cons_iff in Hp as [Hh' Hp]. apply elem_of_cons in Hin as [->|Hin].
  - eapply test_probes_mono; [by apply add_hashes_mono|]. unfold add_hash. by apply set_probes_test.
  - apply IH; [|done..]. unfold add_hash, len. by rewrite length_set_probes.
Qed.

End build.

Lemma filter_byte_count_min n : 8 <= filter_byte_count n.
Proof. unfold filter_byte_count, kMinimumBloomBits. apply Z.div_le_lower_bound; lia. Qed.

Lemma lxor_u32_nonneg a b : 0 <= a -> 0 <= b -> 0 <= Z.lxor a b.
Proof. intros. apply Z.lxor_nonneg. lia. Qed.

Lemma bloomHash_loop_nonneg n : forall data h, (length data <= n)%nat -> 0 <= h -> 0 <= (bloomHash_loop data h).1.
Proof.
  induction n as [|n IH]; intros data h Hl Hh; destruct data as [|a [|b [|c [|d rest]]]]; simpl in *; try done; try lia.
  apply IH; [lia|]. apply lxor_u32_nonneg; [|apply Z.shiftr_nonneg]; apply wrap32_range.
Qed.

Lemma bloomHash_nonneg key : 0 <= bloomHash key.
Proof.
  unfold bloomHash.
  assert (0 <= (bloomHash_loop key (Z.lxor kBloomHashSeed (wrap32 (wrap32 (len key) * bloom_multiplier)))).1) as H.
  { apply (bloomHash_loop_nonneg (length key)); [done|].
    apply lxor_u32_nonneg; [done|]. apply wrap32_range. }
  destruct (bloomHash_loop _ _) as [h data]. simpl in H.
  repeat case_match; try done; try apply wrap32_range;
    (apply lxor_u32_nonneg; [|apply Z.shiftr_nonneg]; apply wrap32_range).
Qed.

Lemma buildFilter_layout hashes :
  len (buildFilter hashes) = filter_byte_count (len hashes) + 1 /\
  byte_at (buildFilter hashes) (Z.to_nat (filter_byte_count (len hashes))) = kBloomProbes.
Proof.
  pose proof (filter_byte_count_min (len hashes)) as Hm.
  set (n := filter_byte_count (len hashes)) in *.
  set (enc := replicate (Z.to_nat n) x00 ++ [byte_of_Z kBloomProbes]).
  assert (length enc = S (Z.to_nat n)) as Hl.
  { unfold enc. rewrite length_app, length_replicate. simpl. lia. }
  change (buildFilter hashes) with (foldl (add_hash (n * 8)) enc hashes). split.
  - unfold len. rewrite length_add_hashes, Hl. lia.
  - rewrite add_hashes_last by lia. unfold byte_at, enc.
    rewrite app_nth2; rewrite length_replicate; [|lia]. by rewrite Nat.sub_diag.
Qed.

(** ** Correctness *)

Lemma buildFilter_covers keys key :
  key ∈ keys -> bloomFilterMayContain key (buildFilter (map bloomHash keys)) = true.
Proof.
  intros Hin. set (hs := map bloomHash keys).
  destruct (buildFilter_layout hs) as [Hlen Hprobes].
  pose proof (filter_byte_count_min (len hs)) as Hm.
  unfold bloomFilterMayContain. case_bool_decide; [done|].
  destruct (Z.eqb_spec (len (buildFilter hs)) 1); [done|].
  rewrite Hlen. replace (filter_byte_count (len hs) + 1 - 1) with (filter_byte_count (len hs)) by lia.
  rewrite Hprobes. simpl (_ || _).
  change (buildFilter hs) with (foldl (add_hash (filter_byte_count (len hs) * 8))
    (replicate (Z.to_nat (filter_byte_count (len hs))) x00 ++ [byte_of_Z kBloomProbes]) hs).
  apply add_hashes_test; [lia| |apply Forall_elem|].
  - autorewrite with len. lia.
  - intros h Hh. unfold hs in Hh. apply list_elem_of_In, in_map_iff in Hh as (k & <- & _).
    apply bloomHash_nonneg.
  - unfold hs. apply list_elem_of_In, in_map, list_elem_of_In. done.
Qed.

Lemma bloom_adds keys : forall acc, foldl bloom_add acc keys = acc ++ map bloomHash keys.
Proof.
  induction keys as [|k keys IH]; simpl; intros acc; [by rewrite app_nil_r|].
  rewrite IH. unfold bloom_add. by rewrite <- app_assoc.
Qed.

(** The size of a filter is linear in the number of keys. *)
Lemma len_buildFilter hashes : 0 <= len (buildFilter hashes) <= 2 * len hashes + 10.
Proof.
  destruct (buildFilter_layout hashes) as [-> _]. pose proof (filter_byte_count_min (len hashes)).
  split; [lia|]. unfold filter_byte_count, kMinimumBloomBits, kBloomBitsPerKey.
  pose proof (len_nonneg hashes).
  assert ((Z.max (len hashes * 10) 64 + 7) / 8 <= 2 * len hashes + 9) by (apply Z.div_le_upper_bound; lia). lia.
Qed.

(** C19. No false negatives: a filter built from a sequence of keys answers
    "may contain" for each of them, whatever the other keys are, so a negative
    answer licenses skipping the table. *)
Theorem bloom_no_false_negative keys key :
  key ∈ keys -> bloomFilterMayContain key (bloom_finish (foldl bloom_add [] keys)) = true.
Proof. intros. unfold bloom_finish. rewrite bloom_adds. by apply buildFilter_covers. Qed.

Lemma bloom_no_false_negative_witness :
  bloomFilterMayContain [x62] (bloom_finish (foldl bloom_add [] [[x61]; [x62]; [x63; x64; x65; x66; x67]])) = true.
Proof. apply (bloom_no_false_negative [[x61]; [x62]; [x63; x64; x65; x66; x67]]). set_solver. Defined.

(** A filter can answer "no": the key is then absent. *)
Example bloom_rejects :
  bloomFilterMayContain [x7a] (bloom_finish (foldl bloom_add [] [[x61]; [x62]])) = false.
Proof. vm_compute. reflexivity. Qed.
