(* ===== verification/BlockBuilder.v ===== *)
(** Building a prefix-compressed block (src/table/block_builder.cc), and the
    layout every block it produces has: the contract [BlockIterator.v] reads
    blocks against. *)
From S2P Require Import Prelude Coding InternalKey Mvcc.

(** ** src/table/block_builder.h, src/table/block_builder.cc *)

Definition kFixed32Size : Z := 4.

Record BlockBuilder := mkBlockBuilder {
  restart_interval : Z;
  buffer_ : bytes;
  restarts_ : list Z;
  last_key_ : bytes;
  entries_since_restart_ : Z;
  entry_count_ : Z;
  finished_ : bool;
}.

Fixpoint commonPrefix (lhs rhs : bytes) : nat :=
  match lhs, rhs with
  | a :: lhs, b :: rhs => if bool_decide (a = b) then S (commonPrefix lhs rhs) else O
  | _, _ => O
  end.

(** The constructor. *)
Definition newBlockBuilder (interval : Z) : option BlockBuilder :=
  _ ← assert_that (0 <? interval);
  Some (mkBlockBuilder interval [] [0] [] 0 0 false).

Definition bb_reset (b : BlockBuilder) : BlockBuilder :=
  mkBlockBuilder (restart_interval b) [] [0] [] 0 0 false.

Definition bb_add (b : BlockBuilder) (key value : bytes) : option BlockBuilder :=
  _ ← assert_that (negb (finished_ b));
  _ ← assert_that (len key <=? kUint32Max);
  _ ← assert_that (len value <=? kUint32Max);
  '(shared, restarts, since) ←
    (if entries_since_restart_ b =? restart_interval b then
       _ ← assert_that (len (buffer_ b) <=? kUint32Max);
       Some (O, restarts_ b ++ [wrap32 (len (buffer_ b))], 0)
     else Some (commonPrefix (last_key_ b) key, restarts_ b, entries_since_restart_ b));
  let unshared := len key - Z.of_nat shared in
  let buffer := putFixed32 (buffer_ b) (wrap32 (Z.of_nat shared)) in
  let buffer := putFixed32 buffer (wrap32 unshared) in
  let buffer := putFixed32 buffer (wrap32 (len value)) in
  let buffer := buffer ++ drop shared key in
  let buffer := buffer ++ value in
  Some (mkBlockBuilder (restart_interval b) buffer restarts key (since + 1)
          (entry_count_ b + 1) (finished_ b)).

(** Returns the builder and the finished block. *)
Definition bb_finish (b : BlockBuilder) : option (BlockBuilder * bytes) :=
  _ ← assert_that (negb (finished_ b));
  _ ← assert_that (len (restarts_ b) <=? kUint32Max);
  let buffer := foldl putFixed32 (buffer_ b) (restarts_ b) in
  let buffer := putFixed32 buffer (wrap32 (len (restarts_ b))) in
  Some (mkBlockBuilder (restart_interval b) buffer (restarts_ b) (last_key_ b)
          (entries_since_restart_ b) (entry_count_ b) true, buffer).

Definition bb_empty (b : BlockBuilder) : bool := entry_count_ b =? 0.

Definition currentSizeEstimate (b : BlockBuilder) : Z :=
  if finished_ b then len (buffer_ b)
  else len (buffer_ b) + len (restarts_ b) * kFixed32Size + kFixed32Size.

(** ** The layout of a block *)

(** An entry with the number of key bytes it shares with its predecessor. *)
Notation item := (nat * entry)%type.

Definition item_bytes (i : item) : bytes :=
  le_bytes 4 (Z.of_nat i.1) ++ le_bytes 4 (len i.2.1 - Z.of_nat i.1) ++ le_bytes 4 (len i.2.2) ++
  drop i.1 i.2.1 ++ i.2.2.

Definition items_bytes (items : list item) : bytes := concat (map item_bytes items).

(** Each shared prefix really is a prefix of the key before. *)
Fixpoint linked (prev : bytes) (items : list item) : Prop :=
  match items with
  | [] => True
  | (shared, (k, v)) :: items =>
      (shared <= length prev)%nat /\ (shared <= length k)%nat /\ take shared prev = take shared k /\
      linked k items
  end.

Fixpoint last_key (prev : bytes) (items : list item) : bytes :=
  match items with
  | [] => prev
  | (_, (k, _)) :: items => last_key k items
  end.

(** A restart point: the entries before it and those from it on, the first of
    which, if any, stores its whole key. *)
Definition restart_at (items : list item) (off : Z) : Prop :=
  exists before after, items = before ++ after /\ off = len (items_bytes before) /\
    match after with [] => before = [] | (shared, _) :: _ => shared = O end.

Record block_layout (es : list entry) (items : list item) (offsets : list Z) : Prop := {
  bl_entries : map snd items = es;
  bl_linked : linked [] items;
  bl_head : exists rest, offsets = 0 :: rest;
  bl_sorted : StronglySorted Z.lt offsets;
  bl_restarts : Forall (restart_at items) offsets;
  bl_small : len (items_bytes items) <= kUint32Max;
  bl_count : len offsets <= kUint32Max;
  bl_keys : Forall (fun e : entry => len e.1 <= kUint32Max) es;
}.

Definition layout_bytes (items : list item) (offsets : list Z) : bytes :=
  items_bytes items ++ concat (map (le_bytes 4) offsets) ++ le_bytes 4 (len offsets).

(** What a finished block holding [es] looks like. *)
Definition block_of (es : list entry) (block : bytes) : Prop :=
  exists items offsets, block_layout es items offsets /\ block = layout_bytes items offsets.

(** ** Common prefixes *)

Lemma commonPrefix_spec a : forall b,
  (commonPrefix a b <= length a)%nat /\ (commonPrefix a b <= length b)%nat /\
  take (commonPrefix a b) a = take (commonPrefix a b) b.
Proof.
  induction a as [|x a IH]; intros [|y b]; simpl; try (split_and!; (done || lia)).
  case_bool_decide as E; simpl; [|split_and!; (done || lia)].
  destruct (IH b) as (? & ? & H). subst y. split_and!; [lia..|by rewrite H].
Qed.

(** ** Items *)

Lemma items_bytes_app a b : items_bytes (a ++ b) = items_bytes a ++ items_bytes b.
Proof. unfold items_bytes. by rewrite map_app, concat_app. Qed.

Lemma items_bytes_cons i b : items_bytes (i :: b) = item_bytes i ++ items_bytes b.
Proof. done. Qed.

Lemma len_item_bytes sh k v :
  (sh <= length k)%nat -> len (item_bytes (sh, (k, v))) = 12 + (len k - Z.of_nat sh) + len v.
Proof. intros H. unfold item_bytes. simpl fst; simpl snd. len_norm. unfold len at 2. unfold len; lia. Qed.

Lemma linked_app prev a b :
  linked prev (a ++ b) <-> linked prev a /\ linked (last_key prev a) b.
Proof.
  revert prev. induction a as [|[sh [k v]] a IH]; intros prev; simpl; [tauto|].
  rewrite IH. naive_solver.
Qed.

Lemma last_key_snoc prev a sh k v : last_key prev (a ++ [(sh, (k, v))]) = k.
Proof. revert prev. induction a as [|[? []] a IH]; intros; simpl; auto. Qed.

Lemma restart_at_app items more off i :
  restart_at items off -> (items = [] -> i.1 = O) -> restart_at (items ++ i :: more) off.
Proof.
  intros (b & a & -> & -> & Ha) Hi. exists b, (a ++ i :: more). split_and!.
  - by rewrite <- app_assoc.
  - done.
  - destruct a as [|[s e] a]; simpl in *; [|done]. subst b. destruct i. by apply Hi.
Qed.

Lemma restart_at_bound items off : restart_at items off -> 0 <= off <= len (items_bytes items).
Proof. intros (b & a & -> & -> & _). rewrite items_bytes_app. llia. Qed.

(** ** The builder maintains the layout *)

Record bb_inv (b : BlockBuilder) (es : list entry) (items : list item) : Prop := {
  bbi_layout : block_layout es items (restarts_ b);
  bbi_buffer : buffer_ b = items_bytes items;
  bbi_last : last_key_ b = last_key [] items;
  bbi_count : entry_count_ b = len es;
  bbi_open : finished_ b = false;
  bbi_interval : 0 < restart_interval b;
  bbi_since : 0 <= entries_since_restart_ b <= restart_interval b;
  bbi_fresh : es = [] -> entries_since_restart_ b = 0;
  bbi_restarts : len (restarts_ b) <= 1 + len es;
  bbi_below : es <> [] -> Forall (fun off => off < len (items_bytes items)) (restarts_ b);
}.

Lemma bb_inv_new interval b : newBlockBuilder interval = Some b -> bb_inv b [] [].
Proof.
  unfold newBlockBuilder, assert_that. destruct (Z.ltb_spec 0 interval); [|done]. intros; simplify_eq/=.
  repeat split; simpl; try done; eauto; try lia.
  - repeat constructor.
  - constructor; [|constructor]. by exists [], [].
Qed.

Lemma bb_inv_reset b es items : bb_inv b es items -> bb_inv (bb_reset b) [] [].
Proof.
  intros H. apply (bb_inv_new (restart_interval b)). unfold newBlockBuilder, assert_that.
  pose proof (bbi_interval _ _ _ H). by destruct (Z.ltb_spec 0 (restart_interval b)); [|lia].
Qed.

(** The bytes an entry adds. *)
Definition entry_room (k v : bytes) : Z := 12 + len k + len v.

Lemma StronglySorted_snoc {A} (R : A -> A -> Prop) l x :
  StronglySorted R l -> Forall (fun y => R y x) l -> StronglySorted R (l ++ [x]).
Proof.
  induction 1 as [|y l Hs IH Hy]; simpl; intros Hf; [repeat constructor|].
  apply Forall_cons_iff in Hf as [Hyx Hf]. constructor; [by apply IH|].
  apply Forall_app. split; [done|]. by constructor.
Qed.

Lemma bb_add_item b es items k v sh :
  bb_inv b es items -> len (items_bytes items) + entry_room k v <= kUint32Max ->
  (sh = O \/ sh = commonPrefix (last_key_ b) k) ->
  linked [] (items ++ [(sh, (k, v))]) /\ map snd (items ++ [(sh, (k, v))]) = es ++ [(k, v)] /\
  len (items_bytes (items ++ [(sh, (k, v))])) <= kUint32Max /\ (sh <= length k)%nat.
Proof.
  intros H Hroom Hsh. destruct (commonPrefix_spec (last_key_ b) k) as (H1 & H2 & H3).
  assert (sh <= length k)%nat as Hk by (destruct Hsh; lia). split_and!.
  - apply linked_app. split; [apply (bbi_layout _ _ _ H)|]. rewrite <- (bbi_last _ _ _ H). simpl.
    destruct Hsh as [->| ->]; split_and!; (done || lia).
  - rewrite map_app, (bl_entries _ _ _ (bbi_layout _ _ _ H)). done.
  - rewrite items_bytes_app, items_bytes_cons. pose proof (len_item_bytes sh k v Hk).
    unfold entry_room in Hroom. change (items_bytes []) with (@nil byte). llia.
  - done.
Qed.

Lemma item_buffer buf sh k v :
  (sh <= length k)%nat -> len k <= kUint32Max -> len v <= kUint32Max ->
  (((putFixed32 (putFixed32 (putFixed32 buf (wrap32 (Z.of_nat sh)))
      (wrap32 (len k - Z.of_nat sh))) (wrap32 (len v))) ++ drop sh k) ++ v) =
  buf ++ item_bytes (sh, (k, v)).
Proof.
  intros Hsh Hk Hv. pose proof (len_nonneg k). pose proof (len_nonneg v). unfold len in Hk, Hv, H, H0.
  rewrite !wrap32_small by (unfold len; lia).
  rewrite !putFixed32_le_bytes. unfold item_bytes. simpl fst; simpl snd.
  by rewrite <- !app_assoc.
Qed.

Lemma items_bytes_min prev items : linked prev items -> 12 * len items <= len (items_bytes items).
Proof.
  revert prev. induction items as [|[sh [k v]] items IH]; intros prev; [done|].
  intros (_ & Hk & _ & Hl). apply IH in Hl. rewrite items_bytes_cons. len_norm.
  rewrite len_item_bytes by done. pose proof (len_nonneg v). unfold len in *. lia.
Qed.

(** Appending an item, with or without a restart point in front of it. *)
Lemma layout_snoc es items offsets sh k v offsets' :
  block_layout es items offsets ->
  linked [] (items ++ [(sh, (k, v))]) ->
  len (items_bytes (items ++ [(sh, (k, v))])) <= kUint32Max ->
  len offsets <= 1 + len items -> len k <= kUint32Max ->
  (items = [] -> sh = O) ->
  (offsets' = offsets \/
   offsets' = offsets ++ [len (items_bytes items)] /\ sh = O /\
   Forall (fun off => off < len (items_bytes items)) offsets) ->
  block_layout (es ++ [(k, v)]) (items ++ [(sh, (k, v))]) offsets'.
Proof.
  intros [Hes Hlink [r Hhead] Hsort Hrest Hsmall Hcount Hkeys] Hl Hs Hc Hkl Hsh Hoff.
  pose proof (items_bytes_min _ _ Hl) as Hmin. len_norm. unfold kUint32Max in *.
  assert (Forall (restart_at (items ++ [(sh, (k, v))])) offsets) as Hr.
  { eapply Forall_impl; [|exact Hrest]. simpl. intros off Ho. by apply restart_at_app. }
  assert (Forall (fun e : entry => len e.1 <= 4294967295) (es ++ [(k, v)])) as Hks.
  { apply Forall_app. split; [done|]. by constructor. }
  destruct Hoff as [->|(-> & -> & Hlt)]; split; try done; rewrite ?map_app, ?Hes; eauto;
    unfold kUint32Max; try llia.
  - subst offsets. by exists (r ++ [len (items_bytes items)]).
  - by apply StronglySorted_snoc.
  - apply Forall_app. split; [done|]. constructor; [|constructor]. by exists items, [(O, (k, v))].
Qed.

Lemma bb_add_inv b es items k v :
  bb_inv b es items -> len (items_bytes items) + entry_room k v <= kUint32Max ->
  exists b' sh, bb_add b k v = Some b' /\ bb_inv b' (es ++ [(k, v)]) (items ++ [(sh, (k, v))]) /\
    (sh <= length k)%nat.
Proof.
  intros H Hroom. pose proof (len_nonneg (items_bytes items)). pose proof (len_nonneg k).
  pose proof (len_nonneg v). unfold entry_room in Hroom.
  pose proof (bl_entries _ _ _ (bbi_layout _ _ _ H)) as Hes.
  assert (len es = len items) as Hlen by (rewrite <- Hes; unfold len; by rewrite length_map).
  assert (items = [] <-> es = []) as Hnil by (rewrite <- !len_zero; lia).
  unfold bb_add, assert_that. rewrite (bbi_open _ _ _ H). simpl.
  destruct (Z.leb_spec (len k) kUint32Max); [simpl|lia].
  destruct (Z.leb_spec (len v) kUint32Max); [simpl|lia].
  pose proof (bbi_since _ _ _ H). pose proof (bbi_interval _ _ _ H). pose proof (bbi_restarts _ _ _ H).
  set (restart := entries_since_restart_ b =? restart_interval b).
  set (sh := if restart then O else commonPrefix (last_key_ b) k).
  assert (sh = O \/ sh = commonPrefix (last_key_ b) k) as Hsh by (unfold sh; destruct restart; auto).
  destruct (bb_add_item b es items k v sh H Hroom Hsh) as (Hl & Hm & Hs & Hk).
  set (offsets' := if restart then restarts_ b ++ [len (items_bytes items)] else restarts_ b).
  assert (block_layout (es ++ [(k, v)]) (items ++ [(sh, (k, v))]) offsets') as HL.
  { apply layout_snoc with (restarts_ b); auto using bbi_layout; [lia| |].
    - intros ->. unfold sh. destruct restart; [done|]. by rewrite (bbi_last _ _ _ H).
    - unfold offsets', sh. destruct restart eqn:E; [right|by left]. split_and!; [done..|].
      apply (bbi_below _ _ _ H). intros ->. unfold restart in E.
      pose proof (bbi_fresh _ _ _ H eq_refl). lia. }
  exists (mkBlockBuilder (restart_interval b) (buffer_ b ++ item_bytes (sh, (k, v))) offsets' k
    ((if restart then 0 else entries_since_restart_ b) + 1) (entry_count_ b + 1) false), sh.
  split_and!; [| |done].
  - rewrite <- item_buffer by done. unfold sh, offsets'.
    destruct restart; simpl; rewrite (bbi_buffer _ _ _ H) in *; [|done].
    destruct (Z.leb_spec (len (items_bytes items)) kUint32Max); [simpl|lia].
    by rewrite (wrap32_small (len (items_bytes items))) by lia.
  - pose proof (bbi_count _ _ _ H).
    assert (len (items_bytes items) < len (items_bytes (items ++ [(sh, (k, v))]))) as Hgrow.
    { rewrite items_bytes_app, len_app, items_bytes_cons, len_app, len_item_bytes by done.
      unfold len in *. lia. }
    split; simpl; try done.
    + by rewrite items_bytes_app, (bbi_buffer _ _ _ H), items_bytes_cons; unfold items_bytes; rewrite app_nil_r.
    + by rewrite last_key_snoc.
    + llia.
    + destruct restart eqn:E; unfold restart in E; lia.
    + intros E. by apply app_nil in E as [_ ?].
    + unfold offsets'. destruct restart; llia.
    + intros _. assert (Forall (fun off => off < len (items_bytes (items ++ [(sh, (k, v))]))) (restarts_ b)) as Hf.
      { eapply Forall_impl; [|exact (bl_restarts _ _ _ (bbi_layout _ _ _ H))].
        simpl. intros off Ho%restart_at_bound. lia. }
      unfold offsets'. destruct restart; [|done]. apply Forall_app. split; [done|]. by constructor.
Qed.

(** A finished block has the layout of the entries added. *)
Lemma bb_finish_block b es items :
  bb_inv b es items ->
  exists b', bb_finish b = Some (b', layout_bytes items (restarts_ b)) /\
    bb_reset b' = bb_reset b.
Proof.
  intros H. unfold bb_finish, assert_that. rewrite (bbi_open _ _ _ H). simpl.
  pose proof (bl_count _ _ _ (bbi_layout _ _ _ H)) as Hc.
  destruct (Z.leb_spec (len (restarts_ b)) kUint32Max); [simpl|lia].
  assert (forall offsets buf, foldl putFixed32 buf offsets = buf ++ concat (map (le_bytes 4) offsets)) as Hf.
  { induction offsets as [|o offsets IH]; intros buf; simpl; [by rewrite app_nil_r|].
    by rewrite IH, putFixed32_le_bytes, <- app_assoc. }
  rewrite Hf, putFixed32_le_bytes, (bbi_buffer _ _ _ H), <- app_assoc.
  rewrite wrap32_small by (split; [apply len_nonneg|done]). eexists. split; [done|]. done.
Qed.

(** Adding a list of entries to a builder. *)
Definition bb_add_all (es : list entry) (b : BlockBuilder) : option BlockBuilder :=
  foldl (fun ob (e : entry) => b ← ob; bb_add b e.1 e.2) (Some b) es.

Definition entries_room (es : list entry) : Z := foldr (fun (e : entry) n => entry_room e.1 e.2 + n) 0 es.

#[global] Arguments entries_room : simpl never.

Lemma entries_room_nonneg es : 0 <= entries_room es.
Proof. induction es as [|[k v] es IH]; [done|]. unfold entries_room. cbn [foldr]. unfold entries_room, entry_room in *. llia. Qed.

Lemma bb_add_all_inv es : forall b es0 items,
  bb_inv b es0 items -> len (items_bytes items) + entries_room es <= kUint32Max ->
  exists b' items', bb_add_all es b = Some b' /\ bb_inv b' (es0 ++ es) items'.
Proof.
  induction es as [|[k v] es IH]; intros b es0 items H Hroom.
  { exists b, items. by rewrite app_nil_r. }
  pose proof (entries_room_nonneg es).
  change (entries_room ((k, v) :: es)) with (entry_room k v + entries_room es) in Hroom.
  destruct (bb_add_inv b es0 items k v H) as (b' & sh & Hadd & Hinv & Hsh); [lia|].
  unfold bb_add_all. cbn [foldl mbind option_bind fst snd]. rewrite Hadd.
  destruct (IH b' _ _ Hinv) as (b'' & items'' & Hb'' & Hi).
  - rewrite items_bytes_app, len_app, items_bytes_cons, len_app, len_item_bytes by done.
    change (items_bytes []) with (@nil byte). unfold entry_room in Hroom. len_norm. unfold len in *. lia.
  - rewrite <- app_assoc in Hi. eauto.
Qed.
