(* ===== verification/BlockIterator.v ===== *)
(** Reading a prefix-compressed block (src/table/block_iterator.cc).  Every
    load from the block is bounds-checked by the model, so that a defined
    result is also a proof that the code reads only inside the block. *)
From S2P Require Import Prelude Status Coding InternalKey Mvcc BlockBuilder.

(** ** Memory *)

(** [decodeFixed32(block.data() + offset)]: four bytes inside the block. *)
Definition load32 (block : bytes) (offset : Z) : option Z :=
  if (0 <=? offset) && (offset + 4 <=? len block)
  then Some (decodeFixed32 (drop (Z.to_nat offset) block)) else None.

(** A [Slice] of the block: where it starts in the block, and its bytes. *)
Record View := mkView { v_start : Z; v_bytes : bytes }.

Definition v_size (s : View) : Z := len (v_bytes s).
Definition v_load32 (s : View) (offset : Z) : option Z := load32 (v_bytes s) offset.

(** [substr] throws beyond the end; [remove_prefix] must stay inside. *)
Definition v_substr (s : View) (pos n : Z) : option View :=
  _ ← assert_that ((0 <=? pos) && (pos <=? v_size s) && (0 <=? n));
  Some (mkView (v_start s + pos) (substr (v_bytes s) pos n)).

Definition v_remove_prefix (s : View) (n : Z) : option View :=
  _ ← assert_that ((0 <=? n) && (n <=? v_size s));
  Some (mkView (v_start s + n) (remove_prefix n (v_bytes s))).

(** ** src/table/block_iterator.h, src/table/block_iterator.cc *)

Definition kEntryHeaderSize : Z := 3 * kFixed32Size.

Record BlockIterator := mkBlockIterator {
  block_ : bytes;
  restart_offset_ : Z;
  restart_count_ : Z;
  next_offset_ : Z;
  key_ : bytes;
  value_ : bytes;
  valid_ : bool;
  status_ : Status;
}.

Definition invalidate (it : BlockIterator) : BlockIterator :=
  mkBlockIterator (block_ it) (restart_offset_ it) (restart_count_ it) (next_offset_ it)
    [] [] false (status_ it).

Definition fail_with (message : string) (it : BlockIterator) : BlockIterator :=
  mkBlockIterator (block_ it) (restart_offset_ it) (restart_count_ it) (next_offset_ it)
    [] [] false (corruption message).

Definition restartOffset (it : BlockIterator) (index : Z) : option Z :=
  _ ← assert_that (index <? restart_count_ it);
  load32 (block_ it) (restart_offset_ it + index * kFixed32Size).

(** The constructor. *)
Definition newBlockIterator (block : bytes) : option BlockIterator :=
  let it := mkBlockIterator block 0 0 0 [] [] false success in
  if len block <? kFixed32Size
  then Some (fail_with "block is shorter than restart count" it)
  else
    restart_count ← load32 block (len block - kFixed32Size);
    let it := mkBlockIterator block 0 restart_count 0 [] [] false success in
    if restart_count =? 0 then Some (fail_with "block has no restart points" it)
    else
      let available_offsets := (len block - kFixed32Size) / kFixed32Size in
      if available_offsets <? restart_count
      then Some (fail_with "restart array extends outside block" it)
      else
        let restart_bytes := restart_count * kFixed32Size in
        let it := mkBlockIterator block (len block - kFixed32Size - restart_bytes)
                    restart_count 0 [] [] false success in
        first ← restartOffset it 0;
        if negb (first =? 0) then Some (fail_with "first restart point is not zero" it)
        else Some it.

(** [decodeEntry]: the returned flag is the method's result. *)
Definition decodeEntry (it : BlockIterator) (offset : Z) : option (BlockIterator * bool) :=
  if restart_offset_ it <=? offset
  then Some (fail_with "entry offset is outside block" it, false)
  else
    input ← v_substr (mkView 0 (block_ it)) offset (restart_offset_ it - offset);
    if v_size input <? kEntryHeaderSize
    then Some (fail_with "truncated block entry" it, false)
    else
      shared ← v_load32 input 0;
      unshared ← v_load32 input kFixed32Size;
      value_size ← v_load32 input (2 * kFixed32Size);
      input ← v_remove_prefix input kEntryHeaderSize;
      if (len (key_ it) <? shared) || (v_size input <? unshared)
      then Some (fail_with "invalid key lengths in block entry" it, false)
      else
        suffix ← v_substr input 0 unshared;
        let decoded_key := substr (key_ it) 0 shared ++ v_bytes suffix in
        input ← v_remove_prefix input unshared;
        if v_size input <? value_size
        then Some (fail_with "truncated block value" it, false)
        else
          match parseInternalKey decoded_key with
          | None => Some (fail_with "invalid internal key in block" it, false)
          | Some _ =>
              value ← v_substr input 0 value_size;
              input ← v_remove_prefix input value_size;
              Some (mkBlockIterator (block_ it) (restart_offset_ it) (restart_count_ it)
                      (v_start input) decoded_key (v_bytes value) true (status_ it), true)
          end.

(** [readRestartKey]: [None] as the key is the method returning false. *)
Definition readRestartKey (it : BlockIterator) (index : Z) :
    option (BlockIterator * option bytes) :=
  offset ← restartOffset it index;
  if restart_offset_ it <=? offset
  then Some (fail_with "restart point is outside entry data" it, None)
  else
    input ← v_substr (mkView 0 (block_ it)) offset (restart_offset_ it - offset);
    if v_size input <? kEntryHeaderSize
    then Some (fail_with "invalid restart entry" it, None)
    else
      shared ← v_load32 input 0;
      unshared ← v_load32 input kFixed32Size;
      value_size ← v_load32 input (2 * kFixed32Size);
      input ← v_remove_prefix input kEntryHeaderSize;
      if negb (shared =? 0) || (v_size input <? unshared)
      then Some (fail_with "invalid restart entry" it, None)
      else
        key ← v_substr input 0 unshared;
        input ← v_remove_prefix input unshared;
        if v_size input <? value_size
        then Some (fail_with "truncated restart entry" it, None)
        else
          match parseInternalKey (v_bytes key) with
          | None => Some (fail_with "invalid internal key in block" it, None)
          | Some _ => Some (it, Some (v_bytes key))
          end.

Definition seekToRestartPoint (it : BlockIterator) (index : Z) : option (BlockIterator * bool) :=
  let it := mkBlockIterator (block_ it) (restart_offset_ it) (restart_count_ it)
              (next_offset_ it) [] (value_ it) (valid_ it) (status_ it) in
  offset ← restartOffset it index;
  decodeEntry it offset.

Definition bi_seekToFirst (it : BlockIterator) : option BlockIterator :=
  if negb (ok (status_ it)) then Some it
  else
    let it := invalidate it in
    if restart_offset_ it =? 0 then Some it
    else '(it, _) ← decodeEntry it 0; Some it.

Definition bi_next (it : BlockIterator) : option BlockIterator :=
  _ ← assert_that (valid_ it);
  if next_offset_ it =? restart_offset_ it then Some (invalidate it)
  else '(it, _) ← decodeEntry it (next_offset_ it); Some it.

Definition bi_key (it : BlockIterator) : option bytes :=
  _ ← assert_that (valid_ it); Some (key_ it).
Definition bi_value (it : BlockIterator) : option bytes :=
  _ ← assert_that (valid_ it); Some (value_ it).

(** The binary search over restart points; [None] in place of the index is the
    early [return] after a failed [readRestartKey]. *)
Fixpoint seek_search (fuel : nat) (it : BlockIterator) (target : bytes) (left_ right_ : Z) :
    option (BlockIterator * option Z) :=
  if left_ <? right_ then
    match fuel with
    | O => None
    | S fuel =>
        let middle := left_ + (right_ - left_) / 2 in
        '(it, restart_key) ← readRestartKey it middle;
        match restart_key with
        | None => Some (it, None)
        | Some restart_key =>
            if negb (InternalKeyLess target restart_key)
            then seek_search fuel it target (middle + 1) right_
            else seek_search fuel it target left_ middle
        end
    end
  else Some (it, Some left_).

(** [while (valid_ && less(key_, target)) next();]: every step moves
    [next_offset_] forward, so the block size bounds the iterations. *)
Fixpoint seek_scan (fuel : nat) (it : BlockIterator) (target : bytes) : option BlockIterator :=
  if valid_ it && InternalKeyLess (key_ it) target then
    match fuel with
    | O => None
    | S fuel => it ← bi_next it; seek_scan fuel it target
    end
  else Some it.

Definition bi_seek (it : BlockIterator) (target : bytes) : option BlockIterator :=
  if negb (ok (status_ it)) then Some it
  else
    _ ← parseInternalKey target;
    let it := invalidate it in
    if restart_offset_ it =? 0 then Some it
    else
      '(it, found) ← seek_search (Z.to_nat (restart_count_ it)) it target 0 (restart_count_ it);
      match found with
      | None => Some it
      | Some left_ =>
          let restart_index := if left_ =? 0 then 0 else left_ - 1 in
          '(it, positioned) ← seekToRestartPoint it restart_index;
          if negb positioned then Some it
          else seek_scan (length (block_ it)) it target
      end.

(** ** Bounds *)

Lemma load32_ok block off :
  0 <= off -> off + 4 <= len block ->
  load32 block off = Some (decodeFixed32 (drop (Z.to_nat off) block)).
Proof.
  intros. unfold load32. destruct (Z.leb_spec 0 off); [|lia].
  by destruct (Z.leb_spec (off + 4) (len block)); [|lia].
Qed.

Lemma v_load32_ok s off :
  0 <= off -> off + 4 <= v_size s ->
  v_load32 s off = Some (decodeFixed32 (drop (Z.to_nat off) (v_bytes s))).
Proof. exact (load32_ok (v_bytes s) off). Qed.

Lemma v_substr_ok s pos n :
  0 <= pos <= v_size s -> 0 <= n ->
  v_substr s pos n = Some (mkView (v_start s + pos) (substr (v_bytes s) pos n)).
Proof.
  intros. unfold v_substr, assert_that. destruct (Z.leb_spec 0 pos); [|lia].
  destruct (Z.leb_spec pos (v_size s)); [|lia]. by destruct (Z.leb_spec 0 n); [|lia].
Qed.

Lemma v_remove_prefix_ok s n :
  0 <= n <= v_size s ->
  v_remove_prefix s n = Some (mkView (v_start s + n) (remove_prefix n (v_bytes s))).
Proof.
  intros. unfold v_remove_prefix, assert_that. destruct (Z.leb_spec 0 n); [|lia].
  by destruct (Z.leb_spec n (v_size s)); [|lia].
Qed.

Lemma len_substr s pos n :
  0 <= pos -> 0 <= n -> len (substr s pos n) = Z.min n (Z.max 0 (len s - pos)).
Proof. intros. unfold substr. len_norm. lia. Qed.

Lemma len_remove_prefix s n : 0 <= n -> len (remove_prefix n s) = Z.max 0 (len s - n).
Proof. intros. unfold remove_prefix. len_norm. lia. Qed.

Lemma substr_nested s o n h u v :
  0 <= o -> 0 <= h -> 0 <= u -> 0 <= v -> h + u + v <= n ->
  substr (remove_prefix u (remove_prefix h (substr s o n))) 0 v = substr s (o + h + u) v.
Proof.
  intros. unfold substr, remove_prefix. change (Z.to_nat 0) with O. rewrite drop_0, drop_drop, skipn_firstn_comm.
  rewrite drop_drop, take_take. f_equal; [lia|f_equal; lia].
Qed.

(** Step through the bounds checks: rewrite with the three lemmas above, and
    split on the code's own comparisons. *)
Ltac decode_pose :=
  repeat match goal with
  | |- context [decodeFixed32 ?s] =>
      lazymatch goal with
      | _ : 0 <= decodeFixed32 s <= kUint32Max |- _ => fail
      | _ => pose proof (decodeFixed32_range s)
      end
  end.
Ltac view_norm :=
  unfold v_size, kEntryHeaderSize, kFixed32Size in *; cbn [v_start v_bytes] in *;
  repeat match goal with
  | H : context [len (substr ?s ?p ?n)] |- _ => rewrite (len_substr s p n) in H by lia
  | H : context [len (remove_prefix ?n ?s)] |- _ => rewrite (len_remove_prefix s n) in H by lia
  | |- context [len (substr ?s ?p ?n)] => rewrite (len_substr s p n) by lia
  | |- context [len (remove_prefix ?n ?s)] => rewrite (len_remove_prefix s n) by lia
  end.
Ltac view_step :=
  match goal with
  | |- context [v_substr ?s ?p ?n] => rewrite (v_substr_ok s p n) by (view_norm; lia)
  | |- context [v_remove_prefix ?s ?n] => rewrite (v_remove_prefix_ok s n) by (view_norm; lia)
  | |- context [v_load32 ?s ?o] =>
      rewrite (v_load32_ok s o) by (view_norm; lia)
  | |- context [if (?a <? ?b) || (?c <? ?d) then _ else _] =>
      destruct (Z.ltb_spec a b); [|destruct (Z.ltb_spec c d)]
  | |- context [if negb (?a =? ?b) || (?c <? ?d) then _ else _] =>
      destruct (Z.eqb_spec a b); [destruct (Z.ltb_spec c d)|]
  | |- context [if ?a <? ?b then _ else _] => destruct (Z.ltb_spec a b)
  | |- context [if ?a <=? ?b then _ else _] => destruct (Z.leb_spec a b)
  end; cbn [mbind option_bind orb negb v_bytes v_start]; decode_pose.

(** What the constructor establishes on arbitrary bytes, and every operation
    keeps. *)
Record bi_wf (it : BlockIterator) : Prop := {
  wf_geometry : ok (status_ it) = true ->
    1 <= restart_count_ it /\ 0 <= restart_offset_ it /\
    restart_offset_ it + 4 * restart_count_ it + 4 = len (block_ it);
  wf_next : valid_ it = true ->
    ok (status_ it) = true /\ 0 <= next_offset_ it <= restart_offset_ it;
  wf_key : valid_ it = true -> is_Some (parseInternalKey (key_ it));
  wf_value : valid_ it = true ->
    exists pos, 0 <= pos /\ pos + len (value_ it) <= restart_offset_ it /\
      value_ it = substr (block_ it) pos (len (value_ it));
}.

(** Two states over the same block. *)
Definition same_block (it it' : BlockIterator) : Prop :=
  block_ it' = block_ it /\ restart_offset_ it' = restart_offset_ it /\
  restart_count_ it' = restart_count_ it.

Lemma same_block_refl it : same_block it it.
Proof. done. Qed.
Lemma same_block_trans a b c : same_block a b -> same_block b c -> same_block a c.
Proof. unfold same_block. intros (-> & -> & ->). auto. Qed.
#[local] Hint Resolve same_block_refl : core.

Lemma fail_with_wf msg it : bi_wf (fail_with msg it) /\ same_block it (fail_with msg it).
Proof. done. Qed.

Lemma invalidate_wf it : bi_wf it -> bi_wf (invalidate it) /\ same_block it (invalidate it).
Proof. intros [H _ _ _]. split; [|done]. by split. Qed.

Lemma decodeEntry_safe it offset :
  bi_wf it -> ok (status_ it) = true -> 0 <= offset ->
  exists it' b, decodeEntry it offset = Some (it', b) /\ bi_wf it' /\ same_block it it' /\
    (if b then valid_ it' = true /\ offset + 12 <= next_offset_ it'
     else ok (status_ it') = false /\ valid_ it' = false).
Proof.
  intros Hwf Hok Hoff. destruct (wf_geometry _ Hwf Hok) as (Hc & Hr & Hg).
  unfold decodeEntry.
  repeat (view_step; try (eexists _, _; split; [done|]; by split_and!)).
  destruct (parseInternalKey _) as [p|] eqn:Hp; [|eexists _, _; split; [done|]; by split_and!].
  repeat view_step. eexists _, _. split; [done|]. view_norm.
  repeat split; simpl; try done; rewrite ?Hp; try (by eexists); try lia.
  intros _. match goal with |- context [substr (remove_prefix ?u (remove_prefix ?h (substr ?b ?o ?n))) 0 ?v] =>
    rewrite (substr_nested b o n h u v) by lia; exists (o + h + u) end.
  rewrite len_substr by lia. split_and!; [lia..|]. f_equal; lia.
Qed.

Lemma readRestartKey_safe it index :
  bi_wf it -> ok (status_ it) = true -> 0 <= index < restart_count_ it ->
  exists it' k, readRestartKey it index = Some (it', k) /\ bi_wf it' /\ same_block it it' /\
    (match k with
     | Some k => it' = it /\ is_Some (parseInternalKey k)
     | None => ok (status_ it') = false /\ valid_ it' = false
     end).
Proof.
  intros Hwf Hok Hi. destruct (wf_geometry _ Hwf Hok) as (Hc & Hr & Hg).
  unfold readRestartKey, restartOffset, assert_that. destruct (Z.ltb_spec index (restart_count_ it)); [|lia].
  cbn [mbind option_bind]. unfold kFixed32Size. rewrite load32_ok by lia. cbn [mbind option_bind]. decode_pose.
  repeat (view_step; try (eexists _, _; split; [done|]; by split_and!)).
  destruct (parseInternalKey _) as [p|] eqn:Hp; [|eexists _, _; split; [done|]; by split_and!].
  eexists _, _. split; [done|]. split_and!; try done.
Qed.

Lemma newBlockIterator_safe block : exists it, newBlockIterator block = Some it /\ bi_wf it /\ block_ it = block.
Proof.
  unfold newBlockIterator. unfold kFixed32Size at 1. destruct (Z.ltb_spec (len block) 4).
  { eexists. by split_and!. }
  unfold kFixed32Size. rewrite load32_ok by lia. cbn [mbind option_bind]. decode_pose.
  set (rc := decodeFixed32 _) in *. destruct (Z.eqb_spec rc 0).
  { eexists. by split_and!. }
  destruct (Z.ltb_spec ((len block - 4) / 4) rc).
  { eexists. by split_and!. }
  assert (4 * rc <= len block - 4) as Hrc.
  { pose proof (Z.mul_div_le (len block - 4) 4). lia. }
  unfold restartOffset, assert_that. cbn [restart_count_ restart_offset_ block_].
  destruct (Z.ltb_spec 0 rc); [cbn [mbind option_bind]|lia]. unfold kFixed32Size.
  rewrite load32_ok by lia. cbn [mbind option_bind]. destruct (_ =? 0); simpl.
  - eexists. split_and!; [done| |done]. split; simpl; (lia || done).
  - eexists. by split_and!.
Qed.

Lemma bi_next_safe it :
  bi_wf it -> valid_ it = true ->
  exists it', bi_next it = Some it' /\ bi_wf it' /\ same_block it it' /\
    (valid_ it' = true -> next_offset_ it < next_offset_ it').
Proof.
  intros Hwf Hv. destruct (wf_next _ Hwf Hv) as [Hok Hn]. unfold bi_next, assert_that.
  rewrite Hv. cbn [mbind option_bind]. destruct (Z.eqb_spec (next_offset_ it) (restart_offset_ it)).
  - eexists. split; [done|]. destruct (invalidate_wf it Hwf). by split_and!.
  - destruct (decodeEntry_safe it (next_offset_ it) Hwf Hok) as (it' & b & -> & Hwf' & Hs & Hb); [lia|].
    eexists. split; [done|]. split_and!; try done. destruct b; [intros; lia|destruct Hb; congruence].
Qed.

Lemma bi_seekToFirst_safe it :
  bi_wf it -> exists it', bi_seekToFirst it = Some it' /\ bi_wf it' /\ same_block it it'.
Proof.
  intros Hwf. unfold bi_seekToFirst. destruct (ok (status_ it)) eqn:Hok; simpl; [|by eauto].
  destruct (invalidate_wf it Hwf) as [Hwf' Hs]. destruct (_ =? 0); [by eauto|].
  destruct (decodeEntry_safe (invalidate it) 0 Hwf' Hok) as (it' & b & -> & ? & ? & _); [done|].
  by eauto.
Qed.

Lemma seek_search_safe fuel : forall it target l r,
  bi_wf it -> ok (status_ it) = true -> 0 <= l -> l <= r <= restart_count_ it ->
  (Z.to_nat (r - l) <= fuel)%nat ->
  exists it' res, seek_search fuel it target l r = Some (it', res) /\ bi_wf it' /\ same_block it it' /\
    match res with
    | None => ok (status_ it') = false
    | Some i => it' = it /\ l <= i <= r
    end.
Proof.
  induction fuel as [|fuel IH]; intros it target l r Hwf Hok Hl Hr Hf; cbn [seek_search];
    (destruct (Z.ltb_spec l r); [|eexists _, _; split; [done|]; split_and!; try done; lia]); [lia|].
  pose proof (Z.div_pos (r - l) 2 ltac:(lia) ltac:(lia)).
  assert ((r - l) / 2 < r - l) by (apply Z.div_lt; lia).
  set (mid := l + (r - l) / 2) in *.
  destruct (readRestartKey_safe it mid Hwf Hok) as (it' & k & -> & Hwf' & Hs & Hk); [lia|].
  cbn [mbind option_bind]. destruct k as [k|]; [|eexists _, _; naive_solver].
  destruct Hk as [-> _]. destruct (InternalKeyLess target k); cbn [negb].
  - destruct (IH it target l mid) as (it' & res & ? & ? & ? & Hres); try done; try lia.
    exists it', res. split_and!; try done. destruct res; [|done]. destruct Hres; split; [done|lia].
  - destruct (IH it target (mid + 1) r) as (it' & res & ? & ? & ? & Hres); try done; try lia.
    exists it', res. split_and!; try done. destruct res; [|done]. destruct Hres; split; [done|lia].
Qed.

Lemma seek_scan_safe fuel : forall it target,
  bi_wf it -> (valid_ it = true -> (Z.to_nat (len (block_ it) - next_offset_ it) <= fuel)%nat) ->
  exists it', seek_scan fuel it target = Some it' /\ bi_wf it' /\ same_block it it'.
Proof.
  induction fuel as [|fuel IH]; intros it target Hwf Hf; cbn [seek_scan];
    (destruct (valid_ it) eqn:Hv; cbn [andb]; [|by eauto]);
    (destruct (InternalKeyLess (key_ it) target); [|by eauto]);
    destruct (wf_next _ Hwf Hv) as [Hok Hn]; destruct (wf_geometry _ Hwf Hok) as (? & ? & ?).
  { specialize (Hf eq_refl). lia. }
  destruct (bi_next_safe it Hwf Hv) as (it' & -> & Hwf' & Hs & Hp). cbn [mbind option_bind].
  destruct Hs as (Hb & Hro & Hrc). destruct (IH it' target Hwf') as (it'' & ? & ? & Hs').
  - intros Hv'. specialize (Hp Hv'). specialize (Hf eq_refl). rewrite Hb. lia.
  - exists it''. split_and!; try done. by apply same_block_trans with it'.
Qed.

(** ** Corrupt input is harmless *)

Lemma bi_seek_safe it target :
  bi_wf it -> is_Some (parseInternalKey target) ->
  exists it', bi_seek it target = Some it' /\ bi_wf it' /\ same_block it it'.
Proof.
  intros Hwf [p Hp]. unfold bi_seek. destruct (ok (status_ it)) eqn:Hok; cbn [negb]; [|by eauto].
  rewrite Hp. cbn [mbind option_bind]. destruct (invalidate_wf it Hwf) as [Hwf' Hs].
  destruct (wf_geometry _ Hwf Hok) as (Hc & Hr & Hg). cbn [restart_offset_ invalidate].
  destruct (_ =? 0); [by eauto|].
  destruct (seek_search_safe (Z.to_nat (restart_count_ it)) (invalidate it) target 0 (restart_count_ it))
    as (it1 & res & Hss & Hwf1 & Hs1 & Hres); try done; [simpl; lia..|].
  cbn [restart_count_ invalidate] in *. rewrite Hss. cbn [mbind option_bind].
  destruct res as [i|]; [|eauto using same_block_trans]. destruct Hres as [-> Hi].
  unfold seekToRestartPoint, restartOffset, assert_that. cbn [restart_count_ restart_offset_ block_ invalidate].
  set (idx := if i =? 0 then 0 else i - 1).
  assert (0 <= idx < restart_count_ it) as Hidx by (unfold idx; destruct (Z.eqb_spec i 0); lia).
  destruct (Z.ltb_spec idx (restart_count_ it)); [cbn [mbind option_bind]|lia].
  unfold kFixed32Size. rewrite load32_ok by lia. cbn [mbind option_bind]. decode_pose.
  match goal with |- context [decodeEntry ?i ?o] =>
    destruct (decodeEntry_safe i o) as (it2 & b & -> & Hwf2 & Hs2 & Hb); [by split|done|lia|] end.
  cbn [mbind option_bind]. destruct b; cbn [negb]; [|eauto using same_block_trans].
  destruct (seek_scan_safe (length (block_ it2)) it2 target Hwf2) as (it3 & ? & ? & ?).
  - intros Hv. destruct (wf_next _ Hwf2 Hv) as [_ Hn]. unfold len. lia.
  - exists it3. split_and!; try done. by apply same_block_trans with it2.
Qed.

(** A client's calls, within the preconditions the code asserts. *)
Inductive bi_call :=
  | CallSeekToFirst
  | CallSeek (target : bytes)
  | CallNext.

Definition bi_do (it : BlockIterator) (c : bi_call) : option BlockIterator :=
  match c with
  | CallSeekToFirst => bi_seekToFirst it
  | CallSeek target =>
      match parseInternalKey target with Some _ => bi_seek it target | None => Some it end
  | CallNext => if valid_ it then bi_next it else Some it
  end.

Lemma bi_do_safe it c :
  bi_wf it -> exists it', bi_do it c = Some it' /\ bi_wf it' /\ same_block it it'.
Proof.
  intros Hwf. destruct c as [|target|]; simpl.
  - by apply bi_seekToFirst_safe.
  - destruct (parseInternalKey target) as [p|] eqn:E; [|by eauto]. apply bi_seek_safe; [done|by eexists].
  - destruct (valid_ it) eqn:Hv; [|by eauto].
    destruct (bi_next_safe it Hwf Hv) as (it' & ? & ? & ? & _). eauto.
Qed.

Lemma bi_calls_safe calls : forall it,
  bi_wf it -> exists it', foldl (fun o c => it ← o; bi_do it c) (Some it) calls = Some it' /\
    bi_wf it' /\ same_block it it'.
Proof.
  induction calls as [|c calls IH]; intros it Hwf; [by eauto|].
  destruct (bi_do_safe it c Hwf) as (it1 & H1 & Hwf1 & Hs1).
  cbn [foldl mbind option_bind]. rewrite H1.
  destruct (IH it1 Hwf1) as (it2 & ? & ? & ?). eauto using same_block_trans.
Qed.


(** ** Reading a block the builder produced *)

Lemma decode_le4 v s : 0 <= v <= kUint32Max -> decodeFixed32 (le_bytes 4 v ++ s) = v.
Proof. intros H. rewrite decodeFixed32_app by apply len_le_bytes. by apply le_value_le_bytes4. Qed.

(** The three length fields of an entry and what follows them. *)
Lemma header_fields a b c s :
  0 <= a <= kUint32Max -> 0 <= b <= kUint32Max -> 0 <= c <= kUint32Max ->
  let input := le_bytes 4 a ++ le_bytes 4 b ++ le_bytes 4 c ++ s in
  decodeFixed32 (drop (Z.to_nat 0) input) = a /\ decodeFixed32 (drop (Z.to_nat 4) input) = b /\
  decodeFixed32 (drop (Z.to_nat (2 * 4)) input) = c /\ remove_prefix (3 * 4) input = s.
Proof.
  intros Ha Hb Hc input. unfold input, remove_prefix. split_and!.
  - change (Z.to_nat 0) with O. by rewrite drop_0, decode_le4.
  - change (Z.to_nat 4) with 4%nat. rewrite drop_app_length' by (by rewrite length_le_bytes). by apply decode_le4.
  - change (Z.to_nat (2 * 4)) with (4 + 4)%nat. rewrite <- drop_drop, !drop_app_length' by (by rewrite length_le_bytes).
    by apply decode_le4.
  - change (Z.to_nat (3 * 4)) with (4 + (4 + 4))%nat. rewrite <- !drop_drop. by rewrite !drop_app_length' by (by rewrite length_le_bytes).
Qed.

Lemma substr_app_prefix a b n : len a = n -> substr (a ++ b) 0 n = a.
Proof. intros <-. unfold substr. change (Z.to_nat 0) with O. rewrite drop_0. apply take_app_length'. unfold len; lia. Qed.

Lemma remove_prefix_app a b n : len a = n -> remove_prefix n (a ++ b) = b.
Proof. intros <-. unfold remove_prefix. apply drop_app_length'. unfold len; lia. Qed.

Lemma restart_array_load offsets : forall i off s,
  offsets !! i = Some off -> Forall (fun o => 0 <= o <= kUint32Max) offsets ->
  decodeFixed32 (drop (4 * i) (concat (map (le_bytes 4) offsets) ++ s)) = off.
Proof.
  induction offsets as [|o offsets IH]; intros i off s Hi Hf; [by rewrite lookup_nil in Hi|].
  apply Forall_cons_iff in Hf as [Ho Hf]. destruct i as [|i]; simpl in Hi.
  - simplify_eq. rewrite Nat.mul_0_r, drop_0. simpl. rewrite <- app_assoc. by apply decode_le4.
  - replace (4 * S i)%nat with (4 + 4 * i)%nat by lia. simpl concat. rewrite <- app_assoc, <- drop_drop.
    rewrite drop_app_length' by (by rewrite length_le_bytes). by apply IH.
Qed.

Lemma len_restart_array offsets : len (concat (map (le_bytes 4) offsets)) = 4 * len offsets.
Proof. induction offsets as [|o offsets IH]; [done|]. simpl. len_norm. lia. Qed.

(** With an empty previous key, reading a restart key and decoding its entry
    accept the same entries. *)
Lemma readRestartKey_decodeEntry it index offset it' :
  key_ it = [] -> restartOffset it index = Some offset -> decodeEntry it offset = Some (it', true) ->
  readRestartKey it index = Some (it, Some (key_ it')).
Proof.
  intros Hk Hr. unfold readRestartKey, decodeEntry. rewrite Hr, Hk. cbn [mbind option_bind].
  destruct (_ <=? offset); [done|]. destruct (v_substr _ _ _) as [input|]; cbn [mbind option_bind]; [|done].
  destruct (_ <? kEntryHeaderSize); [done|].
  destruct (v_load32 input 0) as [shared|] eqn:Hsh; cbn [mbind option_bind]; [|done].
  assert (0 <= shared).
  { unfold v_load32, load32 in Hsh. case_match; simplify_eq. apply decodeFixed32_range. }
  clear Hsh.
  destruct (v_load32 input kFixed32Size) as [unshared|]; cbn [mbind option_bind]; [|done].
  destruct (v_load32 input (2 * kFixed32Size)) as [value_size|]; cbn [mbind option_bind]; [|done].
  destruct (v_remove_prefix _ _) as [input'|]; cbn [mbind option_bind]; [|done].
  rewrite len_nil. destruct (Z.ltb_spec 0 shared); cbn [orb]; [done|].
  assert (shared = 0) as -> by lia. cbn [negb Z.eqb orb].
  destruct (_ <? _); [done|]. destruct (v_substr _ _ _) as [suffix|]; cbn [mbind option_bind]; [|done].
  destruct (v_remove_prefix _ _) as [rest|]; cbn [mbind option_bind]; [|done]. destruct (_ <? _); [done|].
  change (substr [] 0 0 ++ v_bytes suffix) with (v_bytes suffix).
  destruct (parseInternalKey (v_bytes suffix)) eqn:Hp; [|done].
  destruct (v_substr rest _ _); cbn [mbind option_bind]; [|done].
  destruct (v_remove_prefix rest _); cbn [mbind option_bind]; [|done]. intros; by simplify_eq.
Qed.

Section layout.
Context (es : list entry) (items : list item) (offsets : list Z).
Context (L : block_layout es items offsets) (V : Forall entry_valid es).

Lemma len_layout_bytes : len (layout_bytes items offsets) = len (items_bytes items) + 4 * len offsets + 4.
Proof. unfold layout_bytes. len_norm. rewrite len_restart_array. lia. Qed.

Lemma offsets_range : Forall (fun o => 0 <= o <= kUint32Max) offsets.
Proof.
  eapply Forall_impl; [|exact (bl_restarts _ _ _ L)]. simpl. intros o Ho%restart_at_bound.
  pose proof (bl_small _ _ _ L). lia.
Qed.

(** An iterator over this block, without errors. *)
Record bi_on (it : BlockIterator) : Prop := {
  on_block : block_ it = layout_bytes items offsets;
  on_offset : restart_offset_ it = len (items_bytes items);
  on_count : restart_count_ it = len offsets;
  on_status : status_ it = success;
}.

Lemma restartOffset_layout it (i : nat) off :
  bi_on it -> offsets !! i = Some off -> restartOffset it (Z.of_nat i) = Some off.
Proof.
  intros [Hb Ho Hc _] Hi. unfold restartOffset, assert_that. pose proof (lookup_lt_Some _ _ _ Hi) as Hlt.
  rewrite Hc. destruct (Z.ltb_spec (Z.of_nat i) (len offsets)); [|unfold len in *; lia].
  cbn [mbind option_bind]. unfold kFixed32Size. pose proof (len_nonneg (items_bytes items)).
  rewrite load32_ok; [|lia|rewrite Hb, Ho, len_layout_bytes; unfold len in *; lia].
  f_equal. rewrite Hb, Ho. unfold layout_bytes.
  replace (Z.to_nat (len (items_bytes items) + Z.of_nat i * 4))
    with (length (items_bytes items) + 4 * i)%nat by (unfold len; lia).
  rewrite <- drop_drop, drop_app_length. apply restart_array_load; [done|apply offsets_range].
Qed.

Lemma newBlockIterator_layout :
  exists it, newBlockIterator (layout_bytes items offsets) = Some it /\ bi_on it /\ valid_ it = false.
Proof.
  pose proof len_layout_bytes as Hl. pose proof (len_nonneg (items_bytes items)).
  pose proof (bl_count _ _ _ L). destruct (bl_head _ _ _ L) as [r Hr].
  assert (1 <= len offsets) by (rewrite Hr; llia).
  unfold newBlockIterator. unfold kFixed32Size at 1. destruct (Z.ltb_spec (len (layout_bytes items offsets)) 4); [lia|].
  unfold kFixed32Size. rewrite load32_ok by lia. cbn [mbind option_bind].
  assert (decodeFixed32 (drop (Z.to_nat (len (layout_bytes items offsets) - 4)) (layout_bytes items offsets)) = len offsets) as ->.
  { rewrite Hl. unfold layout_bytes. rewrite app_assoc, drop_app_length'.
    - rewrite <- (app_nil_r (le_bytes 4 _)). apply decode_le4. lia.
    - rewrite length_app, !length_len, len_restart_array. lia. }
  destruct (Z.eqb_spec (len offsets) 0); [lia|].
  destruct (Z.ltb_spec ((len (layout_bytes items offsets) - 4) / 4) (len offsets)) as [Hlt|_].
  { assert (len offsets <= (len (layout_bytes items offsets) - 4) / 4) by (apply Z.div_le_lower_bound; lia). lia. }
  set (it := mkBlockIterator _ _ _ _ _ _ _ _).
  assert (bi_on it) as Hon by (split; simpl; try done; lia).
  pose proof (restartOffset_layout it 0 0 Hon ltac:(by rewrite Hr)) as Hro.
  change (Z.of_nat 0) with 0 in Hro. rewrite Hro. simpl. eauto.
Qed.

(** Facts about one item of the block. *)
Lemma item_facts before sh k v rest :
  items = before ++ (sh, (k, v)) :: rest ->
  (sh <= length k)%nat /\ is_Some (parseInternalKey k) /\ len k <= kUint32Max /\
  len (items_bytes items) =
    len (items_bytes before) + (12 + (len k - Z.of_nat sh) + len v) + len (items_bytes rest) /\
  substr (layout_bytes items offsets) (len (items_bytes before)) (len (items_bytes items) - len (items_bytes before)) =
    item_bytes (sh, (k, v)) ++ items_bytes rest.
Proof.
  intros Hi. pose proof (bl_linked _ _ _ L) as Hl. rewrite Hi in Hl.
  apply linked_app in Hl as [_ (_ & Hk & _ & _)]. split; [done|].
  pose proof (bl_entries _ _ _ L) as He. rewrite Hi, map_app in He. simpl in He.
  split. { rewrite <- He in V. apply Forall_app in V as [_ V']. by apply Forall_cons_iff in V' as [? _]. }
  split. { pose proof (bl_keys _ _ _ L) as K. rewrite <- He in K. apply Forall_app in K as [_ K].
    by apply Forall_cons_iff in K as [? _]. }
  assert (items_bytes items = items_bytes before ++ item_bytes (sh, (k, v)) ++ items_bytes rest) as Hb
    by (rewrite Hi, items_bytes_app; done).
  pose proof (len_item_bytes sh k v Hk). split; [rewrite Hb; llia|].
  unfold layout_bytes. rewrite Hb. unfold substr. rewrite <- !app_assoc.
  rewrite drop_app_length' by (unfold len; lia).
  rewrite (app_assoc (item_bytes _)). rewrite take_app_length'; [done|].
  len_norm. rewrite length_app. unfold len in *. lia.
Qed.

Definition positioned (it : BlockIterator) (before : list item) (sh : nat) (k v : bytes) : BlockIterator :=
  mkBlockIterator (block_ it) (restart_offset_ it) (restart_count_ it)
    (len (items_bytes before) + len (item_bytes (sh, (k, v)))) k v true success.

Lemma decodeEntry_layout it before sh k v rest :
  bi_on it -> items = before ++ (sh, (k, v)) :: rest ->
  (sh <= length (key_ it))%nat -> take sh (key_ it) = take sh k ->
  decodeEntry it (len (items_bytes before)) = Some (positioned it before sh k v, true).
Proof.
  intros [Hb Ho Hc Hs] Hi Hkl Hkt. destruct (item_facts _ _ _ _ _ Hi) as (Hsh & [p Hp] & Hk & Hlen & Hsub).
  pose proof (bl_small _ _ _ L). pose proof (len_nonneg (items_bytes before)). pose proof (len_nonneg v).
  pose proof (len_nonneg (items_bytes rest)). assert (Z.of_nat sh <= len k) by (unfold len; lia).
  unfold decodeEntry. rewrite Ho. destruct (Z.leb_spec (len (items_bytes items)) (len (items_bytes before))); [lia|].
  rewrite v_substr_ok by (unfold v_size; simpl; rewrite ?Hb, ?len_layout_bytes; pose proof (len_nonneg offsets); lia).
  cbn [mbind option_bind v_bytes v_start]. rewrite Hb, Hsub.
  unfold item_bytes at 1 2 3 4 5. cbn [fst snd]. rewrite <- !app_assoc.
  set (input := le_bytes 4 (Z.of_nat sh) ++ _).
  assert (len input = 12 + (len k - Z.of_nat sh) + len v + len (items_bytes rest)) as Hil.
  { unfold input. len_norm. unfold len; lia. }
  destruct (header_fields (Z.of_nat sh) (len k - Z.of_nat sh) (len v) (drop sh k ++ v ++ items_bytes rest))
    as (F1 & F2 & F3 & F4); [lia..|]. fold input in F1, F2, F3, F4.
  destruct (Z.ltb_spec (v_size (mkView (0 + len (items_bytes before)) input)) kEntryHeaderSize);
    [unfold v_size, kEntryHeaderSize, kFixed32Size in *; simpl in *; lia|].
  unfold kEntryHeaderSize, kFixed32Size in *.
  rewrite !v_load32_ok by (unfold v_size; cbn [v_bytes]; lia). cbn [mbind option_bind v_bytes].
  rewrite F1, F2, F3, v_remove_prefix_ok by (unfold v_size; cbn [v_bytes]; lia).
  cbn [mbind option_bind v_bytes v_start]. rewrite F4. unfold v_size. cbn [v_bytes].
  assert (len (drop sh k) = len k - Z.of_nat sh) as Hd by (len_norm; unfold len; lia).
  destruct (Z.ltb_spec (len (key_ it)) (Z.of_nat sh)); [unfold len in *; lia|].
  destruct (Z.ltb_spec (len (drop sh k ++ v ++ items_bytes rest)) (len k - Z.of_nat sh)); [llia|].
  cbn [orb]. rewrite v_substr_ok by (unfold v_size; cbn [v_bytes]; rewrite ?len_app; lia).
  cbn [mbind option_bind v_bytes v_start]. rewrite substr_app_prefix by done.
  rewrite v_remove_prefix_ok by (unfold v_size; cbn [v_bytes]; llia).
  cbn [mbind option_bind v_bytes v_start]. rewrite remove_prefix_app by done.
  destruct (Z.ltb_spec (len (v ++ items_bytes rest)) (len v)); [llia|].
  assert (substr (key_ it) 0 (Z.of_nat sh) ++ drop sh k = k) as ->.
  { unfold substr. rewrite Nat2Z.id. change (Z.to_nat 0) with O. rewrite drop_0, Hkt. apply take_drop. }
  rewrite Hp. rewrite v_substr_ok by (unfold v_size; cbn [v_bytes]; llia).
  cbn [mbind option_bind v_bytes v_start]. rewrite substr_app_prefix by done.
  rewrite v_remove_prefix_ok by (unfold v_size; cbn [v_bytes]; llia).
  cbn [mbind option_bind v_bytes v_start]. unfold positioned. rewrite Hs, Hb, Ho, len_item_bytes by done.
  do 3 f_equal. lia.
Qed.

(** An iterator positioned before [rest], the entries left to read. *)
Definition bi_pos (it : BlockIterator) (rest : list item) : Prop :=
  bi_on it /\ exists before, items = before ++ rest /\
  match rest with
  | [] => valid_ it = false
  | (sh, (k, v)) :: _ =>
      valid_ it = true /\ key_ it = k /\ value_ it = v /\
      next_offset_ it = len (items_bytes before) + len (item_bytes (sh, (k, v)))
  end.

Lemma bi_pos_positioned it before sh k v rest :
  bi_on it -> items = before ++ (sh, (k, v)) :: rest ->
  bi_pos (positioned it before sh k v) ((sh, (k, v)) :: rest).
Proof. intros [] Hi. split; [by split|]. exists before. by split_and!. Qed.

Lemma invalidate_on it : bi_on it -> bi_on (invalidate it).
Proof. intros []. by split. Qed.

Lemma bi_next_layout it i rest :
  bi_pos it (i :: rest) -> exists it', bi_next it = Some it' /\ bi_pos it' rest.
Proof.
  destruct i as [sh [k v]]. intros (Hon & before & Hi & Hv & Hk & Hval & Hn). unfold bi_next, assert_that.
  rewrite Hv. cbn [mbind option_bind]. destruct (item_facts _ _ _ _ _ Hi) as (Hsh & _ & _ & Hlen & _).
  rewrite Hn, (on_offset _ Hon), Hlen, len_item_bytes by done.
  assert (items = (before ++ [(sh, (k, v))]) ++ rest) as Hi' by (by rewrite <- app_assoc).
  destruct rest as [|[sh' [k' v']] rest].
  - unfold items_bytes at 3. simpl. rewrite len_nil. destruct (Z.eqb_spec (len (items_bytes before) + (12 + (len k - Z.of_nat sh) + len v))
      (len (items_bytes before) + (12 + (len k - Z.of_nat sh) + len v) + 0)); [|lia].
    eexists. split; [done|]. split; [by apply invalidate_on|]. eauto.
  - destruct (item_facts _ _ _ _ _ Hi') as (Hsh' & _). pose proof (len_item_bytes sh' k' v' Hsh').
    pose proof (len_nonneg v'). pose proof (len_nonneg (items_bytes rest)). assert (Z.of_nat sh' <= len k') by (unfold len; lia).
    rewrite items_bytes_cons, len_app.
    match goal with |- context [if ?a =? ?b then _ else _] => destruct (Z.eqb_spec a b); [lia|] end.
    pose proof (bl_linked _ _ _ L) as Hl. rewrite Hi' in Hl. apply linked_app in Hl as [_ Hl].
    rewrite last_key_snoc in Hl. destruct Hl as (Hl1 & _ & Hl2 & _).
    pose proof (decodeEntry_layout it (before ++ [(sh, (k, v))]) sh' k' v' rest Hon Hi') as Hd.
    rewrite Hk in Hd. specialize (Hd Hl1 Hl2).
    rewrite items_bytes_app, len_app, items_bytes_cons, len_app, len_item_bytes in Hd by done.
    change (items_bytes []) with (@nil byte) in Hd. rewrite len_nil, Z.add_0_r in Hd. rewrite Hd.
    eexists. split; [done|]. by apply bi_pos_positioned.
Qed.

Lemma first_item sh k v rest : items = (sh, (k, v)) :: rest -> sh = O.
Proof.
  intros Hi. pose proof (bl_linked _ _ _ L) as Hl. rewrite Hi in Hl. destruct Hl as (H & _). simpl in H. lia.
Qed.

Lemma bi_seekToFirst_layout it :
  bi_on it -> exists it', bi_seekToFirst it = Some it' /\ bi_pos it' items.
Proof.
  intros Hon. pose proof (invalidate_on it Hon) as Hon'. unfold bi_seekToFirst.
  rewrite (on_status _ Hon). cbn [negb ok success code_].
  change (restart_offset_ (invalidate it)) with (restart_offset_ it). rewrite (on_offset _ Hon).
  assert (items = [] \/ exists sh k v rest, items = (sh, (k, v)) :: rest) as [Hi|(sh & k & v & rest & Hi)]
    by (destruct items as [|[? [? ?]] ?]; eauto 6).
  - replace (len (items_bytes items)) with 0 by (by rewrite Hi).
    eexists. split; [done|]. rewrite Hi. split; [done|]. by exists [].
  - destruct (item_facts [] _ _ _ _ Hi) as (Hsh & _ & _ & Hlen & _).
    pose proof (first_item _ _ _ _ Hi) as ->.
    change (items_bytes []) with (@nil byte) in Hlen. pose proof (len_nonneg v). pose proof (len_nonneg k).
    pose proof (len_nonneg (items_bytes rest)). rewrite len_nil in Hlen.
    destruct (Z.eqb_spec (len (items_bytes items)) 0); [lia|].
    pose proof (decodeEntry_layout (invalidate it) [] 0 k v rest Hon' Hi) as Hd.
    change (len (items_bytes [])) with 0 in Hd. rewrite Hd by (simpl; (done || lia)).
    eexists. split; [done|]. rewrite Hi. by apply bi_pos_positioned.
Qed.

(** *** Seeking *)

Definition below (target : bytes) (i : item) : bool := InternalKeyLess i.2.1 target.

Lemma seek_scan_layout target fuel : forall it rest,
  bi_pos it rest -> (length rest <= fuel)%nat ->
  exists it', seek_scan fuel it target = Some it' /\ bi_pos it' (dropwhile (below target) rest).
Proof.
  induction fuel as [|fuel IH]; intros it rest Hpos Hf.
  - destruct rest; [|simpl in Hf; lia]. exists it. simpl. pose proof Hpos as (_ & ? & _ & ->). done.
  - destruct rest as [|[sh [k v]] rest].
    { exists it. simpl. pose proof Hpos as (_ & ? & _ & ->). done. }
    pose proof Hpos as (_ & before & _ & Hv & Hk & _). cbn [seek_scan dropwhile below snd fst].
    rewrite Hv, Hk. cbn [andb]. unfold below at 1. cbn [snd fst].
    destruct (InternalKeyLess k target); [|by eauto].
    destruct (bi_next_layout it _ rest Hpos) as (it' & -> & Hpos'). cbn [mbind option_bind].
    apply IH; [done|simpl in Hf; lia].
Qed.

Lemma restart_key it (i : nat) :
  bi_on it -> key_ it = [] -> items <> [] -> (i < length offsets)%nat ->
  exists before k v rest, items = before ++ (O, (k, v)) :: rest /\
    offsets !! i = Some (len (items_bytes before)) /\
    readRestartKey it (Z.of_nat i) = Some (it, Some k).
Proof.
  intros Hon Hk Hne Hi. destruct (lookup_lt_is_Some_2 _ _ Hi) as [off Hoff].
  pose proof (bl_restarts _ _ _ L) as Hr. rewrite Forall_elem in Hr.
  destruct (Hr off) as (before & after & Hit & Ho & Ha); [by apply list_elem_of_lookup; eauto|].
  destruct after as [|[sh [k v]] rest].
  { subst before. rewrite app_nil_r in Hit. done. }
  subst sh off. exists before, k, v, rest. split_and!; [done..|].
  pose proof (decodeEntry_layout it before 0 k v rest Hon Hit) as Hd.
  rewrite Hk in Hd. specialize (Hd ltac:(simpl; lia) eq_refl).
  by rewrite (readRestartKey_decodeEntry it _ _ _ Hk (restartOffset_layout it i _ Hon Hoff) Hd).
Qed.

(** The search ends after a restart point not above the target, or at 0. *)
Definition search_left (target : bytes) (i : Z) : Prop :=
  i = 0 \/ exists before k v rest, items = before ++ (O, (k, v)) :: rest /\
    offsets !! Z.to_nat (i - 1) = Some (len (items_bytes before)) /\
    InternalKeyLess target k = false.

Lemma seek_search_layout target it fuel : forall l r,
  bi_on it -> key_ it = [] -> items <> [] -> 0 <= l <= r -> r <= len offsets ->
  (Z.to_nat (r - l) <= fuel)%nat -> search_left target l ->
  exists i, seek_search fuel it target l r = Some (it, Some i) /\ l <= i <= r /\ search_left target i.
Proof.
  induction fuel as [|fuel IH]; intros l r Hon Hk Hne Hl Hr Hf Hinv; cbn [seek_search];
    (destruct (Z.ltb_spec l r); [|exists l; split_and!; (done || lia)]); [lia|].
  pose proof (Z.div_pos (r - l) 2 ltac:(lia) ltac:(lia)).
  assert ((r - l) / 2 < r - l) by (apply Z.div_lt; lia). set (mid := l + (r - l) / 2) in *.
  destruct (restart_key it (Z.to_nat mid) Hon Hk Hne) as (before & k & v & rest & Hit & Hoff & Hread);
    [unfold len in *; lia|].
  rewrite Z2Nat.id in Hread by lia. rewrite Hread. cbn [mbind option_bind].
  destruct (InternalKeyLess target k) eqn:Hlt; cbn [negb].
  - destruct (IH l mid) as (i & ? & ? & ?); try done; try lia. exists i. split_and!; (done || lia).
  - destruct (IH (mid + 1) r) as (i & ? & ? & ?); try done; try lia.
    + right. exists before, k, v, rest. by replace (mid + 1 - 1) with mid by lia.
    + exists i. split_and!; (done || lia).
Qed.

Lemma search_left_restart target i :
  sorted_run es -> is_Some (parseInternalKey target) -> items <> [] -> search_left target i ->
  exists before k v rest, items = before ++ (O, (k, v)) :: rest /\
    offsets !! Z.to_nat (if i =? 0 then 0 else i - 1) = Some (len (items_bytes before)) /\
    Forall (fun x => below target x = true) before.
Proof.
  intros [Hsort _] [p Hp] Hne [->|(before & k & v & rest & Hi & Hoff & Hlt)].
  - assert (exists sh k v rest, items = (sh, (k, v)) :: rest) as (sh & k & v & rest & Hi)
      by (destruct items as [|[? [? ?]] ?]; eauto 6; done).
    pose proof (first_item _ _ _ _ Hi) as ->. exists [], k, v, rest. split_and!; [done| |done].
    destruct (bl_head _ _ _ L) as [r ->]. done.
  - exists before, k, v, rest. split_and!; [done| |].
    + destruct (Z.eqb_spec i 0) as [->|]; [done|done].
    + rewrite Forall_elem. intros x Hx. destruct (item_facts _ _ _ _ _ Hi) as (_ & [q Hq] & _).
      pose proof (bl_entries _ _ _ L) as He. rewrite Hi, map_app in He. simpl in He.
      rewrite <- He in Hsort. apply StronglySorted_app in Hsort as (Hxk & _ & _).
      assert (InternalKeyLess x.2.1 k = true) as H1.
      { apply (Hxk x.2 (k, v)); [|set_solver]. apply list_elem_of_In, in_map, list_elem_of_In. done. }
      unfold below. apply InternalKeyLess_le_trans with k; try done; eauto using parse_len.
Qed.

Lemma bi_seek_layout it target :
  sorted_run es -> bi_on it -> is_Some (parseInternalKey target) ->
  exists it', bi_seek it target = Some it' /\ bi_pos it' (dropwhile (below target) items).
Proof.
  intros Hrun Hon [p Hp]. unfold bi_seek. rewrite (on_status _ Hon), Hp. cbn [negb ok success code_ mbind option_bind].
  change (ok success) with true. cbn [negb]. pose proof (invalidate_on it Hon) as Hon'.
  change (restart_offset_ (invalidate it)) with (restart_offset_ it). rewrite (on_offset _ Hon).
  pose proof (items_bytes_min _ _ (bl_linked _ _ _ L)) as Hmin.
  destruct (decide (items = [])) as [Hi|Hne].
  { replace (len (items_bytes items)) with 0 by (by rewrite Hi). eexists. split; [done|].
    rewrite Hi. split; [done|]. by exists []. }
  destruct (Z.eqb_spec (len (items_bytes items)) 0) as [E|_].
  { exfalso. apply Hne, len_zero. pose proof (len_nonneg items). lia. }
  change (restart_count_ (invalidate it)) with (restart_count_ it). rewrite (on_count _ Hon).
  pose proof (len_nonneg offsets).
  destruct (seek_search_layout target (invalidate it) (Z.to_nat (len offsets)) 0 (len offsets))
    as (i & -> & Hi & Hleft); try done; try lia; [by left|].
  cbn [mbind option_bind].
  destruct (search_left_restart target i Hrun ltac:(by eexists) Hne Hleft) as (before & k & v & rest & Hit & Hoff & Hb).
  set (idx := if i =? 0 then 0 else i - 1) in *.
  assert (0 <= idx) as Hidx by (unfold idx; destruct (Z.eqb_spec i 0); lia).
  unfold seekToRestartPoint. set (it1 := mkBlockIterator _ _ _ _ _ _ _ _).
  assert (bi_on it1) as Hon1 by (destruct Hon'; by split).
  rewrite <- (Z2Nat.id idx) by lia. rewrite (restartOffset_layout it1 _ _ Hon1 Hoff). cbn [mbind option_bind].
  rewrite (decodeEntry_layout it1 before 0 k v rest Hon1 Hit) by (simpl; (done || lia)). cbn [mbind option_bind negb].
  destruct (seek_scan_layout target (length (block_ (positioned it1 before 0 k v))) (positioned it1 before 0 k v)
    ((O, (k, v)) :: rest)) as (it2 & Hscan & Hpos).
  - by apply bi_pos_positioned.
  - simpl block_. rewrite (on_block _ Hon), (length_len (layout_bytes _ _)), len_layout_bytes.
    rewrite Hit in Hmin at 1. len_norm. pose proof (len_nonneg before).
    simpl length. unfold len in Hmin at 2. lia.
  - exists it2. split; [done|]. rewrite Hit. by rewrite dropwhile_app_all.
Qed.
End layout.

(** ** The iterator against the entries of the block *)

Definition block_ready (es : list entry) (it : BlockIterator) : Prop :=
  exists items offsets, block_layout es items offsets /\ bi_on items offsets it.

Definition block_rep (es : list entry) (it : BlockIterator) (rest : list entry) : Prop :=
  exists items offsets r, block_layout es items offsets /\ bi_pos items offsets it r /\ map snd r = rest.

Lemma map_snd_dropwhile target (items : list item) :
  map snd (dropwhile (below target) items) =
  dropwhile (fun e : entry => InternalKeyLess e.1 target) (map snd items).
Proof. induction items as [|[sh [k v]] items IH]; [done|]. simpl. unfold below at 1. simpl. by destruct (InternalKeyLess k target). Qed.

Section rep.
Context (es : list entry) (V : Forall entry_valid es).

Lemma block_open block :
  block_of es block ->
  exists it, newBlockIterator block = Some it /\ block_ready es it /\ status_ it = success /\ valid_ it = false.
Proof.
  intros (items & offsets & L & ->). destruct (newBlockIterator_layout es items offsets L) as (it & ? & Hon & ?).
  exists it. split_and!; [done|by exists items, offsets|apply Hon|done].
Qed.

Lemma block_rep_ready it rest : block_rep es it rest -> block_ready es it.
Proof. intros (items & offsets & r & L & [Hon _] & _). by exists items, offsets. Qed.

Lemma block_ready_status it : block_ready es it -> status_ it = success.
Proof. intros (items & offsets & _ & Hon). apply Hon. Qed.

Lemma block_rep_head it rest :
  block_rep es it rest ->
  match rest with
  | [] => valid_ it = false
  | (k, v) :: _ => valid_ it = true /\ bi_key it = Some k /\ bi_value it = Some v
  end.
Proof.
  intros (items & offsets & r & _ & (_ & before & _ & Hm) & <-). destruct r as [|[sh [k v]] r]; simpl; [done|].
  destruct Hm as (Hv & <- & <- & _). unfold bi_key, bi_value. by rewrite Hv.
Qed.

Lemma block_rep_suffix it rest : block_rep es it rest -> exists before, es = before ++ rest.
Proof.
  intros (items & offsets & r & L & (_ & before & Hi & _) & <-). exists (map snd before).
  by rewrite <- (bl_entries _ _ _ L), Hi, map_app.
Qed.

Lemma block_next it e rest :
  block_rep es it (e :: rest) -> exists it', bi_next it = Some it' /\ block_rep es it' rest.
Proof.
  intros (items & offsets & r & L & Hpos & Hr). destruct r as [|i r]; [done|]. simplify_eq/=.
  destruct (bi_next_layout es items offsets L V it i r Hpos) as (it' & ? & ?).
  exists it'. split; [done|]. by exists items, offsets, r.
Qed.

Lemma block_seekToFirst it :
  block_ready es it -> exists it', bi_seekToFirst it = Some it' /\ block_rep es it' es.
Proof.
  intros (items & offsets & L & Hon). destruct (bi_seekToFirst_layout es items offsets L V it Hon) as (it' & ? & ?).
  exists it'. split; [done|]. exists items, offsets, items. split_and!; [done..|apply (bl_entries _ _ _ L)].
Qed.

Lemma block_seek it target :
  sorted_run es -> block_ready es it -> is_Some (parseInternalKey target) ->
  exists it', bi_seek it target = Some it' /\
    block_rep es it' (dropwhile (fun e : entry => InternalKeyLess e.1 target) es).
Proof.
  intros Hs (items & offsets & L & Hon) Ht.
  destruct (bi_seek_layout es items offsets L V it target Hs Hon Ht) as (it' & ? & ?).
  exists it'. split; [done|]. exists items, offsets, (dropwhile (below target) items). split_and!; [done..|].
  by rewrite map_snd_dropwhile, (bl_entries _ _ _ L).
Qed.

End rep.

(** Read the entries from the current position on, as a client does. *)
Fixpoint bi_collect (fuel : nat) (it : BlockIterator) : option (list entry * Status) :=
  match fuel with
  | O => None
  | S fuel =>
      if valid_ it then
        k ← bi_key it; v ← bi_value it; it ← bi_next it;
        '(es, s) ← bi_collect fuel it; Some ((k, v) :: es, s)
      else Some ([], status_ it)
  end.

Lemma bi_collect_rep es : Forall entry_valid es -> forall fuel it rest,
  block_rep es it rest -> (length rest < fuel)%nat -> bi_collect fuel it = Some (rest, success).
Proof.
  intros V. induction fuel as [|fuel IH]; intros it rest Hrep Hf; [lia|].
  pose proof (block_rep_head _ _ _ Hrep) as Hh. simpl. destruct rest as [|[k v] rest].
  - by rewrite Hh, (block_ready_status es it (block_rep_ready _ _ _ Hrep)).
  - destruct Hh as (-> & -> & ->). destruct (block_next es V it _ rest Hrep) as (it' & Hn & Hrep').
    cbn [mbind option_bind]. rewrite Hn. cbn [mbind option_bind]. rewrite (IH it' rest Hrep'); [done|simpl in Hf; lia].
Qed.

Lemma dropwhile_length {A} (p : A -> bool) l : (length (dropwhile p l) <= length l)%nat.
Proof. induction l as [|x l IH]; simpl; [done|]. destruct (p x); simpl; lia. Qed.

(** C17. Building a block from a sorted run of entries and reading it back: for
    every restart interval, iterating from the first entry returns exactly the
    entries, and seeking to any internal key returns exactly those not below
    it; both end without error.  The run must fit the 32-bit offsets of the
    format. *)
Theorem block_build_read interval es target :
  0 < interval -> sorted_run es -> entries_room es <= kUint32Max -> is_Some (parseInternalKey target) ->
  exists b block it,
    (b ← newBlockBuilder interval; b ← bb_add_all es b; bb_finish b) = Some (b, block) /\
    newBlockIterator block = Some it /\
    (it ← bi_seekToFirst it; bi_collect (S (length es)) it) = Some (es, success) /\
    (it ← bi_seek it target; bi_collect (S (length es)) it) =
      Some (dropwhile (fun e : entry => InternalKeyLess e.1 target) es, success).
Proof.
  intros Hint Hrun Hroom Ht. pose proof Hrun as [_ V].
  destruct (newBlockBuilder interval) as [b0|] eqn:Hnew;
    [|unfold newBlockBuilder, assert_that in Hnew; destruct (Z.ltb_spec 0 interval); (done || lia)].
  destruct (bb_add_all_inv es b0 [] [] (bb_inv_new _ _ Hnew)) as (b1 & items & Hadd & Hinv); [done|].
  destruct (bb_finish_block b1 es items Hinv) as (b2 & Hfin & _).
  assert (block_of es (layout_bytes items (restarts_ b1))) as Hblk.
  { exists items, (restarts_ b1). split; [apply (bbi_layout _ _ _ Hinv)|done]. }
  destruct (block_open es _ Hblk) as (it & Hit & Hready & _).
  destruct (block_seekToFirst es V it Hready) as (it1 & H1 & R1).
  destruct (block_seek es V it target Hrun Hready Ht) as (it2 & H2 & R2).
  exists b2, (layout_bytes items (restarts_ b1)), it. cbn [mbind option_bind]. rewrite Hadd.
  cbn [mbind option_bind]. rewrite H1, H2. cbn [mbind option_bind]. split_and!; [done..| |].
  - apply (bi_collect_rep es V _ _ _ R1). lia.
  - apply (bi_collect_rep es V _ _ _ R2). pose proof (dropwhile_length (fun e : entry => InternalKeyLess e.1 target) es). lia.
Qed.

Lemma block_build_read_witness :
  exists b block it,
    (b ← newBlockBuilder 2; b ← bb_add_all sample_run b; bb_finish b) = Some (b, block) /\
    newBlockIterator block = Some it /\
    (it ← bi_seekToFirst it; bi_collect 4 it) = Some (sample_run, success) /\
    (it ← bi_seek it (encodeInternalKey [x61] 4 kValue); bi_collect 4 it) =
      Some (drop 1 sample_run, success).
Proof.
  apply (block_build_read 2 sample_run (encodeInternalKey [x61] 4 kValue)).
  - lia.
  - apply sample_run_sorted.
  - by vm_compute.
  - eexists. by vm_compute.
Defined.
