(* ===== verification/TableFormat.v ===== *)
(** The fixed parts of an SSTable file (src/table/table_format.cc) and the
    checked reads of its blocks (src/table/table_io.cc). *)
From S2P Require Import Prelude Posix Status Coding.

(** ** src/table/table_format.h, src/table/table_format.cc *)

Definition kSSTableMagic : bytes := of_ascii "LSMTREE1".
Definition kSSTableMagicSize : Z := 8.
Definition kSSTableVersion : Z := 1.
Definition kNoCompression : Z := 0.
Definition kBlockTrailerSize : Z := 1 + 4.
Definition kBlockHandleSize : Z := 2 * 8.
Definition kSSTableFooterSize : Z := kSSTableMagicSize + 2 * 4 + 2 * kBlockHandleSize.

Record BlockHandle := mkBlockHandle { h_offset : Z; h_size : Z }.

Definition putBlockHandle (destination : bytes) (handle : BlockHandle) : bytes :=
  putFixed64 (putFixed64 destination (h_offset handle)) (h_size handle).

(** On success the handle and the advanced input. *)
Definition getBlockHandle (input : bytes) : option (BlockHandle * bytes) :=
  '(offset, remaining) ← getFixed64 input;
  '(size, remaining) ← getFixed64 remaining;
  Some (mkBlockHandle offset size, remaining).

Definition putSSTableFooter (destination : bytes) (filter_handle index_handle : BlockHandle) : bytes :=
  let destination := destination ++ kSSTableMagic in
  let destination := putFixed32 destination kSSTableVersion in
  let destination := putFixed32 destination 0 in
  let destination := putBlockHandle destination filter_handle in
  putBlockHandle destination index_handle.

(** The four fields after the magic; [None] when any is missing or bytes are
    left over. *)
Definition footer_fields (input : bytes) : option (Z * Z * BlockHandle * BlockHandle) :=
  '(version, input) ← getFixed32 input;
  '(reserved, input) ← getFixed32 input;
  '(filter_handle, input) ← getBlockHandle input;
  '(index_handle, input) ← getBlockHandle input;
  if bool_decide (input = []) then Some (version, reserved, filter_handle, index_handle) else None.

Definition decodeSSTableFooter (encoded : bytes) : result (BlockHandle * BlockHandle) :=
  if negb (len encoded =? kSSTableFooterSize)
  then Err (corruption "invalid SSTable footer size")
  else if negb (bool_decide (substr encoded 0 kSSTableMagicSize = kSSTableMagic))
  then Err (corruption "invalid SSTable magic")
  else
    match footer_fields (remove_prefix kSSTableMagicSize encoded) with
    | None => Err (corruption "invalid SSTable footer")
    | Some (version, reserved, filter_handle, index_handle) =>
        if negb (version =? kSSTableVersion)
        then Err (notSupported "unsupported SSTable version")
        else if negb (reserved =? 0)
        then Err (corruption "non-zero SSTable footer reserved field")
        else Ok (filter_handle, index_handle)
    end.

(** ** src/table/table_io.cc *)

Section io.
(** [std::error_code(errno, std::generic_category()).message()]. *)
Context (strerror : Z -> string).

(** [readExactly]: [::pread] until [size] bytes have arrived; [got] is what has
    been read so far. *)
Fixpoint readExactly_loop (evs : list read_event) (file : bytes) (offset size : Z) (got : bytes) :
    result bytes * list read_event :=
  if size <=? len got then (Ok got, evs)
  else
    match evs with
    | [] =>
        let got := got ++ substr file (offset + len got) (size - len got) in
        if len got <? size then (Err (corruption "truncated SSTable input"), []) else (Ok got, [])
    | ReadCount n :: evs =>
        let chunk := substr file (offset + len got) (Z.min (Z.max 1 n) (size - len got)) in
        if bool_decide (chunk = []) then (Err (corruption "truncated SSTable input"), evs)
        else readExactly_loop evs file offset size (got ++ chunk)
    | ReadErrno errno :: evs =>
        if errno =? EINTR then readExactly_loop evs file offset size got
        else (Err (ioError ("read SSTable: " +:+ strerror errno)), evs)
    end.

Definition readExactly (evs : list read_event) (file : bytes) (offset size : Z) :
    result bytes * list read_event :=
  readExactly_loop evs file offset size [].

Definition validateBlockHandle (file_size : Z) (handle : BlockHandle) : Status :=
  if file_size <? kSSTableFooterSize then corruption "SSTable is shorter than its footer"
  else
    let block_limit := file_size - kSSTableFooterSize in
    if block_limit <? h_offset handle then corruption "block offset is outside SSTable"
    else
      let remaining := block_limit - h_offset handle in
      if (remaining <? h_size handle) || (remaining - h_size handle <? kBlockTrailerSize)
      then corruption "block extends outside SSTable"
      else success.

Definition readSSTableFooter (evs : list read_event) (file : bytes) (file_size : Z) :
    result (BlockHandle * BlockHandle) * list read_event :=
  if file_size <? kSSTableFooterSize
  then (Err (corruption "SSTable is shorter than its footer"), evs)
  else
    let '(res, evs) := readExactly evs file (file_size - kSSTableFooterSize) kSSTableFooterSize in
    match res with
    | Err status => (Err status, evs)
    | Ok encoded =>
        match decodeSSTableFooter encoded with
        | Err status => (Err status, evs)
        | Ok (filter_handle, index_handle) =>
            let status := validateBlockHandle file_size filter_handle in
            if negb (ok status) then (Err status, evs)
            else
              let status := validateBlockHandle file_size index_handle in
              if negb (ok status) then (Err status, evs)
              else (Ok (filter_handle, index_handle), evs)
        end
    end.

Definition readBlock (evs : list read_event) (file : bytes) (file_size : Z) (handle : BlockHandle)
    (verify_checksum : bool) : result bytes * list read_event :=
  let status := validateBlockHandle file_size handle in
  if negb (ok status) then (Err status, evs)
  else
    let payload_size := h_size handle in
    let block_size := payload_size + kBlockTrailerSize in
    let '(res, evs) := readExactly evs file (h_offset handle) block_size in
    match res with
    | Err status => (Err status, evs)
    | Ok block =>
        let trailer := remove_prefix payload_size block in
        let compression := byte_at trailer 0 in
        if verify_checksum &&
           negb (decodeFixed32 (remove_prefix 1 trailer) =? crc32c (substr block 0 (payload_size + 1)))
        then (Err (corruption "SSTable block checksum mismatch"), evs)
        else if negb (compression =? kNoCompression)
        then (Err (corruption "unsupported SSTable block compression"), evs)
        else (Ok (take (Z.to_nat payload_size) block), evs)
    end.

End io.

(** ** Handles and footers *)

(** A handle whose fields fit [std::uint64_t]. *)
Definition handle_ok (h : BlockHandle) : Prop :=
  0 <= h_offset h <= kUint64Max /\ 0 <= h_size h <= kUint64Max.

Definition handle_bytes (h : BlockHandle) : bytes := le_bytes 8 (h_offset h) ++ le_bytes 8 (h_size h).

Lemma putBlockHandle_eq dst h : putBlockHandle dst h = dst ++ handle_bytes h.
Proof. unfold putBlockHandle, handle_bytes. by rewrite !putFixed64_le_bytes, <- app_assoc. Qed.

Lemma getBlockHandle_app h rest :
  handle_ok h -> getBlockHandle (handle_bytes h ++ rest) = Some (h, rest).
Proof.
  intros [H1 H2]. unfold getBlockHandle, handle_bytes. rewrite <- app_assoc, getFixed64_app by done. simpl.
  rewrite getFixed64_app by done. by destruct h.
Qed.

Lemma getBlockHandle_Some input h rest :
  getBlockHandle input = Some (h, rest) -> input = handle_bytes h ++ rest /\ handle_ok h.
Proof.
  unfold getBlockHandle. destruct (getFixed64 input) as [[o r]|] eqn:E1; simpl; [|done].
  destruct (getFixed64 r) as [[s r']|] eqn:E2; simpl; [|done]. intros; simplify_eq.
  apply getFixed64_Some in E1 as [-> ?], E2 as [-> ?]. unfold handle_bytes. simpl.
  by rewrite <- app_assoc.
Qed.

Lemma len_handle_bytes h : len (handle_bytes h) = 16.
Proof. unfold handle_bytes. len_norm. done. Qed.

Definition footer_bytes (f i : BlockHandle) : bytes :=
  kSSTableMagic ++ le_bytes 4 kSSTableVersion ++ le_bytes 4 0 ++ handle_bytes f ++ handle_bytes i.

Lemma putSSTableFooter_eq dst f i : putSSTableFooter dst f i = dst ++ footer_bytes f i.
Proof.
  unfold putSSTableFooter, footer_bytes. by rewrite !putBlockHandle_eq, !putFixed32_le_bytes, <- !app_assoc.
Qed.

Lemma len_footer_bytes f i : len (footer_bytes f i) = kSSTableFooterSize.
Proof. unfold footer_bytes. len_norm. by rewrite !len_handle_bytes. Qed.

Lemma footer_split f i :
  substr (footer_bytes f i) 0 kSSTableMagicSize = kSSTableMagic /\
  remove_prefix kSSTableMagicSize (footer_bytes f i) =
    le_bytes 4 kSSTableVersion ++ le_bytes 4 0 ++ handle_bytes f ++ handle_bytes i.
Proof. done. Qed.

Lemma decodeSSTableFooter_put f i :
  handle_ok f -> handle_ok i -> decodeSSTableFooter (footer_bytes f i) = Ok (f, i).
Proof.
  intros Hf Hi. unfold decodeSSTableFooter. rewrite len_footer_bytes, Z.eqb_refl. cbn [negb].
  destruct (footer_split f i) as [-> ->]. rewrite bool_decide_true by done. cbn [negb].
  unfold footer_fields. rewrite getFixed32_app by done. cbn [mbind option_bind].
  rewrite getFixed32_app by done. cbn [mbind option_bind].
  rewrite getBlockHandle_app by done. cbn [mbind option_bind].
  rewrite <- (app_nil_r (handle_bytes i)), getBlockHandle_app by done. done.
Qed.

Lemma decodeSSTableFooter_Ok encoded f i :
  decodeSSTableFooter encoded = Ok (f, i) -> encoded = footer_bytes f i /\ handle_ok f /\ handle_ok i.
Proof.
  unfold decodeSSTableFooter, footer_fields. destruct (negb _); [done|].
  case_bool_decide as Hm; cbn [negb]; [|done]. set (r := remove_prefix _ _).
  destruct (getFixed32 r) as [[v r1]|] eqn:E1; cbn [mbind option_bind]; [|done].
  destruct (getFixed32 r1) as [[z r2]|] eqn:E2; cbn [mbind option_bind]; [|done].
  destruct (getBlockHandle r2) as [[hf r3]|] eqn:E3; cbn [mbind option_bind]; [|done].
  destruct (getBlockHandle r3) as [[hi r4]|] eqn:E4; cbn [mbind option_bind]; [|done].
  case_bool_decide as Hr; [|done]. destruct (Z.eqb_spec v kSSTableVersion) as [->|]; cbn [negb]; [|done].
  destruct (Z.eqb_spec z 0) as [->|]; cbn [negb]; [|done]. intros; simplify_eq.
  apply getFixed32_Some in E1 as [E1 _], E2 as [-> _].
  apply getBlockHandle_Some in E3 as [-> ?], E4 as [-> ?]. split; [|done].
  rewrite app_nil_r in E1. unfold footer_bytes. rewrite <- E1, <- Hm. unfold r, substr, remove_prefix.
  change (Z.to_nat 0) with O. by rewrite drop_0, take_drop.
Qed.

(** The SSTable footer: decoding accepts exactly the 48-byte strings that
    encoding two 64-bit block handles produces, and returns those handles. *)
Theorem sstable_footer_inverse encoded f i :
  decodeSSTableFooter encoded = Ok (f, i) <->
  encoded = putSSTableFooter [] f i /\ handle_ok f /\ handle_ok i.
Proof.
  rewrite putSSTableFooter_eq. simpl. split; [apply decodeSSTableFooter_Ok|].
  intros (-> & ? & ?). by apply decodeSSTableFooter_put.
Qed.

(** ** Exact reads *)

Section reads.
Context (strerror : Z -> string).

Lemma substr_extend s o a b :
  0 <= o -> 0 <= a -> 0 <= b -> substr s o a ++ substr s (o + a) b = substr s o (a + b).
Proof.
  intros. unfold substr. replace (Z.to_nat (o + a)) with (Z.to_nat o + Z.to_nat a)%nat by lia.
  rewrite <- drop_drop. replace (Z.to_nat (a + b)) with (Z.to_nat a + Z.to_nat b)%nat by lia.
  by rewrite take_take_drop.
Qed.

Lemma substr_len s o n : substr s o (len (substr s o n)) = substr s o n.
Proof.
  unfold substr, len. rewrite Nat2Z.id, length_take.
  destruct (decide (Z.to_nat n <= length (drop (Z.to_nat o) s))%nat); [f_equal; lia|].
  rewrite !take_ge; (done || lia).
Qed.

Lemma len_substr_in s o n : 0 <= o -> 0 <= n -> o + n <= len s -> len (substr s o n) = n.
Proof. intros. unfold substr. len_norm. lia. Qed.

(** A successful read returns the requested range of the file. *)
Lemma readExactly_loop_Ok evs : forall file offset size got res evs',
  0 <= offset -> 0 <= size -> len got <= size -> got = substr file offset (len got) ->
  readExactly_loop strerror evs file offset size got = (Ok res, evs') ->
  res = substr file offset size /\ len res = size.
Proof.
  induction evs as [|ev evs IH]; intros file offset size got res evs' Ho Hs Hl Hg; simpl;
    pose proof (len_nonneg got);
    (destruct (Z.leb_spec size (len got)); [intros; simplify_eq; assert (len res = size) as E by lia; by rewrite <- E|]).
  - destruct (Z.ltb_spec (len (got ++ substr file (offset + len got) (size - len got))) size); [done|].
    intros; simplify_eq. rewrite Hg at 1. rewrite substr_extend by lia.
    replace (len got + (size - len got)) with size by lia. split; [done|].
    rewrite len_app in *. pose proof (len_nonneg (substr file (offset + len got) (size - len got))).
    assert (len (substr file (offset + len got) (size - len got)) <= size - len got)
      by (unfold substr; len_norm; lia). lia.
  - destruct ev as [n|errno].
    + case_bool_decide; [done|]. intros Hr. eapply IH in Hr; try done.
      * len_norm. unfold substr. len_norm. lia.
      * set (m := Z.min (Z.max 1 n) (size - len got)) in *.
        assert (got ++ substr file (offset + len got) m = substr file offset (len got + m)) as ->.
        { rewrite Hg at 1. apply substr_extend; lia. }
        symmetry. apply substr_len.
    + destruct (errno =? EINTR); [|done]. by apply IH.
Qed.

Lemma readExactly_Ok evs file offset size res evs' :
  0 <= offset -> 0 <= size -> readExactly strerror evs file offset size = (Ok res, evs') ->
  res = substr file offset size /\ len res = size.
Proof.
  intros Ho Hs. by apply readExactly_loop_Ok.
Qed.

(** Short and interrupted reads never make an in-range read fail. *)
Lemma readExactly_loop_benign evs : forall file offset size got,
  Forall benign_read evs -> 0 <= offset -> 0 <= size -> offset + size <= len file -> len got <= size ->
  exists res evs', readExactly_loop strerror evs file offset size got = (Ok res, evs') /\ Forall benign_read evs'.
Proof.
  induction evs as [|ev evs IH]; intros file offset size got Hb Ho Hs Hf Hl; simpl;
    pose proof (len_nonneg got); (destruct (Z.leb_spec size (len got)); [by eauto|]).
  - destruct (Z.ltb_spec (len (got ++ substr file (offset + len got) (size - len got))) size); [|by eauto].
    rewrite len_app, len_substr_in in * by lia. lia.
  - apply Forall_cons_iff in Hb as [Hev Hb]. destruct ev as [n|errno]; simpl in Hev.
    + set (m := Z.min (Z.max 1 n) (size - len got)).
      assert (len (substr file (offset + len got) m) = m) as Hm by (apply len_substr_in; lia).
      case_bool_decide as E; [rewrite E in Hm; len_norm; lia|].
      apply IH; try done. len_norm. lia.
    + subst errno. simpl. by apply IH.
Qed.

Lemma readExactly_benign evs file offset size :
  Forall benign_read evs -> 0 <= offset -> 0 <= size -> offset + size <= len file ->
  exists evs', readExactly strerror evs file offset size = (Ok (substr file offset size), evs') /\
    Forall benign_read evs'.
Proof.
  intros Hb Ho Hs Hf. pose proof (len_nonneg (@nil byte)).
  destruct (readExactly_loop_benign evs file offset size [] Hb Ho Hs Hf) as (res & evs' & Hr & Hb'); [done|].
  destruct (readExactly_Ok _ _ _ _ _ _ Ho Hs Hr) as [-> _]. eauto.
Qed.

(** An error result always carries a failing status. *)
Lemma readExactly_loop_Err evs : forall file offset size got st evs',
  readExactly_loop strerror evs file offset size got = (Err st, evs') -> ok st = false.
Proof.
  induction evs as [|ev evs IH]; intros file offset size got st evs'; simpl; (destruct (_ <=? _); [done|]).
  - destruct (_ <? _); intros; by simplify_eq.
  - destruct ev as [n|errno].
    + case_bool_decide; [intros; by simplify_eq|]. apply IH.
    + destruct (errno =? EINTR); [apply IH|intros; by simplify_eq].
Qed.

Lemma readBlock_Err evs file size h verify st evs' :
  readBlock strerror evs file size h verify = (Err st, evs') -> ok st = false.
Proof.
  unfold readBlock. destruct (ok (validateBlockHandle size h)) eqn:Hv; simpl; [|intros; by simplify_eq].
  destruct (readExactly _ _ _ _ _) as [[blk|st'] evs1] eqn:Hr.
  - destruct (_ && _); [intros; by simplify_eq|]. destruct (negb _); intros; by simplify_eq.
  - intros; simplify_eq. by apply readExactly_loop_Err in Hr.
Qed.

(** A failed read never looks like a missing key. *)
Lemma readExactly_loop_error evs : forall file offset size got st evs',
  readExactly_loop strerror evs file offset size got = (Err st, evs') -> isNotFound st = false.
Proof.
  induction evs as [|[n|errno] evs IH]; intros file offset size got st evs'; simpl; (destruct (size <=? len got); [done|]).
  - destruct (_ <? size); [by intros [= <- _]|done].
  - case_bool_decide; [by intros [= <- _]|apply IH].
  - destruct (errno =? EINTR); [apply IH|by intros [= <- _]].
Qed.

Lemma readBlock_error evs file size h verify st evs' :
  readBlock strerror evs file size h verify = (Err st, evs') -> isNotFound st = false.
Proof.
  unfold readBlock. destruct (negb (ok (validateBlockHandle size h))) eqn:Hv.
  - unfold validateBlockHandle in *. intros [= <- _]. repeat case_match; done.
  - destruct (readExactly _ _ _ _ _) as [[blk|st'] evs1] eqn:Hr; [|intros E; injection E as <- _; by apply readExactly_loop_error in Hr].
    destruct (verify && _); [by intros [= <- _]|]. destruct (negb (byte_at _ _ =? _)); [by intros [= <- _]|done].
Qed.

(** Whatever a successful read went through, an undisturbed one returns the
    same. *)
Lemma readExactly_undisturbed evs file offset size res evs' :
  0 <= offset -> 0 <= size -> readExactly strerror evs file offset size = (Ok res, evs') ->
  readExactly strerror [] file offset size = (Ok res, []).
Proof.
  intros Ho Hs Hr. destruct (readExactly_Ok _ _ _ _ _ _ Ho Hs Hr) as [Hres Hlen]. unfold readExactly. simpl.
  change (len []) with 0. destruct (Z.leb_spec size 0).
  - assert (size = 0) as -> by lia. apply len_zero in Hlen. by subst.
  - rewrite Z.add_0_r, Z.sub_0_r, <- Hres. destruct (Z.ltb_spec (len res) size); [lia|done].
Qed.

Lemma readBlock_undisturbed evs file size h verify blk evs' :
  0 <= h_offset h -> 0 <= h_size h -> readBlock strerror evs file size h verify = (Ok blk, evs') ->
  readBlock strerror [] file size h verify = (Ok blk, []).
Proof.
  intros Ho Hs. unfold readBlock. destruct (negb _); [done|].
  destruct (readExactly _ evs _ _ _) as [[b|st] evs1] eqn:Hr; [|done].
  apply readExactly_undisturbed in Hr; [|done|unfold kBlockTrailerSize; lia]. rewrite Hr.
  destruct (_ && _); [done|]. destruct (negb _); [done|]. by intros; simplify_eq.
Qed.

Lemma readSSTableFooter_any evs file size res evs' :
  readSSTableFooter strerror evs file size = (res, evs') ->
  match res with
  | Err st => ok st = false
  | Ok (fh, ih) => readSSTableFooter strerror [] file size = (Ok (fh, ih), []) /\ handle_ok fh /\ handle_ok ih
  end.
Proof.
  unfold readSSTableFooter. destruct (Z.ltb_spec size kSSTableFooterSize); [by intros; simplify_eq|].
  destruct (readExactly _ evs _ _ _) as [[b|st] evs1] eqn:Hr.
  2:{ intros; simplify_eq. by apply readExactly_loop_Err in Hr. }
  apply readExactly_undisturbed in Hr; [|lia|done]. rewrite Hr.
  destruct (decodeSSTableFooter b) as [[fh ih]|st] eqn:Hd.
  - apply decodeSSTableFooter_Ok in Hd as (_ & Hf & Hi).
    destruct (ok (validateBlockHandle size fh)) eqn:E1; simpl; [|intros; by simplify_eq].
    destruct (ok (validateBlockHandle size ih)) eqn:E2; simpl; intros; by simplify_eq.
  - intros; simplify_eq. unfold decodeSSTableFooter in Hd. destruct (negb _); [by simplify_eq|]. destruct (negb _); [by simplify_eq|].
    destruct (footer_fields _) as [[[[? ?] ?] ?]|]; [|by simplify_eq]. destruct (negb _); [by simplify_eq|].
    destruct (negb _); by simplify_eq.
Qed.

(** ** Blocks *)

(** A block as [SSTableBuilder::writeBlock] frames it. *)
Definition framed (payload : bytes) : bytes :=
  payload ++ [byte_of_Z kNoCompression] ++ le_bytes 4 (crc32c (payload ++ [byte_of_Z kNoCompression])).

Lemma len_framed payload : len (framed payload) = len payload + kBlockTrailerSize.
Proof. unfold framed, kBlockTrailerSize. len_norm. lia. Qed.

Lemma validateBlockHandle_ok file_size h :
  0 <= h_offset h -> 0 <= h_size h ->
  h_offset h + h_size h + kBlockTrailerSize + kSSTableFooterSize <= file_size ->
  validateBlockHandle file_size h = success.
Proof.
  intros. unfold validateBlockHandle, kBlockTrailerSize in *.
  assert (kSSTableFooterSize = 48) as E by done. rewrite E in *.
  destruct (Z.ltb_spec file_size 48); [lia|]. destruct (Z.ltb_spec (file_size - 48) (h_offset h)); [lia|].
  destruct (Z.ltb_spec (file_size - 48 - h_offset h) (h_size h)); [lia|].
  destruct (Z.ltb_spec (file_size - 48 - h_offset h - h_size h) (1 + 4)); [lia|]. done.
Qed.

Lemma validateBlockHandle_sound file_size h :
  0 <= h_offset h -> 0 <= h_size h -> ok (validateBlockHandle file_size h) = true ->
  h_offset h + h_size h + kBlockTrailerSize + kSSTableFooterSize <= file_size.
Proof.
  intros Ho Hs. unfold validateBlockHandle. destruct (Z.ltb_spec file_size kSSTableFooterSize); [done|].
  destruct (Z.ltb_spec (file_size - kSSTableFooterSize) (h_offset h)); [done|].
  destruct (Z.ltb_spec (file_size - kSSTableFooterSize - h_offset h) (h_size h)); [done|].
  destruct (Z.ltb_spec (file_size - kSSTableFooterSize - h_offset h - h_size h) kBlockTrailerSize); [done|]. lia.
Qed.

(** Reading a range that holds [stored], a payload and a five-byte trailer. *)
Lemma readBlock_stored evs file payload compression checksum o verify :
  Forall benign_read evs -> 0 <= o -> o + len payload + kBlockTrailerSize + kSSTableFooterSize <= len file ->
  0 <= checksum <= kUint32Max ->
  substr file o (len payload + kBlockTrailerSize) = payload ++ [compression] ++ le_bytes 4 checksum ->
  exists evs', Forall benign_read evs' /\
    readBlock strerror evs file (len file) (mkBlockHandle o (len payload)) verify =
    (if verify && negb (checksum =? crc32c (payload ++ [compression]))
     then Err (corruption "SSTable block checksum mismatch")
     else if negb (byte_to_Z compression =? kNoCompression)
     then Err (corruption "unsupported SSTable block compression")
     else Ok payload, evs').
Proof.
  intros Hb Ho Hf Hc Hsub. pose proof (len_nonneg payload). unfold readBlock.
  rewrite validateBlockHandle_ok by (simpl; (done || lia)). change (negb (ok success)) with false. cbn [h_size h_offset].
  assert (kSSTableFooterSize = 48) as E by done. unfold kBlockTrailerSize in *.
  destruct (readExactly_benign evs file o (len payload + (1 + 4)) Hb Ho) as (evs' & -> & Hb'); [lia..|].
  exists evs'. split; [done|]. rewrite Hsub. unfold remove_prefix.
  rewrite drop_app_length' by (unfold len; lia).
  change (byte_at ([compression] ++ le_bytes 4 checksum) 0) with (byte_to_Z compression).
  change (drop (Z.to_nat 1) ([compression] ++ le_bytes 4 checksum)) with (le_bytes 4 checksum).
  assert (substr (payload ++ [compression] ++ le_bytes 4 checksum) 0 (len payload + 1) = payload ++ [compression]) as ->.
  { unfold substr. change (Z.to_nat 0) with O. rewrite drop_0, app_assoc. apply take_app_length'.
    rewrite length_app. unfold len. simpl. lia. }
  assert (decodeFixed32 (le_bytes 4 checksum) = checksum) as ->.
  { rewrite <- (app_nil_r (le_bytes 4 _)), decodeFixed32_app by apply len_le_bytes. by apply le_value_le_bytes4. }
  assert (take (Z.to_nat (len payload)) (payload ++ [compression] ++ le_bytes 4 checksum) = payload) as ->.
  { apply take_app_length'. unfold len. lia. }
  by repeat case_match.
Qed.

Lemma readBlock_framed evs file payload o verify :
  Forall benign_read evs -> 0 <= o -> o + len (framed payload) + kSSTableFooterSize <= len file ->
  substr file o (len (framed payload)) = framed payload ->
  exists evs', Forall benign_read evs' /\
    readBlock strerror evs file (len file) (mkBlockHandle o (len payload)) verify = (Ok payload, evs').
Proof.
  intros Hb Ho Hf Hsub. rewrite len_framed in *.
  destruct (readBlock_stored evs file payload (byte_of_Z kNoCompression)
    (crc32c (payload ++ [byte_of_Z kNoCompression])) o verify Hb Ho) as (evs' & Hb' & Hr);
    [lia|pose proof (crc32c_range (payload ++ [byte_of_Z kNoCompression])); unfold kUint32Max in *; lia|done|].
  exists evs'. split; [done|]. rewrite Hr, Z.eqb_refl, andb_false_r. done.
Qed.

End reads.

(** A data, filter or index block damaged within four consecutive bytes of
    its payload or compression byte is reported as corruption by a read that
    verifies checksums; no payload is returned. *)
Theorem sstable_block_damage_detected strerror evs file pre u v post o :
  Forall benign_read evs -> 0 <= o -> pre ++ u ++ post <> [] ->
  length u = length v -> len u <= 4 -> u <> v ->
  o + len (pre ++ u ++ post) + 4 + kSSTableFooterSize <= len file ->
  substr file o (len (pre ++ u ++ post) + 4) = pre ++ v ++ post ++ le_bytes 4 (crc32c (pre ++ u ++ post)) ->
  exists evs', readBlock strerror evs file (len file) (mkBlockHandle o (len (pre ++ u ++ post) - 1)) true =
    (Err (corruption "SSTable block checksum mismatch"), evs').
Proof.
  intros Hb Ho Hne Hl H4 Huv Hf Hsub.
  assert (len (pre ++ v ++ post) = len (pre ++ u ++ post)) as Hlen by (len_norm; unfold len; lia).
  assert (exists payload compression, pre ++ v ++ post = payload ++ [compression]) as (payload & c & Hpc).
  { destruct (exists_last (l := pre ++ v ++ post)) as (payload & c & ?); [|by eauto].
    intros E. rewrite E in Hlen. apply Hne, len_zero. by rewrite <- Hlen. }
  assert (len payload = len (pre ++ u ++ post) - 1) as Hp by (rewrite <- Hlen, Hpc; llia).
  rewrite <- Hp. unfold kBlockTrailerSize in *.
  destruct (readBlock_stored strerror evs file payload c (crc32c (pre ++ u ++ post)) o true Hb Ho)
    as (evs' & _ & Hr); [unfold kBlockTrailerSize; lia| | |].
  - pose proof (crc32c_range (pre ++ u ++ post)). unfold kUint32Max in *. lia.
  - unfold kBlockTrailerSize. replace (len payload + (1 + 4)) with (len (pre ++ u ++ post) + 4) by lia.
    by rewrite Hsub, (app_assoc payload), <- Hpc, <- !app_assoc.
  - exists evs'. rewrite Hr. rewrite <- Hpc.
    destruct (Z.eqb_spec (crc32c (pre ++ u ++ post)) (crc32c (pre ++ v ++ post))) as [E|_]; [|done].
    by apply crc32c_burst in E.
Qed.

Lemma sstable_block_damage_detected_witness :
  exists evs', readBlock (fun _ => "") [ReadCount 2; ReadErrno 4]
      ([x61; x63; x00] ++ le_bytes 4 (crc32c [x61; x62; x00]) ++ replicate 48 x00) 55
      (mkBlockHandle 0 2) true =
    (Err (corruption "SSTable block checksum mismatch"), evs').
Proof.
  apply (sstable_block_damage_detected (fun _ => "") [ReadCount 2; ReadErrno 4]
    ([x61; x63; x00] ++ le_bytes 4 (crc32c [x61; x62; x00]) ++ replicate 48 x00) [x61] [x62] [x63] [x00] 0);
    try done; repeat constructor.
Defined.
