(* ===== verification/SSTableBuilder.v ===== *)
(** Writing an SSTable (src/table/sstable_builder.cc): data blocks cut at a
    size threshold, a Bloom filter over the user keys, an index block holding
    the last key and the position of each data block, and the footer. *)
From S2P Require Import Prelude Posix Status Coding InternalKey Mvcc BloomFilter BlockBuilder TableFormat.

(** ** src/table/sstable_builder.h, src/table/sstable_builder.cc *)

Record SSTableMeta := mkSSTableMeta {
  file_size : Z;
  meta_entry_count : Z;
  smallest_key : bytes;
  largest_key : bytes;
}.

Inductive BuilderState := kBuilding | kFinished | kAbandoned.

#[global] Instance BuilderState_eq_dec : EqDecision BuilderState.
Proof. solve_decision. Defined.

(** What the environment does to the builder's file: the [::write] calls, the
    errnos of failing [::fdatasync] calls, and the errno of [::close] if any. *)
Record TableEnv := mkTableEnv {
  env_writes : list write_event;
  env_syncs : list Z;
  env_close : option Z;
}.

Record SSTableBuilder := mkSSTableBuilder {
  tb_env : TableEnv;
  tb_file : LogFile;
  tb_unlinked : bool;         (* [abandon] has removed the file *)
  tb_open : bool;             (* [fd_ >= 0] *)
  tb_path : string;
  block_size_ : Z;
  tb_state : BuilderState;
  tb_error : Status;
  data_block_ : BlockBuilder;
  index_block_ : BlockBuilder;
  bloom_filter_ : list Z;
  file_offset_ : Z;
  tb_entry_count : Z;
  first_key_ : bytes;
  tb_last_key : bytes;
}.

(** Field updates. *)
Definition tb_set_io (b : SSTableBuilder) (env : TableEnv) (file : LogFile) (error : Status) : SSTableBuilder :=
  mkSSTableBuilder env file (tb_unlinked b) (tb_open b) (tb_path b) (block_size_ b) (tb_state b) error
    (data_block_ b) (index_block_ b) (bloom_filter_ b) (file_offset_ b) (tb_entry_count b)
    (first_key_ b) (tb_last_key b).
Definition tb_set_offset (b : SSTableBuilder) (offset : Z) : SSTableBuilder :=
  mkSSTableBuilder (tb_env b) (tb_file b) (tb_unlinked b) (tb_open b) (tb_path b) (block_size_ b) (tb_state b)
    (tb_error b) (data_block_ b) (index_block_ b) (bloom_filter_ b) offset (tb_entry_count b)
    (first_key_ b) (tb_last_key b).
Definition tb_set_blocks (b : SSTableBuilder) (data index : BlockBuilder) : SSTableBuilder :=
  mkSSTableBuilder (tb_env b) (tb_file b) (tb_unlinked b) (tb_open b) (tb_path b) (block_size_ b) (tb_state b)
    (tb_error b) data index (bloom_filter_ b) (file_offset_ b) (tb_entry_count b)
    (first_key_ b) (tb_last_key b).
Definition tb_set_entry (b : SSTableBuilder) (data : BlockBuilder) (bloom : list Z) (count : Z)
    (first last : bytes) : SSTableBuilder :=
  mkSSTableBuilder (tb_env b) (tb_file b) (tb_unlinked b) (tb_open b) (tb_path b) (block_size_ b) (tb_state b)
    (tb_error b) data (index_block_ b) bloom (file_offset_ b) count first last.
Definition tb_set_state (b : SSTableBuilder) (unlinked is_open : bool) (state : BuilderState) : SSTableBuilder :=
  mkSSTableBuilder (tb_env b) (tb_file b) unlinked is_open (tb_path b) (block_size_ b) state
    (tb_error b) (data_block_ b) (index_block_ b) (bloom_filter_ b) (file_offset_ b) (tb_entry_count b)
    (first_key_ b) (tb_last_key b).

Section builder.
Context (strerror : Z -> string).

(** [SSTableBuilder::open]; [open_errno] is the answer of [::open], which fails
    with [EEXIST] on an existing path. *)
Definition EEXIST : Z := 17.
Definition tb_open_file (path : string) (block_size restart_interval : Z) (open_errno : option Z)
    (env : TableEnv) : option (result SSTableBuilder) :=
  if bool_decide (path = "") then Some (Err (invalidArgument "SSTable path must not be empty"))
  else if block_size =? 0 then Some (Err (invalidArgument "SSTable block size must be positive"))
  else if restart_interval =? 0 then Some (Err (invalidArgument "block restart interval must be positive"))
  else
    match open_errno with
    | Some errno =>
        if errno =? EEXIST then Some (Err (alreadyExists ("SSTable already exists: " +:+ path)))
        else Some (Err (ioError ("open SSTable " +:+ path +:+ ": " +:+ strerror errno)))
    | None =>
        block ← newBlockBuilder restart_interval;
        Some (Ok (mkSSTableBuilder env (mkLogFile [] 0) false true path block_size kBuilding success
                    block block [] 0 0 [] []))
    end.

Definition tb_latchIOError (operation : string) (errno : Z) (b : SSTableBuilder) : SSTableBuilder * Status :=
  let b := if ok (tb_error b)
           then tb_set_io b (tb_env b) (tb_file b)
                  (ioError (operation +:+ " " +:+ tb_path b +:+ ": " +:+ strerror errno))
           else b in
  (b, tb_error b).

Definition tb_append (b : SSTableBuilder) (evs : list write_event) (data : bytes) : SSTableBuilder :=
  tb_set_io b (mkTableEnv evs (env_syncs (tb_env b)) (env_close (tb_env b)))
    (mkLogFile (contents (tb_file b) ++ data) (durable (tb_file b))) (tb_error b).

Fixpoint tb_writeAll_loop (evs : list write_event) (b : SSTableBuilder) (data : bytes) :
    SSTableBuilder * Status :=
  if bool_decide (data = []) then (tb_append b evs [], success)
  else
    match evs with
    | [] => (tb_append b [] data, success)
    | WriteCount n :: evs =>
        if 0 <? n
        then tb_writeAll_loop evs (tb_append b evs (take (Z.to_nat n) data)) (drop (Z.to_nat n) data)
        else tb_latchIOError "write SSTable" EIO (tb_append b evs [])
    | WriteErrno errno :: evs =>
        if errno =? EINTR then tb_writeAll_loop evs b data
        else tb_latchIOError "write SSTable" errno (tb_append b evs [])
    end.

Definition tb_writeAll (b : SSTableBuilder) (data : bytes) : SSTableBuilder * Status :=
  tb_writeAll_loop (env_writes (tb_env b)) b data.

Fixpoint tb_sync_loop (errnos : list Z) (b : SSTableBuilder) : SSTableBuilder * Status :=
  match errnos with
  | [] =>
      (tb_set_io b (mkTableEnv (env_writes (tb_env b)) [] (env_close (tb_env b)))
         (mkLogFile (contents (tb_file b)) (length (contents (tb_file b)))) (tb_error b), success)
  | errno :: errnos =>
      if errno =? EINTR then tb_sync_loop errnos b
      else tb_latchIOError "sync SSTable" errno
             (tb_set_io b (mkTableEnv (env_writes (tb_env b)) errnos (env_close (tb_env b))) (tb_file b) (tb_error b))
  end.

Definition tb_sync (b : SSTableBuilder) : SSTableBuilder * Status :=
  tb_sync_loop (env_syncs (tb_env b)) b.

(** [writeBlock]: the builder, the status and the handle. *)
Definition writeBlock (b : SSTableBuilder) (payload : bytes) : SSTableBuilder * Status * BlockHandle :=
  let block_contents := payload ++ [byte_of_Z kNoCompression] in
  let checksum := crc32c block_contents in
  let block_contents := putFixed32 block_contents checksum in
  let handle := mkBlockHandle (file_offset_ b) (len payload) in
  let '(b, status) := tb_writeAll b block_contents in
  if negb (ok status) then (b, status, handle)
  else (tb_set_offset b (wrap64 (file_offset_ b + len block_contents)), success, handle).

Definition flushDataBlock (b : SSTableBuilder) : option (SSTableBuilder * Status) :=
  if bb_empty (data_block_ b) then Some (b, success)
  else
    '(data, payload) ← bb_finish (data_block_ b);
    let b := tb_set_blocks b data (index_block_ b) in
    let '(b, status, handle) := writeBlock b payload in
    if negb (ok status) then Some (b, status)
    else
      let encoded_handle := putBlockHandle [] handle in
      index ← bb_add (index_block_ b) (tb_last_key b) encoded_handle;
      Some (tb_set_blocks b (bb_reset (data_block_ b)) index, success).

Definition tb_add (b : SSTableBuilder) (internal_key value : bytes) : option (SSTableBuilder * Status) :=
  if negb (ok (tb_error b)) then Some (b, tb_error b)
  else
    _ ← assert_that (bool_decide (tb_state b = kBuilding));
    match parseInternalKey internal_key with
    | None => Some (b, invalidArgument "invalid SSTable internal key")
    | Some parsed =>
        _ ← assert_that ((tb_entry_count b =? 0) || InternalKeyLess (tb_last_key b) internal_key);
        data ← bb_add (data_block_ b) internal_key value;
        let b := tb_set_entry b data (bloom_add (bloom_filter_ b) (user_key parsed))
                   (tb_entry_count b + 1)
                   (if tb_entry_count b =? 0 then internal_key else first_key_ b) internal_key in
        if block_size_ b <=? currentSizeEstimate (data_block_ b) then flushDataBlock b
        else Some (b, success)
    end.

Definition estimatedFileSize (b : SSTableBuilder) : Z :=
  wrap64 (file_offset_ b + currentSizeEstimate (data_block_ b)).

Definition tb_close (b : SSTableBuilder) : SSTableBuilder * Status :=
  let b := tb_set_state b (tb_unlinked b) false (tb_state b) in
  match env_close (tb_env b) with
  | Some errno => tb_latchIOError "close SSTable" errno b
  | None => (b, success)
  end.

Definition tb_finish (b : SSTableBuilder) : option (SSTableBuilder * result SSTableMeta) :=
  if negb (ok (tb_error b)) then Some (b, Err (tb_error b))
  else
    _ ← assert_that (bool_decide (tb_state b = kBuilding));
    '(b, status) ← flushDataBlock b;
    if negb (ok status) then Some (b, Err status)
    else
      let '(b, status, filter_handle) := writeBlock b (bloom_finish (bloom_filter_ b)) in
      if negb (ok status) then Some (b, Err status)
      else
        '(index, payload) ← bb_finish (index_block_ b);
        let b := tb_set_blocks b (data_block_ b) index in
        let '(b, status, index_handle) := writeBlock b payload in
        if negb (ok status) then Some (b, Err status)
        else
          let footer := putSSTableFooter [] filter_handle index_handle in
          let '(b, status) := tb_writeAll b footer in
          if negb (ok status) then Some (b, Err status)
          else
            let b := tb_set_offset b (wrap64 (file_offset_ b + len footer)) in
            let '(b, status) := tb_sync b in
            if negb (ok status) then Some (b, Err status)
            else
              let '(b, status) := tb_close b in
              if negb (ok status) then Some (b, Err status)
              else
                Some (tb_set_state b (tb_unlinked b) (tb_open b) kFinished,
                      Ok (mkSSTableMeta (file_offset_ b) (tb_entry_count b) (first_key_ b) (tb_last_key b))).

Definition abandon (b : SSTableBuilder) : SSTableBuilder :=
  match tb_state b with
  | kBuilding => tb_set_state b true false kAbandoned
  | _ => b
  end.

(** Adding a run of entries the way [flushMemTable] and compaction do: stop at
    the first failing [add], else [finish]. *)
Fixpoint tb_add_all (es : list entry) (b : SSTableBuilder) : option (SSTableBuilder * Status) :=
  match es with
  | [] => Some (b, success)
  | e :: es =>
      '(b, status) ← tb_add b e.1 e.2;
      if negb (ok status) then Some (b, status) else tb_add_all es b
  end.

Definition build_table (es : list entry) (b : SSTableBuilder) :
    option (SSTableBuilder * result SSTableMeta) :=
  '(b, status) ← tb_add_all es b;
  if negb (ok status) then Some (b, Err status) else tb_finish b.

End builder.

(** ** The builder's file in its directory *)

(** [SSTableBuilderOptions] and [BlockBuilderOptions] by default. *)
Definition default_block_size : Z := 4 * 1024.
Definition default_restart_interval : Z := 16.

(** [::open] with [O_CREAT | O_EXCL]: [answer] is an errno of the system's own. *)
Definition create_errno (answer : option Z) (path : string) (fs : Directory) : option Z :=
  match answer with
  | Some errno => Some errno
  | None => match fs !! path with Some _ => Some EEXIST | None => None end
  end.

Definition tb_open_at (strerror : Z -> string) (block_size restart_interval : Z) (answer : option Z) (env : TableEnv)
    (path : string) (fs : Directory) : option (Directory * result SSTableBuilder) :=
  r ← tb_open_file strerror path block_size restart_interval (create_errno answer path fs) env;
  Some (match r with
        | Ok b => (<[path := tb_file b]> fs, Ok b)
        | Err status => (fs, Err status)
        end).
Definition tb_open_default (strerror : Z -> string) := tb_open_at strerror default_block_size default_restart_interval.

(** Destroying the builder: what it has written stays in the directory, unless
    it was not finished and the [::unlink] of [abandon] takes effect.  While the
    builder lives, its own [tb_file] is the content of the file. *)
Definition tb_destroy (effective : string -> bool) (b : SSTableBuilder) (fs : Directory) : Directory :=
  let path := tb_path b in
  let b := abandon b in
  let fs := <[path := tb_file b]> fs in
  if tb_unlinked b then fs_unlink (effective path) path fs else fs.

(** ** The layout of a table file *)

(** A data block: its entries and its bytes. *)
Notation dblock := (list entry * bytes)%type.

Definition data_bytes (blocks : list dblock) : bytes := concat (map (fun b : dblock => framed b.2) blocks).

Fixpoint final_key_from (k : bytes) (es : list entry) : bytes :=
  match es with [] => k | e :: es => final_key_from e.1 es end.
Definition final_key (es : list entry) : bytes := final_key_from [] es.

(** The index: for each block its last key and its handle. *)
Fixpoint index_entries (offset : Z) (blocks : list dblock) : list entry :=
  match blocks with
  | [] => []
  | b :: blocks =>
      (final_key b.1, handle_bytes (mkBlockHandle offset (len b.2))) ::
      index_entries (offset + len (framed b.2)) blocks
  end.

Definition block_ok (b : dblock) : Prop := b.1 <> [] /\ block_of b.1 b.2.

Definition filter_covers (filter : bytes) (es : list entry) : Prop :=
  forall e p, e ∈ es -> parseInternalKey e.1 = Some p -> bloomFilterMayContain (user_key p) filter = true.

Definition table_bytes (blocks : list dblock) (filter idx : bytes) : bytes :=
  data_bytes blocks ++ framed filter ++ framed idx ++
  footer_bytes (mkBlockHandle (len (data_bytes blocks)) (len filter))
    (mkBlockHandle (len (data_bytes blocks) + len (framed filter)) (len idx)).

(** What a finished table file holding [es] looks like. *)
Definition table_of (es : list entry) (file : bytes) : Prop :=
  exists blocks filter idx,
    es = concat (map fst blocks) /\ Forall block_ok blocks /\ filter_covers filter es /\
    block_of (index_entries 0 blocks) idx /\ file = table_bytes blocks filter idx /\
    len file <= kUint64Max.

(** ** Layout lemmas *)

Lemma final_key_snoc es k v : final_key (es ++ [(k, v)]) = k.
Proof. unfold final_key. generalize (@nil byte) as d. induction es as [|e es IH]; intros d; simpl; auto. Qed.

Lemma final_key_from_app d es es' : final_key_from d (es ++ es') = final_key_from (final_key_from d es) es'.
Proof. revert d. induction es as [|e es IH]; intros d; simpl; auto. Qed.

Lemma final_key_nonempty d d' es : es <> [] -> final_key_from d es = final_key_from d' es.
Proof. by destruct es. Qed.

Lemma final_key_app_r es es' : es' <> [] -> final_key (es ++ es') = final_key es'.
Proof. intros. unfold final_key. rewrite final_key_from_app. by apply final_key_nonempty. Qed.

Lemma data_bytes_app a b : data_bytes (a ++ b) = data_bytes a ++ data_bytes b.
Proof. unfold data_bytes. by rewrite map_app, concat_app. Qed.

Lemma index_entries_app offset a b :
  index_entries offset (a ++ b) = index_entries offset a ++ index_entries (offset + len (data_bytes a)) b.
Proof.
  revert offset. induction a as [|x a IH]; intros offset; simpl.
  - change (len (data_bytes [])) with 0. by rewrite Z.add_0_r.
  - rewrite IH. unfold data_bytes. simpl. len_norm. by rewrite Z.add_assoc.
Qed.

Lemma entries_room_app a b : entries_room (a ++ b) = entries_room a + entries_room b.
Proof.
  induction a as [|x a IH]; [done|]. change (entries_room ((x :: a) ++ b)) with (entry_room x.1 x.2 + entries_room (a ++ b)).
  change (entries_room (x :: a)) with (entry_room x.1 x.2 + entries_room a). lia.
Qed.

Lemma entries_room_cons x a : entries_room (x :: a) = entry_room x.1 x.2 + entries_room a.
Proof. done. Qed.

Lemma entries_room_min es : 12 * len es <= entries_room es.
Proof. induction es as [|x es IH]; [done|]. rewrite entries_room_cons. unfold entry_room. llia. Qed.

Lemma items_room prev items :
  linked prev items -> len (items_bytes items) <= entries_room (map snd items).
Proof.
  revert prev. induction items as [|[sh [k v]] items IH]; intros prev; [done|].
  intros (_ & Hk & _ & Hl). apply IH in Hl. rewrite items_bytes_cons. simpl map. rewrite entries_room_cons.
  len_norm. rewrite len_item_bytes by done. unfold entry_room. simpl. lia.
Qed.

Lemma bb_inv_room b es items : bb_inv b es items -> len (items_bytes items) <= entries_room es.
Proof.
  intros H. destruct (bbi_layout _ _ _ H). rewrite <- bl_entries. by apply items_room with [].
Qed.

(** The room an entry may take in a table: in a data block and in the index. *)
Definition table_room (es : list entry) : Z :=
  entries_room es + foldr (fun (e : entry) n => 28 + len e.1 + n) 0 es.

#[global] Arguments table_room : simpl never.

Lemma table_room_cons x es : table_room (x :: es) = entry_room x.1 x.2 + 28 + len x.1 + table_room es.
Proof. unfold table_room. rewrite entries_room_cons. simpl. lia. Qed.

Lemma table_room_app a b : table_room (a ++ b) = table_room a + table_room b.
Proof. induction a as [|x a IH]; [done|]. rewrite <- app_comm_cons, !table_room_cons. lia. Qed.

Lemma table_room_ge es : entries_room es + 28 * len es + len (final_key es) <= table_room es.
Proof.
  unfold final_key. assert (forall d, entries_room es + 28 * len es + len (final_key_from d es) <= table_room es + len d) as H.
  { induction es as [|x es IH]; intros d; [simpl; unfold table_room; simpl; llia|].
    rewrite table_room_cons, entries_room_cons. simpl. specialize (IH x.1). len_norm. pose proof (len_nonneg d). lia. }
  specialize (H []). by rewrite len_nil, Z.add_0_r in H.
Qed.

Lemma index_room offset blocks :
  Forall block_ok blocks ->
  entries_room (index_entries offset blocks) + entries_room (concat (map fst blocks)) <=
  table_room (concat (map fst blocks)).
Proof.
  intros Hb. revert offset. induction Hb as [|[bes b] blocks [Hne _] Hb IH]; intros offset; [done|].
  simpl. rewrite entries_room_cons, table_room_app, entries_room_app. simpl fst; simpl snd.
  specialize (IH (offset + len (framed b))). pose proof (table_room_ge bes).
  assert (1 <= len bes). { destruct bes; [done|]. llia. }
  unfold entry_room at 1. rewrite len_handle_bytes. simpl in *. lia.
Qed.

(** ** I/O *)

Definition env_benign (env : TableEnv) : Prop :=
  Forall benign_write (env_writes env) /\ Forall (fun errno => errno = EINTR) (env_syncs env) /\
  env_close env = None.

Section io.
Context (strerror : Z -> string).

(** [data] has been appended to the builder's file, and nothing else changed. *)
Definition appended (b b' : SSTableBuilder) (data : bytes) : Prop :=
  exists env, b' = tb_set_io b env (mkLogFile (contents (tb_file b) ++ data) (durable (tb_file b))) (tb_error b) /\
    (env_benign (tb_env b) -> env_benign env).

Lemma appended_trans b b1 b2 d1 d2 : appended b b1 d1 -> appended b1 b2 d2 -> appended b b2 (d1 ++ d2).
Proof. intros (e1 & -> & H1) (e2 & -> & H2). exists e2. simpl in *. rewrite <- app_assoc. auto. Qed.

Lemma latch_fails op errno b b' st :
  tb_latchIOError strerror op errno b = (b', st) -> ok (tb_error b) = true -> ok st = false.
Proof. unfold tb_latchIOError. intros H Hok. rewrite Hok in H. by simplify_eq. Qed.

Lemma tb_append_appended b evs data :
  (env_benign (tb_env b) -> Forall benign_write evs) -> appended b (tb_append b evs data) data.
Proof.
  intros H. eexists. split; [done|]. intros Hb. pose proof (H Hb). destruct Hb as (_ & ? & ?). done.
Qed.

Lemma tb_writeAll_loop_spec evs : forall b data b' st,
  tb_writeAll_loop strerror evs b data = (b', st) -> ok (tb_error b) = true ->
  (env_benign (tb_env b) -> Forall benign_write evs) ->
  (st = success /\ appended b b' data) \/ (ok st = false /\ ~ env_benign (tb_env b)).
Proof.
  induction evs as [|ev evs IH]; intros b data b' st; simpl.
  - case_bool_decide as Hd; intros; simplify_eq; left; split; try done; by apply tb_append_appended.
  - case_bool_decide as Hd; [intros; simplify_eq; left; split; [done|]; by apply tb_append_appended|].
    destruct ev as [n|errno].
    + destruct (Z.ltb_spec 0 n); intros Hw Hok Hb.
      * assert (env_benign (tb_env b) -> Forall benign_write evs) as Hb'
          by (intros ?; by apply Forall_cons_iff in Hb as [_ ?]).
        pose proof (tb_append_appended b evs (take (Z.to_nat n) data) Hb') as Ha.
        apply IH in Hw; [|done|by intros (? & _)]. destruct Hw as [[-> Ha']|[? Hn]].
        -- left. split; [done|]. rewrite <- (take_drop (Z.to_nat n) data). by apply appended_trans with (1 := Ha).
        -- right. split; [done|]. intros Hbn. apply Hn. destruct Ha as (env & -> & He). auto.
      * right. split; [by apply latch_fails in Hw|]. intros Hbn%Hb. apply Forall_cons_iff in Hbn as [? _]. simpl in *. lia.
    + destruct (Z.eqb_spec errno EINTR) as [->|]; intros Hw Hok Hb.
      * apply IH in Hw; [done|done|]. intros Hbn%Hb. by apply Forall_cons_iff in Hbn as [_ ?].
      * right. split; [by apply latch_fails in Hw|]. intros Hbn%Hb. by apply Forall_cons_iff in Hbn as [? _].
Qed.

Lemma tb_writeAll_spec b data b' st :
  tb_writeAll strerror b data = (b', st) -> ok (tb_error b) = true ->
  (st = success /\ appended b b' data) \/ (ok st = false /\ ~ env_benign (tb_env b)).
Proof. intros H Hok. eapply tb_writeAll_loop_spec; [exact H|done|]. by intros (? & _). Qed.

Lemma tb_sync_loop_spec errnos : forall b b' st,
  tb_sync_loop strerror errnos b = (b', st) -> ok (tb_error b) = true ->
  (st = success /\ exists env, b' = tb_set_io b env
      (mkLogFile (contents (tb_file b)) (length (contents (tb_file b)))) (tb_error b) /\
      env_close env = env_close (tb_env b)) \/
  (ok st = false /\ ~ Forall (fun errno => errno = EINTR) errnos).
Proof.
  induction errnos as [|errno errnos IH]; intros b b' st; simpl.
  - intros; simplify_eq. left. split; [done|]. by eexists.
  - destruct (Z.eqb_spec errno EINTR) as [->|]; intros Hs Hok.
    + apply IH in Hs as [|[? Hn]]; [by left| |done]. right. split; [done|].
      intros Hf. by apply Forall_cons_iff in Hf as [_ ?].
    + right. split; [by apply latch_fails in Hs|]. intros Hf. by apply Forall_cons_iff in Hf as [? _].
Qed.

Lemma writeBlock_spec b payload b' st h :
  writeBlock strerror b payload = (b', st, h) -> ok (tb_error b) = true ->
  file_offset_ b = len (contents (tb_file b)) -> len (contents (tb_file b)) + len (framed payload) <= kUint64Max ->
  (st = success /\ h = mkBlockHandle (len (contents (tb_file b))) (len payload) /\
   exists b1, appended b b1 (framed payload) /\ b' = tb_set_offset b1 (len (contents (tb_file b1)))) \/
  (ok st = false /\ ~ env_benign (tb_env b)).
Proof.
  unfold writeBlock. rewrite putFixed32_le_bytes. intros Hw Hok Hoff Hlen.
  rewrite <- app_assoc in Hw. fold (framed payload) in Hw.
  destruct (tb_writeAll strerror b (framed payload)) as [b1 st1] eqn:Hwa.
  apply tb_writeAll_spec in Hwa as [[-> Ha]|[Hst Hn]]; [| |done].
  - left. change (negb (ok success)) with false in Hw. cbn iota in Hw. simplify_eq.
    split_and!; [done|by rewrite Hoff|]. exists b1. split; [done|]. destruct Ha as (env & -> & _). simpl.
    rewrite Hoff, len_app. rewrite wrap64_small; [done|]. pose proof (len_nonneg (contents (tb_file b))).
    pose proof (len_nonneg (framed payload)). lia.
  - right. rewrite Hst in Hw. by simplify_eq/=.
Qed.

(** ** The builder's invariant *)

Definition user_keys (es : list entry) : list bytes :=
  omap (fun e : entry => option_map user_key (parseInternalKey e.1)) es.

(** [blocks] are on file, [cur] is in the open data block. *)
Record tb_inv (b : SSTableBuilder) (blocks : list dblock) (cur : list entry) : Prop := {
  ti_blocks : Forall block_ok blocks;
  ti_file : contents (tb_file b) = data_bytes blocks;
  ti_offset : file_offset_ b = len (data_bytes blocks);
  ti_data : exists items, bb_inv (data_block_ b) cur items;
  ti_index : exists items, bb_inv (index_block_ b) (index_entries 0 blocks) items;
  ti_bloom : bloom_filter_ b = map bloomHash (user_keys (concat (map fst blocks) ++ cur));
  ti_error : tb_error b = success;
  ti_state : tb_state b = kBuilding;
  ti_count : tb_entry_count b = len (concat (map fst blocks) ++ cur);
  ti_first : first_key_ b = match concat (map fst blocks) ++ cur with e :: _ => e.1 | [] => [] end;
  ti_last : tb_last_key b = final_key (concat (map fst blocks) ++ cur);
  ti_size : len (data_bytes blocks) <= 3 * entries_room (concat (map fst blocks));
}.

Lemma index_entries_len offset blocks : len (index_entries offset blocks) = len blocks.
Proof. revert offset. induction blocks as [|b bs IH]; intros o; simpl; [done|]. len_norm. by rewrite IH. Qed.

(** The size of a finished block. *)
Lemma layout_size b es items :
  bb_inv b es items -> len (framed (layout_bytes items (restarts_ b))) <= entries_room es + 4 * len es + 13.
Proof.
  intros H. rewrite len_framed. unfold layout_bytes, kBlockTrailerSize. len_norm.
  assert (forall offsets, len (concat (map (le_bytes 4) offsets)) = 4 * len offsets) as E
    by (induction offsets as [|o offsets IH]; [done|]; simpl; len_norm; lia).
  rewrite E. pose proof (bbi_restarts _ _ _ H). pose proof (bb_inv_room _ _ _ H). lia.
Qed.

Lemma flush_handle_room blocks cur payload offset :
  Forall block_ok blocks -> cur <> [] -> block_of cur payload ->
  table_room (concat (map fst blocks) ++ cur) <= kUint32Max ->
  entries_room (index_entries 0 blocks) +
    entry_room (final_key (concat (map fst blocks) ++ cur)) (putBlockHandle [] (mkBlockHandle offset (len payload))) <= kUint32Max.
Proof.
  intros Hb Hne Hpay Hroom. pose proof (index_room 0 (blocks ++ [(cur, payload)])) as Hi.
  rewrite index_entries_app, entries_room_app, map_app, concat_app in Hi. simpl in Hi.
  rewrite app_nil_r, entries_room_app, entries_room_cons in Hi. simpl in Hi.
  rewrite final_key_app_r by done. rewrite putBlockHandle_eq. simpl.
  pose proof (entries_room_nonneg (concat (map fst blocks))). pose proof (entries_room_nonneg cur).
  assert (Forall block_ok (blocks ++ [(cur, payload)])) as Hf by (apply Forall_app; split; [done|]; by repeat constructor).
  specialize (Hi Hf). unfold entry_room in *. rewrite len_handle_bytes in *. change (entries_room []) with 0 in Hi. lia.
Qed.

Lemma flush_commit b blocks cur items data b1 :
  tb_inv b blocks cur -> bb_inv (data_block_ b) cur items -> bb_reset data = bb_reset (data_block_ b) ->
  let payload := layout_bytes items (restarts_ (data_block_ b)) in
  appended (tb_set_blocks b data (index_block_ b)) b1 (framed payload) -> cur <> [] ->
  table_room (concat (map fst blocks) ++ cur) <= kUint32Max ->
  let b2 := tb_set_offset b1 (len (contents (tb_file b1))) in
  exists index,
    bb_add (index_block_ b2) (tb_last_key b2)
      (putBlockHandle [] (mkBlockHandle (len (data_bytes blocks)) (len payload))) = Some index /\
    tb_inv (tb_set_blocks b2 (bb_reset (data_block_ b2)) index) (blocks ++ [(cur, payload)]) [].
Proof.
  intros H Hd Hreset payload (env & -> & _) Hne Hroom b2. simpl in b2. destruct (ti_index _ _ _ H) as [iitems Hix].
  assert (block_of cur payload) as Hpay.
  { exists items, (restarts_ (data_block_ b)). split; [apply (bbi_layout _ _ _ Hd)|done]. }
  pose proof (flush_handle_room blocks cur payload (len (data_bytes blocks)) (ti_blocks _ _ _ H) Hne Hpay Hroom) as Hir.
  rewrite <- (ti_last _ _ _ H) in Hir.
  destruct (bb_add_inv (index_block_ b) _ iitems (tb_last_key b)
    (putBlockHandle [] (mkBlockHandle (len (data_bytes blocks)) (len payload))) Hix) as (index & sh & Hadd & Hinv & _).
  { pose proof (bb_inv_room _ _ _ Hix). lia. }
  exists index. split; [exact Hadd|].
  assert (concat (map fst (blocks ++ [(cur, payload)])) = concat (map fst blocks) ++ cur) as Hc
    by (rewrite map_app, concat_app; simpl; by rewrite app_nil_r).
  assert (data_bytes (blocks ++ [(cur, payload)]) = data_bytes blocks ++ framed payload) as Hdb
    by (rewrite data_bytes_app; unfold data_bytes at 2; simpl; by rewrite app_nil_r).
  destruct H as [Hb Hf Ho _ _ Hbl He Hst Hct Hfi Hla Hs].
  split; unfold b2; simpl; rewrite ?Hc, ?Hdb, ?Hf, ?app_nil_r; try done.
  - apply Forall_app. split; [done|]. by repeat constructor.
  - exists []. rewrite Hreset. by apply bb_inv_reset with cur items.
  - exists (iitems ++ [(sh, (tb_last_key b, putBlockHandle [] (mkBlockHandle (len (data_bytes blocks)) (len payload))))]).
    rewrite index_entries_app. simpl. rewrite Hla, putBlockHandle_eq in *. simpl in *.
    by rewrite final_key_app_r in * by done.
  - rewrite entries_room_app. pose proof (layout_size _ _ _ Hd) as Hsz. fold payload in Hsz. len_norm.
    pose proof (entries_room_min cur). assert (1 <= len cur) by (destruct cur; [done|llia]). lia.
Qed.

Lemma flushDataBlock_inv b blocks cur :
  tb_inv b blocks cur -> table_room (concat (map fst blocks) ++ cur) <= kUint32Max ->
  exists b' st, flushDataBlock strerror b = Some (b', st) /\
    ((st = success /\ (env_benign (tb_env b) -> env_benign (tb_env b')) /\
      exists blocks', tb_inv b' blocks' [] /\ concat (map fst blocks') = concat (map fst blocks) ++ cur) \/
     (ok st = false /\ ~ env_benign (tb_env b))).
Proof.
  intros H Hroom. destruct (ti_data _ _ _ H) as [items Hd]. destruct (ti_index _ _ _ H) as [iitems Hix].
  unfold flushDataBlock, bb_empty. rewrite (bbi_count _ _ _ Hd).
  destruct (Z.eqb_spec (len cur) 0) as [E|E].
  { exists b, success. split; [done|]. left. apply len_zero in E as ->. split_and!; [done..|].
    exists blocks. by rewrite app_nil_r. }
  assert (cur <> []) as Hne by (intros ->; done).
  destruct (bb_finish_block _ _ _ Hd) as (data & -> & Hreset). cbn [mbind option_bind].
  set (payload := layout_bytes items (restarts_ (data_block_ b))).
  assert (block_of cur payload) as Hpay by (exists items, (restarts_ (data_block_ b)); split; [apply (bbi_layout _ _ _ Hd)|done]).
  set (b1 := tb_set_blocks b data (index_block_ b)).
  destruct (writeBlock strerror b1 payload) as [[b2 st] h] eqn:Hw.
  pose proof (entries_room_min cur). pose proof (layout_size _ _ _ Hd) as Hsz. fold payload in Hsz.
  assert (1 <= len cur) by (pose proof (len_nonneg cur); lia).
  pose proof (table_room_ge (concat (map fst blocks) ++ cur)) as Htr. rewrite entries_room_app in Htr.
  pose proof (ti_size _ _ _ H) as Hts. pose proof (len_nonneg (final_key (concat (map fst blocks) ++ cur))).
  pose proof (len_nonneg (concat (map fst blocks) ++ cur)). pose proof (entries_room_nonneg (concat (map fst blocks))).
  apply writeBlock_spec in Hw; simpl.
  - destruct Hw as [(-> & -> & b' & Ha & ->)|[Hst Hn]].
    + destruct (flush_commit b blocks cur items data b' H Hd Hreset Ha Hne Hroom) as (index & Hadd & Hinv).
      fold payload in Hadd, Hinv. change (negb (ok success)) with false. cbn iota zeta.
      assert (contents (tb_file b1) = data_bytes blocks) as -> by apply (ti_file _ _ _ H). rewrite Hadd. cbn [mbind option_bind]. eexists _, _. split; [done|]. left. split_and!; [done| |].
      * destruct Ha as (env & -> & He). exact He.
      * exists (blocks ++ [(cur, payload)]). split; [exact Hinv|].
        rewrite map_app, concat_app. simpl. by rewrite app_nil_r.
    + rewrite Hst. cbn [negb]. eexists _, _. split; [done|]. by right.
  - by rewrite (ti_error _ _ _ H).
  - by rewrite (ti_offset _ _ _ H), (ti_file _ _ _ H).
  - rewrite (ti_file _ _ _ H). unfold kUint32Max, kUint64Max in *. lia.
Qed.

Lemma final_key_in es : es <> [] -> exists v, (final_key es, v) ∈ es.
Proof.
  intros Hne. destruct (exists_last Hne) as (es' & [k v] & ->). exists v. rewrite final_key_snoc. set_solver.
Qed.

Lemma tb_add_inv b blocks cur k v :
  tb_inv b blocks cur -> sorted_run ((concat (map fst blocks) ++ cur) ++ [(k, v)]) ->
  table_room ((concat (map fst blocks) ++ cur) ++ [(k, v)]) <= kUint32Max ->
  exists b' st, tb_add strerror b k v = Some (b', st) /\
    ((st = success /\ (env_benign (tb_env b) -> env_benign (tb_env b')) /\
      exists blocks' cur', tb_inv b' blocks' cur' /\
        concat (map fst blocks') ++ cur' = (concat (map fst blocks) ++ cur) ++ [(k, v)]) \/
     (ok st = false /\ ~ env_benign (tb_env b))).
Proof.
  intros H Hrun Hroom. destruct (ti_data _ _ _ H) as [items Hd]. set (all := concat (map fst blocks) ++ cur) in *.
  pose proof Hrun as [_ Hval]. apply Forall_app in Hval as [_ Hval]. apply Forall_cons_iff in Hval as [[p Hp] _]. simpl in Hp.
  unfold tb_add. rewrite (ti_error _ _ _ H), (ti_state _ _ _ H), Hp. simpl (negb _). cbn iota.
  unfold assert_that at 1. rewrite bool_decide_true by done. cbn [mbind option_bind].
  assert (((tb_entry_count b =? 0) || InternalKeyLess (tb_last_key b) k) = true) as Hord.
  { rewrite (ti_count _ _ _ H), (ti_last _ _ _ H). fold all. destruct (Z.eqb_spec (len all) 0) as [|Hne]; [done|].
    destruct (final_key_in all) as [w Hw]; [intros E; by rewrite E in Hne|].
    apply sorted_run_app in Hrun as (_ & _ & Hlt). apply (Hlt _ (k, v) Hw). set_solver. }
  unfold assert_that. rewrite Hord. cbn [mbind option_bind]. pose proof (bb_inv_room _ _ _ Hd) as Hcr.
  pose proof (table_room_ge (all ++ [(k, v)])) as Htr. unfold all in Htr at 1. rewrite !entries_room_app, entries_room_cons in Htr.
  change (entries_room []) with 0 in Htr. simpl in Htr. pose proof (entries_room_nonneg (concat (map fst blocks))).
  pose proof (len_nonneg (final_key (all ++ [(k, v)]))). pose proof (len_nonneg (all ++ [(k, v)])).
  destruct (bb_add_inv (data_block_ b) cur items k v Hd) as (data & sh & -> & Hd' & _); [lia|]. cbn [mbind option_bind].
  set (b1 := tb_set_entry _ _ _ _ _ _).
  assert (tb_inv b1 blocks (cur ++ [(k, v)])) as Hinv.
  { destruct H as [Hb Hf Ho _ Hix Hbl He Hst Hct Hfi Hla Hs]. unfold b1.
    split; simpl; try done; rewrite ?app_assoc; fold all; fold all in Hbl, Hct, Hfi, Hla.
    - eauto.
    - unfold bloom_add. rewrite Hbl. unfold user_keys. rewrite omap_app, map_app. simpl. by rewrite Hp.
    - rewrite Hct. llia.
    - rewrite Hct, Hfi. destruct all as [|e all']; [done|]. destruct (Z.eqb_spec (len (e :: all')) 0); [|done]. llia.
    - by rewrite final_key_snoc. }
  assert (concat (map fst blocks) ++ (cur ++ [(k, v)]) = all ++ [(k, v)]) as Hall by (unfold all; by rewrite app_assoc).
  destruct (_ <=? _).
  - destruct (flushDataBlock_inv b1 blocks _ Hinv) as (b' & st & -> & Hc); [by rewrite Hall|].
    exists b', st. split; [done|]. destruct Hc as [(-> & Hbn & blocks' & Hi & He)|]; [left|by right].
    split_and!; [done..|]. exists blocks', []. by rewrite app_nil_r, He, Hall.
  - exists b1, success. split; [done|]. left. split_and!; [done..|]. eauto.
Qed.

Lemma tb_add_all_inv es : forall b blocks cur,
  tb_inv b blocks cur -> sorted_run ((concat (map fst blocks) ++ cur) ++ es) ->
  table_room ((concat (map fst blocks) ++ cur) ++ es) <= kUint32Max ->
  exists b' st, tb_add_all strerror es b = Some (b', st) /\
    ((st = success /\ (env_benign (tb_env b) -> env_benign (tb_env b')) /\
      exists blocks' cur', tb_inv b' blocks' cur' /\
        concat (map fst blocks') ++ cur' = (concat (map fst blocks) ++ cur) ++ es) \/
     (ok st = false /\ ~ env_benign (tb_env b))).
Proof.
  induction es as [|[k v] es IH]; intros b blocks cur H Hrun Hroom.
  { exists b, success. split; [done|]. left. rewrite app_nil_r. eauto 6. }
  replace ((concat (map fst blocks) ++ cur) ++ (k, v) :: es) with
    (((concat (map fst blocks) ++ cur) ++ [(k, v)]) ++ es) in * by (by rewrite <- (app_assoc _ [(k, v)] es)).
  destruct (tb_add_inv b blocks cur k v H) as (b1 & st & Hadd & Hc).
  { by apply sorted_run_app in Hrun as (? & _). }
  { rewrite table_room_app in Hroom. pose proof (table_room_ge es). pose proof (entries_room_nonneg es).
    pose proof (len_nonneg es). pose proof (len_nonneg (final_key es)). lia. }
  cbn [tb_add_all fst snd]. rewrite Hadd. cbn [mbind option_bind].
  destruct Hc as [(-> & Hbn & blocks' & cur' & Hi & He)|[Hst Hn]].
  - simpl (negb _). cbn iota. rewrite <- He in *. destruct (IH b1 blocks' cur' Hi Hrun Hroom) as (b' & st & -> & Hc).
    exists b', st. split; [done|]. destruct Hc as [(-> & ? & ?)|[? ?]]; [left|right]; eauto.
  - rewrite Hst. cbn [negb]. exists b1, st. split; [done|]. by right.
Qed.

Lemma user_keys_in es e p : e ∈ es -> parseInternalKey e.1 = Some p -> user_key p ∈ user_keys es.
Proof. intros He Hp. unfold user_keys. apply list_elem_of_omap. exists e. by rewrite Hp. Qed.

Lemma len_user_keys es : len (user_keys es) <= len es.
Proof.
  induction es as [|e es IH]; [done|].
  assert (user_keys (e :: es) = match parseInternalKey e.1 with Some p => user_key p :: user_keys es | None => user_keys es end) as ->
    by (unfold user_keys; simpl; by destruct (parseInternalKey e.1)).
  destruct (parseInternalKey e.1); llia.
Qed.

(** What [finish] promises: the finished builder and its metadata. *)
Definition finished (es : list entry) (b : SSTableBuilder) (meta : SSTableMeta) : Prop :=
  table_of es (contents (tb_file b)) /\ durable (tb_file b) = length (contents (tb_file b)) /\
  tb_state b = kFinished /\ tb_open b = false /\
  meta = mkSSTableMeta (len (contents (tb_file b))) (len es)
           (match es with e :: _ => e.1 | [] => [] end) (final_key es).

Lemma finish_sizes b blocks iitems :
  tb_inv b blocks [] -> bb_inv (index_block_ b) (index_entries 0 blocks) iitems ->
  table_room (concat (map fst blocks)) <= kUint32Max ->
  len (data_bytes blocks) + len (framed (bloom_finish (bloom_filter_ b))) +
    len (framed (layout_bytes iitems (restarts_ (index_block_ b)))) + kSSTableFooterSize <= kUint64Max.
Proof.
  intros H Hix Hroom. pose proof (ti_size _ _ _ H). pose proof (layout_size _ _ _ Hix) as Hli.
  rewrite (ti_bloom _ _ _ H), app_nil_r. unfold bloom_finish. rewrite (len_framed (buildFilter _)).
  pose proof (len_buildFilter (map bloomHash (user_keys (concat (map fst blocks))))) as Hbf.
  replace (len (map bloomHash (user_keys (concat (map fst blocks))))) with (len (user_keys (concat (map fst blocks)))) in Hbf
    by (unfold len; by rewrite length_map).
  pose proof (len_user_keys (concat (map fst blocks))). pose proof (table_room_ge (concat (map fst blocks))).
  pose proof (entries_room_min (concat (map fst blocks))). pose proof (index_room 0 blocks (ti_blocks _ _ _ H)).
  pose proof (entries_room_min (index_entries 0 blocks)). rewrite index_entries_len in *.
  pose proof (len_nonneg (final_key (concat (map fst blocks)))). pose proof (entries_room_nonneg (concat (map fst blocks))).
  pose proof (entries_room_nonneg (index_entries 0 blocks)). pose proof (len_nonneg blocks).
  pose proof (len_nonneg (concat (map fst blocks))).
  unfold kBlockTrailerSize, kUint32Max, kUint64Max in *. change kSSTableFooterSize with 48. lia.
Qed.

Lemma tb_sync_spec b b' st :
  tb_sync strerror b = (b', st) -> ok (tb_error b) = true ->
  (st = success /\ exists env, b' = tb_set_io b env
      (mkLogFile (contents (tb_file b)) (length (contents (tb_file b)))) (tb_error b) /\
      env_close env = env_close (tb_env b)) \/
  (ok st = false /\ ~ env_benign (tb_env b)).
Proof.
  intros Hs Hok. apply tb_sync_loop_spec in Hs as [|[? Hn]]; [by left| |done].
  right. split; [done|]. by intros (_ & ? & _).
Qed.

Ltac fail_case H :=
  rewrite H; cbn [negb]; eexists _, _; split; [done|]; right; eexists; split_and!; [done|done|tauto].

Lemma tb_finish_inv b blocks cur :
  tb_inv b blocks cur -> table_room (concat (map fst blocks) ++ cur) <= kUint32Max ->
  exists b' res, tb_finish strerror b = Some (b', res) /\
    ((exists meta, res = Ok meta /\ finished (concat (map fst blocks) ++ cur) b' meta) \/
     (exists st, res = Err st /\ ok st = false /\ ~ env_benign (tb_env b))).
Proof.
  intros H Hroom. unfold tb_finish. rewrite (ti_error _ _ _ H), (ti_state _ _ _ H).
  simpl (negb _). cbn iota. unfold assert_that. rewrite bool_decide_true by done. cbn [mbind option_bind].
  destruct (flushDataBlock_inv b blocks cur H Hroom) as (b1 & st & -> & Hc). cbn [mbind option_bind].
  destruct Hc as [(-> & Hbn & blocks' & Hi & Hall)|[Hst1 Hn]]; [rewrite <- Hall in *|fail_case Hst1].
  simpl (negb _). cbn iota. clear H. destruct (ti_index _ _ _ Hi) as [iitems Hix].
  pose proof (finish_sizes b1 blocks' iitems Hi Hix Hroom) as Hsz. destruct Hi as [Hb Hf Ho _ _ Hbl He Hst Hct Hfi Hla _].
  rewrite app_nil_r in *. pose proof (len_nonneg (framed (layout_bytes iitems (restarts_ (index_block_ b1))))).
  change kSSTableFooterSize with 48 in Hsz.
  set (filter := bloom_finish (bloom_filter_ b1)) in *.
  destruct (writeBlock strerror b1 filter) as [[b2 st2] fh] eqn:Hw2.
  destruct (writeBlock_spec _ _ _ _ _ Hw2) as [(-> & -> & c2 & (env2 & -> & Hn2) & ->)|[Hst2 Hn2]];
    [by rewrite He|by rewrite Ho, Hf|rewrite Hf; lia| |fail_case Hst2].
  simpl (negb _). cbn iota. simpl index_block_.
  destruct (bb_finish_block _ _ _ Hix) as (index & -> & _). cbn [mbind option_bind].
  set (idx := layout_bytes iitems (restarts_ (index_block_ b1))) in *.
  match goal with |- context [writeBlock strerror ?b idx] => destruct (writeBlock strerror b idx) as [[b3 st3] ih] eqn:Hw3 end.
  destruct (writeBlock_spec _ _ _ _ _ Hw3) as [(-> & -> & c3 & (env3 & -> & Hn3) & ->)|[Hst3 Hn3]]; simpl in *;
    [by rewrite He|done|rewrite Hf, len_app; lia| |fail_case Hst3].
  rewrite Hf. match goal with |- context [tb_writeAll strerror ?b ?d] => destruct (tb_writeAll strerror b d) as [b4 st4] eqn:Hw4 end.
  destruct (tb_writeAll_spec _ _ _ _ Hw4) as [(-> & env4 & -> & Hn4)|[Hst4 Hn4]]; simpl in *;
    [by rewrite He| |fail_case Hst4].
  match goal with |- context [tb_sync strerror ?b] => destruct (tb_sync strerror b) as [b5 st5] eqn:Hw5 end.
  destruct (tb_sync_spec _ _ _ Hw5) as [(-> & env5 & -> & Hn5)|[Hst5 Hn5]]; simpl in *;
    [by rewrite He| |fail_case Hst5].
  unfold tb_close. simpl. rewrite Hn5. destruct (env_close env4) as [errno|] eqn:Hcl.
  { unfold tb_latchIOError. simpl. rewrite He. simpl. eexists _, _. split; [done|]. right.
    eexists. split_and!; [done..|]. intros Hbe. destruct (Hn4 (Hn3 (Hn2 (Hbn Hbe)))) as (_ & _ & ?). congruence. }
  eexists _, _. split; [done|]. left. eexists. split; [done|]. clear Hw2 Hw3 Hw4 Hw5.
  rewrite !putSSTableFooter_eq. simpl. unfold finished. simpl. split_and!; try done.
  - exists blocks', filter, idx. split_and!; [done..| | | |].
    + intros e p Hin Hp. unfold filter, bloom_finish. rewrite Hbl. apply buildFilter_covers. by apply user_keys_in with e.
    + exists iitems, (restarts_ (index_block_ b1)). split; [apply (bbi_layout _ _ _ Hix)|done].
    + unfold table_bytes. by rewrite <- !app_assoc, len_app.
    + rewrite !len_app, len_footer_bytes. change kSSTableFooterSize with 48. lia.
  - f_equal; try done. rewrite !len_app, len_footer_bytes. change kSSTableFooterSize with 48.
    apply wrap64_small. pose proof (len_nonneg (data_bytes blocks')). pose proof (len_nonneg (framed filter)). lia.
Qed.
End io.

Lemma tb_open_inv strerror path bs ri env b :
  tb_open_file strerror path bs ri None env = Some (Ok b) -> tb_inv b [] [] /\ tb_env b = env.
Proof.
  unfold tb_open_file. case_bool_decide; [done|]. destruct (bs =? 0); [done|]. destruct (ri =? 0); [done|].
  destruct (newBlockBuilder ri) as [bb|] eqn:Hbb; simpl; [|done]. intros; simplify_eq.
  pose proof (bb_inv_new _ _ Hbb). by split; [split; simpl; eauto|].
Qed.

Lemma build_table_spec strerror b0 es :
  tb_inv b0 [] [] -> sorted_run es -> table_room es <= kUint32Max ->
  exists b res, build_table strerror es b0 = Some (b, res) /\
    match res with
    | Ok meta => finished es b meta
    | Err st => ok st = false /\ ~ env_benign (tb_env b0)
    end.
Proof.
  intros Hinv Hrun Hroom. unfold build_table.
  destruct (tb_add_all_inv strerror es b0 [] [] Hinv Hrun Hroom) as (b1 & st & -> & Hc). cbn [mbind option_bind].
  destruct Hc as [(-> & Hbn & blocks & cur & Hi & Hall)|[Hst Hn]]; simpl in *.
  - simpl (negb _). cbn iota. destruct (tb_finish_inv strerror b1 blocks cur Hi) as (b2 & res & -> & Hc); [by rewrite Hall|].
    eexists _, _. split; [done|]. rewrite Hall in Hc. destruct Hc as [(meta & -> & Hf)|(st & -> & ? & ?)]; [done|tauto].
  - rewrite Hst. cbn [negb]. eexists _, _. by split.
Qed.

(** ** The builder keeps its file *)

Definition tb_same (b b' : SSTableBuilder) : Prop :=
  tb_path b' = tb_path b /\ tb_unlinked b' = tb_unlinked b /\ tb_state b' = tb_state b.

Section same.
Context (strerror : Z -> string).

Lemma tb_same_trans b b' b'' : tb_same b b' -> tb_same b' b'' -> tb_same b b''.
Proof. unfold tb_same. intros (? & ? & ?) (? & ? & ?). split_and!; congruence. Qed.

Lemma latch_same op errno b b' st : tb_latchIOError strerror op errno b = (b', st) -> tb_same b b'.
Proof. unfold tb_latchIOError. by destruct (ok (tb_error b)); intros; simplify_eq. Qed.

Lemma tb_writeAll_same evs : forall b data b' st, tb_writeAll_loop strerror evs b data = (b', st) -> tb_same b b'.
Proof.
  induction evs as [|ev evs IH]; intros b data b' st; simpl; (case_bool_decide; [by intros; simplify_eq|]); [by intros; simplify_eq|].
  destruct ev as [n|errno]; [destruct (0 <? n)|destruct (errno =? EINTR)];
    intros Hw; (apply IH in Hw || apply latch_same in Hw); done.
Qed.

Lemma tb_sync_same errnos : forall b b' st, tb_sync_loop strerror errnos b = (b', st) -> tb_same b b'.
Proof.
  induction errnos as [|errno errnos IH]; intros b b' st; simpl; [by intros; simplify_eq|].
  destruct (errno =? EINTR); intros Hw; (apply IH in Hw || apply latch_same in Hw); done.
Qed.

Lemma writeBlock_same b payload b' st h : writeBlock strerror b payload = (b', st, h) -> tb_same b b'.
Proof.
  unfold writeBlock. destruct (tb_writeAll strerror b _) as [b1 st1] eqn:E. apply tb_writeAll_same in E.
  destruct (negb (ok st1)); intros; by simplify_eq.
Qed.

Lemma flushDataBlock_same b b' st : flushDataBlock strerror b = Some (b', st) -> tb_same b b'.
Proof.
  unfold flushDataBlock. destruct (bb_empty _); [by intros; simplify_eq|]. intros ([data payload] & _ & Hr)%bind_Some. simpl in Hr.
  destruct (writeBlock strerror _ payload) as [[b1 st1] h] eqn:E. apply writeBlock_same in E.
  destruct (negb (ok st1)); [by simplify_eq|]. apply bind_Some in Hr as (index & _ & Hr). by simplify_eq.
Qed.

Lemma tb_add_same b k v b' st : tb_add strerror b k v = Some (b', st) -> tb_same b b'.
Proof.
  unfold tb_add. destruct (negb _); [by intros; simplify_eq|]. intros (_ & _ & Hr)%bind_Some.
  destruct (parseInternalKey k) as [p|]; [|by simplify_eq]. apply bind_Some in Hr as (_ & _ & Hr). apply bind_Some in Hr as (data & _ & Hr).
  destruct (_ <=? _); [|by simplify_eq]. apply flushDataBlock_same in Hr. done.
Qed.

Lemma tb_finish_same b b' res : tb_finish strerror b = Some (b', res) ->
  tb_path b' = tb_path b /\ tb_unlinked b' = tb_unlinked b /\
  match res with Ok _ => True | Err _ => tb_state b' = tb_state b end.
Proof.
  unfold tb_finish. destruct (negb _); [by intros; simplify_eq|]. intros (_ & _ & Hr)%bind_Some.
  apply bind_Some in Hr as ([b1 st1] & H1 & Hr). apply flushDataBlock_same in H1 as (P1 & U1 & S1). destruct (negb _); [by simplify_eq|].
  destruct (writeBlock strerror b1 _) as [[b2 st2] fh] eqn:H2. apply writeBlock_same in H2 as (P2 & U2 & S2).
  destruct (negb _); [simplify_eq; split_and!; congruence|]. apply bind_Some in Hr as ([index payload] & _ & Hr). simpl in Hr.
  destruct (writeBlock strerror _ payload) as [[b3 st3] ih] eqn:H3. apply writeBlock_same in H3 as (P3 & U3 & S3). simpl in P3, U3, S3.
  destruct (negb _); [simplify_eq; split_and!; congruence|].
  destruct (tb_writeAll strerror b3 _) as [b4 st4] eqn:H4. apply tb_writeAll_same in H4 as (P4 & U4 & S4).
  destruct (negb _); [simplify_eq; split_and!; congruence|].
  destruct (tb_sync strerror _) as [b5 st5] eqn:H5. apply tb_sync_same in H5 as (P5 & U5 & S5). simpl in P5, U5, S5.
  destruct (negb _); [simplify_eq; split_and!; congruence|].
  unfold tb_close in Hr. simpl in Hr. destruct (env_close (tb_env b5)) as [errno|].
  - destruct (tb_latchIOError _ _ _ _) as [b6 st6] eqn:H6. apply latch_same in H6 as (P6 & U6 & S6). simpl in P6, U6, S6.
    destruct (negb _); simplify_eq; simpl; (split_and!; [congruence|congruence|done || congruence]).
  - simpl in Hr. simplify_eq. simpl. split_and!; [congruence|congruence|done].
Qed.
End same.

(** Opening a builder in a directory. *)
Lemma tb_open_at_spec strerror block_size restart_interval answer env path fs :
  path <> "" -> block_size <> 0 -> 0 < restart_interval ->
  exists fs' r, tb_open_at strerror block_size restart_interval answer env path fs = Some (fs', r) /\
    match r with
    | Ok b => answer = None /\ fs !! path = None /\ fs' = <[path := mkLogFile [] 0]> fs /\
              tb_inv b [] [] /\ tb_env b = env /\ tb_path b = path /\ tb_unlinked b = false
    | Err st => ok st = false /\ fs' = fs /\ (answer <> None \/ is_Some (fs !! path))
    end.
Proof.
  intros Hp Hbs Hri. unfold tb_open_at, tb_open_file. rewrite bool_decide_false by done. destruct (Z.eqb_spec block_size 0); [done|].
  destruct (Z.eqb_spec restart_interval 0); [lia|]. unfold create_errno.
  destruct answer as [errno|]; [|destruct (fs !! path) eqn:Hf].
  - destruct (errno =? EEXIST); (eexists _, _; split; [done|]; split_and!; [done|done|by left]).
  - eexists fs, _. split; [done|]. split_and!; [done|done|right; by eexists].
  - destruct (newBlockBuilder restart_interval) as [bb|] eqn:Hbb.
    + eexists _, _. split; [done|]. simpl. pose proof (bb_inv_new _ _ Hbb). split_and!; try done. by split; simpl; eauto.
    + exfalso. unfold newBlockBuilder in Hbb. destruct (Z.ltb_spec 0 restart_interval); [done|lia].
Qed.

Lemma tb_open_default_spec strerror answer env path fs : path <> "" ->
  exists fs' r, tb_open_default strerror answer env path fs = Some (fs', r) /\
    match r with
    | Ok b => answer = None /\ fs !! path = None /\ fs' = <[path := mkLogFile [] 0]> fs /\
              tb_inv b [] [] /\ tb_env b = env /\ tb_path b = path /\ tb_unlinked b = false
    | Err st => ok st = false /\ fs' = fs /\ (answer <> None \/ is_Some (fs !! path))
    end.
Proof. intros Hp. by apply tb_open_at_spec. Qed.

Lemma table_room_nonneg es : 0 <= table_room es.
Proof.
  pose proof (table_room_ge es). pose proof (entries_room_nonneg es). pose proof (len_nonneg es). pose proof (len_nonneg (final_key es)). lia.
Qed.

Lemma table_room_perm a b : a ≡ₚ b -> table_room a = table_room b.
Proof. induction 1 as [|x a b _ IH|x y a|a b c _ IH1 _ IH2]; rewrite ?table_room_cons; try lia; congruence. Qed.

Lemma table_room_sublist a b : a `sublist_of` b -> table_room a <= table_room b.
Proof.
  induction 1 as [|x a b _ IH|x a b _ IH]; rewrite ?table_room_cons; [lia|lia|].
  pose proof (table_room_nonneg [x]) as Hx. rewrite table_room_cons in Hx. change (table_room []) with 0 in Hx. lia.
Qed.

(** Destroying a builder. *)
Lemma tb_destroy_lookup effective b fs path : path <> tb_path b -> tb_destroy effective b fs !! path = fs !! path.
Proof.
  intros Hne. unfold tb_destroy, fs_unlink. case_match; [case_match|]; rewrite ?lookup_delete_ne, ?lookup_insert_ne by done; done.
Qed.

Lemma tb_destroy_building effective b fs : tb_state b = kBuilding -> effective (tb_path b) = true -> tb_destroy effective b fs !! tb_path b = None.
Proof. intros Hs He. unfold tb_destroy, abandon. rewrite Hs. simpl. unfold fs_unlink. rewrite He. apply lookup_delete_eq. Qed.

Lemma destroy_finished effective b fs cur meta : finished cur b meta -> tb_unlinked b = false ->
  tb_destroy effective b fs = <[tb_path b := tb_file b]> fs.
Proof. intros (_ & _ & Hs & _) Hu. unfold tb_destroy, abandon. rewrite Hs. cbn iota. by rewrite Hu. Qed.

Lemma finished_file cur b meta : finished cur b meta -> exists c, tb_file b = mkLogFile c (length c) /\ table_of cur c /\
  meta = mkSSTableMeta (len c) (len cur) (match cur with e :: _ => e.1 | [] => [] end) (final_key cur).
Proof.
  intros (Ht & Hd & _ & _ & ->). destruct (tb_file b) as [c d]. simpl in *. exists c. split_and!; [by rewrite Hd|done|done].
Qed.

(** C15. Building an SSTable: whatever the operating system does to the writes,
    adding a sorted run and finishing never fails an assertion; if [finish]
    reports success the file is a complete table of exactly those entries,
    entirely on stable storage, and the metadata are its size, entry count,
    smallest and largest key; and it does report success whenever calls are
    only shortened or interrupted. *)
Theorem sstable_build strerror path block_size restart_interval env es b0 :
  tb_open_file strerror path block_size restart_interval None env = Some (Ok b0) ->
  sorted_run es -> table_room es <= kUint32Max ->
  exists b res, build_table strerror es b0 = Some (b, res) /\
    match res with
    | Ok meta => finished es b meta
    | Err st => ok st = false /\ ~ env_benign env
    end.
Proof. intros [Hinv <-]%tb_open_inv. by apply build_table_spec. Qed.

Definition sample_env : TableEnv := mkTableEnv [WriteCount 3; WriteErrno EINTR; WriteCount 1000] [EINTR] None.

Definition sample_builder : SSTableBuilder :=
  match newBlockBuilder 2 with
  | Some block => mkSSTableBuilder sample_env (mkLogFile [] 0) false true "t" 40 kBuilding success block block [] 0 0 [] []
  | None => mkSSTableBuilder sample_env (mkLogFile [] 0) false true "t" 40 kBuilding success
              (mkBlockBuilder 0 [] [] [] 0 0 true) (mkBlockBuilder 0 [] [] [] 0 0 true) [] 0 0 [] []
  end.

Lemma sstable_build_witness :
  exists b res, build_table (fun _ => "") sample_run sample_builder = Some (b, res) /\
    match res with
    | Ok meta => finished sample_run b meta
    | Err st => ok st = false /\ ~ env_benign sample_env
    end.
Proof.
  apply (sstable_build (fun _ => "") "t" 40 2 sample_env sample_run sample_builder).
  - reflexivity.
  - exact sample_run_sorted.
  - by vm_compute.
Defined.
