(* ===== verification/Iterator.v ===== *)
(** The internal iterator interface (src/db/internal_iterator.h): the
    operations as a class, and the contract its clients (merging iterator,
    database iterator, flush and compaction) are verified against. *)
From S2P Require Import Prelude Status InternalKey Mvcc.

(** [class InternalIterator].  Operations that assert or loop return [option]. *)
Class InternalIterator (I : Type) := {
  it_valid : I -> bool;
  it_seekToFirst : I -> option I;
  it_seek : I -> bytes -> option I;
  it_next : I -> option I;
  it_internalKey : I -> option bytes;
  it_value : I -> option bytes;
  it_status : I -> Status;
}.

(** The entries not below [target]. *)
Definition seek_spec (target : bytes) (es : list entry) : list entry :=
  dropwhile (fun e : entry => InternalKeyLess e.1 target) es.

(** How a move can end: in place, or with an error, which only an environment
    that does worse than interrupt can cause. *)
Definition moves {I} `{InternalIterator I} (at_ : I -> list entry -> list entry -> Prop) (benign : I -> Prop)
    (i i' : I) (es rest : list entry) : Prop :=
  (at_ i' es rest /\ (benign i -> benign i')) \/ (ok (it_status i') = false /\ ~ benign i).

(** What an implementation promises: [it_on i es] says that [i] has met no
    error and iterates over the sorted run [es]; [it_at i es rest] that
    moreover [rest] is what it has left to deliver; [it_benign i] that the
    environment of [i] does no worse than interrupt it. *)
Class IteratorSpec (I : Type) `{InternalIterator I} := {
  it_on : I -> list entry -> Prop;
  it_at : I -> list entry -> list entry -> Prop;
  it_benign : I -> Prop;
  failed_invalid i : ok (it_status i) = false -> it_valid i = false;
  on_run i es : it_on i es -> sorted_run es;
  on_ok i es : it_on i es -> it_status i = success;
  at_on i es rest : it_at i es rest -> it_on i es;
  at_suffix i es rest : it_at i es rest -> exists before, es = before ++ rest;
  at_end i es : it_at i es [] -> it_valid i = false;
  at_entry i es k v rest : it_at i es ((k, v) :: rest) ->
    it_valid i = true /\ it_internalKey i = Some k /\ it_value i = Some v;
  spec_seekToFirst i es : it_on i es ->
    exists i', it_seekToFirst i = Some i' /\ moves it_at it_benign i i' es es;
  spec_seek i es target : it_on i es -> is_Some (parseInternalKey target) -> len target <= kUint32Max ->
    exists i', it_seek i target = Some i' /\ moves it_at it_benign i i' es (seek_spec target es);
  spec_next i es e rest : it_at i es (e :: rest) ->
    exists i', it_next i = Some i' /\ moves it_at it_benign i i' es rest;
}.

(** Draining an iterator the way flush and compaction loop over it. *)
Fixpoint drain {I} `{InternalIterator I} (fuel : nat) (i : I) : option (list entry * Status) :=
  match fuel with
  | O => None
  | S fuel =>
      if it_valid i then
        k ← it_internalKey i; v ← it_value i; i ← it_next i;
        '(es, s) ← drain fuel i; Some ((k, v) :: es, s)
      else Some ([], it_status i)
  end.

Section laws.
Context {I} `{IteratorSpec I}.

Lemma at_valid i es rest : it_at i es rest -> it_valid i = negb (bool_decide (rest = [])).
Proof.
  destruct rest as [|[k v] rest]; intros Ha; [by rewrite (at_end i es)|].
  by destruct (at_entry i es k v rest Ha) as [-> _].
Qed.

Lemma at_run i es rest : it_at i es rest -> sorted_run rest.
Proof.
  intros Ha. destruct (at_suffix i es rest Ha) as [before ->].
  apply at_on, on_run in Ha. by apply sorted_run_suffix in Ha.
Qed.

Lemma at_ok i es rest : it_at i es rest -> it_status i = success.
Proof. intros Ha. by apply at_on, on_ok in Ha. Qed.

(** All of [rest], or an error after a part of it. *)
Definition delivers {A} (benign : Prop) (rest : list A) (res : list A * Status) : Prop :=
  res = (rest, success) \/ (res.1 `prefix_of` rest /\ ok res.2 = false /\ ~ benign).

Lemma drain_failed fuel i : ok (it_status i) = false -> drain (S fuel) i = Some ([], it_status i).
Proof. intros Hf. simpl. by rewrite (failed_invalid i Hf). Qed.

Lemma drain_at fuel : forall i es rest,
  it_at i es rest -> (length rest < fuel)%nat ->
  exists res, drain fuel i = Some res /\ delivers (it_benign i) rest res.
Proof.
  induction fuel as [|fuel IH]; intros i es rest Ha Hf; [lia|]. cbn [drain]. destruct rest as [|[k v] rest].
  - rewrite (at_end i es Ha), (at_ok i es [] Ha). eexists. split; [done|by left].
  - destruct (at_entry _ _ _ _ _ Ha) as (-> & -> & ->). cbn [mbind option_bind].
    destruct (spec_next _ _ _ _ Ha) as (i' & -> & Hm). cbn [mbind option_bind]. simpl in Hf. destruct Hm as [[Ha' Hb]|[Hbad Hb]].
    + destruct (IH i' es rest Ha') as ([got s] & -> & Hd); [lia|]. cbn [mbind option_bind]. eexists. split; [done|].
      destruct Hd as [[= -> ->]|(Hp & ? & Hn)]; [by left|]. right. split_and!; [by apply prefix_cons|done|tauto].
    + destruct fuel as [|fuel]; [lia|]. rewrite drain_failed by done. cbn [mbind option_bind]. eexists. split; [done|].
      right. split_and!; [apply prefix_cons, prefix_nil|done|done].
Qed.

Lemma drain_benign fuel i es rest :
  it_at i es rest -> it_benign i -> (length rest < fuel)%nat -> drain fuel i = Some (rest, success).
Proof. intros Ha Hb Hf. destruct (drain_at fuel i es rest Ha Hf) as (res & -> & [->|(_ & _ & ?)]); done. Qed.

Lemma moves_drain fuel i i' es rest :
  moves it_at it_benign i i' es rest -> (length rest < fuel)%nat ->
  exists res, drain fuel i' = Some res /\ delivers (it_benign i) rest res.
Proof.
  intros [[Ha Hb]|[Hbad Hn]] Hf.
  - destruct (drain_at fuel i' es rest Ha Hf) as (res & -> & Hd). exists res. split; [done|].
    destruct Hd as [->|(? & ? & ?)]; [by left|right; tauto].
  - destruct fuel as [|fuel]; [lia|]. rewrite drain_failed by done. eexists. split; [done|]. right.
    split_and!; [apply prefix_nil|done|done].
Qed.

End laws.

(** Children of different classes behind one interface (a
    [std::unique_ptr<InternalIterator>]): dispatch on the class. *)
Section dispatch.
Context {A B : Type} `{InternalIterator A, InternalIterator B}.

#[global] Instance sum_internal_iterator : InternalIterator (A + B) := {
  it_valid i := match i with inl a => it_valid a | inr b => it_valid b end;
  it_seekToFirst i := match i with inl a => inl <$> it_seekToFirst a | inr b => inr <$> it_seekToFirst b end;
  it_seek i t := match i with inl a => inl <$> it_seek a t | inr b => inr <$> it_seek b t end;
  it_next i := match i with inl a => inl <$> it_next a | inr b => inr <$> it_next b end;
  it_internalKey i := match i with inl a => it_internalKey a | inr b => it_internalKey b end;
  it_value i := match i with inl a => it_value a | inr b => it_value b end;
  it_status i := match i with inl a => it_status a | inr b => it_status b end;
}.
End dispatch.

#[global] Program Instance sum_iterator_spec {A B} `{IteratorSpec A, IteratorSpec B} : IteratorSpec (A + B) := {
  it_on i es := match i with inl a => it_on a es | inr b => it_on b es end;
  it_at i es rest := match i with inl a => it_at a es rest | inr b => it_at b es rest end;
  it_benign i := match i with inl a => it_benign a | inr b => it_benign b end;
}.
Next Obligation. intros A B ? ? ? ? [a|b]; [apply (failed_invalid a)|apply (failed_invalid b)]. Qed.
Next Obligation. intros A B ? ? ? ? [a|b] es; [apply (on_run a)|apply (on_run b)]. Qed.
Next Obligation. intros A B ? ? ? ? [a|b] es; [apply (on_ok a)|apply (on_ok b)]. Qed.
Next Obligation. intros A B ? ? ? ? [a|b] es rest; [apply (at_on a)|apply (at_on b)]. Qed.
Next Obligation. intros A B ? ? ? ? [a|b] es rest; [apply (at_suffix a)|apply (at_suffix b)]. Qed.
Next Obligation. intros A B ? ? ? ? [a|b] es; [apply (at_end a)|apply (at_end b)]. Qed.
Next Obligation. intros A B ? ? ? ? [a|b] es k v rest; [apply (at_entry a)|apply (at_entry b)]. Qed.
Next Obligation.
  intros A B ? ? ? ? [a|b] es Ho; destruct (spec_seekToFirst _ _ Ho) as (i & Hi & Ha); simpl; rewrite Hi; eexists; by split.
Qed.
Next Obligation.
  intros A B ? ? ? ? [a|b] es t Ho Ht Hl; destruct (spec_seek _ _ t Ho Ht Hl) as (i & Hi & Ha); simpl; rewrite Hi; eexists; by split.
Qed.
Next Obligation.
  intros A B ? ? ? ? [a|b] es e rest Ho; destruct (spec_next _ _ _ _ Ho) as (i & Hi & Ha); simpl; rewrite Hi; eexists; by split.
Qed.

(** The contract's reference model: a cursor into a sorted run. *)
Record RunIterator := mkRunIterator { ri_run : list entry; ri_rest : list entry }.

#[global] Instance run_internal_iterator : InternalIterator RunIterator := {
  it_valid i := negb (bool_decide (ri_rest i = []));
  it_seekToFirst i := Some (mkRunIterator (ri_run i) (ri_run i));
  it_seek i t := Some (mkRunIterator (ri_run i) (seek_spec t (ri_run i)));
  it_next i := match ri_rest i with [] => None | _ :: rest => Some (mkRunIterator (ri_run i) rest) end;
  it_internalKey i := fst <$> head (ri_rest i);
  it_value i := snd <$> head (ri_rest i);
  it_status i := success;
}.

#[global] Program Instance run_iterator_spec : IteratorSpec RunIterator := {
  it_on i es := ri_run i = es /\ sorted_run es;
  it_at i es rest := ri_run i = es /\ ri_rest i = rest /\ sorted_run es /\ exists before, es = before ++ rest;
  it_benign i := True;
}.
Next Obligation. done. Qed.
Next Obligation. by intros i es [_ ?]. Qed.
Next Obligation. done. Qed.
Next Obligation. by intros i es rest (? & _ & ? & _). Qed.
Next Obligation. by intros i es rest (_ & _ & _ & ?). Qed.
Next Obligation. intros i es (_ & Hr & _). simpl. by rewrite Hr. Qed.
Next Obligation. intros i es k v rest (? & Hr & ? & ?). simpl. by rewrite Hr. Qed.
Next Obligation. intros i es [<- Hs]. simpl. eexists. split; [done|]. left. split_and!; try done. by exists []. Qed.
Next Obligation.
  intros i es t [<- Hs] _ _. simpl. eexists. split; [done|]. left. split_and!; try done.
  exists (takewhile (fun e : entry => InternalKeyLess e.1 t) (ri_run i)). symmetry. apply takewhile_dropwhile.
Qed.
Next Obligation.
  intros i es e rest (? & Hr & ? & before & ->). simpl. rewrite Hr. eexists. split; [done|]. left. split_and!; try done.
  exists (before ++ [e]). by rewrite <- app_assoc.
Qed.
