(* ===== verification/SSTableReader.v ===== *)
(** Reading an SSTable (src/table/sstable_reader.cc): opening, point lookups
    and the two-level iterator, proved against the layout of
    [SSTableBuilder.v]. *)
From S2P Require Import Prelude Posix Status Coding InternalKey Mvcc BloomFilter BlockBuilder BlockIterator TableFormat SSTableBuilder Iterator.

(** ** src/table/sstable_reader.h, src/table/sstable_reader.cc *)

(** The answers of [::open] and [::fstat] and the file behind the descriptor. *)
Inductive os_file :=
  | OpenErrno (errno : Z)
  | StatErrno (errno : Z)
  | OpenedFile (regular : bool) (st_size : Z) (data : bytes).

(** The environment of reads: what the calls do, and the system's texts. *)
Record ReadEnv := mkReadEnv { re_events : list read_event; re_strerror : Z -> string }.

Record SSTableReader := mkSSTableReader {
  sr_file : bytes;
  file_size_ : Z;
  filter_block_ : bytes;
  sr_index_block : bytes;
}.

Definition sst_ioError (strerror : Z -> string) (operation path : string) (errno : Z) : Status :=
  ioError (operation +:+ " SSTable " +:+ path +:+ ": " +:+ strerror errno).

Definition sst_open (env : ReadEnv) (path : string) (f : os_file) : option (result SSTableReader) :=
  if bool_decide (path = "") then Some (Err (invalidArgument "SSTable path must not be empty"))
  else
    match f with
    | OpenErrno errno => Some (Err (sst_ioError (re_strerror env) "open" path errno))
    | StatErrno errno => Some (Err (sst_ioError (re_strerror env) "stat" path errno))
    | OpenedFile regular st_size file =>
        if negb regular then Some (Err (invalidArgument ("SSTable path is not a regular file: " +:+ path)))
        else if st_size <? 0 then Some (Err (corruption "SSTable has a negative file size"))
        else
          let '(res, evs) := readSSTableFooter (re_strerror env) (re_events env) file st_size in
          match res with
          | Err status => Some (Err status)
          | Ok (filter_handle, index_handle) =>
              let '(res, evs) := readBlock (re_strerror env) evs file st_size filter_handle true in
              match res with
              | Err status => Some (Err status)
              | Ok filter_block =>
                  let '(res, evs) := readBlock (re_strerror env) evs file st_size index_handle true in
                  match res with
                  | Err status => Some (Err status)
                  | Ok index_block =>
                      index ← newBlockIterator index_block;
                      if negb (ok (status_ index)) then Some (Err (status_ index))
                      else Some (Ok (mkSSTableReader file st_size filter_block index_block))
                  end
              end
          end
    end.

(** The index value must hold exactly one handle. *)
Definition indexHandle (encoded_handle : bytes) : option BlockHandle :=
  match getBlockHandle encoded_handle with
  | Some (handle, []) => Some handle
  | _ => None
  end.

Definition sst_get (env : ReadEnv) (r : SSTableReader) (verify_checksums : bool) (key : bytes)
    (visible_sequence : Z) : option (result LookupResult) :=
  _ ← assert_that (visible_sequence <=? kMaxSequenceNumber);
  if negb (bloomFilterMayContain key (filter_block_ r)) then Some (Ok LookupAbsent)
  else
    let lookup_key := encodeInternalKey key visible_sequence kValue in
    index ← newBlockIterator (sr_index_block r);
    if negb (ok (status_ index)) then Some (Err (status_ index))
    else
      index ← bi_seek index lookup_key;
      if negb (ok (status_ index)) then Some (Err (status_ index))
      else if negb (valid_ index) then Some (Ok LookupAbsent)
      else
        encoded_handle ← bi_value index;
        match indexHandle encoded_handle with
        | None => Some (Err (corruption "invalid data block handle in SSTable index"))
        | Some data_handle =>
            match readBlock (re_strerror env) (re_events env) (sr_file r) (file_size_ r) data_handle verify_checksums with
            | (Err status, _) => Some (Err status)
            | (Ok data_block, _) =>
                data ← newBlockIterator data_block;
                if negb (ok (status_ data)) then Some (Err (status_ data))
                else
                  data ← bi_seek data lookup_key;
                  if negb (ok (status_ data)) then Some (Err (status_ data))
                  else if negb (valid_ data)
                  then Some (Err (corruption "SSTable index does not cover its data block"))
                  else
                    k ← bi_key data;
                    match parseInternalKey k with
                    | None => Some (Err (corruption "invalid internal key in SSTable data block"))
                    | Some parsed =>
                        if negb (bytes_eqb (user_key parsed) key) then Some (Ok LookupAbsent)
                        else
                          match type parsed with
                          | kDeletion => Some (Ok LookupDeleted)
                          | kValue => stored_value ← bi_value data; Some (Ok (LookupValue stored_value))
                          end
                    end
            end
        end.

(** ** SSTableIterator *)

Record SSTableIterator := mkSSTableIterator {
  si_env : ReadEnv;
  table_ : SSTableReader;
  si_verify : bool;
  index_ : BlockIterator;
  si_data_block : bytes;
  data_ : option BlockIterator;
  si_status : Status;
}.

Definition si_set (it : SSTableIterator) (env : ReadEnv) (index : BlockIterator) (block : bytes)
    (data : option BlockIterator) (status : Status) : SSTableIterator :=
  mkSSTableIterator env (table_ it) (si_verify it) index block data status.

Definition newSSTableIterator (env : ReadEnv) (table : SSTableReader) (verify : bool) :
    option SSTableIterator :=
  index ← newBlockIterator (sr_index_block table);
  Some (mkSSTableIterator env table verify index [] None
          (if ok (status_ index) then success else status_ index)).

Definition si_valid (it : SSTableIterator) : bool :=
  ok (si_status it) && match data_ it with Some data => valid_ data | None => false end.

Definition loadDataBlock (it : SSTableIterator) : option SSTableIterator :=
  encoded_handle ← bi_value (index_ it);
  match indexHandle encoded_handle with
  | None =>
      Some (si_set it (si_env it) (index_ it) (si_data_block it) (data_ it)
              (corruption "invalid data block handle in SSTable index"))
  | Some handle =>
      let '(res, evs) := readBlock (re_strerror (si_env it)) (re_events (si_env it)) (sr_file (table_ it))
                           (file_size_ (table_ it)) handle (si_verify it) in
      let env := mkReadEnv evs (re_strerror (si_env it)) in
      match res with
      | Err status => Some (si_set it env (index_ it) (si_data_block it) (data_ it) status)
      | Ok data_block =>
          data ← newBlockIterator data_block;
          if negb (ok (status_ data)) then Some (si_set it env (index_ it) data_block None (status_ data))
          else
            data ← bi_seekToFirst data;
            if negb (ok (status_ data)) then Some (si_set it env (index_ it) data_block None (status_ data))
            else if negb (valid_ data)
            then Some (si_set it env (index_ it) data_block None
                         (corruption "SSTable index references an empty data block"))
            else Some (si_set it env (index_ it) data_block (Some data) success)
      end
  end.

Definition si_seekToFirst (it : SSTableIterator) : option SSTableIterator :=
  if negb (ok (si_status it)) then Some it
  else
    index ← bi_seekToFirst (index_ it);
    if negb (ok (status_ index)) then Some (si_set it (si_env it) index [] None (status_ index))
    else
      let it := si_set it (si_env it) index [] None (si_status it) in
      if valid_ index then loadDataBlock it else Some it.

Definition si_seek (it : SSTableIterator) (target : bytes) : option SSTableIterator :=
  if negb (ok (si_status it)) then Some it
  else
    match parseInternalKey target with
    | None => Some (si_set it (si_env it) (index_ it) (si_data_block it) None
                      (invalidArgument "invalid InternalKey seek target"))
    | Some _ =>
        index ← bi_seek (index_ it) target;
        if negb (ok (status_ index)) then Some (si_set it (si_env it) index [] None (status_ index))
        else
          let it := si_set it (si_env it) index [] None (si_status it) in
          if negb (valid_ index) then Some it
          else
            it ← loadDataBlock it;
            if negb (ok (si_status it)) then Some it
            else
              data ← data_ it;
              data ← bi_seek data target;
              if negb (ok (status_ data))
              then Some (si_set it (si_env it) (index_ it) (si_data_block it) None (status_ data))
              else if negb (valid_ data)
              then Some (si_set it (si_env it) (index_ it) (si_data_block it) None
                           (corruption "SSTable index does not cover seek target"))
              else Some (si_set it (si_env it) (index_ it) (si_data_block it) (Some data) (si_status it))
    end.

Definition si_next (it : SSTableIterator) : option SSTableIterator :=
  _ ← assert_that (si_valid it);
  data ← data_ it;
  data ← bi_next data;
  if negb (ok (status_ data))
  then Some (si_set it (si_env it) (index_ it) (si_data_block it) None (status_ data))
  else if valid_ data
  then Some (si_set it (si_env it) (index_ it) (si_data_block it) (Some data) (si_status it))
  else
    index ← bi_next (index_ it);
    if negb (ok (status_ index)) then Some (si_set it (si_env it) index (si_data_block it) None (status_ index))
    else
      let it := si_set it (si_env it) index (si_data_block it) None (si_status it) in
      if valid_ index then loadDataBlock it else Some it.

Definition si_internalKey (it : SSTableIterator) : option bytes :=
  _ ← assert_that (si_valid it); data ← data_ it; bi_key data.
Definition si_value (it : SSTableIterator) : option bytes :=
  _ ← assert_that (si_valid it); data ← data_ it; bi_value data.

#[global] Instance sstable_internal_iterator : InternalIterator SSTableIterator := {
  it_valid := si_valid;
  it_seekToFirst := si_seekToFirst;
  it_seek := si_seek;
  it_next := si_next;
  it_internalKey := si_internalKey;
  it_value := si_value;
  it_status := si_status;
}.

(** ** Index and data blocks of a well-formed table *)

Lemma dropwhile_app_stop {A} (p : A -> bool) l k :
  dropwhile p l <> [] -> dropwhile p (l ++ k) = dropwhile p l ++ k.
Proof. induction l as [|x l IH]; simpl; [done|]. destruct (p x); [done|]. done. Qed.

Lemma dropwhile_nil {A} (p : A -> bool) l : dropwhile p l = [] <-> Forall (fun x => p x = true) l.
Proof.
  induction l as [|x l IH]; simpl; [by split|]. rewrite Forall_cons_iff.
  destruct (p x); [rewrite IH; naive_solver|]. split; [done|]. by intros [? _].
Qed.

Lemma final_key_valid es : es <> [] -> Forall entry_valid es -> is_Some (parseInternalKey (final_key es)).
Proof.
  intros Hne Hv. destruct (final_key_in es Hne) as [v Hin]. rewrite Forall_elem in Hv. exact (Hv _ Hin).
Qed.

Lemma final_key_max es e :
  sorted_run es -> e ∈ es -> e.1 = final_key es \/ InternalKeyLess e.1 (final_key es) = true.
Proof.
  intros Hrun Hin. assert (es <> []) as Hne by (intros ->; set_solver).
  destruct (exists_last Hne) as (es' & [k v] & ->). rewrite final_key_snoc.
  apply sorted_run_app in Hrun as (_ & _ & Hlt). apply elem_of_app in Hin as [Hin|Hin].
  - right. apply (Hlt e (k, v) Hin). set_solver.
  - left. set_solver.
Qed.

Lemma below_final es target :
  sorted_run es -> InternalKeyLess (final_key es) target = true ->
  Forall (fun e : entry => InternalKeyLess e.1 target = true) es.
Proof.
  intros Hrun Hlt. rewrite Forall_elem. intros e He. destruct (final_key_max es e Hrun He) as [->|H]; [done|].
  by apply InternalKeyLess_trans with (final_key es).
Qed.

Lemma seek_spec_final es target :
  es <> [] -> InternalKeyLess (final_key es) target = false -> seek_spec target es <> [].
Proof.
  intros Hne Hlt E. unfold seek_spec in E. apply dropwhile_nil in E. destruct (final_key_in es Hne) as [v Hin].
  rewrite Forall_elem in E. specialize (E _ Hin). simpl in E. congruence.
Qed.

(** Seeking the index finds the first block whose last key is not below. *)
Lemma index_seek target blocks : forall o,
  exists pre post, blocks = pre ++ post /\
    seek_spec target (index_entries o blocks) = index_entries (o + len (data_bytes pre)) post /\
    Forall (fun b : dblock => InternalKeyLess (final_key b.1) target = true) pre /\
    match post with [] => True | b :: _ => InternalKeyLess (final_key b.1) target = false end.
Proof.
  induction blocks as [|b blocks IH]; intros o.
  { exists [], []. split_and!; done. }
  unfold seek_spec. simpl. destruct (InternalKeyLess (final_key b.1) target) eqn:Hb.
  - destruct (IH (o + len (framed b.2))) as (pre & post & -> & Hs & Hpre & Hpost).
    exists (b :: pre), post. split_and!; [done| |by constructor|done].
    unfold seek_spec in Hs. rewrite Hs. unfold data_bytes. simpl. len_norm. by rewrite Z.add_assoc.
  - exists [], (b :: blocks). split_and!; [done| |done|done]. simpl. change (len (data_bytes [])) with 0. by rewrite Z.add_0_r.
Qed.

Lemma index_entries_in blocks : forall o e,
  e ∈ index_entries o blocks -> exists b, b ∈ blocks /\ e.1 = final_key b.1.
Proof.
  induction blocks as [|b blocks IH]; intros o e; simpl; [set_solver|].
  rewrite elem_of_cons. intros [->|He]; [exists b; set_solver|].
  destruct (IH _ _ He) as (b' & ? & ?). exists b'. set_solver.
Qed.

Lemma block_entry_in (b : dblock) blocks e : b ∈ blocks -> e ∈ b.1 -> e ∈ concat (map fst blocks).
Proof.
  intros Hb He. induction blocks as [|b' blocks IH]; [set_solver|]. simpl.
  apply elem_of_app. apply elem_of_cons in Hb as [<-|Hb]; [by left|right; auto].
Qed.

Lemma index_run blocks : forall o,
  Forall block_ok blocks -> sorted_run (concat (map fst blocks)) -> sorted_run (index_entries o blocks).
Proof.
  induction blocks as [|b blocks IH]; intros o Hok Hrun; simpl; [by split; constructor|].
  apply Forall_cons_iff in Hok as [[Hne _] Hok]. simpl in Hrun.
  apply sorted_run_app in Hrun as ([_ Hv] & Hrun & Hlt). apply sorted_run_cons. split_and!.
  - by apply final_key_valid.
  - rewrite Forall_elem. intros e He. apply index_entries_in in He as (b' & Hb' & Hk).
    rewrite Forall_elem in Hok. destruct (Hok _ Hb') as [Hne' _].
    destruct (final_key_in b.1 Hne) as [v Hin]. destruct (final_key_in b'.1 Hne') as [v' Hin'].
    unfold entry_lt, entry_ltb. simpl. rewrite Hk. apply (Hlt (final_key b.1, v) (final_key b'.1, v') Hin). by apply block_entry_in with b'.
  - by apply IH.
Qed.

(** ** Opening and reading a well-formed table *)

Lemma cons_block (blocks : list dblock) :
  blocks <> [] -> exists bes b post, blocks = [] ++ (bes, b) :: post.
Proof. destruct blocks as [|[bes b] post]; simpl; [done|eauto]. Qed.

Section table.
Context (blocks : list dblock) (filter idx : bytes).
Let es := concat (map fst blocks).
Let file := table_bytes blocks filter idx.
Context (Hok : Forall block_ok blocks) (Hrun : sorted_run es) (Hcover : filter_covers filter es).
Context (Hidx : block_of (index_entries 0 blocks) idx) (Hsize : len file <= kUint64Max).

Definition reader : SSTableReader := mkSSTableReader file (len file) filter idx.

Lemma len_file :
  len file = len (data_bytes blocks) + len (framed filter) + len (framed idx) + kSSTableFooterSize.
Proof. unfold file, table_bytes. rewrite !len_app, len_footer_bytes. lia. Qed.

Lemma substr_middle a b c n : len b = n -> substr (a ++ b ++ c) (len a) n = b.
Proof.
  intros <-. unfold substr. rewrite drop_app_length' by (unfold len; lia).
  apply take_app_length'. unfold len. lia.
Qed.

Lemma read_framed evs strerror a payload c verify :
  Forall benign_read evs -> file = a ++ framed payload ++ c -> kSSTableFooterSize <= len c ->
  exists evs', Forall benign_read evs' /\
    readBlock strerror evs file (len file) (mkBlockHandle (len a) (len payload)) verify = (Ok payload, evs').
Proof.
  intros Hb Hf Hc. apply readBlock_framed; [done|apply len_nonneg| |].
  - rewrite Hf. llia.
  - rewrite Hf. by apply substr_middle.
Qed.

Lemma read_data_block evs strerror pre bes b post verify :
  Forall benign_read evs -> blocks = pre ++ (bes, b) :: post ->
  exists evs', Forall benign_read evs' /\
    readBlock strerror evs file (len file) (mkBlockHandle (len (data_bytes pre)) (len b)) verify = (Ok b, evs').
Proof.
  intros Hb Hs. set (tail := framed filter ++ framed idx ++
    footer_bytes (mkBlockHandle (len (data_bytes blocks)) (len filter))
      (mkBlockHandle (len (data_bytes blocks) + len (framed filter)) (len idx))).
  apply (read_framed evs strerror (data_bytes pre) b (data_bytes post ++ tail)); [done| |].
  - change file with (data_bytes blocks ++ tail). rewrite Hs at 1. rewrite data_bytes_app, <- app_assoc.
    f_equal. unfold data_bytes at 1. simpl. by rewrite <- app_assoc.
  - unfold tail. rewrite !len_app, len_footer_bytes. len_pose. lia.
Qed.

Definition filter_handle : BlockHandle := mkBlockHandle (len (data_bytes blocks)) (len filter).
Definition index_handle : BlockHandle :=
  mkBlockHandle (len (data_bytes blocks) + len (framed filter)) (len idx).

Lemma table_handles : handle_ok filter_handle /\ handle_ok index_handle /\
  validateBlockHandle (len file) filter_handle = success /\
  validateBlockHandle (len file) index_handle = success.
Proof.
  pose proof len_file as Hl. rewrite !len_framed in Hl. unfold handle_ok, filter_handle, index_handle. simpl.
  rewrite !len_framed. len_pose. unfold kBlockTrailerSize in *. change kSSTableFooterSize with 48 in *.
  split_and!; try lia; apply validateBlockHandle_ok; simpl; unfold kBlockTrailerSize;
    change kSSTableFooterSize with 48; lia.
Qed.

Lemma read_footer evs strerror :
  Forall benign_read evs ->
  exists evs', Forall benign_read evs' /\
    readSSTableFooter strerror evs file (len file) = (Ok (filter_handle, index_handle), evs').
Proof.
  intros Hb. destruct table_handles as (Hf & Hi & Vf & Vi). pose proof len_file as Hl.
  unfold readSSTableFooter. change kSSTableFooterSize with 48 in *. len_pose.
  destruct (Z.ltb_spec (len file) 48); [lia|].
  destruct (readExactly_benign strerror evs file (len file - 48) 48 Hb) as (evs' & -> & Hb'); [lia..|].
  assert (substr file (len file - 48) 48 = footer_bytes filter_handle index_handle) as ->.
  { change file with (data_bytes blocks ++ framed filter ++ framed idx ++ footer_bytes filter_handle index_handle) at 1.
    rewrite !app_assoc. rewrite <- (app_nil_r (footer_bytes filter_handle index_handle)) at 1.
    replace (len file - 48) with (len ((data_bytes blocks ++ framed filter) ++ framed idx)) by (rewrite !len_app; lia).
    apply substr_middle. apply len_footer_bytes. }
  rewrite decodeSSTableFooter_put, Vf, Vi by done. simpl. eauto.
Qed.

Lemma sst_open_ok env path :
  path <> "" -> Forall benign_read (re_events env) ->
  sst_open env path (OpenedFile true (len file) file) = Some (Ok reader).
Proof.
  intros Hp Hb. unfold sst_open. rewrite bool_decide_false by done. cbn [negb].
  pose proof (len_nonneg file). destruct (Z.ltb_spec (len file) 0); [lia|].
  destruct (read_footer (re_events env) (re_strerror env) Hb) as (e1 & Hb1 & ->).
  destruct (read_framed e1 (re_strerror env) (data_bytes blocks) filter
    (framed idx ++ footer_bytes filter_handle index_handle) true Hb1 eq_refl) as (e2 & Hb2 & Hr).
  { rewrite len_app, len_footer_bytes. len_pose. lia. }
  change (mkBlockHandle (len (data_bytes blocks)) (len filter)) with filter_handle in Hr. rewrite Hr.
  destruct (read_framed e2 (re_strerror env) (data_bytes blocks ++ framed filter) idx
    (footer_bytes filter_handle index_handle) true Hb2) as (e3 & _ & Hr3).
  { unfold file, table_bytes. by rewrite <- app_assoc. }
  { by rewrite len_footer_bytes. }
  rewrite len_app in Hr3. change (mkBlockHandle (_ + _) (len idx)) with index_handle in Hr3. rewrite Hr3.
  destruct (block_open (index_entries 0 blocks) idx Hidx) as (it & -> & _ & Hst & _).
  cbn [mbind option_bind]. rewrite Hst. done.
Qed.

Lemma indexHandle_ok h : handle_ok h -> indexHandle (handle_bytes h) = Some h.
Proof. intros H. unfold indexHandle. rewrite <- (app_nil_r (handle_bytes h)). by rewrite getBlockHandle_app. Qed.

(** One data block: its handle fits, it is a sorted run, and it opens. *)
Lemma data_block_facts pre bes b post :
  blocks = pre ++ (bes, b) :: post ->
  handle_ok (mkBlockHandle (len (data_bytes pre)) (len b)) /\ bes <> [] /\ block_of bes b /\ sorted_run bes /\
  es = concat (map fst pre) ++ bes ++ concat (map fst post).
Proof.
  intros Hs. assert (es = concat (map fst pre) ++ bes ++ concat (map fst post)) as He.
  { unfold es. rewrite Hs, map_app, concat_app. done. }
  pose proof Hok as Hb. rewrite Hs in Hb. apply Forall_app in Hb as [_ Hb]. apply Forall_cons_iff in Hb as [[Hne Hbl] _].
  split_and!; try done.
  - pose proof len_file as Hl. rewrite Hs, data_bytes_app in Hl. unfold data_bytes at 2 in Hl. simpl in Hl.
    rewrite !len_app, !len_framed in Hl. unfold kBlockTrailerSize in Hl. change kSSTableFooterSize with 48 in Hl.
    unfold handle_ok. simpl. len_pose. lia.
  - rewrite He in Hrun. apply sorted_run_suffix in Hrun. by apply sorted_run_app in Hrun as (? & _).
Qed.

(** Entries before the block the index points to are below the target. *)
Lemma seek_blocks target pre post :
  blocks = pre ++ post ->
  Forall (fun b : dblock => InternalKeyLess (final_key b.1) target = true) pre ->
  seek_spec target es = seek_spec target (concat (map fst post)).
Proof.
  intros Hs Hpre. assert (es = concat (map fst pre) ++ concat (map fst post)) as He0
    by (unfold es; by rewrite Hs, map_app, concat_app).
  unfold seek_spec. rewrite He0. apply dropwhile_app_all. rewrite Forall_elem. intros e He.
  assert (exists b, b ∈ pre /\ e ∈ b.1) as (b & Hb & Heb).
  { clear -He. induction pre as [|b pre IH]; simpl in He; [set_solver|].
    apply elem_of_app in He as [He|He]; [exists b; set_solver|]. destruct (IH He) as (b' & ? & ?). exists b'. set_solver. }
  apply list_elem_of_split in Hb as (p1 & p2 & ->). destruct b as [bes b].
  destruct (data_block_facts p1 bes b (p2 ++ post)) as (_ & _ & _ & Hbr & _); [rewrite Hs; by rewrite <- app_assoc|].
  apply Forall_app in Hpre as [_ Hpre]. apply Forall_cons_iff in Hpre as [Hlt _].
  pose proof (below_final bes target Hbr Hlt) as Hall. rewrite Forall_elem in Hall. by apply Hall.
Qed.

Lemma bloom_negative key seq :
  bloomFilterMayContain key filter = false -> 0 <= seq <= kMaxSequenceNumber ->
  run_get es key seq = LookupAbsent.
Proof.
  intros Hneg Hseq. rewrite run_get_mvcc by done. apply mvcc_get_none. rewrite Forall_elem. intros e He.
  destruct (candidate key seq e) as [c|] eqn:Hc; [|done].
  apply candidate_Some in Hc as (p & Hp & Hk & _). pose proof (Hcover e p He Hp). congruence.
Qed.

Lemma index_ready :
  exists it, newBlockIterator idx = Some it /\ block_ready (index_entries 0 blocks) it /\
    status_ it = success /\ valid_ it = false.
Proof. by apply block_open. Qed.

Lemma index_valid_run : Forall entry_valid (index_entries 0 blocks).
Proof. by destruct (index_run blocks 0 Hok Hrun). Qed.

Lemma sst_get_ok env verify key seq :
  0 <= seq <= kMaxSequenceNumber -> Forall benign_read (re_events env) ->
  sst_get env reader verify key seq = Some (Ok (run_get es key seq)).
Proof.
  intros Hseq Hb. unfold sst_get, assert_that. destruct (Z.leb_spec seq kMaxSequenceNumber); [cbn [mbind option_bind]|lia].
  cbn [reader filter_block_ sr_index_block sr_file file_size_].
  destruct (bloomFilterMayContain key filter) eqn:Hbf; cbn [negb]; [|by rewrite bloom_negative].
  set (lk := encodeInternalKey key seq kValue).
  assert (is_Some (parseInternalKey lk)) as Hlk by (eexists; by apply parse_encode).
  destruct index_ready as (it & -> & Hready & Hst & _). cbn [mbind option_bind]. rewrite Hst. simpl (negb _). cbn iota.
  destruct (block_seek _ index_valid_run it lk (index_run blocks 0 Hok Hrun) Hready Hlk) as (it1 & -> & Hrep).
  cbn [mbind option_bind]. rewrite (block_ready_status _ _ (block_rep_ready _ _ _ Hrep)). simpl (negb _). cbn iota.
  fold (seek_spec lk (index_entries 0 blocks)) in Hrep.
  destruct (index_seek lk blocks 0) as (pre & post & Hs & Heq & Hpre & Hpost). rewrite Heq in Hrep.
  unfold run_get. fold lk. fold (seek_spec lk es). rewrite (seek_blocks lk pre post Hs Hpre).
  apply block_rep_head in Hrep. destruct post as [|[bes b] post]; simpl in Hrep; [by rewrite Hrep|].
  destruct Hrep as (-> & _ & ->). cbn [negb mbind option_bind]. rewrite Z.add_0_l.
  destruct (data_block_facts pre bes b post Hs) as (Hh & Hne & Hbl & Hbr & _). rewrite indexHandle_ok by done.
  destruct (read_data_block (re_events env) (re_strerror env) pre bes b post verify Hb Hs) as (evs' & _ & ->).
  destruct (block_open bes b Hbl) as (d & -> & Hdr & Hdst & _). cbn [mbind option_bind]. rewrite Hdst. simpl (negb _). cbn iota.
  pose proof Hbr as [_ Hbv]. destruct (block_seek bes Hbv d lk Hbr Hdr Hlk) as (d1 & -> & Hd1).
  cbn [mbind option_bind]. rewrite (block_ready_status _ _ (block_rep_ready _ _ _ Hd1)). simpl (negb _). cbn iota.
  fold (seek_spec lk bes) in Hd1. pose proof (seek_spec_final bes lk Hne Hpost) as Hnn.
  simpl map. simpl concat. unfold seek_spec in *. rewrite dropwhile_app_stop by done.
  apply block_rep_head in Hd1. destruct (dropwhile _ bes) as [|[k v] rest] eqn:Hdw; [done|].
  destruct Hd1 as (-> & -> & Hv). cbn [negb mbind option_bind app fst snd].
  destruct (parseInternalKey k) as [p|] eqn:Hp.
  - destruct (bytes_eqb (user_key p) key); cbn [negb]; [|done]. rewrite Hv. by destruct (type p).
  - exfalso. assert ((k, v) ∈ bes) as Hin.
    { rewrite <- (takewhile_dropwhile (fun e : entry => InternalKeyLess e.1 lk) bes), Hdw. set_solver. }
    rewrite Forall_elem in Hbv. destruct (Hbv _ Hin) as [? Hx]. simpl in Hx. congruence.
Qed.

(** *** The iterator *)

Record si_ready (it : SSTableIterator) : Prop := {
  sir_table : table_ it = reader;
  sir_index : block_ready (index_entries 0 blocks) (index_ it);
  sir_status : si_status it = success;
}.

Definition si_benign (it : SSTableIterator) : Prop := Forall benign_read (re_events (si_env it)).

(** Positioned in block [(bes, b)], with [r] left to read of it. *)
Definition si_in (it : SSTableIterator) (pre : list dblock) (bes r : list entry) (b : bytes) (post : list dblock) : Prop :=
  blocks = pre ++ (bes, b) :: post /\
  block_rep (index_entries 0 blocks) (index_ it) (index_entries (len (data_bytes pre)) ((bes, b) :: post)) /\
  exists d, data_ it = Some d /\ block_rep bes d r.

Definition si_pos (it : SSTableIterator) (rest : list entry) : Prop :=
  si_ready it /\
  ((rest = [] /\ data_ it = None) \/
   exists pre bes r b post, si_in it pre bes r b post /\ r <> [] /\ rest = r ++ concat (map fst post)).

(** A move that loads a block ends there or in an error. *)
Definition si_moves (it it' : SSTableIterator) (P : Prop) : Prop :=
  (si_ready it' /\ P /\ (si_benign it -> si_benign it')) \/ (ok (si_status it') = false /\ ~ si_benign it).

Lemma read_data_block_any evs evs' strerror pre bes b post verify res :
  readBlock strerror evs file (len file) (mkBlockHandle (len (data_bytes pre)) (len b)) verify = (res, evs') ->
  blocks = pre ++ (bes, b) :: post ->
  (res = Ok b /\ (Forall benign_read evs -> Forall benign_read evs')) \/
  (exists st, res = Err st /\ ok st = false /\ ~ Forall benign_read evs).
Proof.
  intros Hr Hs. assert (Forall benign_read evs -> res = Ok b /\ Forall benign_read evs') as Hb.
  { intros Hb. destruct (read_data_block evs strerror pre bes b post verify Hb Hs) as (e & ? & E). rewrite E in Hr. by injection Hr as <- <-. }
  destruct res as [x|st].
  - left. apply readBlock_undisturbed in Hr; [|apply len_nonneg..].
    destruct (read_data_block [] strerror pre bes b post verify ltac:(constructor) Hs) as (e & _ & E).
    assert (x = b) as -> by congruence. split; [done|]. intros ?. by apply Hb.
  - right. exists st. apply readBlock_Err in Hr. split_and!; [done|done|]. intros ?. by destruct Hb.
Qed.

Lemma loadDataBlock_ok it pre bes b post :
  si_ready it -> blocks = pre ++ (bes, b) :: post ->
  block_rep (index_entries 0 blocks) (index_ it) (index_entries (len (data_bytes pre)) ((bes, b) :: post)) ->
  exists it', loadDataBlock it = Some it' /\ si_moves it it' (si_in it' pre bes bes b post).
Proof.
  intros [Ht Hi Hst] Hs Hrep. pose proof (block_rep_head _ _ _ Hrep) as Hh. simpl in Hh. destruct Hh as (_ & _ & Hv).
  unfold loadDataBlock. rewrite Hv, Ht. cbn [mbind option_bind]. cbn [reader sr_file file_size_].
  destruct (data_block_facts pre bes b post Hs) as (Hh & Hne & Hbl & [_ Hbv] & _). rewrite indexHandle_ok by done.
  destruct (readBlock _ _ _ _ _ _) as [res evs'] eqn:Er.
  destruct (read_data_block_any _ _ _ _ _ _ _ _ _ Er Hs) as [[-> Hb]|(st & -> & Hbad & Hn)];
    [|eexists; split; [done|]; by right].
  destruct (block_open bes b Hbl) as (d & -> & Hdr & Hdst & _). cbn [mbind option_bind]. rewrite Hdst. simpl (negb _). cbn iota.
  destruct (block_seekToFirst bes Hbv d Hdr) as (d1 & -> & Hd1). cbn [mbind option_bind].
  rewrite (block_ready_status _ _ (block_rep_ready _ _ _ Hd1)). simpl (negb _). cbn iota.
  assert (valid_ d1 = true) as ->.
  { pose proof (block_rep_head _ _ _ Hd1) as Hd. destruct bes as [|[k v] bes']; [done|]. by destruct Hd. }
  cbn [negb]. eexists. split; [done|]. left. split; [by split|]. split; [split_and!; [done|done|by exists d1]|done].
Qed.

Lemma si_data_valid it pre bes r b post :
  si_ready it -> si_in it pre bes r b post -> r <> [] ->
  si_valid it = true /\ exists k v r', r = (k, v) :: r' /\ si_internalKey it = Some k /\ si_value it = Some v.
Proof.
  intros Hr (_ & _ & d & Hd & Hrep) Hne. apply block_rep_head in Hrep. destruct r as [|[k v] r]; [done|].
  destruct Hrep as (Hv & Hk & Hval).
  assert (si_valid it = true) as Hsv by (unfold si_valid; by rewrite (sir_status _ Hr), Hd, Hv).
  split; [done|]. exists k, v, r. unfold si_internalKey, si_value, assert_that. rewrite Hsv, Hd. done.
Qed.

Lemma si_seekToFirst_ok it : si_ready it ->
  exists it', si_seekToFirst it = Some it' /\ si_moves it it' (si_pos it' es).
Proof.
  intros Hr. destruct Hr as [Ht Hi Hst]. unfold si_seekToFirst. rewrite Hst. simpl (negb _). cbn iota.
  destruct (block_seekToFirst _ index_valid_run (index_ it) Hi) as (i1 & -> & Hrep). cbn [mbind option_bind].
  pose proof (block_rep_ready _ _ _ Hrep) as Hir. rewrite (block_ready_status _ _ Hir). simpl (negb _). cbn iota.
  set (it1 := si_set _ _ _ _ _ _). assert (si_ready it1) as Hr1 by (by split).
  pose proof (block_rep_head _ _ _ Hrep) as Hh.
  destruct (decide (blocks = [])) as [E|E].
  - assert (index_entries 0 blocks = []) as Ei by (by rewrite E). rewrite Ei in Hh. rewrite Hh. exists it1.
    split; [done|]. left. split_and!; [done| |done]. split; [done|]. left. split; [unfold es; by rewrite E|done].
  - destruct (cons_block blocks E) as (bes & b & post & Hs).
    assert (index_entries 0 blocks = index_entries (len (data_bytes [])) ((bes, b) :: post)) as Ei by (by rewrite Hs).
    assert (valid_ i1 = true) as ->. { rewrite Ei in Hh. by destruct Hh. }
    rewrite Ei in Hrep at 2. destruct (loadDataBlock_ok it1 [] bes b post Hr1 Hs Hrep) as (it2 & -> & Hm).
    destruct (data_block_facts _ _ _ _ Hs) as (_ & Hne & _ & _ & He). eexists. split; [done|].
    destruct Hm as [(Hr2 & Hin & Hb)|Hbad]; [left|by right]. split_and!; [done| |done]. split; [done|]. right.
    exists [], bes, bes, b, post. split_and!; [done|done|]. by rewrite He.
Qed.

Lemma si_seek_ok it target :
  si_ready it -> is_Some (parseInternalKey target) ->
  exists it', si_seek it target = Some it' /\ si_moves it it' (si_pos it' (seek_spec target es)).
Proof.
  intros [Ht Hi Hst] [p Hp]. unfold si_seek. rewrite Hst, Hp. simpl (negb _). cbn iota.
  destruct (block_seek _ index_valid_run (index_ it) target (index_run blocks 0 Hok Hrun) Hi ltac:(by eexists))
    as (i1 & -> & Hrep). cbn [mbind option_bind].
  pose proof (block_rep_ready _ _ _ Hrep) as Hir. rewrite (block_ready_status _ _ Hir). simpl (negb _). cbn iota.
  set (it1 := si_set _ _ _ _ _ _). assert (si_ready it1) as Hr1 by (by split).
  fold (seek_spec target (index_entries 0 blocks)) in Hrep.
  destruct (index_seek target blocks 0) as (pre & post & Hs & Heq & Hpre & Hpost). rewrite Heq in Hrep.
  rewrite (seek_blocks target pre post Hs Hpre). pose proof (block_rep_head _ _ _ Hrep) as Hh.
  destruct post as [|[bes b] post]; simpl in Hh.
  { rewrite Hh. cbn [negb]. exists it1. split; [done|]. left. split_and!; [done| |done]. split; [done|]. by left. }
  destruct Hh as (-> & _ & _). cbn [negb]. rewrite Z.add_0_l in Hrep.
  destruct (loadDataBlock_ok it1 pre bes b post Hr1 Hs Hrep) as (it2 & -> & Hm). cbn [mbind option_bind].
  destruct Hm as [(Hr2 & Hin & Hb)|[Hbad Hn]]; [|rewrite Hbad; eexists; split; [done|]; by right].
  rewrite (sir_status _ Hr2). simpl (negb _). cbn iota. destruct Hin as (_ & Hrep2 & d & Hd & Hdrep).
  rewrite Hd. cbn [mbind option_bind]. destruct (data_block_facts pre bes b post Hs) as (_ & Hne & _ & Hbr & _).
  pose proof Hbr as [_ Hbv].
  destruct (block_seek bes Hbv d target Hbr (block_rep_ready _ _ _ Hdrep) ltac:(by eexists)) as (d1 & -> & Hd1).
  cbn [mbind option_bind]. rewrite (block_ready_status _ _ (block_rep_ready _ _ _ Hd1)). simpl (negb _). cbn iota.
  fold (seek_spec target bes) in Hd1. pose proof (seek_spec_final bes target Hne Hpost) as Hnn.
  assert (valid_ d1 = true) as ->.
  { pose proof (block_rep_head _ _ _ Hd1) as Hv. destruct (seek_spec target bes) as [|[k v] r]; [done|]. by destruct Hv. }
  cbn [negb]. eexists. split; [done|]. left. split_and!; [destruct Hr2; by split| |done]. split; [destruct Hr2; by split|]. right.
  exists pre, bes, (seek_spec target bes), b, post. split_and!.
  - split_and!; [done|done|]. exists d1. done.
  - done.
  - simpl map. simpl concat. unfold seek_spec in *. by apply dropwhile_app_stop.
Qed.

Lemma si_next_ok it e rest :
  si_pos it (e :: rest) -> exists it', si_next it = Some it' /\ si_moves it it' (si_pos it' rest).
Proof.
  intros (Hr & [[? _]|(pre & bes & r & b & post & Hin & Hne & Hrest)]); [done|].
  destruct (si_data_valid _ _ _ _ _ _ Hr Hin Hne) as (Hv & k & v & r' & -> & _ & _). simplify_eq/=.
  pose proof Hr as [Ht Hi Hst]. destruct Hin as (Hs & Hrep & d & Hd & Hdrep).
  destruct (data_block_facts pre bes b post Hs) as (_ & Hbne & _ & [_ Hbv] & _).
  unfold si_next, assert_that. rewrite Hv, Hd. cbn [mbind option_bind].
  destruct (block_next bes Hbv d _ r' Hdrep) as (d1 & -> & Hd1). cbn [mbind option_bind].
  rewrite (block_ready_status _ _ (block_rep_ready _ _ _ Hd1)). simpl (negb _). cbn iota.
  pose proof (block_rep_head _ _ _ Hd1) as Hh. destruct r' as [|[k' v'] r'].
  - rewrite Hh. destruct (block_next _ index_valid_run (index_ it) _ _ Hrep) as (i1 & -> & Hrep1).
    cbn [mbind option_bind]. pose proof (block_rep_ready _ _ _ Hrep1) as Hir.
    rewrite (block_ready_status _ _ Hir). simpl (negb _). cbn iota.
    set (it1 := si_set _ _ _ _ _ _). assert (si_ready it1) as Hr1 by (by split).
    pose proof (block_rep_head _ _ _ Hrep1) as Hh1. simpl in Hrep1.
    assert (len (data_bytes pre) + len (framed b) = len (data_bytes (pre ++ [(bes, b)]))) as Hoff.
    { rewrite data_bytes_app, len_app. unfold data_bytes at 3. simpl. by rewrite app_nil_r. }
    rewrite Hoff in Hrep1. destruct post as [|[bes' b'] post]; simpl in Hh1.
    + rewrite Hh1. exists it1. split; [done|]. left. split_and!; [done| |done]. split; [done|]. by left.
    + destruct Hh1 as (-> & _).
      assert (blocks = (pre ++ [(bes, b)]) ++ (bes', b') :: post) as Hs' by (by rewrite <- app_assoc).
      destruct (loadDataBlock_ok it1 _ bes' b' post Hr1 Hs' Hrep1) as (it2 & -> & Hm).
      destruct (data_block_facts _ _ _ _ Hs') as (_ & Hne' & _). eexists. split; [done|].
      destruct Hm as [(Hr2 & Hin2 & Hb)|Hbad]; [left|by right]. split_and!; [done| |done]. split; [done|]. right.
      by exists (pre ++ [(bes, b)]), bes', bes', b', post.
  - destruct Hh as (-> & _). eexists. split; [done|]. left. split_and!; [by split| |done]. split; [by split|]. right.
    exists pre, bes, ((k', v') :: r'), b, post. split_and!; [|done|done]. split_and!; [done|done|]. exists d1. done.
Qed.

Lemma si_pos_suffix it rest : si_pos it rest -> exists before, es = before ++ rest.
Proof.
  intros (_ & [[-> _]|(pre & bes & r & b & post & (Hs & _ & d & _ & Hd) & _ & ->)]).
  { exists es. by rewrite app_nil_r. }
  destruct (block_rep_suffix bes d r Hd) as [before Hb].
  destruct (data_block_facts pre bes b post Hs) as (_ & _ & _ & _ & ->). rewrite Hb.
  exists (concat (map fst pre) ++ before). by rewrite <- !app_assoc.
Qed.
End table.

(** ** The iterator implements the interface *)

Record table_facts (es : list entry) (blocks : list dblock) (filter idx : bytes) : Prop := {
  tf_entries : es = concat (map fst blocks);
  tf_blocks : Forall block_ok blocks;
  tf_run : sorted_run (concat (map fst blocks));
  tf_cover : filter_covers filter (concat (map fst blocks));
  tf_index : block_of (index_entries 0 blocks) idx;
  tf_size : len (table_bytes blocks filter idx) <= kUint64Max;
}.

(** A reader as [sst_open] returns it for a table holding [es]. *)
Definition opened_table (es : list entry) (r : SSTableReader) : Prop :=
  exists blocks filter idx, table_facts es blocks filter idx /\ r = reader blocks filter idx.

Definition si_on (it : SSTableIterator) (es : list entry) : Prop :=
  exists blocks filter idx, table_facts es blocks filter idx /\ si_ready blocks filter idx it.
Definition si_at (it : SSTableIterator) (es rest : list entry) : Prop :=
  exists blocks filter idx, table_facts es blocks filter idx /\ si_pos blocks filter idx it rest.

Lemma table_of_facts es file :
  table_of es file -> sorted_run es ->
  exists blocks filter idx, table_facts es blocks filter idx /\ file = table_bytes blocks filter idx.
Proof.
  intros (blocks & filter & idx & -> & ? & ? & ? & -> & ?) Hrun. exists blocks, filter, idx. split; [by split|done].
Qed.

Lemma si_moves_at blocks filter idx es it it' rest :
  table_facts es blocks filter idx -> si_moves blocks filter idx it it' (si_pos blocks filter idx it' rest) ->
  moves si_at si_benign it it' es rest.
Proof. intros F [(_ & Hp & Hb)|?]; [left|by right]. split; [|done]. by exists blocks, filter, idx. Qed.

#[global] Program Instance sstable_iterator_spec : IteratorSpec SSTableIterator := {
  it_on := si_on;
  it_at := si_at;
  it_benign := si_benign;
}.
Next Obligation. intros it Hf. simpl in *. unfold si_valid. by rewrite Hf. Qed.
Next Obligation. intros it es (blocks & filter & idx & F & _). rewrite (tf_entries _ _ _ _ F). apply F. Qed.
Next Obligation. intros it es (blocks & filter & idx & F & Hr). apply Hr. Qed.
Next Obligation. intros it es rest (blocks & filter & idx & F & Hr & _). by exists blocks, filter, idx. Qed.
Next Obligation.
  intros it es rest (blocks & filter & idx & F & Hp). rewrite (tf_entries _ _ _ _ F).
  destruct F. by apply si_pos_suffix with filter idx it.
Qed.
Next Obligation.
  intros it es (blocks & filter & idx & F & Hr & [[_ Hd]|(pre & bes & r & b & post & _ & Hne & E)]).
  - simpl. unfold si_valid. rewrite (sir_status _ _ _ _ Hr), Hd. done.
  - symmetry in E. by apply app_nil in E as [? _].
Qed.
Next Obligation.
  intros it es k v rest (blocks & filter & idx & F & Hr & [[? _]|(pre & bes & r & b & post & Hin & Hne & E)]); [done|].
  destruct (si_data_valid _ _ _ _ _ _ _ _ _ Hr Hin Hne) as (Hv & k' & v' & r' & -> & ? & ?). by simplify_eq/=.
Qed.
Next Obligation.
  intros it es (blocks & filter & idx & F & Hr). pose proof F as []. subst es.
  destruct (si_seekToFirst_ok blocks filter idx ltac:(done) ltac:(done) ltac:(done) it Hr) as (it' & ? & Hm).
  exists it'. split; [done|]. by apply (si_moves_at blocks filter idx).
Qed.
Next Obligation.
  intros it es target (blocks & filter & idx & F & Hr) Ht _. pose proof F as []. subst es.
  destruct (si_seek_ok blocks filter idx ltac:(done) ltac:(done) ltac:(done) it target Hr Ht) as (it' & ? & Hm).
  exists it'. split; [done|]. by apply (si_moves_at blocks filter idx).
Qed.
Next Obligation.
  intros it es e rest (blocks & filter & idx & F & Hp). pose proof F as []. subst es.
  destruct (si_next_ok blocks filter idx ltac:(done) ltac:(done) ltac:(done) it e rest Hp) as (it' & ? & Hm).
  exists it'. split; [done|]. by apply (si_moves_at blocks filter idx).
Qed.

Lemma newSSTableIterator_on env r es verify :
  opened_table es r -> exists it, newSSTableIterator env r verify = Some it /\ it_on it es /\ si_env it = env.
Proof.
  intros (blocks & filter & idx & F & ->). pose proof F as []. unfold newSSTableIterator. cbn [reader sr_index_block].
  destruct (index_ready blocks idx ltac:(done)) as (it & -> & Hready & Hst & _). cbn [mbind option_bind]. rewrite Hst.
  eexists. split; [done|]. split; [|done]. exists blocks, filter, idx. split; [done|]. by split.
Qed.

Lemma opened_table_get env r es verify key seq :
  opened_table es r -> Forall benign_read (re_events env) -> 0 <= seq <= kMaxSequenceNumber ->
  sst_get env r verify key seq = Some (Ok (mvcc_get es key seq)).
Proof.
  intros (blocks & filter & idx & F & ->) Hb Hs. pose proof F as []. subst es. rewrite <- run_get_mvcc by done.
  by apply sst_get_ok.
Qed.

Lemma opened_table_run es r : opened_table es r -> sorted_run es.
Proof. intros (blocks & filter & idx & F & _). rewrite (tf_entries _ _ _ _ F). apply F. Qed.

Lemma sst_open_table env path es file :
  path <> "" -> Forall benign_read (re_events env) -> sorted_run es -> table_of es file ->
  exists r, sst_open env path (OpenedFile true (len file) file) = Some (Ok r) /\ opened_table es r.
Proof.
  intros Hp Hb Hrun Ht. destruct (table_of_facts es file Ht Hrun) as (blocks & filter & idx & F & ->).
  pose proof F as []. exists (reader blocks filter idx). split; [by apply sst_open_ok|]. by exists blocks, filter, idx.
Qed.

(** ** Corrupt tables are harmless *)

Lemma bi_value_valid it : valid_ it = true -> bi_value it = Some (value_ it).
Proof. intros H. unfold bi_value, assert_that. by rewrite H. Qed.
Lemma bi_key_valid it : valid_ it = true -> bi_key it = Some (key_ it).
Proof. intros H. unfold bi_key, assert_that. by rewrite H. Qed.

Lemma sst_open_safe env path f : exists res, sst_open env path f = Some res.
Proof.
  unfold sst_open. case_bool_decide; [by eauto|]. destruct f as [| |regular st_size file]; [by eauto..|].
  destruct (negb regular); [by eauto|]. destruct (st_size <? 0); [by eauto|].
  destruct (readSSTableFooter _ _ _ _) as [[[fh ih]|] evs]; [|by eauto].
  destruct (readBlock _ evs _ _ _ _) as [[fb|] evs1]; [|by eauto].
  destruct (readBlock _ evs1 _ _ _ _) as [[ib|] evs2]; [|by eauto].
  destruct (newBlockIterator_safe ib) as (it & -> & _). simpl. case_match; by eauto.
Qed.

Lemma sst_get_safe env r verify key seq :
  0 <= seq <= kMaxSequenceNumber -> exists res, sst_get env r verify key seq = Some res.
Proof.
  intros Hseq. unfold sst_get, assert_that. destruct (Z.leb_spec seq kMaxSequenceNumber); [cbn [mbind option_bind]|lia].
  destruct (negb (bloomFilterMayContain key _)); [by eauto|].
  assert (is_Some (parseInternalKey (encodeInternalKey key seq kValue))) as Hlk by (eexists; by apply parse_encode).
  destruct (newBlockIterator_safe (sr_index_block r)) as (i & -> & Hwf & _). cbn [mbind option_bind].
  destruct (negb (ok (status_ i))); [by eauto|]. destruct (bi_seek_safe i _ Hwf Hlk) as (i1 & -> & Hwf1 & _).
  cbn [mbind option_bind]. destruct (negb (ok (status_ i1))); [by eauto|].
  destruct (valid_ i1) eqn:Hv; cbn [negb]; [|by eauto]. rewrite bi_value_valid by done. cbn [mbind option_bind].
  destruct (indexHandle (value_ i1)); [|by eauto]. destruct (readBlock _ _ _ _ _ _) as [[blk|] evs]; [|by eauto].
  destruct (newBlockIterator_safe blk) as (d & -> & Hd & _). cbn [mbind option_bind].
  destruct (negb (ok (status_ d))); [by eauto|]. destruct (bi_seek_safe d _ Hd Hlk) as (d1 & -> & Hd1 & _).
  cbn [mbind option_bind]. destruct (negb (ok (status_ d1))); [by eauto|].
  destruct (valid_ d1) eqn:Hv1; cbn [negb]; [|by eauto]. rewrite bi_key_valid by done. cbn [mbind option_bind].
  destruct (parseInternalKey (key_ d1)); [|by eauto]. destruct (negb _); [by eauto|].
  destruct (type _); [by eauto|]. rewrite bi_value_valid by done. simpl. by eauto.
Qed.

(** Disturbed reads either fail or return what undisturbed ones do. *)
Definition undisturbed (env : ReadEnv) : ReadEnv := mkReadEnv [] (re_strerror env).

Lemma indexHandle_range encoded h : indexHandle encoded = Some h -> 0 <= h_offset h /\ 0 <= h_size h.
Proof.
  unfold indexHandle. destruct (getBlockHandle encoded) as [[h' [|]]|] eqn:E; intros; simplify_eq.
  apply getBlockHandle_Some in E as [_ [? ?]]. lia.
Qed.

Lemma sst_get_any env r verify key seq res :
  sst_get env r verify key seq = Some res ->
  (exists st, res = Err st /\ ok st = false /\ isNotFound st = false) \/ sst_get (undisturbed env) r verify key seq = Some res.
Proof.
  unfold sst_get. intros Hg. apply bind_Some in Hg as (u & Ha & Hg). rewrite Ha. cbn [mbind option_bind].
  destruct (negb (bloomFilterMayContain _ _)); [by right|]. apply bind_Some in Hg as (i & Hi & Hg). rewrite Hi. cbn [mbind option_bind].
  destruct (negb (ok (status_ i))); [by right|]. apply bind_Some in Hg as (i1 & Hi1 & Hg). rewrite Hi1. cbn [mbind option_bind].
  destruct (negb (ok (status_ i1))); [by right|]. destruct (negb (valid_ i1)); [by right|].
  apply bind_Some in Hg as (enc & He & Hg). rewrite He. cbn [mbind option_bind].
  destruct (indexHandle enc) as [h|] eqn:Eh; [|by right]. apply indexHandle_range in Eh as [? ?].
  destruct (readBlock _ (re_events env) _ _ _ _) as [[blk|st] evs] eqn:Er.
  - apply readBlock_undisturbed in Er; [|done..]. right. cbn [undisturbed re_strerror re_events]. by rewrite Er.
  - simplify_eq. left. exists st. split_and!; [done|by apply readBlock_Err in Er|by apply readBlock_error in Er].
Qed.

Lemma opened_table_get_any env r es verify key seq :
  opened_table es r -> 0 <= seq <= kMaxSequenceNumber ->
  exists res, sst_get env r verify key seq = Some res /\
    (res = Ok (mvcc_get es key seq) \/ exists st, res = Err st /\ ok st = false /\ isNotFound st = false).
Proof.
  intros Hr Hs. destruct (sst_get_safe env r verify key seq Hs) as [res Hg]. exists res. split; [done|].
  apply sst_get_any in Hg as [|Hg]; [by right|]. rewrite (opened_table_get _ _ es) in Hg by (done || constructor). left. congruence.
Qed.

Lemma sst_open_any env path f res :
  sst_open env path f = Some res ->
  (exists st, res = Err st /\ ok st = false) \/ sst_open (undisturbed env) path f = Some res.
Proof.
  unfold sst_open. case_bool_decide; [by right|]. destruct f as [| |regular st_size file]; [by right..|].
  destruct (negb regular); [by right|]. destruct (st_size <? 0); [by right|]. cbn [undisturbed re_strerror re_events].
  destruct (readSSTableFooter _ (re_events env) _ _) as [[[fh ih]|st] evs] eqn:E1; apply readSSTableFooter_any in E1.
  2:{ intros; simplify_eq. left. eauto. }
  destruct E1 as (-> & [? ?] & [? ?]). destruct (readBlock _ evs _ _ fh _) as [[fb|st] evs1] eqn:E2.
  2:{ intros; simplify_eq. left. exists st. split; [done|]. by apply readBlock_Err in E2. }
  apply readBlock_undisturbed in E2; [|lia..]. rewrite E2. destruct (readBlock _ evs1 _ _ ih _) as [[ib|st] evs2] eqn:E3.
  2:{ intros; simplify_eq. left. exists st. split; [done|]. by apply readBlock_Err in E3. }
  apply readBlock_undisturbed in E3; [|lia..]. rewrite E3. by right.
Qed.

(** Opening a finished table, whatever the system does: the right reader or an
    error. *)
Lemma sst_open_table_any env path es file f :
  path <> "" -> sorted_run es -> table_of es file ->
  (f = OpenedFile true (len file) file \/ (exists errno, f = OpenErrno errno) \/ (exists errno, f = StatErrno errno)) ->
  exists res, sst_open env path f = Some res /\
    match res with Ok r => opened_table es r | Err st => ok st = false end.
Proof.
  intros Hp Hrun Ht Hf. destruct (sst_open_safe env path f) as [res Hres]. exists res. split; [done|].
  destruct Hf as [->|[[errno ->]|[errno ->]]].
  2,3: unfold sst_open in Hres; rewrite bool_decide_false in Hres by done; by simplify_eq.
  apply sst_open_any in Hres as [(st & -> & ?)|Hres]; [done|].
  destruct (sst_open_table (undisturbed env) path es file Hp ltac:(constructor) Hrun Ht) as (r & Hr & Ho). by simplify_eq.
Qed.

(** The iterator over arbitrary bytes. *)
Record si_wf (it : SSTableIterator) : Prop := {
  siw_index : bi_wf (index_ it);
  siw_data : forall d, data_ it = Some d -> bi_wf d;
  siw_valid : si_valid it = true -> valid_ (index_ it) = true;
}.

Lemma si_wf_nodata it env index block status :
  bi_wf index -> si_wf (si_set it env index block None status).
Proof. intros H. split; simpl; [done|done|]. unfold si_valid. simpl. by rewrite andb_false_r. Qed.

Lemma loadDataBlock_safe it :
  bi_wf (index_ it) -> valid_ (index_ it) = true -> data_ it = None ->
  exists it', loadDataBlock it = Some it' /\ si_wf it' /\
    (ok (si_status it') = true -> is_Some (data_ it') /\ valid_ (index_ it') = true).
Proof.
  intros Hwf Hv Hd. unfold loadDataBlock. rewrite bi_value_valid, Hd by done. cbn [mbind option_bind].
  destruct (indexHandle _) as [h|].
  2:{ eexists. split; [done|]. split; [by apply si_wf_nodata|done]. }
  destruct (readBlock _ _ _ _ _ _) as [res evs] eqn:Hr. destruct res as [blk|st].
  2:{ eexists. split; [done|]. split; [by apply si_wf_nodata|]. apply readBlock_Err in Hr. simpl. congruence. }
  destruct (newBlockIterator_safe blk) as (d & -> & Hdw & _). cbn [mbind option_bind].
  destruct (ok (status_ d)) eqn:Hs; cbn [negb].
  2:{ eexists. split; [done|]. split; [by apply si_wf_nodata|]. simpl. congruence. }
  destruct (bi_seekToFirst_safe d Hdw) as (d1 & -> & Hdw1 & _). cbn [mbind option_bind].
  destruct (ok (status_ d1)) eqn:Hs1; cbn [negb].
  2:{ eexists. split; [done|]. split; [by apply si_wf_nodata|]. simpl. congruence. }
  destruct (valid_ d1) eqn:Hv1; cbn [negb].
  2:{ eexists. split; [done|]. split; [by apply si_wf_nodata|done]. }
  eexists. split; [done|]. split; [|simpl; by eauto]. split; simpl; [done| |done]. intros; by simplify_eq.
Qed.

Lemma si_seekToFirst_safe it : si_wf it -> exists it', si_seekToFirst it = Some it' /\ si_wf it'.
Proof.
  intros Hwf. unfold si_seekToFirst. destruct (negb (ok (si_status it))); [by eauto|].
  destruct (bi_seekToFirst_safe (index_ it) (siw_index _ Hwf)) as (i & -> & Hi & _). cbn [mbind option_bind].
  destruct (negb (ok (status_ i))); [eauto using si_wf_nodata|].
  destruct (valid_ i) eqn:Hv; [|eauto using si_wf_nodata].
  match goal with |- context [loadDataBlock ?x] => destruct (loadDataBlock_safe x) as (it' & -> & ? & _); [done..|] end. by eauto.
Qed.

Lemma si_seek_safe it target : si_wf it -> exists it', si_seek it target = Some it' /\ si_wf it'.
Proof.
  intros Hwf. unfold si_seek. destruct (negb (ok (si_status it))); [by eauto|].
  destruct (parseInternalKey target) as [p|] eqn:Hp; [|eauto using si_wf_nodata, siw_index].
  assert (is_Some (parseInternalKey target)) as Ht by (by eexists).
  destruct (bi_seek_safe (index_ it) target (siw_index _ Hwf) Ht) as (i & -> & Hi & _). cbn [mbind option_bind].
  destruct (negb (ok (status_ i))); [eauto using si_wf_nodata|].
  destruct (valid_ i) eqn:Hv; cbn [negb]; [|eauto using si_wf_nodata].
  match goal with |- context [loadDataBlock ?x] => destruct (loadDataBlock_safe x) as (it1 & -> & Hwf1 & Hd1); [done..|] end.
  cbn [mbind option_bind]. destruct (ok (si_status it1)) eqn:Hok; cbn [negb]; [|by eauto].
  destruct (Hd1 eq_refl) as [[d Hd] Hvi]. rewrite Hd. cbn [mbind option_bind].
  destruct (bi_seek_safe d target (siw_data _ Hwf1 _ Hd) Ht) as (d1 & -> & Hdw & _). cbn [mbind option_bind].
  destruct (negb (ok (status_ d1))); [eauto using si_wf_nodata, siw_index|].
  destruct (negb (valid_ d1)); [eauto using si_wf_nodata, siw_index|].
  eexists. split; [done|]. split; simpl; [by apply siw_index| |done]. intros; by simplify_eq.
Qed.

Lemma si_next_safe it : si_wf it -> si_valid it = true -> exists it', si_next it = Some it' /\ si_wf it'.
Proof.
  intros Hwf Hv. unfold si_next, assert_that. rewrite Hv. cbn [mbind option_bind].
  pose proof (siw_valid _ Hwf Hv) as Hiv. unfold si_valid in Hv. apply andb_true_iff in Hv as [Hok Hd].
  destruct (data_ it) as [d|] eqn:Hda; [|done]. cbn [mbind option_bind].
  destruct (bi_next_safe d (siw_data _ Hwf _ Hda) Hd) as (d1 & -> & Hdw & _). cbn [mbind option_bind].
  destruct (negb (ok (status_ d1))); [eauto using si_wf_nodata, siw_index|].
  destruct (valid_ d1) eqn:Hv1.
  { eexists. split; [done|]. split; simpl; [by apply siw_index| |done]. intros; by simplify_eq. }
  destruct (bi_next_safe (index_ it) (siw_index _ Hwf) Hiv) as (i & -> & Hi & _). cbn [mbind option_bind].
  destruct (negb (ok (status_ i))); [eauto using si_wf_nodata|].
  destruct (valid_ i) eqn:Hvi; [|eauto using si_wf_nodata].
  match goal with |- context [loadDataBlock ?x] => destruct (loadDataBlock_safe x) as (it' & -> & ? & _); [done..|] end. by eauto.
Qed.

(** A client's calls on a table iterator; [next] only when valid. *)
Definition si_do (it : SSTableIterator) (c : bi_call) : option SSTableIterator :=
  match c with
  | CallSeekToFirst => si_seekToFirst it
  | CallSeek target => si_seek it target
  | CallNext => if si_valid it then si_next it else Some it
  end.

Lemma si_calls_safe calls : forall it, si_wf it ->
  exists it', foldl (fun o c => it ← o; si_do it c) (Some it) calls = Some it' /\ si_wf it'.
Proof.
  induction calls as [|c calls IH]; intros it Hwf; [by eauto|]. cbn [foldl mbind option_bind].
  assert (exists it', si_do it c = Some it' /\ si_wf it') as (it' & -> & Hwf').
  { destruct c; simpl; [by apply si_seekToFirst_safe|by apply si_seek_safe|].
    destruct (si_valid it) eqn:Hv; [by apply si_next_safe|by eauto]. }
  by apply IH.
Qed.



(** C14. Reading back a finished table: the file a successful build leaves can
    be opened, a point lookup at any sequence number returns exactly what the
    multi-version specification says of the entries added, filter and index
    notwithstanding, and a full scan returns exactly those entries. *)
Theorem sstable_read_back strerror path block_size interval env es b0 b meta renv verify key seq :
  tb_open_file strerror path block_size interval None env = Some (Ok b0) ->
  sorted_run es -> table_room es <= kUint32Max ->
  build_table strerror es b0 = Some (b, Ok meta) ->
  path <> "" -> Forall benign_read (re_events renv) -> 0 <= seq <= kMaxSequenceNumber ->
  exists r it it',
    sst_open renv path (OpenedFile true (file_size meta) (contents (tb_file b))) = Some (Ok r) /\
    sst_get renv r verify key seq = Some (Ok (mvcc_get es key seq)) /\
    newSSTableIterator renv r verify = Some it /\ si_seekToFirst it = Some it' /\
    drain (S (length es)) it' = Some (es, success).
Proof.
  intros Hopen Hrun Hroom Hbuild Hp Hb Hseq. apply tb_open_inv in Hopen as [Hinv _].
  destruct (build_table_spec strerror b0 es Hinv Hrun Hroom) as (b' & res & Hb' & Hres). simplify_eq.
  destruct Hres as (Ht & _ & _ & _ & ->). simpl file_size.
  destruct (sst_open_table renv path es _ Hp Hb Hrun Ht) as (r & Ho & Hr).
  destruct (newSSTableIterator_on renv r es verify Hr) as (it & Hit & Hon & He).
  assert (it_benign it) as Hbi by (simpl; unfold si_benign; by rewrite He).
  destruct (spec_seekToFirst it es Hon) as (it' & Hs & [[Hat Hb']|[_ ?]]); [|done].
  exists r, it, it'. split_and!; [done|by apply opened_table_get|done|done|]. apply (drain_benign _ it' es es Hat (Hb' Hbi)). lia.
Qed.

Definition sample_table : option (SSTableBuilder * result SSTableMeta) :=
  build_table (fun _ => "") sample_run sample_builder.

Definition sample_built : SSTableBuilder :=
  match sample_table with Some (b, _) => b | None => sample_builder end.
Definition sample_meta : SSTableMeta :=
  match sample_table with Some (_, Ok meta) => meta | _ => mkSSTableMeta 0 0 [] [] end.

Lemma sample_table_built : build_table (fun _ => "") sample_run sample_builder = Some (sample_built, Ok sample_meta).
Proof. vm_compute. reflexivity. Qed.

Lemma sample_run_get : mvcc_get sample_run [x61] 6 = LookupDeleted.
Proof. vm_compute. reflexivity. Qed.

Definition sample_reads : ReadEnv := mkReadEnv [ReadCount 5; ReadErrno EINTR] (fun _ => "").

Lemma sstable_read_back_witness :
  mvcc_get sample_run [x61] 6 = LookupDeleted /\
  exists r it it',
    sst_open sample_reads "t"
      (OpenedFile true (file_size sample_meta) (contents (tb_file sample_built))) = Some (Ok r) /\
    sst_get sample_reads r true [x61] 6 = Some (Ok (mvcc_get sample_run [x61] 6)) /\
    newSSTableIterator sample_reads r true = Some it /\
    si_seekToFirst it = Some it' /\ drain 4 it' = Some (sample_run, success).
Proof.
  split; [exact sample_run_get|].
  apply (sstable_read_back (fun _ => "") "t" 40 2 sample_env sample_run sample_builder sample_built sample_meta
    sample_reads true [x61] 6).
  - reflexivity.
  - exact sample_run_sorted.
  - by vm_compute.
  - exact sample_table_built.
  - done.
  - repeat constructor.
  - unfold kMaxSequenceNumber. lia.
Defined.
