(* ===== verification/Arena.v ===== *)
(** The arena allocator (src/util/arena.cc) over addresses.  The system
    allocator behind [std::make_unique<char[]>] is a parameter with its
    documented guarantees: fresh, aligned blocks. *)
From S2P Require Import Prelude.

(** ** src/util/arena.h, src/util/arena.cc *)

Definition kDefaultBlockSize : Z := 4096.
Definition kObjectAlignment : Z := 16. (* alignof(std::max_align_t) *)

(** A range of memory: first address and size. *)
Notation range := (Z * Z)%type.

Record Arena := mkArena {
  arena_block_size : Z;
  blocks_ : list range;
  current_ : option Z;        (* [None] is [nullptr] *)
  remaining_ : Z;
  memory_usage_ : Z;
}.

Definition alignmentSlop (address : Z) : Z :=
  let remainder := address mod kObjectAlignment in
  if remainder =? 0 then 0 else kObjectAlignment - remainder.

Definition newArena (block_size : Z) : option Arena :=
  _ ← assert_that (0 <? block_size);
  Some (mkArena block_size [] None 0 0).

(** [new char[bytes]] when the blocks already handed out are known. *)
Class SystemAllocator := system_new : list range -> Z -> Z.

Definition disjoint_ranges (a b : range) : Prop := a.1 + a.2 <= b.1 \/ b.1 + b.2 <= a.1.
Definition inside (a b : range) : Prop := b.1 <= a.1 /\ a.1 + a.2 <= b.1 + b.2.

(** What [operator new[]] guarantees: an address aligned for any object, and
    memory that is not in use. *)
Class SystemAllocatorLaws `{SystemAllocator} := {
  system_new_aligned blocks n : system_new blocks n mod kObjectAlignment = 0;
  system_new_fresh blocks n : 0 < n -> Forall (disjoint_ranges (system_new blocks n, n)) blocks;
}.

Section arena.
Context `{SystemAllocator}.

Definition allocateBlock (a : Arena) (size : Z) : option Arena :=
  _ ← assert_that (0 <? size);
  _ ← assert_that (size <=? kUint64Max - memory_usage_ a);
  let block := system_new (blocks_ a) size in
  Some (mkArena (arena_block_size a) (blocks_ a ++ [(block, size)]) (Some block) size
          (memory_usage_ a + size)).

(** The returned pointer; [None] inside the pair is [nullptr]. *)
Definition allocate (a : Arena) (size : Z) : option (Arena * option Z) :=
  if size =? 0 then Some (a, None)
  else
    a ← (if remaining_ a <? size
         then allocateBlock a (if arena_block_size a <? size then size else arena_block_size a)
         else Some a);
    result ← current_ a;
    Some (mkArena (arena_block_size a) (blocks_ a) (Some (result + size)) (remaining_ a - size)
            (memory_usage_ a), Some result).

Definition current_slop (a : Arena) : Z :=
  match current_ a with None => 0 | Some c => alignmentSlop c end.

Definition allocateAligned (a : Arena) (size : Z) : option (Arena * option Z) :=
  if size =? 0 then Some (a, None)
  else
    let slop := current_slop a in
    '(a, slop) ←
      (if (remaining_ a <? slop) || (remaining_ a - slop <? size) then
         a ← allocateBlock a (if arena_block_size a <? size then size else arena_block_size a);
         Some (a, current_slop a)
       else Some (a, slop));
    _ ← assert_that ((slop <=? remaining_ a) && (size <=? remaining_ a - slop));
    c ← current_ a;
    Some (mkArena (arena_block_size a) (blocks_ a) (Some (c + (slop + size)))
            (remaining_ a - (slop + size)) (memory_usage_ a), Some (c + slop)).

Definition memoryUsage (a : Arena) : Z := memory_usage_ a.

(** ** Invariant *)

Definition total_size (blocks : list range) : Z := foldr (fun b n => b.2 + n) 0 blocks.

(** [used] are the ranges handed out so far, latest first. *)
Record arena_inv (a : Arena) (used : list range) : Prop := {
  ai_block_size : 0 < arena_block_size a;
  ai_remaining : 0 <= remaining_ a;
  ai_blocks : Forall (fun b : range => 0 < b.2) (blocks_ a);
  ai_usage : memory_usage_ a = total_size (blocks_ a);
  ai_null : current_ a = None -> remaining_ a = 0;
  ai_current c : current_ a = Some c ->
    (exists b, b ∈ blocks_ a /\ inside (c, remaining_ a) b) /\
    Forall (fun r => disjoint_ranges r (c, remaining_ a)) used;
  ai_used : Forall (fun r : range => 0 < r.2 /\ exists b, b ∈ blocks_ a /\ inside r b) used;
  ai_disjoint : ForallOrdPairs disjoint_ranges used;
}.

Lemma total_size_app a b : total_size (a ++ b) = total_size a + total_size b.
Proof. induction a as [|x a IH]; simpl; [done|]. lia. Qed.

Lemma newArena_inv block_size a : newArena block_size = Some a -> arena_inv a [].
Proof.
  unfold newArena, assert_that. destruct (Z.ltb_spec 0 block_size); simpl; [|done]. intros; simplify_eq.
  split; simpl; try done; constructor.
Qed.

Context `{!SystemAllocatorLaws}.

Lemma inside_disjoint r b x : inside r b -> disjoint_ranges x b -> disjoint_ranges r x.
Proof. unfold inside, disjoint_ranges. destruct r, b, x; simpl. lia. Qed.

Lemma allocateBlock_inv a used size :
  arena_inv a used -> 0 < size -> memory_usage_ a + size <= kUint64Max ->
  exists a' base, allocateBlock a size = Some a' /\ arena_inv a' used /\
    current_ a' = Some base /\ remaining_ a' = size /\ base mod kObjectAlignment = 0 /\
    arena_block_size a' = arena_block_size a /\ memory_usage_ a' = memory_usage_ a + size.
Proof.
  intros Hi Hs Hm. unfold allocateBlock, assert_that. destruct (Z.ltb_spec 0 size); [|lia].
  destruct (Z.leb_spec size (kUint64Max - memory_usage_ a)); [|lia]. simpl.
  set (base := system_new (blocks_ a) size). exists (mkArena (arena_block_size a) (blocks_ a ++ [(base, size)]) (Some base) size (memory_usage_ a + size)), base.
  pose proof (system_new_fresh (blocks_ a) size Hs) as Hf. rewrite Forall_elem in Hf.
  destruct Hi as [Hbs Hr Hb Hu Hn Hc Hus Hd]. rewrite Forall_elem in Hus.
  split_and!; [done| |done|done|apply system_new_aligned|done|done]. split; simpl; try done; try lia.
  - apply Forall_app. split; [done|]. by repeat constructor.
  - rewrite total_size_app. simpl. lia.
  - intros c [= <-]. split.
    + exists (base, size). split; [set_solver|]. unfold inside. simpl. lia.
    + rewrite Forall_elem. intros r Hr'. destruct (Hus _ Hr') as (_ & b & Hb' & Hin).
      apply inside_disjoint with b; [done|]. by apply Hf.
  - rewrite Forall_elem. intros r Hr'. destruct (Hus _ Hr') as (? & b & Hb' & Hin). split; [done|].
    exists b. set_solver.
Qed.

(** Taking [skip + size] bytes off the front of the free region. *)
Lemma carve_inv a used c skip size :
  arena_inv a used -> current_ a = Some c -> 0 <= skip -> 0 < size -> skip + size <= remaining_ a ->
  arena_inv (mkArena (arena_block_size a) (blocks_ a) (Some (c + (skip + size))) (remaining_ a - (skip + size))
    (memory_usage_ a)) ((c + skip, size) :: used).
Proof.
  intros [Hbs Hr Hb Hu Hn Hc Hus Hd] Hcur Hsk Hs Hrem. destruct (Hc _ Hcur) as [(b & Hbin & Hins) Hdis].
  rewrite Forall_elem in Hdis. unfold inside in Hins. simpl in Hins. split; simpl; try done; try lia.
  - intros c' [= <-]. split.
    + exists b. split; [done|]. unfold inside. simpl. lia.
    + rewrite Forall_elem. intros r. rewrite elem_of_cons. intros [->|Hr'].
      * unfold disjoint_ranges. simpl. lia.
      * specialize (Hdis _ Hr'). unfold disjoint_ranges in *. simpl in *. lia.
  - constructor; [|done]. simpl. split; [lia|]. exists b. split; [done|]. unfold inside. simpl. lia.
  - constructor; [|done]. apply list.Forall_forall. intros r Hr'. specialize (Hdis _ Hr').
    unfold disjoint_ranges in *. simpl in *. lia.
Qed.

Lemma block_choice a size : 0 < arena_block_size a -> 0 < size ->
  size <= (if arena_block_size a <? size then size else arena_block_size a) <= size + arena_block_size a.
Proof. intros. destruct (Z.ltb_spec (arena_block_size a) size); lia. Qed.

Lemma alignmentSlop_spec c :
  0 <= alignmentSlop c < kObjectAlignment /\ (c + alignmentSlop c) mod kObjectAlignment = 0.
Proof.
  unfold alignmentSlop, kObjectAlignment. pose proof (Z.mod_pos_bound c 16 ltac:(lia)).
  pose proof (Z.div_mod c 16 ltac:(lia)) as Hd. destruct (Z.eqb_spec (c mod 16) 0) as [E|E].
  - rewrite Z.add_0_r. lia.
  - split; [lia|]. replace (c + (16 - c mod 16)) with ((c / 16 + 1) * 16) by lia. apply Z.mod_mul. lia.
Qed.

(** One allocation: a fresh range inside the arena, disjoint from every range
    handed out before. *)
Lemma allocate_inv a used size :
  arena_inv a used -> 0 < size -> memory_usage_ a + size + arena_block_size a <= kUint64Max ->
  exists a' p, allocate a size = Some (a', Some p) /\ arena_inv a' ((p, size) :: used) /\
    arena_block_size a' = arena_block_size a /\
    memory_usage_ a <= memory_usage_ a' <= memory_usage_ a + size + arena_block_size a.
Proof.
  intros Hi Hs Hm. pose proof (ai_block_size _ _ Hi). unfold allocate. destruct (Z.eqb_spec size 0) as [|_]; [lia|].
  pose proof (block_choice a size ltac:(done) Hs). set (n := if arena_block_size a <? size then _ else _) in *.
  destruct (Z.ltb_spec (remaining_ a) size).
  - destruct (allocateBlock_inv a used n Hi) as (a1 & base & -> & Hi1 & Hc & Hr & _ & Hbs & Hmu); [lia..|].
    cbn [mbind option_bind]. rewrite Hc. cbn [mbind option_bind]. eexists _, _. split; [done|].
    pose proof (carve_inv a1 used base 0 size Hi1 Hc) as Hcv. rewrite !Z.add_0_l, !Z.add_0_r in Hcv. simpl.
    split_and!; [apply Hcv; lia|done|lia..].
  - cbn [mbind option_bind]. destruct (current_ a) as [c|] eqn:Hc.
    2:{ pose proof (ai_null _ _ Hi Hc). lia. }
    cbn [mbind option_bind]. eexists _, _. split; [done|]. pose proof (carve_inv a used c 0 size Hi Hc) as Hcv.
    rewrite !Z.add_0_l, !Z.add_0_r in Hcv. simpl. split_and!; [apply Hcv; lia|done|lia..].
Qed.

Lemma allocateAligned_inv a used size :
  arena_inv a used -> 0 < size -> memory_usage_ a + size + arena_block_size a <= kUint64Max ->
  exists a' p, allocateAligned a size = Some (a', Some p) /\ arena_inv a' ((p, size) :: used) /\
    p mod kObjectAlignment = 0 /\ arena_block_size a' = arena_block_size a /\
    memory_usage_ a <= memory_usage_ a' <= memory_usage_ a + size + arena_block_size a.
Proof.
  intros Hi Hs Hm. pose proof (ai_block_size _ _ Hi). unfold allocateAligned. destruct (Z.eqb_spec size 0) as [|_]; [lia|].
  pose proof (block_choice a size ltac:(done) Hs). set (n := if arena_block_size a <? size then _ else _) in *.
  assert ((remaining_ a <? current_slop a) || (remaining_ a - current_slop a <? size) = false ->
    exists c, current_ a = Some c) as Hcur.
  { intros E. apply orb_false_iff in E as [E1 E2]. destruct (current_ a) as [c|] eqn:Hc; [by eauto|].
    pose proof (ai_null _ _ Hi Hc). unfold current_slop in E2. rewrite Hc in E2. lia. }
  destruct ((remaining_ a <? current_slop a) || (remaining_ a - current_slop a <? size)) eqn:E.
  - destruct (allocateBlock_inv a used n Hi) as (a1 & base & -> & Hi1 & Hc & Hr & Hal & Hbs & Hmu); [lia..|].
    cbn [mbind option_bind]. unfold current_slop. rewrite Hc.
    assert (alignmentSlop base = 0) as -> by (unfold alignmentSlop; by rewrite Hal).
    unfold assert_that. destruct (Z.leb_spec 0 (remaining_ a1)); [|lia].
    destruct (Z.leb_spec size (remaining_ a1 - 0)); [|lia]. cbn [andb mbind option_bind].
    eexists _, _. split; [done|]. simpl. split_and!; [|by rewrite Z.add_0_r|done|lia..].
    apply carve_inv; (done || lia).
  - destruct (Hcur eq_refl) as [c Hc]. apply orb_false_iff in E as [E1 E2].
    cbn [mbind option_bind]. unfold assert_that.
    destruct (Z.leb_spec (current_slop a) (remaining_ a)); [|lia].
    destruct (Z.leb_spec size (remaining_ a - current_slop a)); [|lia]. cbn [andb mbind option_bind].
    rewrite Hc. cbn [mbind option_bind]. unfold current_slop in *. rewrite Hc in *.
    destruct (alignmentSlop_spec c) as [Hsl Hal]. eexists _, _. split; [done|]. simpl.
    split_and!; [|done|done|lia..]. apply carve_inv; (done || lia).
Qed.

(** A client's requests: aligned or not, and their sizes.  The ranges granted
    are collected latest first. *)
Fixpoint serve (requests : list (bool * Z)) (a : Arena) (granted : list (bool * range)) :
    option (Arena * list (bool * range)) :=
  match requests with
  | [] => Some (a, granted)
  | (aligned, size) :: requests =>
      '(a, p) ← (if aligned then allocateAligned a size else allocate a size);
      serve requests a (match p with Some p => (aligned, (p, size)) :: granted | None => granted end)
  end.

Definition requested (bs : Z) (requests : list (bool * Z)) : Z :=
  foldr (fun r n => r.2 + bs + n) 0 requests.

Definition aligned_ok (g : bool * range) : Prop := g.1 = true -> g.2.1 mod kObjectAlignment = 0.

Lemma serve_inv requests : forall a granted,
  arena_inv a (map snd granted) -> Forall aligned_ok granted ->
  Forall (fun r => 0 <= r.2) requests ->
  memory_usage_ a + requested (arena_block_size a) requests <= kUint64Max ->
  exists a' granted', serve requests a granted = Some (a', granted') /\
    arena_inv a' (map snd granted') /\ Forall aligned_ok granted'.
Proof.
  induction requests as [|[aligned size] requests IH]; intros a granted Hi Hg Hr Hm; [by eauto|].
  apply Forall_cons_iff in Hr as [Hs Hr]. simpl in Hs, Hm.
  pose proof (ai_block_size _ _ Hi) as Hbs.
  assert (0 <= requested (arena_block_size a) requests) as Hnn.
  { clear -Hr Hbs. induction Hr as [|r rs H _ IH]; simpl in *; lia. }
  cbn [serve]. destruct (decide (size = 0)) as [->|Hne].
  { assert (allocate a 0 = Some (a, None)) as E1 by done. assert (allocateAligned a 0 = Some (a, None)) as E2 by done.
    rewrite E1, E2. destruct aligned; cbn [mbind option_bind]; apply IH; (done || lia). }
  assert (exists a' p, (if aligned then allocateAligned a size else allocate a size) = Some (a', Some p) /\
    arena_inv a' ((p, size) :: map snd granted) /\ (aligned = true -> p mod kObjectAlignment = 0) /\
    arena_block_size a' = arena_block_size a /\
    memory_usage_ a' <= memory_usage_ a + size + arena_block_size a) as (a' & p & -> & Hi' & Hal & Hb & Hmu).
  { destruct aligned.
    - destruct (allocateAligned_inv a _ size Hi) as (a' & p & ? & ? & ? & ? & ?); [lia..|]. exists a', p. split_and!; (done || lia).
    - destruct (allocate_inv a _ size Hi) as (a' & p & ? & ? & ? & ?); [lia..|]. exists a', p. split_and!; (done || lia). }
  cbn [mbind option_bind]. apply IH; [done|by constructor|done|]. rewrite Hb. lia.
Qed.

End arena.

(** C22. The arena: however aligned and unaligned requests are interleaved,
    every non-empty request is granted; the granted ranges are pairwise
    disjoint, each lies inside one block obtained from the system, aligned
    requests get aligned addresses, no assertion fails, and the reported memory
    usage is the total size of the blocks. *)
Theorem arena_allocations `{SystemAllocatorLaws} block_size requests a :
  newArena block_size = Some a -> Forall (fun r => 0 <= r.2) requests ->
  requested block_size requests <= kUint64Max ->
  exists a' granted, serve requests a [] = Some (a', granted) /\
    ForallOrdPairs disjoint_ranges (map snd granted) /\
    Forall (fun r => exists b, b ∈ blocks_ a' /\ inside r b) (map snd granted) /\
    Forall aligned_ok granted /\ memoryUsage a' = total_size (blocks_ a').
Proof.
  intros Hn Hr Hm. pose proof (newArena_inv _ _ Hn) as Hi.
  assert (arena_block_size a = block_size /\ memory_usage_ a = 0) as [Hb Hu].
  { unfold newArena, assert_that in Hn. destruct (0 <? block_size); simplify_eq/=. done. }
  destruct (serve_inv requests a [] Hi) as (a' & granted & Hs & Hi' & Hal); [constructor|done|rewrite Hb, Hu; lia|].
  exists a', granted. split_and!; [done|by apply (ai_disjoint _ _ Hi')| |done|by apply (ai_usage _ _ Hi')].
  eapply Forall_impl; [|exact (ai_used _ _ Hi')]. simpl. by intros r [_ ?].
Qed.

(** A bump allocator is such a system. *)
Definition bump_end (blocks : list range) : Z := foldr (fun b n => Z.max (b.1 + b.2) n) 0 blocks.

#[local] Instance bump_allocator : SystemAllocator := fun blocks _ => (bump_end blocks / 16 + 1) * 16.

#[local] Instance bump_allocator_laws : SystemAllocatorLaws.
Proof.
  split; intros blocks n; unfold system_new, bump_allocator.
  - apply Z.mod_mul. done.
  - intros Hn. rewrite Forall_elem. intros b Hb. right. simpl.
    assert (b.1 + b.2 <= bump_end blocks) by (induction Hb; simpl; lia).
    pose proof (Z.div_mod (bump_end blocks) 16 ltac:(lia)). pose proof (Z.mod_pos_bound (bump_end blocks) 16 ltac:(lia)). lia.
Qed.

Lemma arena_allocations_witness :
  exists a' granted, serve [(false, 3); (true, 40); (false, 0); (true, 9000)] (mkArena 4096 [] None 0 0) [] = Some (a', granted) /\
    ForallOrdPairs disjoint_ranges (map snd granted) /\
    Forall (fun r => exists b, b ∈ blocks_ a' /\ inside r b) (map snd granted) /\
    Forall aligned_ok granted /\ memoryUsage a' = total_size (blocks_ a').
Proof.
  apply (arena_allocations 4096 [(false, 3); (true, 40); (false, 0); (true, 9000)]).
  - reflexivity.
  - repeat (constructor; [simpl; lia|]). constructor.
  - by vm_compute.
Defined.
