(* ===== verification/SkipList.v ===== *)
(** The skip list of the memtable (src/db/skiplist.h): nodes at arena
    addresses, one singly linked list per level, deterministic heights.
    Insertion is proved to keep every level a sub-list of the one below and to
    implement insertion into a sorted list; the search loop is proved to
    terminate and to return the first key not below the target. *)
From S2P Require Import Prelude Arena.

(** ** src/db/skiplist.h *)

Definition kMaxHeight : nat := 12.

(** [Node]: the key and the array of [height] next pointers. *)
Record Node (K : Type) := mkNode { node_key : K; node_next : list (option Z) }.
Arguments mkNode {K} _ _.
Arguments node_key {K} _.
Arguments node_next {K} _.

Record SkipList (K : Type) := mkSkipList {
  nodes : gmap Z (Node K);       (* the nodes placed in the arena *)
  head_ : Z;
  max_height_ : nat;
  random_state_ : Z;
}.
Arguments mkSkipList {K} _ _ _ _.
Arguments nodes {K} _.
Arguments head_ {K} _.
Arguments max_height_ {K} _.
Arguments random_state_ {K} _.

(** [nextRandom] and [randomHeight] on the 32-bit generator state. *)
Definition nextRandom (state : Z) : Z :=
  let state := Z.lxor state (wrap32 (Z.shiftl state 13)) in
  let state := Z.lxor state (Z.shiftr state 17) in
  Z.lxor state (wrap32 (Z.shiftl state 5)).

(** The loop from [height] on; [levels] is [kMaxHeight - height]. *)
Fixpoint randomHeight_loop (levels height : nat) (state : Z) : nat * Z :=
  match levels with
  | O => (height, state)
  | S levels =>
      let state := nextRandom state in
      if Z.land state 3 =? 0 then randomHeight_loop levels (S height) state else (height, state)
  end.
Definition randomHeight (state : Z) : nat * Z := randomHeight_loop (kMaxHeight - 1) 1 state.

Section skiplist.
Context {K : Type} (comparator_ : K -> K -> Z) (key0 : K) `{SystemAllocator}.

Definition nextAt (s : SkipList K) (node : Z) (level : nat) : option (option Z) :=
  n ← nodes s !! node; node_next n !! level.

Definition setNext (s : SkipList K) (node : Z) (level : nat) (next : option Z) : option (SkipList K) :=
  n ← nodes s !! node;
  _ ← node_next n !! level;
  Some (mkSkipList (<[node := mkNode (node_key n) (<[level := next]> (node_next n))]> (nodes s))
          (head_ s) (max_height_ s) (random_state_ s)).

(** [sizeof(Node)] is a pointer-sized key and a pointer; links follow it. *)
Definition node_bytes (height : nat) : Z := 16 + 8 * Z.of_nat height.

Definition newNode (s : SkipList K) (a : Arena) (key : K) (height : nat) :
    option (SkipList K * Arena * Z) :=
  _ ← assert_that ((1 <=? height)%nat && (height <=? kMaxHeight)%nat);
  '(a, memory) ← allocateAligned a (node_bytes height);
  node ← memory;
  Some (mkSkipList (<[node := mkNode key (replicate height None)]> (nodes s))
          (head_ s) (max_height_ s) (random_state_ s), a, node).

(** The constructor. *)
Definition newSkipList (a : Arena) : option (SkipList K * Arena) :=
  '(s, a, head) ← newNode (mkSkipList ∅ 0 1 2654435769) a key0 kMaxHeight;
  Some (mkSkipList (nodes s) head (max_height_ s) (random_state_ s), a).

Definition equal (lhs rhs : K) : bool := comparator_ lhs rhs =? 0.

Definition keyIsAfterNode (s : SkipList K) (key : K) (node : option Z) : option bool :=
  match node with
  | None => Some false
  | Some node => n ← nodes s !! node; Some (comparator_ (node_key n) key <? 0)
  end.

(** The search loop; [previous] holds the last node visited on each level. *)
Fixpoint find_loop (fuel : nat) (s : SkipList K) (target : K) (node : Z) (level : nat)
    (previous : list (option Z)) : option (option Z * list (option Z)) :=
  match fuel with
  | O => None
  | S fuel =>
      next ← nextAt s node level;
      after ← keyIsAfterNode s target next;
      match next, after with
      | Some next, true => find_loop fuel s target next level previous
      | _, _ =>
          let previous := <[level := Some node]> previous in
          match level with
          | O => Some (next, previous)
          | S level => find_loop fuel s target node level previous
          end
      end
  end.

(** Every step moves right or down, so nodes plus levels bound the search. *)
Definition findGreaterOrEqual (s : SkipList K) (target : K) :
    option (option Z * list (option Z)) :=
  find_loop (size (nodes s) + max_height_ s) s target (head_ s) (max_height_ s - 1)
    (replicate kMaxHeight None).

(** [for (level = from; level < from + count; ++level) previous[level] = head_;] *)
Fixpoint fill_head (count from : nat) (head : Z) (previous : list (option Z)) : list (option Z) :=
  match count with
  | O => previous
  | S count => fill_head count (S from) head (<[from := Some head]> previous)
  end.

(** The linking loop, from [level] on. *)
Fixpoint link_loop (count level : nat) (s : SkipList K) (node : Z) (previous : list (option Z)) :
    option (SkipList K) :=
  match count with
  | O => Some s
  | S count =>
      prev ← previous !! level ≫= id;
      next ← nextAt s prev level;
      s ← setNext s node level next;
      s ← setNext s prev level (Some node);
      link_loop count (S level) s node previous
  end.

Definition sl_insert (s : SkipList K) (a : Arena) (key : K) : option (SkipList K * Arena) :=
  '(existing, previous) ← findGreaterOrEqual s key;
  exists_equal ←
    match existing with
    | None => Some false
    | Some e => n ← nodes s !! e; Some (equal key (node_key n))
    end;
  _ ← assert_that (negb exists_equal);
  let '(height, random_state) := randomHeight (random_state_ s) in
  let current_max_height := max_height_ s in
  let previous :=
    if (current_max_height <? height)%nat
    then fill_head (height - current_max_height) current_max_height (head_ s) previous
    else previous in
  let s := mkSkipList (nodes s) (head_ s) (max_height_ s) random_state in
  '(s, a, node) ← newNode s a key height;
  s ← link_loop height 0 s node previous;
  Some (mkSkipList (nodes s) (head_ s)
          (if (current_max_height <? height)%nat then height else max_height_ s) (random_state_ s), a).

Definition contains (s : SkipList K) (key : K) : option bool :=
  '(node, _) ← findGreaterOrEqual s key;
  match node with
  | None => Some false
  | Some node => n ← nodes s !! node; Some (equal key (node_key n))
  end.

(** [SkipList::Iterator]: a node or null. *)
Definition sl_iter := option Z.
Definition sl_valid (it : sl_iter) : bool := match it with Some _ => true | None => false end.
Definition sl_key (s : SkipList K) (it : sl_iter) : option K :=
  node ← it; n ← nodes s !! node; Some (node_key n).
Definition sl_next (s : SkipList K) (it : sl_iter) : option sl_iter := node ← it; nextAt s node 0.
Definition sl_seek (s : SkipList K) (target : K) : option sl_iter :=
  '(node, _) ← findGreaterOrEqual s target; Some node.
Definition sl_seekToFirst (s : SkipList K) : option sl_iter := nextAt s (head_ s) 0.

End skiplist.

(** ** The chain of nodes *)

(** What the list needs of its comparator. *)
Class ComparatorLaws {K} (cmp : K -> K -> Z) := {
  cmp_trans a b c : cmp a b < 0 -> cmp b c < 0 -> cmp a c < 0;
  cmp_flip a b : cmp a b <> 0 -> ~ cmp b a < 0 -> cmp a b < 0;
  cmp_sym a b : cmp a b = 0 -> cmp b a = 0;
}.

Section chain.
Context {K : Type} (cmp : K -> K -> Z) (key0 : K).

(** A node of the list: address, key and height. *)
Notation cell := (Z * (K * nat))%type.
Implicit Types cs lo hi : list cell.

(** The next node on level [l]: the first with more than [l] levels. *)
Fixpoint succ (l : nat) cs : option Z :=
  match cs with
  | [] => None
  | (a, (_, h)) :: cs => if (l <? h)%nat then Some a else succ l cs
  end.

Definition links (h : nat) cs : list (option Z) := map (fun l => succ l cs) (seq 0 h).

(** The last node of [lo] with more than [l] levels, or [node] before it. *)
Fixpoint last_at (l : nat) (node : Z) lo : Z :=
  match lo with
  | [] => node
  | (a, (_, h)) :: lo => last_at l (if (l <? h)%nat then a else node) lo
  end.

(** The nodes of [cs], followed by [tail], are linked level by level. *)
Fixpoint cells_ok (m : gmap Z (Node K)) cs (tail : list cell) : Prop :=
  match cs with
  | [] => True
  | (a, (k, h)) :: cs =>
      m !! a = Some (mkNode k (links h (cs ++ tail))) /\ cells_ok m cs tail
  end.

Definition cell_lt (a b : cell) : Prop := cmp a.2.1 b.2.1 < 0.
Definition cell_below (target : K) (c : cell) : bool := cmp c.2.1 target <? 0.

Record sl_inv (s : SkipList K) cs : Prop := {
  sl_head : nodes s !! head_ s = Some (mkNode key0 (links kMaxHeight cs));
  sl_cells : cells_ok (nodes s) cs [];
  sl_nodup : NoDup (head_ s :: map fst cs);
  sl_size : size (nodes s) = S (length cs);
  sl_heights : Forall (fun c : cell => (1 <= c.2.2 <= max_height_ s)%nat) cs;
  sl_max : (1 <= max_height_ s <= kMaxHeight)%nat;
  sl_sorted : StronglySorted cell_lt cs;
}.

(** *** Successors *)

Lemma succ_Some l cs n :
  succ l cs = Some n -> exists skip k h rest, cs = skip ++ (n, (k, h)) :: rest /\
    Forall (fun c : cell => (c.2.2 <= l)%nat) skip /\ (l < h)%nat.
Proof.
  induction cs as [|[a [k h]] cs IH]; simpl; [done|]. destruct (Nat.ltb_spec l h); intros E.
  - simplify_eq. exists [], k, h, cs. split_and!; [done|constructor|done].
  - destruct (IH E) as (skip & k' & h' & rest & -> & Hf & Hl). exists ((a, (k, h)) :: skip), k', h', rest.
    split_and!; [done|by constructor|done].
Qed.

Lemma succ_None l cs : succ l cs = None -> Forall (fun c : cell => (c.2.2 <= l)%nat) cs.
Proof.
  induction cs as [|[a [k h]] cs IH]; simpl; [constructor|]. destruct (Nat.ltb_spec l h); [done|].
  intros E. constructor; [done|by apply IH].
Qed.

Lemma succ_low l lo hi : Forall (fun c : cell => (c.2.2 <= l)%nat) lo -> succ l (lo ++ hi) = succ l hi.
Proof.
  induction 1 as [|[a [k h]] lo Hc _ IH]; simpl in *; [done|]. by destruct (Nat.ltb_spec l h); [lia|].
Qed.

Lemma last_at_low l node lo : Forall (fun c : cell => (c.2.2 <= l)%nat) lo -> last_at l node lo = node.
Proof. induction 1 as [|[a [k h]] lo Hc _ IH]; simpl in *; [done|]. by destruct (Nat.ltb_spec l h); [lia|]. Qed.

Lemma last_at_app l node lo lo' : last_at l node (lo ++ lo') = last_at l (last_at l node lo) lo'.
Proof. revert node. induction lo as [|[a [k h]] lo IH]; intros node; simpl; auto. Qed.

Lemma links_lookup h cs l : (l < h)%nat -> links h cs !! l = Some (succ l cs).
Proof.
  intros Hl. unfold links. change (map ?f ?x) with (f <$> x). rewrite list_lookup_fmap, lookup_seq_lt by done. done.
Qed.

Lemma length_links h cs : length (links h cs) = h.
Proof. unfold links. by rewrite length_map, length_seq. Qed.

Lemma links_S h cs : links (S h) cs = links h cs ++ [succ h cs].
Proof. unfold links. by rewrite seq_S, map_app. Qed.

Lemma cells_ok_app m lo hi tail :
  cells_ok m (lo ++ hi) tail <-> cells_ok m lo (hi ++ tail) /\ cells_ok m hi tail.
Proof.
  induction lo as [|[a [k h]] lo IH]; simpl; [tauto|]. rewrite IH, <- app_assoc. tauto.
Qed.

(** *** Searching *)

Context `{!ComparatorLaws cmp}.

Lemma below_prefix target skip c rest :
  StronglySorted cell_lt (skip ++ c :: rest) -> cell_below target c = true ->
  takewhile (cell_below target) (skip ++ c :: rest) = skip ++ c :: takewhile (cell_below target) rest /\
  dropwhile (cell_below target) (skip ++ c :: rest) = dropwhile (cell_below target) rest.
Proof.
  intros Hs Hc. apply StronglySorted_app in Hs as (Hlt & _ & _).
  assert (Forall (fun x => cell_below target x = true) skip) as Hskip.
  { rewrite Forall_elem. intros x Hx. unfold cell_below in *. apply Z.ltb_lt. apply Z.ltb_lt in Hc.
    apply cmp_trans with c.2.1; [|done]. apply (Hlt x c Hx). set_solver. }
  clear Hlt. induction Hskip as [|x skip Hx _ IH]; simpl.
  - by rewrite Hc.
  - rewrite Hx. destruct IH as [-> ->]. done.
Qed.

Lemma above_stop target skip c rest :
  cell_below target c = false ->
  exists skip', takewhile (cell_below target) (skip ++ c :: rest) = skip' /\ skip' `prefix_of` skip.
Proof.
  intros Hc. induction skip as [|x skip IH]; simpl.
  - rewrite Hc. exists []. by split.
  - destruct (cell_below target x).
    + destruct IH as (s' & -> & Hp). exists (x :: s'). split; [done|]. by apply prefix_cons.
    + exists []. split; [done|]. apply prefix_nil.
Qed.

Definition first_addr cs : option Z := match cs with [] => None | c :: _ => Some c.1 end.

Lemma takewhile_Forall (P : cell -> Prop) p cs : Forall P cs -> Forall P (takewhile p cs).
Proof. induction 1 as [|c cs Hc _ IH]; simpl; [constructor|]. destruct (p c); [by constructor|constructor]. Qed.

(** What a search from [node] on [level] down to 0 returns and records. *)
Definition found (target : K) (node : Z) cs (level : nat) (previous : list (option Z))
    (res : option (option Z * list (option Z))) : Prop :=
  exists previous', res = Some (first_addr (dropwhile (cell_below target) cs), previous') /\
    length previous' = length previous /\
    (forall l, (l <= level)%nat -> previous' !! l = Some (Some (last_at l node (takewhile (cell_below target) cs)))) /\
    (forall l, (level < l)%nat -> previous' !! l = previous !! l).

(** Nothing on [level] is left to skip: record the node and go down. *)
Lemma found_down target node cs level previous next rec :
  (level < length previous)%nat -> Forall (fun c : cell => (1 <= c.2.2)%nat) cs ->
  Forall (fun c : cell => (c.2.2 <= level)%nat) (takewhile (cell_below target) cs) ->
  (level = 0%nat -> next = first_addr (dropwhile (cell_below target) cs)) ->
  (forall level', level = S level' -> found target node cs level' (<[level := Some node]> previous) (rec level')) ->
  found target node cs level previous
    (match level with O => Some (next, <[level := Some node]> previous) | S level' => rec level' end).
Proof.
  intros Hp Hh Hlow Hres Hrec. destruct level as [|level].
  - rewrite (Hres eq_refl). eexists. split; [done|]. split_and!.
    + apply length_insert.
    + intros l Hl0. assert (l = 0%nat) as -> by lia. rewrite list_lookup_insert_eq by lia. by rewrite last_at_low.
    + intros l Hl0. by rewrite list_lookup_insert_ne by lia.
  - destruct (Hrec level eq_refl) as (p' & Hfl & Hlen & H1 & H2).
    exists p'. split_and!; [done|by rewrite Hlen, length_insert| |].
    + intros l Hl0. destruct (decide (l = S level)) as [->|]; [|apply H1; lia].
      rewrite H2 by lia. rewrite list_lookup_insert_eq by lia. by rewrite last_at_low.
    + intros l Hl0. rewrite H2 by lia. by rewrite list_lookup_insert_ne by lia.
Qed.

Lemma low_nil cs :
  Forall (fun c : cell => (1 <= c.2.2)%nat) cs -> Forall (fun c : cell => (c.2.2 <= 0)%nat) cs -> cs = [].
Proof. destruct 1; [done|]. intros Hf. apply Forall_cons_iff in Hf as [? _]. lia. Qed.

Lemma find_loop_spec target fuel : forall s node kk hn cs level previous,
  nodes s !! node = Some (mkNode kk (links hn cs)) -> (level < hn)%nat ->
  cells_ok (nodes s) cs [] -> StronglySorted cell_lt cs -> Forall (fun c : cell => (1 <= c.2.2)%nat) cs ->
  (length cs + level < fuel)%nat -> (level < length previous)%nat ->
  found target node cs level previous (find_loop cmp fuel s target node level previous).
Proof.
  induction fuel as [|fuel IH]; intros s node kk hn cs level previous Hn Hl Hok Hs Hh Hf Hp; [lia|].
  cbn [find_loop]. unfold nextAt. rewrite Hn. cbn [mbind option_bind node_next]. rewrite links_lookup by done.
  cbn [mbind option_bind].
  assert (forall level', level = S level' -> found target node cs level' (<[level := Some node]> previous)
    (find_loop cmp fuel s target node level' (<[level := Some node]> previous))) as Hrec.
  { intros level' ->. apply (IH s node kk hn); try done; try lia. rewrite length_insert. lia. }
  destruct (succ level cs) as [n|] eqn:Esucc; cbn [keyIsAfterNode mbind option_bind].
  - destruct (succ_Some _ _ _ Esucc) as (skip & k & h & rest & -> & Hlow & Hlh).
    apply cells_ok_app in Hok as [_ [Hnk Hok]]. rewrite app_nil_r in Hnk. rewrite Hnk. cbn [mbind option_bind node_key].
    change (cmp k target <? 0) with (cell_below target (n, (k, h))).
    destruct (cell_below target (n, (k, h))) eqn:Hb.
    + destruct (below_prefix target skip _ rest Hs Hb) as [Ht Hd].
      apply Forall_app in Hh as [_ Hh]. apply Forall_cons_iff in Hh as [_ Hh].
      apply StronglySorted_app in Hs as (_ & _ & Hs). inversion Hs; subst. rewrite length_app in Hf. simpl in Hf.
      destruct (IH s n k h rest level previous) as (p' & Hfl & Hlen & H1' & H2'); try done; [lia|].
      exists p'. rewrite Ht, Hd. split_and!; try done. intros l Hl0. rewrite (H1' l Hl0), last_at_app. simpl.
      by destruct (Nat.ltb_spec l h); [|lia].
    + apply (found_down target node _ level previous (Some n)
        (fun level' => find_loop cmp fuel s target node level' (<[level := Some node]> previous))); try done.
      * destruct (above_stop target skip (n, (k, h)) rest Hb) as (s' & -> & [r ->]).
        by apply Forall_app in Hlow as [? _].
      * intros ->. apply Forall_app in Hh as [Hh _]. rewrite (low_nil skip Hh Hlow). simpl. by rewrite Hb.
  - pose proof (succ_None _ _ Esucc) as Hlow.
    apply (found_down target node _ level previous None
      (fun level' => find_loop cmp fuel s target node level' (<[level := Some node]> previous))); try done.
    + by apply takewhile_Forall.
    + intros ->. by rewrite (low_nil cs Hh Hlow).
Qed.

Lemma findGreaterOrEqual_spec s cs target :
  sl_inv s cs ->
  found target (head_ s) cs (max_height_ s - 1) (replicate kMaxHeight None) (findGreaterOrEqual cmp s target).
Proof.
  intros [Hh Hc Hn Hsz Hhs Hm Hs]. unfold findGreaterOrEqual.
  apply (find_loop_spec target _ s (head_ s) key0 kMaxHeight); try done; try lia.
  - eapply Forall_impl; [|exact Hhs]. simpl. lia.
  - rewrite length_replicate. lia.
Qed.

(** *** Linking a node in *)

Lemma randomHeight_range state : (1 <= (randomHeight state).1 <= kMaxHeight)%nat.
Proof.
  unfold randomHeight. assert (forall n h st, (h <= (randomHeight_loop n h st).1 <= h + n)%nat) as Hr.
  { induction n as [|n IH]; intros h st; simpl; [lia|]. destruct (_ =? 0); simpl; [|lia].
    specialize (IH (S h) (nextRandom st)). lia. }
  specialize (Hr (kMaxHeight - 1)%nat 1%nat state). unfold kMaxHeight in *. lia.
Qed.

Lemma cells_ok_insert m a x cs tail :
  a ∉ map fst cs -> cells_ok m cs tail -> cells_ok (<[a := x]> m) cs tail.
Proof.
  induction cs as [|[b [k h]] cs IH]; simpl; [done|]. rewrite not_elem_of_cons. intros [Hne Hn] [Hb Hc].
  rewrite lookup_insert_ne by done. split; [done|by apply IH].
Qed.

Lemma cells_ok_agree m m' cs tail :
  (forall x, x ∈ map fst cs -> m' !! x = m !! x) -> cells_ok m cs tail -> cells_ok m' cs tail.
Proof.
  induction cs as [|[b [k h]] cs IH]; simpl; [done|]. intros Hag [Hb Hc].
  split; [rewrite Hag; [done|set_solver]|]. apply IH; [|done]. intros x Hx. apply Hag. set_solver.
Qed.

(** While the new node [n] is linked on the levels below [j], it acts as a node
    of height [j]. *)
Section link.
Context (n : Z) (k : K) (hi : list cell).

Definition partial (j : nat) : list cell := (n, (k, j)) :: hi.

Lemma succ_partial l j rest :
  (l <> j \/ exists c, c ∈ rest /\ (l < c.2.2)%nat) ->
  succ l (rest ++ partial j) = succ l (rest ++ partial (S j)).
Proof.
  induction rest as [|[a [k' h']] rest IH]; simpl; intros Hor.
  - destruct Hor as [Hne|(c & Hc & _)]; [|set_solver].
    destruct (Nat.ltb_spec l j), (Nat.ltb_spec l (S j)); (done || lia).
  - destruct (Nat.ltb_spec l h'); [done|]. apply IH. destruct Hor as [|(c & Hc & Hl)]; [by left|right].
    exists c. split; [|done]. apply elem_of_cons in Hc as [->|]; [simpl in Hl; lia|done].
Qed.

Lemma links_ext h cs cs' : (forall l, (l < h)%nat -> succ l cs = succ l cs') -> links h cs = links h cs'.
Proof.
  intros Hs. apply list_eq. intros l. destruct (decide (l < h)%nat) as [Hl|Hl].
  - by rewrite !links_lookup, Hs by done.
  - rewrite !lookup_ge_None_2; [done|rewrite length_links; lia..].
Qed.

(** Low nodes do not see level [j]. *)
Lemma cells_ok_low m j cs :
  Forall (fun c : cell => (c.2.2 <= j)%nat) cs -> cells_ok m cs (partial j) -> cells_ok m cs (partial (S j)).
Proof.
  induction 1 as [|[a [k' h']] cs Hc _ IH]; simpl; [done|]. intros [Ha Hok]. split; [|by apply IH].
  rewrite Ha. do 2 f_equal. apply links_ext. intros l Hl. apply succ_partial. simpl in Hc. left. lia.
Qed.

(** Nodes before a higher one do not see past it. *)
Lemma cells_ok_high m j cs c rest :
  (j < c.2.2)%nat -> cells_ok m cs (c :: rest ++ partial j) -> cells_ok m cs (c :: rest ++ partial (S j)).
Proof.
  intros Hc. induction cs as [|[a [k' h']] cs IH]; simpl; [done|]. intros [Ha Hok]. split; [|by apply IH].
  rewrite Ha. do 2 f_equal. apply links_ext. intros l Hl.
  change (c :: rest ++ partial j) with ((c :: rest) ++ partial j). change (c :: rest ++ partial (S j)) with ((c :: rest) ++ partial (S j)).
  rewrite !app_assoc. apply succ_partial. destruct (decide (l = j)) as [->|]; [right|by left].
  exists c. split; [set_solver|done].
Qed.

Lemma last_at_split l d F : last_at l d F = d /\ Forall (fun c : cell => (c.2.2 <= l)%nat) F \/
  exists F1 kp hp F2, F = F1 ++ (last_at l d F, (kp, hp)) :: F2 /\
    Forall (fun c : cell => (c.2.2 <= l)%nat) F2 /\ (l < hp)%nat.
Proof.
  revert d. induction F as [|[a [k' h']] F IH]; intros d; simpl; [left; by split|].
  destruct (Nat.ltb_spec l h').
  - right. destruct (IH a) as [[-> Hlow]|(F1 & kp & hp & F2 & HF & Hlow & Hl)].
    + exists [], k', h', F. by split_and!.
    + exists ((a, (k', h')) :: F1), kp, hp, F2. split_and!; [simpl; by f_equal|done|done].
  - destruct (IH d) as [[-> Hlow]|(F1 & kp & hp & F2 & HF & Hlow & Hl)].
    + left. split; [done|]. by constructor.
    + right. exists ((a, (k', h')) :: F1), kp, hp, F2. split_and!; [simpl; by f_equal|done|done].
Qed.

(** One turn of the linking loop. *)
Lemma link_step s F d j h :
  cells_ok (nodes s) F (partial j) -> NoDup (map fst F) -> n ∉ map fst F ->
  nodes s !! n = Some (mkNode k (links j hi ++ replicate (h - j) None)) -> (j < h)%nat ->
  (exists c, c ∈ F /\ (j < c.2.2)%nat) ->
  exists s1 s2, nextAt s (last_at j d F) j = Some (succ j hi) /\
    setNext s n j (succ j hi) = Some s1 /\ setNext s1 (last_at j d F) j (Some n) = Some s2 /\
    cells_ok (nodes s2) F (partial (S j)) /\
    nodes s2 !! n = Some (mkNode k (links (S j) hi ++ replicate (h - S j) None)) /\
    head_ s2 = head_ s /\ max_height_ s2 = max_height_ s /\ random_state_ s2 = random_state_ s /\
    size (nodes s2) = size (nodes s) /\ dom (nodes s2) = dom (nodes s) /\
    (forall a, a ∉ n :: map fst F -> nodes s2 !! a = nodes s !! a).
Proof.
  intros Hok Hnd Hn Hnode Hj (c & Hc & Hcj).
  destruct (last_at_split j d F) as [[_ Hlow]|(F1 & kp & hp & F2 & HF & Hlow & Hl)].
  { rewrite Forall_elem in Hlow. specialize (Hlow _ Hc). lia. }
  set (p := last_at j d F) in *. rewrite HF in Hok, Hnd, Hn.
  apply cells_ok_app in Hok as [Hok1 [Hp Hok2]]. rewrite map_app in Hnd, Hn. simpl in Hnd, Hn.
  apply list.NoDup_app in Hnd as (_ & Hnd1 & Hnd2). apply list.NoDup_cons in Hnd2 as [Hpf2 _].
  assert (p ∉ map fst F1) as Hpf1 by (intros Hx; apply (Hnd1 p Hx); set_solver).
  assert (n <> p /\ n ∉ map fst F1 /\ n ∉ map fst F2) as (Hnp & Hnf1 & Hnf2) by set_solver.
  unfold nextAt. rewrite Hp. cbn [mbind option_bind node_next]. rewrite links_lookup, succ_low by done.
  assert (succ j (partial j) = succ j hi) as -> by (simpl; by destruct (Nat.ltb_spec j j); [lia|]).
  assert ((links j hi ++ replicate (h - j) None) !! j = Some None) as Hnj.
  { rewrite lookup_app_r by (rewrite length_links; lia). rewrite length_links, Nat.sub_diag.
    apply lookup_replicate. split; [done|lia]. }
  assert (<[j := succ j hi]> (links j hi ++ replicate (h - j) None) = links (S j) hi ++ replicate (h - S j) None) as Hset.
  { replace (h - j)%nat with (S (h - S j))%nat by lia. simpl replicate.
    rewrite insert_app_r_alt by (rewrite length_links; lia). rewrite length_links, Nat.sub_diag.
    by rewrite links_S, <- app_assoc. }
  unfold setNext. rewrite Hnode. cbn [mbind option_bind node_next]. rewrite Hnj. cbn [mbind option_bind node_key]. rewrite Hset.
  eexists _, _. split; [done|]. split; [done|]. cbn [nodes]. rewrite lookup_insert_ne by done. rewrite Hp.
  cbn [mbind option_bind node_next]. rewrite links_lookup by done. cbn [mbind option_bind node_key].
  split; [done|]. cbn [nodes head_ max_height_ random_state_].
  split_and!; try done.
  - rewrite HF. apply cells_ok_app. split.
    + apply cells_ok_insert; [done|]. apply cells_ok_insert; [done|].
      apply (cells_ok_high (nodes s) j F1 (p, (kp, hp)) F2 Hl). done.
    + simpl. split.
      * rewrite lookup_insert_eq. do 2 f_equal. apply list_eq. intros l.
        destruct (decide (l = j)) as [->|Hlj].
        -- rewrite list_lookup_insert_eq by (rewrite length_links; lia). rewrite links_lookup by done.
           rewrite succ_low by done. simpl. by destruct (Nat.ltb_spec j (S j)); [|lia].
        -- rewrite list_lookup_insert_ne by done. destruct (decide (l < hp)%nat) as [Hlt|Hlt].
           ++ rewrite !links_lookup by done. f_equal. apply succ_partial. by left.
           ++ rewrite !lookup_ge_None_2; [done|rewrite length_links; lia..].
      * apply cells_ok_low; [done|]. apply cells_ok_insert; [done|]. by apply cells_ok_insert.
  - rewrite lookup_insert_ne by done. by rewrite lookup_insert_eq.
  - rewrite !map_size_insert_Some; [done|by rewrite Hnode|]. rewrite lookup_insert_ne by done. by rewrite Hp.
  - rewrite !dom_insert_lookup_L; [done|by rewrite Hnode|]. rewrite lookup_insert_ne by done. by rewrite Hp.
  - intros a Ha. rewrite HF, map_app in Ha. simpl in Ha. rewrite !lookup_insert_ne; [done|set_solver..].
Qed.

Lemma link_loop_spec F d h previous :
  NoDup (map fst F) -> n ∉ map fst F -> (exists c, c ∈ F /\ (h <= c.2.2)%nat) ->
  (forall l, (l < h)%nat -> previous !! l = Some (Some (last_at l d F))) ->
  forall count j s, (j + count = h)%nat ->
  cells_ok (nodes s) F (partial j) ->
  nodes s !! n = Some (mkNode k (links j hi ++ replicate (h - j) None)) ->
  exists s', link_loop count j s n previous = Some s' /\
    cells_ok (nodes s') F (partial h) /\ nodes s' !! n = Some (mkNode k (links h hi)) /\
    head_ s' = head_ s /\ max_height_ s' = max_height_ s /\ random_state_ s' = random_state_ s /\
    size (nodes s') = size (nodes s) /\ dom (nodes s') = dom (nodes s) /\
    (forall a, a ∉ n :: map fst F -> nodes s' !! a = nodes s !! a).
Proof.
  intros Hnd Hn (c & Hc & Hch) Hprev. induction count as [|count IH]; intros j s Hj Hok Hnode.
  - assert (j = h) as -> by lia. exists s. rewrite Nat.sub_diag, app_nil_r in Hnode. by split_and!.
  - destruct (link_step s F d j h Hok Hnd Hn Hnode) as
      (s1 & s2 & H1 & H2 & H3 & Hok2 & Hn2 & Hhd & Hmx & Hrs & Hsz & Hdm & Hfr); [lia|exists c; split; [done|lia]|].
    cbn [link_loop]. rewrite Hprev by lia. cbn [mbind option_bind id]. rewrite H1. cbn [mbind option_bind].
    rewrite H2. cbn [mbind option_bind]. rewrite H3. cbn [mbind option_bind].
    destruct (IH (S j) s2) as (s' & Hl & Hok' & Hn' & E1 & E2 & E3 & E4 & E5 & E6); [lia|done|done|].
    exists s'. split_and!; try done; try congruence. intros a Ha. rewrite E6, Hfr by done. done.
Qed.
End link.

Lemma fill_head_spec head count : forall from previous,
  (from + count <= length previous)%nat ->
  length (fill_head count from head previous) = length previous /\
  forall l, fill_head count from head previous !! l =
    if decide (from <= l < from + count)%nat then Some (Some head) else previous !! l.
Proof.
  induction count as [|count IH]; intros from previous Hl; simpl.
  - split; [done|]. intros l. by rewrite decide_False by lia.
  - destruct (IH (S from) (<[from := Some head]> previous)) as [H1 H2]; [rewrite length_insert; lia|].
    rewrite length_insert in H1. split; [done|]. intros l. rewrite H2.
    destruct (decide (l = from)) as [->|].
    + rewrite decide_False, decide_True by lia. by rewrite list_lookup_insert_eq by lia.
    + rewrite list_lookup_insert_ne by done. by do 2 case_decide; try lia.
Qed.

(** The search path extended to the levels of the new node. *)
Lemma insert_path s cs key previous height :
  sl_inv s cs -> (height <= kMaxHeight)%nat -> length previous = kMaxHeight ->
  (forall l, (l <= max_height_ s - 1)%nat ->
     previous !! l = Some (Some (last_at l (head_ s) (takewhile (cell_below key) cs)))) ->
  forall l, (l < height)%nat ->
  (if (max_height_ s <? height)%nat
   then fill_head (height - max_height_ s) (max_height_ s) (head_ s) previous else previous) !! l =
  Some (Some (last_at l (head_ s) ((head_ s, (key0, kMaxHeight)) :: takewhile (cell_below key) cs))).
Proof.
  intros Hi Hh Hlen Hp l Hl. pose proof (sl_max _ _ Hi). cbn [last_at].
  destruct (Nat.ltb_spec l kMaxHeight); [|lia].
  assert ((max_height_ s <= l)%nat -> last_at l (head_ s) (takewhile (cell_below key) cs) = head_ s) as Hhigh.
  { intros Hm. apply last_at_low, takewhile_Forall. eapply Forall_impl; [|exact (sl_heights _ _ Hi)]. simpl. lia. }
  destruct (Nat.ltb_spec (max_height_ s) height).
  - destruct (fill_head_spec (head_ s) (height - max_height_ s) (max_height_ s) previous) as [_ Hf]; [lia|].
    rewrite Hf. case_decide; [by rewrite Hhigh by lia|]. apply Hp. lia.
  - apply Hp. lia.
Qed.

Lemma sorted_insert key n h cs :
  StronglySorted cell_lt cs -> Forall (fun c : cell => cmp key c.2.1 <> 0) cs ->
  StronglySorted cell_lt (takewhile (cell_below key) cs ++ (n, (key, h)) :: dropwhile (cell_below key) cs).
Proof.
  intros Hs Hne. pose proof (takewhile_dropwhile (cell_below key) cs) as Htd.
  pose proof (takewhile_all (cell_below key) cs) as Hlo. pose proof (dropwhile_head (cell_below key) cs) as Hhd.
  revert Htd Hlo Hhd. generalize (takewhile (cell_below key) cs) as lo, (dropwhile (cell_below key) cs) as hi.
  intros lo hi <- Hlo Hhd.
  apply StronglySorted_app in Hs as (Hlh & Hslo & Hshi). apply Forall_app in Hne as [_ Hne].
  rewrite Forall_elem in Hlo.
  assert (Forall (cell_lt (n, (key, h))) hi) as Hkh.
  { destruct hi as [|c hi]; [constructor|]. specialize (Hhd c hi eq_refl). apply Forall_cons_iff in Hne as [Hc _].
    assert (cell_lt (n, (key, h)) c) as Hlt.
    { apply cmp_flip; [done|]. unfold cell_below in Hhd. simpl. lia. }
    inversion Hshi; subst. constructor; [done|]. eapply Forall_impl; [|done]. intros x Hx.
    unfold cell_lt in *. by apply cmp_trans with c.2.1. }
  apply StronglySorted_app. split_and!; [|done|by constructor].
  intros x y Hx Hy. specialize (Hlo _ Hx). unfold cell_below in Hlo. apply Z.ltb_lt in Hlo.
  apply elem_of_cons in Hy as [->|Hy]; [done|by apply Hlh].
Qed.

(** *** Insertion *)

Lemma cells_ok_dom m cs tail x : cells_ok m cs tail -> x ∈ map fst cs -> x ∈ dom m.
Proof.
  induction cs as [|[a [k h]] cs IH]; simpl; [set_solver|]. intros [Ha Hc] Hx.
  apply elem_of_cons in Hx as [->|Hx]; [|by apply IH]. apply elem_of_dom. by eexists.
Qed.

Context `{SystemAllocatorLaws}.

(** Every node sits in memory the arena has handed out. *)
Definition in_arena (s : SkipList K) (used : list range) : Prop :=
  forall x, x ∈ dom (nodes s) -> x ∈ map fst used.

Lemma newNode_fresh s a used key height :
  arena_inv a used -> in_arena s used -> (1 <= height <= kMaxHeight)%nat ->
  memory_usage_ a + node_bytes height + arena_block_size a <= kUint64Max ->
  exists a' n, newNode s a key height =
      Some (mkSkipList (<[n := mkNode key (replicate height None)]> (nodes s)) (head_ s) (max_height_ s) (random_state_ s), a', n) /\
    nodes s !! n = None /\ arena_inv a' ((n, node_bytes height) :: used) /\
    arena_block_size a' = arena_block_size a /\
    memory_usage_ a <= memory_usage_ a' <= memory_usage_ a + node_bytes height + arena_block_size a.
Proof.
  intros Ha Hin Hh Hm. unfold newNode, assert_that.
  destruct (Nat.leb_spec 1 height); [|lia]. destruct (Nat.leb_spec height kMaxHeight); [|lia]. cbn [andb mbind option_bind].
  destruct (allocateAligned_inv a used (node_bytes height) Ha) as (a' & n & -> & Ha' & _ & Hbs & Hmu);
    [unfold node_bytes; lia|done|]. cbn [mbind option_bind].
  exists a', n. split_and!; try done; try lia. apply not_elem_of_dom. intros Hx%Hin.
  apply list_elem_of_In, in_map_iff in Hx as ([x sz] & Hx1 & Hx2). simpl in Hx1. subst x. apply list_elem_of_In in Hx2.
  pose proof (ai_used _ _ Ha') as Hus. apply Forall_cons_iff in Hus as [_ Hus]. rewrite Forall_elem in Hus.
  destruct (Hus _ Hx2) as [Hpos _]. pose proof (ai_disjoint _ _ Ha') as Hd. inversion Hd as [|? ? Hf _ E]; subst.
  rewrite list.Forall_forall in Hf. destruct (Hf _ Hx2); unfold node_bytes in *; simpl in *; lia.
Qed.

Lemma partial_zero n key hi l rest : succ l (rest ++ partial n key hi 0) = succ l (rest ++ hi).
Proof. induction rest as [|[x [k h]] rest IH]; simpl; [done|]. by rewrite IH. Qed.

Lemma cells_ok_zero m n key cs hi : cells_ok m cs hi -> cells_ok m cs (partial n key hi 0).
Proof.
  induction cs as [|[x [k h]] cs IH]; simpl; [done|]. intros [-> Hok]. split; [|by apply IH].
  do 2 f_equal. apply links_ext. intros l _. symmetry. apply partial_zero.
Qed.

(** The list with the node of [key] inserted in order. *)
Definition inserted (key : K) (n : Z) (h : nat) cs : list cell :=
  takewhile (cell_below key) cs ++ (n, (key, h)) :: dropwhile (cell_below key) cs.

Lemma inserted_inv s s' cs key n h maxh :
  sl_inv s cs -> (1 <= h <= kMaxHeight)%nat -> Forall (fun c : cell => cmp key c.2.1 <> 0) cs ->
  nodes s !! n = None -> maxh = Nat.max h (max_height_ s) ->
  let lo := takewhile (cell_below key) cs in
  let hi := dropwhile (cell_below key) cs in
  cells_ok (nodes s') ((head_ s, (key0, kMaxHeight)) :: lo) (partial n key hi h) ->
  nodes s' !! n = Some (mkNode key (links h hi)) -> cells_ok (nodes s') hi [] ->
  size (nodes s') = S (size (nodes s)) ->
  sl_inv (mkSkipList (nodes s') (head_ s) maxh (random_state_ s')) (inserted key n h cs).
Proof.
  intros Hi Hh Hne Hfresh Hmax lo hi [Hhead Hlo] Hn Hhi Hsz. destruct Hi as [H1 H2 H3 H4 H5 H6 H7].
  pose proof (takewhile_dropwhile (cell_below key) cs) as Htd. fold lo hi in Htd.
  assert (NoDup (head_ s :: map fst (inserted key n h cs))) as Hnd.
  { assert (head_ s :: map fst (inserted key n h cs) ≡ₚ n :: head_ s :: map fst cs) as ->.
    { unfold inserted. fold lo hi. rewrite <- Htd, !map_app. simpl. by rewrite <- Permutation_middle, Permutation_swap. }
    apply list.NoDup_cons. split; [|done]. intros Hin. apply elem_of_cons in Hin as [->|Hin]; [congruence|].
    apply (cells_ok_dom _ _ _ _ H2) in Hin. by apply not_elem_of_dom in Hfresh. }
  split; cbn [nodes head_ max_height_ random_state_].
  - done.
  - unfold inserted. fold lo hi. apply cells_ok_app. rewrite app_nil_r. split; [exact Hlo|]. simpl. rewrite app_nil_r. done.
  - done.
  - rewrite Hsz, H4. unfold inserted. fold lo hi. rewrite <- Htd, !length_app. simpl. lia.
  - unfold inserted. fold lo hi. rewrite <- Htd in H5. apply Forall_app in H5 as [Hl Hr]. apply Forall_app. split.
    + eapply Forall_impl; [|exact Hl]. simpl. lia.
    + constructor; [simpl; lia|]. eapply Forall_impl; [|exact Hr]. simpl. lia.
  - lia.
  - by apply sorted_insert.
Qed.

Lemma sl_insert_spec s a used cs key :
  sl_inv s cs -> arena_inv a used -> in_arena s used ->
  Forall (fun c : cell => cmp key c.2.1 <> 0) cs ->
  memory_usage_ a + node_bytes kMaxHeight + arena_block_size a <= kUint64Max ->
  exists s' a' n h, sl_insert cmp s a key = Some (s', a') /\
    sl_inv s' (inserted key n h cs) /\ arena_inv a' ((n, node_bytes h) :: used) /\
    in_arena s' ((n, node_bytes h) :: used) /\ arena_block_size a' = arena_block_size a /\
    memory_usage_ a <= memory_usage_ a' <= memory_usage_ a + node_bytes kMaxHeight + arena_block_size a.
Proof.
  intros Hi Ha Hin Hne Hm. unfold sl_insert.
  destruct (findGreaterOrEqual_spec s cs key Hi) as (previous & -> & Hlen & Hprev & _). cbn [mbind option_bind].
  rewrite length_replicate in Hlen. pose proof (takewhile_dropwhile (cell_below key) cs) as Htd.
  set (lo := takewhile (cell_below key) cs) in *. set (hi := dropwhile (cell_below key) cs) in *.
  assert (cells_ok (nodes s) lo hi /\ cells_ok (nodes s) hi []) as [Hlo Hhi].
  { pose proof (sl_cells _ _ Hi) as Hc. rewrite <- Htd in Hc. apply cells_ok_app in Hc. by rewrite app_nil_r in Hc. }
  assert ((match first_addr hi with
           | None => Some false
           | Some e => n ← nodes s !! e; Some (equal cmp key (node_key n))
           end) = Some false) as ->.
  { rewrite <- Htd in Hne. apply Forall_app in Hne as [_ Hne].
    destruct hi as [|[x [k h]] hi']; [done|]. destruct Hhi as [Hx _]. simpl. rewrite Hx. simpl.
    apply Forall_cons_iff in Hne as [Hk _]. unfold equal. simpl in Hk. by destruct (Z.eqb_spec (cmp key k) 0). }
  cbn [mbind option_bind assert_that negb].
  pose proof (randomHeight_range (random_state_ s)) as Hrh. destruct (randomHeight (random_state_ s)) as [h rs]. simpl in Hrh.
  pose proof (insert_path s cs key previous h Hi ltac:(lia) Hlen Hprev) as Hpath. fold lo in Hpath.
  set (s0 := mkSkipList (nodes s) (head_ s) (max_height_ s) rs).
  assert (node_bytes h <= node_bytes kMaxHeight) as Hnb by (unfold node_bytes; lia).
  destruct (newNode_fresh s0 a used key h Ha Hin Hrh ltac:(lia)) as (a' & n & -> & Hfresh & Ha' & Hbs & Hmu).
  cbn [mbind option_bind nodes head_ max_height_ random_state_ s0]. simpl in Hfresh.
  assert (forall x, x ∈ dom (nodes s) -> x <> n) as Hnew by (intros x Hx ->; by apply not_elem_of_dom in Hfresh).
  assert (n ∉ map fst cs /\ n <> head_ s) as [Hncs Hnh].
  { split; [|intros ->; by rewrite (sl_head _ _ Hi) in Hfresh].
    intros Hx. apply (cells_ok_dom (nodes s) cs []) in Hx; [|apply (sl_cells _ _ Hi)]. by apply (Hnew n). }
  pose proof (sl_nodup _ _ Hi) as Hnd. rewrite <- Htd, map_app in Hnd, Hncs.
  set (previous' := if (max_height_ s <? h)%nat then _ else previous) in *.
  set (s1 := mkSkipList (<[n := mkNode key (replicate h None)]> (nodes s)) (head_ s) (max_height_ s) rs).
  destruct (link_loop_spec n key hi ((head_ s, (key0, kMaxHeight)) :: lo) (head_ s) h previous')
    with (count := h) (j := 0%nat) (s := s1) as (s2 & -> & Hc2 & Hn2 & Hhd & Hmx & Hrs2 & Hsz & Hdm & Hfr).
  - simpl. apply list.NoDup_cons in Hnd as [Hnd1 Hnd2]. apply list.NoDup_app in Hnd2 as (? & _ & _).
    apply list.NoDup_cons. split; [|done]. set_solver.
  - simpl. set_solver.
  - eexists. split; [apply list_elem_of_here|]. simpl. lia.
  - exact Hpath.
  - lia.
  - unfold s1. cbn [nodes]. apply cells_ok_insert; [simpl; set_solver|]. apply cells_ok_zero. simpl. split; [|done].
    rewrite Htd. apply (sl_head _ _ Hi).
  - unfold s1. cbn [nodes]. rewrite lookup_insert_eq, Nat.sub_0_r. done.
  - cbn [mbind option_bind]. unfold s1 in Hhd, Hmx, Hsz, Hdm, Hfr. cbn [nodes head_ max_height_] in *.
    eexists _, a', n, h. split; [done|]. rewrite Hhd, Hmx. split_and!; [|done| |done|lia..].
    + apply (inserted_inv s s2 cs key n h _ Hi Hrh Hne Hfresh); try done.
      * destruct (Nat.ltb_spec (max_height_ s) h); lia.
      * apply list.NoDup_cons in Hnd as [Hnd1 Hnd2]. apply list.NoDup_app in Hnd2 as (_ & Hdis & _).
        apply (cells_ok_agree (nodes s)); [|done]. intros x Hx. rewrite Hfr, lookup_insert_ne; [done|set_solver|].
        fold hi in Hx. simpl. rewrite !not_elem_of_cons. split_and!; [set_solver|set_solver|]. intros Hl. by apply (Hdis x).
      * rewrite Hsz. by apply map_size_insert_None.
    + intros x. cbn [nodes]. rewrite Hdm, dom_insert_L. simpl. rewrite elem_of_union, elem_of_singleton, elem_of_cons.
      intros [->|Hx]; [by left|right; by apply Hin].
Qed.

(** *** Construction and reading *)

Lemma newSkipList_spec a used :
  arena_inv a used -> memory_usage_ a + node_bytes kMaxHeight + arena_block_size a <= kUint64Max ->
  exists s a' n, newSkipList key0 a = Some (s, a') /\ sl_inv s [] /\
    arena_inv a' ((n, node_bytes kMaxHeight) :: used) /\ in_arena s ((n, node_bytes kMaxHeight) :: used) /\
    arena_block_size a' = arena_block_size a /\
    memory_usage_ a <= memory_usage_ a' <= memory_usage_ a + node_bytes kMaxHeight + arena_block_size a.
Proof.
  intros Ha Hm. unfold newSkipList.
  destruct (newNode_fresh (mkSkipList ∅ 0 1 2654435769) a used key0 kMaxHeight Ha) as (a' & n & -> & _ & Ha' & Hbs & Hmu);
    [intros x; cbn [nodes]; rewrite dom_empty_L; set_solver|unfold kMaxHeight; lia|done|].
  cbn [mbind option_bind nodes max_height_ random_state_]. eexists _, a', n. split; [done|]. split_and!; try done; try lia.
  - split; cbn [nodes head_ max_height_]; [by rewrite lookup_insert_eq|done|apply NoDup_singleton|by rewrite map_size_insert_None|constructor| |constructor].
    unfold kMaxHeight. lia.
  - intros x. cbn [nodes]. rewrite dom_insert_L, dom_empty_L. simpl. set_solver.
Qed.

Lemma succ_first cs : Forall (fun c : cell => (1 <= c.2.2)%nat) cs -> succ 0 cs = first_addr cs.
Proof. destruct 1 as [|[x [k h]] cs Hc _]; simpl in *; [done|]. by destruct (Nat.ltb_spec 0 h); [|lia]. Qed.

Lemma sl_seekToFirst_spec s cs : sl_inv s cs -> sl_seekToFirst s = Some (first_addr cs).
Proof.
  intros Hi. unfold sl_seekToFirst, nextAt. rewrite (sl_head _ _ Hi). cbn [mbind option_bind node_next].
  rewrite links_lookup by (unfold kMaxHeight; lia). f_equal. apply succ_first.
  eapply Forall_impl; [|exact (sl_heights _ _ Hi)]. simpl. lia.
Qed.

Lemma sl_cell s pre c post :
  sl_inv s (pre ++ c :: post) ->
  sl_key s (Some c.1) = Some c.2.1 /\ sl_next s (Some c.1) = Some (first_addr post).
Proof.
  destruct c as [x [k h]]. intros Hi. pose proof (sl_cells _ _ Hi) as Hc. pose proof (sl_heights _ _ Hi) as Hh.
  apply cells_ok_app in Hc as [_ [Hx _]]. rewrite app_nil_r in Hx.
  apply Forall_app in Hh as [_ Hh]. apply Forall_cons_iff in Hh as [Hhx Hh]. simpl in Hhx.
  unfold sl_key, sl_next, nextAt. simpl fst. cbn [mbind option_bind]. rewrite Hx. cbn [mbind option_bind node_key node_next].
  split; [done|]. rewrite links_lookup by lia. f_equal. apply succ_first. eapply Forall_impl; [|exact Hh]. simpl. lia.
Qed.

Lemma sl_seek_spec s cs target :
  sl_inv s cs -> sl_seek cmp s target = Some (first_addr (dropwhile (cell_below target) cs)).
Proof.
  intros Hi. unfold sl_seek. destruct (findGreaterOrEqual_spec s cs target Hi) as (p & -> & _). done.
Qed.

Lemma contains_spec `{!ComparatorLaws cmp} s cs target :
  sl_inv s cs -> contains cmp s target = Some (existsb (equal cmp target) (map (fun c : cell => c.2.1) cs)).
Proof.
  intros Hi. unfold contains. destruct (findGreaterOrEqual_spec s cs target Hi) as (p & -> & _). cbn [mbind option_bind].
  pose proof (takewhile_dropwhile (cell_below target) cs) as Htd. pose proof (takewhile_all (cell_below target) cs) as Hlo.
  pose proof (dropwhile_head (cell_below target) cs) as Hhd. pose proof (sl_sorted _ _ Hi) as Hs.
  rewrite <- Htd at 2. rewrite map_app, existsb_app.
  assert (existsb (equal cmp target) (map (fun c : cell => c.2.1) (takewhile (cell_below target) cs)) = false) as ->.
  { apply not_true_is_false. intros (k & Hk & He)%existsb_exists. apply in_map_iff in Hk as (c & <- & Hc).
    rewrite Forall_elem in Hlo. apply list_elem_of_In, Hlo in Hc. unfold cell_below in Hc. unfold equal in He.
    apply Z.eqb_eq, cmp_sym in He. lia. }
  destruct (dropwhile (cell_below target) cs) as [|c hi]; [done|]. specialize (Hhd c hi eq_refl). cbn [first_addr].
  rewrite <- Htd in Hi. destruct (sl_cell s _ c hi Hi) as [Hk _]. unfold sl_key in Hk. cbn [mbind option_bind] in Hk.
  destruct (nodes s !! c.1) as [n|]; [|done]. cbn [mbind option_bind] in *. simplify_eq. f_equal. rewrite Hk. simpl.
  unfold equal at 1 2. destruct (Z.eqb_spec (cmp target c.2.1) 0) as [|Hne]; [done|]. symmetry.
  apply not_true_is_false. intros (k & Hk' & He)%existsb_exists. apply in_map_iff in Hk' as (d & <- & Hd).
  unfold cell_below in Hhd. apply cmp_flip in Hne; [|lia]. unfold equal in He. apply Z.eqb_eq in He.
  rewrite <- Htd in Hs. apply StronglySorted_app_1_r in Hs. inversion Hs as [|? ? _ Hlt]; subst.
  rewrite Forall_elem in Hlt. apply list_elem_of_In, Hlt in Hd. pose proof (cmp_trans _ _ _ Hne Hd). lia.
Qed.

(** Read the keys from a position on. *)
Fixpoint sl_walk (fuel : nat) (s : SkipList K) (it : sl_iter) : option (list K) :=
  match fuel with
  | O => None
  | S fuel =>
      if sl_valid it then k ← sl_key s it; it ← sl_next s it; ks ← sl_walk fuel s it; Some (k :: ks)
      else Some []
  end.

Lemma sl_walk_spec s fuel : forall pre post,
  sl_inv s (pre ++ post) -> (length post < fuel)%nat ->
  sl_walk fuel s (first_addr post) = Some (map (fun c : cell => c.2.1) post).
Proof.
  induction fuel as [|fuel IH]; intros pre post Hi Hf; [lia|]. destruct post as [|c post]; [done|].
  destruct (sl_cell s pre c post Hi) as [Hk Hn]. cbn [sl_walk first_addr sl_valid]. rewrite Hk. cbn [mbind option_bind].
  rewrite Hn. cbn [mbind option_bind]. rewrite (IH (pre ++ [c]) post); [done|by rewrite <- app_assoc|simpl in Hf; lia].
Qed.

(** Inserting a sequence of keys. *)
Fixpoint sl_insert_all (ks : list K) (s : SkipList K) (a : Arena) : option (SkipList K * Arena) :=
  match ks with
  | [] => Some (s, a)
  | k :: ks => '(s, a) ← sl_insert cmp s a k; sl_insert_all ks s a
  end.

Lemma inserted_perm key n h cs :
  map (fun c : cell => c.2.1) (inserted key n h cs) ≡ₚ key :: map (fun c : cell => c.2.1) cs.
Proof.
  unfold inserted. rewrite <- (takewhile_dropwhile (cell_below key) cs) at 3. rewrite !map_app. simpl.
  by rewrite <- Permutation_middle.
Qed.

Lemma sl_insert_all_spec ks : forall s a used cs,
  sl_inv s cs -> arena_inv a used -> in_arena s used ->
  ForallOrdPairs (fun x y => cmp y x <> 0) ks ->
  (forall k c, k ∈ ks -> c ∈ cs -> cmp k c.2.1 <> 0) ->
  memory_usage_ a + Z.of_nat (length ks) * (node_bytes kMaxHeight + arena_block_size a) <= kUint64Max ->
  exists s' a' cs', sl_insert_all ks s a = Some (s', a') /\ sl_inv s' cs' /\
    map (fun c : cell => c.2.1) cs' ≡ₚ ks ++ map (fun c : cell => c.2.1) cs.
Proof.
  induction ks as [|k ks IH]; intros s a used cs Hi Ha Hin Hd Hnew Hm; [by eauto 8|].
  inversion Hd as [|? ? Hk Hd' E]; subst. pose proof (ai_block_size _ _ Ha).
  destruct (sl_insert_spec s a used cs k) as (s1 & a1 & n & h & Hins & Hi1 & Ha1 & Hin1 & Hbs & Hmu); try done.
  - rewrite Forall_elem. intros c Hc. apply Hnew; set_solver.
  - simpl length in Hm. unfold node_bytes in *. lia.
  - cbn [sl_insert_all]. rewrite Hins. cbn [mbind option_bind].
    destruct (IH s1 a1 _ _ Hi1 Ha1 Hin1 Hd') as (s2 & a2 & cs2 & ? & ? & Hp).
    + intros k' c Hk' Hc. apply (list_elem_of_fmap_2 (fun c : cell => c.2.1)) in Hc.
      change (fmap ?f ?x) with (map f x) in Hc. rewrite inserted_perm in Hc. apply elem_of_cons in Hc as [->|Hc].
      * rewrite list.Forall_forall in Hk. by apply Hk.
      * change (map ?f ?x) with (fmap f x) in Hc. apply list_elem_of_fmap in Hc as (c' & -> & Hc'). apply Hnew; set_solver.
    + rewrite Hbs. simpl length in Hm. unfold node_bytes in *. lia.
    + exists s2, a2, cs2. split_and!; [done|done|]. rewrite Hp, inserted_perm. by rewrite <- Permutation_middle.
Qed.
End chain.

(** C21. The skip list implements a sorted set: inserting any sequence of
    pairwise different keys into a new list always returns (no assertion fails,
    the searches terminate, every pointer followed designates a live node and a
    level it has), and afterwards walking the list from its first node yields
    exactly the inserted keys in increasing order, while seeking to any target
    yields exactly those not below it, and [contains] decides membership. *)
Theorem skiplist_sorted_set {K} (cmp : K -> K -> Z) (key0 : K) `{!ComparatorLaws cmp} `{SystemAllocatorLaws}
    block_size a keys target :
  newArena block_size = Some a -> ForallOrdPairs (fun x y => cmp y x <> 0) keys ->
  Z.of_nat (S (length keys)) * (node_bytes kMaxHeight + block_size) <= kUint64Max ->
  exists s a' sorted,
    ('(s, a) ← newSkipList key0 a; sl_insert_all cmp keys s a) = Some (s, a') /\
    sorted ≡ₚ keys /\ StronglySorted (fun x y => cmp x y < 0) sorted /\
    (it ← sl_seekToFirst s; sl_walk (S (length keys)) s it) = Some sorted /\
    (it ← sl_seek cmp s target; sl_walk (S (length keys)) s it) =
      Some (dropwhile (fun k => cmp k target <? 0) sorted) /\
    contains cmp s target = Some (existsb (equal cmp target) sorted).
Proof.
  intros Hn Hd Hm. pose proof (newArena_inv _ _ Hn) as Ha.
  assert (arena_block_size a = block_size /\ memory_usage_ a = 0) as [Hb Hu].
  { unfold newArena, assert_that in Hn. destruct (0 <? block_size); simplify_eq/=. done. }
  pose proof (ai_block_size _ _ Ha) as Hbp. rewrite Hb in Hbp.
  destruct (newSkipList_spec cmp key0 a [] Ha) as (s0 & a0 & n0 & -> & Hi0 & Ha0 & Hin0 & Hb0 & Hu0).
  { rewrite Hb, Hu. unfold node_bytes in *. lia. }
  cbn [mbind option_bind].
  destruct (sl_insert_all_spec cmp key0 keys s0 a0 _ [] Hi0 Ha0 Hin0 Hd) as (s & a' & cs & -> & Hi & Hp).
  { set_solver. }
  { rewrite Hb0, Hb. unfold node_bytes in *. lia. }
  simpl in Hp. rewrite app_nil_r in Hp. exists s, a', (map (fun c => c.2.1) cs).
  assert (length cs = length keys) as Hlen by (rewrite <- Hp; by rewrite length_map).
  split_and!; [done|done| | | |by apply contains_spec with key0].
  - pose proof (sl_sorted _ _ _ _ Hi) as Hs. clear -Hs. induction Hs as [|c cs Hs IH Hc]; simpl; [constructor|].
    constructor; [done|]. rewrite Forall_map. done.
  - rewrite (sl_seekToFirst_spec cmp key0 s cs Hi). cbn [mbind option_bind]. apply (sl_walk_spec cmp key0 s _ [] cs Hi). lia.
  - rewrite (sl_seek_spec cmp key0 s cs target Hi). cbn [mbind option_bind].
    pose proof (takewhile_dropwhile (cell_below cmp target) cs) as Htd.
    rewrite (sl_walk_spec cmp key0 s _ (takewhile (cell_below cmp target) cs)).
    + f_equal. clear. induction cs as [|c cs IH]; simpl; [done|]. unfold cell_below at 1. by destruct (cmp c.2.1 target <? 0).
    + by rewrite Htd.
    + apply (f_equal length) in Htd. rewrite length_app in Htd. lia.
Qed.

#[local] Existing Instance bump_allocator.
#[local] Existing Instance bump_allocator_laws.
#[local] Instance Z_comparator_laws : ComparatorLaws Z.sub.
Proof. split; intros; lia. Qed.

Lemma skiplist_sorted_set_witness :
  exists s a' sorted,
    ('(s, a) ← newSkipList 0 (mkArena 4096 [] None 0 0); sl_insert_all Z.sub [5; 2; 9] s a) = Some (s, a') /\
    sorted ≡ₚ [5; 2; 9] /\ StronglySorted (fun x y => x - y < 0) sorted /\
    (it ← sl_seekToFirst s; sl_walk 4 s it) = Some sorted /\
    (it ← sl_seek Z.sub s 4; sl_walk 4 s it) = Some (dropwhile (fun k => k - 4 <? 0) sorted) /\
    contains Z.sub s 4 = Some (existsb (equal Z.sub 4) sorted).
Proof.
  apply (skiplist_sorted_set Z.sub 0 4096 (mkArena 4096 [] None 0 0) [5; 2; 9] 4).
  - reflexivity.
  - repeat (constructor; [repeat (constructor; [lia|]); constructor|]). constructor.
  - by vm_compute.
Defined.
