(* ===== verification/MemTable.v ===== *)
(** The memtable (src/db/memtable.cc): length-prefixed records in the arena,
    ordered by a skip list on their internal keys.  A [const char*] to an
    immutable record is modelled by the record's bytes. *)
From S2P Require Import Prelude Status Coding InternalKey Mvcc Arena SkipList Iterator.

(** ** src/db/memtable.h, src/db/memtable.cc *)

Definition kLengthSize : Z := 4.

Definition entryInternalKey (record : bytes) : bytes :=
  substr record kLengthSize (decodeFixed32 record).

Definition entryValue (record : bytes) : bytes :=
  let offset := kLengthSize + len (entryInternalKey record) in
  let length := decodeFixed32 (remove_prefix offset record) in
  substr record (offset + kLengthSize) length.

Definition EntryComparator (lhs rhs : bytes) : Z :=
  let lhs_key := entryInternalKey lhs in
  let rhs_key := entryInternalKey rhs in
  if InternalKeyLess lhs_key rhs_key then -1
  else if InternalKeyLess rhs_key lhs_key then 1
  else 0.

Record MemTable := mkMemTable {
  arena_ : Arena;
  mt_table : SkipList bytes;
  mt_entry_count : Z;
}.

(** The string [seek_entry]: a length prefix and the target key. *)
Definition seek_entry (target : bytes) : bytes := encodeFixed32 (wrap32 (len target)) ++ target.

Section memtable.
Context `{SystemAllocator}.

Definition newMemTable : option MemTable :=
  arena ← newArena kDefaultBlockSize;
  '(table, arena) ← newSkipList [] arena;
  Some (mkMemTable arena table 0).

Definition mt_add (m : MemTable) (seq : Z) (t : ValueType) (key value : bytes) : option MemTable :=
  let internal_key := encodeInternalKey key seq t in
  _ ← assert_that (len internal_key <=? kUint32Max);
  _ ← assert_that (len value <=? kUint32Max);
  let entry_size := kLengthSize + len internal_key + kLengthSize + len value in
  '(arena, entry) ← allocate (arena_ m) entry_size;
  _ ← entry;
  let record := encodeFixed32 (wrap32 (len internal_key)) ++ internal_key ++
                encodeFixed32 (wrap32 (len value)) ++ value in
  _ ← assert_that (len record =? entry_size);
  '(table, arena) ← sl_insert EntryComparator (mt_table m) arena record;
  Some (mkMemTable arena table (mt_entry_count m + 1)).

Definition mt_memoryUsage (m : MemTable) : Z := memoryUsage (arena_ m).
Definition mt_empty (m : MemTable) : bool := mt_entry_count m =? 0.

Definition mt_get (m : MemTable) (key : bytes) (seq : Z) : option LookupResult :=
  let internal_key := encodeInternalKey key seq kValue in
  _ ← assert_that (len internal_key <=? kUint32Max);
  iterator ← sl_seek EntryComparator (mt_table m) (seek_entry internal_key);
  if negb (sl_valid iterator) then Some LookupAbsent
  else
    record ← sl_key (mt_table m) iterator;
    match parseInternalKey (entryInternalKey record) with
    | None => Some LookupAbsent
    | Some parsed =>
        if negb (bytes_eqb (user_key parsed) key) then Some LookupAbsent
        else
          match type parsed with
          | kDeletion => Some LookupDeleted
          | kValue => Some (LookupValue (entryValue record))
          end
    end.

End memtable.

(** [MemTable::Iterator]. *)
Record MemTableIterator := mkMemTableIterator { mi_table : SkipList bytes; iterator_ : sl_iter }.

Definition mt_newIterator (m : MemTable) : MemTableIterator := mkMemTableIterator (mt_table m) None.

Definition mi_valid (it : MemTableIterator) : bool := sl_valid (iterator_ it).
Definition mi_seekToFirst (it : MemTableIterator) : option MemTableIterator :=
  node ← sl_seekToFirst (mi_table it); Some (mkMemTableIterator (mi_table it) node).
Definition mi_seek (it : MemTableIterator) (target : bytes) : option MemTableIterator :=
  _ ← parseInternalKey target;
  _ ← assert_that (len target <=? kUint32Max);
  node ← sl_seek EntryComparator (mi_table it) (seek_entry target);
  Some (mkMemTableIterator (mi_table it) node).
Definition mi_next (it : MemTableIterator) : option MemTableIterator :=
  node ← sl_next (mi_table it) (iterator_ it); Some (mkMemTableIterator (mi_table it) node).
Definition mi_internalKey (it : MemTableIterator) : option bytes :=
  _ ← assert_that (mi_valid it); record ← sl_key (mi_table it) (iterator_ it); Some (entryInternalKey record).
Definition mi_value (it : MemTableIterator) : option bytes :=
  _ ← assert_that (mi_valid it); record ← sl_key (mi_table it) (iterator_ it); Some (entryValue record).

(** ** Records *)

Definition record_of (e : entry) : bytes :=
  le_bytes 4 (len e.1) ++ e.1 ++ le_bytes 4 (len e.2) ++ e.2.

Definition small_entry (e : entry) : Prop := len e.1 <= kUint32Max /\ len e.2 <= kUint32Max.

Lemma entryInternalKey_prefix k rest :
  len k <= kUint32Max -> entryInternalKey (le_bytes 4 (len k) ++ k ++ rest) = k.
Proof.
  intros Hk. pose proof (len_nonneg k). unfold entryInternalKey. rewrite decodeFixed32_app by apply len_le_bytes.
  rewrite le_value_le_bytes4 by lia. unfold substr, kLengthSize. change (Z.to_nat 4) with 4%nat.
  rewrite drop_app_length' by (by rewrite length_le_bytes). apply take_app_length'. unfold len. lia.
Qed.

Lemma entryInternalKey_record e : small_entry e -> entryInternalKey (record_of e) = e.1.
Proof. intros [Hk _]. unfold record_of. by apply entryInternalKey_prefix. Qed.

Lemma entryInternalKey_seek target : len target <= kUint32Max -> entryInternalKey (seek_entry target) = target.
Proof.
  intros Ht. pose proof (len_nonneg target). unfold seek_entry. rewrite wrap32_small, encodeFixed32_le_bytes by lia.
  rewrite <- (app_nil_r target) at 2. by apply entryInternalKey_prefix.
Qed.

Lemma entryValue_record e : small_entry e -> entryValue (record_of e) = e.2.
Proof.
  intros [Hk Hv]. unfold entryValue. rewrite entryInternalKey_record by done.
  pose proof (len_nonneg e.1). pose proof (len_nonneg e.2). unfold record_of, remove_prefix, substr, kLengthSize.
  rewrite app_assoc. rewrite drop_app_length' by (rewrite length_app, length_le_bytes; unfold len; lia).
  rewrite decodeFixed32_app by apply len_le_bytes. rewrite le_value_le_bytes4 by lia.
  rewrite (app_assoc _ (le_bytes 4 (len e.2))). rewrite drop_app_length' by (rewrite !length_app, !length_le_bytes; unfold len; lia).
  apply take_ge. unfold len. lia.
Qed.

(** ** The comparator *)

Lemma EntryComparator_lt a b :
  EntryComparator a b < 0 <-> InternalKeyLess (entryInternalKey a) (entryInternalKey b) = true.
Proof.
  unfold EntryComparator. destruct (InternalKeyLess (entryInternalKey a) (entryInternalKey b)); [done|].
  destruct (InternalKeyLess _ _); split; (done || lia).
Qed.

#[global] Instance EntryComparator_laws : ComparatorLaws EntryComparator.
Proof.
  split; intros a b.
  - intros c. rewrite !EntryComparator_lt. apply InternalKeyLess_trans.
  - rewrite !EntryComparator_lt. unfold EntryComparator. destruct (InternalKeyLess (entryInternalKey a) _); [done|].
    destruct (InternalKeyLess (entryInternalKey b) _) eqn:E; [done|done].
  - unfold EntryComparator. by destruct (InternalKeyLess (entryInternalKey a) _), (InternalKeyLess (entryInternalKey b) _).
Qed.

(** ** The iterator against the interface *)

Notation mcell := (Z * (bytes * nat))%type.

(** The cells hold the records of the entries [es], in order. *)
Definition cells_entries (cs : list mcell) (es : list entry) : Prop :=
  map (fun c : mcell => c.2.1) cs = map record_of es.

Record table_holds (s : SkipList bytes) (cs : list mcell) (es : list entry) : Prop := {
  th_inv : sl_inv EntryComparator [] s cs;
  th_cells : cells_entries cs es;
  th_run : sorted_run es;
  th_small : Forall small_entry es;
}.

Lemma cells_entries_app cs es es' :
  cells_entries cs (es ++ es') -> exists cs1 cs2, cs = cs1 ++ cs2 /\ cells_entries cs1 es /\ cells_entries cs2 es'.
Proof.
  unfold cells_entries. rewrite map_app. intros E. symmetry in E.
  change (map ?f cs) with (f <$> cs) in E. symmetry in E. apply fmap_app_inv in E as (cs1 & cs2 & H1 & H2 & ->). eauto.
Qed.

Lemma cells_below es : forall cs target,
  cells_entries cs es -> Forall small_entry es -> len target <= kUint32Max ->
  cells_entries (dropwhile (cell_below EntryComparator (seek_entry target)) cs) (seek_spec target es) /\
  cells_entries (takewhile (cell_below EntryComparator (seek_entry target)) cs)
    (takewhile (fun e : entry => InternalKeyLess e.1 target) es).
Proof.
  induction es as [|e es IH]; intros [|[x [r h]] cs] target E Hs Ht; try done.
  unfold cells_entries in E. simpl in E. simplify_eq. apply Forall_cons_iff in Hs as [He Hs].
  destruct (IH cs target ltac:(done) Hs Ht) as [IHd IHt]. unfold seek_spec. simpl.
  assert (cell_below EntryComparator (seek_entry target) (x, (record_of e, h)) = InternalKeyLess e.1 target) as ->.
  { unfold cell_below. simpl. apply Bool.eq_iff_eq_true. rewrite Z.ltb_lt, EntryComparator_lt.
    by rewrite entryInternalKey_record, entryInternalKey_seek. }
  destruct (InternalKeyLess e.1 target); simpl.
  - split; [done|]. unfold cells_entries in *. simpl. by rewrite IHt.
  - split; [|done]. unfold cells_entries. simpl. by f_equal.
Qed.

#[global] Instance memtable_internal_iterator : InternalIterator MemTableIterator := {
  it_valid := mi_valid;
  it_seekToFirst := mi_seekToFirst;
  it_seek := mi_seek;
  it_next := mi_next;
  it_internalKey := mi_internalKey;
  it_value := mi_value;
  it_status := fun _ => success;
}.

Definition mi_on (it : MemTableIterator) (es : list entry) : Prop := exists cs, table_holds (mi_table it) cs es.
Definition mi_at (it : MemTableIterator) (es rest : list entry) : Prop :=
  exists cs1 cs2 before, table_holds (mi_table it) (cs1 ++ cs2) es /\ es = before ++ rest /\
    cells_entries cs2 rest /\ iterator_ it = first_addr cs2.

Lemma mi_cell s cs1 c cs2 es e rest :
  table_holds s (cs1 ++ c :: cs2) es -> cells_entries (c :: cs2) (e :: rest) -> e ∈ es ->
  sl_key s (Some c.1) = Some (record_of e) /\ sl_next s (Some c.1) = Some (first_addr cs2) /\
  entryInternalKey (record_of e) = e.1 /\ entryValue (record_of e) = e.2 /\ cells_entries cs2 rest.
Proof.
  intros T Hc Hin. pose proof (th_small _ _ _ T) as Hs. rewrite Forall_elem in Hs. specialize (Hs _ Hin).
  destruct (sl_cell EntryComparator [] s cs1 c cs2 (th_inv _ _ _ T)) as [Hk Hn].
  unfold cells_entries in Hc. simpl in Hc. simplify_eq. rewrite Hk, Hn.
  split_and!; [congruence|done|by apply entryInternalKey_record|by apply entryValue_record|done].
Qed.

#[global] Program Instance memtable_iterator_spec : IteratorSpec MemTableIterator := {
  it_on := mi_on;
  it_at := mi_at;
  it_benign it := True;
}.
Next Obligation. done. Qed.
Next Obligation. intros it es [cs T]. apply T. Qed.
Next Obligation. done. Qed.
Next Obligation. intros it es rest (cs1 & cs2 & before & T & _). by exists (cs1 ++ cs2). Qed.
Next Obligation. intros it es rest (cs1 & cs2 & before & _ & He & _). by exists before. Qed.
Next Obligation.
  intros it es (cs1 & cs2 & before & _ & _ & Hc & Hi). simpl. unfold mi_valid. rewrite Hi.
  by destruct cs2.
Qed.
Next Obligation.
  intros it es k v rest (cs1 & cs2 & before & T & He & Hc & Hi). destruct cs2 as [|c cs2]; [done|].
  destruct (mi_cell _ cs1 c cs2 es (k, v) rest T Hc ltac:(rewrite He; set_solver)) as (Hk & _ & H1 & H2 & _).
  cbn [it_valid it_internalKey it_value memtable_internal_iterator]. unfold mi_internalKey, mi_value, mi_valid. rewrite Hi.
  cbn [first_addr sl_valid assert_that mbind option_bind]. rewrite Hk. cbn [mbind option_bind]. by rewrite H1, H2.
Qed.
Next Obligation.
  intros it es [cs T]. simpl. unfold mi_seekToFirst.
  rewrite (sl_seekToFirst_spec EntryComparator [] _ cs (th_inv _ _ _ T)). eexists. split; [done|]. left. split; [|done].
  exists [], cs, []. split_and!; [done|done|by apply (th_cells _ _ _ T)|done].
Qed.
Next Obligation.
  intros it es target [cs T] [p Hp] Ht. simpl. unfold mi_seek, assert_that. rewrite Hp. cbn [mbind option_bind].
  destruct (Z.leb_spec (len target) kUint32Max); [|lia]. cbn [mbind option_bind].
  rewrite (sl_seek_spec EntryComparator [] _ cs _ (th_inv _ _ _ T)). eexists. split; [done|]. left. split; [|done].
  destruct (cells_below es cs target (th_cells _ _ _ T) (th_small _ _ _ T) Ht) as [Hd Htk].
  exists (takewhile (cell_below EntryComparator (seek_entry target)) cs), (dropwhile (cell_below EntryComparator (seek_entry target)) cs),
    (takewhile (fun e : entry => InternalKeyLess e.1 target) es).
  rewrite takewhile_dropwhile. split_and!; [done| |done|done]. symmetry. apply takewhile_dropwhile.
Qed.
Next Obligation.
  intros it es e rest (cs1 & cs2 & before & T & He & Hc & Hi). destruct cs2 as [|c cs2]; [done|].
  destruct (mi_cell _ cs1 c cs2 es e rest T Hc ltac:(rewrite He; set_solver)) as (_ & Hn & _ & _ & Hc').
  simpl. unfold mi_next. rewrite Hi. cbn [first_addr]. rewrite Hn. simpl. eexists. split; [done|]. left. split; [|done].
  exists (cs1 ++ [c]), cs2, (before ++ [e]). rewrite <- !app_assoc. done.
Qed.

(** ** Adding and looking up *)

Lemma cells_entries_in cs es c : cells_entries cs es -> c ∈ cs -> exists e, e ∈ es /\ c.2.1 = record_of e.
Proof.
  unfold cells_entries. intros E Hc. apply (list_elem_of_fmap_2 (fun c : mcell => c.2.1)) in Hc.
  change (fmap ?f ?x) with (map f x) in Hc. rewrite E in Hc. apply list_elem_of_In, in_map_iff in Hc as (e & He & Hin).
  exists e. split; [by apply list_elem_of_In|done].
Qed.

(** A record with a new internal key compares different from all others. *)
Lemma record_distinct e cs es c :
  sorted_run es -> Forall small_entry es -> cells_entries cs es -> c ∈ cs ->
  small_entry e -> entry_valid e -> e.1 ∉ map fst es -> EntryComparator (record_of e) c.2.1 <> 0.
Proof.
  intros [_ Hv] Hs Hce Hc He Hve Hn. destruct (cells_entries_in _ _ _ Hce Hc) as (e' & He' & ->).
  rewrite Forall_elem in Hv, Hs. destruct (Hv _ He') as [q Hq], Hve as [p Hp].
  unfold EntryComparator. rewrite !entryInternalKey_record by auto.
  destruct (InternalKeyLess e.1 e'.1) eqn:E1; [done|]. destruct (InternalKeyLess e'.1 e.1) eqn:E2; [done|].
  intros _. apply Hn. rewrite (InternalKeyLess_total e.1 e'.1); eauto using parse_len.
  apply list_elem_of_In, in_map, list_elem_of_In. done.
Qed.

Lemma cells_entries_insert e n h cs es :
  cells_entries cs es -> Forall small_entry es -> small_entry e ->
  cells_entries (inserted EntryComparator (record_of e) n h cs) (insert_run e es).
Proof.
  intros Hce Hs He. unfold inserted, insert_run.
  assert (cells_entries (takewhile (cell_below EntryComparator (record_of e)) cs)
      (takewhile (fun x : entry => InternalKeyLess x.1 e.1) es) /\
    cells_entries (dropwhile (cell_below EntryComparator (record_of e)) cs)
      (dropwhile (fun x : entry => InternalKeyLess x.1 e.1) es)) as [H1 H2].
  { revert cs Hce. induction Hs as [|x es Hx Hs IH]; intros [|[a [r h']] cs] E; try done.
    unfold cells_entries in E. simpl in E. simplify_eq. destruct (IH cs ltac:(done)) as [IHt IHd]. simpl.
    assert (cell_below EntryComparator (record_of e) (a, (record_of x, h')) = InternalKeyLess x.1 e.1) as ->.
    { unfold cell_below. simpl. apply Bool.eq_iff_eq_true. rewrite Z.ltb_lt, EntryComparator_lt.
      by rewrite !entryInternalKey_record. }
    destruct (InternalKeyLess x.1 e.1); split; try done; unfold cells_entries in *; simpl; by f_equal. }
  unfold cells_entries in *. rewrite !map_app. simpl. by rewrite H1, H2.
Qed.

Section operations.
Context `{SystemAllocatorLaws}.

Record mt_inv (m : MemTable) (es : list entry) : Prop := {
  mi_holds : exists cs, table_holds (mt_table m) cs es;
  mi_arena : exists used, arena_inv (arena_ m) used /\ in_arena (mt_table m) used;
  mi_block : arena_block_size (arena_ m) = kDefaultBlockSize;
  mi_count : mt_entry_count m = len es;
}.

Lemma inserted_holds m cs es e s' n h :
  table_holds (mt_table m) cs es -> small_entry e -> entry_valid e -> e.1 ∉ map fst es ->
  sl_inv EntryComparator [] s' (inserted EntryComparator (record_of e) n h cs) ->
  table_holds s' (inserted EntryComparator (record_of e) n h cs) (insert_run e es).
Proof.
  intros T He Hv Hn Hi. split; [done| | |].
  - apply cells_entries_insert; [apply T..|done].
  - apply insert_run_sorted; [apply T|done|done].
  - rewrite insert_run_perm. constructor; [done|apply T].
Qed.

Lemma newMemTable_spec : exists m, newMemTable = Some m /\ mt_inv m [] /\ mt_memoryUsage m <= 2 * kDefaultBlockSize.
Proof.
  unfold newMemTable. destruct (newArena kDefaultBlockSize) as [a|] eqn:Ha; [|done]. cbn [mbind option_bind].
  pose proof (newArena_inv _ _ Ha) as Hi.
  assert (arena_block_size a = kDefaultBlockSize /\ memory_usage_ a = 0) as [Hb Hu] by (vm_compute in Ha; by simplify_eq).
  destruct (newSkipList_spec EntryComparator [] a [] Hi) as (s & a' & n & -> & Hs & Ha' & Hin & Hb' & Hm).
  { rewrite Hb, Hu. by vm_compute. }
  cbn [mbind option_bind]. eexists. split; [done|]. split.
  - split; simpl; [|by eauto|congruence|done]. exists []. split; [done|done|by split; constructor|constructor].
  - unfold mt_memoryUsage, memoryUsage. simpl. rewrite Hb, Hu in Hm. unfold node_bytes, kDefaultBlockSize, kMaxHeight in *. lia.
Qed.

(** The bytes one [mt_add] may take: the record, a node, two blocks. *)
Definition add_room (key value : bytes) : Z := len key + len value + 16 + 112 + 2 * kDefaultBlockSize.

Lemma mt_add_spec m es seq t key value :
  mt_inv m es -> 0 <= seq <= kMaxSequenceNumber -> encodeInternalKey key seq t ∉ map fst es ->
  len key + 8 <= kUint32Max -> len value <= kUint32Max -> mt_memoryUsage m + add_room key value <= kUint64Max ->
  exists m', mt_add m seq t key value = Some m' /\
    mt_inv m' (insert_run (encodeInternalKey key seq t, value) es) /\
    mt_memoryUsage m <= mt_memoryUsage m' <= mt_memoryUsage m + add_room key value.
Proof.
  intros [[cs T] (used & Ha & Hin) Hb Hct] Hseq Hnew Hk Hv Hm. unfold add_room, mt_memoryUsage, memoryUsage in *.
  set (ik := encodeInternalKey key seq t) in *. pose proof (parse_encode key seq t Hseq) as Hp. fold ik in Hp.
  assert (len ik = len key + 8) as Hik by (unfold ik; rewrite encodeInternalKey_eq by done; llia).
  pose proof (len_nonneg key). pose proof (len_nonneg value). unfold mt_add. fold ik.
  cbn [assert_that]. destruct (Z.leb_spec (len ik) kUint32Max); [|lia]. cbn [mbind option_bind].
  destruct (Z.leb_spec (len value) kUint32Max); [|lia]. cbn [mbind option_bind]. unfold kLengthSize.
  destruct (allocate_inv (arena_ m) used (4 + len ik + 4 + len value) Ha) as (a1 & p & -> & Ha1 & Hb1 & Hm1);
    [lia|rewrite Hb; unfold kDefaultBlockSize in *; lia|]. cbn [mbind option_bind]. rewrite Hb in Hm1, Hb1.
  rewrite (wrap32_small (len ik)), (wrap32_small (len value)) by lia. rewrite !encodeFixed32_le_bytes.
  change (le_bytes 4 (len ik) ++ ik ++ le_bytes 4 (len value) ++ value) with (record_of (ik, value)).
  assert (len (record_of (ik, value)) = 4 + len ik + 4 + len value) as Hrl by (unfold record_of; cbn [fst snd]; rewrite !len_app, !len_le_bytes; lia).
  rewrite Hrl, Z.eqb_refl. cbn [assert_that mbind option_bind].
  assert (small_entry (ik, value)) as Hse by done.
  destruct (sl_insert_spec EntryComparator [] (mt_table m) a1 ((p, 4 + len ik + 4 + len value) :: used) cs (record_of (ik, value)))
    as (s' & a' & n & h & -> & Hi' & Ha' & Hin' & Hb' & Hm'); try done.
  - apply (th_inv _ _ _ T).
  - intros x Hx. right. by apply Hin.
  - rewrite Forall_elem. intros c Hc. apply (record_distinct (ik, value) cs es); [apply T|apply T|apply T|done|done|by eexists|done].
  - rewrite Hb1. unfold node_bytes, kMaxHeight, kDefaultBlockSize in *. lia.
  - cbn [mbind option_bind]. eexists. split; [done|]. cbn [arena_ mt_table mt_entry_count]. split.
    + split; cbn [arena_ mt_table mt_entry_count]; [|by eauto|congruence|].
      * exists (inserted EntryComparator (record_of (ik, value)) n h cs). apply (inserted_holds m); [done|done|by eexists|done|done].
      * rewrite Hct. unfold len. rewrite insert_run_perm. simpl. lia.
    + rewrite Hb1 in Hm'. unfold node_bytes, kMaxHeight, kDefaultBlockSize in *. lia.
Qed.

Lemma mt_inv_run m es : mt_inv m es -> sorted_run es.
Proof. intros [[cs T] _ _ _]. apply T. Qed.

Lemma mt_get_spec m es key seq :
  mt_inv m es -> 0 <= seq <= kMaxSequenceNumber -> len key + 8 <= kUint32Max ->
  mt_get m key seq = Some (mvcc_get es key seq).
Proof.
  intros Hi Hseq Hk. rewrite <- (run_get_mvcc es) by (by apply (mt_inv_run m) || done).
  destruct Hi as [[cs T] _ _ _]. unfold mt_get, run_get. set (ik := encodeInternalKey key seq kValue).
  assert (len ik = len key + 8) as Hik by (unfold ik; rewrite encodeInternalKey_eq by done; llia).
  cbn [assert_that]. destruct (Z.leb_spec (len ik) kUint32Max); [|lia]. cbn [mbind option_bind].
  rewrite (sl_seek_spec EntryComparator [] _ cs _ (th_inv _ _ _ T)). cbn [mbind option_bind].
  destruct (cells_below es cs ik (th_cells _ _ _ T) (th_small _ _ _ T) ltac:(lia)) as [Hd _]. fold (seek_spec ik es).
  pose proof (takewhile_dropwhile (cell_below EntryComparator (seek_entry ik)) cs) as Htd.
  pose proof (takewhile_dropwhile (fun e : entry => InternalKeyLess e.1 ik) es) as Hte. fold (seek_spec ik es) in Hte.
  destruct (dropwhile (cell_below EntryComparator (seek_entry ik)) cs) as [|c cs2] eqn:Ec, (seek_spec ik es) as [|e es2] eqn:Ee; try done.
  rewrite <- Htd in T. destruct (mi_cell _ _ c cs2 es e es2 T Hd) as (Hkey & _ & Hentry & Hval & _); [rewrite <- Hte; set_solver|].
  cbn [first_addr sl_valid negb]. rewrite Hkey. cbn [mbind option_bind]. rewrite Hentry.
  destruct (parseInternalKey e.1) as [p|]; [|done]. destruct (bytes_eqb (user_key p) key); cbn [negb]; [|done].
  rewrite Hval. by destruct (type p).
Qed.

(** The writes a memtable receives. *)
Record mt_write := mkMtWrite { w_seq : Z; w_type : ValueType; w_key : bytes; w_value : bytes }.

Definition write_entry (w : mt_write) : entry := (encodeInternalKey (w_key w) (w_seq w) (w_type w), w_value w).
Definition write_ok (w : mt_write) : Prop :=
  0 <= w_seq w <= kMaxSequenceNumber /\ len (w_key w) + 8 <= kUint32Max /\ len (w_value w) <= kUint32Max.

Fixpoint mt_add_all (ws : list mt_write) (m : MemTable) : option MemTable :=
  match ws with
  | [] => Some m
  | w :: ws => m ← mt_add m (w_seq w) (w_type w) (w_key w) (w_value w); mt_add_all ws m
  end.

Definition writes_room (ws : list mt_write) : Z := foldr (fun w n => add_room (w_key w) (w_value w) + n) 0 ws.

Lemma writes_room_nonneg ws : 0 <= writes_room ws.
Proof. induction ws as [|w ws IH]; simpl; [done|]. unfold add_room, kDefaultBlockSize. llia. Qed.

Lemma mt_add_all_spec ws : forall m es,
  mt_inv m es -> Forall write_ok ws -> NoDup (map fst (map write_entry ws) ++ map fst es) ->
  mt_memoryUsage m + writes_room ws <= kUint64Max ->
  exists m' es', mt_add_all ws m = Some m' /\ mt_inv m' es' /\ es' ≡ₚ map write_entry ws ++ es /\
    mt_memoryUsage m' <= mt_memoryUsage m + writes_room ws.
Proof.
  induction ws as [|w ws IH]; intros m es Hi Hok Hnd Hm; [exists m, es; split_and!; [done..|simpl; lia]|].
  apply Forall_cons_iff in Hok as [(Hs & Hk & Hv) Hok]. simpl in Hnd. apply list.NoDup_cons in Hnd as [Hn Hnd].
  pose proof (writes_room_nonneg ws). simpl in Hm.
  destruct (mt_add_spec m es (w_seq w) (w_type w) (w_key w) (w_value w) Hi Hs) as (m1 & Hadd & Hi1 & Hm1); [set_solver|done|done|lia|].
  cbn [mt_add_all]. rewrite Hadd. cbn [mbind option_bind].
  change (encodeInternalKey (w_key w) (w_seq w) (w_type w), w_value w) with (write_entry w) in Hi1.
  destruct (IH m1 _ Hi1 Hok) as (m2 & es2 & ? & ? & Hp & Hu); [|lia|].
  - rewrite insert_run_perm. simpl. rewrite <- Permutation_middle. by apply list.NoDup_cons.
  - exists m2, es2. split_and!; [done|done| |simpl; lia]. rewrite Hp, insert_run_perm. simpl. by rewrite <- Permutation_middle.
Qed.
End operations.

(** C20. The memtable implements multi-version reads: after any writes with
    distinct internal keys, whatever their order, every [add] has returned, a
    lookup of any key at any sequence number is the multi-version
    specification of the writes, and the iterator delivers exactly the writes
    in internal-key order. *)
Theorem memtable_reads `{SystemAllocatorLaws} ws key seq :
  Forall write_ok ws -> NoDup (map fst (map write_entry ws)) -> writes_room ws + 2 * kDefaultBlockSize <= kUint64Max ->
  0 <= seq <= kMaxSequenceNumber -> len key + 8 <= kUint32Max ->
  exists m es it, (m ← newMemTable; mt_add_all ws m) = Some m /\
    mt_get m key seq = Some (mvcc_get (map write_entry ws) key seq) /\
    mi_seekToFirst (mt_newIterator m) = Some it /\ drain (S (length ws)) it = Some (es, success) /\
    es ≡ₚ map write_entry ws /\ sorted_run es.
Proof.
  intros Hok Hnd Hm Hseq Hk. destruct newMemTable_spec as (m0 & -> & Hi0 & Hm0). cbn [mbind option_bind].
  destruct (mt_add_all_spec ws m0 [] Hi0 Hok) as (m & es & -> & Hi & Hp & _); [by rewrite app_nil_r|lia|].
  rewrite app_nil_r in Hp. pose proof (mt_inv_run _ _ Hi) as Hrun.
  assert (it_on (mt_newIterator m) es) as Hon by (destruct Hi as [? _ _ _]; done).
  destruct (spec_seekToFirst _ _ Hon) as (it & Hit & [[Hat _]|[_ []]]); [|done]. exists m, es, it. split_and!; try done.
  - rewrite (mt_get_spec m es) by done. f_equal. apply mvcc_get_perm; [by apply sorted_run_nodup|done].
  - apply (drain_benign _ it es es Hat); [done|]. apply Permutation_length in Hp. rewrite length_map in Hp. lia.
Qed.

#[local] Existing Instance bump_allocator.
#[local] Existing Instance bump_allocator_laws.

Definition sample_writes : list mt_write :=
  [mkMtWrite 3 kDeletion [x61] []; mkMtWrite 7 kValue [x61] [x01]; mkMtWrite 5 kValue [x61; x62] [x02; x03]].

Lemma memtable_reads_witness :
  mvcc_get (map write_entry sample_writes) [x61] 6 = LookupDeleted /\
  exists m es it, (m ← newMemTable; mt_add_all sample_writes m) = Some m /\
    mt_get m [x61] 6 = Some (mvcc_get (map write_entry sample_writes) [x61] 6) /\
    mi_seekToFirst (mt_newIterator m) = Some it /\ drain 4 it = Some (es, success) /\
    es ≡ₚ map write_entry sample_writes /\ sorted_run es.
Proof.
  split; [by vm_compute|]. apply (memtable_reads sample_writes [x61] 6).
  - repeat (constructor; [by vm_compute|]). constructor.
  - vm_compute. repeat (constructor; [set_solver|]). constructor.
  - by vm_compute.
  - unfold kMaxSequenceNumber. lia.
  - by vm_compute.
Defined.
