(* ===== verification/MergingIterator.v ===== *)
(** The merging iterator (src/db/merging_iterator.cc): a k-way merge of sorted
    children by a priority queue of child indices, and the proof that it
    implements the iterator contract over the union of its children. *)
From S2P Require Import Prelude Status InternalKey Mvcc Iterator.

Section merging.
Context {I : Type} `{InternalIterator I}.

(** [class MergingIterator].  [heap_] is the content of the
    [std::priority_queue] in the order in which it would be popped. *)
Record MergingIterator := mkMergingIterator {
  children_ : list I;
  heap_ : list nat;
  mg_status_ : Status;
}.

Definition newMergingIterator (children : list I) : MergingIterator := mkMergingIterator children [] success.

(** [MergingIterator::Greater]: the children's current keys, ties broken by
    the index. *)
Definition Greater (children : list I) (lhs rhs : nat) : option bool :=
  l ← children !! lhs; r ← children !! rhs;
  left_key ← it_internalKey l; right_key ← it_internalKey r;
  if InternalKeyLess right_key left_key then Some true
  else if InternalKeyLess left_key right_key then Some false
  else Some (rhs <? lhs)%nat.

(** [std::priority_queue::push] under [Greater]; [top] and [pop] are the head
    and the tail. *)
Fixpoint heap_push (children : list I) (heap : list nat) (index : nat) : option (list nat) :=
  match heap with
  | [] => Some [index]
  | top :: heap' =>
      g ← Greater children index top;
      if g : bool then heap' ← heap_push children heap' index; Some (top :: heap')
      else Some (index :: heap)
  end.

Definition mg_valid (m : MergingIterator) : bool :=
  ok (mg_status_ m) &&
  match heap_ m with
  | [] => false
  | top :: _ => match children_ m !! top with Some child => it_valid child | None => false end
  end.

(** [rebuildHeap] pushes the valid children in index order. *)
Fixpoint rebuild_loop (children rest : list I) (index : nat) (heap : list nat) : option (list nat) :=
  match rest with
  | [] => Some heap
  | child :: rest =>
      heap ← (if it_valid child then heap_push children heap index else Some heap);
      rebuild_loop children rest (S index) heap
  end.

Definition rebuildHeap (m : MergingIterator) : option MergingIterator :=
  heap ← rebuild_loop (children_ m) (children_ m) 0 (heap_ m);
  Some (mkMergingIterator (children_ m) heap (mg_status_ m)).

Fixpoint first_error (children : list I) : option Status :=
  match children with
  | [] => None
  | child :: rest => if ok (it_status child) then first_error rest else Some (it_status child)
  end.

Definition checkChildren (m : MergingIterator) : MergingIterator * bool :=
  match first_error (children_ m) with
  | Some s => (mkMergingIterator (children_ m) [] s, false)
  | None => (m, true)
  end.

Definition clearHeap (m : MergingIterator) : MergingIterator :=
  mkMergingIterator (children_ m) [] (mg_status_ m).

Definition mg_seekToFirst (m : MergingIterator) : option MergingIterator :=
  if negb (ok (mg_status_ m)) then Some m
  else
    let m := clearHeap m in
    children ← mapM it_seekToFirst (children_ m);
    let '(m, good) := checkChildren (mkMergingIterator children (heap_ m) (mg_status_ m)) in
    if good then rebuildHeap m else Some m.

Definition mg_seek (m : MergingIterator) (target : bytes) : option MergingIterator :=
  if negb (ok (mg_status_ m)) then Some m
  else
    let m := clearHeap m in
    children ← mapM (fun child => it_seek child target) (children_ m);
    let '(m, good) := checkChildren (mkMergingIterator children (heap_ m) (mg_status_ m)) in
    if good then rebuildHeap m else Some m.

Definition mg_next (m : MergingIterator) : option MergingIterator :=
  _ ← assert_that (mg_valid m);
  if negb (ok (mg_status_ m)) then Some m
  else
    index ← head (heap_ m);
    let heap := tail (heap_ m) in
    child ← children_ m !! index;
    child ← it_next child;
    let '(m, good) := checkChildren (mkMergingIterator (<[index := child]> (children_ m)) heap (mg_status_ m)) in
    if negb good then Some m
    else if it_valid child
    then heap ← heap_push (children_ m) (heap_ m) index; Some (mkMergingIterator (children_ m) heap (mg_status_ m))
    else Some m.

Definition mg_internalKey (m : MergingIterator) : option bytes :=
  _ ← assert_that (mg_valid m);
  top ← head (heap_ m); child ← children_ m !! top; it_internalKey child.

Definition mg_value (m : MergingIterator) : option bytes :=
  _ ← assert_that (mg_valid m);
  top ← head (heap_ m); child ← children_ m !! top; it_value child.

#[global] Instance merging_internal_iterator : InternalIterator MergingIterator := {
  it_valid := mg_valid;
  it_seekToFirst := mg_seekToFirst;
  it_seek := mg_seek;
  it_next := mg_next;
  it_internalKey := mg_internalKey;
  it_value := mg_value;
  it_status := mg_status_;
}.

End merging.
Arguments MergingIterator I : clear implicits.
Arguments mkMergingIterator {I}.

(** ** Merging sorted runs *)

Lemma seek_spec_filter target es :
  sorted_run es -> seek_spec target es = filter (fun e : entry => InternalKeyLess e.1 target = false) es.
Proof.
  unfold seek_spec. induction es as [|e es IH]; [done|]. intros (_ & Hlt & Hr)%sorted_run_cons. specialize (IH Hr).
  simpl. rewrite filter_cons. destruct (InternalKeyLess e.1 target) eqn:E; case_decide; try done.
  f_equal. symmetry. clear IH. induction es as [|x es IH]; [done|]. apply Forall_cons_iff in Hlt as [Hx Hlt].
  rewrite filter_cons. rewrite decide_True; [f_equal; apply sorted_run_cons in Hr as (_ & _ & Hr); by apply IH|].
  destruct (InternalKeyLess x.1 target) eqn:E'; [|done]. rewrite <- E. symmetry. by apply InternalKeyLess_trans with x.1.
Qed.

Lemma filter_concat {A} (P : A -> Prop) `{!forall x, Decision (P x)} (ls : list (list A)) :
  filter P (concat ls) = concat (map (filter P) ls).
Proof. induction ls as [|l ls IH]; [done|]. simpl. by rewrite list.filter_app, IH. Qed.

Lemma concat_insert {A} (ls : list (list A)) i e r :
  ls !! i = Some (e :: r) -> concat ls ≡ₚ e :: concat (<[i := r]> ls).
Proof.
  revert i. induction ls as [|l ls IH]; intros [|i] Hi; simplify_eq/=; [done|].
  rewrite (IH i Hi). by rewrite Permutation_middle.
Qed.

Lemma elem_of_concat {A} (ls : list (list A)) x : x ∈ concat ls <-> exists i l, ls !! i = Some l /\ x ∈ l.
Proof.
  rewrite list_elem_of_In, in_concat. split.
  - intros (l & Hl & Hx). apply list_elem_of_In, list_elem_of_lookup in Hl as [i Hi]. apply list_elem_of_In in Hx. eauto.
  - intros (i & l & Hi & Hx). exists l. split; apply list_elem_of_In; [by eapply list_elem_of_lookup_2|done].
Qed.

(** The least element of a sorted run is its head. *)
Lemma sorted_run_least e es h :
  sorted_run (e :: es) -> h ∈ e :: es -> (forall x, x ∈ e :: es -> x = h \/ entry_lt h x) -> h = e.
Proof.
  intros (_ & Hlt & _)%sorted_run_cons Hin Hmin. destruct (Hmin e ltac:(set_solver)) as [->|Hhe]; [done|].
  apply elem_of_cons in Hin as [->|Hin]; [done|]. rewrite Forall_elem in Hlt. specialize (Hlt _ Hin).
  apply InternalKeyLess_asym in Hlt. unfold entry_lt, entry_ltb in Hhe. congruence.
Qed.

(** ** The priority queue *)

Section heap.
Context {I : Type} `{IteratorSpec I}.
Implicit Types (children : list I) (parts : list (list entry * list entry)) (rests : list (list entry)).

(** Each child with its run and what it has left of it. *)
Definition parts_at children parts : Prop := Forall2 (fun c p => it_at c p.1 p.2) children parts.

Definition head_at rests (i : nat) : option entry := rest ← rests !! i; head rest.
Definition heads_lt rests (i j : nat) : Prop :=
  exists a b, head_at rests i = Some a /\ head_at rests j = Some b /\ entry_lt a b.

(** The queue holds indices of non-empty children, least head first. *)
Definition heap_sorted rests (heap : list nat) : Prop :=
  StronglySorted (heads_lt rests) heap /\ Forall (fun i => is_Some (head_at rests i)) heap.

Lemma heads_lt_trans rests i j k : heads_lt rests i j -> heads_lt rests j k -> heads_lt rests i k.
Proof. intros (a & b & Ha & Hb & Hab) (b' & c & Hb' & Hc & Hbc). simplify_eq. exists a, c. eauto using entry_lt_trans. Qed.

Lemma heads_lt_irrefl rests i : ~ heads_lt rests i i.
Proof. intros (a & b & Ha & Hb & Hab). simplify_eq. unfold entry_lt, entry_ltb in Hab. by rewrite InternalKeyLess_irrefl in Hab. Qed.

Lemma head_at_elem rests i a : head_at rests i = Some a -> a ∈ concat rests.
Proof.
  unfold head_at. destruct (rests !! i) as [[|x l]|] eqn:E; intros; simplify_eq/=.
  apply elem_of_concat. exists i, (a :: l). set_solver.
Qed.

Lemma heads_distinct rests : NoDup (map fst (concat rests)) -> forall i j a b,
  i <> j -> head_at rests i = Some a -> head_at rests j = Some b -> a.1 <> b.1.
Proof.
  induction rests as [|l rests IH]; [done|]. simpl. rewrite map_app. intros (_ & Hd & Hr)%list.NoDup_app i j a b Hij Ha Hb Heq.
  assert (forall x c, head_at (l :: rests) 0 = Some x -> c ∈ concat rests -> x.1 <> c.1) as Hx.
  { intros x c Hx Hc Hxc. destruct l as [|y l]; [done|]. injection Hx as <-. apply (Hd y.1); [apply elem_of_cons; by left|].
    rewrite Hxc. change (map fst ?z) with (fst <$> z). by apply list_elem_of_fmap_2. }
  destruct i as [|i], j as [|j]; [done|..].
  - by apply (Hx a b); [|apply head_at_elem with j|].
  - by apply (Hx b a); [|apply head_at_elem with i|].
  - by apply (IH Hr i j a b); [congruence|..].
Qed.

Lemma head_at_child children parts i a :
  parts_at children parts -> head_at (map snd parts) i = Some a ->
  exists c, children !! i = Some c /\ it_valid c = true /\ it_internalKey c = Some a.1 /\ it_value c = Some a.2 /\ entry_valid a.
Proof.
  intros Hp. unfold head_at. change (map snd parts) with (snd <$> parts). rewrite list_lookup_fmap.
  destruct (parts !! i) as [[run rest]|] eqn:E; [|done]. simpl. destruct rest as [|[k v] rest]; [done|].
  intros; simplify_eq/=. destruct (Forall2_lookup_r _ _ _ _ _ Hp E) as (c & Hc & Hat). exists c.
  destruct (at_entry _ _ _ _ _ Hat) as (? & ? & ?). apply at_run, sorted_run_cons in Hat as [? _]. done.
Qed.

Lemma Greater_spec children parts i j a b :
  parts_at children parts -> head_at (map snd parts) i = Some a -> head_at (map snd parts) j = Some b -> a.1 <> b.1 ->
  Greater children i j = Some (entry_ltb b a) /\ (entry_ltb b a = false -> entry_lt a b).
Proof.
  intros Hp Hi Hj Hne. unfold Greater, entry_lt, entry_ltb.
  destruct (head_at_child _ _ _ _ Hp Hi) as (c & -> & _ & Hc & _ & [p Ha]), (head_at_child _ _ _ _ Hp Hj) as (d & -> & _ & Hd & _ & [q Hb]).
  cbn [mbind option_bind]. rewrite Hc, Hd. cbn [mbind option_bind]. destruct (InternalKeyLess b.1 a.1) eqn:E; [done|].
  destruct (InternalKeyLess a.1 b.1) eqn:E'; [done|]. destruct Hne. apply InternalKeyLess_total; eauto using parse_len.
Qed.

Lemma heap_push_spec children parts index a heap :
  parts_at children parts -> NoDup (map fst (concat (map snd parts))) ->
  head_at (map snd parts) index = Some a -> index ∉ heap -> heap_sorted (map snd parts) heap ->
  exists heap', heap_push children heap index = Some heap' /\ heap' ≡ₚ index :: heap /\ heap_sorted (map snd parts) heap'.
Proof.
  intros Hp Hnd Ha. induction heap as [|top heap IH]; intros Hnin [Hs Hh].
  { exists [index]. split_and!; [done|done|]. split; repeat constructor. by eexists. }
  inversion Hs as [|? ? Hs' Htop]; subst. apply Forall_cons_iff in Hh as [[b Hb] Hh]. simpl heap_push.
  destruct (Greater_spec children parts index top a b) as [-> Hlt]; try done.
  { apply (heads_distinct (map snd parts) Hnd index top); [set_solver|done..]. }
  cbn [mbind option_bind]. destruct (entry_ltb b a) eqn:E.
  - destruct IH as (heap' & -> & Hperm & Hs2 & Hh2); [set_solver|done|]. cbn [mbind option_bind]. exists (top :: heap').
    split_and!; [done|rewrite Hperm; apply Permutation_swap|]. split; constructor; [done| |by eexists|done].
    rewrite Hperm. constructor; [by exists b, a|done].
  - exists (index :: top :: heap). split_and!; [done|done|]. assert (heads_lt (map snd parts) index top) by (exists a, b; auto).
    split; constructor; [done| |by eexists|by constructor; [eexists|]].
    constructor; [done|]. eapply Forall_impl; [|exact Htop]. intros. by eapply heads_lt_trans.
Qed.

Definition heap_ok rests (heap : list nat) : Prop :=
  heap_sorted rests heap /\ forall i, i ∈ heap <-> is_Some (head_at rests i).

Lemma child_valid children parts i c :
  parts_at children parts -> children !! i = Some c -> it_valid c = true <-> is_Some (head_at (map snd parts) i).
Proof.
  intros Hp Hc. unfold head_at. change (map snd parts) with (snd <$> parts). rewrite list_lookup_fmap.
  destruct (Forall2_lookup_l _ _ _ _ _ Hp Hc) as ([run rest] & -> & Hat). simpl in *. rewrite (at_valid _ _ _ Hat).
  destruct rest; simpl; [|by split]. split; [done|by intros []].
Qed.

Lemma head_at_bound children parts i :
  parts_at children parts -> is_Some (head_at (map snd parts) i) -> (i < length children)%nat.
Proof. intros Hp [a Ha]. destruct (head_at_child _ _ _ _ Hp Ha) as (c & Hc & _). by apply lookup_lt_Some in Hc. Qed.

Lemma rebuild_loop_spec children parts : parts_at children parts -> NoDup (map fst (concat (map snd parts))) ->
  forall rest pre heap, children = pre ++ rest -> heap_sorted (map snd parts) heap ->
  (forall i, i ∈ heap <-> (i < length pre)%nat /\ is_Some (head_at (map snd parts) i)) ->
  exists heap', rebuild_loop children rest (length pre) heap = Some heap' /\ heap_ok (map snd parts) heap'.
Proof.
  intros Hp Hnd. induction rest as [|c rest IH]; intros pre heap Hc Hs Hin.
  - exists heap. split; [done|]. split; [done|]. intros i. rewrite Hin. split; [by intros []|]. intros Hi. split; [|done].
    apply (head_at_bound children) in Hi; [|done]. by rewrite Hc, app_nil_r in Hi.
  - assert (children !! length pre = Some c) as Hl by (by rewrite Hc, list_lookup_middle).
    pose proof (child_valid _ _ _ _ Hp Hl) as Hv.
    assert (exists heap', (if it_valid c then heap_push children heap (length pre) else Some heap) = Some heap' /\
      heap_sorted (map snd parts) heap' /\
      (forall i, i ∈ heap' <-> (i < S (length pre))%nat /\ is_Some (head_at (map snd parts) i))) as (heap' & Hpush & Hs' & Hin').
    { destruct (it_valid c).
      - destruct (proj1 Hv eq_refl) as [a Ha]. destruct (heap_push_spec children parts (length pre) a heap) as (heap' & ? & Hperm & ?); try done.
        { rewrite Hin. intros []; lia. }
        exists heap'. split_and!; [done..|]. intros i. rewrite Hperm, elem_of_cons, Hin. split.
        + intros [->|[? ?]]; (split; [lia|]); by eauto.
        + intros [? ?]. destruct (decide (i = length pre)); [by left|right]. split; [lia|done].
      - exists heap. split_and!; [done..|]. intros i. rewrite Hin. split; intros [? Hi]; (split; [|done]); [lia|].
        destruct (decide (i = length pre)) as [->|]; [by apply Hv in Hi|lia]. }
    cbn [rebuild_loop]. rewrite Hpush. cbn [mbind option_bind].
    replace (S (length pre)) with (length (pre ++ [c])) in * by (rewrite length_app; simpl; lia).
    apply IH; [by rewrite <- app_assoc|done|done].
Qed.

(** ** The iterator contract *)

Definition mg_on (m : MergingIterator I) (es : list entry) : Prop :=
  mg_status_ m = success /\ sorted_run es /\
  exists runs, Forall2 it_on (children_ m) runs /\ es ≡ₚ concat runs.

Record mg_at (m : MergingIterator I) (es rest : list entry) : Prop := {
  mg_ok : mg_status_ m = success;
  mg_run : sorted_run es;
  mg_suffix : exists before, es = before ++ rest;
  mg_parts : exists parts, parts_at (children_ m) parts /\
    es ≡ₚ concat (map fst parts) /\ rest ≡ₚ concat (map snd parts) /\ heap_ok (map snd parts) (heap_ m);
}.

Lemma sorted_perm_nodup rest es : sorted_run rest -> rest ≡ₚ es -> NoDup (map fst es).
Proof. intros Hr Hp. rewrite <- Hp. by apply sorted_run_nodup. Qed.

Lemma first_error_ok children parts : parts_at children parts -> first_error children = None.
Proof. induction 1 as [|c [run rest] cs ps Hc _ IH]; [done|]. simpl. by rewrite (at_ok _ _ _ Hc). Qed.

(** Positioning all children and rebuilding the queue. *)
Lemma mg_position children parts es rest :
  parts_at children parts -> sorted_run es -> (exists before, es = before ++ rest) ->
  es ≡ₚ concat (map fst parts) -> rest ≡ₚ concat (map snd parts) ->
  exists m, rebuildHeap (mkMergingIterator children [] success) = Some m /\ mg_at m es rest.
Proof.
  intros Hp Hr [before Hb] He Hrest. unfold rebuildHeap. cbn [children_ heap_ mg_status_].
  destruct (rebuild_loop_spec children parts Hp) with (rest := children) (pre := @nil I) (heap := @nil nat) as (heap & Hloop & Hh).
  - eapply sorted_perm_nodup; [|exact Hrest]. rewrite Hb in Hr. by eapply sorted_run_suffix.
  - done.
  - split; constructor.
  - intros i. simpl. split; [set_solver|lia].
  - simpl length in Hloop. rewrite Hloop. cbn [mbind option_bind]. eexists. split; [done|].
    split; [done|done|by exists before|]. by exists parts.
Qed.

(** A child has failed. *)
Definition some_error children : Prop := exists s, first_error children = Some s.

Lemma some_error_cons c children : some_error children -> some_error (c :: children).
Proof. intros [s Hs]. unfold some_error. simpl. destruct (ok (it_status c)); by eauto. Qed.

Lemma some_error_elem children i c : children !! i = Some c -> ok (it_status c) = false -> some_error children.
Proof.
  revert i. induction children as [|c' cs IH]; intros i Hc Hbad; [done|]. destruct i as [|i]; [|by eapply some_error_cons, IH].
  simplify_eq/=. unfold some_error. simpl. rewrite Hbad. by eexists.
Qed.

Lemma mapM_position (f : I -> option I) (g : list entry -> list entry) children runs :
  (forall c es, it_on c es -> exists c', f c = Some c' /\ moves it_at it_benign c c' es (g es)) -> Forall2 it_on children runs ->
  exists children', mapM f children = Some children' /\
    ((parts_at children' (map (fun r => (r, g r)) runs) /\ (Forall it_benign children -> Forall it_benign children')) \/
     (some_error children' /\ ~ Forall it_benign children)).
Proof.
  intros Hf. induction 1 as [|c r cs rs Hc _ (cs' & IH & Hp)].
  { exists []. split; [done|]. left. split; [constructor|done]. }
  destruct (Hf c r Hc) as (c' & Hc' & Hm). exists (c' :: cs'). cbn [mapM]. rewrite Hc'. cbn [mbind option_bind].
  rewrite IH. split; [done|]. rewrite !Forall_cons_iff. destruct Hm as [[Hat Hb]|[Hbad Hn]]; [|right; split; [|tauto]].
  - destruct Hp as [[Hp Hbs]|[He Hn]]; [left|right; split; [by apply some_error_cons|tauto]]. split; [by constructor|tauto].
  - by apply (some_error_elem _ 0 c').
Qed.

Lemma check_error m : some_error (children_ m) -> exists m', checkChildren m = (m', false) /\ ok (mg_status_ m') = false.
Proof.
  intros [s Hs]. unfold checkChildren. rewrite Hs. eexists. split; [done|]. simpl. revert Hs. clear.
  induction (children_ m) as [|c cs IH]; simpl; [done|]. destruct (ok (it_status c)) eqn:E; intros; simplify_eq; auto.
Qed.

Definition mg_benign (m : MergingIterator I) : Prop := Forall it_benign (children_ m).

(** Both positioning operations, for a child operation [f] that leaves [g]. *)
Lemma mg_reposition (f : I -> option I) (g : list entry -> list entry) m es :
  (forall c es, it_on c es -> exists c', f c = Some c' /\ moves it_at it_benign c c' es (g es)) -> mg_on m es ->
  (forall runs, Forall sorted_run runs -> es ≡ₚ concat runs -> g es ≡ₚ concat (map g runs)) ->
  (exists before, es = before ++ g es) ->
  exists m', (children ← mapM f (children_ m);
     let '(m, good) := checkChildren (mkMergingIterator children [] (mg_status_ m)) in
     if good then rebuildHeap m else Some m) = Some m' /\ moves mg_at mg_benign m m' es (g es).
Proof.
  intros Hf (Hok & Hr & runs & Hon & Hperm) Hg Hsuf. destruct (mapM_position f g _ _ Hf Hon) as (cs & -> & Hp).
  cbn [mbind option_bind]. destruct Hp as [[Hp Hb]|[He Hn]].
  - unfold checkChildren. cbn [children_]. rewrite (first_error_ok _ _ Hp), Hok.
    destruct (mg_position cs _ es (g es) Hp Hr Hsuf) as (m' & Hm' & Hat); [by rewrite map_map, map_id| |].
    + rewrite map_map. simpl. apply Hg; [|done]. clear -Hon. induction Hon; constructor; eauto using on_run.
    + exists m'. split; [done|]. left. split; [done|]. unfold mg_benign. revert Hm'. unfold rebuildHeap. cbn [children_ heap_].
      intros (h & _ & [= <-])%bind_Some. done.
  - destruct (check_error (mkMergingIterator cs [] (mg_status_ m)) He) as (m' & -> & Hbad). exists m'. split; [done|]. by right.
Qed.

Lemma run_sorted children parts i l : parts_at children parts -> map snd parts !! i = Some l -> sorted_run l.
Proof.
  intros Hp Hi. change (map snd parts) with (snd <$> parts) in Hi. rewrite list_lookup_fmap in Hi.
  apply fmap_Some in Hi as ([run rest] & Hi & ->). destruct (Forall2_lookup_r _ _ _ _ _ Hp Hi) as (c & _ & Hat).
  by apply at_run in Hat.
Qed.

(** The top of the queue is the child that holds the next entry. *)
Lemma heap_top children parts heap e rest :
  parts_at children parts -> heap_ok (map snd parts) heap -> sorted_run (e :: rest) -> e :: rest ≡ₚ concat (map snd parts) ->
  exists i heap' l, heap = i :: heap' /\ map snd parts !! i = Some (e :: l).
Proof.
  intros Hp [[Hs Hh] Hin] Hr Hperm.
  assert (forall x j l, map snd parts !! j = Some l -> x ∈ l ->
    exists b, head_at (map snd parts) j = Some b /\ (x = b \/ entry_lt b x)) as Hhead.
  { intros x j l Hj Hx. unfold head_at. rewrite Hj. destruct l as [|b l]; [set_solver|]. exists b. split; [done|].
    apply (run_sorted children parts) in Hj; [|done]. apply sorted_run_cons in Hj as (_ & Hlt & _). rewrite Forall_elem in Hlt.
    apply elem_of_cons in Hx as [->|Hx]; auto. }
  assert (forall x, x ∈ e :: rest -> exists j l, map snd parts !! j = Some l /\ x ∈ l) as Hany.
  { intros x Hx. rewrite Hperm in Hx. by apply elem_of_concat in Hx. }
  destruct (Hany e ltac:(set_solver)) as (j & l & Hj & He). destruct (Hhead e j l Hj He) as (b & Hb & _).
  assert (j ∈ heap) as Hjh by (apply Hin; by eexists). destruct heap as [|i heap]; [set_solver|]. clear j l Hj He b Hb Hjh.
  apply Forall_cons_iff in Hh as [[h Hi] Hh]. inversion Hs as [|? ? Hs' Htop]; subst. rewrite Forall_elem in Htop.
  assert (h = e) as ->; [|unfold head_at in Hi; destruct (map snd parts !! i) as [[|]|] eqn:E; simplify_eq/=; eauto].
  apply (sorted_run_least e rest h Hr); [rewrite Hperm; by apply head_at_elem with i|]. intros x Hx.
  destruct (Hany x Hx) as (j & l & Hj & Hxl). destruct (Hhead x j l Hj Hxl) as (b & Hb & Hbx).
  assert (j ∈ i :: heap) as Hjh by (apply Hin; by eexists). apply elem_of_cons in Hjh as [->|Hjh]; [simplify_eq; naive_solver|].
  destruct (Htop j Hjh) as (h' & b' & ? & ? & ?). simplify_eq. right. destruct Hbx as [->|]; [done|by eapply entry_lt_trans].
Qed.

Lemma mg_top m es e rest :
  mg_at m es (e :: rest) -> exists parts i heap' l, parts_at (children_ m) parts /\ heap_ m = i :: heap' /\
    es ≡ₚ concat (map fst parts) /\ e :: rest ≡ₚ concat (map snd parts) /\ heap_ok (map snd parts) (heap_ m) /\
    map snd parts !! i = Some (e :: l).
Proof.
  intros [_ Hr [before ->] (parts & Hp & He & Hrest & Hh)]. apply sorted_run_suffix in Hr.
  destruct (heap_top _ _ _ _ _ Hp Hh Hr Hrest) as (i & heap' & l & Hi & Hl). by exists parts, i, heap', l.
Qed.

Lemma mg_valid_top m i heap' parts e l :
  mg_status_ m = success -> heap_ m = i :: heap' -> parts_at (children_ m) parts -> map snd parts !! i = Some (e :: l) ->
  exists c, children_ m !! i = Some c /\ mg_valid m = true /\ it_internalKey c = Some e.1 /\ it_value c = Some e.2.
Proof.
  intros Hok Hh Hp Hi. assert (head_at (map snd parts) i = Some e) as Ha by (unfold head_at; by rewrite Hi).
  destruct (head_at_child _ _ _ _ Hp Ha) as (c & Hc & Hv & ? & ? & _). exists c. split_and!; try done.
  unfold mg_valid. by rewrite Hok, Hh, Hc, Hv.
Qed.

Lemma mg_at_end m es : mg_at m es [] -> mg_valid m = false.
Proof.
  intros [Hok _ _ (parts & Hp & _ & Hrest & [_ Hin])]. unfold mg_valid. rewrite Hok. simpl.
  destruct (heap_ m) as [|i heap]; [done|]. destruct (proj1 (Hin i) ltac:(set_solver)) as [a Ha].
  apply head_at_elem in Ha. rewrite <- Hrest in Ha. set_solver.
Qed.

Lemma head_at_insert rests i j l : i <> j -> head_at (<[i := l]> rests) j = head_at rests j.
Proof. intros. unfold head_at. by rewrite list_lookup_insert_ne. Qed.

(** Popping the top and replacing what its child has left keeps the queue
    sorted and complete for the other children. *)
Lemma heap_pop rests i heap l :
  heap_ok rests (i :: heap) -> i ∉ heap /\ heap_sorted (<[i := l]> rests) heap /\
  (forall j, i <> j -> j ∈ heap <-> is_Some (head_at (<[i := l]> rests) j)).
Proof.
  intros [[Hs Hh] Hin]. inversion Hs as [|? ? Hs' Htop]; subst. rewrite Forall_elem in Htop.
  assert (i ∉ heap) as Hni by (intros Hi; by apply (heads_lt_irrefl rests i), Htop). split; [done|]. split.
  - apply Forall_cons_iff in Hh as [_ Hh]. clear -Hs' Hh Hni.
    induction Hs' as [|j heap Hs IH Hj]; [split; constructor|]. apply Forall_cons_iff in Hh as [Hhj Hh].
    destruct IH as [IH1 IH2]; [done|set_solver|]. split; constructor; try done; [|rewrite head_at_insert by set_solver; done].
    rewrite Forall_elem in Hj |- *. intros k Hk. destruct (Hj k Hk) as (a & b & ? & ? & ?). exists a, b.
    rewrite !head_at_insert by set_solver. done.
  - intros j Hij. rewrite head_at_insert by done. rewrite <- Hin. set_solver.
Qed.

Lemma mg_next_spec m es e rest : mg_at m es (e :: rest) ->
  exists m', mg_next m = Some m' /\ moves mg_at mg_benign m m' es rest.
Proof.
  intros Hat. destruct (mg_top _ _ _ _ Hat) as (parts & i & heap & l & Hp & Hh & He & Hrest & Hok & Hi).
  destruct Hat as [Hst Hr [before Hb] _]. destruct (mg_valid_top _ _ _ _ _ _ Hst Hh Hp Hi) as (c & Hc & Hv & _ & _).
  unfold mg_next. rewrite Hv, Hst, Hh. cbn [assert_that mbind option_bind head tail]. simpl (negb _). cbn iota. rewrite Hc. cbn [mbind option_bind].
  destruct (Forall2_lookup_l _ _ _ _ _ Hp Hc) as ([run r] & Hpi & Hcat).
  assert (r = e :: l) as -> by (change (map snd parts) with (snd <$> parts) in Hi; rewrite list_lookup_fmap, Hpi in Hi; by simplify_eq/=).
  destruct (spec_next _ _ _ _ Hcat) as (c' & -> & Hm). cbn [mbind option_bind].
  assert ((<[i := c']> (children_ m)) !! i = Some c') as Hc' by (apply list_lookup_insert_eq; by apply lookup_lt_Some in Hc).
  destruct Hm as [[Hcat' Hb']|[Hbad Hn]].
  2:{ destruct (check_error (mkMergingIterator (<[i := c']> (children_ m)) heap success)) as (m' & -> & Hbad');
        [by apply (some_error_elem _ i c')|]. exists m'. split; [done|]. right. split; [done|]. unfold mg_benign. rewrite Forall_elem.
      intros Hall. apply Hn, Hall. by eapply list_elem_of_lookup_2. }
  assert (mg_benign m -> Forall it_benign (<[i := c']> (children_ m))) as Hbn.
  { unfold mg_benign. intros Hall. apply list.Forall_insert; [done|]. rewrite Forall_elem in Hall. apply Hb', Hall. by eapply list_elem_of_lookup_2. }
  simpl in Hcat'.
  assert (parts_at (<[i := c']> (children_ m)) (<[i := (run, l)]> parts)) as Hp' by (by apply Forall2_insert).
  assert (map snd (<[i := (run, l)]> parts) = <[i := l]> (map snd parts)) as Hsnd by apply (list_fmap_insert snd).
  assert (map fst (<[i := (run, l)]> parts) = map fst parts) as Hfst.
  { etrans; [apply (list_fmap_insert fst)|]. apply list_insert_id. change (map fst parts) with (fst <$> parts). by rewrite list_lookup_fmap, Hpi. }
  assert (rest ≡ₚ concat (<[i := l]> (map snd parts))) as Hrest'.
  { apply (Permutation_cons_inv (a := e)). by rewrite Hrest, <- concat_insert. }
  unfold checkChildren. cbn [children_]. rewrite (first_error_ok _ _ Hp'). cbn [negb children_ heap_ mg_status_].
  rewrite Hh in Hok. destruct (heap_pop _ _ _ l Hok) as (Hni & Hs & Hin).
  pose proof (child_valid _ _ _ _ Hp' Hc') as Hcv. rewrite Hsnd in Hcv.
  assert (exists heap', (if it_valid c' then heap_push (<[i := c']> (children_ m)) heap i else Some heap) = Some heap' /\
            heap_ok (<[i := l]> (map snd parts)) heap') as (heap' & Hpush & Hok').
  { destruct (it_valid c').
    - destruct (proj1 Hcv eq_refl) as [a Ha]. destruct (heap_push_spec _ _ i a heap Hp') as (heap' & ? & Hperm & ?); rewrite ?Hsnd; try done.
      + eapply sorted_perm_nodup; [|exact Hrest']. rewrite Hb in Hr. by apply sorted_run_suffix, sorted_run_cons in Hr as (_ & _ & ?).
      + exists heap'. split; [done|]. split; [by rewrite <- Hsnd|]. intros j. rewrite Hperm, elem_of_cons.
        destruct (decide (i = j)) as [<-|]; [rewrite Ha; naive_solver|]. rewrite <- Hin by done. naive_solver.
    - exists heap. split; [done|]. split; [done|]. intros j. destruct (decide (i = j)) as [<-|]; [|by apply Hin].
      split; [done|]. intros Hi0. by apply Hcv in Hi0. }
  exists (mkMergingIterator (<[i := c']> (children_ m)) heap' success). split.
  - destruct (it_valid c'); [by rewrite Hpush|by simplify_eq].
  - left. split; [|done]. split; [done|done|exists (before ++ [e]); by rewrite <- app_assoc|]. exists (<[i := (run, l)]> parts).
    by rewrite Hsnd, Hfst.
Qed.

#[global] Program Instance merging_iterator_spec : IteratorSpec (MergingIterator I) := {
  it_on := mg_on;
  it_at := mg_at;
  it_benign := mg_benign;
}.
Next Obligation. intros m Hf. simpl in *. unfold mg_valid. by rewrite Hf. Qed.
Next Obligation. by intros m es (_ & ? & _). Qed.
Next Obligation. by intros m es (? & _). Qed.
Next Obligation.
  intros m es rest [? ? _ (parts & Hp & He & _)]. split_and!; [done|done|]. exists (map fst parts). split; [|done].
  clear -Hp. induction Hp; constructor; eauto using at_on.
Qed.
Next Obligation. by intros m es rest [_ _ ? _]. Qed.
Next Obligation. intros. by eapply mg_at_end. Qed.
Next Obligation.
  intros m es k v rest Hat. destruct (mg_top _ _ _ _ Hat) as (parts & i & heap & l & Hp & Hh & _ & _ & _ & Hi).
  destruct (mg_valid_top _ _ _ _ _ _ (mg_ok _ _ _ Hat) Hh Hp Hi) as (c & Hc & Hv & Hk & Hval).
  cbn [it_valid it_internalKey it_value merging_internal_iterator].
  unfold mg_internalKey, mg_value. rewrite Hv, Hh. cbn [assert_that mbind option_bind head]. by rewrite Hc.
Qed.
Next Obligation.
  intros m es Hon. simpl. unfold mg_seekToFirst. rewrite (proj1 Hon). simpl (negb _). cbn iota.
  unfold clearHeap. cbn [children_ heap_ mg_status_]. destruct (mg_reposition it_seekToFirst (fun es => es) m es) as (m' & Hm & Hat).
  - apply spec_seekToFirst.
  - done.
  - intros runs _ ->. by rewrite map_id.
  - by exists [].
  - exists m'. split; [exact Hm|done].
Qed.
Next Obligation.
  intros m es target Hon Ht Hlen. simpl. unfold mg_seek. rewrite (proj1 Hon). simpl (negb _). cbn iota.
  unfold clearHeap. cbn [children_ heap_ mg_status_].
  destruct (mg_reposition (fun c => it_seek c target) (seek_spec target) m es) as (m' & Hm & Hat).
  - intros c es' Hc. by apply spec_seek.
  - done.
  - intros runs Hruns Hperm. rewrite seek_spec_filter by (by destruct Hon as (_ & ? & _)). rewrite Hperm, filter_concat.
    clear Hperm. induction Hruns as [|r runs Hr Hruns IH]; [done|]. simpl. by rewrite IH, seek_spec_filter.
  - exists (takewhile (fun e : entry => InternalKeyLess e.1 target) es). symmetry. apply takewhile_dropwhile.
  - exists m'. split; [exact Hm|done].
Qed.
Next Obligation. apply mg_next_spec. Qed.
End heap.

Lemma first_error_not_ok {I} `{InternalIterator I} (children : list I) s : first_error children = Some s -> ok s = false.
Proof. induction children as [|c cs IH]; simpl; [done|]. destruct (ok (it_status c)) eqn:E; intros; simplify_eq; auto. Qed.

(** The three moves of an iterator. *)
Inductive move := MoveFirst | MoveSeek (target : bytes) | MoveNext.
Definition moved {I} `{InternalIterator I} (i : I) (mv : move) : option I :=
  match mv with MoveFirst => it_seekToFirst i | MoveSeek t => it_seek i t | MoveNext => it_next i end.

Lemma check_rebuild_status {I} `{InternalIterator I} (children : list I) heap st m good :
  checkChildren (mkMergingIterator children heap st) = (m, good) ->
  children_ m = children /\ (good = true -> first_error children = None) /\
  (good = false -> heap_ m = [] /\ first_error children = Some (mg_status_ m)).
Proof. unfold checkChildren. cbn [children_]. destruct (first_error children) eqn:E; intros; simplify_eq/=; naive_solver. Qed.

Lemma moved_error {I} `{InternalIterator I} (m m' : MergingIterator I) mv s :
  mg_status_ m = success -> moved m mv = Some m' -> first_error (children_ m') = Some s ->
  mg_status_ m' = s /\ heap_ m' = [].
Proof.
  intros Hok Hm Hs.
  assert (forall m1 good, children_ m1 = children_ m' -> (good = true -> first_error (children_ m1) = None) ->
    (good = false -> heap_ m1 = [] /\ first_error (children_ m1) = Some (mg_status_ m1)) -> m1 = m' \/ good = true ->
    mg_status_ m' = s /\ heap_ m' = []) as Hend.
  { intros m1 good Hc Hg Hb [-> | ->].
    - destruct good; [by rewrite Hg in Hs|]. destruct (Hb eq_refl). by simplify_eq.
    - by rewrite <- Hc, Hg in Hs. }
  assert (forall m1 m2, rebuildHeap m1 = Some m2 -> children_ m1 = children_ m2) as Hrb.
  { unfold rebuildHeap. intros m1 m2 (h & _ & Heq)%bind_Some. by simplify_eq. }
  destruct mv as [|t|]; cbn [moved it_seekToFirst it_seek it_next merging_internal_iterator] in Hm.
  1,2: unfold mg_seekToFirst, mg_seek in Hm; rewrite Hok in Hm; cbn [ok negb] in Hm; apply bind_Some in Hm as (cs & _ & Hm);
    destruct (checkChildren _) as [m1 good] eqn:E; apply check_rebuild_status in E as (Hc & Hg & Hb); rewrite <- Hc in Hg, Hb;
    destruct good; [apply (Hend m1 true); auto|simplify_eq; by apply (Hend m' false); auto].
  unfold mg_next in Hm. rewrite Hok in Hm. cbn [ok negb] in Hm. apply bind_Some in Hm as (_ & _ & Hm). cbn iota in Hm.
  apply bind_Some in Hm as (index & _ & Hm). apply bind_Some in Hm as (c & _ & Hm). apply bind_Some in Hm as (c' & _ & Hm).
  destruct (checkChildren _) as [m1 good] eqn:E; apply check_rebuild_status in E as (Hc & Hg & Hb); rewrite <- Hc in Hg, Hb.
  destruct good; cbn [negb] in Hm; [|simplify_eq; by apply (Hend m' false); auto].
  destruct (it_valid c'); [apply bind_Some in Hm as (h & _ & [= <-])|injection Hm as <-]; apply (Hend m1 true); auto.
Qed.

(** C24. The merging iterator merges: over any children that iterate sorted runs,
    if the union of the runs is the sorted run [es], then positioning and
    draining it delivers exactly [es], or part of it and an error, and seeking
    delivers exactly the entries of [es] not below the target, or part of them
    and an error; errors come only from children whose reads fail, no assertion
    fails and the loops end. *)
Theorem merging_iterator_merges {I} `{IteratorSpec I} (children : list I) runs es target :
  Forall2 it_on children runs -> es ≡ₚ concat runs -> sorted_run es ->
  is_Some (parseInternalKey target) -> len target <= kUint32Max ->
  exists m m' res res',
    mg_seekToFirst (newMergingIterator children) = Some m /\ drain (S (length es)) m = Some res /\
    mg_seek (newMergingIterator children) target = Some m' /\ drain (S (length es)) m' = Some res' /\
    delivers (Forall it_benign children) es res /\
    delivers (Forall it_benign children) (seek_spec target es) res'.
Proof.
  intros Hon Hp Hr Ht Hl. set (m0 := newMergingIterator children).
  assert (it_on m0 es) as H1 by (split_and!; [done|done|by exists runs]).
  destruct (spec_seekToFirst _ _ H1) as (m & Hm & Hmv). destruct (spec_seek m0 es target) as (m' & Hm' & Hmv'); [done..|].
  destruct (moves_drain (S (length es)) m0 m es es Hmv) as (res & Hd & Hres); [lia|].
  destruct (moves_drain (S (length es)) m0 m' es _ Hmv') as (res' & Hd' & Hres').
  { unfold seek_spec. rewrite <- (takewhile_dropwhile (fun e : entry => InternalKeyLess e.1 target) es) at 2. rewrite length_app. lia. }
  by exists m, m', res, res'.
Qed.

Definition sample_children : list RunIterator := [mkRunIterator (take 1 sample_run) []; mkRunIterator (drop 1 sample_run) []].

Lemma merging_iterator_merges_witness :
  exists m m' res res',
    mg_seekToFirst (newMergingIterator (rev sample_children)) = Some m /\ drain 4 m = Some res /\
    mg_seek (newMergingIterator (rev sample_children)) (encodeInternalKey [x61] 5 kValue) = Some m' /\ drain 4 m' = Some res' /\
    delivers (Forall it_benign (rev sample_children)) sample_run res /\
    delivers (Forall it_benign (rev sample_children)) (seek_spec (encodeInternalKey [x61] 5 kValue) sample_run) res'.
Proof.
  pose proof sample_run_sorted as Hs.
  apply (merging_iterator_merges (rev sample_children) [drop 1 sample_run; take 1 sample_run] sample_run).
  - apply (sorted_run_app (take 1 sample_run) (drop 1 sample_run)) in Hs as (? & ? & _).
    by constructor; [split|constructor; [split|constructor]].
  - simpl. apply (Permutation_app_comm (take 1 sample_run) (drop 1 sample_run)).
  - done.
  - eexists. by vm_compute.
  - by vm_compute.
Defined.

(** A failing input stops the merge: when, after a move, some child reports
    an error, the merging iterator reports the error of the first such child
    and is invalid, and later positioning changes nothing, so an error can
    never be skipped over. *)
Theorem merging_iterator_error {I} `{InternalIterator I} (m m' : MergingIterator I) mv s target :
  mg_status_ m = success -> moved m mv = Some m' -> first_error (children_ m') = Some s ->
  it_status m' = s /\ ok s = false /\ it_valid m' = false /\ mg_seekToFirst m' = Some m' /\ mg_seek m' target = Some m'.
Proof.
  intros Hok Hm Hs. destruct (moved_error m m' mv s Hok Hm Hs) as [Hst Hh]. apply first_error_not_ok in Hs.
  simpl. unfold mg_valid, mg_seekToFirst, mg_seek. by rewrite Hst, Hs.
Qed.

Definition failed_child : MergingIterator RunIterator := mkMergingIterator [] [] (ioError "read").

Lemma merging_iterator_error_witness :
  let m := mkMergingIterator [newMergingIterator []; failed_child] [] (ioError "read") in
  it_status m = ioError "read" /\ ok (ioError "read") = false /\ it_valid m = false /\
  mg_seekToFirst m = Some m /\ mg_seek m [x00] = Some m.
Proof.
  apply (merging_iterator_error (newMergingIterator [newMergingIterator []; failed_child]) _ MoveFirst (ioError "read") [x00]).
  - reflexivity.
  - vm_compute. reflexivity.
  - vm_compute. reflexivity.
Defined.
