(* ===== verification/DbIterator.v ===== *)
(** The database iterator (src/db/db_iterator.cc): from a sorted stream of
    internal entries to the user keys visible at a sequence number.  Verified
    against the internal iterator contract; the loop over hidden versions takes
    fuel, and any fuel above the number of entries is enough. *)
From S2P Require Import Prelude Status Coding InternalKey Mvcc Iterator.

Section db_iterator.
Context {I : Type} `{InternalIterator I}.

(** [class DBIterator]; the shared pointers it holds only keep its inputs alive. *)
Record DBIterator := mkDBIterator {
  input_ : I;
  visible_sequence_ : Z;
  skip_key_ : bytes;
  di_status_ : Status;
  di_valid_ : bool;
}.

Definition with_input (d : DBIterator) (input : I) : DBIterator :=
  mkDBIterator input (visible_sequence_ d) (skip_key_ d) (di_status_ d) (di_valid_ d).
Definition with_skip (d : DBIterator) (key : bytes) : DBIterator :=
  mkDBIterator (input_ d) (visible_sequence_ d) key (di_status_ d) (di_valid_ d).
Definition with_valid (d : DBIterator) (valid : bool) : DBIterator :=
  mkDBIterator (input_ d) (visible_sequence_ d) (skip_key_ d) (di_status_ d) valid.

Definition newDBIterator (input : I) (visible_sequence : Z) : option DBIterator :=
  _ ← assert_that (visible_sequence <=? kMaxSequenceNumber);
  Some (mkDBIterator input visible_sequence [] success false).

Definition di_valid (d : DBIterator) : bool :=
  di_valid_ d && ok (di_status_ d) && ok (it_status (input_ d)) && it_valid (input_ d).

Definition parseCurrent (d : DBIterator) : option (DBIterator * option ParsedInternalKey) :=
  k ← it_internalKey (input_ d);
  match parseInternalKey k with
  | Some parsed => Some (d, Some parsed)
  | None =>
      Some (mkDBIterator (input_ d) (visible_sequence_ d) [] (corruption "invalid internal key in DB iterator") false, None)
  end.

(** The loop of [findNextUserEntry]. *)
Fixpoint findNext_loop (fuel : nat) (d : DBIterator) (skipping : bool) : option DBIterator :=
  match fuel with
  | O => None
  | S fuel =>
      if it_valid (input_ d) then
        '(d, parsed) ← parseCurrent d;
        match parsed with
        | None => Some d
        | Some current =>
            if skipping && bytes_eqb (user_key current) (skip_key_ d) then
              input ← it_next (input_ d);
              if negb (ok (it_status input)) then Some (with_input d input)
              else findNext_loop fuel (with_input d input) true
            else
              let d := if skipping then with_skip d [] else d in
              if visible_sequence_ d <? sequence current then
                input ← it_next (input_ d);
                if negb (ok (it_status input)) then Some (with_input d input)
                else findNext_loop fuel (with_input d input) false
              else
                match type current with
                | kDeletion =>
                    let d := with_skip d (user_key current) in
                    input ← it_next (input_ d);
                    if negb (ok (it_status input)) then Some (with_input d input)
                    else findNext_loop fuel (with_input d input) true
                | kValue => Some (with_valid d true)
                end
        end
      else Some (with_skip d [])
  end.

Definition findNextUserEntry (fuel : nat) (d : DBIterator) (skipping : bool) : option DBIterator :=
  let d := with_valid d false in
  if negb (ok (it_status (input_ d))) then Some d else findNext_loop fuel d skipping.

Definition di_seekToFirst (fuel : nat) (d : DBIterator) : option DBIterator :=
  if negb (ok (di_status_ d)) then Some d
  else
    let d := with_skip (with_valid d false) [] in
    input ← it_seekToFirst (input_ d);
    findNextUserEntry fuel (with_input d input) false.

Definition di_seek (fuel : nat) (d : DBIterator) (target : bytes) : option DBIterator :=
  if negb (ok (di_status_ d)) then Some d
  else
    let d := with_skip (with_valid d false) [] in
    let internal_target := encodeInternalKey target (visible_sequence_ d) kValue in
    input ← it_seek (input_ d) internal_target;
    findNextUserEntry fuel (with_input d input) false.

Definition di_next (fuel : nat) (d : DBIterator) : option DBIterator :=
  _ ← assert_that (di_valid d);
  k ← it_internalKey (input_ d);
  current ← parseInternalKey k;
  let d := with_valid (with_skip d (user_key current)) false in
  input ← it_next (input_ d);
  findNextUserEntry fuel (with_input d input) true.

Definition di_key (d : DBIterator) : option bytes :=
  _ ← assert_that (di_valid d);
  k ← it_internalKey (input_ d);
  current ← parseInternalKey k;
  Some (user_key current).

Definition di_value (d : DBIterator) : option bytes :=
  _ ← assert_that (di_valid d);
  it_value (input_ d).

Definition di_status (d : DBIterator) : Status :=
  if negb (ok (di_status_ d)) then di_status_ d else it_status (input_ d).

(** A client's loop over the iterator. *)
Fixpoint di_drain (fuel : nat) (d : DBIterator) : option (list (bytes * bytes) * Status) :=
  match fuel with
  | O => None
  | S fuel' =>
      if di_valid d then
        k ← di_key d; v ← di_value d; d ← di_next fuel d;
        '(kvs, s) ← di_drain fuel' d; Some ((k, v) :: kvs, s)
      else Some ([], di_status d)
  end.

End db_iterator.
Arguments DBIterator I : clear implicits.

(** ** The visible keys of a run *)

(** What the iterator delivers from [es] on, ignoring the versions of [skip]. *)
Fixpoint scan (seq : Z) (skip : option bytes) (es : list entry) : list (bytes * bytes) :=
  match es with
  | [] => []
  | e :: es =>
      match parseInternalKey e.1 with
      | None => []
      | Some p =>
          if bool_decide (skip = Some (user_key p)) then scan seq skip es
          else if seq <? sequence p then scan seq None es
          else match type p with
               | kDeletion => scan seq (Some (user_key p)) es
               | kValue => (user_key p, e.2) :: scan seq (Some (user_key p)) es
               end
      end
  end.

(** No entry of [es] has a user key below [key]. *)
Definition from_key (key : bytes) (es : list entry) : Prop :=
  Forall (fun e : entry => forall p, parseInternalKey e.1 = Some p -> bytes_ltb (user_key p) key = false) es.

Lemma sorted_from_key e p es :
  sorted_run (e :: es) -> parseInternalKey e.1 = Some p -> from_key (user_key p) es.
Proof.
  intros (_ & Hlt & _)%sorted_run_cons Hp. unfold from_key. rewrite Forall_elem in Hlt |- *. intros x Hx q Hq.
  specialize (Hlt x Hx). apply (entry_lt_parsed e x p q) in Hlt; [|done..]. by apply parsed_ltb_user in Hlt.
Qed.

Lemma mvcc_get_skip e es k seq : candidate k seq e = None -> mvcc_get (e :: es) k seq = mvcc_get es k seq.
Proof. intros Hc. unfold mvcc_get. by rewrite mvcc_newest_cons, Hc. Qed.

Lemma mvcc_get_head e p es seq :
  sorted_run (e :: es) -> parseInternalKey e.1 = Some p -> sequence p <= seq ->
  mvcc_get (e :: es) (user_key p) seq = result_of (type p) e.2.
Proof.
  intros (_ & Hlt & [_ Hv])%sorted_run_cons Hp Hseq. unfold mvcc_get. rewrite mvcc_newest_cons.
  rewrite (mvcc_newest_after e p) by (done || (unfold parsed_ltb; simpl; rewrite bytes_compare_refl; pose proof (ValueType_value_range (type p)); lia)).
  unfold bytes_eqb. by rewrite bool_decide_true.
Qed.

Lemma candidate_hidden e p k seq : parseInternalKey e.1 = Some p -> seq < sequence p -> candidate k seq e = None.
Proof.
  intros Hp Hs. destruct (candidate k seq e) eqn:E; [|done]. apply candidate_Some in E as (q & Hq & _ & ? & _). simplify_eq. lia.
Qed.

Lemma mvcc_get_from key es k seq : from_key key es -> bytes_ltb k key = true -> mvcc_get es k seq = LookupAbsent.
Proof.
  intros Hf Hk. apply mvcc_get_none. eapply Forall_impl; [|exact Hf]. simpl. intros e He.
  destruct (candidate k seq e) eqn:E; [|done]. apply candidate_Some in E as (q & Hq & <- & _). by rewrite He in Hk.
Qed.

Lemma scan_spec seq es : forall skip, sorted_run es -> (forall s, skip = Some s -> from_key s es) ->
  forall k v, (k, v) ∈ scan seq skip es <-> mvcc_get es k seq = LookupValue v /\ skip <> Some k.
Proof.
  induction es as [|e es IH]; intros skip Hs Hf k v; simpl.
  { split; [set_solver|]. by intros [? _]. }
  destruct (proj1 (sorted_run_cons _ _) Hs) as ([p Hp] & _ & Hs'). rewrite Hp.
  pose proof (sorted_from_key e p es Hs Hp) as Hfk. case_bool_decide as Hsk.
  - subst skip. rewrite IH by (done || naive_solver). destruct (decide (user_key p = k)) as [->|Hne]; [naive_solver|].
    by rewrite (mvcc_get_skip e) by (by apply candidate_above with p).
  - assert (skip = Some k -> mvcc_get es k seq = LookupAbsent) as Habs.
    { intros ->. apply (mvcc_get_from (user_key p)); [done|]. specialize (Hf k eq_refl). apply Forall_cons_iff in Hf as [Hf _].
      specialize (Hf p Hp). destruct (bytes_ltb k (user_key p)) eqn:E; [done|]. destruct Hsk. f_equal. by apply bytes_ltb_total. }
    destruct (Z.ltb_spec seq (sequence p)).
    + rewrite IH by done. rewrite (mvcc_get_skip e) by (by apply candidate_hidden with p). split; [|by intros [? _]].
      intros [Hg _]. split; [done|]. intros Hk. rewrite (Habs Hk) in Hg. done.
    + destruct (decide (user_key p = k)) as [<-|Hne].
      * rewrite (mvcc_get_head e p) by done. destruct (type p); simpl.
        -- rewrite IH by (done || naive_solver). naive_solver.
        -- rewrite elem_of_cons, IH by (done || naive_solver). naive_solver.
      * rewrite (mvcc_get_skip e) by (by apply candidate_above with p).
        assert ((k, v) ∈ scan seq (Some (user_key p)) es <-> mvcc_get es k seq = LookupValue v) as Hscan.
        { rewrite IH by (done || naive_solver). naive_solver. }
        assert (mvcc_get es k seq = LookupValue v -> skip <> Some k) as Hns by (intros Hg Hk; by rewrite (Habs Hk) in Hg). clear -Hscan Hns Hne.
        destruct (type p); [|rewrite elem_of_cons]; naive_solver.
Qed.

Lemma scan_sorted seq es : forall skip, sorted_run es -> (forall s, skip = Some s -> from_key s es) ->
  StronglySorted (fun a b : bytes * bytes => bytes_ltb a.1 b.1 = true) (scan seq skip es).
Proof.
  induction es as [|e es IH]; intros skip Hs Hf; simpl; [constructor|].
  destruct (proj1 (sorted_run_cons _ _) Hs) as ([p Hp] & _ & Hs'). rewrite Hp.
  pose proof (sorted_from_key e p es Hs Hp) as Hfk. case_bool_decide; [subst; apply IH; [done|naive_solver]|].
  destruct (seq <? sequence p); [by apply IH|]. destruct (type p); [apply IH; [done|naive_solver]|].
  constructor; [apply IH; [done|naive_solver]|]. rewrite Forall_elem. intros [k v] Hkv. simpl.
  apply scan_spec in Hkv as [Hg Hne]; [|done|naive_solver]. destruct (bytes_ltb (user_key p) k) eqn:E; [done|].
  destruct (bytes_ltb k (user_key p)) eqn:E'; [by rewrite (mvcc_get_from (user_key p)) in Hg|].
  destruct Hne. f_equal. by apply bytes_ltb_total.
Qed.

(** Seeking to [target] cuts off exactly the user keys below it. *)
Lemma mvcc_get_seek target es k seq :
  sorted_run es -> 0 <= seq <= kMaxSequenceNumber ->
  mvcc_get (seek_spec (encodeInternalKey target seq kValue) es) k seq =
  if bytes_ltb k target then LookupAbsent else mvcc_get es k seq.
Proof.
  intros Hs Hseq. unfold seek_spec. induction es as [|e es IH]; simpl; [by case_match|].
  destruct (proj1 (sorted_run_cons _ _) Hs) as ([p Hp] & _ & Hs'). specialize (IH Hs').
  rewrite (less_lookup_key e p) by done. destruct (parsed_ltb p (mkParsed target seq kValue)) eqn:E.
  - rewrite IH. destruct (bytes_ltb k target) eqn:Ek; [done|]. symmetry. apply mvcc_get_skip.
    destruct (decide (k = target)) as [->|Hne]; [by apply candidate_before with p|]. apply candidate_above with p; [done|].
    intros <-. apply parsed_ltb_user in E. simpl in E. destruct Hne. by apply bytes_ltb_total.
  - destruct (bytes_ltb k target) eqn:Ek; [|done]. apply mvcc_get_from with target; [|done].
    assert (bytes_ltb (user_key p) target = false) as Hge.
    { unfold parsed_ltb in E. simpl in E. destruct (bytes_compare_spec (user_key p) target) as [Hlt| -> |Hgt]; try done;
        by auto using bytes_ltb_irrefl, bytes_ltb_asym. }
    constructor; [intros q Hq; by simplify_eq|]. eapply Forall_impl; [|exact (sorted_from_key e p es Hs Hp)].
    simpl. intros x Hx q Hq. specialize (Hx q Hq). destruct (bytes_ltb (user_key q) target) eqn:Eq; [|done].
    destruct (decide (user_key q = user_key p)) as [Heq|]; [by rewrite Heq in Eq; congruence|].
    destruct (bytes_ltb (user_key p) (user_key q)) eqn:Epq; [|by destruct (bytes_ltb_total (user_key q) (user_key p))].
    by rewrite (bytes_ltb_trans _ _ _ Epq Eq) in Hge.
Qed.

(** ** The iterator over any input that meets the contract *)

Section refinement.
Context {I : Type} `{IteratorSpec I}.
Implicit Types d : DBIterator I.

(** [d] shows the pairs [kvs]: its input stands at the entry of the first one,
    and what follows is the scan of what the input has left. *)
Record di_shows d (es : list entry) (seq : Z) (kvs : list (bytes * bytes)) : Prop := {
  ds_seq : visible_sequence_ d = seq;
  ds_ok : di_status_ d = success;
  ds_at : exists rest, it_at (input_ d) es rest /\
    match kvs with
    | [] => di_valid_ d = false
    | kv :: kvs => di_valid_ d = true /\ exists e rest' p, rest = e :: rest' /\ parseInternalKey e.1 = Some p /\
        kv = (user_key p, e.2) /\ kvs = scan seq (Some (user_key p)) rest'
    end;
}.

Definition skip_of (skipping : bool) d : option bytes := if skipping then Some (skip_key_ d) else None.

Lemma skipping_eqb (skipping : bool) d k : skipping && bytes_eqb k (skip_key_ d) = bool_decide (skip_of skipping d = Some k).
Proof.
  unfold bytes_eqb, skip_of. destruct skipping; simpl; [|done]. apply bool_decide_ext. split; congruence.
Qed.

(** Where a move of the iterator ends: showing the visible keys from there on,
    or in an error of its input. *)
Definition di_moves (benign : Prop) d es seq kvs : Prop :=
  (di_shows d es seq kvs /\ (benign -> it_benign (input_ d))) \/
  (ok (di_status d) = false /\ di_valid d = false /\ ~ benign).

Lemma di_failed (benign : Prop) d es seq kvs :
  di_status_ d = success -> ok (it_status (input_ d)) = false -> ~ benign -> di_moves benign d es seq kvs.
Proof. intros Hok Hbad Hn. right. unfold di_status, di_valid. rewrite Hok, Hbad. simpl. by rewrite andb_false_r. Qed.

Lemma findNext_loop_spec fuel : forall d es rest skipping,
  it_at (input_ d) es rest -> di_status_ d = success -> di_valid_ d = false -> (length rest < fuel)%nat ->
  exists d', findNext_loop fuel d skipping = Some d' /\
    di_moves (it_benign (input_ d)) d' es (visible_sequence_ d) (scan (visible_sequence_ d) (skip_of skipping d) rest).
Proof.
  induction fuel as [|fuel IH]; intros d es rest skipping Hat Hok Hv Hf; [lia|].
  destruct rest as [|[k v] rest]; cbn [findNext_loop].
  { rewrite (at_end _ _ Hat). eexists. split; [done|]. left. split; [|done]. split; [done|done|]. by exists []. }
  destruct (at_entry _ _ _ _ _ Hat) as (-> & Hk & _). destruct (at_run _ _ _ Hat) as [_ Hvalid].
  apply Forall_cons_iff in Hvalid as [[p Hp] _]. simpl in Hp. unfold parseCurrent. rewrite Hk. cbn [mbind option_bind].
  rewrite Hp. cbn [mbind option_bind scan fst snd]. rewrite Hp, skipping_eqb.
  destruct (spec_next _ _ _ _ Hat) as (i' & Hn & Hm).
  assert (forall d1 sk, input_ d1 = input_ d -> visible_sequence_ d1 = visible_sequence_ d -> di_status_ d1 = success -> di_valid_ d1 = false ->
    exists d', (input ← it_next (input_ d1); if negb (ok (it_status input)) then Some (with_input d1 input)
                else findNext_loop fuel (with_input d1 input) sk) = Some d' /\
      di_moves (it_benign (input_ d)) d' es (visible_sequence_ d) (scan (visible_sequence_ d) (skip_of sk d1) rest)) as Hadv.
  { intros d1 sk Hin Hs1 Hok1 Hv1. rewrite Hin, Hn. cbn [mbind option_bind]. destruct Hm as [[Hat' Hb]|[Hbad Hnb]].
    - rewrite (at_ok _ _ _ Hat'). simpl (negb _). cbn iota. rewrite <- Hs1.
      destruct (IH (with_input d1 i') es rest sk Hat' Hok1 Hv1) as (d' & Hd' & Hmv); [simpl in Hf; lia|].
      exists d'. split; [done|]. destruct Hmv as [[? ?]|(? & ? & ?)]; [left|right]; tauto.
    - rewrite Hbad. eexists. split; [done|]. by apply di_failed. }
  case_bool_decide as Hsk.
  { destruct skipping; [|done]. by apply Hadv. }
  assert (exists d1, (if skipping then with_skip d [] else d) = d1 /\ input_ d1 = input_ d /\ visible_sequence_ d1 = visible_sequence_ d /\
    di_status_ d1 = success /\ di_valid_ d1 = false) as (d1 & -> & Hin & Hs1 & Hok1 & Hv1) by (destruct skipping; by eexists).
  rewrite Hs1. destruct (visible_sequence_ d <? sequence p); [by apply (Hadv d1 false)|].
  destruct (type p); [by apply (Hadv (with_skip d1 (user_key p)) true)|]. eexists. split; [done|]. left.
  cbn [with_valid input_ di_valid_]. rewrite Hin. split; [|done]. split; [done|done|].
  exists ((k, v) :: rest). cbn [with_valid input_ di_valid_]. rewrite Hin. split; [done|]. split; [done|]. by exists (k, v), rest, p.
Qed.

Lemma findNextUserEntry_spec fuel d (i : I) es rest skipping :
  moves it_at it_benign i (input_ d) es rest -> di_status_ d = success -> (length rest < fuel)%nat ->
  exists d', findNextUserEntry fuel d skipping = Some d' /\
    di_moves (it_benign i) d' es (visible_sequence_ d) (scan (visible_sequence_ d) (skip_of skipping d) rest).
Proof.
  intros Hm Hok Hf. unfold findNextUserEntry. cbn [with_valid input_]. destruct Hm as [[Hat Hb]|[Hbad Hn]].
  - rewrite (at_ok _ _ _ Hat). simpl (negb _). cbn iota.
    destruct (findNext_loop_spec fuel (with_valid d false) es rest skipping) as (d' & Hd' & Hmv); [done..|].
    exists d'. split; [done|]. destruct Hmv as [[? ?]|(? & ? & ?)]; [left|right]; tauto.
  - rewrite Hbad. eexists. split; [done|]. by apply di_failed.
Qed.

Lemma at_length i es rest : it_at i es rest -> (length rest <= length es)%nat.
Proof. intros Hat. destruct (at_suffix _ _ _ Hat) as [before ->]. rewrite length_app. lia. Qed.

Lemma seek_spec_length target es : (length (seek_spec target es) <= length es)%nat.
Proof.
  unfold seek_spec. rewrite <- (takewhile_dropwhile (fun e : entry => InternalKeyLess e.1 target) es) at 2. rewrite length_app. lia.
Qed.

Lemma di_seekToFirst_spec fuel d es :
  it_on (input_ d) es -> di_status_ d = success -> (length es < fuel)%nat ->
  exists d', di_seekToFirst fuel d = Some d' /\
    di_moves (it_benign (input_ d)) d' es (visible_sequence_ d) (scan (visible_sequence_ d) None es).
Proof.
  intros Hon Hok Hf. unfold di_seekToFirst. rewrite Hok. simpl (negb _). cbn iota. cbn [with_valid with_skip input_].
  destruct (spec_seekToFirst _ _ Hon) as (i & -> & Hm). cbn [mbind option_bind].
  by apply (findNextUserEntry_spec fuel (with_input (with_skip (with_valid d false) []) i) (input_ d) es es false).
Qed.

Lemma di_seek_spec fuel d es target :
  it_on (input_ d) es -> di_status_ d = success -> (length es < fuel)%nat ->
  0 <= visible_sequence_ d <= kMaxSequenceNumber -> len target + 8 <= kUint32Max ->
  exists d', di_seek fuel d target = Some d' /\ di_moves (it_benign (input_ d)) d' es (visible_sequence_ d)
    (scan (visible_sequence_ d) None (seek_spec (encodeInternalKey target (visible_sequence_ d) kValue) es)).
Proof.
  intros Hon Hok Hf Hseq Hlen. unfold di_seek. rewrite Hok. simpl (negb _). cbn iota. cbn [with_valid with_skip input_ visible_sequence_].
  destruct (spec_seek _ _ (encodeInternalKey target (visible_sequence_ d) kValue) Hon) as (i & -> & Hm).
  { rewrite parse_encode by done. by eexists. }
  { rewrite encodeInternalKey_eq by done. llia. }
  cbn [mbind option_bind]. pose proof (seek_spec_length (encodeInternalKey target (visible_sequence_ d) kValue) es).
  apply (findNextUserEntry_spec fuel (with_input (with_skip (with_valid d false) []) i) (input_ d) es _ false); [done|done|lia].
Qed.

Lemma di_shows_valid d es seq kvs : di_shows d es seq kvs -> di_valid d = negb (bool_decide (kvs = [])) /\ di_status d = success.
Proof.
  intros [_ Hok (rest & Hat & Hm)]. unfold di_valid, di_status. rewrite Hok, (at_ok _ _ _ Hat). split; [|done].
  destruct kvs as [|kv kvs]; [by rewrite Hm|]. destruct Hm as (-> & e & rest' & p & -> & _). by rewrite (at_valid _ _ _ Hat).
Qed.

Lemma di_shows_next fuel d es seq k v kvs :
  di_shows d es seq ((k, v) :: kvs) -> (length es < fuel)%nat ->
  di_key d = Some k /\ di_value d = Some v /\
  exists d', di_next fuel d = Some d' /\ di_moves (it_benign (input_ d)) d' es seq kvs.
Proof.
  intros Hd Hf. destruct (di_shows_valid _ _ _ _ Hd) as [Hv _]. simpl in Hv.
  destruct Hd as [<- Hok (rest & Hat & _ & [k' v'] & rest' & p & -> & Hp & Heq & ->)]. simpl in Hp, Heq. simplify_eq.
  unfold di_key, di_value, di_next. rewrite Hv. cbn [assert_that mbind option_bind].
  destruct (at_entry _ _ _ _ _ Hat) as (_ & -> & ->). cbn [mbind option_bind]. rewrite Hp. cbn [mbind option_bind].
  split_and!; [done|done|]. cbn [with_valid with_skip input_]. pose proof (at_length _ _ _ Hat) as Hl. simpl in Hl.
  destruct (spec_next _ _ _ _ Hat) as (i & -> & Hm). cbn [mbind option_bind].
  apply (findNextUserEntry_spec fuel (with_input (with_valid (with_skip d (user_key p)) false) i) (input_ d) es rest' true); [done|done|lia].
Qed.

Lemma di_drain_spec fuel : forall (benign : Prop) d es seq kvs,
  di_moves benign d es seq kvs -> (length es + length kvs < fuel)%nat ->
  exists res, di_drain fuel d = Some res /\ delivers benign kvs res.
Proof.
  induction fuel as [|fuel IH]; intros benign d es seq kvs Hm Hf; [lia|]. cbn [di_drain]. destruct Hm as [[Hd Hb]|(Hbad & -> & Hn)].
  2:{ eexists. split; [done|]. right. split_and!; [apply prefix_nil|done|done]. }
  destruct (di_shows_valid _ _ _ _ Hd) as [-> Hst]. destruct kvs as [|[k v] kvs]; simpl (negb _); cbn iota.
  { rewrite Hst. eexists. split; [done|by left]. }
  destruct (di_shows_next (S fuel) d es seq k v kvs Hd) as (-> & -> & d' & -> & Hd'); [lia|]. cbn [mbind option_bind].
  destruct (IH _ d' es seq kvs Hd') as ([got s] & -> & Hg); [simpl in Hf; lia|]. cbn [mbind option_bind].
  eexists. split; [done|]. destruct Hg as [[= -> ->]|(? & ? & ?)]; [by left|right]. split_and!; [by apply prefix_cons|done|tauto].
Qed.
End refinement.

Lemma scan_length seq es : forall skip, (length (scan seq skip es) <= length es)%nat.
Proof.
  induction es as [|e es IH]; intros skip; simpl; [lia|]. destruct (parseInternalKey e.1) as [p|]; simpl; [|lia].
  case_bool_decide; [eauto with lia|]. destruct (seq <? sequence p); [eauto with lia|].
  destruct (type p); simpl; [eauto with lia|]. specialize (IH (Some (user_key p))). lia.
Qed.

Definition keys_increase (kvs : list (bytes * bytes)) : Prop :=
  StronglySorted (fun a b : bytes * bytes => bytes_ltb a.1 b.1 = true) kvs.

(** Scans from the start and from a target. *)
Lemma db_iterator_scans {I} `{IteratorSpec I} (input : I) es seq target fuel :
  it_on input es -> 0 <= seq <= kMaxSequenceNumber -> len target + 8 <= kUint32Max -> (2 * length es < fuel)%nat ->
  exists d d1 d2 res1 res2 all from,
    newDBIterator input seq = Some d /\
    di_seekToFirst fuel d = Some d1 /\ di_drain fuel d1 = Some res1 /\ delivers (it_benign input) all res1 /\
    di_seek fuel d target = Some d2 /\ di_drain fuel d2 = Some res2 /\ delivers (it_benign input) from res2 /\
    keys_increase all /\ (forall k v, (k, v) ∈ all <-> mvcc_get es k seq = LookupValue v) /\
    keys_increase from /\
    (forall k v, (k, v) ∈ from <-> bytes_ltb k target = false /\ mvcc_get es k seq = LookupValue v).
Proof.
  intros Hon Hseq Hlen Hfuel. pose proof (on_run _ _ Hon) as Hs. unfold newDBIterator.
  destruct (Z.leb_spec seq kMaxSequenceNumber); [|lia]. cbn [assert_that mbind option_bind].
  set (d := mkDBIterator input seq [] success false).
  destruct (di_seekToFirst_spec fuel d es) as (d1 & Hf1 & Hd1); [done|done|lia|]. simpl in Hd1.
  destruct (di_seek_spec fuel d es target) as (d2 & Hf2 & Hd2); [done|done|lia|done|done|]. simpl in Hd2.
  set (es2 := seek_spec (encodeInternalKey target seq kValue) es) in *.
  assert (sorted_run es2) as Hs2.
  { unfold es2, seek_spec. rewrite <- (takewhile_dropwhile (fun e : entry => InternalKeyLess e.1 (encodeInternalKey target seq kValue)) es) in Hs.
    by apply sorted_run_suffix in Hs. }
  pose proof (scan_length seq es None). pose proof (scan_length seq es2 None).
  pose proof (seek_spec_length (encodeInternalKey target seq kValue) es) as Hl2. fold es2 in Hl2.
  destruct (di_drain_spec fuel _ d1 es seq _ Hd1) as (res1 & Hr1 & Hres1); [lia|].
  destruct (di_drain_spec fuel _ d2 es seq _ Hd2) as (res2 & Hr2 & Hres2); [lia|].
  exists d, d1, d2, res1, res2, (scan seq None es), (scan seq None es2). split_and!; try done.
  - by apply scan_sorted.
  - intros k v. rewrite scan_spec by done. naive_solver.
  - by apply scan_sorted.
  - intros k v. rewrite scan_spec by done. unfold es2. rewrite mvcc_get_seek by done. destruct (bytes_ltb k target); naive_solver.
Qed.

(** C23. The database iterator over any input stream shows exactly the user keys
    visible at its sequence number: iterating from the first position yields, in
    strictly increasing order, precisely the pairs (k, v) such that a point read
    of k at that sequence returns v, and iterating from a seek to a target
    yields precisely those with k not below the target.  If a read of the input
    fails, an initial part of them is followed by an error status, never by a
    clean end.  Deleted and newer versions never appear, no assertion fails and
    every call returns. *)
Theorem db_iterator_scan {I} `{IteratorSpec I} (input : I) es seq target :
  it_on input es -> 0 <= seq <= kMaxSequenceNumber -> len target + 8 <= kUint32Max ->
  let fuel := S (2 * length es) in
  exists d d1 d2 res1 res2 all from,
    newDBIterator input seq = Some d /\
    di_seekToFirst fuel d = Some d1 /\ di_drain fuel d1 = Some res1 /\ delivers (it_benign input) all res1 /\
    di_seek fuel d target = Some d2 /\ di_drain fuel d2 = Some res2 /\ delivers (it_benign input) from res2 /\
    keys_increase all /\ (forall k v, (k, v) ∈ all <-> mvcc_get es k seq = LookupValue v) /\
    keys_increase from /\
    (forall k v, (k, v) ∈ from <-> bytes_ltb k target = false /\ mvcc_get es k seq = LookupValue v).
Proof. intros ? ? ? fuel. apply db_iterator_scans; (done || unfold fuel; lia). Qed.

Lemma db_iterator_scan_witness :
  exists d d1 d2 res1 res2 all from,
    newDBIterator (mkRunIterator sample_run []) 6 = Some d /\
    di_seekToFirst 7 d = Some d1 /\ di_drain 7 d1 = Some res1 /\ delivers (it_benign (mkRunIterator sample_run [])) all res1 /\
    di_seek 7 d [x62] = Some d2 /\ di_drain 7 d2 = Some res2 /\ delivers (it_benign (mkRunIterator sample_run [])) from res2 /\
    keys_increase all /\ (forall k v, (k, v) ∈ all <-> mvcc_get sample_run k 6 = LookupValue v) /\
    keys_increase from /\
    (forall k v, (k, v) ∈ from <-> bytes_ltb k [x62] = false /\ mvcc_get sample_run k 6 = LookupValue v).
Proof.
  apply (db_iterator_scan (mkRunIterator sample_run []) sample_run 6 [x62]).
  - split; [reflexivity|exact sample_run_sorted].
  - unfold kMaxSequenceNumber. lia.
  - by vm_compute.
Defined.
