(* ===== verification/Filename.v ===== *)
(** File names inside the database directory (src/db/filename.cc): numbered WAL
    and SSTable names, and recognising them when the directory is scanned. *)
From S2P Require Import Prelude.

(** [std::filesystem::path] on POSIX: a string; [operator/] adds a separator
    unless the left side is empty or ends in one, and [filename] is what
    follows the last separator. *)
Notation chars := (list Ascii.ascii).
Definition slash : Ascii.ascii := Ascii.ascii_of_nat 47.
Notation to_chars := String.list_ascii_of_string.
Notation of_chars := String.string_of_list_ascii.

Definition path_append (directory : string) (name : chars) : string :=
  of_chars (match list.last (to_chars directory) with
            | None => name
            | Some c => if bool_decide (c = slash) then to_chars directory ++ name
                        else to_chars directory ++ slash :: name
            end).
Definition path_filename (path : string) : chars :=
  rev (takewhile (fun c => negb (bool_decide (c = slash))) (rev (to_chars path))).

(** [enum class NumberedFileType]. *)
Inductive NumberedFileType := kWal | kSSTable | kSSTableTemporary.

#[global] Instance NumberedFileType_eq_dec : EqDecision NumberedFileType.
Proof. solve_decision. Defined.

Definition zero_char : Ascii.ascii := digit_char 0.

Definition numberedName (number : Z) (suffix : chars) : chars :=
  let digits := decimal number in
  let digits := if len digits <? 6 then replicate (6 - length digits) zero_char ++ digits else digits in
  digits ++ suffix.

Definition wal_suffix : chars := to_chars ".log".
Definition sstable_suffix : chars := to_chars ".sst".
Definition temporary_suffix : chars := to_chars ".sst.tmp".

Definition lockFileName (db_directory : string) : string := path_append db_directory (to_chars "LOCK").
Definition manifestFileName (db_directory : string) : string := path_append db_directory (to_chars "MANIFEST").
Definition manifestTemporaryFileName (db_directory : string) : string := path_append db_directory (to_chars "MANIFEST.tmp").
Definition walFileName (db_directory : string) (number : Z) : string :=
  path_append db_directory (numberedName number wal_suffix).
Definition sstableFileName (db_directory : string) (number : Z) : string :=
  path_append db_directory (numberedName number sstable_suffix).
Definition sstableTemporaryFileName (db_directory : string) (number : Z) : string :=
  path_append db_directory (numberedName number temporary_suffix).

(** The characters of the loop of [parseNumber], with its overflow test. *)
Definition char_value (c : Ascii.ascii) : Z := Z.of_N (Ascii.N_of_ascii c).
Fixpoint parseNumber_loop (text : chars) (parsed : Z) : option Z :=
  match text with
  | [] => Some parsed
  | character :: text =>
      if (char_value character <? 48) || (57 <? char_value character) then None
      else
        let digit := char_value character - 48 in
        if (kUint64Max - digit) / 10 <? parsed then None
        else parseNumber_loop text (wrap64 (parsed * 10 + digit))
  end.

Definition parseNumber (text : chars) : option Z :=
  match text with
  | [] => None
  | _ => parsed ← parseNumber_loop text 0; if parsed =? 0 then None else Some parsed
  end.

(** The test of one suffix, and what precedes it. *)
Definition strip_suffix (name suffix : chars) : option chars :=
  if len name <=? len suffix then None
  else if bool_decide (drop (length name - length suffix) name = suffix)
       then Some (take (length name - length suffix) name) else None.

Fixpoint parse_suffixes (name : chars) (suffixes : list (chars * NumberedFileType)) : option (Z * NumberedFileType) :=
  match suffixes with
  | [] => None
  | (suffix, type) :: suffixes =>
      match strip_suffix name suffix with
      | None => parse_suffixes name suffixes
      | Some text => number ← parseNumber text; Some (number, type)
      end
  end.

Definition name_suffixes : list (chars * NumberedFileType) :=
  [(temporary_suffix, kSSTableTemporary); (sstable_suffix, kSSTable); (wal_suffix, kWal)].

Definition parseNumberedFileName (path : string) : option (Z * NumberedFileType) :=
  parse_suffixes (path_filename path) name_suffixes.

(** The name of a numbered file of each type. *)
Definition suffix_of_type (t : NumberedFileType) : chars :=
  match t with kWal => wal_suffix | kSSTable => sstable_suffix | kSSTableTemporary => temporary_suffix end.
Definition numberedFileName (db_directory : string) (t : NumberedFileType) (number : Z) : string :=
  match t with
  | kWal => walFileName db_directory number
  | kSSTable => sstableFileName db_directory number
  | kSSTableTemporary => sstableTemporaryFileName db_directory number
  end.

(** ** Paths *)

Lemma of_to_chars s : of_chars (to_chars s) = s.
Proof. apply String.string_of_list_ascii_of_string. Qed.
Lemma to_of_chars l : to_chars (of_chars l) = l.
Proof. apply String.list_ascii_of_string_of_list_ascii. Qed.

Lemma takewhile_app_all {A} (p : A -> bool) l k : Forall (fun x => p x = true) l -> takewhile p (l ++ k) = l ++ takewhile p k.
Proof. induction 1 as [|x l Hx _ IH]; simpl; [done|]. by rewrite Hx, IH. Qed.

Lemma path_append_split directory name :
  exists before, to_chars (path_append directory name) = before ++ name /\ (before = [] \/ exists before', before = before' ++ [slash]).
Proof.
  unfold path_append. rewrite to_of_chars. destruct (list.last (to_chars directory)) as [c|] eqn:E; [|by exists []; auto].
  case_bool_decide as Hc.
  - subst c. apply last_Some in E as [l' E]. exists (to_chars directory). rewrite E. eauto.
  - exists (to_chars directory ++ [slash]). rewrite <- app_assoc. eauto.
Qed.

Lemma filename_append directory name :
  slash ∉ name -> path_filename (path_append directory name) = name.
Proof.
  intros Hn. unfold path_filename. destruct (path_append_split directory name) as (before & -> & Hb).
  rewrite rev_app_distr, takewhile_app_all.
  - assert (takewhile (fun c => negb (bool_decide (c = slash))) (rev before) = []) as ->.
    { destruct Hb as [-> | [before' ->]]; [done|]. by rewrite rev_app_distr. }
    by rewrite app_nil_r, rev_involutive.
  - rewrite Forall_elem. intros c Hc. apply negb_true_iff, bool_decide_eq_false. intros ->. apply Hn.
    apply list_elem_of_In, in_rev, list_elem_of_In in Hc. done.
Qed.

(** ** Decimal numbers *)

Definition is_digit (d : Z) : Prop := 0 <= d <= 9.
Definition digits_value (parsed : Z) (ds : list Z) : Z := foldl (fun v d => v * 10 + d) parsed ds.

Lemma digits_value_app v ds ds' : digits_value v (ds ++ ds') = digits_value (digits_value v ds) ds'.
Proof. apply foldl_app. Qed.

Lemma decimal_loop_digits fuel : forall n acc, 0 <= n < 2 ^ Z.of_nat fuel ->
  exists ds, decimal_loop fuel n acc = map digit_char ds ++ acc /\ Forall is_digit ds /\ digits_value 0 ds = n /\
    (fuel <> 0%nat -> ds <> []).
Proof.
  induction fuel as [|fuel IH]; intros n acc Hn.
  { exists []. split_and!; [done|constructor| |done]. simpl in Hn. unfold digits_value. simpl. lia. }
  cbn [decimal_loop]. pose proof (Z.mod_pos_bound n 10 ltac:(lia)) as Hm. pose proof (Z.div_mod n 10 ltac:(lia)) as Hdm.
  destruct (Z.ltb_spec n 10).
  - exists [n mod 10]. split_and!; [done|by repeat constructor; unfold is_digit; lia| |done]. unfold digits_value. simpl. lia.
  - destruct (IH (n / 10) (digit_char (n mod 10) :: acc)) as (ds & -> & Hds & Hv & _).
    { rewrite Nat2Z.inj_succ, Z.pow_succ_r in Hn by lia. split; [apply Z.div_pos; lia|]. apply Z.div_lt_upper_bound; lia. }
    exists (ds ++ [n mod 10]). rewrite map_app, <- app_assoc. split_and!; [done| | |by destruct ds].
    + apply Forall_app. split; [done|]. repeat constructor; unfold is_digit; lia.
    + rewrite digits_value_app, Hv. unfold digits_value. simpl. lia.
Qed.

Lemma decimal_digits n : 0 <= n ->
  exists ds, decimal n = map digit_char ds /\ Forall is_digit ds /\ digits_value 0 ds = n /\ ds <> [].
Proof.
  intros Hn. unfold decimal. destruct (decimal_loop_digits (S (Z.to_nat (Z.log2 n))) n []) as (ds & -> & ? & ? & ?).
  - split; [done|]. rewrite Nat2Z.inj_succ, Z2Nat.id by apply Z.log2_nonneg.
    destruct (Z.eq_dec n 0) as [->|]; [done|]. apply Z.log2_spec. lia.
  - exists ds. rewrite app_nil_r. auto.
Qed.

Lemma char_value_digit d : is_digit d -> char_value (digit_char d) = 48 + d.
Proof.
  unfold is_digit, char_value, digit_char. intros. rewrite Ascii.N_ascii_embedding by lia. lia.
Qed.

Lemma digits_value_le v ds : Forall is_digit ds -> 0 <= v -> v <= digits_value v ds.
Proof.
  intros Hd. revert v. induction Hd as [|d ds Hd _ IH]; intros v Hv; unfold digits_value in *; simpl; [lia|].
  unfold is_digit in Hd. specialize (IH (v * 10 + d)). lia.
Qed.

Lemma parseNumber_digits ds : forall v, Forall is_digit ds -> 0 <= v -> digits_value v ds <= kUint64Max ->
  parseNumber_loop (map digit_char ds) v = Some (digits_value v ds).
Proof.
  induction ds as [|d ds IH]; intros v Hds Hv Hle; [done|]. apply Forall_cons_iff in Hds as [Hd Hds].
  cbn [map parseNumber_loop]. rewrite char_value_digit by done. unfold is_digit in Hd.
  destruct (Z.ltb_spec (48 + d) 48), (Z.ltb_spec 57 (48 + d)); try lia. cbn [orb]. replace (48 + d - 48) with d by lia.
  change (digits_value v (d :: ds)) with (digits_value (v * 10 + d) ds) in *.
  pose proof (digits_value_le (v * 10 + d) ds Hds ltac:(lia)). destruct (Z.ltb_spec ((kUint64Max - d) / 10) v) as [Hlt|].
  - pose proof (Z.mul_succ_div_gt (kUint64Max - d) 10 ltac:(lia)). lia.
  - rewrite wrap64_small by (unfold kUint64Max in *; lia). apply IH; [done|lia|done].
Qed.

(** Padding adds leading zeros. *)
Lemma numberedName_digits n suffix : 0 <= n ->
  exists ds, numberedName n suffix = map digit_char ds ++ suffix /\ Forall is_digit ds /\ digits_value 0 ds = n /\ ds <> [].
Proof.
  intros Hn. destruct (decimal_digits n Hn) as (ds & Hds & Hall & Hv & Hne). unfold numberedName. rewrite Hds.
  destruct (len (map digit_char ds) <? 6); [|by exists ds].
  exists (replicate (6 - length (map digit_char ds)) 0 ++ ds). split_and!.
  - rewrite map_app. f_equal. f_equal. generalize (6 - length (map digit_char ds))%nat as k.
    induction k as [|k IH]; [done|]. simpl. by rewrite <- IH.
  - apply Forall_app. split; [|done]. apply Forall_replicate. unfold is_digit. lia.
  - rewrite digits_value_app. replace (digits_value 0 (replicate _ 0)) with 0; [done|].
    generalize (6 - length (map digit_char ds))%nat as k. induction k as [|k IH]; [done|]. exact IH.
  - by destruct ds; [|intros [_ ?]%app_eq_nil].
Qed.

Lemma parseNumber_name ds : Forall is_digit ds -> ds <> [] -> 0 < digits_value 0 ds <= kUint64Max ->
  parseNumber (map digit_char ds) = Some (digits_value 0 ds).
Proof.
  intros Hds Hne Hv. unfold parseNumber. rewrite parseNumber_digits by (done || lia). cbn [mbind option_bind].
  destruct (Z.eqb_spec (digits_value 0 ds) 0); [lia|]. by destruct ds.
Qed.

(** ** Recognising names *)

Lemma strip_suffix_app text suffix : text <> [] -> strip_suffix (text ++ suffix) suffix = Some text.
Proof.
  intros Ht. unfold strip_suffix. rewrite len_app. destruct (Z.leb_spec (len text + len suffix) (len suffix)) as [Hle|_].
  { destruct text; [done|]. llia. }
  replace (length (text ++ suffix) - length suffix)%nat with (length text) by (rewrite length_app; lia).
  by rewrite drop_app_length, take_app_length, bool_decide_true.
Qed.

(** A suffix that ends differently does not match. *)
Lemma strip_suffix_other text l suffix c d :
  c <> d -> strip_suffix (text ++ l ++ [c]) (suffix ++ [d]) = None.
Proof.
  intros Hcd. unfold strip_suffix. destruct (_ <=? _); [done|]. rewrite bool_decide_false; [done|].
  intros Hd. apply Hcd. apply (f_equal list.last) in Hd. rewrite last_snoc in Hd.
  assert (list.last (take (length (text ++ l ++ [c]) - length (suffix ++ [d])) (text ++ l ++ [c]) ++
            drop (length (text ++ l ++ [c]) - length (suffix ++ [d])) (text ++ l ++ [c])) = Some d) as Hl.
  { rewrite last_app. by rewrite Hd. }
  rewrite take_drop, app_assoc, last_snoc in Hl. by simplify_eq.
Qed.

Lemma parse_suffixes_name text t :
  text <> [] -> parse_suffixes (text ++ suffix_of_type t) name_suffixes = (number ← parseNumber text; Some (number, t)).
Proof.
  intros Ht. pose proof (strip_suffix_app text (suffix_of_type t) Ht) as Hs.
  pose proof (fun l c s d => strip_suffix_other text l s c d) as Ho.
  destruct t; unfold name_suffixes; cbn [parse_suffixes suffix_of_type] in *.
  - assert (strip_suffix (text ++ wal_suffix) temporary_suffix = None) as -> by (by apply (Ho (to_chars ".lo") (Ascii.ascii_of_nat 103) (to_chars ".sst.tm") (Ascii.ascii_of_nat 112))).
    assert (strip_suffix (text ++ wal_suffix) sstable_suffix = None) as -> by (by apply (Ho (to_chars ".lo") (Ascii.ascii_of_nat 103) (to_chars ".ss") (Ascii.ascii_of_nat 116))).
    by rewrite Hs.
  - assert (strip_suffix (text ++ sstable_suffix) temporary_suffix = None) as -> by (by apply (Ho (to_chars ".ss") (Ascii.ascii_of_nat 116) (to_chars ".sst.tm") (Ascii.ascii_of_nat 112))).
    by rewrite Hs.
  - by rewrite Hs.
Qed.

Lemma digits_no_slash ds : Forall is_digit ds -> slash ∉ map digit_char ds.
Proof.
  intros Hds Hin. apply list_elem_of_In, in_map_iff in Hin as (d & Hd & Hin). apply list_elem_of_In in Hin.
  rewrite Forall_elem in Hds. specialize (Hds _ Hin). apply (f_equal char_value) in Hd. rewrite char_value_digit in Hd by done.
  change (char_value slash) with 47 in Hd. unfold is_digit in Hds. lia.
Qed.

Lemma suffix_no_slash t : slash ∉ suffix_of_type t.
Proof. destruct t; apply (bool_decide_unpack _); by vm_compute. Qed.

Lemma numberedFileName_eq directory t n :
  numberedFileName directory t n = path_append directory (numberedName n (suffix_of_type t)).
Proof. by destruct t. Qed.

Lemma numberedFileName_parse directory t n :
  0 < n <= kUint64Max -> parseNumberedFileName (numberedFileName directory t n) = Some (n, t).
Proof.
  intros Hn. unfold parseNumberedFileName. rewrite numberedFileName_eq.
  destruct (numberedName_digits n (suffix_of_type t) ltac:(lia)) as (ds & Hname & Hds & Hv & Hne). rewrite Hname.
  rewrite filename_append.
  - rewrite parse_suffixes_name by (by destruct ds). rewrite parseNumber_name, Hv by (done || lia). done.
  - rewrite elem_of_app. intros [Hin|Hin]; [by apply (digits_no_slash ds)|by apply (suffix_no_slash t)].
Qed.

Lemma numberedFileName_inj directory t n t' n' :
  0 < n <= kUint64Max -> 0 < n' <= kUint64Max ->
  numberedFileName directory t n = numberedFileName directory t' n' -> t = t' /\ n = n'.
Proof.
  intros Hn Hn' Heq. apply (f_equal parseNumberedFileName) in Heq. rewrite !numberedFileName_parse in Heq by done. by simplify_eq.
Qed.

Lemma parseNumber_loop_range text : forall v n,
  0 <= v <= kUint64Max -> parseNumber_loop text v = Some n -> 0 <= n <= kUint64Max.
Proof.
  induction text as [|c text IH]; intros v n Hv; simpl; [by intros; simplify_eq|].
  destruct (_ || _); [done|]. destruct (_ <? v); [done|]. apply IH.
  pose proof (wrap64_range (v * 10 + (char_value c - 48))). unfold kUint64Max in *. lia.
Qed.

Lemma parse_range path n t : parseNumberedFileName path = Some (n, t) -> 0 < n <= kUint64Max.
Proof.
  unfold parseNumberedFileName. generalize name_suffixes as sufs. induction sufs as [|[suffix t'] sufs IH]; [done|]. cbn [parse_suffixes].
  destruct (strip_suffix _ suffix) as [text|]; [|done]. intros (n' & Hn & [= -> ->])%bind_Some.
  unfold parseNumber in Hn. destruct text as [|c text]; [done|]. apply bind_Some in Hn as (m & Hm & Hn).
  apply parseNumber_loop_range in Hm; [|unfold kUint64Max; lia]. destruct (Z.eqb_spec m 0); simplify_eq. lia.
Qed.

(** C30. Numbered file names round trip: in every directory, the name the engine
    gives file [n] of a type parses back to exactly that number and type for
    every positive 64-bit number, so different files never share a name; and
    conversely the parser only ever returns positive 64-bit numbers. *)
Theorem filename_roundtrip directory t n :
  0 < n <= kUint64Max ->
  parseNumberedFileName (numberedFileName directory t n) = Some (n, t) /\
  (forall t' n', 0 < n' <= kUint64Max -> numberedFileName directory t' n' = numberedFileName directory t n -> t' = t /\ n' = n) /\
  (forall path n' t', parseNumberedFileName path = Some (n', t') -> 0 < n' <= kUint64Max).
Proof.
  intros Hn. split_and!; [by apply numberedFileName_parse| |by apply parse_range].
  intros t' n' Hn' Heq. by apply (numberedFileName_inj directory) in Heq.
Qed.

Lemma filename_roundtrip_witness :
  parseNumberedFileName (numberedFileName "/db" kSSTable 1234567) = Some (1234567, kSSTable) /\
  (forall t' n', 0 < n' <= kUint64Max -> numberedFileName "/db" t' n' = numberedFileName "/db" kSSTable 1234567 ->
     t' = kSSTable /\ n' = 1234567) /\
  (forall path n' t', parseNumberedFileName path = Some (n', t') -> 0 < n' <= kUint64Max).
Proof. apply filename_roundtrip. unfold kUint64Max. lia. Defined.

(** The scan recognises names the engine never produces: every directory has
    a path, different from the name of WAL 1, that parses as WAL 1. *)
Theorem filename_not_canonical directory :
  exists path, path <> walFileName directory 1 /\ parseNumberedFileName path = Some (1, kWal).
Proof.
  exists (path_append directory (to_chars "1.log")). split.
  - intros Heq. apply (f_equal path_filename) in Heq. unfold walFileName in Heq.
    rewrite !filename_append in Heq by (apply (bool_decide_unpack _); by vm_compute). by vm_compute in Heq.
  - unfold parseNumberedFileName. rewrite filename_append by (apply (bool_decide_unpack _); by vm_compute). by vm_compute.
Qed.
