(* ===== verification/Level.v ===== *)
(** Levels and index ranges (src/db/level.h). *)
From S2P Require Import Prelude.

Definition kLevel0 : nat := 0.
Definition kLevel1 : nat := 1.
Definition kLevel2 : nat := 2.
Definition kNumLevels : nat := 3.

Record IndexRange := mkIndexRange { ir_begin : nat; ir_end : nat }.

#[global] Instance IndexRange_eq_dec : EqDecision IndexRange.
Proof. solve_decision. Defined.

(** [std::array<std::vector<T>, kNumLevels>]. *)
Record Levels (A : Type) := mkLevels { level0 : list A; level1 : list A; level2 : list A }.
Arguments mkLevels {A}.
Arguments level0 {A}.
Arguments level1 {A}.
Arguments level2 {A}.

Definition no_levels {A} : Levels A := mkLevels [] [] [].

(** [levels[level]]: outside the array there is no value. *)
Definition level_at {A} (ls : Levels A) (level : nat) : option (list A) :=
  match level with
  | 0%nat => Some (level0 ls)
  | 1%nat => Some (level1 ls)
  | 2%nat => Some (level2 ls)
  | _ => None
  end.

Definition set_level {A} (ls : Levels A) (level : nat) (tables : list A) : Levels A :=
  match level with
  | 0%nat => mkLevels tables (level1 ls) (level2 ls)
  | 1%nat => mkLevels (level0 ls) tables (level2 ls)
  | 2%nat => mkLevels (level0 ls) (level1 ls) tables
  | _ => ls
  end.

Definition all_tables {A} (ls : Levels A) : list A := level0 ls ++ level1 ls ++ level2 ls.
Definition map_levels {A B} (f : A -> B) (ls : Levels A) : Levels B :=
  mkLevels (map f (level0 ls)) (map f (level1 ls)) (map f (level2 ls)).

(** [vector::erase] of an index range followed by [vector::insert] there. *)
Definition splice {A} (l : list A) (r : IndexRange) (k : list A) : list A :=
  take (ir_begin r) l ++ k ++ drop (ir_end r) l.
Definition slice {A} (l : list A) (r : IndexRange) : list A := drop (ir_begin r) (take (ir_end r) l).

Lemma slice_split {A} (l : list A) r :
  (ir_begin r <= ir_end r)%nat -> l = take (ir_begin r) l ++ slice l r ++ drop (ir_end r) l.
Proof.
  intros Hr. unfold slice. rewrite <- (take_drop (ir_end r) l) at 1. rewrite app_assoc. f_equal.
  rewrite <- (take_drop (ir_begin r) (take (ir_end r) l)) at 1. f_equal. rewrite take_take. f_equal. lia.
Qed.

Lemma level_set_eq {A} (ls : Levels A) i old tables :
  level_at ls i = Some old -> level_at (set_level ls i tables) i = Some tables.
Proof. destruct i as [|[|[|]]]; done. Qed.

Lemma level_set_ne {A} (ls : Levels A) i j tables : i <> j -> level_at (set_level ls i tables) j = level_at ls j.
Proof. destruct i as [|[|[|]]], j as [|[|[|]]]; done. Qed.

(** Replacing a range of one level and the overlapping range of the next by
    [outputs] in the next level. *)
Definition compact_levels {A} (ls : Levels A) (i : nat) (inputs overlaps : IndexRange) (outputs : list A) : Levels A :=
  set_level (set_level ls i (splice (default [] (level_at ls i)) inputs []))
    (i + 1) (splice (default [] (level_at ls (i + 1))) overlaps outputs).
