(* ===== verification/Manifest.v ===== *)
(** The manifest (src/db/manifest.cc): the set of live tables and the replay
    bound, validated, encoded with a checksum and replaced atomically. *)
From S2P Require Import Prelude Posix Status Coding InternalKey Level.

Record TableMeta := mkTableMeta {
  tm_number : Z;
  tm_file_size : Z;
  tm_smallest : bytes;
  tm_largest : bytes;
}.

Record ManifestState := mkManifestState {
  flushed_sequence : Z;
  oldest_wal_number : Z;
  mf_levels : Levels TableMeta;
}.

Definition kManifestMagic : bytes := of_ascii "LSMMAN01".
Definition kManifestMagicSize : Z := 8.
Definition kManifestVersion : Z := 3.
Definition kLevel1ManifestVersion : Z := 2.
Definition kLevel0ManifestVersion : Z := 1.
Definition kManifestChecksumSize : Z := 4.
Definition kInternalKeyTagSize : Z := 8.
Definition kMinimumTableEncodingSize : Z := 8 * 2 + 4 * 2 + kInternalKeyTagSize * 2.
Definition kMaximumManifestSize : Z := 64 * 1024 * 1024.
Definition kManifestHeaderSize : Z := kManifestMagicSize + 4 + 8 * 2 + 4.

(** ** Validation: [inl message] is a non-null return *)

Definition validateTable (table : TableMeta) (numbers : gset Z) : string + gset Z :=
  if (tm_number table =? 0) || (tm_file_size table =? 0) then inl "manifest contains invalid table metadata"
  else if bool_decide (tm_number table ∈ numbers) then inl "manifest contains a duplicate table number"
  else if (kUint32Max <? len (tm_smallest table)) || (kUint32Max <? len (tm_largest table))
  then inl "manifest table key is too large"
  else
    match parseInternalKey (tm_smallest table), parseInternalKey (tm_largest table) with
    | Some _, Some _ =>
        if InternalKeyLess (tm_largest table) (tm_smallest table)
        then inl "manifest contains an invalid table key range"
        else inr ({[tm_number table]} ∪ numbers)
    | _, _ => inl "manifest contains an invalid table key range"
    end.

Fixpoint validate_level0 (tables : list TableMeta) (numbers : gset Z) : string + gset Z :=
  match tables with
  | [] => inr numbers
  | table :: tables =>
      match validateTable table numbers with
      | inl message => inl message
      | inr numbers => validate_level0 tables numbers
      end
  end.

(** The loop over a level above 0; [previous] is [previous_largest] once
    [has_previous]. *)
Fixpoint validate_sorted (tables : list TableMeta) (numbers : gset Z) (previous : option bytes) :
    option (string + gset Z) :=
  match tables with
  | [] => Some (inr numbers)
  | table :: tables =>
      match validateTable table numbers with
      | inl message => Some (inl message)
      | inr numbers =>
          smallest ← parseInternalKey (tm_smallest table);
          largest ← parseInternalKey (tm_largest table);
          if match previous with
             | Some previous_largest => negb (bytes_ltb previous_largest (user_key smallest))
             | None => false
             end
          then Some (inl "manifest non-L0 table ranges overlap or are out of order")
          else validate_sorted tables numbers (Some (user_key largest))
      end
  end.

(** [None] is a failed assertion, [Some None] a valid state. *)
Definition validateState (state : ManifestState) : option (option string) :=
  if kMaxSequenceNumber <? flushed_sequence state then Some (Some "manifest flushed sequence is out of range")
  else if oldest_wal_number state =? 0 then Some (Some "manifest WAL number must be positive")
  else if (kUint32Max <? len (level0 (mf_levels state))) || (kUint32Max <? len (level1 (mf_levels state))) ||
          (kUint32Max <? len (level2 (mf_levels state)))
  then Some (Some "manifest has too many tables in a level")
  else
    match validate_level0 (level0 (mf_levels state)) ∅ with
    | inl message => Some (Some message)
    | inr numbers =>
        r ← validate_sorted (level1 (mf_levels state)) numbers None;
        match r with
        | inl message => Some (Some message)
        | inr numbers =>
            r ← validate_sorted (level2 (mf_levels state)) numbers None;
            match r with
            | inl message => Some (Some message)
            | inr _ => Some None
            end
        end
    end.

(** ** Encoding *)

Definition append_table (encoded : bytes) (table : TableMeta) : bytes :=
  let encoded := putFixed64 encoded (tm_number table) in
  let encoded := putFixed64 encoded (tm_file_size table) in
  let encoded := putFixed32 encoded (wrap32 (len (tm_smallest table))) ++ tm_smallest table in
  putFixed32 encoded (wrap32 (len (tm_largest table))) ++ tm_largest table.

Fixpoint append_tables (tables : list TableMeta) (encoded : bytes) : result bytes :=
  match tables with
  | [] => Ok encoded
  | table :: tables =>
      let encoded := append_table encoded table in
      if kMaximumManifestSize - kManifestChecksumSize <? len encoded
      then Err (invalidArgument "manifest exceeds 64 MiB")
      else append_tables tables encoded
  end.

Definition appendTables (tables : list TableMeta) (encoded : bytes) : result bytes :=
  append_tables tables (putFixed32 encoded (wrap32 (len tables))).

Definition encodeManifest (state : ManifestState) : option (result bytes) :=
  error ← validateState state;
  match error with
  | Some message => Some (Err (invalidArgument message))
  | None =>
      let encoded := putFixed32 kManifestMagic kManifestVersion in
      let encoded := putFixed64 encoded (flushed_sequence state) in
      let encoded := putFixed64 encoded (oldest_wal_number state) in
      Some (encoded ← appendTables (level0 (mf_levels state)) encoded;
            encoded ← appendTables (level1 (mf_levels state)) encoded;
            encoded ← appendTables (level2 (mf_levels state)) encoded;
            Ok (putFixed32 encoded (crc32c encoded)))
  end.

(** ** Decoding *)

Definition takeString (input : bytes) : option (bytes * bytes) :=
  '(size, input) ← getFixed32 input;
  if len input <? size then None else Some (take (Z.to_nat size) input, remove_prefix size input).

Fixpoint take_tables (count : nat) (input : bytes) : option (list TableMeta * bytes) :=
  match count with
  | O => Some ([], input)
  | S count =>
      '(number, input) ← getFixed64 input;
      '(size, input) ← getFixed64 input;
      '(smallest, input) ← takeString input;
      '(largest, input) ← takeString input;
      '(tables, input) ← take_tables count input;
      Some (mkTableMeta number size smallest largest :: tables, input)
  end.

Definition takeTables (input : bytes) : option (list TableMeta * bytes) :=
  '(table_count, input) ← getFixed32 input;
  if len input / kMinimumTableEncodingSize <? table_count then None
  else take_tables (Z.to_nat table_count) input.

Definition decode_levels (version : Z) (cursor : bytes) : result (Levels TableMeta * bytes) :=
  match takeTables cursor with
  | None => Err (corruption "invalid manifest L0 table list")
  | Some (tables0, cursor) =>
      match (if kLevel1ManifestVersion <=? version then takeTables cursor else Some ([], cursor)) with
      | None => Err (corruption "invalid manifest L1 table list")
      | Some (tables1, cursor) =>
          match (if kManifestVersion <=? version then takeTables cursor else Some ([], cursor)) with
          | None => Err (corruption "invalid manifest L2 table list")
          | Some (tables2, cursor) => Ok (mkLevels tables0 tables1 tables2, cursor)
          end
      end
  end.

Definition decodeManifest (input : bytes) : option (result ManifestState) :=
  if len input <? kManifestHeaderSize + kManifestChecksumSize
  then Some (Err (corruption "manifest is shorter than its header"))
  else if kMaximumManifestSize <? len input then Some (Err (corruption "manifest exceeds 64 MiB"))
  else
    let contents := substr input 0 (len input - kManifestChecksumSize) in
    let stored_checksum := decodeFixed32 (remove_prefix (len input - kManifestChecksumSize) input) in
    if negb (crc32c contents =? stored_checksum) then Some (Err (corruption "manifest checksum mismatch"))
    else if negb (bool_decide (substr contents 0 kManifestMagicSize = kManifestMagic))
    then Some (Err (corruption "invalid manifest magic"))
    else
      let cursor := remove_prefix kManifestMagicSize contents in
      match getFixed32 cursor with
      | None => Some (Err (corruption "unsupported manifest version"))
      | Some (version, cursor) =>
          if (version <? kLevel0ManifestVersion) || (kManifestVersion <? version)
          then Some (Err (corruption "unsupported manifest version"))
          else
            match ('(flushed, cursor) ← getFixed64 cursor; '(oldest, cursor) ← getFixed64 cursor;
                   Some (flushed, oldest, cursor)) with
            | None => Some (Err (corruption "truncated manifest header"))
            | Some (flushed, oldest, cursor) =>
                match decode_levels version cursor with
                | Err status => Some (Err status)
                | Ok (levels, cursor) =>
                    if negb (bool_decide (cursor = [])) then Some (Err (corruption "manifest has trailing bytes"))
                    else
                      let decoded := mkManifestState flushed oldest levels in
                      error ← validateState decoded;
                      match error with
                      | Some message => Some (Err (corruption message))
                      | None => Some (Ok decoded)
                      end
                end
            end
      end.

(** ** Files *)

(** How the environment answers one [writeManifest]: the errnos of failing
    calls, the [::write] and [::fdatasync] scripts, and whether the clean-up
    [::unlink] takes effect. *)
Record ManifestEnv := mkManifestEnv {
  me_open : option Z;
  me_writes : list write_event;
  me_syncs : list Z;
  me_close : option Z;
  me_rename : option Z;
  me_unlink : bool;
}.

(** And one [readManifest]: [open], [fstat] and its file type, [read], [close]. *)
Record ManifestReadEnv := mkManifestReadEnv {
  mr_open : option Z;
  mr_stat : option Z;
  mr_regular : bool;
  mr_reads : list read_event;
  mr_close : option Z;
}.

Section files.
Context (strerror : Z -> string).

Definition mf_ioError (operation path : string) (errno : Z) : Status :=
  ioError (operation +:+ " manifest " +:+ path +:+ ": " +:+ strerror errno).

Fixpoint mf_writeAll (evs : list write_event) (file : LogFile) (data : bytes) (path : string) : LogFile * Status :=
  if bool_decide (data = []) then (file, success)
  else
    match evs with
    | [] => (mkLogFile (contents file ++ data) (durable file), success)
    | WriteCount n :: evs =>
        if 0 <? n
        then mf_writeAll evs (mkLogFile (contents file ++ take (Z.to_nat n) data) (durable file)) (drop (Z.to_nat n) data) path
        else (file, mf_ioError "write" path EIO)
    | WriteErrno errno :: evs =>
        if errno =? EINTR then mf_writeAll evs file data path else (file, mf_ioError "write" path errno)
    end.

Fixpoint syncFile (errnos : list Z) (file : LogFile) (path : string) : LogFile * Status :=
  match errnos with
  | [] => (mkLogFile (contents file) (length (contents file)), success)
  | errno :: errnos => if errno =? EINTR then syncFile errnos file path else (file, mf_ioError "sync" path errno)
  end.

Fixpoint readFile_loop (evs : list read_event) (file : bytes) (path : string) (got : bytes) : result bytes :=
  if len file <=? len got then Ok got
  else
    match evs with
    | [] => Ok (got ++ drop (length got) file)
    | ReadCount n :: evs =>
        let chunk := take (Z.to_nat (Z.max 1 n)) (drop (length got) file) in
        if bool_decide (chunk = []) then Err (corruption "manifest was truncated")
        else readFile_loop evs file path (got ++ chunk)
    | ReadErrno errno :: evs =>
        if errno =? EINTR then readFile_loop evs file path got else Err (mf_ioError "read" path errno)
    end.

Definition readFile (env : ManifestReadEnv) (path : string) (fs : Directory) : result bytes :=
  match fs !! path, mr_open env with
  | None, errno => Err (mf_ioError "open" path (default ENOENT errno))
  | Some _, Some errno => Err (mf_ioError "open" path errno)
  | Some file, None =>
      match mr_stat env with
      | Some errno => Err (mf_ioError "stat" path errno)
      | None =>
          if negb (mr_regular env) || (kMaximumManifestSize <? len (contents file))
          then Err (corruption "manifest is not a valid regular file")
          else
            bytes ← readFile_loop (mr_reads env) (contents file) path [];
            match mr_close env with
            | Some errno => Err (mf_ioError "close" path errno)
            | None => Ok bytes
            end
      end
  end.

Definition readManifest (env : ManifestReadEnv) (path : string) (fs : Directory) : option (result ManifestState) :=
  match readFile env path fs with
  | Err status => Some (Err status)
  | Ok encoded => decodeManifest encoded
  end.

Definition writeManifest (env : ManifestEnv) (path temporary_path : string) (state : ManifestState) (fs : Directory) :
    option (Directory * Status) :=
  r ← encodeManifest state;
  match r with
  | Err status => Some (fs, status)
  | Ok encoded =>
      match me_open env with
      | Some errno => Some (fs, mf_ioError "open" temporary_path errno)
      | None =>
          let '(file, status) := mf_writeAll (me_writes env) (mkLogFile [] 0) encoded temporary_path in
          let '(file, status) := if ok status then syncFile (me_syncs env) file temporary_path else (file, status) in
          let status := match me_close env with
                        | Some errno => if ok status then mf_ioError "close" temporary_path errno else status
                        | None => status
                        end in
          let fs := <[temporary_path := file]> fs in
          if negb (ok status) then Some (fs_unlink (me_unlink env) temporary_path fs, status)
          else
            match me_rename env with
            | Some errno =>
                Some (fs_unlink (me_unlink env) temporary_path fs, mf_ioError "rename" temporary_path errno)
            | None => Some (fs_rename temporary_path path fs, success)
            end
      end
  end.

End files.

(** ** Validity *)

Lemma validateTable_ok table numbers numbers' :
  validateTable table numbers = inr numbers' ->
  tm_number table ∉ numbers /\ numbers' = {[tm_number table]} ∪ numbers /\
  tm_number table <> 0 /\ tm_file_size table <> 0 /\
  len (tm_smallest table) <= kUint32Max /\ len (tm_largest table) <= kUint32Max /\
  is_Some (parseInternalKey (tm_smallest table)) /\ is_Some (parseInternalKey (tm_largest table)) /\
  InternalKeyLess (tm_largest table) (tm_smallest table) = false.
Proof.
  unfold validateTable. destruct (Z.eqb_spec (tm_number table) 0), (Z.eqb_spec (tm_file_size table) 0); simpl; try done.
  case_bool_decide; [done|]. destruct (Z.ltb_spec kUint32Max (len (tm_smallest table))), (Z.ltb_spec kUint32Max (len (tm_largest table)));
    simpl; try done.
  destruct (parseInternalKey (tm_smallest table)) eqn:E1, (parseInternalKey (tm_largest table)) eqn:E2; try done.
  destruct (InternalKeyLess _ _) eqn:E3; intros; simplify_eq. split_and!; eauto.
Qed.

Lemma validate_level0_ok tables : forall numbers numbers',
  validate_level0 tables numbers = inr numbers' -> Forall (fun t => exists n n', validateTable t n = inr n') tables.
Proof.
  induction tables as [|t tables IH]; intros numbers numbers'; simpl; [constructor|].
  destruct (validateTable t numbers) eqn:E; [done|]. intros. constructor; eauto.
Qed.

Lemma validate_sorted_ok tables : forall numbers numbers' previous,
  validate_sorted tables numbers previous = Some (inr numbers') -> Forall (fun t => exists n n', validateTable t n = inr n') tables.
Proof.
  induction tables as [|t tables IH]; intros numbers numbers' previous; cbn [validate_sorted]; [constructor|].
  destruct (validateTable t numbers) eqn:E; [done|]. intros (? & ? & Hb)%bind_Some. apply bind_Some in Hb as (? & ? & Hb).
  destruct (match previous with Some _ => _ | None => _ end); [done|]. constructor; eauto.
Qed.

(** Validation never fails its assertion. *)
Lemma validate_sorted_total tables : forall numbers previous, is_Some (validate_sorted tables numbers previous).
Proof.
  induction tables as [|t tables IH]; intros numbers previous; cbn [validate_sorted]; [by eexists|].
  destruct (validateTable t numbers) eqn:E; [by eexists|]. apply validateTable_ok in E as (_ & _ & _ & _ & _ & _ & [p ->] & [q ->] & _).
  cbn [mbind option_bind]. destruct (match previous with Some _ => _ | None => _ end); [by eexists|]. apply IH.
Qed.

Lemma validateState_total state : is_Some (validateState state).
Proof.
  unfold validateState. destruct (kMaxSequenceNumber <? _); [by eexists|]. destruct (_ =? 0); [by eexists|].
  destruct (_ || _); [by eexists|]. destruct (validate_level0 _ _) as [m|g]; [by eexists|].
  destruct (validate_sorted_total (level1 (mf_levels state)) g None) as [[m|n1] ->]; cbn [mbind option_bind]; [by eexists|].
  destruct (validate_sorted_total (level2 (mf_levels state)) n1 None) as [[m|n2] ->]; cbn [mbind option_bind]; by eexists.
Qed.

(** ** The encoded form *)

Definition meta_bytes (t : TableMeta) : bytes :=
  le_bytes 8 (tm_number t) ++ le_bytes 8 (tm_file_size t) ++ le_bytes 4 (len (tm_smallest t)) ++ tm_smallest t ++
  le_bytes 4 (len (tm_largest t)) ++ tm_largest t.
Definition level_bytes (ts : list TableMeta) : bytes := le_bytes 4 (len ts) ++ concat (map meta_bytes ts).
Definition header_of (version : Z) (st : ManifestState) : bytes :=
  kManifestMagic ++ le_bytes 4 version ++ le_bytes 8 (flushed_sequence st) ++ le_bytes 8 (oldest_wal_number st).
Definition manifest_contents (st : ManifestState) : bytes :=
  header_of kManifestVersion st ++ level_bytes (level0 (mf_levels st)) ++ level_bytes (level1 (mf_levels st)) ++
  level_bytes (level2 (mf_levels st)).
Definition sealed (c : bytes) : bytes := c ++ le_bytes 4 (crc32c c).

(** What the C++ types guarantee of the fields. *)
Definition meta_wf (t : TableMeta) : Prop := 0 <= tm_number t <= kUint64Max /\ 0 <= tm_file_size t <= kUint64Max.
Definition meta_small (t : TableMeta) : Prop := len (tm_smallest t) <= kUint32Max /\ len (tm_largest t) <= kUint32Max.
Definition manifest_wf (st : ManifestState) : Prop :=
  0 <= flushed_sequence st <= kUint64Max /\ 0 <= oldest_wal_number st <= kUint64Max /\
  Forall meta_wf (all_tables (mf_levels st)).

Lemma append_table_eq encoded t : meta_small t -> append_table encoded t = encoded ++ meta_bytes t.
Proof.
  intros [H1 H2]. unfold append_table, meta_bytes. rewrite !putFixed64_le_bytes, !putFixed32_le_bytes.
  rewrite !wrap32_small by (unfold kUint32Max in *; llia). by rewrite <- !app_assoc.
Qed.

Lemma len_meta_bytes t : len (meta_bytes t) = 24 + len (tm_smallest t) + len (tm_largest t).
Proof. unfold meta_bytes. llia. Qed.

Lemma append_tables_Ok ts : forall encoded r, Forall meta_small ts ->
  append_tables ts encoded = Ok r <->
  r = encoded ++ concat (map meta_bytes ts) /\ (ts = [] \/ len r <= kMaximumManifestSize - kManifestChecksumSize).
Proof.
  induction ts as [|t ts IH]; intros encoded r Hs; cbn [append_tables map concat].
  { rewrite app_nil_r. naive_solver. }
  apply Forall_cons_iff in Hs as [Ht Hs]. rewrite append_table_eq by done.
  destruct (Z.ltb_spec (kMaximumManifestSize - kManifestChecksumSize) (len (encoded ++ meta_bytes t))) as [Hbig|Hfit].
  - split; [done|]. intros [-> [?|Hle]]; [done|]. exfalso. revert Hle Hbig. rewrite !len_app. pose proof (len_nonneg (concat (map meta_bytes ts))). lia.
  - rewrite IH by done. rewrite <- app_assoc. split; intros [-> Hle]; (split; [done|]).
    + right. destruct Hle as [->|]; [|done]. simpl. by rewrite app_nil_r.
    + destruct Hle; [done|auto].
Qed.

Lemma appendTables_Ok ts encoded r : Forall meta_small ts -> len ts <= kUint32Max ->
  appendTables ts encoded = Ok r <->
  r = encoded ++ level_bytes ts /\ (ts = [] \/ len r <= kMaximumManifestSize - kManifestChecksumSize).
Proof.
  intros Hs Hl. unfold appendTables, level_bytes. rewrite putFixed32_le_bytes, wrap32_small by (unfold kUint32Max in *; llia).
  rewrite append_tables_Ok by done. by rewrite <- app_assoc.
Qed.

Lemma valid_tables st : validateState st = Some None ->
  Forall (fun t => exists n n', validateTable t n = inr n') (all_tables (mf_levels st)) /\
  len (level0 (mf_levels st)) <= kUint32Max /\ len (level1 (mf_levels st)) <= kUint32Max /\ len (level2 (mf_levels st)) <= kUint32Max.
Proof.
  unfold validateState. destruct (kMaxSequenceNumber <? _); [done|]. destruct (_ =? 0); [done|].
  destruct (Z.ltb_spec kUint32Max (len (level0 (mf_levels st)))), (Z.ltb_spec kUint32Max (len (level1 (mf_levels st)))),
    (Z.ltb_spec kUint32Max (len (level2 (mf_levels st)))); cbn [orb]; try done.
  destruct (validate_level0 _ _) as [m|n0] eqn:E0; [done|]. intros ([m|n1] & E1 & Hr)%bind_Some; [done|].
  apply bind_Some in Hr as ([m|n2] & E2 & Hr); [done|]. split_and!; try done.
  unfold all_tables. rewrite !Forall_app. split_and!; eauto using validate_level0_ok, validate_sorted_ok.
Qed.

Lemma valid_small st : validateState st = Some None ->
  Forall meta_small (all_tables (mf_levels st)) /\
  Forall (fun t => kTagSize <= len (tm_smallest t) /\ kTagSize <= len (tm_largest t)) (all_tables (mf_levels st)) /\
  len (level0 (mf_levels st)) <= kUint32Max /\ len (level1 (mf_levels st)) <= kUint32Max /\ len (level2 (mf_levels st)) <= kUint32Max.
Proof.
  intros (Hall & Hlens)%valid_tables.
  split_and!; try apply Hlens; (eapply Forall_impl; [|exact Hall]); intros t (n & n' & Ht); apply validateTable_ok in Ht as (_ & _ & _ & _ & ? & ? & [p Hp] & [q Hq] & _).
  - done.
  - eauto using parse_len.
Qed.

Lemma valid_positive st t : validateState st = Some None -> t ∈ all_tables (mf_levels st) -> tm_number t <> 0 /\ tm_file_size t <> 0.
Proof.
  intros (Hall & _)%valid_tables Ht. rewrite Forall_elem in Hall. destruct (Hall t Ht) as (n & n' & Hv).
  by apply validateTable_ok in Hv as (_ & _ & ? & ? & _).
Qed.

Lemma encode_Ok_bytes st b : encodeManifest st = Some (Ok b) -> validateState st = Some None /\ b = sealed (manifest_contents st).
Proof.
  unfold encodeManifest. intros ([message|] & Hv & Hr)%bind_Some; [done|]. split; [done|].
  destruct (valid_small st Hv) as (Hs & _ & Hl0 & Hl1 & Hl2). unfold all_tables in Hs. rewrite !Forall_app in Hs. destruct Hs as (Hs0 & Hs1 & Hs2).
  injection Hr as Hr. apply result_bind_Ok in Hr as (e0 & H0 & Hr). apply result_bind_Ok in Hr as (e1 & H1 & Hr).
  apply result_bind_Ok in Hr as (e2 & H2 & Hr). apply appendTables_Ok in H0 as [-> _], H1 as [-> _], H2 as [-> _]; [|done..].
  apply Ok_inj in Hr. subst b. rewrite putFixed32_le_bytes, !putFixed64_le_bytes, putFixed32_le_bytes.
  unfold sealed, manifest_contents, header_of. by rewrite <- !app_assoc.
Qed.

Lemma encode_fits st : validateState st = Some None -> len (sealed (manifest_contents st)) <= kMaximumManifestSize ->
  encodeManifest st = Some (Ok (sealed (manifest_contents st))).
Proof.
  intros Hv Hlen. unfold encodeManifest. rewrite Hv. cbn [mbind option_bind].
  destruct (valid_small st Hv) as (Hs & _ & Hl0 & Hl1 & Hl2). unfold all_tables in Hs. rewrite !Forall_app in Hs. destruct Hs as (Hs0 & Hs1 & Hs2).
  rewrite !putFixed64_le_bytes, putFixed32_le_bytes. f_equal.
  assert (((kManifestMagic ++ le_bytes 4 kManifestVersion) ++ le_bytes 8 (flushed_sequence st)) ++ le_bytes 8 (oldest_wal_number st) =
    header_of kManifestVersion st) as -> by (unfold header_of; by rewrite <- !app_assoc).
  unfold sealed in Hlen. rewrite len_app, len_le_bytes in Hlen. unfold manifest_contents in *. rewrite !len_app in Hlen.
  assert (forall ts, 0 <= len (level_bytes ts)) as Hnn by (intros; apply len_nonneg). unfold kManifestChecksumSize in *.
  pose proof (Hnn (level0 (mf_levels st))). pose proof (Hnn (level1 (mf_levels st))). pose proof (Hnn (level2 (mf_levels st))).
  rewrite (proj2 (appendTables_Ok (level0 (mf_levels st)) _ (header_of kManifestVersion st ++ level_bytes (level0 (mf_levels st))) Hs0 Hl0))
    by (split; [done|right; unfold kManifestChecksumSize; rewrite len_app; lia]).
  cbn [mbind result_bind].
  rewrite (proj2 (appendTables_Ok (level1 (mf_levels st)) _ ((header_of kManifestVersion st ++ level_bytes (level0 (mf_levels st))) ++ level_bytes (level1 (mf_levels st))) Hs1 Hl1))
    by (split; [done|right; unfold kManifestChecksumSize; rewrite !len_app; lia]).
  cbn [mbind result_bind].
  rewrite (proj2 (appendTables_Ok (level2 (mf_levels st)) _ (((header_of kManifestVersion st ++ level_bytes (level0 (mf_levels st))) ++ level_bytes (level1 (mf_levels st))) ++ level_bytes (level2 (mf_levels st))) Hs2 Hl2))
    by (split; [done|right; unfold kManifestChecksumSize; rewrite !len_app; lia]).
  cbn [mbind result_bind]. unfold sealed. by rewrite putFixed32_le_bytes, <- !app_assoc.
Qed.

(** ** Reading the encoded form *)

Lemma takeString_app s rest : len s <= kUint32Max -> takeString (le_bytes 4 (len s) ++ s ++ rest) = Some (s, rest).
Proof.
  intros Hs. unfold takeString. rewrite getFixed32_app by (pose proof (len_nonneg s); lia). cbn [mbind option_bind].
  destruct (Z.ltb_spec (len (s ++ rest)) (len s)); [llia|]. unfold remove_prefix.
  by rewrite <- length_len, take_app_length, drop_app_length.
Qed.

Lemma takeString_Some input s rest :
  takeString input = Some (s, rest) -> input = le_bytes 4 (len s) ++ s ++ rest /\ len s <= kUint32Max.
Proof.
  unfold takeString. intros ([size input'] & Hg & Hr)%bind_Some. apply getFixed32_Some in Hg as [-> Hsize].
  destruct (Z.ltb_spec (len input') size); [done|]. unfold remove_prefix in Hr. simplify_eq.
  assert (len (take (Z.to_nat size) input') = size) as Hl by llia. rewrite Hl. split; [|lia]. by rewrite take_drop.
Qed.

Lemma take_tables_app ts : forall rest, Forall meta_wf ts -> Forall meta_small ts ->
  take_tables (length ts) (concat (map meta_bytes ts) ++ rest) = Some (ts, rest).
Proof.
  induction ts as [|t ts IH]; intros rest Hw Hs; [done|]. apply Forall_cons_iff in Hw as [[Hn Hf] Hw], Hs as [[Hsm Hla] Hs].
  cbn [length take_tables map concat]. unfold meta_bytes. rewrite <- !app_assoc.
  rewrite getFixed64_app by done. cbn [mbind option_bind]. rewrite getFixed64_app by done. cbn [mbind option_bind].
  rewrite takeString_app by done. cbn [mbind option_bind]. rewrite takeString_app by done. cbn [mbind option_bind].
  rewrite IH by done. cbn [mbind option_bind]. by destruct t.
Qed.

Lemma take_tables_Some n : forall input ts rest, take_tables n input = Some (ts, rest) ->
  input = concat (map meta_bytes ts) ++ rest /\ length ts = n /\ Forall meta_wf ts /\ Forall meta_small ts.
Proof.
  induction n as [|n IH]; intros input ts rest; cbn [take_tables].
  { intros; simplify_eq. split_and!; [done|done|constructor|constructor]. }
  intros ([number i1] & H1 & Hr)%bind_Some. apply bind_Some in Hr as ([size i2] & H2 & Hr).
  apply bind_Some in Hr as ([smallest i3] & H3 & Hr). apply bind_Some in Hr as ([largest i4] & H4 & Hr).
  apply bind_Some in Hr as ([ts' i5] & H5 & Hr). simplify_eq.
  apply getFixed64_Some in H1 as [-> ?], H2 as [-> ?]. apply takeString_Some in H3 as [-> ?], H4 as [-> ?].
  apply IH in H5 as (-> & <- & ? & ?). split_and!; [|done|by constructor|by constructor].
  cbn [map concat]. unfold meta_bytes. simpl tm_number. simpl tm_file_size. simpl tm_smallest. simpl tm_largest. by rewrite <- !app_assoc.
Qed.

Definition keys_tagged (ts : list TableMeta) : Prop :=
  Forall (fun t => kTagSize <= len (tm_smallest t) /\ kTagSize <= len (tm_largest t)) ts.

Lemma tables_min ts : keys_tagged ts -> kMinimumTableEncodingSize * len ts <= len (concat (map meta_bytes ts)).
Proof.
  unfold kMinimumTableEncodingSize, kInternalKeyTagSize. induction 1 as [|t ts [H1 H2] _ IH]; [done|].
  cbn [map concat]. rewrite len_app, len_meta_bytes, len_cons. unfold kTagSize in *. lia.
Qed.

Lemma takeTables_app ts rest : Forall meta_wf ts -> Forall meta_small ts -> keys_tagged ts -> len ts <= kUint32Max ->
  takeTables (level_bytes ts ++ rest) = Some (ts, rest).
Proof.
  intros Hw Hs Hk Hl. unfold takeTables, level_bytes. rewrite <- app_assoc.
  rewrite getFixed32_app by (pose proof (len_nonneg ts); lia). cbn [mbind option_bind].
  destruct (Z.ltb_spec (len (concat (map meta_bytes ts) ++ rest) / kMinimumTableEncodingSize) (len ts)) as [Hlt|_].
  { apply tables_min in Hk. rewrite len_app in Hlt. pose proof (len_nonneg rest). exfalso.
    apply (Z.lt_irrefl (len ts)). eapply Z.le_lt_trans; [|exact Hlt]. apply Z.div_le_lower_bound; [done|lia]. }
  rewrite <- length_len. by apply take_tables_app.
Qed.

Lemma takeTables_Some input ts rest : takeTables input = Some (ts, rest) ->
  input = level_bytes ts ++ rest /\ len ts <= kUint32Max /\ Forall meta_wf ts.
Proof.
  unfold takeTables. intros ([count input'] & Hg & Hr)%bind_Some. apply getFixed32_Some in Hg as [-> Hc].
  destruct (_ <? count); [done|]. apply take_tables_Some in Hr as (-> & Hn & ? & _). unfold level_bytes, len. rewrite Hn.
  rewrite Z2Nat.id by lia. split_and!; [by rewrite <- app_assoc|lia|done].
Qed.

Lemma sealed_parts c : substr (sealed c) 0 (len (sealed c) - kManifestChecksumSize) = c /\
  decodeFixed32 (remove_prefix (len (sealed c) - kManifestChecksumSize) (sealed c)) = crc32c c /\
  len (sealed c) = len c + kManifestChecksumSize.
Proof.
  assert (len (sealed c) = len c + kManifestChecksumSize) as Hl by (unfold sealed, kManifestChecksumSize; llia).
  rewrite Hl. replace (len c + kManifestChecksumSize - kManifestChecksumSize) with (len c) by lia.
  unfold substr, remove_prefix, sealed. rewrite <- length_len, drop_0, take_app_length, drop_app_length.
  split_and!; [done| |done]. rewrite <- (app_nil_r (le_bytes 4 _)), decodeFixed32_app by llia.
  apply le_value_le_bytes4, crc32c_range.
Qed.

Lemma len_header version st : len (header_of version st) = 28.
Proof. unfold header_of. rewrite !len_app, !len_le_bytes. done. Qed.

Lemma header_split version st rest :
  substr (header_of version st ++ rest) 0 kManifestMagicSize = kManifestMagic /\
  remove_prefix kManifestMagicSize (header_of version st ++ rest) =
    le_bytes 4 version ++ le_bytes 8 (flushed_sequence st) ++ le_bytes 8 (oldest_wal_number st) ++ rest.
Proof.
  unfold header_of, substr, remove_prefix. rewrite <- !app_assoc. change (Z.to_nat kManifestMagicSize) with (length kManifestMagic).
  change (Z.to_nat 0) with 0%nat. by rewrite drop_0, take_app_length, drop_app_length.
Qed.

Lemma decode_sealed st : manifest_wf st -> validateState st = Some None -> len (sealed (manifest_contents st)) <= kMaximumManifestSize ->
  decodeManifest (sealed (manifest_contents st)) = Some (Ok st).
Proof.
  intros (Hf & Ho & Hw) Hv Hlen. destruct (valid_small st Hv) as (Hs & Hk & Hl0 & Hl1 & Hl2).
  unfold all_tables in *. rewrite !Forall_app in Hs, Hk, Hw. destruct Hs as (Hs0 & Hs1 & Hs2), Hk as (Hk0 & Hk1 & Hk2), Hw as (Hw0 & Hw1 & Hw2).
  destruct (sealed_parts (manifest_contents st)) as (Hc & Hd & Hl). unfold decodeManifest.
  destruct (Z.ltb_spec (len (sealed (manifest_contents st))) (kManifestHeaderSize + kManifestChecksumSize)) as [Hshort|_].
  { rewrite Hl in Hshort. unfold manifest_contents, level_bytes in Hshort. rewrite !len_app, len_header, !len_le_bytes in Hshort.
    unfold kManifestHeaderSize, kManifestMagicSize in Hshort. len_pose. lia. }
  destruct (Z.ltb_spec kMaximumManifestSize (len (sealed (manifest_contents st)))); [lia|].
  rewrite Hc, Hd, Z.eqb_refl. cbn [negb].
  set (rest := level_bytes (level0 (mf_levels st)) ++ level_bytes (level1 (mf_levels st)) ++ level_bytes (level2 (mf_levels st))).
  change (manifest_contents st) with (header_of kManifestVersion st ++ rest).
  destruct (header_split kManifestVersion st rest) as [Hm Hr]. rewrite Hm, Hr, bool_decide_true by done. cbn [negb].
  rewrite getFixed32_app by (unfold kManifestVersion, kUint32Max; lia). change (_ || _) with false. cbn iota.
  rewrite getFixed64_app by done. cbn [mbind option_bind]. rewrite getFixed64_app by done. cbn [mbind option_bind].
  unfold decode_levels, rest. rewrite takeTables_app by done. change (kLevel1ManifestVersion <=? kManifestVersion) with true.
  change (kManifestVersion <=? kManifestVersion) with true. cbn iota. rewrite takeTables_app by done.
  rewrite <- (app_nil_r (level_bytes (level2 (mf_levels st)))), takeTables_app by done. cbn iota.
  rewrite bool_decide_true by done. cbn [negb].
  assert (mkManifestState (flushed_sequence st) (oldest_wal_number st) (mkLevels (level0 (mf_levels st)) (level1 (mf_levels st)) (level2 (mf_levels st))) = st) as ->
    by (by destruct st as [? ? []]). by rewrite Hv.
Qed.

Lemma sealed_intro input c :
  kManifestChecksumSize <= len input -> c = substr input 0 (len input - kManifestChecksumSize) ->
  crc32c c = decodeFixed32 (remove_prefix (len input - kManifestChecksumSize) input) -> input = sealed c.
Proof.
  unfold kManifestChecksumSize, sealed. intros Hl Hc Hd. rewrite Hd. unfold substr, remove_prefix in *. change (Z.to_nat 0) with 0%nat in Hc.
  rewrite drop_0 in Hc. set (last := drop (Z.to_nat (len input - 4)) input) in *.
  assert (len last = 4) as H4 by (unfold last; llia). rewrite <- (app_nil_r last) at 1. rewrite decodeFixed32_app by done.
  replace 4%nat with (length last) by (unfold len in H4; lia). rewrite le_bytes_le_value. subst c last. by rewrite take_drop.
Qed.

Lemma takeTables_if (read : bool) input ts rest :
  (if read then takeTables input else Some ([], input)) = Some (ts, rest) ->
  Forall meta_wf ts /\ exists part, input = part ++ rest /\ (read = true -> part = level_bytes ts).
Proof.
  destruct read; intros Ht; [|simplify_eq; split; [constructor|by exists []]].
  apply takeTables_Some in Ht as (-> & _ & ?). split; [done|]. by exists (level_bytes ts).
Qed.

Lemma decode_levels_Ok version cursor ls rest : decode_levels version cursor = Ok (ls, rest) ->
  Forall meta_wf (all_tables ls) /\ exists tail, cursor = tail ++ rest /\
    (version = kManifestVersion -> tail = level_bytes (level0 ls) ++ level_bytes (level1 ls) ++ level_bytes (level2 ls)).
Proof.
  unfold decode_levels. destruct (takeTables cursor) as [[t0 c1]|] eqn:E0; [|done].
  destruct (if kLevel1ManifestVersion <=? version then _ else _) as [[t1 c2]|] eqn:E1; [|done].
  destruct (if kManifestVersion <=? version then _ else _) as [[t2 c3]|] eqn:E2; [|done]. intros; simplify_eq.
  apply takeTables_Some in E0 as (-> & _ & ?). apply takeTables_if in E1 as (? & p1 & -> & Hp1), E2 as (? & p2 & -> & Hp2).
  split; [unfold all_tables; rewrite !Forall_app; done|]. exists (level_bytes t0 ++ p1 ++ p2). split; [by rewrite <- !app_assoc|].
  intros ->. by rewrite Hp1, Hp2.
Qed.

Lemma decode_Ok_parts b st : decodeManifest b = Some (Ok st) ->
  len b <= kMaximumManifestSize /\ validateState st = Some None /\ manifest_wf st /\
  exists version tail, b = sealed (header_of version st ++ tail) /\ kLevel0ManifestVersion <= version <= kManifestVersion /\
    (version = kManifestVersion -> header_of version st ++ tail = manifest_contents st).
Proof.
  unfold decodeManifest. destruct (Z.ltb_spec (len b) (kManifestHeaderSize + kManifestChecksumSize)) as [|Hlen]; [done|].
  change (kManifestHeaderSize + kManifestChecksumSize) with 36 in Hlen.
  destruct (Z.ltb_spec kMaximumManifestSize (len b)); [done|]. set (c := substr b 0 (len b - kManifestChecksumSize)).
  destruct (Z.eqb_spec (crc32c c) (decodeFixed32 (remove_prefix (len b - kManifestChecksumSize) b))) as [Hcrc|]; [|done]. cbn [negb].
  assert (b = sealed c) as Hb by (apply sealed_intro; [change kManifestChecksumSize with 4; lia|done|done]).
  case_bool_decide as Hm; [|done]. cbn [negb].
  assert (c = kManifestMagic ++ remove_prefix kManifestMagicSize c) as Hcm.
  { rewrite <- Hm at 1. unfold substr, remove_prefix. change (Z.to_nat 0) with 0%nat. by rewrite drop_0, take_drop. }
  destruct (getFixed32 (remove_prefix kManifestMagicSize c)) as [[version c1]|] eqn:E1; [|done].
  apply getFixed32_Some in E1 as [E1 _]. destruct (Z.ltb_spec version kLevel0ManifestVersion), (Z.ltb_spec kManifestVersion version); try done.
  cbn [orb]. destruct (getFixed64 c1) as [[flushed c2]|] eqn:E2; [|done]. cbn [mbind option_bind].
  destruct (getFixed64 c2) as [[oldest c3]|] eqn:E3; [|done]. cbn [mbind option_bind]. apply getFixed64_Some in E2 as [-> Hf], E3 as [-> Ho].
  destruct (decode_levels version c3) as [[ls c4]|] eqn:E4; [|done]. apply decode_levels_Ok in E4 as (Hw & tail & -> & Htail).
  case_bool_decide as Hend; [|done]. cbn [negb]. intros ([message|] & Hv & [= <-])%bind_Some. subst c4.
  split_and!; [lia|done|done|]. exists version, tail. rewrite Hb at 1. rewrite Hcm, E1, app_nil_r. unfold header_of. cbn [flushed_sequence oldest_wal_number].
  rewrite <- !app_assoc. split_and!; [done|lia..|]. intros ->. unfold manifest_contents, header_of. cbn [mf_levels flushed_sequence oldest_wal_number].
  by rewrite <- !app_assoc, Htail.
Qed.

Lemma version_bytes version st tail :
  substr (sealed (header_of version st ++ tail)) kManifestMagicSize 4 = le_bytes 4 version.
Proof.
  unfold sealed, header_of, substr. rewrite <- !app_assoc. change (Z.to_nat kManifestMagicSize) with (length kManifestMagic).
  rewrite drop_app_length. by rewrite take_app_length' by (by rewrite length_le_bytes).
Qed.

(** C27. Manifest encoding and decoding are inverse: decoding accepts a current
    version manifest exactly when it is the encoding of a state whose fields fit
    their types, and then returns that state.  In particular every state
    accepted by the encoder within the size limit is read back unchanged, and
    nothing else is accepted. *)
Theorem manifest_codec_inverse b st :
  (decodeManifest b = Some (Ok st) /\ substr b kManifestMagicSize 4 = le_bytes 4 kManifestVersion) <->
  (manifest_wf st /\ encodeManifest st = Some (Ok b) /\ len b <= kMaximumManifestSize).
Proof.
  split.
  - intros [Hd Hver]. apply decode_Ok_parts in Hd as (Hl & Hv & Hw & version & tail & -> & Hrange & Hc).
    rewrite version_bytes in Hver. apply (f_equal le_value) in Hver.
    unfold kLevel0ManifestVersion, kManifestVersion, kUint32Max in *.
    rewrite !le_value_le_bytes4 in Hver by (unfold kUint32Max; lia). subst version.
    rewrite Hc in * by done. split_and!; [done|by apply encode_fits|done].
  - intros (Hw & He & Hl). apply encode_Ok_bytes in He as [Hv ->]. split; [by apply decode_sealed|apply version_bytes].
Qed.

(** C28. The manifest's checksum catches local damage: a manifest in which any
    four consecutive bytes of the contents were changed is rejected, whatever
    it says. *)
Theorem manifest_damage_detected p u v s :
  length u = length v -> len u <= 4 -> u <> v ->
  kManifestHeaderSize <= len (p ++ u ++ s) <= kMaximumManifestSize - kManifestChecksumSize ->
  decodeManifest (p ++ v ++ s ++ le_bytes 4 (crc32c (p ++ u ++ s))) = Some (Err (corruption "manifest checksum mismatch")).
Proof.
  intros Hlen H4 Hne Hsize. set (c := p ++ v ++ s).
  assert (p ++ v ++ s ++ le_bytes 4 (crc32c (p ++ u ++ s)) = c ++ le_bytes 4 (crc32c (p ++ u ++ s))) as -> by (unfold c; by rewrite <- !app_assoc).
  assert (len c = len (p ++ u ++ s)) as Hl by (unfold c; len_norm; unfold len; lia).
  unfold decodeManifest. rewrite len_app, len_le_bytes, Hl. change (Z.of_nat 4) with kManifestChecksumSize.
  destruct (Z.ltb_spec (len (p ++ u ++ s) + kManifestChecksumSize) (kManifestHeaderSize + kManifestChecksumSize)); [lia|].
  destruct (Z.ltb_spec kMaximumManifestSize (len (p ++ u ++ s) + kManifestChecksumSize)); [lia|].
  replace (len (p ++ u ++ s) + kManifestChecksumSize - kManifestChecksumSize) with (len c) by lia.
  unfold substr, remove_prefix. change (Z.to_nat 0) with 0%nat. rewrite <- length_len, drop_0, take_app_length, drop_app_length.
  rewrite <- (app_nil_r (le_bytes 4 _)), decodeFixed32_app, le_value_le_bytes4 by (apply len_le_bytes || apply crc32c_range).
  destruct (Z.eqb_spec (crc32c c) (crc32c (p ++ u ++ s))) as [E|_]; [|done]. symmetry in E. by apply crc32c_burst in E.
Qed.

Lemma manifest_damage_detected_witness :
  decodeManifest ([x00] ++ [x01; x02] ++ replicate 40 x00 ++ le_bytes 4 (crc32c ([x00] ++ [x05; x02] ++ replicate 40 x00))) =
    Some (Err (corruption "manifest checksum mismatch")).
Proof. apply (manifest_damage_detected [x00] [x05; x02] [x01; x02] (replicate 40 x00)); by vm_compute. Defined.

(** A valid state with one table whose largest user key is [k]. *)
Definition wide_state (k : bytes) : ManifestState :=
  mkManifestState 1 1 (mkLevels [mkTableMeta 1 1 (encodeInternalKey [] 1 kValue) (encodeInternalKey k 1 kValue)] [] []).

Lemma wide_state_valid k : len k + 8 <= kUint32Max -> validateState (wide_state k) = Some None.
Proof.
  intros Hk. unfold validateState, wide_state. cbn [flushed_sequence oldest_wal_number mf_levels level0 level1 level2].
  assert (0 <= 1 <= kMaxSequenceNumber) as H1 by done. change (kMaxSequenceNumber <? 1) with false. change (1 =? 0) with false.
  rewrite len_cons, !len_nil. change (kUint32Max <? 1 + 0) with false. change (kUint32Max <? 0) with false. cbn [orb].
  cbn [validate_level0]. unfold validateTable. cbn [tm_number tm_file_size tm_smallest tm_largest]. change (1 =? 0) with false. cbn [orb].
  rewrite bool_decide_false by set_solver.
  assert (len (encodeInternalKey [] 1 kValue) = 8) as -> by (rewrite encodeInternalKey_eq by done; llia).
  assert (len (encodeInternalKey k 1 kValue) = len k + 8) as -> by (rewrite encodeInternalKey_eq by done; llia).
  change (kUint32Max <? 8) with false. destruct (Z.ltb_spec kUint32Max (len k + 8)); [lia|]. cbn [orb].
  rewrite !parse_encode by done. rewrite (InternalKeyLess_parsed _ _ (mkParsed k 1 kValue) (mkParsed [] 1 kValue)) by (by apply parse_encode).
  unfold parsed_ltb. cbn [user_key sequence type]. by destruct k.
Qed.

Lemma long_key n : 0 <= n -> exists k : bytes, len k = n.
Proof. intros. exists (replicate (Z.to_nat n) x00). rewrite len_replicate. lia. Qed.

(** C29. The size limit is checked only after each table, so the encoder accepts
    states whose encoding exceeds the 64 MiB that decoding allows: such a
    manifest is written successfully and then rejected as corrupt. *)
Theorem manifest_oversize_accepted :
  exists st b, manifest_wf st /\ encodeManifest st = Some (Ok b) /\
    decodeManifest b = Some (Err (corruption "manifest exceeds 64 MiB")).
Proof.
  destruct (long_key 67108788 ltac:(done)) as [k Hk]. assert (0 <= 1 <= kMaxSequenceNumber) as H1 by done.
  pose proof (wide_state_valid k ltac:(unfold kUint32Max; lia)) as Hv. destruct (valid_small _ Hv) as (Hs & _ & Hl0 & Hl1 & Hl2).
  assert (len (meta_bytes (mkTableMeta 1 1 (encodeInternalKey [] 1 kValue) (encodeInternalKey k 1 kValue))) = 67108828) as Hmeta.
  { rewrite len_meta_bytes. cbn [tm_smallest tm_largest]. rewrite !encodeInternalKey_eq by done. llia. }
  exists (wide_state k), (sealed (manifest_contents (wide_state k))). split_and!.
  - split_and!; try done. repeat constructor; done.
  - unfold encodeManifest. rewrite Hv. cbn [mbind option_bind]. f_equal. rewrite !putFixed64_le_bytes, putFixed32_le_bytes.
    assert (forall a b c d : bytes, ((a ++ b) ++ c) ++ d = a ++ b ++ c ++ d) as Hassoc by (intros; by rewrite <- !app_assoc).
    rewrite Hassoc. change (kManifestMagic ++ _) with (header_of kManifestVersion (wide_state k)).
    unfold all_tables in Hs. rewrite !Forall_app in Hs. destruct Hs as (Hs0 & Hs1 & Hs2).
    rewrite (proj2 (appendTables_Ok (level0 (mf_levels (wide_state k))) _ (header_of kManifestVersion (wide_state k) ++ level_bytes (level0 (mf_levels (wide_state k)))) Hs0 Hl0)).
    2:{ split; [done|right]. rewrite len_app, len_header. unfold level_bytes, wide_state. cbn [mf_levels level0 map concat].
        rewrite app_nil_r, len_app, len_le_bytes, Hmeta. done. }
    cbn [mbind result_bind]. rewrite (proj2 (appendTables_Ok (level1 (mf_levels (wide_state k))) _ _ Hs1 Hl1)) by eauto.
    cbn [mbind result_bind]. rewrite (proj2 (appendTables_Ok (level2 (mf_levels (wide_state k))) _ _ Hs2 Hl2)) by eauto.
    cbn [mbind result_bind]. rewrite putFixed32_le_bytes. unfold sealed, manifest_contents. by rewrite <- !app_assoc.
  - destruct (sealed_parts (manifest_contents (wide_state k))) as (_ & _ & Hl). unfold decodeManifest. rewrite Hl.
    assert (len (manifest_contents (wide_state k)) = 67108868) as ->.
    { unfold manifest_contents. rewrite !len_app, len_header. unfold level_bytes, wide_state. cbn [mf_levels level0 level1 level2 map concat].
      rewrite !app_nil_r, len_app, !len_le_bytes, Hmeta. done. }
    done.
Qed.

(** ** Replacing the manifest *)

Section replace.
Context (strerror : Z -> string).

Lemma mf_writeAll_spec evs : forall file data path file' st,
  mf_writeAll strerror evs file data path = (file', st) -> ok st = true -> contents file' = contents file ++ data.
Proof.
  induction evs as [|ev evs IH]; intros file data path file' st; simpl.
  - case_bool_decide; intros; simplify_eq; simpl; [by rewrite app_nil_r|done].
  - case_bool_decide; [intros; simplify_eq; by rewrite app_nil_r|]. destruct ev as [n|errno].
    + destruct (0 <? n); [|by intros; simplify_eq]. intros Hw Hok. apply IH in Hw; [|done]. simpl in Hw.
      by rewrite Hw, <- app_assoc, take_drop.
    + destruct (errno =? EINTR); [apply IH|by intros; simplify_eq].
Qed.

Lemma syncFile_spec errnos : forall file path file' st,
  syncFile strerror errnos file path = (file', st) -> ok st = true ->
  contents file' = contents file /\ durable file' = length (contents file').
Proof.
  induction errnos as [|errno errnos IH]; intros file path file' st; simpl; [by intros; simplify_eq|].
  destruct (errno =? EINTR); [apply IH|by intros; simplify_eq].
Qed.

Lemma readFile_loop_benign evs : forall file path got rest,
  Forall benign_read evs -> file = got ++ rest -> readFile_loop strerror evs file path got = Ok file.
Proof.
  induction evs as [|ev evs IH]; intros file path got rest Hb Hf; simpl.
  - destruct (Z.leb_spec (len file) (len got)) as [Hle|Hlt]; [|rewrite Hf, drop_app_length; done].
    rewrite Hf in Hle |- *. rewrite len_app in Hle. destruct rest; [by rewrite app_nil_r|]. llia.
  - apply Forall_cons_iff in Hb as [Hev Hb]. destruct (Z.leb_spec (len file) (len got)) as [Hle|Hlt].
    { rewrite Hf in Hle |- *. rewrite len_app in Hle. destruct rest; [by rewrite app_nil_r|]. llia. }
    destruct ev as [n|errno]; [|simpl in Hev; subst; by apply IH with rest].
    rewrite Hf, drop_app_length. case_bool_decide as Hc.
    + exfalso. apply (f_equal length) in Hc. rewrite length_take in Hc. rewrite Hf, len_app in Hlt. unfold len in Hlt. simpl in Hc. lia.
    + rewrite <- Hf. apply (IH file path _ (drop (Z.to_nat (Z.max 1 n)) rest)); [done|]. by rewrite Hf, <- app_assoc, take_drop.
Qed.

(** Benign answers to [readManifest]. *)
Definition benign_manifest_read (env : ManifestReadEnv) : Prop :=
  mr_open env = None /\ mr_stat env = None /\ mr_regular env = true /\ Forall benign_read (mr_reads env) /\ mr_close env = None.

Lemma readManifest_benign env path fs f :
  benign_manifest_read env -> fs !! path = Some f -> len (contents f) <= kMaximumManifestSize ->
  readManifest strerror env path fs = decodeManifest (contents f).
Proof.
  intros (Ho & Hs & Hr & Hb & Hc) Hf Hlen. unfold readManifest, readFile. rewrite Hf, Ho, Hs, Hr. cbn [negb orb].
  destruct (Z.ltb_spec kMaximumManifestSize (len (contents f))); [lia|].
  rewrite (readFile_loop_benign _ _ _ [] (contents f)) by done. cbn [mbind result_bind]. by rewrite Hc.
Qed.

Lemma writeManifest_total env path temporary st fs : is_Some (writeManifest strerror env path temporary st fs).
Proof.
  unfold writeManifest, encodeManifest. destruct (validateState_total st) as [[message|] ->]; cbn [mbind option_bind]; [by eexists|].
  destruct (_ ≫= _) as [encoded|status]; [|by eexists]. destruct (me_open env); [by eexists|].
  destruct (mf_writeAll _ _ _ _ _) as [file status]. destruct (if ok status then _ else _) as [file' status'].
  destruct (negb _); [by eexists|]. destruct (me_rename env); by eexists.
Qed.

Lemma writeManifest_spec env path temporary st fs fs' status :
  path <> temporary -> writeManifest strerror env path temporary st fs = Some (fs', status) ->
  (forall q, q <> path -> q <> temporary -> fs' !! q = fs !! q) /\
  if ok status
  then validateState st = Some None /\ encodeManifest st = Some (Ok (sealed (manifest_contents st))) /\
       fs' !! path = Some (mkLogFile (sealed (manifest_contents st)) (length (sealed (manifest_contents st)))) /\
       fs' !! temporary = None
  else fs' !! path = fs !! path.
Proof.
  intros Hne. unfold writeManifest. intros ([encoded|s] & He & Hr)%bind_Some.
  2:{ simplify_eq. split; [done|]. unfold encodeManifest in He. apply bind_Some in He as ([message|] & _ & He); [by simplify_eq|].
      injection He as He. enough (ok status = false) as -> by done. revert He. clear. unfold appendTables.
      assert (forall ts e s, append_tables ts e = Err s -> ok s = false) as Ha.
      { induction ts as [|t ts IH]; intros e s; cbn [append_tables]; [done|]. destruct (_ <? _); [|apply IH]. by intros; simplify_eq. }
      intros He. repeat (apply Ha in He || (destruct (append_tables _ _) eqn:E; cbn [mbind result_bind] in He; [clear E|]));
        simplify_eq; eauto. }
  pose proof (encode_Ok_bytes _ _ He) as [Hv ->]. destruct (me_open env) as [errno|]; [by simplify_eq|].
  destruct (mf_writeAll _ _ _ _ _) as [file1 st1] eqn:E1. destruct (if ok st1 then _ else _) as [file2 st2] eqn:E2.
  set (st3 := match me_close env with Some errno => _ | None => _ end) in Hr.
  assert (ok st3 = true -> ok st1 = true /\ ok st2 = true) as Hoks.
  { unfold st3. destruct (ok st1) eqn:Eo1.
    - intros Ho. split; [done|]. destruct (me_close env); [|done]. destruct (ok st2) eqn:Eo2; [done|congruence].
    - simplify_eq. destruct (me_close env); rewrite Eo1; congruence. }
  assert (forall b q, q <> temporary -> fs_unlink b temporary (<[temporary := file2]> fs) !! q = fs !! q) as Hun.
  { intros [] q Hq; unfold fs_unlink; by simplify_map_eq. }
  destruct (ok st3) eqn:Eo; cbn [negb] in Hr.
  2:{ injection Hr as <- <-. rewrite Eo. split; [intros; by apply Hun|by apply Hun]. }
  destruct (me_rename env) as [errno|]; injection Hr as <- <-; [split; [intros; by apply Hun|by apply Hun]|].
  destruct (Hoks eq_refl) as [Ho1 Ho2]. rewrite Ho1 in E2. apply mf_writeAll_spec in E1; [|done]. apply syncFile_spec in E2 as [Hc Hd]; [|done].
  simpl in E1. unfold fs_rename. rewrite lookup_insert_eq. split; [intros; by simplify_map_eq|]. simpl.
  split_and!; [done|done| |by simplify_map_eq]. simplify_map_eq. f_equal. destruct file2 as [c d]. simpl in *. by rewrite Hd, Hc, E1.
Qed.
End replace.

Lemma crash_durable fs fs' path c :
  crash_directory fs fs' -> fs !! path = Some (mkLogFile c (length c)) -> fs' !! path = Some (mkLogFile c (length c)).
Proof.
  intros Hc Hp. specialize (Hc path). rewrite Hp in Hc. destruct (fs' !! path) as [[c' d']|]; [|done]. destruct Hc as [Hc Hd].
  inversion Hc as [f k Hk Hf Heq]. subst f. simpl in *. rewrite take_ge in Heq by lia. by subst.
Qed.


