(* ===== verification/Snapshot.v ===== *)
(** The tracker of live snapshots (src/db/snapshot.cc): a counted set of
    sequence numbers whose least element bounds what compaction may drop. *)
From S2P Require Import Prelude InternalKey.

(** [std::map<SequenceNumber, std::size_t>] in key order. *)
Definition SnapshotTracker := list (Z * Z).

Definition newSnapshotTracker : SnapshotTracker := [].

(** [++counts_[sequence]]. *)
Fixpoint tracker_add (sequence : Z) (counts : SnapshotTracker) : SnapshotTracker :=
  match counts with
  | [] => [(sequence, 1)]
  | (s, n) :: rest =>
      if sequence <? s then (sequence, 1) :: counts
      else if sequence =? s then (s, wrap64 (n + 1)) :: rest
      else (s, n) :: tracker_add sequence rest
  end.

(** [find], the two assertions, and the decrement that erases at zero. *)
Fixpoint tracker_remove (sequence : Z) (counts : SnapshotTracker) : option SnapshotTracker :=
  match counts with
  | [] => None
  | (s, n) :: rest =>
      if sequence =? s then
        _ ← assert_that (0 <? n);
        if n - 1 =? 0 then Some rest else Some ((s, n - 1) :: rest)
      else rest ← tracker_remove sequence rest; Some ((s, n) :: rest)
  end.

Definition oldest (counts : SnapshotTracker) (fallback : Z) : Z :=
  match counts with [] => fallback | (s, _) :: _ => s end.

(** ** The tracker as a bag of live snapshots *)

Definition occurrences (s : Z) (live : list Z) : Z := len (filter (fun x => x = s) live).

Fixpoint count_of (s : Z) (counts : SnapshotTracker) : Z :=
  match counts with
  | [] => 0
  | (s', n) :: rest => if s =? s' then n else count_of s rest
  end.

Record tracks (counts : SnapshotTracker) (live : list Z) : Prop := {
  tr_sorted : StronglySorted (fun a b : Z * Z => a.1 < b.1) counts;
  tr_positive : Forall (fun c : Z * Z => 0 < c.2) counts;
  tr_counts : forall s, count_of s counts = occurrences s live;
}.

Lemma occurrences_cons s x live : occurrences s (x :: live) = (if x =? s then 1 else 0) + occurrences s live.
Proof.
  unfold occurrences. rewrite filter_cons. destruct (Z.eqb_spec x s); [rewrite decide_True by done; llia|by rewrite decide_False].
Qed.

Lemma occurrences_range s live : 0 <= occurrences s live <= len live.
Proof. unfold occurrences, len. pose proof (length_filter (fun x => x = s) live). lia. Qed.

Lemma occurrences_elem s live : 0 < occurrences s live <-> s ∈ live.
Proof.
  induction live as [|x live IH]; [split; [done|set_solver]|]. rewrite occurrences_cons, elem_of_cons, <- IH.
  pose proof (occurrences_range s live). destruct (Z.eqb_spec x s); split; intros; (tauto || lia || naive_solver lia).
Qed.

Lemma occurrences_perm s live live' : live ≡ₚ live' -> occurrences s live = occurrences s live'.
Proof. intros Hp. unfold occurrences, len. by rewrite Hp. Qed.

Lemma count_of_below s counts : Forall (fun c : Z * Z => s < c.1) counts -> count_of s counts = 0.
Proof. induction 1 as [|[s' n] counts Hs _ IH]; simpl in *; [done|]. by destruct (Z.eqb_spec s s'); [lia|]. Qed.

Lemma count_of_in s counts : 0 < count_of s counts -> exists n, (s, n) ∈ counts.
Proof.
  induction counts as [|[s' n] counts IH]; simpl; [lia|]. destruct (Z.eqb_spec s s') as [<-|]; intros Hc; [exists n; set_solver|].
  destruct (IH Hc) as [m Hm]. exists m. set_solver.
Qed.

Lemma tracker_add_spec counts seq :
  StronglySorted (fun a b : Z * Z => a.1 < b.1) counts -> Forall (fun c : Z * Z => 0 < c.2) counts ->
  count_of seq counts < kUint64Max ->
  StronglySorted (fun a b : Z * Z => a.1 < b.1) (tracker_add seq counts) /\
  Forall (fun c : Z * Z => 0 < c.2) (tracker_add seq counts) /\
  (forall s, count_of s (tracker_add seq counts) = count_of s counts + (if s =? seq then 1 else 0)) /\
  (forall b, b < seq -> Forall (fun c : Z * Z => b < c.1) counts -> Forall (fun c : Z * Z => b < c.1) (tracker_add seq counts)).
Proof.
  intros Hs Hp. induction Hs as [|[s0 n] counts Hs IH Hlt]; intros Hc.
  { simpl. split_and!; [repeat constructor|by repeat constructor| |intros; by repeat constructor]. intros s. by destruct (s =? seq). }
  apply Forall_cons_iff in Hp as [Hn Hp]. simpl in Hc, Hn, Hlt |- *.
  destruct (Z.ltb_spec seq s0); [|destruct (Z.eqb_spec seq s0) as [->|]].
  - split_and!.
    + constructor; [by constructor|]. constructor; [done|]. eapply Forall_impl; [|exact Hlt]. simpl. lia.
    + constructor; [done|by constructor].
    + intros s. simpl. destruct (Z.eqb_spec s seq) as [->|]; [|lia]. destruct (Z.eqb_spec seq s0); [lia|].
      rewrite count_of_below; [lia|]. eapply Forall_impl; [|exact Hlt]. simpl. lia.
    + intros b Hb Hall. by constructor.
  - rewrite wrap64_small by (unfold kUint64Max in *; lia). split_and!.
    + by constructor.
    + constructor; [simpl; lia|done].
    + intros s. simpl. destruct (s =? s0); lia.
    + intros b Hb Hall. apply Forall_cons_iff in Hall as [? ?]. by constructor.
  - destruct IH as (IH1 & IH2 & IH3 & IH4); [done|done|]. split_and!.
    + constructor; [done|]. apply IH4; [simpl; lia|done].
    + by constructor.
    + intros s. simpl. destruct (Z.eqb_spec s s0); [|apply IH3]. destruct (Z.eqb_spec s seq); lia.
    + intros b Hb Hall. apply Forall_cons_iff in Hall as [? ?]. constructor; [done|]. by apply IH4.
Qed.

Lemma tracker_remove_spec counts seq :
  StronglySorted (fun a b : Z * Z => a.1 < b.1) counts -> Forall (fun c : Z * Z => 0 < c.2) counts ->
  0 < count_of seq counts ->
  exists counts', tracker_remove seq counts = Some counts' /\ sublist (map fst counts') (map fst counts) /\
  Forall (fun c : Z * Z => 0 < c.2) counts' /\ StronglySorted (fun a b : Z * Z => a.1 < b.1) counts' /\
  forall s, count_of s counts' = count_of s counts - (if s =? seq then 1 else 0).
Proof.
  intros Hs Hp. induction Hs as [|[s0 n] counts Hs IH Hlt]; intros Hc; [done|].
  apply Forall_cons_iff in Hp as [Hn Hp]. simpl in Hc, Hn, Hlt |- *. destruct (Z.eqb_spec seq s0) as [->|].
  - unfold assert_that. destruct (Z.ltb_spec 0 n); [|lia]. cbn [mbind option_bind].
    destruct (Z.eqb_spec (n - 1) 0); eexists; (split; [done|]); simpl.
    + split_and!; [by apply sublist_cons|done|done|]. intros s. destruct (Z.eqb_spec s s0) as [->|]; [|lia].
      rewrite count_of_below by done. lia.
    + split_and!; [done|constructor; [simpl; lia|done]|by constructor|]. intros s. simpl. destruct (s =? s0); lia.
  - destruct IH as (counts' & -> & Hsub & Hp' & Hs' & Hcnt); [done|done|]. cbn [mbind option_bind].
    eexists. split; [done|]. simpl. split_and!; [by apply sublist_skip|by constructor| |].
    + constructor; [done|]. rewrite Forall_elem. intros c Hin. apply (list_elem_of_fmap_2 fst) in Hin.
      apply (elem_of_sublist _ (map fst counts)) in Hin; [|done]. change (map fst counts) with (fst <$> counts) in Hin.
      apply list_elem_of_fmap in Hin as (c' & -> & Hc'). rewrite Forall_elem in Hlt. by apply Hlt.
    + intros s. simpl. destruct (Z.eqb_spec s s0); [|apply Hcnt]. destruct (Z.eqb_spec s seq); lia.
Qed.

(** Histories of the tracker: snapshots taken and released in any order. *)
Inductive tracker_run : SnapshotTracker -> list Z -> Prop :=
  | tracker_new : tracker_run newSnapshotTracker []
  | tracker_take counts live seq :
      tracker_run counts live -> len live < kUint64Max -> tracker_run (tracker_add seq counts) (seq :: live)
  | tracker_release counts live live' seq counts' :
      tracker_run counts live -> live ≡ₚ seq :: live' -> tracker_remove seq counts = Some counts' ->
      tracker_run counts' live'.

Lemma tracks_new : tracks newSnapshotTracker [].
Proof. split; [constructor|constructor|done]. Qed.

Lemma tracks_add counts live seq : tracks counts live -> count_of seq counts < kUint64Max -> tracks (tracker_add seq counts) (seq :: live).
Proof.
  intros [Hs Hp Hc] Hlt. destruct (tracker_add_spec counts seq Hs Hp Hlt) as (? & ? & Hcnt & _).
  split; [done|done|]. intros s. rewrite Hcnt, Hc, occurrences_cons. rewrite (Z.eqb_sym seq s). lia.
Qed.

(** A live snapshot can be released. *)
Lemma tracks_removable counts live seq : tracks counts live -> seq ∈ live -> is_Some (tracker_remove seq counts).
Proof.
  intros [Hs Hp Hc] Hin. destruct (tracker_remove_spec counts seq Hs Hp) as (c & -> & _); [|by eexists]. rewrite Hc. by apply occurrences_elem.
Qed.

(** What can be released is live. *)
Lemma tracks_remove counts live seq counts' : tracks counts live -> tracker_remove seq counts = Some counts' ->
  exists live', live ≡ₚ seq :: live'.
Proof.
  intros [Hs Hp Hc] Hr. assert (seq ∈ live) as (l & r & ->)%list_elem_of_split.
  { apply occurrences_elem. rewrite <- Hc. clear Hs Hc. revert counts' Hr.
    induction counts as [|[s n] counts IH]; intros counts' Hr; [done|]. simpl in *. apply Forall_cons_iff in Hp as [? Hp].
    destruct (seq =? s); [done|]. apply bind_Some in Hr as (c & Hc & _). by eapply IH. }
  exists (l ++ r). by rewrite Permutation_middle.
Qed.

Lemma tracks_release counts live live' seq counts' : tracks counts live -> live ≡ₚ seq :: live' -> tracker_remove seq counts = Some counts' ->
  tracks counts' live'.
Proof.
  intros [Hs Hp Hc] Hperm Hr. assert (0 < count_of seq counts) as Hpos by (rewrite Hc; apply occurrences_elem; rewrite Hperm; set_solver).
  destruct (tracker_remove_spec counts seq Hs Hp Hpos) as (c & Hc' & _ & ? & ? & Hcnt). simplify_eq.
  split; [done|done|]. intros s. rewrite Hcnt, Hc, (occurrences_perm s _ _ Hperm), occurrences_cons, (Z.eqb_sym seq s). lia.
Qed.

Lemma tracks_oldest counts live fallback : tracks counts live ->
  (live = [] -> oldest counts fallback = fallback) /\
  (live <> [] -> oldest counts fallback ∈ live /\ forall s, s ∈ live -> oldest counts fallback <= s).
Proof.
  intros [Hs Hp Hc]. split.
  - intros ->. destruct counts as [|[s n] counts]; [done|]. specialize (Hc s). simpl in Hc. rewrite Z.eqb_refl in Hc.
    apply Forall_cons_iff in Hp as [Hn _]. simpl in Hn. change (occurrences s []) with 0 in Hc. lia.
  - intros Hne. destruct counts as [|[s n] counts].
    { destruct live as [|x live]; [done|]. specialize (Hc x). simpl in Hc. rewrite occurrences_cons, Z.eqb_refl in Hc.
      pose proof (occurrences_range x live). lia. }
    simpl. apply Forall_cons_iff in Hp as [Hn _]. simpl in Hn. split.
    + apply occurrences_elem. rewrite <- Hc. simpl. by rewrite Z.eqb_refl.
    + intros x Hx. apply occurrences_elem in Hx. rewrite <- Hc in Hx. apply count_of_in in Hx as [m Hm].
      apply elem_of_cons in Hm as [Hm|Hm]; [by simplify_eq|]. inversion Hs as [|? ? _ Hlt]; subst. rewrite Forall_elem in Hlt.
      specialize (Hlt _ Hm). simpl in Hlt. lia.
Qed.

Lemma tracker_run_tracks counts live : tracker_run counts live -> tracks counts live.
Proof.
  induction 1 as [|counts live seq _ Ht Hlen|counts live live' seq counts' _ Ht Hperm Hr]; [apply tracks_new| |by eapply tracks_release].
  apply tracks_add; [done|]. rewrite (tr_counts _ _ Ht). pose proof (occurrences_range seq live). lia.
Qed.

(** C33. The snapshot tracker: after any history of taking and releasing
    snapshots, releasing any live one succeeds, and [oldest] is a lower bound
    of the live snapshots that is itself live, or the fallback when there are
    none. *)
Theorem snapshot_tracker_oldest counts live fallback :
  tracker_run counts live ->
  (forall s, s ∈ live -> is_Some (tracker_remove s counts)) /\
  (live = [] -> oldest counts fallback = fallback) /\
  (live <> [] -> oldest counts fallback ∈ live /\ forall s, s ∈ live -> oldest counts fallback <= s).
Proof.
  intros Ht%tracker_run_tracks. split; [|by apply tracks_oldest]. intros s. by apply tracks_removable.
Qed.

Lemma snapshot_tracker_oldest_witness :
  (forall s, s ∈ [9; 4] -> is_Some (tracker_remove s [(4, 1); (9, 1)])) /\
  ([9; 4] = [] -> oldest [(4, 1); (9, 1)] 12 = 12) /\
  ([9; 4] <> [] -> oldest [(4, 1); (9, 1)] 12 ∈ [9; 4] /\ forall s, s ∈ [9; 4] -> oldest [(4, 1); (9, 1)] 12 <= s).
Proof.
  apply (snapshot_tracker_oldest [(4, 1); (9, 1)] [9; 4] 12).
  apply (tracker_release [(4, 2); (9, 1)] [4; 9; 4] [9; 4] 4); [|done|done].
  apply (tracker_take [(4, 1); (9, 1)] [9; 4] 4); [|done].
  apply (tracker_take [(4, 1)] [4] 9); [|done]. apply (tracker_take [] [] 4); [constructor|done].
Defined.
