(* ===== verification/DbFiles.v ===== *)
(** The database directory (src/db/db_files.cc): preparing and locking it,
    scanning its numbered files, and removing the ones no longer needed. *)
From S2P Require Import Prelude Posix Status Filename Level Manifest.

(** [enum class OpenMode]. *)
Inductive OpenMode := kOpenExisting | kCreateNew | kOpenOrCreate.

#[global] Instance OpenMode_eq_dec : EqDecision OpenMode.
Proof. solve_decision. Defined.

Section messages.
Context (strerror : Z -> string).

Definition posixError (operation path : string) (errno : Z) : Status :=
  ioError (operation +:+ " " +:+ path +:+ ": " +:+ strerror errno).
Definition filesystemError (operation path : string) (error : Z) : Status :=
  ioError (operation +:+ " " +:+ path +:+ ": " +:+ strerror error).

(** ** Preparing the directory *)

Inductive path_kind := PathAbsent | PathDirectory | PathOther.

#[global] Instance path_kind_eq_dec : EqDecision path_kind.
Proof. solve_decision. Defined.

(** The error codes of [exists], [is_directory] and [create_directories]. *)
Record PrepareEnv := mkPrepareEnv { pe_exists : option Z; pe_is_directory : option Z; pe_create : option Z }.

(** The kind of the path afterwards, and the status. *)
Definition prepareDatabaseDirectory (env : PrepareEnv) (mode : OpenMode) (directory : string) (kind : path_kind) :
    path_kind * Status :=
  if bool_decide (directory = "") then (kind, invalidArgument "database directory must not be empty")
  else
    match pe_exists env with
    | Some error => (kind, filesystemError "stat" directory error)
    | None =>
        let present := negb (bool_decide (kind = PathAbsent)) in
        (* [is_directory] is evaluated only on an existing path; it returns false on error *)
        if present && (bool_decide (kind = PathOther) || bool_decide (pe_is_directory env <> None)) then
          match pe_is_directory env with
          | Some error => (kind, filesystemError "stat" directory error)
          | None => (kind, invalidArgument ("database path is not a directory: " +:+ directory))
          end
        else if bool_decide (mode = kOpenExisting) && negb present
        then (kind, notFound ("database directory does not exist: " +:+ directory))
        else if bool_decide (mode = kCreateNew) && present
        then (kind, alreadyExists ("database directory already exists: " +:+ directory))
        else if negb present then
          match pe_create env with
          | Some error => (kind, filesystemError "create directory" directory error)
          | None => (PathDirectory, success)
          end
        else (kind, success)
    end.

(** ** The lock *)

Definition EWOULDBLOCK : Z := 11.

(** [class FileLock]: a descriptor, or -1. *)
Record FileLock := mkFileLock { fd_ : Z }.
Definition emptyFileLock : FileLock := mkFileLock (-1).

(** The kernel's side: open descriptors of the lock file and the one that
    holds the exclusive [flock]. *)
Record LockFile := mkLockFile { open_fds : gset Z; lock_holder : option Z }.

Definition lock_reset (lock : FileLock) (k : LockFile) : FileLock * LockFile :=
  if fd_ lock <? 0 then (lock, k)
  else
    (mkFileLock (-1),
     mkLockFile (open_fds k ∖ {[fd_ lock]})
       (if bool_decide (lock_holder k = Some (fd_ lock)) then None else lock_holder k)).

(** Move construction: the source gives up its descriptor. *)
Definition lock_move (other : FileLock) : FileLock * FileLock := (mkFileLock (fd_ other), mkFileLock (-1)).

(** Move assignment from another object. *)
Definition lock_assign (lock other : FileLock) (k : LockFile) : FileLock * FileLock * LockFile :=
  let '(_, k) := lock_reset lock k in (mkFileLock (fd_ other), mkFileLock (-1), k).

(** The answers to [open] (a fresh descriptor or an errno) and to [flock],
    which fails with [EWOULDBLOCK] while another descriptor holds the lock. *)
Record LockEnv := mkLockEnv { le_open : Z + Z; le_flock : option Z }.

Definition acquireDatabaseLock (env : LockEnv) (directory : string) (lock : FileLock) (k : LockFile) :
    FileLock * LockFile * Status :=
  let path := lockFileName directory in
  match le_open env with
  | inl errno => (lock, k, posixError "open" path errno)
  | inr fd =>
      let k := mkLockFile ({[fd]} ∪ open_fds k) (lock_holder k) in
      let answer := match lock_holder k with
                    | Some _ => Some (default EWOULDBLOCK (le_flock env))
                    | None => le_flock env
                    end in
      match answer with
      | Some saved_errno =>
          let k := mkLockFile (open_fds k ∖ {[fd]}) (lock_holder k) in
          if saved_errno =? EWOULDBLOCK then (lock, k, busy ("database is already open: " +:+ directory))
          else (lock, k, posixError "lock" path saved_errno)
      | None =>
          let k := mkLockFile (open_fds k) (Some fd) in
          let '(lock, _, k) := lock_assign lock (mkFileLock fd) k in
          (lock, k, success)
      end
  end.

(** ** Scanning *)

Record DirectoryContents := mkDirectoryContents {
  wal_numbers : list Z;
  has_sstable : bool;
  maximum_number : Z;
}.

Definition scan_file (scanned : DirectoryContents) (number : Z) (type : NumberedFileType) : DirectoryContents :=
  let maximum := Z.max (maximum_number scanned) number in
  match type with
  | kWal => mkDirectoryContents (wal_numbers scanned ++ [number]) (has_sstable scanned) maximum
  | kSSTable => mkDirectoryContents (wal_numbers scanned) true maximum
  | kSSTableTemporary => mkDirectoryContents (wal_numbers scanned) (has_sstable scanned) maximum
  end.

Fixpoint scan_entries (entries : list string) (scanned : DirectoryContents) : DirectoryContents :=
  match entries with
  | [] => scanned
  | entry :: entries =>
      match parseNumberedFileName entry with
      | None => scan_entries entries scanned
      | Some (number, type) => scan_entries entries (scan_file scanned number type)
      end
  end.

(** [entries] is the order in which the directory is listed. *)
Definition scanDatabaseDirectory (list_error : option Z) (directory : string) (entries : list string) :
    result DirectoryContents :=
  match list_error with
  | Some error => Err (filesystemError "list directory" directory error)
  | None =>
      let scanned := scan_entries entries (mkDirectoryContents [] false 0) in
      Ok (mkDirectoryContents (merge_sort Z.le (wal_numbers scanned)) (has_sstable scanned) (maximum_number scanned))
  end.

End messages.

(** ** Removing files, as far as the system lets us *)

Definition removeFileBestEffort (effective : string -> bool) (path : string) (fs : Directory) : Directory :=
  fs_unlink (effective path) path fs.

Definition obsolete_wal (live_wal_number : Z) (path : string) : bool :=
  match parseNumberedFileName path with
  | Some (number, kWal) => negb (live_wal_number <=? number)
  | _ => false
  end.

Definition remove_where (effective : string -> bool) (obsolete : string -> bool) (entries : list string) (fs : Directory) : Directory :=
  foldl (fun fs path => if obsolete path then removeFileBestEffort effective path fs else fs) fs entries.

Definition removeObsoleteWalFilesBestEffort (list_error : option Z) (effective : string -> bool)
    (entries : list string) (live_wal_number : Z) (fs : Directory) : Directory :=
  match list_error with
  | Some _ => fs
  | None => remove_where effective (obsolete_wal live_wal_number) entries fs
  end.

Definition live_numbers (manifest : ManifestState) : gset Z :=
  list_to_set (map tm_number (all_tables (mf_levels manifest))).

Definition obsolete_sstable (manifest : ManifestState) (path : string) : bool :=
  match parseNumberedFileName path with
  | Some (number, kSSTable) => negb (bool_decide (number ∈ live_numbers manifest))
  | Some (_, kSSTableTemporary) => true
  | _ => false
  end.

Definition removeObsoleteSSTableFilesBestEffort (list_error : option Z) (effective : string -> bool)
    (entries : list string) (manifest : ManifestState) (fs : Directory) : Directory :=
  match list_error with
  | Some _ => fs
  | None => remove_where effective (obsolete_sstable manifest) entries fs
  end.

(** ** Scanning and removal, specified *)

Lemma scan_entries_spec entries : forall scanned,
  let result := scan_entries entries scanned in
  wal_numbers result = wal_numbers scanned ++ omap (fun e => match parseNumberedFileName e with Some (n, kWal) => Some n | _ => None end) entries /\
  has_sstable result = has_sstable scanned || existsb (fun e => match parseNumberedFileName e with Some (_, kSSTable) => true | _ => false end) entries /\
  maximum_number scanned <= maximum_number result /\
  (forall e n t, e ∈ entries -> parseNumberedFileName e = Some (n, t) -> n <= maximum_number result) /\
  (maximum_number result = maximum_number scanned \/ exists e t, e ∈ entries /\ parseNumberedFileName e = Some (maximum_number result, t)).
Proof.
  induction entries as [|e entries IH]; intros scanned; simpl.
  { rewrite app_nil_r, orb_false_r. split_and!; [done|done|lia|set_solver|by left]. }
  destruct (parseNumberedFileName e) as [[n t]|] eqn:E; simpl.
  - destruct (IH (scan_file scanned n t)) as (H1 & H2 & H3 & H4 & H5).
    assert (maximum_number (scan_file scanned n t) = Z.max (maximum_number scanned) n) as Hmax by (by destruct t).
    split_and!.
    + rewrite H1. destruct t; simpl; by rewrite <- ?app_assoc.
    + rewrite H2. destruct t; simpl; by rewrite ?orb_true_r.
    + lia.
    + intros x m u Hx Hm. apply elem_of_cons in Hx as [->|Hx]; [|by eapply H4]. simplify_eq. lia.
    + destruct H5 as [H5|(x & u & Hx & Hu)]; [|right; exists x, u; set_solver].
      rewrite Hmax in H5. destruct (Z.max_spec (maximum_number scanned) n) as [[_ Hx]|[_ Hx]]; rewrite Hx in H5; [right|by left].
      exists e, t. rewrite H5. split; [set_solver|done].
  - destruct (IH scanned) as (H1 & H2 & H3 & H4 & H5). split_and!; try done.
    + intros x m u Hx Hm. apply elem_of_cons in Hx as [->|Hx]; [congruence|]. by eapply H4.
    + destruct H5 as [H5|(x & u & Hx & Hu)]; [by left|right]. exists x, u. set_solver.
Qed.

Lemma removed_lookup effective p fs path : removeFileBestEffort effective p fs !! path = fs !! path \/
  (path = p /\ removeFileBestEffort effective p fs !! path = None).
Proof.
  unfold removeFileBestEffort, fs_unlink. destruct (effective p); [|by left].
  destruct (decide (path = p)) as [->|]; [right; by rewrite lookup_delete_eq|left; by rewrite lookup_delete_ne].
Qed.
Lemma removed_gone effective p fs : removeFileBestEffort effective p fs !! p = None \/ effective p = false.
Proof. unfold removeFileBestEffort, fs_unlink. destruct (effective p); [left; apply lookup_delete_eq|by right]. Qed.

Lemma remove_where_lookup effective obsolete entries : forall fs path,
  remove_where effective obsolete entries fs !! path =
  if bool_decide (path ∈ entries) && obsolete path && effective path then None else fs !! path.
Proof.
  unfold remove_where. induction entries as [|e entries IH]; intros fs path; cbn [foldl].
  { by rewrite bool_decide_false by set_solver. }
  rewrite IH. destruct (decide (path = e)) as [->|Hne].
  - rewrite (bool_decide_true (e ∈ e :: entries)) by set_solver. simpl. unfold removeFileBestEffort, fs_unlink.
    destruct (obsolete e), (effective e); simpl; rewrite ?andb_false_r; try done; case_match; rewrite ?lookup_delete_eq; done.
  - rewrite (bool_decide_ext (path ∈ e :: entries) (path ∈ entries)) by set_solver.
    assert ((if obsolete e then removeFileBestEffort effective e fs else fs) !! path = fs !! path) as ->; [|done].
    destruct (obsolete e); [|done]. unfold removeFileBestEffort, fs_unlink. destruct (effective e); by rewrite ?lookup_delete_ne.
Qed.

Lemma plain_name_unnumbered directory name :
  slash ∉ name -> parse_suffixes name name_suffixes = None -> parseNumberedFileName (path_append directory name) = None.
Proof. intros. unfold parseNumberedFileName. by rewrite filename_append. Qed.

Lemma manifest_unnumbered directory : parseNumberedFileName (manifestFileName directory) = None.
Proof. apply plain_name_unnumbered; [apply (bool_decide_unpack _)|]; by vm_compute. Qed.

Lemma manifest_temporary_unnumbered directory : parseNumberedFileName (manifestTemporaryFileName directory) = None.
Proof. apply plain_name_unnumbered; [apply (bool_decide_unpack _)|]; by vm_compute. Qed.

(** Scanning the directory: whatever the order of the listing, the WAL
    numbers come out sorted and are exactly those of the WAL files, a table is
    reported exactly when there is one, and the maximum bounds every numbered
    file, temporary ones included, so the next number is unused. *)
Theorem directory_scan strerror directory entries contents :
  scanDatabaseDirectory strerror None directory entries = Ok contents ->
  Sorted Z.le (wal_numbers contents) /\
  (forall n, n ∈ wal_numbers contents <-> exists path, path ∈ entries /\ parseNumberedFileName path = Some (n, kWal)) /\
  (has_sstable contents = true <-> exists path n, path ∈ entries /\ parseNumberedFileName path = Some (n, kSSTable)) /\
  (forall path n t, path ∈ entries -> parseNumberedFileName path = Some (n, t) -> n <= maximum_number contents).
Proof.
  unfold scanDatabaseDirectory. intros [= <-]. cbn [wal_numbers has_sstable maximum_number].
  destruct (scan_entries_spec entries (mkDirectoryContents [] false 0)) as (Hw & Hs & _ & Hm & _). simpl in Hw, Hs.
  split_and!; [apply Sorted_merge_sort; intros x y; lia| | |by apply Hm].
  - intros n. rewrite merge_sort_Permutation, Hw, list_elem_of_omap. split; intros (path & Hin & Hp); exists path; (split; [done|]).
    + by destruct (parseNumberedFileName path) as [[? []]|]; simplify_eq.
    + by rewrite Hp.
  - rewrite Hs, existsb_exists. split.
    + intros (path & Hin & Hp). apply list_elem_of_In in Hin. destruct (parseNumberedFileName path) as [[n []]|] eqn:E; try done. by exists path, n.
    + intros (path & n & Hin & Hp). exists path. rewrite Hp. split; [by apply list_elem_of_In|done].
Qed.

Lemma directory_scan_witness :
  exists contents, scanDatabaseDirectory (fun _ => "") None "/db" ["/db/000007.log"; "/db/MANIFEST"; "/db/000012.sst"; "/db/3.log"] = Ok contents /\
    Sorted Z.le (wal_numbers contents) /\ maximum_number contents = 12.
Proof.
  eexists. split; [reflexivity|]. split; [|by vm_compute].
  apply (directory_scan (fun _ => "") "/db" ["/db/000007.log"; "/db/MANIFEST"; "/db/000012.sst"; "/db/3.log"] _ eq_refl).
Defined.

(** C31. Cleaning up never touches live files: whatever the listing and whichever
    removals succeed, the manifest, every WAL not below the replay bound and
    every table of the manifest survive unchanged, nothing else is altered, and
    if the listing is complete and removals succeed then no obsolete file is
    left. *)
Theorem cleanup_keeps_live directory list_error list_error' effective entries entries' live manifest fs :
  let fs' := removeObsoleteSSTableFilesBestEffort list_error' effective entries' manifest
               (removeObsoleteWalFilesBestEffort list_error effective entries live fs) in
  fs' !! manifestFileName directory = fs !! manifestFileName directory /\
  (forall n, 0 < n <= kUint64Max -> live <= n -> fs' !! walFileName directory n = fs !! walFileName directory n) /\
  (forall t, t ∈ all_tables (mf_levels manifest) -> 0 < tm_number t <= kUint64Max ->
     fs' !! sstableFileName directory (tm_number t) = fs !! sstableFileName directory (tm_number t)) /\
  (forall path, fs' !! path = fs !! path \/
     fs' !! path = None /\ (obsolete_wal live path = true \/ obsolete_sstable manifest path = true)) /\
  (list_error = None -> list_error' = None -> (forall path, effective path = true) ->
   (forall path, is_Some (fs !! path) -> path ∈ entries /\ path ∈ entries') ->
   forall path, obsolete_wal live path = true \/ obsolete_sstable manifest path = true -> fs' !! path = None).
Proof.
  intros fs'.
  assert (forall path, fs' !! path = fs !! path \/ fs' !! path = None /\ (obsolete_wal live path = true \/ obsolete_sstable manifest path = true)) as Hall.
  { intros path. unfold fs', removeObsoleteSSTableFilesBestEffort, removeObsoleteWalFilesBestEffort.
    destruct list_error, list_error'; rewrite ?remove_where_lookup; [by left|..];
      destruct (obsolete_wal live path), (obsolete_sstable manifest path); rewrite ?andb_false_r; simpl; rewrite ?andb_false_r; try case_match; try case_match; auto. }
  assert (forall path, obsolete_wal live path = false -> obsolete_sstable manifest path = false -> fs' !! path = fs !! path) as Hkeep.
  { intros path H1 H2. destruct (Hall path) as [|[_ [?|?]]]; congruence. }
  split_and!; [|intros n Hn Hl|intros t Ht Hn|done|].
  - apply Hkeep; unfold obsolete_wal, obsolete_sstable; by rewrite manifest_unnumbered.
  - apply Hkeep; unfold obsolete_wal, obsolete_sstable; rewrite (numberedFileName_parse directory kWal n Hn : parseNumberedFileName (walFileName directory n) = _); [|done].
    destruct (Z.leb_spec live n); [done|lia].
  - apply Hkeep; unfold obsolete_wal, obsolete_sstable;
      rewrite (numberedFileName_parse directory kSSTable _ Hn : parseNumberedFileName (sstableFileName directory _) = _); [done|].
    apply negb_false_iff, bool_decide_eq_true. unfold live_numbers. apply elem_of_list_to_set, list_elem_of_In, in_map, list_elem_of_In. done.
  - intros -> -> Heff Hlist path Hob. unfold fs', removeObsoleteSSTableFilesBestEffort, removeObsoleteWalFilesBestEffort.
    rewrite !remove_where_lookup, Heff, !andb_true_r. destruct (fs !! path) as [f|] eqn:E; [|by repeat case_match].
    destruct (Hlist path) as [H1 H2]; [by rewrite E|]. rewrite !bool_decide_true by done. simpl.
    destruct Hob as [-> | ->]; by repeat case_match.
Qed.

Lemma cleanup_keeps_live_witness :
  let fs := {["/db/000003.log" := mkLogFile [] 0]} : Directory in
  let m := mkManifestState 0 4 (mkLevels [] [] []) in
  removeObsoleteSSTableFilesBestEffort None (fun _ => true) ["/db/000003.log"] m
    (removeObsoleteWalFilesBestEffort None (fun _ => true) ["/db/000003.log"] 4 fs) !! "/db/000003.log" = None.
Proof.
  intros fs m. destruct (cleanup_keeps_live "/db" None None (fun _ => true) ["/db/000003.log"] ["/db/000003.log"] 4 m fs) as (_ & _ & _ & _ & Hall).
  apply Hall; [done|done|done| |by left; vm_compute].
  intros path [f Hf]. unfold fs in Hf. destruct (decide (path = "/db/000003.log")) as [->|]; [split; set_solver|]. by rewrite lookup_singleton_ne in Hf.
Defined.

(** C32. The database lock is exclusive: while any descriptor holds it, acquiring
    it fails, changes no lock and leaks no descriptor; a success means nobody
    held it and the returned lock now does, and releasing that lock frees it. *)
Theorem database_lock_exclusive strerror env directory lock k lock' k' st :
  acquireDatabaseLock strerror env directory lock k = (lock', k', st) ->
  (forall fd, le_open env = inr fd -> 0 <= fd /\ fd ∉ open_fds k /\ fd <> fd_ lock) ->
  (ok st = false -> lock' = lock /\ k' = k) /\
  (ok st = true -> lock_holder k = None /\ lock_holder k' = Some (fd_ lock') /\ fd_ lock' ∈ open_fds k' /\
     lock_holder (snd (lock_reset lock' k')) = None) /\
  (lock_holder k <> None -> ok st = false).
Proof.
  unfold acquireDatabaseLock. intros Ha Hfd. destruct (le_open env) as [errno|fd]; [by simplify_eq|].
  destruct (Hfd fd eq_refl) as (Hpos & Hnew & Hne). destruct k as [fds holder]. cbn [open_fds lock_holder] in *.
  destruct (match holder with Some _ => _ | None => _ end) as [saved|] eqn:Eans.
  - assert (mkLockFile (({[fd]} ∪ fds) ∖ {[fd]}) holder = mkLockFile fds holder) as Hk by (f_equal; set_solver).
    destruct (saved =? EWOULDBLOCK); simplify_eq; by rewrite Hk.
  - destruct holder as [h|]; [done|]. unfold lock_assign, lock_reset in Ha. cbn [fd_ open_fds lock_holder] in Ha.
    destruct (Z.ltb_spec (fd_ lock) 0); simplify_eq; cbn [fd_ open_fds lock_holder];
      [|rewrite bool_decide_false by congruence]; (split_and!; [done| |done]); intros _; (split_and!; [done|done|set_solver|]);
      unfold lock_reset; cbn [fd_ open_fds lock_holder]; (destruct (Z.ltb_spec fd 0); [lia|]); cbn [snd lock_holder]; by rewrite bool_decide_true.
Qed.

Lemma database_lock_exclusive_witness :
  let k := mkLockFile {[3]} (Some 3) in
  let '(lock', k', st) := acquireDatabaseLock (fun _ => "") (mkLockEnv (inr 4) None) "/db" emptyFileLock k in
  lock' = emptyFileLock /\ k' = k /\ ok st = false.
Proof.
  intros k. destruct (acquireDatabaseLock _ _ _ _ _) as [[lock' k'] st] eqn:E.
  destruct (database_lock_exclusive (fun _ => "") (mkLockEnv (inr 4) None) "/db" emptyFileLock k lock' k' st E) as (H1 & _ & H3).
  - intros fd [= <-]. split_and!; [lia|unfold k; set_solver|done].
  - assert (ok st = false) as Hst by (by apply H3). destruct (H1 Hst) as [-> ->]. done.
Defined.
