(* ===== verification/Version.v ===== *)
(** The published disk state (src/db/version.cc): tables by level, opened from
    a manifest, searched newest first, and replaced by flush and compaction. *)
From S2P Require Import Prelude Posix Status Coding InternalKey Mvcc SSTableBuilder Iterator SSTableReader Filename Level Manifest DbFiles.

(** [struct Version::Table] and [class Version]. *)
Record Table := mkTable { t_meta : TableMeta; t_reader : SSTableReader }.
Notation Version := (Levels Table).

Definition userKey (internal_key : bytes) : option bytes :=
  parsed ← parseInternalKey internal_key; Some (user_key parsed).

(** ** Opening *)

(** The answers while opening one table: [exists], [file_size], [::open],
    [::fstat] and the reads. *)
Record OpenEnv := mkOpenEnv {
  oe_exists : option Z;
  oe_size : option Z;
  oe_open : option Z;
  oe_stat : option Z;
  oe_reads : list read_event;
}.

Definition os_open (env : OpenEnv) (path : string) (fs : Directory) : os_file :=
  match fs !! path, oe_open env with
  | None, errno => OpenErrno (default ENOENT errno)
  | Some _, Some errno => OpenErrno errno
  | Some f, None =>
      match oe_stat env with
      | Some errno => StatErrno errno
      | None => OpenedFile true (len (contents f)) (contents f)
      end
  end.

Section opening.
Context (strerror : Z -> string).

Definition openTable (env : OpenEnv) (directory : string) (meta : TableMeta) (fs : Directory) : option (result Table) :=
  let path := sstableFileName directory (tm_number meta) in
  match oe_exists env with
  | Some error => Some (Err (filesystemError strerror "stat" path error))
  | None =>
      match fs !! path with
      | None => Some (Err (corruption ("manifest references a missing SSTable: " +:+ path)))
      | Some f =>
          match oe_size env with
          | Some error => Some (Err (filesystemError strerror "stat" path error))
          | None =>
              if negb (len (contents f) =? tm_file_size meta)
              then Some (Err (corruption ("SSTable size does not match manifest: " +:+ path)))
              else
                r ← sst_open (mkReadEnv (oe_reads env) strerror) path (os_open env path fs);
                Some (match r with Ok reader => Ok (mkTable meta reader) | Err status => Err status end)
          end
      end
  end.

(** [envs] answers for each table. *)
Fixpoint openLevel (envs : TableMeta -> OpenEnv) (directory : string) (descriptors : list TableMeta) (fs : Directory) :
    option (result (list Table)) :=
  match descriptors with
  | [] => Some (Ok [])
  | descriptor :: descriptors =>
      r ← openTable (envs descriptor) directory descriptor fs;
      match r with
      | Err status => Some (Err status)
      | Ok table =>
          r ← openLevel envs directory descriptors fs;
          Some (match r with Ok tables => Ok (table :: tables) | Err status => Err status end)
      end
  end.

Definition version_open (envs : TableMeta -> OpenEnv) (directory : string) (manifest : ManifestState) (fs : Directory) :
    option (result Version) :=
  r ← openLevel envs directory (level0 (mf_levels manifest)) fs;
  match r with
  | Err status => Some (Err status)
  | Ok tables0 =>
      r ← openLevel envs directory (level1 (mf_levels manifest)) fs;
      match r with
      | Err status => Some (Err status)
      | Ok tables1 =>
          r ← openLevel envs directory (level2 (mf_levels manifest)) fs;
          match r with
          | Err status => Some (Err status)
          | Ok tables2 => Some (Ok (mkLevels tables0 tables1 tables2))
          end
      end
  end.

End opening.

(** ** Point lookups *)

(** The search stops at the first table that fails or knows the key. *)
Definition get_then (r : result LookupResult) (rest : option (result LookupResult)) : option (result LookupResult) :=
  match r with
  | Ok LookupAbsent => rest
  | r => Some r
  end.

(** [env] answers the reads of each table. *)
Fixpoint get_level0 (env : Table -> ReadEnv) (verify : bool) (tables : list Table) (key : bytes) (seq : Z) :
    option (result LookupResult) :=
  match tables with
  | [] => Some (Ok LookupAbsent)
  | table :: tables =>
      r ← sst_get (env table) (t_reader table) verify key seq;
      get_then r (get_level0 env verify tables key seq)
  end.

(** The only table of a sorted level that can hold [key]. *)
Definition level_candidate (tables : list Table) (key : bytes) : option (option Table) :=
  i ← lower_bound (fun t => k ← userKey (tm_largest (t_meta t)); Some (bytes_ltb k key)) tables;
  match tables !! i with
  | None => Some None
  | Some t =>
      k ← userKey (tm_smallest (t_meta t));
      Some (if bytes_ltb key k then None else Some t)
  end.

Fixpoint get_sorted (env : Table -> ReadEnv) (verify : bool) (levels : list (list Table)) (key : bytes) (seq : Z) :
    option (result LookupResult) :=
  match levels with
  | [] => Some (Ok LookupAbsent)
  | tables :: levels =>
      c ← level_candidate tables key;
      match c with
      | None => get_sorted env verify levels key seq
      | Some table =>
          r ← sst_get (env table) (t_reader table) verify key seq;
          get_then r (get_sorted env verify levels key seq)
      end
  end.

Definition version_get (env : Table -> ReadEnv) (v : Version) (verify : bool) (key : bytes) (seq : Z) :
    option (result LookupResult) :=
  r ← get_level0 env verify (level0 v) key seq;
  get_then r (get_sorted env verify [level1 v; level2 v] key seq).

(** ** Successor versions *)

Definition withLevel0Table (v : Version) (meta : TableMeta) (reader : SSTableReader) : Version :=
  mkLevels (mkTable meta reader :: level0 v) (level1 v) (level2 v).

Definition withCompaction (v : Version) (input_level : nat) (inputs overlaps : IndexRange) (outputs : list Table) :
    option Version :=
  _ ← assert_that (input_level + 1 <? kNumLevels)%nat;
  _ ← assert_that (ir_begin inputs <? ir_end inputs)%nat;
  source ← level_at v input_level;
  _ ← assert_that (ir_end inputs <=? length source)%nat;
  _ ← assert_that (ir_begin overlaps <=? ir_end overlaps)%nat;
  target ← level_at v (input_level + 1);
  _ ← assert_that (ir_end overlaps <=? length target)%nat;
  Some (compact_levels v input_level inputs overlaps outputs).

(** ** What a version serves *)

Definition uk (internal_key : bytes) : bytes := strip_tag internal_key.

(** A table of the version: its reader serves [es] and its metadata bound them. *)
Record serves (t : Table) (es : list entry) : Prop := {
  sv_reader : opened_table es (t_reader t);
  sv_nonempty : es <> [];
  sv_smallest : tm_smallest (t_meta t) = match es with e :: _ => e.1 | [] => [] end;
  sv_largest : tm_largest (t_meta t) = final_key es;
}.

(** All user keys of [a] lie before those of [b]. *)
Definition keys_before (a b : list entry) : Prop :=
  forall e e', e ∈ a -> e' ∈ b -> bytes_ltb (uk e.1) (uk e'.1) = true.

(** Tables related by [P] to the runs [R], level by level; below level 0 the
    runs are in key order. *)
Record levels_hold {A} (P : A -> list entry -> Prop) (ls : Levels A) (R : Levels (list entry)) : Prop := {
  lh_level0 : Forall2 P (level0 ls) (level0 R);
  lh_level1 : Forall2 P (level1 ls) (level1 R);
  lh_level2 : Forall2 P (level2 ls) (level2 R);
  lh_sorted1 : StronglySorted keys_before (level1 R);
  lh_sorted2 : StronglySorted keys_before (level2 R);
}.
Notation version_holds := (levels_hold serves).

(** The layers of a version, newest first. *)
Definition version_layers (R : Levels (list entry)) : list (list entry) :=
  level0 R ++ [concat (level1 R); concat (level2 R)].

(** ** User keys of sorted runs *)

Lemma parse_uk k p : parseInternalKey k = Some p -> user_key p = uk k.
Proof.
  intros Hp. pose proof (parse_len _ _ Hp) as Hl. unfold parseInternalKey in Hp.
  destruct (Z.ltb_spec (len k) kTagSize); [lia|]. cbv zeta in Hp. destruct (isValidValueType _); by simplify_eq.
Qed.

Lemma entry_lt_uk a b : InternalKeyLess a b = true -> bytes_ltb (uk b) (uk a) = false.
Proof.
  unfold InternalKeyLess, uk. destruct (bytes_compare_spec (strip_tag a) (strip_tag b)) as [|E|]; try done.
  intros _. rewrite E. apply bytes_ltb_irrefl.
Qed.

Lemma first_uk e es x : sorted_run (e :: es) -> x ∈ e :: es -> bytes_ltb (uk x.1) (uk e.1) = false.
Proof.
  intros (_ & Hlt & _)%sorted_run_cons Hx. apply elem_of_cons in Hx as [->|Hx]; [apply bytes_ltb_irrefl|].
  rewrite Forall_elem in Hlt. by apply entry_lt_uk, Hlt.
Qed.

Lemma final_uk es x : sorted_run es -> x ∈ es -> bytes_ltb (uk (final_key es)) (uk x.1) = false.
Proof. intros Hr Hx. destruct (final_key_max es x Hr Hx) as [->|Hlt]; [apply bytes_ltb_irrefl|by apply entry_lt_uk]. Qed.

Lemma candidate_other_uk e key seq : uk e.1 <> key -> candidate key seq e = None.
Proof.
  intros Hne. destruct (candidate key seq e) as [c|] eqn:E; [|done]. apply candidate_Some in E as (p & Hp & Hk & _).
  apply parse_uk in Hp. congruence.
Qed.

(** A lookup only depends on the entries of its key. *)
Lemma mvcc_get_absent es key seq : (forall e, e ∈ es -> uk e.1 <> key) -> mvcc_get es key seq = LookupAbsent.
Proof. intros Hne. apply mvcc_get_none. rewrite Forall_elem. intros e He. apply candidate_other_uk. by apply Hne. Qed.

Lemma mvcc_get_app_r a b key seq : (forall e, e ∈ a -> uk e.1 <> key) -> mvcc_get (a ++ b) key seq = mvcc_get b key seq.
Proof.
  intros Hne. unfold mvcc_get. rewrite mvcc_newest_app, (mvcc_newest_none a); [done|].
  rewrite Forall_elem. intros e He. apply candidate_other_uk. by apply Hne.
Qed.

Lemma mvcc_get_app_l a b key seq : (forall e, e ∈ b -> uk e.1 <> key) -> mvcc_get (a ++ b) key seq = mvcc_get a key seq.
Proof.
  intros Hne. unfold mvcc_get. rewrite mvcc_newest_app, (mvcc_newest_none b); [by rewrite newer_None_r|].
  rewrite Forall_elem. intros e He. apply candidate_other_uk. by apply Hne.
Qed.

(** ** The candidate table of a sorted level *)

Section serving.

Lemma serves_run t es : serves t es -> sorted_run es.
Proof. intros [Hr _ _ _]. by apply opened_table_run in Hr. Qed.

Lemma serves_keys t es : serves t es ->
  userKey (tm_smallest (t_meta t)) = Some (uk (tm_smallest (t_meta t))) /\
  userKey (tm_largest (t_meta t)) = Some (uk (tm_largest (t_meta t))).
Proof.
  intros Hs. pose proof (serves_run _ _ Hs) as [_ Hv]. destruct Hs as [_ Hne Hsm Hla]. rewrite Hsm, Hla. unfold userKey.
  destruct (final_key_valid es Hne Hv) as [q Hq]. destruct es as [|e es]; [done|]. apply Forall_cons_iff in Hv as [[p Hp] _].
  rewrite Hp, Hq. cbn [mbind option_bind]. by rewrite (parse_uk _ _ Hp), (parse_uk _ _ Hq).
Qed.

Lemma serves_bounds t es e : serves t es -> e ∈ es ->
  bytes_ltb (uk e.1) (uk (tm_smallest (t_meta t))) = false /\ bytes_ltb (uk (tm_largest (t_meta t))) (uk e.1) = false.
Proof.
  intros Hs He. pose proof (serves_run _ _ Hs) as Hr. destruct Hs as [_ Hne Hsm Hla]. rewrite Hsm, Hla.
  split; [|by apply final_uk]. destruct es as [|x es]; [done|]. by apply first_uk with es.
Qed.

Lemma serves_ends t es : serves t es ->
  (exists e, e ∈ es /\ e.1 = tm_smallest (t_meta t)) /\ (exists e, e ∈ es /\ e.1 = tm_largest (t_meta t)).
Proof.
  intros [_ Hne Hsm Hla]. rewrite Hsm, Hla. split.
  - destruct es as [|x es]; [done|]. exists x. set_solver.
  - destruct (final_key_in es Hne) as [v Hv]. by exists (final_key es, v).
Qed.

Definition table_below (key : bytes) (t : Table) : bool := bytes_ltb (uk (tm_largest (t_meta t))) key.

Lemma keys_before_tables t es t' es' : serves t es -> serves t' es' -> keys_before es es' ->
  bytes_ltb (uk (tm_largest (t_meta t))) (uk (tm_smallest (t_meta t'))) = true.
Proof.
  intros Hs Hs' Hb. destruct (serves_ends _ _ Hs) as [_ (e & He & <-)], (serves_ends _ _ Hs') as [(e' & He' & <-) _]. by apply Hb.
Qed.

Lemma smallest_largest t es : serves t es -> bytes_ltb (uk (tm_largest (t_meta t))) (uk (tm_smallest (t_meta t))) = false.
Proof. intros Hs. destruct (serves_ends _ _ Hs) as [(e & He & <-) _]. by apply (serves_bounds t es). Qed.

Lemma below_partition key tables runs :
  Forall2 serves tables runs -> StronglySorted keys_before runs -> Forall (fun t => table_below key t = false) (dropwhile (table_below key) tables).
Proof.
  induction 1 as [|t es tables runs Ht Hts IH]; intros Hs; [constructor|]. inversion Hs as [|? ? Hs' Hlt]; subst.
  simpl. destruct (table_below key t) eqn:Eb; [by apply IH|]. constructor; [done|]. clear IH Hs Hs'.
  induction Hts as [|t' es' tables runs Ht' _ IH]; [constructor|]. apply Forall_cons_iff in Hlt as [Hb Hlt].
  constructor; [|by apply IH]. unfold table_below in *. destruct (bytes_ltb (uk (tm_largest (t_meta t'))) key) eqn:E; [|done].
  pose proof (keys_before_tables _ _ _ _ Ht Ht' Hb). pose proof (smallest_largest _ _ Ht').
  assert (bytes_ltb (uk (tm_largest (t_meta t))) (uk (tm_largest (t_meta t'))) = true) by (by eapply bytes_ltb_leb_trans).
  by rewrite (bytes_ltb_trans (uk (tm_largest (t_meta t))) (uk (tm_largest (t_meta t'))) key) in Eb.
Qed.

Lemma level_candidate_eq key tables runs :
  Forall2 serves tables runs -> StronglySorted keys_before runs ->
  level_candidate tables key =
  Some match dropwhile (table_below key) tables with
       | [] => None
       | t :: _ => if bytes_ltb key (uk (tm_smallest (t_meta t))) then None else Some t
       end.
Proof.
  intros Hts Hs. unfold level_candidate. rewrite (lower_bound_spec _ (table_below key)); [|..|by apply below_partition with runs].
  - cbn [mbind option_bind]. pose proof (takewhile_dropwhile (table_below key) tables) as Htd.
    destruct (dropwhile (table_below key) tables) as [|t rest] eqn:Ed.
    + rewrite app_nil_r in Htd. rewrite Htd. by rewrite (lookup_ge_None_2 tables).
    + assert (tables !! length (takewhile (table_below key) tables) = Some t) as ->.
      { rewrite <- Htd at 2. rewrite <- Ed. by rewrite Ed, list_lookup_middle. }
      assert (t ∈ tables) as Hin by (rewrite <- Htd; set_solver). apply list_elem_of_lookup in Hin as [i Hi].
      destruct (Forall2_lookup_l _ _ _ _ _ Hts Hi) as (es & _ & Hse). destruct (serves_keys _ _ Hse) as [-> _]. done.
  - rewrite Forall_elem. intros t Hin. apply list_elem_of_lookup in Hin as [i Hi].
    destruct (Forall2_lookup_l _ _ _ _ _ Hts Hi) as (es & _ & Hse). destruct (serves_keys _ _ Hse) as [_ ->]. done.
Qed.

(** The candidate answers for the whole level. *)
Lemma level_candidate_spec key seq tables runs :
  Forall2 serves tables runs -> StronglySorted keys_before runs ->
  exists c, level_candidate tables key = Some c /\
    match c with
    | None => mvcc_get (concat runs) key seq = LookupAbsent
    | Some t => exists es, t ∈ tables /\ serves t es /\ mvcc_get (concat runs) key seq = mvcc_get es key seq
    end.
Proof.
  intros Hts Hs. rewrite (level_candidate_eq key tables runs Hts Hs). eexists. split; [done|].
  induction Hts as [|t es tables runs Ht Hts IH]; [done|]. inversion Hs as [|? ? Hs' Hlt]; subst. cbn [dropwhile concat].
  destruct (table_below key t) eqn:Eb.
  - rewrite mvcc_get_app_r.
    2:{ intros e He <-. unfold table_below in Eb. by rewrite (proj2 (serves_bounds _ _ _ Ht He)) in Eb. }
    specialize (IH Hs'). destruct (match dropwhile (table_below key) tables with [] => _ | _ => _ end); [|done].
    destruct IH as (es' & ? & ? & ?). exists es'. split_and!; [set_solver|done|done].
  - assert (forall e, e ∈ concat runs -> uk e.1 <> key) as Hrest.
    { intros e He Heq. apply list_elem_of_In, in_concat in He as (es' & Hin & He). apply list_elem_of_In in Hin, He.
      rewrite Forall_elem in Hlt. specialize (Hlt _ Hin). destruct (serves_ends _ _ Ht) as [_ (x & Hx & Hxk)].
      specialize (Hlt x e Hx He). unfold table_below in Eb. rewrite Hxk, Heq in Hlt. congruence. }
    destruct (bytes_ltb key (uk (tm_smallest (t_meta t)))) eqn:Ek.
    + apply mvcc_get_absent. intros e He Heq. apply elem_of_app in He as [He|He]; [|by apply (Hrest e)].
      apply (serves_bounds _ _ _ Ht) in He as [He _]. congruence.
    + exists es. split_and!; [set_solver|done|by apply mvcc_get_app_l].
Qed.

(** ** Lookups *)

Context (env : Table -> ReadEnv).

(** The reads are at most shortened or interrupted. *)
Definition benign_reads : Prop := forall t, Forall benign_read (re_events (env t)).

Notation answered := (fun res r => returns benign_reads (eq r) res).

Lemma get_then_answered verify t es key seq rest r :
  serves t es -> 0 <= seq <= kMaxSequenceNumber -> answered rest r ->
  answered (x ← sst_get (env t) (t_reader t) verify key seq; get_then x rest)
    (match mvcc_get es key seq with LookupAbsent => r | x => x end).
Proof.
  intros Ht Hseq Hr. destruct (opened_table_get_any (env t) (t_reader t) es verify key seq (sv_reader _ _ Ht) Hseq) as (x & Hx & Hc).
  rewrite Hx. cbn [mbind option_bind]. destruct Hc as [->|(st & -> & Hst & _)]; simpl.
  - destruct (mvcc_get es key seq); [done|..]; by eexists.
  - eexists. split; [done|]. split; [done|]. intros Hb. specialize (Hb t).
    rewrite (opened_table_get (env t) _ es) in Hx by (done || apply Ht). done.
Qed.

Lemma get_level0_spec verify key seq tables runs :
  Forall2 serves tables runs -> 0 <= seq <= kMaxSequenceNumber ->
  answered (get_level0 env verify tables key seq) (first_answer (map (fun l => mvcc_get l key seq) runs)).
Proof.
  intros Hts Hseq. induction Hts as [|t es tables runs Ht _ IH]; [by eexists|]. cbn [get_level0 map first_answer].
  pose proof (get_then_answered verify t es key seq _ _ Ht Hseq IH). by destruct (mvcc_get es key seq).
Qed.

Lemma get_sorted_spec verify key seq levels runss :
  Forall2 (Forall2 serves) levels runss -> Forall (StronglySorted keys_before) runss -> 0 <= seq <= kMaxSequenceNumber ->
  answered (get_sorted env verify levels key seq) (first_answer (map (fun runs => mvcc_get (concat runs) key seq) runss)).
Proof.
  intros Hls Hs Hseq. induction Hls as [|tables runs levels runss Ht _ IH]; [by eexists|].
  apply Forall_cons_iff in Hs as [Hs1 Hs]. specialize (IH Hs). cbn [get_sorted map first_answer].
  destruct (level_candidate_spec key seq tables runs Ht Hs1) as (c & -> & Hc). cbn [mbind option_bind].
  destruct c as [t|]; [|by rewrite Hc]. destruct Hc as (es & _ & Hse & ->).
  pose proof (get_then_answered verify t es key seq _ _ Hse Hseq IH). by destruct (mvcc_get es key seq).
Qed.

Lemma first_answer_app a b : first_answer (a ++ b) = match first_answer a with LookupAbsent => first_answer b | r => r end.
Proof. induction a as [|[] a IH]; done. Qed.

Lemma version_get_spec v R verify key seq :
  version_holds v R -> layers_ok (version_layers R) -> 0 <= seq <= kMaxSequenceNumber ->
  answered (version_get env v verify key seq) (mvcc_get (concat (version_layers R)) key seq).
Proof.
  intros [H0 H1 H2 Hs1 Hs2] Hl Hseq. rewrite layers_get by done. unfold version_layers. rewrite map_app, first_answer_app.
  unfold version_get. destruct (get_level0_spec verify key seq _ _ H0 Hseq) as (x & -> & Hx). cbn [mbind option_bind].
  pose proof (get_sorted_spec verify key seq [level1 v; level2 v] [level1 R; level2 R]
    ltac:(by repeat constructor) ltac:(by repeat constructor) Hseq) as Hg.
  destruct x as [x|st]; [subst x|by eexists].
  unfold get_then. destruct (first_answer (map _ (level0 R))); [exact Hg|..]; by eexists.
Qed.

(** A lookup that fails never looks like one that finds nothing. *)
Lemma get_then_error verify t es key seq x rest st : serves t es -> 0 <= seq <= kMaxSequenceNumber -> sst_get (env t) (t_reader t) verify key seq = Some x ->
  get_then x rest = Some (Err st) -> isNotFound st = false \/ rest = Some (Err st).
Proof.
  intros Ht Hseq Hx Hr. destruct (opened_table_get_any (env t) (t_reader t) es verify key seq (sv_reader _ _ Ht) Hseq) as (x' & Hx' & Hc). rewrite Hx in Hx'. injection Hx' as <-.
  destruct Hc as [->|(st' & -> & _ & Hst)]; [|injection Hr as <-; by left]. right. unfold get_then in Hr. by destruct (mvcc_get es key seq).
Qed.

Lemma version_get_error v R verify key seq st : version_holds v R -> 0 <= seq <= kMaxSequenceNumber -> version_get env v verify key seq = Some (Err st) -> isNotFound st = false.
Proof.
  intros [H0 H1 H2 Hs1 Hs2] Hseq Hg. unfold version_get in Hg. apply bind_Some in Hg as (r & Hr & Hg).
  assert (get_level0 env verify (level0 v) key seq = Some (Err st) \/ get_sorted env verify [level1 v; level2 v] key seq = Some (Err st)) as [He|He].
  { unfold get_then in Hg. destruct r as [[]|st']; [by right|done..|left; congruence]. }
  - clear Hg Hr. revert He. induction H0 as [|t es tables runs Ht _ IH]; [done|]. cbn [get_level0]. intros He. apply bind_Some in He as (x & Hx & He).
    by destruct (get_then_error _ _ _ _ _ _ _ _ Ht Hseq Hx He) as [|?%IH].
  - clear Hg Hr. assert (Forall2 (Forall2 serves) [level1 v; level2 v] [level1 R; level2 R]) as Hls by (by repeat constructor).
    assert (Forall (StronglySorted keys_before) [level1 R; level2 R]) as Hs by (by repeat constructor). revert He Hs.
    induction Hls as [|tables runs levels runss Ht _ IH]; [done|]. cbn [get_sorted]. intros He Hs. apply Forall_cons_iff in Hs as [Hs1' Hs].
    destruct (level_candidate_spec key seq tables runs Ht Hs1') as (c & Hc & Hcs). rewrite Hc in He. cbn [mbind option_bind] in He. destruct c as [t|]; [|by apply IH].
    destruct Hcs as (es & _ & Hse & _). apply bind_Some in He as (x & Hx & He). destruct (get_then_error _ _ _ _ _ _ _ _ Hse Hseq Hx He) as [|?]; [done|by apply IH].
Qed.
End serving.

(** ** From the files to the version *)

(** The complete, durable file of one manifest entry. *)
Record stored (directory : string) (fs : Directory) (meta : TableMeta) (es : list entry) : Prop := {
  sd_file : exists c, fs !! sstableFileName directory (tm_number meta) = Some (mkLogFile c (length c)) /\
              table_of es c /\ tm_file_size meta = len c;
  sd_run : sorted_run es;
  sd_nonempty : es <> [];
  sd_smallest : tm_smallest meta = match es with e :: _ => e.1 | [] => [] end;
  sd_largest : tm_largest meta = final_key es;
}.

Lemma sstableFileName_nonempty directory n : sstableFileName directory n <> "".
Proof.
  intros E. apply (f_equal to_chars) in E. unfold sstableFileName in E.
  destruct (path_append_split directory (numberedName n sstable_suffix)) as (before & Hb & _). rewrite Hb in E.
  unfold numberedName in E. by destruct before, (if len (decimal n) <? 6 then _ else _).
Qed.

Section open_spec.
Context (strerror : Z -> string).

(** The answers of the system while a table is opened are at worst interruptions. *)
Definition open_benign (env : OpenEnv) : Prop :=
  oe_exists env = None /\ oe_size env = None /\ oe_open env = None /\ oe_stat env = None /\ Forall benign_read (oe_reads env).

(** Opening a complete table file. *)
Lemma reader_opens env path fs es c d :
  path <> "" -> fs !! path = Some (mkLogFile c d) -> sorted_run es -> table_of es c ->
  returns (open_benign env) (opened_table es) (sst_open (mkReadEnv (oe_reads env) strerror) path (os_open env path fs)).
Proof.
  intros Hp Hf Hr Ht. unfold os_open. rewrite Hf. simpl contents.
  destruct (sst_open_table_any (mkReadEnv (oe_reads env) strerror) path es c
    (match oe_open env with Some errno => OpenErrno errno | None => match oe_stat env with Some errno => StatErrno errno
       | None => OpenedFile true (len c) c end end)) as (res & Hres & Hc); [done|done|done| |].
  { destruct (oe_open env); [right; left; by eexists|]. destruct (oe_stat env); [right; right; by eexists|by left]. }
  exists res. split; [by destruct (oe_open env)|]. destruct res as [r|st]; [done|]. split; [done|].
  intros (_ & _ & Ho & Hst & Hb). rewrite Ho, Hst in Hres.
  destruct (sst_open_table (mkReadEnv (oe_reads env) strerror) path es c Hp Hb Hr Ht) as (r & Hr' & _). congruence.
Qed.

Lemma openTable_spec env directory meta fs es :
  stored directory fs meta es ->
  returns (open_benign env) (fun t => t_meta t = meta /\ serves t es) (openTable strerror env directory meta fs).
Proof.
  intros [(c & Hf & Ht & Hsz) Hr Hne Hsm Hla]. unfold openTable, returns. rewrite Hf.
  destruct (oe_exists env) eqn:E1; [eexists; split; [done|]; split; [done|]; intros (? & _); congruence|].
  destruct (oe_size env) eqn:E2; [eexists; split; [done|]; split; [done|]; intros (_ & ? & _); congruence|].
  rewrite Hsz, Z.eqb_refl. cbn [negb].
  destruct (reader_opens env _ fs es c _ (sstableFileName_nonempty directory (tm_number meta)) Hf Hr Ht) as (res & -> & Hres).
  cbn [mbind option_bind]. eexists. split; [done|]. by destruct res.
Qed.

Lemma openLevel_spec envs directory fs metas runs :
  Forall2 (stored directory fs) metas runs ->
  returns (forall meta, open_benign (envs meta)) (fun ts => map t_meta ts = metas /\ Forall2 serves ts runs)
    (openLevel strerror envs directory metas fs).
Proof.
  induction 1 as [|meta es metas runs Hm _ IH]; [by eexists|]. cbn [openLevel]. unfold returns in *.
  destruct (openTable_spec (envs meta) _ _ _ _ Hm) as (r & -> & Hr). cbn [mbind option_bind].
  destruct r as [t|st]; [|eexists; split; [done|]; destruct Hr; auto].
  destruct Hr as [<- Hs]. destruct IH as (r & -> & Hr). cbn [mbind option_bind]. eexists. split; [done|].
  destruct r as [ts|st]; [|done]. destruct Hr as [<- ?]. split; [done|by constructor].
Qed.

Lemma version_open_spec envs directory fs m R :
  levels_hold (stored directory fs) (mf_levels m) R ->
  returns (forall meta, open_benign (envs meta)) (fun v => map_levels t_meta v = mf_levels m /\ version_holds v R)
    (version_open strerror envs directory m fs).
Proof.
  intros [H0 H1 H2 Hs1 Hs2]. unfold version_open, returns.
  destruct (openLevel_spec envs _ _ _ _ H0) as (r & -> & Hr). cbn [mbind option_bind]. destruct r as [t0|]; [|by eexists].
  destruct (openLevel_spec envs _ _ _ _ H1) as (r & -> & Hr1). cbn [mbind option_bind]. destruct r as [t1|]; [|by eexists].
  destruct (openLevel_spec envs _ _ _ _ H2) as (r & -> & Hr2). cbn [mbind option_bind]. destruct r as [t2|]; [|by eexists].
  destruct Hr as [E0 ?], Hr1 as [E1 ?], Hr2 as [E2 ?]. eexists. split; [done|]. simpl. split; [|by split].
  unfold map_levels. simpl. rewrite E0, E1, E2. by destruct (mf_levels m).
Qed.
End open_spec.

(** ** Successors keep what they hold *)

Section successors.
Context {A : Type} (P : A -> list entry -> Prop).

Lemma levels_hold_at ls R i : levels_hold P ls R -> Forall2 P (default [] (level_at ls i)) (default [] (level_at R i)).
Proof. intros []. by destruct i as [|[|[|]]]; simpl; [..|constructor]. Qed.

Lemma splice_hold ts runs range ts' runs' :
  Forall2 P ts runs -> Forall2 P ts' runs' -> Forall2 P (splice ts range ts') (splice runs range runs').
Proof. intros H1 H2. unfold splice. auto using Forall2_app, Forall2_take, Forall2_drop. Qed.

Lemma compact_hold ls R i inputs overlaps outputs outs :
  levels_hold P ls R -> Forall2 P outputs outs ->
  let R' := compact_levels R i inputs overlaps outs in
  StronglySorted keys_before (level1 R') -> StronglySorted keys_before (level2 R') ->
  levels_hold P (compact_levels ls i inputs overlaps outputs) R'.
Proof.
  intros Hh Ho R' H1 H2. pose proof (levels_hold_at _ _ i Hh) as Hi. pose proof (levels_hold_at _ _ (i + 1) Hh) as Hj.
  apply (splice_hold _ _ inputs [] []) in Hi; [|constructor]. apply (splice_hold _ _ overlaps _ _ Hj) in Ho.
  destruct Hh. unfold R', compact_levels in *. split; [..|exact H1|exact H2].
  all: by destruct i as [|[|[|]]]; cbn [set_level level0 level1 level2 Nat.add] in *.
Qed.

End successors.

Lemma withLevel0Table_hold v R meta reader es :
  version_holds v R -> serves (mkTable meta reader) es ->
  version_holds (withLevel0Table v meta reader) (mkLevels (es :: level0 R) (level1 R) (level2 R)).
Proof. intros [] Hs. by split; simpl; [constructor|..]. Qed.

(** C25. Looking up a key in the tables of a database: when the tables of a
    manifest are complete on disk, opening them gives a version, or an error
    that only a failing system call can cause; and every lookup in that version
    returns what the multi-version specification says of all the entries
    together, or an error that only a failing read can cause. *)
Theorem version_serves_manifest strerror envs directory manifest fs R env verify key seq :
  levels_hold (stored directory fs) (mf_levels manifest) R -> layers_ok (version_layers R) ->
  0 <= seq <= kMaxSequenceNumber ->
  returns (forall meta, open_benign (envs meta))
    (fun v => returns (benign_reads env) (eq (mvcc_get (concat (version_layers R)) key seq)) (version_get env v verify key seq))
    (version_open strerror envs directory manifest fs).
Proof.
  intros Hh Hl Hseq. destruct (version_open_spec strerror envs directory fs manifest R Hh) as (r & -> & Hr).
  exists r. split; [done|]. destruct r as [v|]; [|done]. destruct Hr as [_ Hv]. by apply version_get_spec.
Qed.

(** A directory with one table, at level 1. *)
Definition sample_file : bytes := contents (tb_file sample_built).
Definition sample_table_meta : TableMeta :=
  mkTableMeta 3 (len sample_file) (encodeInternalKey [x61] 7 kValue) (final_key sample_run).
Definition sample_directory : Directory := {[ sstableFileName "db" 3 := mkLogFile sample_file (length sample_file) ]}.
Definition sample_manifest : ManifestState := mkManifestState 7 1 (mkLevels [] [sample_table_meta] []).

Lemma Some_pair_inj {A B} (a a' : A) (b b' : B) : Some (a, b) = Some (a', b') -> a = a' /\ b = b'.
Proof. by intros [= -> ->]. Qed.

Lemma sample_stored : stored "db" sample_directory sample_table_meta sample_run.
Proof.
  split; [|exact sample_run_sorted|discriminate|exact eq_refl|exact eq_refl].
  exists sample_file. split; [apply lookup_singleton_eq|]. split; [|cbn [tm_file_size sample_table_meta]; reflexivity]. unfold sample_file.
  destruct (build_table_spec (fun _ => "") sample_builder sample_run) as (b & res & Hb & Hres);
    [apply (tb_open_inv (fun _ => "") "t" 40 2 sample_env sample_builder); reflexivity|exact sample_run_sorted|by vm_compute|].
  rewrite sample_table_built in Hb. apply Some_pair_inj in Hb as [<- <-]. apply Hres.
Qed.

Lemma version_serves_manifest_witness :
  returns (forall meta : TableMeta, open_benign (mkOpenEnv None None None None []))
    (fun v => returns (benign_reads (fun _ => sample_reads)) (eq (mvcc_get (concat [sample_run; []]) [x61] 6))
                (version_get (fun _ => sample_reads) v true [x61] 6))
    (version_open (fun _ => "") (fun _ => mkOpenEnv None None None None []) "db" sample_manifest sample_directory).
Proof.
  apply (version_serves_manifest (fun _ => "") (fun _ => mkOpenEnv None None None None []) "db" sample_manifest sample_directory
    (mkLevels [] [sample_run] []) (fun _ => sample_reads) true [x61] 6).
  - split; [constructor|constructor; [exact sample_stored|constructor]|constructor|repeat constructor|constructor].
  - unfold layers_ok, version_layers. simpl. repeat constructor. intros e e' p p' _ He'. by apply elem_of_nil in He'.
  - unfold kMaxSequenceNumber. lia.
Defined.
