(* ===== verification/CompactionReads.v ===== *)
(** What compaction drops (the merge loop of src/db/compaction.cc) and why no
    read can tell: the entries kept from a sorted run, the lookups on them, and
    the levels before and after a compaction. *)
From S2P Require Import Prelude Status Coding InternalKey Mvcc SSTableBuilder Iterator SSTableReader MergingIterator DbIterator Level Manifest Version Compaction.

(** The entries the merge loop passes on, and its variables afterwards. *)
Fixpoint keep_entries (oldest_snapshot : Z) (d : DropState) (es : list entry) : option (list entry * DropState) :=
  match es with
  | [] => Some ([], d)
  | e :: es =>
      parsed ← parseInternalKey e.1;
      '(drop, d) ← drop_entry oldest_snapshot parsed d;
      '(kept, d) ← keep_entries oldest_snapshot d es;
      Some (if drop : bool then kept else e :: kept, d)
  end.

(** The same without the cursors: [base] is the base-level test. *)
Fixpoint compact_run (oldest : Z) (base : bytes -> bool) (cur : bytes) (last : Z) (es : list entry) : list entry :=
  match es with
  | [] => []
  | e :: es =>
      match parseInternalKey e.1 with
      | None => []
      | Some p =>
          let last := if bytes_eqb cur (user_key p) then last else kMaxSequenceNumber in
          let drop := (last <=? oldest) ||
                      (bool_decide (type p = kDeletion) && (sequence p <=? oldest) && base (user_key p)) in
          let kept := compact_run oldest base (user_key p) (sequence p) es in
          if drop then kept else e :: kept
      end
  end.

(** Whether one entry is dropped, with [base] in place of the cursors. *)
Definition dropped (oldest : Z) (base : bytes -> bool) (cur : bytes) (last : Z) (p : ParsedInternalKey) : bool :=
  ((if bytes_eqb cur (user_key p) then last else kMaxSequenceNumber) <=? oldest) ||
  (bool_decide (type p = kDeletion) && (sequence p <=? oldest) && base (user_key p)).

Lemma drop_entry_spec v R first oldest p d bound :
  version_holds v R -> (1 <= first)%nat -> checker_ok v first (base_level d) bound -> bytes_ltb (user_key p) bound = false ->
  exists c, drop_entry oldest p d =
      Some (dropped oldest (base_test v first) (current_user_key d) (last_sequence_for_key d) p, mkDropState (user_key p) (sequence p) c) /\
    checker_ok v first c (user_key p).
Proof.
  intros Hv H1 Hc Hk. unfold drop_entry, dropped. set (last := if bytes_eqb (current_user_key d) (user_key p) then _ else _).
  destruct (isBaseLevelForKey_spec v R first (base_level d) bound (user_key p)) as (c & Hb & Hc'); [done..|].
  pose proof (checker_ok_mono _ _ _ _ (user_key p) Hc Hk).
  destruct (last <=? oldest), (bool_decide (type p = kDeletion)), (sequence p <=? oldest); simpl; rewrite ?Hb; simpl; eauto.
Qed.

(** All entries come at or after [bound], the key last asked about. *)
Lemma keep_entries_spec v R first oldest es : forall d bound,
  version_holds v R -> (1 <= first)%nat -> checker_ok v first (base_level d) bound -> sorted_run es -> from_key bound es ->
  exists d', keep_entries oldest d es =
    Some (compact_run oldest (base_test v first) (current_user_key d) (last_sequence_for_key d) es, d').
Proof.
  induction es as [|e es IH]; intros d bound Hv H1 Hc Hs Hf; [by eexists|].
  destruct (proj1 (sorted_run_cons _ _) Hs) as ([p Hp] & _ & Hs'). cbn [keep_entries compact_run]. rewrite Hp. cbn [mbind option_bind].
  pose proof (sorted_from_key e p es Hs Hp) as Hfk. apply Forall_cons_iff in Hf as [Hbe Hf]. specialize (Hbe p Hp).
  destruct (drop_entry_spec v R first oldest p d bound Hv H1 Hc Hbe) as (c & -> & Hc'). cbn [mbind option_bind].
  destruct (IH (mkDropState (user_key p) (sequence p) c) (user_key p)) as (d' & ->); [done..|]. cbn [mbind option_bind].
  eexists. unfold dropped. by case_match.
Qed.

Lemma compact_run_sublist oldest base es : forall cur last, compact_run oldest base cur last es `sublist_of` es.
Proof.
  induction es as [|e es IH]; intros cur last; cbn [compact_run]; [constructor|].
  destruct (parseInternalKey e.1); [|apply sublist_nil_l]. case_match; [by apply sublist_cons|by apply sublist_skip].
Qed.

Lemma sorted_run_sublist es es' : es' `sublist_of` es -> sorted_run es -> sorted_run es'.
Proof.
  induction 1 as [|e es' es Hs IH|e es' es Hs IH]; intros Hr; [done|..]; apply sorted_run_cons in Hr as (Hv & Hlt & Hr).
  - apply sorted_run_cons. split_and!; [done| |by apply IH]. rewrite Forall_elem in Hlt |- *. intros x Hx.
    apply Hlt. by eapply elem_of_sublist.
  - by apply IH.
Qed.

(** Nothing of [key] is kept once a version at or below the oldest snapshot
    has been seen. *)
Lemma compact_run_rest oldest base es : forall e p,
  sorted_run (e :: es) -> parseInternalKey e.1 = Some p -> sequence p <= oldest ->
  forall x, x ∈ compact_run oldest base (user_key p) (sequence p) es -> uk x.1 <> user_key p.
Proof.
  induction es as [|e' es IH]; intros e p Hs Hp Ho x Hx; cbn [compact_run] in Hx; [by apply elem_of_nil in Hx|].
  destruct (proj1 (sorted_run_cons _ _) Hs) as (_ & Hlt & Hs'). destruct (proj1 (sorted_run_cons _ _) Hs') as ([q Hq] & _ & Hs'').
  rewrite Hq in Hx. apply Forall_cons_iff in Hlt as [Hlt _]. apply (entry_lt_parsed e e' p q) in Hlt; [|done..].
  unfold bytes_eqb in Hx. case_bool_decide as Hk.
  - destruct (Z.leb_spec (sequence p) oldest); [|lia]. cbn [orb] in Hx. rewrite Hk. apply (IH e' q Hs' Hq); [|done].
    apply parsed_ltb_tag in Hlt; [|done]. unfold tag_of in Hlt. pose proof (ValueType_value_range (type p)).
    pose proof (ValueType_value_range (type q)). lia.
  - assert (x ∈ e' :: es) as Hin.
    { case_match; [apply elem_of_cons; right|apply elem_of_cons in Hx as [->|Hx]; [by apply elem_of_cons; left|apply elem_of_cons; right]];
        (eapply elem_of_sublist; [exact Hx|apply compact_run_sublist]). }
    intros Heq. pose proof (first_uk e' es x Hs' Hin) as Hle.
    rewrite Heq, <- (parse_uk _ _ Hq) in Hle. apply parsed_ltb_user in Hlt. destruct Hk. by apply bytes_ltb_total.
Qed.

(** Lookups at or above the oldest snapshot see the same version, or a deletion
    has disappeared together with everything it hides. *)
Lemma compact_run_get oldest base es key seq : forall cur last,
  sorted_run es -> oldest < kMaxSequenceNumber -> oldest <= seq ->
  (cur = key -> oldest < last) ->
  let kept := compact_run oldest base cur last es in
  mvcc_get kept key seq = mvcc_get es key seq \/
  (mvcc_get kept key seq = LookupAbsent /\ mvcc_get es key seq = LookupDeleted /\ base key = true).
Proof.
  induction es as [|e es IH]; intros cur last Hs Hmax Hseq Hcur; [by left|]. cbn [compact_run].
  destruct (proj1 (sorted_run_cons _ _) Hs) as ([p Hp] & _ & Hs'). rewrite Hp.
  set (last' := if bytes_eqb cur (user_key p) then last else kMaxSequenceNumber).
  set (kept := compact_run oldest base (user_key p) (sequence p) es).
  destruct (decide (user_key p = key)) as [Hk|Hk].
  2:{ rewrite (mvcc_get_skip e) by (by apply candidate_above with p).
      specialize (IH (user_key p) (sequence p) Hs' Hmax Hseq ltac:(done)). fold kept in IH.
      case_match; [done|]. by rewrite (mvcc_get_skip e) by (by apply candidate_above with p). }
  assert (oldest < last') as Hlast.
  { unfold last', bytes_eqb. case_bool_decide as Hc; [apply Hcur; congruence|done]. }
  destruct (Z.leb_spec last' oldest); [lia|]. cbn [orb]. destruct (Z.le_gt_cases (sequence p) seq) as [Hv|Hv].
  - rewrite <- Hk, (mvcc_get_head e p) by done.
    assert (sorted_run (e :: kept)) as Hsk.
    { eapply sorted_run_sublist; [|exact Hs]. apply sublist_skip, compact_run_sublist. }
    destruct (bool_decide (type p = kDeletion)) eqn:Ed; cbn [andb]; [|left; by rewrite (mvcc_get_head e p)].
    destruct (Z.leb_spec (sequence p) oldest) as [Ho|Ho]; cbn [andb]; [|left; by rewrite (mvcc_get_head e p)].
    destruct (base (user_key p)); [|left; by rewrite (mvcc_get_head e p)]. right. apply bool_decide_eq_true in Ed. rewrite Ed.
    split_and!; [|done|done]. apply mvcc_get_absent. by apply (compact_run_rest oldest base es e p).
  - rewrite (mvcc_get_skip e) by (by apply candidate_hidden with p).
    specialize (IH (user_key p) (sequence p) Hs' Hmax Hseq ltac:(lia)). fold kept in IH.
    destruct (Z.leb_spec (sequence p) oldest); [lia|]. rewrite andb_false_r. cbn [andb].
    by rewrite (mvcc_get_skip e) by (by apply candidate_hidden with p).
Qed.

(** ** Layers *)

(** What a client of the database sees of a lookup. *)
Definition visible (r : LookupResult) : option bytes := match r with LookupValue value => Some value | _ => None end.

Lemma keys_before_sub a b a' b' : keys_before a b -> (forall e, e ∈ a' -> e ∈ a) -> (forall e, e ∈ b' -> e ∈ b) -> keys_before a' b'.
Proof. intros Hk Ha Hb e e' He He'. apply Hk; auto. Qed.

Lemma keys_before_app_l a a' b : keys_before (a ++ a') b <-> keys_before a b /\ keys_before a' b.
Proof. unfold keys_before. setoid_rewrite elem_of_app. naive_solver. Qed.
Lemma keys_before_app_r a b b' : keys_before a (b ++ b') <-> keys_before a b /\ keys_before a b'.
Proof. unfold keys_before. setoid_rewrite elem_of_app. naive_solver. Qed.

Lemma keys_before_ne a b e e' : keys_before a b -> e ∈ a -> e' ∈ b -> uk e.1 <> uk e'.1.
Proof. intros Hk He He' Heq. specialize (Hk e e' He He'). by rewrite Heq, bytes_ltb_irrefl in Hk. Qed.

Lemma disjoint_newer a b : (forall e e', e ∈ a -> e' ∈ b -> uk e.1 <> uk e'.1) -> newer_layer a b.
Proof.
  intros Hd e e' p p' He He' Hp Hp' Hk. destruct (Hd e e' He He'). by rewrite <- (parse_uk _ _ Hp), <- (parse_uk _ _ Hp').
Qed.

Lemma keys_before_newer a b : keys_before a b -> newer_layer a b.
Proof. intros Hk. apply disjoint_newer. intros e e' He He'. by apply (keys_before_ne a b). Qed.
Lemma keys_before_newer' a b : keys_before a b -> newer_layer b a.
Proof. intros Hk. apply disjoint_newer. intros e e' He He' Heq. by apply (keys_before_ne a b e' e). Qed.

Lemma newer_layer_app_l a a' b : newer_layer a b -> newer_layer a' b -> newer_layer (a ++ a') b.
Proof. intros H1 H2 e e' p p' [He|He]%elem_of_app; [by apply H1|by apply H2]. Qed.
Lemma newer_layer_app_r a b b' : newer_layer a b -> newer_layer a b' -> newer_layer a (b ++ b').
Proof. intros H1 H2 e e' p p' He [He'|He']%elem_of_app; [by apply H1|by apply H2]. Qed.

Lemma keys_sorted_app a b :
  StronglySorted keys_before (a ++ b) <->
  StronglySorted keys_before a /\ StronglySorted keys_before b /\ keys_before (concat a) (concat b).
Proof.
  induction a as [|l a IH]; simpl.
  { split; [|tauto]. intros Hs. split_and!; [constructor|done|]. intros e e' He. by apply elem_of_nil in He. }
  split.
  - intros Hs. inversion Hs as [|? ? Hs' Hl]; subst. apply IH in Hs' as (Ha & Hb & Hab). rewrite Forall_elem in Hl.
    split_and!; [constructor; [done|]|done|].
    + rewrite Forall_elem. intros x Hx. apply Hl. set_solver.
    + apply keys_before_app_l. split; [|done]. intros e e' He He'. apply in_concat_elem in He' as (l' & Hl' & He').
      apply (Hl l'); [set_solver|done|done].
  - intros (Hs & Hb & Hk). inversion Hs as [|? ? Hs' Hl]; subst. apply keys_before_app_l in Hk as [Hk Hk'].
    constructor; [by apply IH|]. apply Forall_app. split; [done|]. rewrite Forall_elem. intros l' Hl' e e' He He'.
    apply Hk; [done|]. by apply elem_in_concat with l'.
Qed.

Lemma keys_before_lt a b e e' : sorted_run a -> sorted_run b -> keys_before a b -> e ∈ a -> e' ∈ b -> entry_lt e e'.
Proof.
  intros [_ Ha] [_ Hb] Hk He He'. rewrite Forall_elem in Ha, Hb. destruct (Ha e He) as [p Hp], (Hb e' He') as [q Hq].
  unfold entry_lt, entry_ltb. rewrite (InternalKeyLess_parsed _ _ p q) by done. unfold parsed_ltb.
  specialize (Hk e e' He He'). rewrite <- (parse_uk _ _ Hp), <- (parse_uk _ _ Hq) in Hk. apply bytes_ltb_lt in Hk. by rewrite Hk.
Qed.

Lemma concat_sorted runs : Forall sorted_run runs -> StronglySorted keys_before runs -> sorted_run (concat runs).
Proof.
  induction 1 as [|l runs Hl Hr IH]; intros Hs; [by split; constructor|]. inversion Hs as [|? ? Hs' Hk]; subst. simpl.
  specialize (IH Hs'). apply sorted_run_app. split_and!; [done|done|]. intros a b Ha Hb.
  apply (keys_before_lt l (concat runs)); [done|done| |done|done]. intros e e' He He'. apply in_concat_elem in He' as (l' & Hl' & He').
  rewrite Forall_elem in Hk. by apply (Hk l').
Qed.

Lemma newer_nodup a b : newer_layer a b -> Forall entry_valid a -> forall e e', e ∈ a -> e' ∈ b -> e.1 <> e'.1.
Proof.
  intros Hn Hv e e' He He' Heq. rewrite Forall_elem in Hv. destruct (Hv e He) as [p Hp].
  assert (parseInternalKey e'.1 = Some p) as Hp' by congruence. specialize (Hn e e' p p He He' Hp Hp' eq_refl). lia.
Qed.

Lemma layers_nodup layers : layers_ok layers -> Forall sorted_run layers -> NoDup (map fst (concat layers)).
Proof.
  induction 1 as [|l layers Hs IH Hn]; intros Hr; [constructor|]. apply Forall_cons_iff in Hr as [Hl Hr]. simpl. rewrite map_app.
  apply list.NoDup_app. split_and!; [by apply sorted_run_nodup| |by apply IH]. intros k Hk Hk'.
  apply list_elem_of_In, in_map_iff in Hk as (e & <- & He), Hk' as (e' & Heq & He'). apply list_elem_of_In in He, He'.
  destruct (newer_nodup l (concat layers) (newer_layer_concat _ _ Hn) (proj2 Hl) e e' He He'). done.
Qed.

Lemma compaction_visible oldest base N M O old new key seq :
  layers_ok [N; M; O] -> sorted_run M ->
  NoDup (map fst old) -> NoDup (map fst new) ->
  old ≡ₚ N ++ M ++ O -> new ≡ₚ N ++ compact_run oldest base [] kMaxSequenceNumber M ++ O ->
  (forall e e', e ∈ M -> base (uk e.1) = true -> e' ∈ O -> uk e'.1 <> uk e.1) ->
  oldest < kMaxSequenceNumber -> oldest <= seq ->
  visible (mvcc_get new key seq) = visible (mvcc_get old key seq).
Proof.
  intros Hl Hs Hno Hnn Hold Hnew Hbase Hmax Hseq. rewrite (mvcc_get_perm _ _ _ _ Hnn Hnew), (mvcc_get_perm _ _ _ _ Hno Hold).
  set (M' := compact_run oldest base [] kMaxSequenceNumber M) in *.
  assert (forall e, e ∈ M' -> e ∈ M) as Hsub by (intros e He; eapply elem_of_sublist; [exact He|apply compact_run_sublist]).
  inversion Hl as [|? ? Hl' HN]; subst. inversion Hl' as [|? ? _ HM]; subst.
  apply Forall_cons_iff in HN as [HNM HNO]. apply Forall_cons_iff in HNO as [HNO _]. apply Forall_cons_iff in HM as [HMO _].
  rewrite !(mvcc_get_newer_layer N) by (apply newer_layer_app_r; [|done]; eapply newer_layer_sub; [exact HNM|done|done || auto]).
  rewrite (mvcc_get_newer_layer M'), (mvcc_get_newer_layer M) by (done || (eapply newer_layer_sub; [exact HMO|auto|auto])).
  destruct (mvcc_get N key seq); [|done|done].
  destruct (compact_run_get oldest base M key seq [] kMaxSequenceNumber Hs Hmax Hseq ltac:(done)) as [Heq|(Habs & Hdel & Hb)].
  - fold M' in Heq. by rewrite Heq.
  - fold M' in Habs. rewrite Habs, Hdel. rewrite mvcc_get_absent; [done|].
    unfold mvcc_get in Hdel. destruct (mvcc_newest M key seq) as [c|] eqn:E; [|done].
    apply mvcc_newest_candidate in E as (e & p & He & Hpe & Hk & _). rewrite (parse_uk _ _ Hpe) in Hk. rewrite <- Hk in *.
    intros e' He'. by apply (Hbase e).
Qed.

(** ** The levels around a compaction *)

Lemma slice_concat_split (l : list (list entry)) r : (ir_begin r <= ir_end r)%nat ->
  concat l = concat (take (ir_begin r) l) ++ concat (slice l r) ++ concat (drop (ir_end r) l).
Proof. intros Hr. rewrite (slice_split l r Hr) at 1. by rewrite !concat_app. Qed.

Lemma splice_concat (l k : list (list entry)) r :
  concat (splice l r k) = concat (take (ir_begin r) l) ++ concat k ++ concat (drop (ir_end r) l).
Proof. unfold splice. by rewrite !concat_app. Qed.

Lemma layers_ok_app a b : layers_ok (a ++ b) <-> layers_ok a /\ layers_ok b /\ newer_layer (concat a) (concat b).
Proof.
  unfold layers_ok. induction a as [|l a IH]; simpl.
  { split; [|tauto]. intros Hs. split_and!; [constructor|done|]. intros e e' p p' He. by apply elem_of_nil in He. }
  split.
  - intros Hs. inversion Hs as [|? ? Hs' Hl]; subst. apply IH in Hs' as (Ha & Hb & Hab). apply Forall_app in Hl as [Hla Hlb].
    split_and!; [by constructor|done|]. apply newer_layer_app_l; [by apply newer_layer_concat|done].
  - intros (Hs & Hb & Hk). inversion Hs as [|? ? Hs' Hl]; subst. constructor.
    + apply IH. split_and!; [done|done|]. eapply newer_layer_sub; [exact Hk|set_solver|done].
    + apply Forall_app. split; [done|]. rewrite Forall_elem. intros l' Hl'. eapply newer_layer_sub; [exact Hk|set_solver|].
      intros e He. by apply elem_in_concat with l'.
Qed.

Lemma layers_ok_two a b : layers_ok [a; b] <-> newer_layer a b.
Proof.
  unfold layers_ok. split; [|repeat constructor; done]. intros Hs. inversion Hs as [|? ? _ Hf]; subst. by apply Forall_cons_iff in Hf as [? _].
Qed.

Lemma layers_ok_three a b c : newer_layer a b -> newer_layer a c -> newer_layer b c -> layers_ok [a; b; c].
Proof. intros. unfold layers_ok. by repeat constructor. Qed.

Lemma version_layers_ok R : layers_ok (version_layers R) <->
  layers_ok (level0 R) /\ newer_layer (concat (level1 R)) (concat (level2 R)) /\
  newer_layer (concat (level0 R)) (concat (level1 R)) /\ newer_layer (concat (level0 R)) (concat (level2 R)).
Proof.
  unfold version_layers. rewrite layers_ok_app, layers_ok_two. simpl. rewrite app_nil_r. split.
  - intros (? & ? & Hn). split_and!; [done|done|..]; (eapply newer_layer_sub; [exact Hn|done|set_solver]).
  - intros (? & ? & ? & ?). split_and!; [done|done|]. by apply newer_layer_app_r.
Qed.

Section compaction.
Context (v : Version) (R : Levels (list entry)) (plan : CompactionPlan).
Context (Hv : version_holds v R) (Hl : layers_ok (version_layers R)) (Hp : plan_ok v R plan).

Definition source_runs : list (list entry) := default [] (level_at R (input_level plan)).
Definition target_runs : list (list entry) := default [] (level_at R (outputLevel plan)).

(** The entries merged, and those around them in the target level. *)
Definition compaction_input : list entry :=
  concat (slice source_runs (inputs plan)) ++ concat (slice target_runs (overlaps plan)).
Definition target_before : list entry := concat (take (ir_begin (overlaps plan)) target_runs).
Definition target_after : list entry := concat (drop (ir_end (overlaps plan)) target_runs).

(** Layers newer and older than the merged entries. *)
Definition newer_part : list entry :=
  match input_level plan with O => [] | _ => concat (level0 R) ++ concat (drop 1 (level1 R)) end.
Definition older_part : list entry :=
  target_before ++ target_after ++ match input_level plan with O => concat (level2 R) | _ => [] end.

Lemma target_sorted : StronglySorted keys_before target_runs.
Proof. unfold target_runs, outputLevel. destruct Hv, (po_choice _ _ _ Hp) as [[-> _]|[-> _]]; done. Qed.

Lemma target_order :
  keys_before target_before compaction_input /\ keys_before compaction_input target_after /\ keys_before target_before target_after.
Proof.
  pose proof (po_overlaps _ _ _ Hp) as Ho. pose proof target_sorted as Hs.
  rewrite (slice_split target_runs (overlaps plan)) in Hs by lia. apply keys_sorted_app in Hs as (_ & Hs & H1).
  apply keys_sorted_app in Hs as (_ & _ & H2). rewrite concat_app in H1. apply keys_before_app_r in H1 as [H1 H3].
  unfold compaction_input. rewrite keys_before_app_r, keys_before_app_l. split_and!; try done.
  - intros e x He Hx. by apply (po_before _ _ _ Hp).
  - intros x e Hx He. by apply (po_after _ _ _ Hp).
Qed.

Lemma runs_sorted : Forall sorted_run (version_layers R).
Proof.
  assert (forall ts rs, Forall2 serves ts rs -> Forall sorted_run rs) as Hf.
  { induction 1; constructor; eauto using serves_run. }
  destruct Hv as [H0 H1 H2 S1 S2]. unfold version_layers. apply Forall_app. split; [by eapply Hf|].
  repeat constructor; apply concat_sorted; eauto.
Qed.

Lemma level0_whole : input_level plan = 0%nat -> slice (level0 R) (inputs plan) = level0 R /\ splice (level0 R) (inputs plan) [] = [].
Proof.
  intros Hi. destruct (po_choice _ _ _ Hp) as [[_ Hr]|[Hi' _]]; [|congruence]. rewrite Hr. unfold slice, splice. simpl.
  pose proof (Forall2_length (lh_level0 _ _ _ Hv)) as Hlen. split; [by rewrite take_ge by lia|by rewrite (drop_ge _ (length (level0 v))) by lia].
Qed.

Lemma level1_first : input_level plan = 1%nat ->
  slice (level1 R) (inputs plan) = take 1 (level1 R) /\ splice (level1 R) (inputs plan) [] = drop 1 (level1 R).
Proof.
  intros Hi. destruct (po_choice _ _ _ Hp) as [[Hi' _]|[_ Hr]]; [congruence|]. by rewrite Hr.
Qed.

Ltac plan_cases Hi := destruct (po_choice _ _ _ Hp) as [[Hi _]|[Hi _]].

Lemma compaction_between :
  newer_layer newer_part compaction_input /\ newer_layer newer_part older_part /\ newer_layer compaction_input older_part.
Proof.
  apply version_layers_ok in Hl as (_ & H12 & H01 & H02). destruct target_order as (Hb & Ha & _).
  assert (newer_layer compaction_input (target_before ++ target_after)) as Hmid
    by (apply newer_layer_app_r; [by apply keys_before_newer'|by apply keys_before_newer]).
  revert Hmid. unfold newer_part, older_part, compaction_input, target_before, target_after, source_runs, target_runs, outputLevel. plan_cases Hi; rewrite Hi; simpl.
  - destruct (level0_whole Hi) as [-> _]. intros Hmid. split_and!; [intros ? ? ? ? He; by apply elem_of_nil in He..|].
    rewrite app_assoc. apply newer_layer_app_r; [done|]. apply newer_layer_app_l; [done|].
    eapply newer_layer_sub; [exact H12| |done]. intros e He. rewrite (slice_concat_split (level1 R) (overlaps plan)); [set_solver|].
    pose proof (po_overlaps _ _ _ Hp). lia.
  - destruct (level1_first Hi) as [-> _]. intros Hmid. rewrite app_nil_r.
    assert (forall e, e ∈ concat (take 1 (level1 R)) -> e ∈ concat (level1 R)) as HA
      by (intros e He; rewrite <- (take_drop 1 (level1 R)), concat_app; set_solver).
    assert (forall e, e ∈ concat (drop 1 (level1 R)) -> e ∈ concat (level1 R)) as HB
      by (intros e He; rewrite <- (take_drop 1 (level1 R)), concat_app; set_solver).
    assert (forall e, e ∈ concat (slice (level2 R) (overlaps plan)) \/
      e ∈ concat (take (ir_begin (overlaps plan)) (level2 R)) ++ concat (drop (ir_end (overlaps plan)) (level2 R)) -> e ∈ concat (level2 R)) as HC.
    { intros e He. rewrite (slice_concat_split (level2 R) (overlaps plan)); [set_solver|]. pose proof (po_overlaps _ _ _ Hp). lia. }
    pose proof (lh_sorted1 _ _ _ Hv) as Hs1. rewrite <- (take_drop 1 (level1 R)) in Hs1. apply keys_sorted_app in Hs1 as (_ & _ & Hk).
    split_and!; [| |done].
    + apply newer_layer_app_l; apply newer_layer_app_r.
      * eapply newer_layer_sub; [exact H01|done|auto].
      * eapply newer_layer_sub; [exact H02|done|auto].
      * by apply keys_before_newer'.
      * eapply newer_layer_sub; [exact H12|auto|auto].
    + apply newer_layer_app_l; [eapply newer_layer_sub; [exact H02|done|auto]|eapply newer_layer_sub; [exact H12|auto|auto]].
Qed.

Lemma compaction_old : concat (version_layers R) ≡ₚ newer_part ++ compaction_input ++ older_part.
Proof.
  pose proof (po_overlaps _ _ _ Hp) as Ho. unfold version_layers. rewrite concat_app. simpl.
  unfold newer_part, older_part, compaction_input, target_before, target_after, source_runs, target_runs, outputLevel in *. plan_cases Hi; rewrite Hi in *; simpl in *.
  - destruct (level0_whole Hi) as [-> _]. rewrite (slice_concat_split (level1 R) (overlaps plan)) at 1 by lia. rewrite app_nil_r. solve_Permutation.
  - destruct (level1_first Hi) as [-> _]. rewrite (slice_concat_split (level2 R) (overlaps plan)) at 1 by lia. rewrite <- (take_drop 1 (level1 R)) at 1.
    rewrite concat_app, !app_nil_r. solve_Permutation.
Qed.

Lemma compaction_new outs :
  concat (version_layers (compact_levels R (input_level plan) (inputs plan) (overlaps plan) outs)) ≡ₚ newer_part ++ concat outs ++ older_part.
Proof.
  unfold version_layers, newer_part, older_part, compaction_input, target_before, target_after, source_runs, target_runs, outputLevel, compact_levels.
  plan_cases Hi; rewrite Hi; cbn [set_level level_at level0 level1 level2 Nat.add default from_option id]; rewrite concat_app; simpl.
  - destruct (level0_whole Hi) as [_ ->]. simpl. rewrite splice_concat, app_nil_r. solve_Permutation.
  - destruct (level1_first Hi) as [_ ->]. rewrite splice_concat, !app_nil_r. solve_Permutation.
Qed.

Section outputs.
Context (outs : list (list entry)).
Context (Hsorted : StronglySorted keys_before outs) (Hsub : forall e, e ∈ concat outs -> e ∈ compaction_input).
Notation R' := (compact_levels R (input_level plan) (inputs plan) (overlaps plan) outs).

Lemma splice_sorted : StronglySorted keys_before (splice target_runs (overlaps plan) outs).
Proof.
  destruct target_order as (H1 & H2 & H3). pose proof target_sorted as Ht. unfold splice.
  apply keys_sorted_app. rewrite keys_sorted_app. split_and!; [|done|by apply StronglySorted_drop| |].
  - rewrite <- (take_drop (ir_begin (overlaps plan)) target_runs) in Ht. by apply keys_sorted_app in Ht as (? & _).
  - eapply keys_before_sub; [exact H2|done|done].
  - rewrite concat_app. apply keys_before_app_r. split; [|done]. eapply keys_before_sub; [exact H1|done|done].
Qed.

Lemma compact_levels_sorted : StronglySorted keys_before (level1 R') /\ StronglySorted keys_before (level2 R').
Proof.
  pose proof splice_sorted as Hs. unfold target_runs, outputLevel in Hs. unfold compact_levels.
  destruct Hv as [_ _ _ Hs1 Hs2]. plan_cases Hi; rewrite Hi in *; simpl in *; [done|].
  split; [|done]. destruct (level1_first Hi) as [_ ->]. by apply StronglySorted_drop.
Qed.

Lemma outs_between : newer_layer newer_part (concat outs) /\ newer_layer (concat outs) older_part.
Proof.
  destruct compaction_between as (H1 & _ & H3). split; eapply newer_layer_sub; [exact H1|auto|auto|exact H3|auto|auto].
Qed.

Lemma compact_layers_ok : layers_ok (version_layers R').
Proof.
  apply version_layers_ok. pose proof Hl as (H00 & H12 & H01 & H02)%version_layers_ok. pose proof (po_overlaps _ _ _ Hp) as Ho.
  destruct outs_between as [HN HM]. revert HN HM Ho.
  unfold newer_part, older_part, target_before, target_after, source_runs, target_runs, outputLevel, compact_levels.
  plan_cases Hi; rewrite Hi; cbn [set_level level_at level0 level1 level2 Nat.add default from_option id]; intros HN HM Ho.
  - destruct (level0_whole Hi) as [_ ->]. split_and!; [constructor| |intros ? ? ? ? He; by apply elem_of_nil in He..].
    rewrite splice_concat. assert (forall e, e ∈ concat (take (ir_begin (overlaps plan)) (level1 R)) \/ e ∈ concat (drop (ir_end (overlaps plan)) (level1 R)) ->
      e ∈ concat (level1 R)) as HC by (intros e He; rewrite (slice_concat_split (level1 R) (overlaps plan)) by lia; set_solver).
    repeat apply newer_layer_app_l; [eapply newer_layer_sub; [exact H12|auto|done]| |eapply newer_layer_sub; [exact H12|auto|done]].
    eapply newer_layer_sub; [exact HM|done|set_solver].
  - destruct (level1_first Hi) as [_ ->]. rewrite splice_concat.
    assert (forall e, e ∈ concat (drop 1 (level1 R)) -> e ∈ concat (level1 R)) as HB
      by (intros e He; rewrite <- (take_drop 1 (level1 R)), concat_app; set_solver).
    assert (forall e, e ∈ concat (take (ir_begin (overlaps plan)) (level2 R)) \/ e ∈ concat (drop (ir_end (overlaps plan)) (level2 R)) ->
      e ∈ concat (level2 R)) as HC by (intros e He; rewrite (slice_concat_split (level2 R) (overlaps plan)) by lia; set_solver).
    split_and!; [done| |eapply newer_layer_sub; [exact H01|done|auto]|]; repeat apply newer_layer_app_r.
    1,3: eapply newer_layer_sub; [exact H12|auto|auto].
    2,4: eapply newer_layer_sub; [exact H02|auto|auto].
    all: eapply newer_layer_sub; [exact HN|set_solver|done].
Qed.
End outputs.

(** A version whose runs are [outs] in place of the merged ones. *)
Lemma compact_runs_sorted outs :
  Forall sorted_run outs -> let R' := compact_levels R (input_level plan) (inputs plan) (overlaps plan) outs in
  StronglySorted keys_before (level1 R') -> StronglySorted keys_before (level2 R') -> Forall sorted_run (version_layers R').
Proof.
  intros Ho R' Hs1 Hs2.
  assert (forall l r k, Forall sorted_run l -> Forall sorted_run k -> Forall sorted_run (splice l r k)) as Hsp.
  { intros l r k H1 H2. unfold splice. rewrite !Forall_app. split_and!; [by apply Forall_take|done|by apply Forall_drop]. }
  assert (forall i, Forall sorted_run (default [] (level_at R i))) as Hall.
  { intros i. pose proof (levels_hold_at _ _ _ i Hv) as Hf. induction Hf; constructor; eauto using serves_run. }
  assert (forall i, Forall sorted_run (default [] (level_at R' i))) as Hall'.
  { intros i. unfold R', compact_levels. pose proof (Hall i). pose proof (Hall 0%nat). pose proof (Hall 1%nat). pose proof (Hall 2%nat).
    plan_cases Hi; rewrite Hi; destruct i as [|[|[|]]]; cbn [set_level level_at level0 level1 level2 Nat.add default from_option id] in *;
      (done || apply Hsp; (done || constructor)). }
  unfold version_layers. apply Forall_app. split; [apply (Hall' 0%nat)|].
  constructor; [|constructor; [|constructor]]; (apply concat_sorted; [|done]); [apply (Hall' 1%nat)|apply (Hall' 2%nat)].
Qed.

(** A deletion that passes the base-level test hides nothing older. *)
Lemma base_hides_nothing e e' :
  e ∈ compaction_input -> base_test v (outputLevel plan + 1) (uk e.1) = true -> e' ∈ older_part -> uk e'.1 <> uk e.1.
Proof.
  intros He Hb He'. destruct target_order as (H1 & H2 & _). unfold older_part in He'.
  apply elem_of_app in He' as [He'|He']; [by apply (keys_before_ne _ _ _ _ H1)|].
  apply elem_of_app in He' as [He'|He']; [intros Heq; by apply (keys_before_ne _ _ _ _ H2 He He')|].
  plan_cases Hi; rewrite Hi in He'; [|by apply elem_of_nil in He'].
  apply (base_test_sound v R (outputLevel plan + 1) _ 2%nat); [done|done| |done]. unfold outputLevel. rewrite Hi. lia.
Qed.

(** Reads at or above the oldest snapshot are the same after the compaction. *)
Lemma compaction_reads oldest M outs key seq :
  sorted_run M -> M ≡ₚ compaction_input ->
  concat outs = compact_run oldest (base_test v (outputLevel plan + 1)) [] kMaxSequenceNumber M ->
  StronglySorted keys_before outs -> Forall sorted_run outs ->
  oldest < kMaxSequenceNumber -> oldest <= seq ->
  visible (mvcc_get (concat (version_layers (compact_levels R (input_level plan) (inputs plan) (overlaps plan) outs))) key seq) =
  visible (mvcc_get (concat (version_layers R)) key seq).
Proof.
  intros Hs HM Hout Hsorted Hruns Hmax Hseq.
  assert (forall e, e ∈ concat outs -> e ∈ compaction_input) as Hsub.
  { intros e He. rewrite Hout in He. rewrite <- HM. eapply elem_of_sublist; [exact He|apply compact_run_sublist]. }
  destruct (compact_levels_sorted outs Hsorted Hsub) as [Hs1 Hs2].
  assert (forall e, e ∈ M <-> e ∈ compaction_input) as HMi by (intros e; by rewrite HM).
  apply (compaction_visible oldest (base_test v (outputLevel plan + 1)) newer_part M older_part); try done.
  - destruct compaction_between as (H1 & H2 & H3). apply layers_ok_three; [eapply newer_layer_sub; [exact H1|done|naive_solver]|done|eapply newer_layer_sub; [exact H3|naive_solver|done]].
  - apply layers_nodup; [done|apply runs_sorted].
  - apply layers_nodup; [by apply compact_layers_ok|by apply compact_runs_sorted].
  - rewrite HM. apply compaction_old.
  - rewrite <- Hout. apply compaction_new.
  - intros e e' He. apply base_hides_nothing. by apply HMi.
Qed.
End compaction.
