(* ===== verification/CompactionBuild.v ===== *)
(** Building the output of a compaction (src/db/compaction.cc): the writer that
    cuts the surviving entries into tables at user-key boundaries, the merge
    loop, and what they leave in the directory on success and on every error. *)
From S2P Require Import Prelude Posix Status Coding InternalKey Mvcc BlockBuilder SSTableBuilder Iterator SSTableReader MergingIterator DbIterator Filename Level Manifest DbFiles Version Compaction CompactionReads.

Record CompactionOutput := mkCompactionOutput { co_meta : TableMeta; co_reader : SSTableReader }.

(** What the system answers while one output is written: [exists], the builder's
    [::open] and file, [rename], and opening the finished table. *)
Record OutputEnv := mkOutputEnv {
  ov_exists : option Z;
  ov_create : option Z;
  ov_table : TableEnv;
  ov_rename : option Z;
  ov_open : OpenEnv;
}.

(** [class CompactionOutputWriter]; [allocated_] counts the calls of the file
    number allocator, whose answers are given as a sequence. *)
Record CompactionOutputWriter := mkWriter {
  builder_ : option SSTableBuilder;
  completed_outputs_ : list CompactionOutput;
  current_number_ : Z;
  last_user_key_ : bytes;
  released_ : bool;
  allocated_ : nat;
}.

Notation FileNumberAllocator := (nat -> result Z).

Section writer.
Context (strerror : Z -> string) (envs : Z -> OutputEnv) (effective : string -> bool).
Context (directory : string) (allocate_file_number : FileNumberAllocator) (target_file_size : Z).

Definition newWriter : CompactionOutputWriter := mkWriter None [] 0 [] false 0.

Definition renameTable (error : option Z) (temporary_path final_path : string) (fs : Directory) : Directory * Status :=
  match error with
  | None => (fs_rename temporary_path final_path fs, success)
  | Some error => (removeFileBestEffort effective temporary_path fs, filesystemError strerror "rename" temporary_path error)
  end.

Definition removeOutputs (outputs : list CompactionOutput) (fs : Directory) : Directory :=
  foldl (fun fs output => removeFileBestEffort effective (sstableFileName directory (tm_number (co_meta output))) fs) fs outputs.

Definition openOutput (w : CompactionOutputWriter) (fs : Directory) : option (CompactionOutputWriter * Directory * Status) :=
  let answer := allocate_file_number (allocated_ w) in
  let w := mkWriter (builder_ w) (completed_outputs_ w) (current_number_ w) (last_user_key_ w) (released_ w) (S (allocated_ w)) in
  match answer with
  | Err status => Some (w, fs, status)
  | Ok number =>
      let w := mkWriter (builder_ w) (completed_outputs_ w) number (last_user_key_ w) (released_ w) (allocated_ w) in
      if number =? 0 then Some (w, fs, invalidArgument "compaction file number must be positive")
      else
        let final_path := sstableFileName directory number in
        match ov_exists (envs number), fs !! final_path with
        | Some error, _ => Some (w, fs, filesystemError strerror "stat" final_path error)
        | None, Some _ => Some (w, fs, alreadyExists ("compaction output already exists: " +:+ final_path))
        | None, None =>
            '(fs, r) ← tb_open_default strerror (ov_create (envs number)) (ov_table (envs number))
                         (sstableTemporaryFileName directory number) fs;
            match r with
            | Err status => Some (w, fs, status)
            | Ok b => Some (mkWriter (Some b) (completed_outputs_ w) number (last_user_key_ w) (released_ w) (allocated_ w), fs, success)
            end
        end
  end.

Definition finishOutput (w : CompactionOutputWriter) (fs : Directory) : option (CompactionOutputWriter * Directory * Status) :=
  b ← builder_ w;
  _ ← assert_that (negb (current_number_ w =? 0));
  '(b, completed) ← tb_finish strerror b;
  match completed with
  | Err status =>
      Some (mkWriter (Some b) (completed_outputs_ w) (current_number_ w) (last_user_key_ w) (released_ w) (allocated_ w), fs, status)
  | Ok completed =>
      let fs := tb_destroy effective b fs in
      let w := mkWriter None (completed_outputs_ w) (current_number_ w) (last_user_key_ w) (released_ w) (allocated_ w) in
      let number := current_number_ w in
      let temporary_path := sstableTemporaryFileName directory number in
      let final_path := sstableFileName directory number in
      let '(fs, status) := renameTable (ov_rename (envs number)) temporary_path final_path fs in
      if negb (ok status) then Some (w, fs, status)
      else
        opened ← sst_open (mkReadEnv (oe_reads (ov_open (envs number))) strerror) final_path (os_open (ov_open (envs number)) final_path fs);
        match opened with
        | Err status => Some (w, removeFileBestEffort effective final_path fs, status)
        | Ok opened =>
            let output := mkCompactionOutput
              (mkTableMeta number (file_size completed) (smallest_key completed) (largest_key completed)) opened in
            Some (mkWriter None (completed_outputs_ w ++ [output]) 0 [] (released_ w) (allocated_ w), fs, success)
        end
  end.

Definition writer_add (w : CompactionOutputWriter) (internal_key user_key value : bytes) (fs : Directory) :
    option (CompactionOutputWriter * Directory * Status) :=
  '(w, fs, status) ←
    match builder_ w with
    | Some b =>
        if negb (bytes_eqb (last_user_key_ w) user_key) && (target_file_size <=? estimatedFileSize b)
        then finishOutput w fs else Some (w, fs, success)
    | None => Some (w, fs, success)
    end;
  if negb (ok status) then Some (w, fs, status)
  else
    '(w, fs, status) ← match builder_ w with None => openOutput w fs | Some _ => Some (w, fs, success) end;
    if negb (ok status) then Some (w, fs, status)
    else
      b ← builder_ w;
      '(b, status) ← tb_add strerror b internal_key value;
      let w := mkWriter (Some b) (completed_outputs_ w) (current_number_ w) (last_user_key_ w) (released_ w) (allocated_ w) in
      if negb (ok status) then Some (w, fs, status)
      else Some (mkWriter (Some b) (completed_outputs_ w) (current_number_ w) user_key (released_ w) (allocated_ w), fs, success).

Definition writer_finish (w : CompactionOutputWriter) (fs : Directory) :
    option (CompactionOutputWriter * Directory * result (list CompactionOutput)) :=
  '(w, fs, status) ← match builder_ w with Some _ => finishOutput w fs | None => Some (w, fs, success) end;
  if negb (ok status) then Some (w, fs, Err status)
  else Some (mkWriter (builder_ w) [] (current_number_ w) (last_user_key_ w) true (allocated_ w), fs, Ok (completed_outputs_ w)).

(** [~CompactionOutputWriter]. *)
Definition writer_destroy (w : CompactionOutputWriter) (fs : Directory) : Directory :=
  let fs := match builder_ w with Some b => tb_destroy effective b fs | None => fs end in
  if released_ w then fs else removeOutputs (completed_outputs_ w) fs.

(** ** The merge *)

(** [reads] answers the reads of each input table. *)
Definition add_iterator (reads : Table -> ReadEnv) (table : Table) : option (result SSTableIterator) :=
  iterator ← newSSTableIterator (reads table) (t_reader table) true;
  iterator ← si_seekToFirst iterator;
  if negb (ok (si_status iterator)) then Some (Err (si_status iterator))
  else if negb (si_valid iterator) then Some (Err (corruption "compaction input SSTable is empty"))
  else Some (Ok iterator).

Fixpoint add_iterators (reads : Table -> ReadEnv) (tables : list Table) : option (result (list SSTableIterator)) :=
  match tables with
  | [] => Some (Ok [])
  | table :: tables =>
      r ← add_iterator reads table;
      match r with
      | Err status => Some (Err status)
      | Ok iterator =>
          r ← add_iterators reads tables;
          Some (match r with Ok iterators => Ok (iterator :: iterators) | Err status => Err status end)
      end
  end.

(** The [while] loop; [fuel] bounds the number of entries. *)
Fixpoint merge_loop (fuel : nat) (oldest_snapshot : Z) (iterator : MergingIterator SSTableIterator) (previous_key : bytes)
    (d : DropState) (w : CompactionOutputWriter) (fs : Directory) : option (CompactionOutputWriter * Directory * Status) :=
  match fuel with
  | O => None
  | S fuel =>
      if negb (mg_valid iterator) then Some (w, fs, success)
      else
        key ← mg_internalKey iterator;
        if negb (bool_decide (previous_key = [])) && negb (InternalKeyLess previous_key key)
        then Some (w, fs, corruption "compaction inputs contain duplicate internal keys")
        else
          match parseInternalKey key with
          | None => Some (w, fs, corruption "compaction input contains invalid internal key")
          | Some parsed =>
              '(drop, d) ← drop_entry oldest_snapshot parsed d;
              '(w, fs, status) ←
                (if drop : bool then Some (w, fs, success)
                 else value ← mg_value iterator; writer_add w key (user_key parsed) value fs);
              if negb (ok status) then Some (w, fs, status)
              else
                iterator ← mg_next iterator;
                if negb (ok (mg_status_ iterator)) then Some (w, fs, mg_status_ iterator)
                else merge_loop fuel oldest_snapshot iterator key d w fs
          end
  end.

End writer.

(** [buildCompactionTables]: the directory afterwards, how many file numbers were
    taken, and the outputs or the error.  A null allocator is [None]. *)
Definition buildCompactionTables (strerror : Z -> string) (envs : Z -> OutputEnv) (effective : string -> bool)
    (reads : Table -> ReadEnv) (fuel : nat) (plan : CompactionPlan) (directory : string)
    (allocate_file_number : option FileNumberAllocator) (options : CompactionOptions) (fs : Directory) :
    option (Directory * nat * result (list CompactionOutput)) :=
  match input_version plan, allocate_file_number with
  | None, _ => Some (fs, 0%nat, Err (invalidArgument "compaction plan has no input version"))
  | Some version, allocate =>
      if (kNumLevels <=? input_level plan + 1)%nat || (ir_end (inputs plan) <=? ir_begin (inputs plan))%nat ||
         (output_bytes options =? 0) || bool_decide (allocate = None)
      then Some (fs, 0%nat, Err (invalidArgument "invalid compaction plan or options"))
      else
        allocate ← allocate;
        source ← level_at version (input_level plan);
        target ← level_at version (outputLevel plan);
        if (length source <? ir_end (inputs plan))%nat || (ir_end (overlaps plan) <? ir_begin (overlaps plan))%nat ||
           (length target <? ir_end (overlaps plan))%nat
        then Some (fs, 0%nat, Err (invalidArgument "invalid compaction input range"))
        else
          r ← add_iterators reads (slice source (inputs plan) ++ slice target (overlaps plan));
          match r with
          | Err status => Some (fs, 0%nat, Err status)
          | Ok iterators =>
              iterator ← mg_seekToFirst (newMergingIterator iterators);
              if negb (ok (mg_status_ iterator)) then Some (fs, 0%nat, Err (mg_status_ iterator))
              else
                '(w, fs, status) ← merge_loop strerror envs effective directory allocate (output_bytes options) fuel
                   (oldest_snapshot plan) iterator [] (newDropState (newBaseLevelChecker version plan)) newWriter fs;
                if negb (ok status) then Some (writer_destroy effective directory w fs, allocated_ w, Err status)
                else
                  '(w, fs, outputs) ← writer_finish strerror envs effective directory w fs;
                  Some (writer_destroy effective directory w fs, allocated_ w, outputs)
          end
  end.

(** ** What the writer owns *)

Lemma sst_not_tmp directory n m : 0 < n <= kUint64Max -> 0 < m <= kUint64Max ->
  sstableFileName directory n <> sstableTemporaryFileName directory m.
Proof. intros Hn Hm E. apply (numberedFileName_inj directory kSSTable n kSSTableTemporary m) in E as [? _]; done. Qed.

Lemma sst_inj directory n m : 0 < n <= kUint64Max -> 0 < m <= kUint64Max ->
  sstableFileName directory n = sstableFileName directory m -> n = m.
Proof. intros Hn Hm E. by apply (numberedFileName_inj directory kSSTable n kSSTable m) in E as [_ ?]. Qed.

Lemma tmp_nonempty directory n : sstableTemporaryFileName directory n <> "".
Proof.
  intros E. apply (f_equal to_chars) in E. unfold sstableTemporaryFileName in E.
  destruct (path_append_split directory (numberedName n temporary_suffix)) as (before & Hb & _). rewrite Hb in E.
  unfold numberedName in E. by destruct before, (if len (decimal n) <? 6 then _ else _).
Qed.

Definition table_path (directory path : string) : Prop :=
  exists n, 0 < n <= kUint64Max /\ (path = sstableFileName directory n \/ path = sstableTemporaryFileName directory n).

(** The system answers an output's calls with interruptions at worst. *)
Definition output_benign (env : OutputEnv) : Prop :=
  ov_exists env = None /\ ov_create env = None /\ env_benign (ov_table env) /\ ov_rename env = None /\ open_benign (ov_open env).

Section writer_spec.
Context (strerror : Z -> string) (envs : Z -> OutputEnv) (effective : string -> bool).
Context (directory : string) (allocate : FileNumberAllocator).
(** The directory before the compaction. *)
Context (fs0 : Directory).
Context (Halloc : forall i, match allocate i with Ok n => 0 <= n <= kUint64Max | Err st => ok st = false end).

Notation sst n := (sstableFileName directory n).
Notation tmp n := (sstableTemporaryFileName directory n).

(** The first [count] numbers are allocated once each, and name no file yet. *)
Definition fresh_numbers (count : nat) : Prop :=
  (forall i, (i < count)%nat -> exists n, allocate i = Ok n /\ 0 < n /\ fs0 !! sst n = None /\ fs0 !! tmp n = None) /\
  (forall i j n, (i < count)%nat -> (j < count)%nat -> allocate i = Ok n -> allocate j = Ok n -> i = j).
Definition writes_benign (count : nat) : Prop := (forall n, output_benign (envs n)) /\ fresh_numbers count.

Definition owned (w : CompactionOutputWriter) (path : string) : Prop :=
  (exists o, o ∈ completed_outputs_ w /\ path = sst (tm_number (co_meta o))) \/
  (exists b, builder_ w = Some b /\ path = tb_path b).

(** A table or temporary file whose removal failed. *)
Definition left_behind (path : string) : Prop := effective path = false /\ table_path directory path.

(** Enough for the destructor to clean up. *)
Record writer_frame (w : CompactionOutputWriter) (fs : Directory) : Prop := {
  wf_incl : fs0 ⊆ fs;
  wf_fresh : forall path, owned w path -> fs0 !! path = None;
  wf_owned : forall path, fs !! path = fs0 !! path \/ owned w path \/ left_behind path;
  wf_tables : forall path, owned w path -> table_path directory path;
  wf_state : forall b, builder_ w = Some b -> tb_state b = kBuilding;
  wf_released : released_ w = false;
}.

Lemma removeOutputs_lookup outputs : forall fs path,
  removeOutputs effective directory outputs fs !! path = fs !! path \/
  (removeOutputs effective directory outputs fs !! path = None /\ exists o, o ∈ outputs /\ path = sst (tm_number (co_meta o))).
Proof using Type.
  clear Halloc. unfold removeOutputs. induction outputs as [|o outputs IH]; intros fs path; [by left|]. simpl.
  destruct (IH (removeFileBestEffort effective (sst (tm_number (co_meta o))) fs) path) as [->|[-> (o' & ? & ?)]].
  2:{ right. split; [done|]. exists o'. set_solver. }
  unfold removeFileBestEffort, fs_unlink. destruct (effective (sst (tm_number (co_meta o)))); [|by left].
  destruct (decide (path = sst (tm_number (co_meta o)))) as [->|Hne]; [right; rewrite lookup_delete_eq; set_solver|left; by apply lookup_delete_ne].
Qed.

Lemma removeOutputs_gone outputs : forall fs o,
  o ∈ outputs -> effective (sst (tm_number (co_meta o))) = true -> removeOutputs effective directory outputs fs !! sst (tm_number (co_meta o)) = None.
Proof.
  induction outputs as [|o' outputs IH]; intros fs o Ho He; [by apply elem_of_nil in Ho|].
  apply elem_of_cons in Ho as [->|Ho]; [|unfold removeOutputs; simpl; by apply IH].
  change (removeOutputs effective directory (o' :: outputs) fs) with
    (removeOutputs effective directory outputs (removeFileBestEffort effective (sst (tm_number (co_meta o'))) fs)).
  destruct (removeOutputs_lookup outputs (removeFileBestEffort effective (sst (tm_number (co_meta o'))) fs) (sst (tm_number (co_meta o')))) as [->|[-> _]]; [|done].
  unfold removeFileBestEffort, fs_unlink. rewrite He. apply lookup_delete_eq.
Qed.

(** After an error the directory is as before, up to files whose removal failed. *)
Lemma writer_destroy_frame w fs : writer_frame w fs ->
  let fs' := writer_destroy effective directory w fs in
  fs0 ⊆ fs' /\ forall path, fs' !! path = fs0 !! path \/ left_behind path.
Proof.
  intros [Hi Hf Ho Ht Hs Hr] fs'. unfold fs', writer_destroy. rewrite Hr.
  set (fs1 := match builder_ w with Some b => _ | None => _ end).
  assert (forall path, fs1 !! path = fs !! path \/ (exists b, builder_ w = Some b /\ path = tb_path b)) as H1.
  { intros path. unfold fs1. destruct (builder_ w) as [b|]; [|by left].
    destruct (decide (path = tb_path b)) as [->|]; [right; eauto|left; by apply tb_destroy_lookup]. }
  assert (forall path, removeOutputs effective directory (completed_outputs_ w) fs1 !! path = fs !! path \/ owned w path) as H2.
  { intros path. destruct (removeOutputs_lookup (completed_outputs_ w) fs1 path) as [->|[_ ?]]; [|by right; left].
    destruct (H1 path) as [->|?]; [by left|by right; right]. }
  split.
  - apply map_incl. intros path f Hp. destruct (H2 path) as [->|Hown]; [by apply map_incl with fs0|]. by rewrite (Hf path Hown) in Hp.
  - intros path. destruct (effective path) eqn:He.
    2:{ destruct (H2 path) as [->|Hown]; [|right; split; [done|by apply Ht]]. destruct (Ho path) as [?|[Hown|?]]; [by left|right; split; [done|by apply Ht]|by right]. }
    left. destruct (Ho path) as [Heq|[[(o & Hin & ->)|(b & Hb & ->)]|[? _]]]; [..|congruence].
    + destruct (H2 path) as [->|Hown]; [done|]. rewrite (Hf path Hown). destruct Hown as [(o & Hin & ->)|(b & Hb & ->)]; [by apply removeOutputs_gone|].
      destruct (removeOutputs_lookup (completed_outputs_ w) fs1 (tb_path b)) as [->|[-> _]]; [|done]. unfold fs1. rewrite Hb.
      apply tb_destroy_building; auto.
    + rewrite (Hf _ ltac:(left; eauto)). by apply removeOutputs_gone.
    + rewrite (Hf _ ltac:(right; eauto)). destruct (removeOutputs_lookup (completed_outputs_ w) fs1 (tb_path b)) as [->|[-> _]]; [|done].
      unfold fs1. rewrite Hb. apply tb_destroy_building; auto.
Qed.

(** ** The writer between calls *)

Definition output_holds (fs : Directory) (o : CompactionOutput) (run : list entry) : Prop :=
  stored directory fs (co_meta o) run /\ opened_table run (co_reader o) /\ 0 < tm_number (co_meta o) <= kUint64Max.

Definition was_allocated (w : CompactionOutputWriter) (n : Z) : Prop := exists j, (j < allocated_ w)%nat /\ allocate j = Ok n.

(** The builder in progress has taken [cur]. *)
Record builder_holds (w : CompactionOutputWriter) (fs : Directory) (b : SSTableBuilder) (cur : list entry) : Prop := {
  bh_entries : exists blocks c, tb_inv b blocks c /\ concat (map fst blocks) ++ c = cur;
  bh_path : tb_path b = tmp (current_number_ w);
  bh_linked : tb_unlinked b = false;
  bh_number : 0 < current_number_ w <= kUint64Max;
  bh_allocated : was_allocated w (current_number_ w);
  bh_final : fs !! sst (current_number_ w) = None;
  bh_tmp : fs0 !! tmp (current_number_ w) = None;
  bh_benign : (forall n, output_benign (envs n)) -> env_benign (tb_env b);
}.

(** [done] has been cut into finished tables, [cur] is in the builder. *)
Record writer_inv (w : CompactionOutputWriter) (fs : Directory) (done : list (list entry)) (cur : list entry) : Prop := {
  wi_incl : fs0 ⊆ fs;
  wi_owned : forall path, fs !! path = fs0 !! path \/ owned w path;
  wi_done : Forall2 (output_holds fs) (completed_outputs_ w) done;
  wi_new : forall o, o ∈ completed_outputs_ w -> fs0 !! sst (tm_number (co_meta o)) = None /\ was_allocated w (tm_number (co_meta o));
  wi_builder : match builder_ w with Some b => builder_holds w fs b cur | None => cur = [] end;
  wi_last : cur <> [] -> last_user_key_ w = uk (final_key cur);
  wi_sorted : StronglySorted keys_before (done ++ [cur]);
  wi_released : released_ w = false;
}.

Lemma writer_inv_frame w fs done cur : writer_inv w fs done cur -> writer_frame w fs.
Proof.
  intros [Hi Ho Hd Hn Hb _ _ Hr]. split; [done| | | | |done].
  - intros path [(o & Hin & ->)|(b & Hbb & ->)]; [by apply Hn|]. rewrite Hbb in Hb. rewrite (bh_path _ _ _ _ Hb). apply Hb.
  - intros path. destruct (Ho path); auto.
  - intros path [(o & Hin & ->)|(b & Hbb & ->)].
    + destruct (Forall2_elem_l _ _ _ _ Hd Hin) as (run & _ & _ & _ & Hnum). exists (tm_number (co_meta o)). auto.
    + rewrite Hbb in Hb. rewrite (bh_path _ _ _ _ Hb). exists (current_number_ w). split; [apply Hb|by right].
  - intros b Hbb. rewrite Hbb in Hb. destruct (bh_entries _ _ _ _ Hb) as (blocks & c & Hinv & _). apply Hinv.
Qed.

(** A call succeeds and keeps the invariant, or fails and can be cleaned up. *)
Definition writer_goes (res : option (CompactionOutputWriter * Directory * Status))
    (P : CompactionOutputWriter -> Directory -> Prop) : Prop :=
  exists w fs st, res = Some (w, fs, st) /\
    ((st = success /\ P w fs) \/ (ok st = false /\ writer_frame w fs /\ ~ writes_benign (allocated_ w))).

Lemma writer_fails w fs st (P : CompactionOutputWriter -> Directory -> Prop) :
  ok st = false -> writer_frame w fs -> ~ writes_benign (allocated_ w) -> writer_goes (Some (w, fs, st)) P.
Proof. intros ? ? ?. exists w, fs, st. auto. Qed.

Lemma frame_intro w fs :
  (forall path, fs !! path = fs0 !! path \/ ((owned w path \/ left_behind path) /\ fs0 !! path = None)) ->
  (forall path, owned w path -> fs0 !! path = None) -> (forall path, owned w path -> table_path directory path) ->
  (forall b, builder_ w = Some b -> tb_state b = kBuilding) -> released_ w = false -> writer_frame w fs.
Proof.
  intros Hp Ho Ht Hs Hr. split; [|done| |done|done|done].
  - apply map_incl. intros path f Hf. destruct (Hp path) as [->|[_ ?]]; [done|congruence].
  - intros path. destruct (Hp path) as [|[[|] _]]; auto.
Qed.

(** Where the directory differs from the one before. *)
Lemma writer_inv_paths w fs done cur path : writer_inv w fs done cur ->
  fs !! path = fs0 !! path \/
  (exists o, o ∈ completed_outputs_ w /\ path = sst (tm_number (co_meta o))) \/
  (exists b, builder_ w = Some b /\ path = tmp (current_number_ w)).
Proof.
  intros Hw. destruct (wi_owned _ _ _ _ Hw path) as [|[|(b & Hb & ->)]]; [by left|by right; left|right; right].
  exists b. split; [done|]. pose proof (wi_builder _ _ _ _ Hw) as Hbh. rewrite Hb in Hbh. apply Hbh.
Qed.

Lemma finish_result w fs done cur b :
  writer_inv w fs done cur -> builder_ w = Some b -> table_room cur <= kUint32Max ->
  exists b' res, tb_finish strerror b = Some (b', res) /\ tb_path b' = tb_path b /\ tb_unlinked b' = false /\
    match res with
    | Ok meta => finished cur b' meta
    | Err st => ok st = false /\ tb_state b' = kBuilding /\ forall count, ~ writes_benign count
    end.
Proof.
  intros Hw Hb Hroom. pose proof (wi_builder _ _ _ _ Hw) as Hbh. rewrite Hb in Hbh. destruct (bh_entries _ _ _ _ Hbh) as (blocks & c & Hinv & <-).
  destruct (tb_finish_inv strerror b blocks c Hinv Hroom) as (b' & res & Hf & Hc). exists b', res.
  destruct (tb_finish_same strerror b b' res Hf) as (Hp & Hu & Hs). rewrite (bh_linked _ _ _ _ Hbh) in Hu. split_and!; [done..|].
  destruct Hc as [(meta & -> & Hfin)|(st & -> & Hst & Hn)]; [done|]. split_and!; [done|rewrite Hs; apply Hinv|].
  intros count [Hbe _]. by apply Hn, (bh_benign _ _ _ _ Hbh).
Qed.

Lemma owned_none w w' path :
  builder_ w' = None -> completed_outputs_ w' = completed_outputs_ w -> owned w' path -> owned w path.
Proof. intros Hb Hc [(o & Ho & ->)|(b & Hb' & _)]; [left; rewrite Hc in Ho; eauto|congruence]. Qed.

Lemma output_holds_other fs fs' n o run :
  output_holds fs o run -> 0 < n <= kUint64Max -> fs !! sst n = None ->
  (forall path, path <> sst n -> path <> tmp n -> fs' !! path = fs !! path) -> output_holds fs' o run.
Proof.
  intros ([(c & Hf & Ht & Hz) H1 H2 H3 H4] & Hr & Hn) Hnum Hnone Hsame. split; [|done]. split; [|done..].
  exists c. split_and!; [|done|done]. rewrite Hsame; [done| |by apply sst_not_tmp]. intros E. rewrite E, Hnone in Hf. done.
Qed.

Lemma finishOutput_spec w fs done cur b :
  writer_inv w fs done cur -> builder_ w = Some b -> cur <> [] -> sorted_run cur -> table_room cur <= kUint32Max ->
  writer_goes (finishOutput strerror envs effective directory w fs)
    (fun w' fs' => writer_inv w' fs' (done ++ [cur]) [] /\ builder_ w' = None).
Proof.
  intros Hw Hb Hne Hrun Hroom. pose proof (writer_inv_frame _ _ _ _ Hw) as Hfr. pose proof (wi_builder _ _ _ _ Hw) as Hbh. rewrite Hb in Hbh.
  destruct Hbh as [_ Hpath _ Hnum Hall Hfin Htmp _]. pose proof Hw as [Hi Ho Hd Hn _ _ Hs Hrel].
  unfold finishOutput. rewrite Hb. cbn [mbind option_bind]. destruct (Z.eqb_spec (current_number_ w) 0) as [?|_]; [lia|].
  cbn [negb assert_that mbind option_bind]. destruct (finish_result w fs done cur b Hw Hb Hroom) as (b' & res & -> & Hp' & Hu' & Hres).
  cbn [mbind option_bind]. rewrite Hpath in Hp'. set (n := current_number_ w) in *. destruct res as [meta|st].
  2:{ destruct Hres as (Hst & Hbs & Hnb). apply writer_fails; [done| |done]. destruct Hfr as [_ Hfresh Hfo Hft _ _].
      assert (forall path, owned (mkWriter (Some b') (completed_outputs_ w) n (last_user_key_ w) (released_ w) (allocated_ w)) path <-> owned w path) as Hown.
      { intros path. unfold owned. simpl. rewrite Hb. split; (intros [?|(b1 & [= <-] & ->)]; [by left|right]); [exists b|exists b']; (split; [done|congruence]). }
      split; [done|intros path Hq; apply Hfresh, Hown, Hq|intros path; rewrite Hown; apply Hfo|intros path Hq; apply Hft, Hown, Hq|by intros b1 [= <-]|done]. }
  rewrite (destroy_finished _ _ _ _ _ Hres Hu'), Hp'. destruct (finished_file _ _ _ Hres) as (c & Hc & Ht & ->). rewrite Hc.
  cbn [current_number_]. fold n. set (f := mkLogFile c (length c)). assert (sst n <> tmp n) as Hst by (by apply sst_not_tmp).
  assert (fs0 !! sst n = None) as H0n by (destruct (fs0 !! sst n) eqn:E; [|done]; by rewrite (proj2 (map_incl fs0 fs) Hi _ _ E) in Hfin).
  assert (forall w' fs', builder_ w' = None -> completed_outputs_ w' = completed_outputs_ w -> released_ w' = false ->
    (forall path, path <> sst n -> path <> tmp n -> fs' !! path = fs !! path) ->
    (fs' !! sst n = None \/ effective (sst n) = false) -> (fs' !! tmp n = None \/ effective (tmp n) = false) -> writer_frame w' fs') as Hfail.
  { intros w' fs' Hb1 Hc1 Hr1 Hsame Hs1 Ht1. apply frame_intro; [|intros path Hown|intros path Hown|by intros b1 ?; congruence|done].
    - intros path. destruct (decide (path = sst n)) as [->|H1]; [rewrite H0n; destruct Hs1; [by left|right; split; [right; split; [done|exists n; auto]|done]]|].
      destruct (decide (path = tmp n)) as [->|H2]; [rewrite Htmp; destruct Ht1; [by left|right; split; [right; split; [done|exists n; auto]|done]]|]. rewrite Hsame by done.
      destruct (writer_inv_paths w fs done cur path Hw) as [|[(o & Hin & ->)|(b1 & _ & ?)]]; [by left| |done].
      right. split; [left; left; exists o; by rewrite Hc1|by apply Hn].
    - apply (owned_none w) in Hown; [|done..]. by apply (wf_fresh _ _ Hfr).
    - apply (owned_none w) in Hown; [|done..]. by apply (wf_tables _ _ Hfr). }
  unfold renameTable. destruct (ov_rename (envs n)) as [error|] eqn:Er.
  { apply writer_fails; [done| |intros [Hbe _]; destruct (Hbe n) as (_ & _ & _ & ? & _); congruence].
    apply Hfail; try done; [intros path H1 H2| |apply removed_gone].
    - destruct (removed_lookup effective (tmp n) (<[tmp n := f]> fs) path) as [->|[? _]]; [by rewrite lookup_insert_ne|done].
    - left. destruct (removed_lookup effective (tmp n) (<[tmp n := f]> fs) (sst n)) as [->|[? _]]; [by rewrite lookup_insert_ne|done]. }
  change (negb (ok success)) with false. cbn iota. unfold fs_rename. rewrite lookup_insert_eq, delete_insert_eq.
  set (fs2 := <[sst n := f]> (delete (tmp n) fs)).
  assert (forall path, path <> sst n -> path <> tmp n -> fs2 !! path = fs !! path) as Hsame
    by (intros path H1 H2; unfold fs2; by rewrite lookup_insert_ne, lookup_delete_ne).
  assert (fs2 !! sst n = Some f) as Hat by apply lookup_insert_eq.
  assert (fs2 !! tmp n = None) as Htn by (unfold fs2; by rewrite lookup_insert_ne, lookup_delete_eq).
  destruct (reader_opens strerror (ov_open (envs n)) (sst n) fs2 cur c (length c) (sstableFileName_nonempty _ _) Hat Hrun Ht) as (r & -> & Hr).
  cbn [mbind option_bind]. destruct r as [opened|st].
  2:{ destruct Hr as [Hst' Hnb]. apply writer_fails; [done| |intros [Hbe _]; destruct (Hbe n) as (_ & _ & _ & _ & ?); done].
      apply Hfail; try done; [intros path H1 H2|apply removed_gone|].
      - destruct (removed_lookup effective (sst n) fs2 path) as [->|[? _]]; [by apply Hsame|done].
      - left. destruct (removed_lookup effective (sst n) fs2 (tmp n)) as [->|[? _]]; [done|congruence]. }
  eexists _, fs2, success. split; [done|]. left. split; [done|]. split; [|done]. cbn [file_size smallest_key largest_key].
  set (o := mkCompactionOutput _ opened).
  assert (output_holds fs2 o cur) as Hoh.
  { split; [|done]. split; [|done..]. exists c. split_and!; [exact Hat|done|done]. }
  split; simpl; [| | | |done|done| |done].
  - apply map_incl. intros path g Hg. assert (path <> sst n /\ path <> tmp n) as [H1 H2] by (split; intros ->; congruence).
    rewrite Hsame by done. by apply (map_incl fs0 fs).
  - intros path. destruct (decide (path = sst n)) as [->|H1]; [right; left; exists o; split; [set_solver|done]|].
    destruct (decide (path = tmp n)) as [->|H2]; [left; by rewrite Htn|]. rewrite Hsame by done.
    destruct (writer_inv_paths w fs done cur path Hw) as [|[(o' & Hin & ->)|(b1 & _ & ?)]]; [by left| |done].
    right. left. exists o'. simpl. split; [set_solver|done].
  - apply Forall2_app; [|by constructor]. eapply Forall2_impl; [|exact Hd]. intros o' run Hoh'. by apply (output_holds_other fs fs2 n).
  - intros o' [Hin|Hin]%elem_of_app; [by apply Hn|]. apply list_elem_of_singleton in Hin as ->. done.
  - apply keys_sorted_app. split_and!; [done|repeat constructor|]. intros e e' _ He'. simpl in He'. by apply elem_of_nil in He'.
Qed.

Lemma openOutput_spec w fs done :
  writer_inv w fs done [] -> builder_ w = None ->
  writer_goes (openOutput strerror envs directory allocate w fs)
    (fun w' fs' => writer_inv w' fs' done [] /\ is_Some (builder_ w')).
Proof.
  intros Hw Hb. pose proof Hw as [Hi Ho Hd Hn _ _ Hs Hrel]. pose proof (writer_inv_frame _ _ _ _ Hw) as Hfr.
  assert (forall n last i, writer_frame (mkWriter (builder_ w) (completed_outputs_ w) n last (released_ w) i) fs) as Hframe
    by (intros n last i; destruct Hfr; by split).
  assert (forall path n, fresh_numbers (S (allocated_ w)) -> allocate (allocated_ w) = Ok n -> (path = sst n \/ path = tmp n) -> fs !! path = None) as Hnew.
  { intros path n [Hf Hinj] Ha Hp. destruct (Hf (allocated_ w) ltac:(simpl; lia)) as (n' & Ha' & Hpos & H1 & H2). rewrite Ha in Ha'. injection Ha' as <-.
    pose proof (Halloc (allocated_ w)) as Hr. rewrite Ha in Hr. destruct (writer_inv_paths w fs done [] path Hw) as [->|[(o & Hin & ->)|(b & ? & _)]]; [by destruct Hp; subst| |congruence].
    destruct (Forall2_elem_l _ _ _ _ Hd Hin) as (run & _ & _ & _ & Hnum). destruct Hp as [Hp|Hp]; [|exfalso; revert Hp; apply sst_not_tmp; [done|lia]].
    apply sst_inj in Hp; [|done|lia]. destruct (proj2 (Hn o Hin)) as (j & Hj & Haj). rewrite Hp in Haj. pose proof (Hinj (allocated_ w) j _ ltac:(lia) ltac:(lia) Ha Haj). lia. }
  unfold openOutput. pose proof (Halloc (allocated_ w)) as Hrange. destruct (allocate (allocated_ w)) as [n|st] eqn:Ea.
  2:{ apply writer_fails; [done|done|]. intros [_ [Hf _]]. destruct (Hf (allocated_ w) ltac:(simpl; lia)) as (? & ? & _). congruence. }
  cbn [builder_ completed_outputs_ last_user_key_ released_ allocated_ current_number_].
  destruct (Z.eqb_spec n 0) as [->|Hnz].
  { apply writer_fails; [done|done|]. intros [_ [Hf _]]. destruct (Hf (allocated_ w) ltac:(simpl; lia)) as (n' & Ha & Hpos & _). rewrite Ea in Ha. injection Ha as <-. lia. }
  destruct (ov_exists (envs n)) as [error|] eqn:Eex.
  { apply writer_fails; [done|done|]. intros [Hbe _]. destruct (Hbe n) as (? & _). congruence. }
  destruct (fs !! sst n) as [f|] eqn:Efin.
  { apply writer_fails; [done|done|]. intros [_ Hf]. rewrite (Hnew (sst n) n) in Efin by auto. done. }
  destruct (tb_open_default_spec strerror (ov_create (envs n)) (ov_table (envs n)) (tmp n) fs (tmp_nonempty _ _)) as (fs' & r & -> & Hr).
  cbn [mbind option_bind]. destruct r as [b|st].
  2:{ destruct Hr as (Hst & -> & Hc). apply writer_fails; [done|done|]. intros [Hbe Hf]. destruct (Hbe n) as (_ & ? & _).
      destruct Hc as [Hc|[f Hc]]; [congruence|]. rewrite (Hnew (tmp n) n) in Hc by auto. done. }
  destruct Hr as (_ & Hnone & -> & Hinv & Henv & Hpath & Hun). eexists _, _, success. split; [done|]. left. split; [done|]. split; [|by eexists].
  assert (sst n <> tmp n) as Hst by (apply sst_not_tmp; lia).
  assert (fs0 !! tmp n = None) as H0 by (destruct (fs0 !! tmp n) eqn:E; [|done]; by rewrite (proj2 (map_incl fs0 fs) Hi _ _ E) in Hnone).
  split; simpl; [| | | | |done|done|done].
  - apply map_incl. intros path f Hf. rewrite lookup_insert_ne by congruence. by apply (map_incl fs0 fs).
  - intros path. destruct (decide (path = tmp n)) as [->|]; [right; right; exists b; by rewrite Hpath|]. rewrite lookup_insert_ne by done.
    destruct (writer_inv_paths w fs done [] path Hw) as [|[?|(b1 & ? & _)]]; [by left|right; by left|congruence].
  - eapply Forall2_impl; [|exact Hd]. intros o run Hoh. apply (output_holds_other fs _ n o run Hoh); [lia|done|].
    intros path H1 H2. by rewrite lookup_insert_ne.
  - intros o Hin. destruct (Hn o Hin) as [? (j & ? & ?)]. split; [done|]. exists j. simpl. split; [lia|done].
  - split; simpl; [by exists [], []|done|done|lia|exists (allocated_ w); simpl; split; [lia|done]|by rewrite lookup_insert_ne|done|].
    intros Hbe. rewrite Henv. by destruct (Hbe n) as (_ & _ & ? & _).
Qed.

(** Handing an entry to the builder. *)
Lemma put_spec w fs done cur b k v p :
  writer_inv w fs done cur -> builder_ w = Some b -> parseInternalKey k = Some p ->
  sorted_run (cur ++ [(k, v)]) -> table_room (cur ++ [(k, v)]) <= kUint32Max -> keys_before (concat done) [(k, v)] ->
  writer_goes
    ('(b, status) ← tb_add strerror b k v;
     let w := mkWriter (Some b) (completed_outputs_ w) (current_number_ w) (last_user_key_ w) (released_ w) (allocated_ w) in
     if negb (ok status) then Some (w, fs, status)
     else Some (mkWriter (Some b) (completed_outputs_ w) (current_number_ w) (user_key p) (released_ w) (allocated_ w), fs, success))
    (fun w' fs' => writer_inv w' fs' done (cur ++ [(k, v)])).
Proof.
  intros Hw Hb Hp Hrun Hroom Hk. pose proof Hw as [Hi Ho Hd Hn Hbh _ Hs Hrel]. rewrite Hb in Hbh.
  destruct (bh_entries _ _ _ _ Hbh) as (blocks & c & Hinv & <-). pose proof (writer_inv_frame _ _ _ _ Hw) as Hfr.
  destruct (tb_add_inv strerror b blocks c k v Hinv Hrun Hroom) as (b' & st & Hadd & Hc).
  destruct (tb_add_same _ _ _ _ _ _ Hadd) as (Hpath & Hun & Hstate). rewrite Hadd. cbn [mbind option_bind].
  assert (forall last path, owned (mkWriter (Some b') (completed_outputs_ w) (current_number_ w) last (released_ w) (allocated_ w)) path <-> owned w path) as Hown.
  { intros last path. unfold owned. simpl. rewrite Hb. split; (intros [?|(b1 & [= <-] & ->)]; [by left|right]); [exists b|exists b']; (split; [done|congruence]). }
  destruct Hc as [(-> & Hbn & blocks' & c' & Hinv' & He)|[Hst Hnb]].
  2:{ rewrite Hst. apply writer_fails; [done| |intros [Hbe _]; by apply Hnb, (bh_benign _ _ _ _ Hbh)].
      destruct Hfr as [F1 F2 F3 Ft F4 F5]. split; [done|intros path Hq; apply F2, (Hown (last_user_key_ w)), Hq| |intros path Hq; apply Ft, (Hown (last_user_key_ w)), Hq| |done].
      - intros path. rewrite Hown. apply F3.
      - intros b1 [= <-]. rewrite Hstate. by apply F4. }
  change (negb (ok success)) with false. cbn iota. eexists _, _, success. split; [done|]. left. split; [done|].
  split; [done| |done|done| | | |done]; simpl.
  - intros path. rewrite Hown. apply Ho.
  - destruct Hbh as [_ H1 H2 H3 H4 H5 H6 H7]. split; simpl; [by exists blocks', c'|congruence|congruence|done..|auto].
  - intros _. rewrite final_key_snoc. by apply parse_uk.
  - apply keys_sorted_app in Hs as (H1 & _ & H2). apply keys_sorted_app. split_and!; [done|repeat constructor|].
    simpl in *. rewrite app_nil_r in *. by apply keys_before_app_r.
Qed.

Lemma keys_before_snoc a cur e : keys_before a cur -> cur <> [] -> sorted_run (cur ++ [e]) -> keys_before a [e].
Proof.
  intros Hk Hne Hs x y Hx ->%list_elem_of_singleton. destruct cur as [|z cur]; [done|]. simpl in Hs.
  apply bytes_ltb_leb_trans with (uk z.1); [apply Hk; set_solver|]. apply (first_uk z (cur ++ [e])); [done|set_solver].
Qed.

Lemma keys_before_new_key cur e : sorted_run (cur ++ [e]) -> uk (final_key cur) <> uk e.1 -> keys_before cur [e].
Proof.
  intros Hs Hne x y Hx ->%list_elem_of_singleton. apply sorted_run_app in Hs as (Hc & _ & Hlt).
  assert (cur <> []) as Hcur by (intros ->; by apply elem_of_nil in Hx).
  apply bytes_leb_ltb_trans with (uk (final_key cur)); [by apply final_uk|]. destruct (final_key_in cur Hcur) as [v Hv].
  specialize (Hlt _ e Hv ltac:(set_solver)). apply entry_lt_uk in Hlt. simpl in Hlt.
  destruct (bytes_ltb (uk (final_key cur)) (uk e.1)) eqn:E; [done|]. destruct Hne. by apply bytes_ltb_total.
Qed.

Lemma writer_goes_bind res (P Q : CompactionOutputWriter -> Directory -> Prop) f :
  writer_goes res P -> (forall w fs, P w fs -> writer_goes (f w fs) Q) ->
  writer_goes ('(w, fs, status) ← res; if negb (ok status) then Some (w, fs, status) else f w fs) Q.
Proof.
  intros (w & fs & st & -> & [[-> Hp]|(Hst & Hf & Hn)]) Hq; cbn [mbind option_bind].
  - change (negb (ok success)) with false. cbn iota. by apply Hq.
  - rewrite Hst. by apply writer_fails.
Qed.

Lemma writer_goes_done w fs (P : CompactionOutputWriter -> Directory -> Prop) : P w fs -> writer_goes (Some (w, fs, success)) P.
Proof. intros Hp. exists w, fs, success. auto. Qed.

(** What holds between two [add]s, and after each. *)
Definition between_adds (w : CompactionOutputWriter) (done : list (list entry)) (cur : list entry) : Prop :=
  match builder_ w with Some _ => cur <> [] | None => done = [] end.

Lemma writer_finish_spec w fs done cur :
  writer_inv w fs done cur -> between_adds w done cur -> sorted_run cur -> table_room cur <= kUint32Max ->
  exists w' fs' r, writer_finish strerror envs effective directory w fs = Some (w', fs', r) /\
    match r with
    | Ok outputs => builder_ w' = None /\ released_ w' = true /\ fs0 ⊆ fs' /\
        (forall path, fs' !! path = fs0 !! path \/ exists o, o ∈ outputs /\ path = sst (tm_number (co_meta o))) /\
        (forall o, o ∈ outputs -> fs0 !! sst (tm_number (co_meta o)) = None /\ was_allocated w' (tm_number (co_meta o))) /\
        exists outs, Forall2 (output_holds fs') outputs outs /\ concat outs = concat done ++ cur /\ StronglySorted keys_before outs
    | Err st => ok st = false /\ writer_frame w' fs' /\ ~ writes_benign (allocated_ w')
    end.
Proof.
  intros Hw Hbt Hs Hroom. unfold writer_finish.
  assert (forall w1 fs1 done1, writer_inv w1 fs1 done1 [] -> builder_ w1 = None ->
    fs0 ⊆ fs1 /\ (forall path, fs1 !! path = fs0 !! path \/ exists o, o ∈ completed_outputs_ w1 /\ path = sst (tm_number (co_meta o))) /\
    (forall o, o ∈ completed_outputs_ w1 -> fs0 !! sst (tm_number (co_meta o)) = None /\ was_allocated w1 (tm_number (co_meta o))) /\
    Forall2 (output_holds fs1) (completed_outputs_ w1) done1 /\ StronglySorted keys_before done1) as Hdone.
  { intros w1 fs1 done1 Hw1 Hb1. pose proof Hw1 as [Hi _ Hd Hnew _ _ Hss _]. apply keys_sorted_app in Hss as (? & _). split_and!; try done.
    intros path. destruct (writer_inv_paths _ _ _ _ path Hw1) as [|[?|(b & ? & _)]]; [by left|by right|congruence]. }
  unfold between_adds in Hbt. destruct (builder_ w) as [b|] eqn:Hb.
  - destruct (finishOutput_spec w fs done cur b Hw Hb Hbt Hs Hroom) as (w1 & fs1 & st & -> & Hc). cbn [mbind option_bind].
    destruct Hc as [[-> [Hw1 Hb1]]|(Hst & Hf & Hn)]; [|rewrite Hst; by eexists _, _, _].
    change (negb (ok success)) with false. cbn iota. eexists _, _, _. split; [done|]. simpl.
    destruct (Hdone w1 fs1 _ Hw1 Hb1) as (? & ? & Hnew & ? & ?). split_and!; try done. exists (done ++ [cur]). rewrite concat_app. simpl.
    by rewrite app_nil_r.
  - cbn [mbind option_bind]. change (negb (ok success)) with false. cbn iota. eexists _, _, _. split; [done|]. simpl.
    pose proof (wi_builder _ _ _ _ Hw) as Hc. rewrite Hb in Hc. subst cur. destruct (Hdone w fs done Hw Hb) as (? & ? & Hnew & ? & ?).
    split_and!; try done. exists done. by rewrite app_nil_r.
Qed.

Context (target : Z).

Lemma writer_add_spec w fs done cur k v p :
  writer_inv w fs done cur -> between_adds w done cur -> parseInternalKey k = Some p ->
  sorted_run (concat done ++ cur ++ [(k, v)]) -> table_room (concat done ++ cur ++ [(k, v)]) <= kUint32Max ->
  writer_goes (writer_add strerror envs effective directory allocate target w k (user_key p) v fs)
    (fun w' fs' => exists done' cur', writer_inv w' fs' done' cur' /\ between_adds w' done' cur' /\
       concat done' ++ cur' = concat done ++ cur ++ [(k, v)]).
Proof.
  intros Hw Hbt Hp Hs Hroom. rewrite !table_room_app in Hroom. pose proof (table_room_nonneg (concat done)). pose proof (table_room_nonneg cur). pose proof (table_room_nonneg [(k, v)]).
  pose proof (sorted_run_suffix _ _ Hs) as Hs'. pose proof (proj1 (sorted_run_app cur [(k, v)])) as Hc0.
  pose proof (wi_sorted _ _ _ _ Hw) as Hks. apply keys_sorted_app in Hks as (_ & _ & Hks). simpl in Hks. rewrite app_nil_r in Hks.
  unfold writer_add.
  apply (writer_goes_bind _ (fun w1 fs1 => exists done1 cur1, writer_inv w1 fs1 done1 cur1 /\ concat done1 ++ cur1 = concat done ++ cur /\
    (cur1 = [] \/ cur1 = cur) /\ keys_before (concat done1) [(k, v)])).
  - unfold between_adds in Hbt. destruct (builder_ w) as [b|] eqn:Hb.
    2:{ apply writer_goes_done. exists done, cur. split_and!; [done|done|by right|]. rewrite Hbt. intros ? ? He. by apply elem_of_nil in He. }
    destruct (negb _ && _) eqn:Ec.
    2:{ apply writer_goes_done. exists done, cur. split_and!; [done|done|by right|by apply keys_before_snoc with cur]. }
    apply andb_true_iff in Ec as [Ec _]. unfold bytes_eqb in Ec. apply negb_true_iff, bool_decide_eq_false in Ec.
    rewrite (wi_last _ _ _ _ Hw Hbt), (parse_uk _ _ Hp) in Ec.
    destruct (finishOutput_spec w fs done cur b Hw Hb Hbt) as (w1 & fs1 & st & -> & Hc); [by apply Hc0|lia|].
    exists w1, fs1, st. split; [done|]. destruct Hc as [[-> [Hw1 _]]|?]; [left|by right]. split; [done|].
    exists (done ++ [cur]), []. rewrite concat_app. simpl. rewrite !app_nil_r. split_and!; [done|done|by left|].
    apply keys_before_app_l. split; [by apply keys_before_snoc with cur|by apply keys_before_new_key].
  - intros w1 fs1 (done1 & cur1 & Hw1 & Heq & Hcur & Hk1).
    assert (sorted_run (cur1 ++ [(k, v)])) as Hs1.
    { rewrite app_assoc, <- Heq, <- app_assoc in Hs. by apply sorted_run_suffix in Hs. }
    assert (table_room (cur1 ++ [(k, v)]) <= kUint32Max) as Hroom1.
    { rewrite table_room_app. destruct Hcur as [-> | ->]; [change (table_room []) with 0|]; lia. }
    apply (writer_goes_bind _ (fun w2 fs2 => writer_inv w2 fs2 done1 cur1 /\ is_Some (builder_ w2))).
    + destruct (builder_ w1) as [b|] eqn:Hb1; [apply writer_goes_done; rewrite Hb1; by eauto|].
      pose proof (wi_builder _ _ _ _ Hw1) as Hb1'. rewrite Hb1 in Hb1'. subst cur1. by apply openOutput_spec.
    + intros w2 fs2 [Hw2 [b Hb2]]. rewrite Hb2. cbn [mbind option_bind].
      destruct (put_spec w2 fs2 done1 cur1 b k v p Hw2 Hb2 Hp Hs1 Hroom1 Hk1) as (w3 & fs3 & st & Hput & Hc).
      exists w3, fs3, st. split; [exact Hput|]. destruct Hc as [[-> Hw3]|?]; [left|by right]. split; [done|].
      exists done1, (cur1 ++ [(k, v)]). split_and!; [done| |by rewrite !app_assoc, Heq].
      unfold between_adds. pose proof (wi_builder _ _ _ _ Hw3) as Hb3. destruct (builder_ w3); [by destruct cur1|by destruct cur1].
Qed.

(** ** The merge loop *)

Lemma merge_loop_spec v R first oldest fuel : forall (m : MergingIterator SSTableIterator) es rest prev d bound w fs done cur,
  version_holds v R -> (1 <= first)%nat -> it_at m es rest -> (length rest < fuel)%nat ->
  (prev = [] \/ Forall (fun e : entry => InternalKeyLess prev e.1 = true) rest) ->
  checker_ok v first (base_level d) bound -> from_key bound rest ->
  writer_inv w fs done cur -> between_adds w done cur ->
  let kept := compact_run oldest (base_test v first) (current_user_key d) (last_sequence_for_key d) rest in
  sorted_run ((concat done ++ cur) ++ kept) -> table_room ((concat done ++ cur) ++ kept) <= kUint32Max ->
  exists w' fs' st, merge_loop strerror envs effective directory allocate target fuel oldest m prev d w fs = Some (w', fs', st) /\
    ((st = success /\ exists done' cur', writer_inv w' fs' done' cur' /\ between_adds w' done' cur' /\
        concat done' ++ cur' = (concat done ++ cur) ++ kept) \/
     (ok st = false /\ writer_frame w' fs' /\ ~ (writes_benign (allocated_ w') /\ it_benign m))).
Proof.
  induction fuel as [|fuel IH]; intros m es rest prev d bound w fs done cur Hv H1 Hat Hf Hprev Hc Hfk Hw Hbt kept Hs Hroom; [lia|].
  cbn [merge_loop]. destruct rest as [|[k v'] rest].
  { change (mg_valid m) with (it_valid m). rewrite (at_end _ _ Hat). simpl. eexists _, _, _. split; [done|]. left. split; [done|].
    exists done, cur. split_and!; [done..|]. unfold kept. simpl. by rewrite app_nil_r. }
  destruct (at_entry _ _ _ _ _ Hat) as (Hval & Hk & Hvalue). change (mg_valid m) with (it_valid m). rewrite Hval. cbn [negb].
  change (mg_internalKey m) with (it_internalKey m). rewrite Hk. cbn [mbind option_bind].
  assert (negb (bool_decide (prev = [])) && negb (InternalKeyLess prev k) = false) as ->.
  { destruct Hprev as [->|Hlt]; [done|]. apply Forall_cons_iff in Hlt as [Hlt _]. simpl in Hlt. by rewrite Hlt, andb_false_r. }
  pose proof (at_run _ _ _ Hat) as Hrun. destruct (proj1 (sorted_run_cons _ _) Hrun) as ([p Hp] & Hlt & Hrun'). simpl in Hp. rewrite Hp.
  pose proof (sorted_from_key _ p rest Hrun Hp) as Hfk'. apply Forall_cons_iff in Hfk as [Hbe _]. specialize (Hbe p Hp).
  destruct (drop_entry_spec v R first oldest p d bound Hv H1 Hc Hbe) as (c & -> & Hc'). cbn [mbind option_bind].
  unfold kept in *. clear kept. cbn [compact_run fst] in *. rewrite Hp in Hs, Hroom |- *.
  fold (dropped oldest (base_test v first) (current_user_key d) (last_sequence_for_key d) p) in *.
  set (kept := compact_run oldest (base_test v first) (user_key p) (sequence p) rest) in *.
  set (dr := dropped _ _ _ _ _) in *.
  assert (writer_goes (if dr then Some (w, fs, success) else value ← mg_value m; writer_add strerror envs effective directory allocate target w k (user_key p) value fs)
    (fun w' fs' => exists done' cur', writer_inv w' fs' done' cur' /\ between_adds w' done' cur' /\
       (concat done' ++ cur') ++ kept = (concat done ++ cur) ++ (if dr then kept else (k, v') :: kept))) as Hgo.
  { destruct dr.
    - apply writer_goes_done. eauto.
    - change (mg_value m) with (it_value m). rewrite Hvalue. cbn [mbind option_bind].
      assert ((concat done ++ cur) ++ (k, v') :: kept = (concat done ++ cur ++ [(k, v')]) ++ kept) as Heq by (by rewrite <- !app_assoc).
      rewrite Heq in *. apply sorted_run_app in Hs as (Hs1 & _ & _). rewrite (table_room_app _ kept) in Hroom. pose proof (table_room_nonneg kept).
      destruct (writer_add_spec w fs done cur k v' p Hw Hbt Hp Hs1) as (w' & fs' & st & -> & Hcase); [lia|].
      exists w', fs', st. split; [done|]. destruct Hcase as [[-> (done' & cur' & ? & ? & Hcat)]|?]; [left|by right]. split; [done|].
      exists done', cur'. split_and!; [done|done|]. by rewrite Hcat. }
  destruct Hgo as (w1 & fs1 & st & -> & Hcase). cbn [mbind option_bind]. destruct Hcase as [[-> (done1 & cur1 & Hw1 & Hbt1 & Hcat)]|(Hst & Hfr & Hn)].
  2:{ rewrite Hst. eexists _, _, _. split; [done|]. right. split_and!; [done|done|tauto]. }
  change (negb (ok success)) with false. cbn iota. destruct (spec_next _ _ _ _ Hat) as (m' & Hm' & Hmv).
  change (mg_next m) with (it_next m). rewrite Hm'. cbn [mbind option_bind]. change (mg_status_ m') with (it_status m').
  destruct Hmv as [[Hat' Hben]|[Hbad Hnb]].
  2:{ rewrite Hbad. eexists _, _, _. split; [done|]. right. split_and!; [done|by eapply writer_inv_frame|tauto]. }
  rewrite (at_ok _ _ _ Hat'). change (negb (ok success)) with false. cbn iota. simpl in Hf.
  destruct (IH m' es rest k (mkDropState (user_key p) (sequence p) c) (user_key p) w1 fs1 done1 cur1) as (w2 & fs2 & st & -> & Hfin); try done.
  - lia.
  - by right.
  - simpl. fold kept. by rewrite Hcat.
  - simpl. fold kept. by rewrite Hcat.
  - exists w2, fs2, st. split; [done|]. simpl in Hfin. fold kept in Hfin. rewrite Hcat in Hfin.
    destruct Hfin as [?|(? & ? & ?)]; [by left|right]. split_and!; [done|done|tauto].
Qed.
End writer_spec.

(** ** Building the tables of a plan *)

Definition sort_run (es : list entry) : list entry := foldr insert_run [] es.

Lemma sort_run_perm es : sort_run es ≡ₚ es.
Proof. induction es as [|e es IH]; [done|]. simpl. by rewrite insert_run_perm, IH. Qed.

Lemma sort_run_sorted es : NoDup (map fst es) -> Forall entry_valid es -> sorted_run (sort_run es).
Proof.
  induction es as [|e es IH]; intros Hnd Hv; [by split; constructor|]. simpl in *. apply list.NoDup_cons in Hnd as [Hn Hnd].
  apply Forall_cons_iff in Hv as [He Hv]. apply insert_run_sorted; [by apply IH|done|].
  intros Hin. apply Hn. apply list_elem_of_In, in_map_iff in Hin as (x & <- & Hx). apply list_elem_of_In in Hx. rewrite sort_run_perm in Hx.
  apply list_elem_of_In, in_map. by apply list_elem_of_In.
Qed.

Lemma compaction_input_run v R plan : version_holds v R -> layers_ok (version_layers R) -> plan_ok v R plan ->
  sorted_run (sort_run (compaction_input R plan)).
Proof.
  intros Hv Hl Hp. pose proof (compaction_old v R plan Hv Hp) as Hperm. pose proof (layers_nodup _ Hl (runs_sorted v R Hv)) as Hnd.
  pose proof (runs_sorted v R Hv) as Hruns. apply sort_run_sorted.
  - rewrite Hperm, !map_app in Hnd. apply list.NoDup_app in Hnd as (_ & _ & Hnd). by apply list.NoDup_app in Hnd as (? & _).
  - rewrite Forall_elem. intros e He. assert (e ∈ concat (version_layers R)) as Hin by (rewrite Hperm; set_solver).
    apply in_concat_elem in Hin as (l & Hl' & Hin). rewrite Forall_elem in Hruns. destruct (Hruns l Hl') as [_ Hval].
    rewrite Forall_elem in Hval. by apply Hval.
Qed.

Lemma add_iterator_spec reads t es : serves t es ->
  exists r, add_iterator reads t = Some r /\
    match r with
    | Ok it => it_on it es /\ (benign_reads reads -> it_benign it)
    | Err st => ok st = false /\ ~ benign_reads reads
    end.
Proof.
  intros Ht. unfold add_iterator. destruct (newSSTableIterator_on (reads t) (t_reader t) es true (sv_reader _ _ Ht)) as (it & -> & Hon & He).
  cbn [mbind option_bind]. destruct (spec_seekToFirst it es Hon) as (it' & Hs & Hm). change (si_seekToFirst it) with (it_seekToFirst it).
  rewrite Hs. cbn [mbind option_bind]. change (si_status it') with (it_status it'). change (si_valid it') with (it_valid it').
  assert (benign_reads reads -> it_benign it) as Hb by (intros Hb; simpl; unfold si_benign; rewrite He; apply Hb).
  destruct Hm as [[Hat Hb']|[Hbad Hn]].
  - rewrite (at_ok _ _ _ Hat), (at_valid _ _ _ Hat). rewrite bool_decide_false by apply Ht. change (negb (ok success)) with false. cbn [negb]. cbn iota.
    eexists. split; [done|]. split; [by eapply at_on|auto].
  - rewrite Hbad. simpl. eexists. split; [done|]. split; [done|]. tauto.
Qed.

Lemma add_iterators_spec reads tables runs : Forall2 serves tables runs ->
  exists r, add_iterators reads tables = Some r /\
    match r with
    | Ok its => Forall2 it_on its runs /\ (benign_reads reads -> Forall it_benign its)
    | Err st => ok st = false /\ ~ benign_reads reads
    end.
Proof.
  induction 1 as [|t es tables runs Ht _ IH]; [by eexists; repeat split; constructor|]. cbn [add_iterators].
  destruct (add_iterator_spec reads t es Ht) as (r & -> & Hr). cbn [mbind option_bind]. destruct r as [it|st]; [|by eexists].
  destruct IH as (r & -> & IH). cbn [mbind option_bind]. eexists. split; [done|]. destruct r as [its|st]; [|done].
  destruct Hr as [Hon Hb], IH as [Hons Hbs]. split; [by constructor|]. intros ?. constructor; auto.
Qed.

Lemma newWriter_inv envs directory allocate fs :
  writer_inv envs directory allocate fs newWriter fs [] [] /\ between_adds newWriter [] [].
Proof.
  split; [|done]. split; simpl; [done|by left|constructor|intros o Ho; by apply elem_of_nil in Ho|done|done|repeat constructor|done].
Qed.

(** The surviving entries of a plan. *)
Definition compaction_output (v : Version) (R : Levels (list entry)) (plan : CompactionPlan) : list entry :=
  compact_run (oldest_snapshot plan) (base_test v (outputLevel plan + 1)) [] kMaxSequenceNumber (sort_run (compaction_input R plan)).

Lemma buildCompactionTables_spec strerror envs effective reads fuel v R plan directory allocate options fs :
  version_holds v R -> layers_ok (version_layers R) -> plan_ok v R plan -> output_bytes options <> 0 ->
  (forall i, match allocate i with Ok n => 0 <= n <= kUint64Max | Err st => ok st = false end) ->
  table_room (compaction_input R plan) <= kUint32Max -> (length (compaction_input R plan) < fuel)%nat ->
  exists fs' n res, buildCompactionTables strerror envs effective reads fuel plan directory (Some allocate) options fs = Some (fs', n, res) /\
    fs ⊆ fs' /\
    match res with
    | Ok outputs =>
        (forall path, fs' !! path = fs !! path \/ exists o, o ∈ outputs /\ path = sstableFileName directory (tm_number (co_meta o))) /\
        (forall o, o ∈ outputs -> fs !! sstableFileName directory (tm_number (co_meta o)) = None /\
           exists i, (i < n)%nat /\ allocate i = Ok (tm_number (co_meta o))) /\
        exists outs, Forall2 (output_holds directory fs') outputs outs /\ StronglySorted keys_before outs /\
          concat outs = compaction_output v R plan
    | Err st => ok st = false /\ ~ (writes_benign envs directory allocate fs n /\ benign_reads reads) /\
        forall path, fs' !! path = fs !! path \/ left_behind effective directory path
    end.
Proof.
  intros Hv Hl Hp Hopt Halloc Hroom Hfuel. pose proof Hp as [Hver Hch Hin Hov _ _].
  assert (exists src tgt, level_at v (input_level plan) = Some src /\ level_at v (outputLevel plan) = Some tgt /\ (input_level plan + 1 < kNumLevels)%nat)
    as (src & tgt & Es & Et & Hlev) by (unfold outputLevel, kNumLevels; destruct Hch as [[-> _]|[-> _]]; simpl; eauto with lia).
  unfold buildCompactionTables. rewrite Hver. rewrite Es in Hin. rewrite Et in Hov. simpl in Hin, Hov.
  destruct (Nat.leb_spec kNumLevels (input_level plan + 1)); [lia|]. destruct (Nat.leb_spec (ir_end (inputs plan)) (ir_begin (inputs plan))); [lia|].
  destruct (Z.eqb_spec (output_bytes options) 0); [done|]. rewrite bool_decide_false by done. cbn [orb mbind option_bind]. rewrite Es, Et.
  cbn [mbind option_bind]. destruct (Nat.ltb_spec (length src) (ir_end (inputs plan))); [lia|].
  destruct (Nat.ltb_spec (ir_end (overlaps plan)) (ir_begin (overlaps plan))); [lia|]. destruct (Nat.ltb_spec (length tgt) (ir_end (overlaps plan))); [lia|].
  cbn [orb]. set (M := sort_run (compaction_input R plan)).
  pose proof (compaction_input_run v R plan Hv Hl Hp) as HM. fold M in HM. pose proof (sort_run_perm (compaction_input R plan)) as HMp. fold M in HMp.
  pose proof (levels_hold_at _ _ _ (input_level plan) Hv) as Hsrc. pose proof (levels_hold_at _ _ _ (outputLevel plan) Hv) as Htgt.
  rewrite Es in Hsrc. rewrite Et in Htgt. simpl in Hsrc, Htgt.
  destruct (add_iterators_spec reads _ _ (Forall2_app (slice_hold _ _ _ (inputs plan) Hsrc) (slice_hold _ _ _ (overlaps plan) Htgt))) as (r & -> & Hr).
  cbn [mbind option_bind]. destruct r as [its|st]; [|exists fs, 0%nat, (Err st); split; [done|]; split; [done|]; cbn iota; split_and!; [tauto|tauto|auto]].
  destruct Hr as [Hons Hbs]. assert (it_on (newMergingIterator its) M) as Hon.
  { split_and!; [done|done|]. eexists. split; [exact Hons|]. by rewrite concat_app, HMp. }
  destruct (spec_seekToFirst _ _ Hon) as (m & Hm & Hmv). change (mg_seekToFirst (newMergingIterator its)) with (it_seekToFirst (newMergingIterator its)).
  rewrite Hm. cbn [mbind option_bind]. change (mg_status_ m) with (it_status m). destruct Hmv as [[Hat Hben]|[Hbad Hn]].
  2:{ rewrite Hbad. eexists fs, 0%nat, _. split; [done|]. split; [done|]. cbn iota. split_and!; [done|intros [_ Hb]; by apply Hn, Hbs|auto]. }
  rewrite (at_ok _ _ _ Hat). change (negb (ok success)) with false. cbn iota.
  destruct (newWriter_inv envs directory allocate fs) as [Hw0 Hbt0].
  destruct (merge_loop_spec strerror envs effective directory allocate fs Halloc (output_bytes options) v R (outputLevel plan + 1) (oldest_snapshot plan)
    fuel m M M [] (newDropState (newBaseLevelChecker v plan)) [] newWriter fs [] [] Hv ltac:(lia) Hat) as (w & fs1 & st & -> & Hc).
  - by rewrite HMp.
  - by left.
  - apply checker_ok_new.
  - unfold from_key. rewrite Forall_elem. intros e _ q _. by destruct (user_key q).
  - done.
  - done.
  - simpl. eapply sorted_run_sublist; [apply compact_run_sublist|done].
  - simpl. etrans; [apply table_room_sublist, compact_run_sublist|]. by rewrite (table_room_perm _ _ HMp).
  - simpl in Hc. fold M in Hc. change (compact_run _ _ _ _ M) with (compaction_output v R plan) in Hc. cbn [mbind option_bind].
    destruct Hc as [[-> (done & cur & Hw & Hbt & Hcat)]|(Hst & Hfr & Hn)].
    2:{ rewrite Hst. destruct (writer_destroy_frame _ _ _ _ _ Hfr) as [Hinc Hpt]. eexists _, _, _. split; [done|]. split; [done|]. cbn iota. split_and!; [done| |done].
        intros [Hw Hb]. apply Hn. split; [done|]. apply Hben, Hbs, Hb. }
    change (negb (ok success)) with false. cbn iota.
    assert (compaction_output v R plan `sublist_of` M) as Hsub by apply compact_run_sublist.
    pose proof (sorted_run_sublist _ _ Hsub HM) as Hso. pose proof (table_room_sublist _ _ Hsub) as Hro.
    rewrite (table_room_perm _ _ HMp), <- Hcat, table_room_app in Hro. rewrite <- Hcat in Hso. pose proof (table_room_nonneg (concat done)).
    destruct (writer_finish_spec strerror envs effective directory allocate fs Halloc w fs1 done cur Hw Hbt) as (w' & fs' & r & -> & Hr).
    + by apply sorted_run_suffix in Hso.
    + lia.
    + cbn [mbind option_bind]. destruct r as [outputs|st].
      * destruct Hr as (Hb' & Hrel & Hincl & Hpaths & Hnew & outs & Ho & Hcc & Hss). eexists _, _, _. split; [done|].
        assert (writer_destroy effective directory w' fs' = fs') as -> by (unfold writer_destroy; by rewrite Hb', Hrel).
        split; [done|]. cbn iota. split; [done|]. split; [done|]. exists outs. split_and!; [done|done|]. by rewrite Hcc.
      * destruct Hr as (Hst & Hfr & Hn). destruct (writer_destroy_frame _ _ _ _ _ Hfr) as [Hinc Hpt]. eexists _, _, _. split; [done|]. split; [done|]. cbn iota. split_and!; [done|tauto|done].
Qed.

(** ** The version after the compaction *)

Definition output_table (o : CompactionOutput) : Table := mkTable (co_meta o) (co_reader o).

Lemma outputs_serve directory fs outputs outs :
  Forall2 (output_holds directory fs) outputs outs -> Forall2 serves (map output_table outputs) outs /\
  Forall2 (stored directory fs) (map co_meta outputs) outs /\ Forall sorted_run outs.
Proof.
  induction 1 as [|o run outputs outs (Hs & Hr & _) _ (IH1 & IH2 & IH3)]; [repeat constructor|].
  split_and!; constructor; try done; destruct Hs; [by split|done].
Qed.

Lemma stored_incl directory fs fs' meta es : fs ⊆ fs' -> stored directory fs meta es -> stored directory fs' meta es.
Proof. intros Hi [(c & Hf & ?) ? ? ? ?]. split; [|done..]. exists c. split; [|done]. by apply (map_incl fs fs'). Qed.

Lemma levels_hold_impl {A} (P Q : A -> list entry -> Prop) ls R : (forall x es, P x es -> Q x es) -> levels_hold P ls R -> levels_hold Q ls R.
Proof. intros Hpq []. split; try done; (eapply Forall2_impl; [|done]; done). Qed.

Lemma compaction_successor v R plan outputs outs directory fs fs' :
  version_holds v R -> layers_ok (version_layers R) -> plan_ok v R plan -> oldest_snapshot plan < kMaxSequenceNumber ->
  Forall2 (output_holds directory fs') outputs outs -> StronglySorted keys_before outs -> concat outs = compaction_output v R plan ->
  let R' := compact_levels R (input_level plan) (inputs plan) (overlaps plan) outs in
  exists v', withCompaction v (input_level plan) (inputs plan) (overlaps plan) (map output_table outputs) = Some v' /\
    version_holds v' R' /\ layers_ok (version_layers R') /\
    (forall metas, fs ⊆ fs' -> levels_hold (stored directory fs) metas R ->
       levels_hold (stored directory fs') (compact_levels metas (input_level plan) (inputs plan) (overlaps plan) (map co_meta outputs)) R') /\
    forall key seq, oldest_snapshot plan <= seq ->
      visible (mvcc_get (concat (version_layers R')) key seq) = visible (mvcc_get (concat (version_layers R)) key seq).
Proof.
  intros Hv Hl Hp Hmax Ho Hss Hcat R'. destruct (outputs_serve _ _ _ _ Ho) as (Hserve & Hstored & Hruns).
  pose proof (sort_run_perm (compaction_input R plan)) as HM. pose proof (compaction_input_run v R plan Hv Hl Hp) as HMs.
  assert (forall e, e ∈ concat outs -> e ∈ compaction_input R plan) as Hsub.
  { intros e He. rewrite Hcat in He. rewrite <- HM. eapply elem_of_sublist; [exact He|apply compact_run_sublist]. }
  destruct (compact_levels_sorted v R plan Hv Hp outs Hss Hsub) as [Hs1 Hs2].
  exists (compact_levels v (input_level plan) (inputs plan) (overlaps plan) (map output_table outputs)). split_and!.
  - unfold withCompaction. destruct Hp as [_ Hch Hin Hov _ _]. unfold outputLevel in Hov.
    destruct (Nat.ltb_spec (input_level plan + 1) kNumLevels); [|unfold kNumLevels in *; destruct Hch as [[Hi _]|[Hi _]]; lia].
    destruct (Nat.ltb_spec (ir_begin (inputs plan)) (ir_end (inputs plan))); [|lia]. cbn [assert_that mbind option_bind].
    destruct (level_at v (input_level plan)) as [src|] eqn:Es; [|by destruct Hch as [[Hi _]|[Hi _]]; rewrite Hi in Es]. simpl in Hin.
    destruct (level_at v (input_level plan + 1)) as [tgt|] eqn:Et; [|by destruct Hch as [[Hi _]|[Hi _]]; rewrite Hi in Et]. simpl in Hov.
    cbn [mbind option_bind]. destruct (Nat.leb_spec (ir_end (inputs plan)) (length src)); [|lia]. cbn [assert_that mbind option_bind].
    destruct (Nat.leb_spec (ir_begin (overlaps plan)) (ir_end (overlaps plan))); [|lia]. cbn [assert_that mbind option_bind].
    destruct (Nat.leb_spec (ir_end (overlaps plan)) (length tgt)); [|lia]. done.
  - by apply compact_hold.
  - by apply (compact_layers_ok v R plan Hv Hl Hp outs).
  - intros metas Hi Hm. apply compact_hold; [|done|done|done]. eapply levels_hold_impl; [|exact Hm]. intros x es. by apply stored_incl.
  - intros key seq Hseq. by apply (compaction_reads v R plan Hv Hl Hp (oldest_snapshot plan) (sort_run (compaction_input R plan))).
Qed.

(** ** Properties *)

(** C34. A compaction changes no read.  Whatever the system answers,
    [buildCompactionTables] returns; when it succeeds, replacing the inputs by
    the outputs gives a well-ordered version in which every lookup at or above
    the oldest snapshot finds what it found before, a deleted key and an absent
    key being the same to the caller; and it fails only when a system call
    fails.  The oldest snapshot is below the largest sequence number. *)
Theorem compaction_preserves_reads strerror envs effective reads fuel v R plan directory allocate options fs :
  version_holds v R -> layers_ok (version_layers R) -> plan_ok v R plan -> output_bytes options <> 0 ->
  (forall i, match allocate i with Ok n => 0 <= n <= kUint64Max | Err st => ok st = false end) ->
  table_room (compaction_input R plan) <= kUint32Max -> (length (compaction_input R plan) < fuel)%nat ->
  oldest_snapshot plan < kMaxSequenceNumber ->
  exists fs' n res, buildCompactionTables strerror envs effective reads fuel plan directory (Some allocate) options fs = Some (fs', n, res) /\
    match res with
    | Ok outputs => exists v' R',
        withCompaction v (input_level plan) (inputs plan) (overlaps plan) (map output_table outputs) = Some v' /\
        version_holds v' R' /\ layers_ok (version_layers R') /\
        forall key seq, oldest_snapshot plan <= seq ->
          visible (mvcc_get (concat (version_layers R')) key seq) = visible (mvcc_get (concat (version_layers R)) key seq)
    | Err st => ok st = false /\ ~ (writes_benign envs directory allocate fs n /\ benign_reads reads)
    end.
Proof.
  intros Hv Hl Hp Ho Ha Hroom Hfuel Hmax.
  destruct (buildCompactionTables_spec strerror envs effective reads fuel v R plan directory allocate options fs)
    as (fs' & n & res & Hb & Hi & Hres); [done..|]. exists fs', n, res. split; [done|]. destruct res as [outputs|]; [|by destruct Hres as (? & ? & _)].
  destruct Hres as (_ & _ & outs & H1 & H2 & H3).
  destruct (compaction_successor v R plan outputs outs directory fs fs' Hv Hl Hp Hmax H1 H2 H3) as (v' & ? & ? & ? & _ & ?). eauto 10.
Qed.

(** C35. A compaction is all or nothing in the directory.  No file that was there
    is changed or removed.  On success exactly the output tables are added, each
    complete, in key order, together holding the merged inputs without the
    superseded versions.  On an error nothing is added except the files whose
    removal failed. *)
Theorem compaction_build_atomic strerror envs effective reads fuel v R plan directory allocate options fs :
  version_holds v R -> layers_ok (version_layers R) -> plan_ok v R plan -> output_bytes options <> 0 ->
  (forall i, match allocate i with Ok n => 0 <= n <= kUint64Max | Err st => ok st = false end) ->
  table_room (compaction_input R plan) <= kUint32Max -> (length (compaction_input R plan) < fuel)%nat ->
  exists fs' n res, buildCompactionTables strerror envs effective reads fuel plan directory (Some allocate) options fs = Some (fs', n, res) /\
    fs ⊆ fs' /\
    match res with
    | Ok outputs =>
        (forall path, fs' !! path = fs !! path \/ exists o, o ∈ outputs /\ path = sstableFileName directory (tm_number (co_meta o))) /\
        exists outs, Forall2 (stored directory fs') (map co_meta outputs) outs /\ StronglySorted keys_before outs /\
          concat outs = compaction_output v R plan
    | Err _ => forall path, fs' !! path = fs !! path \/ left_behind effective directory path
    end.
Proof.
  intros Hv Hl Hp Ho Ha Hroom Hfuel.
  destruct (buildCompactionTables_spec strerror envs effective reads fuel v R plan directory allocate options fs)
    as (fs' & n & res & Hb & Hi & Hres); [done..|]. exists fs', n, res. split_and!; [done..|]. destruct res as [outputs|]; [|by destruct Hres as (_ & _ & ?)].
  destruct Hres as (? & _ & outs & H1 & H2 & H3). apply outputs_serve in H1 as (_ & ? & _). eauto.
Qed.

(** One table at level 1, moved to level 2. *)
Definition sample_options : CompactionOptions := mkCompactionOptions 1 100.
Definition sample_version (t : Table) : Version := mkLevels [] [t] [].
Definition sample_runs : Levels (list entry) := mkLevels [] [sample_run] [].
Definition sample_plan (t : Table) : CompactionPlan :=
  mkCompactionPlan (Some (sample_version t)) 6 1 (mkIndexRange 0 1) (mkIndexRange 0 0).
Definition sample_numbers (i : nat) : result Z := if (i <? 8)%nat then Ok (Z.of_nat i + 9) else Err (invalidArgument "numbers").
Definition sample_output_env : OutputEnv := mkOutputEnv None None sample_env None (mkOpenEnv None None None None []).

Lemma sample_numbers_range i : match sample_numbers i with Ok n => 0 <= n <= kUint64Max | Err st => ok st = false end.
Proof. unfold sample_numbers. destruct (Nat.ltb_spec i 8); [unfold kUint64Max; lia|done]. Qed.

Lemma sample_serves : exists t, serves t sample_run.
Proof.
  destruct (openTable_spec (fun _ => "") (mkOpenEnv None None None None []) "db" _ _ _ sample_stored) as (r & _ & Hr).
  destruct r as [t|]; [exists t; apply Hr|]. destruct Hr as [_ []]. repeat constructor.
Qed.

Lemma sample_version_holds t : serves t sample_run ->
  version_holds (sample_version t) sample_runs /\ layers_ok (version_layers sample_runs) /\ plan_ok (sample_version t) sample_runs (sample_plan t).
Proof.
  intros Ht. split_and!.
  - split; [constructor|constructor; [exact Ht|constructor]|constructor|repeat constructor|constructor].
  - unfold layers_ok, version_layers. simpl. repeat constructor. intros e e' p p' _ He'. by apply elem_of_nil in He'.
  - split; [done|by right|simpl; lia|simpl; lia|intros e x He; by apply elem_of_nil in He..].
Qed.

Lemma compaction_preserves_reads_witness : exists t,
  exists fs' n res, buildCompactionTables (fun _ => "") (fun _ => sample_output_env) (fun _ => true) (fun _ => sample_reads) 4
      (sample_plan t) "db" (Some sample_numbers) sample_options sample_directory = Some (fs', n, res) /\
    match res with
    | Ok outputs => exists v' R',
        withCompaction (sample_version t) 1 (mkIndexRange 0 1) (mkIndexRange 0 0) (map output_table outputs) = Some v' /\
        version_holds v' R' /\ layers_ok (version_layers R') /\
        forall key seq, 6 <= seq ->
          visible (mvcc_get (concat (version_layers R')) key seq) = visible (mvcc_get (concat (version_layers sample_runs)) key seq)
    | Err st => ok st = false /\ ~ (writes_benign (fun _ => sample_output_env) "db" sample_numbers sample_directory n /\
                                    benign_reads (fun _ => sample_reads))
    end.
Proof.
  destruct sample_serves as [t Ht]. destruct (sample_version_holds t Ht) as (Hv & Hl & Hp). exists t.
  apply (compaction_preserves_reads (fun _ => "") (fun _ => sample_output_env) (fun _ => true) (fun _ => sample_reads) 4
    (sample_version t) sample_runs (sample_plan t) "db" sample_numbers sample_options sample_directory);
    [exact Hv|exact Hl|exact Hp|discriminate|exact sample_numbers_range|vm_compute; discriminate|simpl; lia|reflexivity].
Defined.

Lemma compaction_build_atomic_witness : exists t fs' n res,
  buildCompactionTables (fun _ => "") (fun _ => sample_output_env) (fun _ => true) (fun _ => sample_reads) 4
      (sample_plan t) "db" (Some sample_numbers) sample_options sample_directory = Some (fs', n, res) /\
  sample_directory ⊆ fs' /\
  match res with
  | Ok outputs =>
      (forall path, fs' !! path = sample_directory !! path \/ exists o, o ∈ outputs /\ path = sstableFileName "db" (tm_number (co_meta o))) /\
      exists outs, Forall2 (stored "db" fs') (map co_meta outputs) outs /\ StronglySorted keys_before outs /\
        concat outs = compaction_output (sample_version t) sample_runs (sample_plan t)
  | Err _ => forall path, fs' !! path = sample_directory !! path \/ left_behind (fun _ => true) "db" path
  end.
Proof.
  destruct sample_serves as [t Ht]. destruct (sample_version_holds t Ht) as (Hv & Hl & Hp). exists t.
  apply (compaction_build_atomic (fun _ => "") (fun _ => sample_output_env) (fun _ => true) (fun _ => sample_reads) 4
    (sample_version t) sample_runs (sample_plan t) "db" sample_numbers sample_options sample_directory);
    [exact Hv|exact Hl|exact Hp|discriminate|exact sample_numbers_range|vm_compute; discriminate|simpl; lia].
Defined.

(** The sample compaction succeeds: one table, numbered 9, with the value of
    [ab] and the newer version of [a]. *)
Definition sample_opened : option Table :=
  r ← openTable (fun _ => "") (mkOpenEnv None None None None []) "db" sample_table_meta sample_directory;
  match r with Ok t => Some t | Err _ => None end.

Lemma sample_compaction_succeeds :
  (t ← sample_opened;
   '(fs, n, res) ← buildCompactionTables (fun _ => "") (fun _ => sample_output_env) (fun _ => true) (fun _ => sample_reads) 4
     (sample_plan t) "db" (Some sample_numbers) sample_options sample_directory;
   match res with
   | Ok outputs => Some (n, map (fun o => (tm_number (co_meta o), tm_smallest (co_meta o), tm_largest (co_meta o))) outputs)
   | Err _ => None
   end) = Some (1%nat, [(9, encodeInternalKey [x61] 7 kValue, encodeInternalKey [x61; x62] 5 kValue)]).
Proof. vm_compute. reflexivity. Qed.

Lemma compact_run_exhausted base es : forall cur last, last <= kMaxSequenceNumber -> compact_run kMaxSequenceNumber base cur last es = [].
Proof.
  induction es as [|e es IH]; intros cur last Hlast; [done|]. cbn [compact_run]. destruct (parseInternalKey e.1) as [p|] eqn:Hp; [|done].
  apply parse_Some in Hp as [_ Hseq]. rewrite (IH (user_key p) (sequence p)) by lia.
  destruct (Z.leb_spec (if bytes_eqb cur (user_key p) then last else kMaxSequenceNumber) kMaxSequenceNumber); [done|].
  destruct (bytes_eqb cur (user_key p)); lia.
Qed.

(** The merge marks "no newer version seen" with the largest sequence
    number.  Once that number has been assigned and no older snapshot is live,
    the mark passes the test for a superseded version: a compaction then drops
    every entry of its inputs, live values included, and reports success. *)
Theorem compaction_exhausted_sequence strerror envs effective reads fuel v R plan directory allocate options fs :
  version_holds v R -> layers_ok (version_layers R) -> plan_ok v R plan -> output_bytes options <> 0 ->
  (forall i, match allocate i with Ok n => 0 <= n <= kUint64Max | Err st => ok st = false end) ->
  table_room (compaction_input R plan) <= kUint32Max -> (length (compaction_input R plan) < fuel)%nat ->
  oldest_snapshot plan = kMaxSequenceNumber ->
  exists fs' n res, buildCompactionTables strerror envs effective reads fuel plan directory (Some allocate) options fs = Some (fs', n, res) /\
    forall outputs, res = Ok outputs -> outputs = [].
Proof.
  intros Hv Hl Hp Ho Ha Hroom Hfuel Hmax.
  destruct (buildCompactionTables_spec strerror envs effective reads fuel v R plan directory allocate options fs)
    as (fs' & n & res & Hb & Hi & Hres); [done..|]. exists fs', n, res. split; [done|]. intros outputs ->.
  destruct Hres as (_ & _ & outs & Hf & _ & Hc). unfold compaction_output in Hc. rewrite Hmax, compact_run_exhausted in Hc by done.
  destruct Hf as [|o run outputs outs ([_ _ Hne _ _] & _) _]; [done|]. by destruct run.
Qed.

Definition exhausted_plan (t : Table) : CompactionPlan :=
  mkCompactionPlan (Some (sample_version t)) kMaxSequenceNumber 1 (mkIndexRange 0 1) (mkIndexRange 0 0).

Lemma compaction_exhausted_sequence_witness :
  visible (mvcc_get (concat (version_layers sample_runs)) [x61] kMaxSequenceNumber) = Some [x01] /\
  exists t, exists fs' n res, buildCompactionTables (fun _ => "") (fun _ => sample_output_env) (fun _ => true) (fun _ => sample_reads) 4
      (exhausted_plan t) "db" (Some sample_numbers) sample_options sample_directory = Some (fs', n, res) /\
    forall outputs, res = Ok outputs -> outputs = [].
Proof.
  split; [reflexivity|]. destruct sample_serves as [t Ht]. destruct (sample_version_holds t Ht) as (Hv & Hl & _). exists t.
  apply (compaction_exhausted_sequence (fun _ => "") (fun _ => sample_output_env) (fun _ => true) (fun _ => sample_reads) 4
    (sample_version t) sample_runs (exhausted_plan t) "db" sample_numbers sample_options sample_directory);
    [exact Hv|exact Hl| |discriminate|exact sample_numbers_range|vm_compute; discriminate|simpl; lia|reflexivity].
  split; [done|by right|simpl; lia|simpl; lia|intros e x He; by apply elem_of_nil in He..].
Defined.

Lemma exhausted_compaction_succeeds :
  (t ← sample_opened;
   '(fs, n, res) ← buildCompactionTables (fun _ => "") (fun _ => sample_output_env) (fun _ => true) (fun _ => sample_reads) 4
     (exhausted_plan t) "db" (Some sample_numbers) sample_options sample_directory;
   match res with Ok outputs => Some (n, length outputs) | Err _ => None end) = Some (0%nat, 0%nat).
Proof. vm_compute. reflexivity. Qed.
