(* ===== verification/FlushMemTable.v ===== *)
(** Writing an immutable memtable to a level-0 table (src/db/flush_memtable.cc):
    the temporary file is built, finished and renamed; on every error the final
    path is left alone. *)
From S2P Require Import Prelude Posix Status Coding InternalKey Mvcc BlockBuilder SSTableBuilder Iterator Arena SkipList MemTable Filename DbFiles.

(** What the system answers: creating the temporary file, writing it, [rename]. *)
Record FlushEnv := mkFlushEnv { fe_create : option Z; fe_table : TableEnv; fe_rename : option Z }.

Section flush.
Context (strerror : Z -> string) (effective : string -> bool).

Definition renameError (from to : string) (error : Z) : Status :=
  ioError ("rename " +:+ from +:+ " to " +:+ to +:+ ": " +:+ strerror error).

(** The [while] loop; [fuel] bounds the number of entries. *)
Fixpoint flush_loop (fuel : nat) (iterator : MemTableIterator) (builder : SSTableBuilder) : option (SSTableBuilder * Status) :=
  match fuel with
  | O => None
  | S fuel =>
      if negb (mi_valid iterator) then Some (builder, success)
      else
        key ← mi_internalKey iterator;
        value ← mi_value iterator;
        '(builder, status) ← tb_add strerror builder key value;
        if negb (ok status) then Some (builder, status)
        else iterator ← mi_next iterator; flush_loop fuel iterator builder
  end.

Definition buildLevel0Table (env : FlushEnv) (memtable : MemTable) (temporary_path final_path : string)
    (block_size restart_interval : Z) (fs : Directory) : option (Directory * result SSTableMeta) :=
  _ ← assert_that (negb (mt_empty memtable));
  '(fs, r) ← tb_open_at strerror block_size restart_interval (fe_create env) (fe_table env) temporary_path fs;
  match r with
  | Err status => Some (fs, Err status)
  | Ok builder =>
      iterator ← mi_seekToFirst (mt_newIterator memtable);
      '(builder, status) ← flush_loop (S (Z.to_nat (mt_entry_count memtable))) iterator builder;
      if negb (ok status) then Some (tb_destroy effective builder fs, Err status)
      else
        '(builder, completed) ← tb_finish strerror builder;
        match completed with
        | Err status => Some (tb_destroy effective builder fs, Err status)
        | Ok completed =>
            let fs := tb_destroy effective builder fs in
            match fe_rename env with
            | Some error =>
                Some (removeFileBestEffort effective temporary_path fs, Err (renameError temporary_path final_path error))
            | None => Some (fs_rename temporary_path final_path fs, Ok completed)
            end
        end
  end.

End flush.

(** ** Specification *)

Definition flush_benign (env : FlushEnv) : Prop := fe_create env = None /\ env_benign (fe_table env) /\ fe_rename env = None.

Section flush_spec.
Context (strerror : Z -> string) (effective : string -> bool).

Lemma flush_loop_add_all rest : forall fuel it es b, it_at it es rest -> (length rest < fuel)%nat ->
  flush_loop strerror fuel it b = tb_add_all strerror rest b.
Proof.
  induction rest as [|[k v] rest IH]; intros fuel it es b Hat Hf; (destruct fuel as [|fuel]; [simpl in Hf; lia|]); cbn [flush_loop tb_add_all].
  - change (mi_valid it) with (it_valid it). by rewrite (at_end _ _ Hat).
  - destruct (at_entry _ _ _ _ _ Hat) as (Hv & Hk & Hval). destruct (spec_next _ _ _ _ Hat) as (it' & Hn & [[Hat' _]|[_ []]]); [|done].
    change (mi_valid it) with (it_valid it). rewrite Hv. change (mi_internalKey it) with (it_internalKey it). rewrite Hk.
    change (mi_value it) with (it_value it). rewrite Hval. cbn [negb mbind option_bind fst snd].
    destruct (tb_add strerror b k v) as [[b' st]|]; [|done]. cbn [mbind option_bind]. destruct (negb (ok st)); [done|].
    change (mi_next it) with (it_next it). rewrite Hn. cbn [mbind option_bind]. apply (IH fuel it' es); [done|simpl in Hf; lia].
Qed.

Lemma tb_add_all_same es : forall b b' st, tb_add_all strerror es b = Some (b', st) -> tb_same b b'.
Proof.
  induction es as [|e es IH]; intros b b' st; cbn [tb_add_all]; [by intros [= <- <-]|].
  intros ([b1 st1] & Ha & Hr)%bind_Some. apply tb_add_same in Ha. destruct (negb (ok st1)); [by simplify_eq|].
  eapply tb_same_trans; [done|by eapply IH].
Qed.

(** The loop and [finish] are [build_table]. *)
Lemma flush_builds m es it b0 : it_at it es es -> mt_entry_count m = len es ->
  tb_inv b0 [] [] -> sorted_run es -> table_room es <= kUint32Max -> tb_unlinked b0 = false ->
  exists b1 st, flush_loop strerror (S (Z.to_nat (mt_entry_count m))) it b0 = Some (b1, st) /\ tb_same b0 b1 /\
    ((ok st = false /\ ~ env_benign (tb_env b0)) \/
     (st = success /\ exists b' res, tb_finish strerror b1 = Some (b', res) /\ tb_path b' = tb_path b0 /\ tb_unlinked b' = false /\
        match res with Ok meta => finished es b' meta | Err st => ok st = false /\ tb_state b' = kBuilding /\ ~ env_benign (tb_env b0) end)).
Proof.
  intros Hat Hct Hi Hr Hroom Hu. rewrite (flush_loop_add_all es _ it es b0 Hat) by (rewrite Hct; unfold len; lia).
  destruct (tb_add_all_inv strerror es b0 [] [] Hi Hr Hroom) as (b1 & st & Ha & Hc). exists b1, st. split; [done|].
  pose proof (tb_add_all_same _ _ _ _ Ha) as Hsame. split; [done|]. destruct Hc as [(-> & Hb & blocks & cur & Hi1 & Hall)|Hc]; [right|by left].
  simpl in Hall. split; [done|]. destruct (tb_finish_inv strerror b1 blocks cur Hi1) as (b' & res & Hf & Hres); [by rewrite Hall|].
  destruct (tb_finish_same _ _ _ _ Hf) as (Hp & Hun & Hs). destruct Hsame as (P & U & S). exists b', res. split_and!; [done|congruence|congruence|].
  rewrite Hall in Hres. destruct Hres as [(meta & -> & Hfin)|(st & -> & Hst & Hn)]; [done|]. split_and!; [done|rewrite Hs; apply Hi1|auto].
Qed.

(** What the directory is afterwards: the final path has the complete, synced
    table, or what it had before. *)
Definition flush_outcome (env : FlushEnv) (es : list entry) (temporary final : string) (fs fs' : Directory) (res : result SSTableMeta) : Prop :=
  (forall path, path <> temporary -> path <> final -> fs' !! path = fs !! path) /\
  match res with
  | Ok meta => fs !! temporary = None /\ fs' !! temporary = None /\
      exists c, fs' !! final = Some (mkLogFile c (length c)) /\ table_of es c /\
        meta = mkSSTableMeta (len c) (len es) (match es with e :: _ => e.1 | [] => [] end) (final_key es)
  | Err st => ok st = false /\ (flush_benign env -> is_Some (fs !! temporary)) /\
      fs' !! final = fs !! final /\ (fs' !! temporary = fs !! temporary \/ effective temporary = false)
  end.

Context `{SystemAllocatorLaws}.

Lemma buildLevel0Table_spec env m es temporary final block_size restart_interval fs :
  mt_inv m es -> es <> [] -> table_room es <= kUint32Max -> temporary <> "" -> temporary <> final ->
  block_size <> 0 -> 0 < restart_interval ->
  exists fs' res, buildLevel0Table strerror effective env m temporary final block_size restart_interval fs = Some (fs', res) /\
    flush_outcome env es temporary final fs fs' res.
Proof.
  intros Hi Hne Hroom Hne1 Hne2 Hbs Hri. pose proof (mt_inv_run _ _ Hi) as Hrun. pose proof (mi_count _ _ Hi) as Hct.
  unfold buildLevel0Table, mt_empty. rewrite Hct. destruct (Z.eqb_spec (len es) 0); [by destruct es|]. cbn [negb assert_that mbind option_bind].
  destruct (tb_open_at_spec strerror block_size restart_interval (fe_create env) (fe_table env) temporary fs Hne1 Hbs Hri) as (fs1 & r & -> & Hr).
  cbn [mbind option_bind]. destruct r as [b0|st].
  2:{ destruct Hr as (? & -> & Hc). eexists _, _. split; [done|]. split; [done|]. split_and!; [done| |done|by left].
      intros (? & _). destruct Hc; [congruence|done]. }
  destruct Hr as (Hcr & Hnone & -> & Hi0 & Henv & Hpath & Hun). assert (it_on (mt_newIterator m) es) as Hon by (by destruct Hi).
  destruct (spec_seekToFirst _ _ Hon) as (it & Hit & [[Hat _]|[_ []]]); [|done].
  change (mi_seekToFirst (mt_newIterator m)) with (it_seekToFirst (mt_newIterator m)). rewrite Hit. cbn [mbind option_bind].
  pose proof (flush_builds m es it b0 Hat Hct Hi0 Hrun Hroom Hun) as Hfb. rewrite Hct in Hfb. destruct Hfb as (b1 & st & -> & (P1 & U1 & S1) & Hc). cbn [mbind option_bind].
  assert (forall b st, tb_path b = temporary -> tb_state b = kBuilding -> ok st = false -> ~ flush_benign env ->
    exists fs' res, Some (tb_destroy effective b (<[temporary := mkLogFile [] 0]> fs), @Err SSTableMeta st) = Some (fs', res) /\
      flush_outcome env es temporary final fs fs' res) as Hfail.
  { intros b st' Hp Hs Hst Hnb. eexists _, _. split; [done|]. split; [intros path H1 H2; by rewrite tb_destroy_lookup, lookup_insert_ne by congruence|].
    split_and!; [done|tauto|by rewrite tb_destroy_lookup, lookup_insert_ne by congruence|]. rewrite Hnone.
    destruct (effective temporary) eqn:E; [left|by right]. rewrite <- Hp. apply tb_destroy_building; congruence. }
  rewrite Henv in Hc. destruct Hc as [[Hst Hnb]|(-> & b' & res & -> & P2 & U2 & Hres)].
  { rewrite Hst. cbn [negb]. apply Hfail; [congruence|rewrite S1; apply Hi0|done|by intros (_ & ? & _)]. }
  change (negb (ok success)) with false. cbn iota. cbn [mbind option_bind]. destruct res as [meta|st].
  2:{ destruct Hres as (Hst & Hs & Hnb). apply Hfail; [congruence|done|done|by intros (_ & ? & _)]. }
  rewrite (destroy_finished _ _ _ _ _ Hres U2), P2, Hpath, insert_insert_eq. destruct (finished_file _ _ _ Hres) as (c & -> & Ht & ->).
  destruct (fe_rename env) as [error|] eqn:Er.
  - eexists _, _. split; [done|]. split; [|split_and!; [done|intros (_ & _ & ?); congruence| |]].
    + intros path H1 H2. destruct (removed_lookup effective temporary (<[temporary := mkLogFile c (length c)]> fs) path) as [->|[? _]]; [by rewrite lookup_insert_ne|done].
    + destruct (removed_lookup effective temporary (<[temporary := mkLogFile c (length c)]> fs) final) as [->|[? _]]; [by rewrite lookup_insert_ne|done].
    + rewrite Hnone. apply removed_gone.
  - eexists _, _. split; [done|]. unfold fs_rename. rewrite lookup_insert_eq, delete_insert_eq.
    split; [intros path H1 H2; by rewrite lookup_insert_ne, lookup_delete_ne|]. split_and!; [done|by rewrite lookup_insert_ne, lookup_delete_eq|].
    exists c. by rewrite lookup_insert_eq.
Qed.
End flush_spec.

(** C36. Flushing a memtable: whatever the system answers, the table is built from
    exactly the memtable's entries and appears at the final path complete and
    synced, or an error is reported, the final path is as before and the
    temporary file is gone unless its removal failed; no other file changes, and
    only a failing call or an existing temporary file can cause the error. *)
Theorem memtable_flush `{SystemAllocatorLaws} strerror effective env m es temporary final block_size restart_interval fs :
  mt_inv m es -> es <> [] -> table_room es <= kUint32Max -> temporary <> "" -> temporary <> final ->
  block_size <> 0 -> 0 < restart_interval ->
  exists fs' res, buildLevel0Table strerror effective env m temporary final block_size restart_interval fs = Some (fs', res) /\
    flush_outcome effective env es temporary final fs fs' res.
Proof. apply buildLevel0Table_spec. Qed.

#[local] Existing Instance bump_allocator.
#[local] Existing Instance bump_allocator_laws.

Lemma memtable_flush_witness : exists m es fs' res,
  (m ← newMemTable; mt_add_all sample_writes m) = Some m /\ es ≡ₚ map write_entry sample_writes /\
  buildLevel0Table (fun _ => "") (fun _ => true) (mkFlushEnv None sample_env None) m "t.tmp" "t.sst" 40 2 ∅ = Some (fs', res) /\
  flush_outcome (fun _ => true) (mkFlushEnv None sample_env None) es "t.tmp" "t.sst" ∅ fs' res.
Proof.
  destruct newMemTable_spec as (m0 & Hm & Hi0 & Hm0). rewrite Hm. cbn [mbind option_bind].
  destruct (mt_add_all_spec sample_writes m0 [] Hi0) as (m & es & Hadd & Hi & Hp & _).
  - repeat (constructor; [by vm_compute|]). constructor.
  - vm_compute. repeat (constructor; [set_solver|]). constructor.
  - etrans; [apply Z.add_le_mono_r, Hm0|]. by vm_compute.
  - rewrite app_nil_r in Hp.
    destruct (memtable_flush (fun _ => "") (fun _ => true) (mkFlushEnv None sample_env None) m es "t.tmp" "t.sst" 40 2 ∅ Hi) as (fs' & res & ? & ?);
      [intros ->; by apply Permutation_nil_l in Hp| |done|done|done|lia|eauto 8].
    rewrite (table_room_perm _ _ Hp). by vm_compute.
Defined.
