(* ===== verification/DbImpl.v ===== *)
(** The database (src/db/db_impl.cc, src/db/db.cc): its state and every
    operation on it.  A function runs with the mutex held, or is one section of
    an operation between two points where the mutex is taken; the next files
    interleave the sections. *)
From S2P Require Import Prelude Posix Status Coding InternalKey Mvcc WriteBatch Wal BlockBuilder SSTableBuilder Iterator SSTableReader Arena SkipList MemTable MergingIterator DbIterator Filename Level Manifest Snapshot DbFiles Version Compaction CompactionBuild FlushMemTable.

(** ** State *)

Record ImmutableMemTable := mkImmutableMemTable { im_memtable : MemTable; im_table_number : Z; im_last_sequence : Z }.

(** [class DBImpl].  Null pointers are [None]; [tracker_id] is the identity of the
    snapshot tracker, which a snapshot remembers. *)
Record DBImpl := mkDBImpl {
  write_buffer_size : Z;
  directory_ : string;
  lock_ : FileLock;
  wal_ : option WalWriter;
  wal_number_ : Z;
  next_file_number_ : Z;
  manifest_ : ManifestState;
  current_version_ : option Version;
  last_sequence_ : Z;
  tracker_id : nat;
  snapshots_ : SnapshotTracker;
  memtable_ : MemTable;
  immutable_ : option ImmutableMemTable;
  shutting_down_ : bool;
  background_error_ : Status;
}.

(** Assignments to the fields. *)
Definition set_wal (db : DBImpl) (wal : option WalWriter) (number : Z) : DBImpl :=
  mkDBImpl (write_buffer_size db) (directory_ db) (lock_ db) wal number (next_file_number_ db) (manifest_ db)
    (current_version_ db) (last_sequence_ db) (tracker_id db) (snapshots_ db) (memtable_ db) (immutable_ db)
    (shutting_down_ db) (background_error_ db).
Definition set_next_file_number (db : DBImpl) (number : Z) : DBImpl :=
  mkDBImpl (write_buffer_size db) (directory_ db) (lock_ db) (wal_ db) (wal_number_ db) number (manifest_ db)
    (current_version_ db) (last_sequence_ db) (tracker_id db) (snapshots_ db) (memtable_ db) (immutable_ db)
    (shutting_down_ db) (background_error_ db).
Definition set_disk (db : DBImpl) (manifest : ManifestState) (version : option Version) : DBImpl :=
  mkDBImpl (write_buffer_size db) (directory_ db) (lock_ db) (wal_ db) (wal_number_ db) (next_file_number_ db) manifest
    version (last_sequence_ db) (tracker_id db) (snapshots_ db) (memtable_ db) (immutable_ db)
    (shutting_down_ db) (background_error_ db).
Definition set_memtable (db : DBImpl) (memtable : MemTable) (last_sequence : Z) : DBImpl :=
  mkDBImpl (write_buffer_size db) (directory_ db) (lock_ db) (wal_ db) (wal_number_ db) (next_file_number_ db) (manifest_ db)
    (current_version_ db) last_sequence (tracker_id db) (snapshots_ db) memtable (immutable_ db)
    (shutting_down_ db) (background_error_ db).
Definition set_immutable (db : DBImpl) (immutable : option ImmutableMemTable) : DBImpl :=
  mkDBImpl (write_buffer_size db) (directory_ db) (lock_ db) (wal_ db) (wal_number_ db) (next_file_number_ db) (manifest_ db)
    (current_version_ db) (last_sequence_ db) (tracker_id db) (snapshots_ db) (memtable_ db) immutable
    (shutting_down_ db) (background_error_ db).
Definition set_snapshots (db : DBImpl) (snapshots : SnapshotTracker) : DBImpl :=
  mkDBImpl (write_buffer_size db) (directory_ db) (lock_ db) (wal_ db) (wal_number_ db) (next_file_number_ db) (manifest_ db)
    (current_version_ db) (last_sequence_ db) (tracker_id db) snapshots (memtable_ db) (immutable_ db)
    (shutting_down_ db) (background_error_ db).
Definition set_background (db : DBImpl) (shutting_down : bool) (error : Status) : DBImpl :=
  mkDBImpl (write_buffer_size db) (directory_ db) (lock_ db) (wal_ db) (wal_number_ db) (next_file_number_ db) (manifest_ db)
    (current_version_ db) (last_sequence_ db) (tracker_id db) (snapshots_ db) (memtable_ db) (immutable_ db)
    shutting_down error.

#[global] Instance SSTableReader_eq_dec : EqDecision SSTableReader.
Proof. solve_decision. Defined.
#[global] Instance TableMeta_eq_dec : EqDecision TableMeta.
Proof. solve_decision. Defined.
#[global] Instance Table_eq_dec : EqDecision Table.
Proof. solve_decision. Defined.
#[global] Instance Levels_eq_dec {A} `{EqDecision A} : EqDecision (Levels A).
Proof. solve_decision. Defined.
#[global] Instance immutable_none_dec (o : option ImmutableMemTable) : Decision (o = None).
Proof. destruct o; [right|left]; done. Defined.

(** ** Options and handles (include/lsmtree/db.h) *)

Inductive Durability := kAsync | kSync.
Record DBOptions := mkDBOptions { open_mode : OpenMode; opt_write_buffer_size : Z }.
Definition defaultDBOptions : DBOptions := mkDBOptions kOpenOrCreate (4 * 1024 * 1024).

(** A [Snapshot] is the engine's own, with the tracker it belongs to, or an
    object of another class. *)
Record SnapshotImpl := mkSnapshotImpl { ss_sequence : Z; ss_tracker : nat }.
Inductive SnapshotHandle := OwnSnapshot (s : SnapshotImpl) | OtherSnapshot.
Record ReadOptions := mkReadOptions { ro_snapshot : option SnapshotHandle; verify_checksums : bool }.

Definition isFrom (s : SnapshotImpl) (tracker : nat) : bool := (ss_tracker s =? tracker)%nat.

Section db.
Context `{SystemAllocator} (strerror : Z -> string).

(** ** Writing *)

(** The operations of a batch, each with its own sequence number. *)
Fixpoint applyBatch (batch : WriteBatch) (sequence : Z) (memtable : MemTable) : option MemTable :=
  match batch with
  | [] => Some memtable
  | operation :: batch =>
      memtable ← match op_type operation with
                 | kPut => mt_add memtable sequence kValue (op_key operation) (op_value operation)
                 | kDelete => mt_add memtable sequence kDeletion (op_key operation) []
                 end;
      applyBatch batch (wrap64 (sequence + 1)) memtable
  end.

Definition rotateMemTable (open_answer : option Z) (db : DBImpl) (fs : Directory) : option (DBImpl * Directory * Status) :=
  if kUint64Max - 2 <? next_file_number_ db then Some (db, fs, ioError "database file number space is exhausted")
  else
    let table_number := next_file_number_ db in
    let new_wal_number := next_file_number_ db + 1 in
    new_memtable ← newMemTable;
    let '(fs, r) := wal_open strerror open_answer (walFileName (directory_ db) new_wal_number) fs in
    match r with
    | Err status => Some (db, fs, status)
    | Ok new_wal =>
        let db := set_next_file_number db (next_file_number_ db + 2) in
        let db := set_immutable db (Some (mkImmutableMemTable (memtable_ db) table_number (last_sequence_ db))) in
        let db := set_memtable db new_memtable (last_sequence_ db) in
        Some (set_wal db (Some new_wal) new_wal_number, fs, success)
    end.

(** One turn of the loop; [None] in place of the status when it waits. *)
Definition makeRoomForWrite (open_answer : option Z) (db : DBImpl) (fs : Directory) : option (DBImpl * Directory * option Status) :=
  if negb (ok (background_error_ db)) then Some (db, fs, Some (background_error_ db))
  else if mt_empty (memtable_ db) || (mt_memoryUsage (memtable_ db) <? write_buffer_size db) then Some (db, fs, Some success)
  else
    match immutable_ db with
    | None => '(db, fs, status) ← rotateMemTable open_answer db fs; Some (db, fs, Some status)
    | Some _ => Some (db, fs, None)
    end.

(** What the system answers to a write: opening the next log, writing and syncing. *)
Record WriteEnv := mkWriteEnv { we_open : option Z; we_writes : list write_event; we_syncs : list Z }.

(** The log's file as the directory shows it. *)
Definition publish_wal (wal : WalWriter) (fs : Directory) : Directory := <[w_path wal := w_file wal]> fs.

(** The record is appended and, for [kSync], synced. *)
Definition append_and_sync (env : WriteEnv) (durability : Durability) (wal : WalWriter) (payload : bytes) : WalWriter * Status :=
  let '(wal, status, _) := append strerror (we_writes env) wal payload in
  if negb (ok status) then (wal, status)
  else match durability with kSync => sync strerror (we_syncs env) wal | kAsync => (wal, status) end.

(** One attempt; [None] in place of the status when it waits for the flush. *)
Definition write (env : WriteEnv) (durability : Durability) (batch : WriteBatch) (db : DBImpl) (fs : Directory) :
    option (DBImpl * Directory * option Status) :=
  if wb_empty batch then Some (db, fs, Some success)
  else
    '(db, fs, room) ← makeRoomForWrite (we_open env) db fs;
    match room with
    | None => Some (db, fs, None)
    | Some status =>
        if negb (ok status) then Some (db, fs, Some status)
        else
          let first_sequence := wrap64 (last_sequence_ db + 1) in
          match encode batch first_sequence with
          | Err status => Some (db, fs, Some status)
          | Ok payload =>
              wal ← wal_ db;
              let '(wal, status) := append_and_sync env durability wal payload in
              let fs := publish_wal wal fs in
              let db := set_wal db (Some wal) (wal_number_ db) in
              if negb (ok status) then Some (db, fs, Some status)
              else
                memtable ← applyBatch batch first_sequence (memtable_ db);
                Some (set_memtable db memtable (wrap64 (last_sequence_ db + wb_count batch)), fs, Some success)
          end
    end.

(** [DB::put] and [DB::erase]. *)
Definition put (env : WriteEnv) (durability : Durability) (key value : bytes) := write env durability (wb_put [] key value).
Definition erase (env : WriteEnv) (durability : Durability) (key : bytes) := write env durability (wb_erase [] key).

(** ** Reading *)

(** The snapshot's sequence number, if there is a snapshot. *)
Definition read_sequence (options : ReadOptions) (db : DBImpl) : result (option Z) :=
  match ro_snapshot options with
  | None => Ok None
  | Some (OwnSnapshot s) =>
      if isFrom s (tracker_id db) then Ok (Some (ss_sequence s)) else Err (invalidArgument "invalid snapshot")
  | Some OtherSnapshot => Err (invalidArgument "invalid snapshot")
  end.

(** [get]; [reads] answers the reads of each table. *)
Definition get (reads : Table -> ReadEnv) (options : ReadOptions) (key : bytes) (db : DBImpl) : option (result bytes) :=
  match read_sequence options db with
  | Err status => Some (Err status)
  | Ok snapshot =>
      let visible_sequence := default (last_sequence_ db) snapshot in
      result ← mt_get (memtable_ db) key visible_sequence;
      match result with
      | LookupValue value => Some (Ok value)
      | LookupDeleted => Some (Err (notFound "key does not exist"))
      | LookupAbsent =>
          result ← match immutable_ db with
                   | Some immutable => mt_get (im_memtable immutable) key visible_sequence
                   | None => Some LookupAbsent
                   end;
          match result with
          | LookupValue value => Some (Ok value)
          | LookupDeleted => Some (Err (notFound "key does not exist"))
          | LookupAbsent =>
              version ← current_version_ db;
              r ← version_get reads version (verify_checksums options) key visible_sequence;
              Some (match r with
                    | Err status => Err status
                    | Ok (LookupValue value) => Ok value
                    | Ok _ => Err (notFound "key does not exist")
                    end)
          end
      end
  end.

Definition newSnapshot (db : DBImpl) : DBImpl * SnapshotHandle :=
  (set_snapshots db (tracker_add (last_sequence_ db) (snapshots_ db)),
   OwnSnapshot (mkSnapshotImpl (last_sequence_ db) (tracker_id db))).

(** [~SnapshotImpl]. *)
Definition releaseSnapshot (s : SnapshotImpl) (db : DBImpl) : option DBImpl :=
  snapshots ← tracker_remove (ss_sequence s) (snapshots_ db); Some (set_snapshots db snapshots).

Fixpoint table_iterators (reads : Table -> ReadEnv) (verify : bool) (tables : list Table) : option (list SSTableIterator) :=
  match tables with
  | [] => Some []
  | table :: tables =>
      iterator ← newSSTableIterator (reads table) (t_reader table) verify;
      iterators ← table_iterators reads verify tables;
      Some (iterator :: iterators)
  end.

Definition newIterator (reads : Table -> ReadEnv) (options : ReadOptions) (db : DBImpl) :
    option (result (@DBIterator (MergingIterator (MemTableIterator + SSTableIterator)))) :=
  match read_sequence options db with
  | Err status => Some (Err status)
  | Ok snapshot =>
      let visible_sequence := default (last_sequence_ db) snapshot in
      version ← current_version_ db;
      tables ← table_iterators reads (verify_checksums options) (all_tables version);
      let children := inl (mt_newIterator (memtable_ db)) ::
        match immutable_ db with Some immutable => [inl (mt_newIterator (im_memtable immutable))] | None => [] end ++
        map inr tables in
      iterator ← newDBIterator (newMergingIterator children) visible_sequence;
      Some (Ok iterator)
  end.

(** ** Flushing *)

(** What the system answers to a flush: the table, opening it, the manifest,
    which removals take effect, and listing the directory. *)
Record DbFlushEnv := mkDbFlushEnv {
  ff_table : FlushEnv;
  ff_open : OpenEnv;
  ff_manifest : ManifestEnv;
  ff_effective : string -> bool;
  ff_list_error : option Z;
  ff_entries : list string;
}.

(** Before the first lock: the table is built and opened. *)
Definition flush_build (env : DbFlushEnv) (db : DBImpl) (fs : Directory) : option (Directory * result (TableMeta * SSTableReader)) :=
  immutable ← immutable_ db;
  let table_number := im_table_number immutable in
  let temporary_table := sstableTemporaryFileName (directory_ db) table_number in
  let final_table := sstableFileName (directory_ db) table_number in
  '(fs, r) ← buildLevel0Table strerror (ff_effective env) (ff_table env) (im_memtable immutable) temporary_table final_table
               default_block_size default_restart_interval fs;
  match r with
  | Err status => Some (fs, Err status)
  | Ok table_meta =>
      r ← sst_open (mkReadEnv (oe_reads (ff_open env)) strerror) final_table (os_open (ff_open env) final_table fs);
      match r with
      | Err status => Some (removeFileBestEffort (ff_effective env) final_table fs, Err status)
      | Ok table_reader =>
          Some (fs, Ok (mkTableMeta table_number (file_size table_meta) (smallest_key table_meta) (largest_key table_meta), table_reader))
      end
  end.

(** Under the first lock: the candidate manifest and version, and the live log. *)
Definition flush_candidate (descriptor : TableMeta) (table_reader : SSTableReader) (db : DBImpl) :
    option (ManifestState * Version * Z) :=
  immutable ← immutable_ db;
  version ← current_version_ db;
  let levels := mf_levels (manifest_ db) in
  Some (mkManifestState (im_last_sequence immutable) (wal_number_ db) (mkLevels (descriptor :: level0 levels) (level1 levels) (level2 levels)),
        withLevel0Table version descriptor table_reader, wal_number_ db).

(** Between the locks: the manifest is written. *)
Definition flush_commit (env : DbFlushEnv) (descriptor : TableMeta) (candidate : ManifestState) (db : DBImpl) (fs : Directory) :
    option (Directory * Status) :=
  '(fs, status) ← writeManifest strerror (ff_manifest env) (manifestFileName (directory_ db)) (manifestTemporaryFileName (directory_ db)) candidate fs;
  if negb (ok status)
  then Some (removeFileBestEffort (ff_effective env) (sstableFileName (directory_ db) (tm_number descriptor)) fs, status)
  else Some (fs, success).

(** Under the second lock. *)
Definition flush_publish (candidate : ManifestState) (candidate_version : Version) (db : DBImpl) : DBImpl :=
  set_immutable (set_disk db candidate (Some candidate_version)) None.

Definition flush_clean (env : DbFlushEnv) (live_wal_number : Z) (fs : Directory) : Directory :=
  removeObsoleteWalFilesBestEffort (ff_list_error env) (ff_effective env) (ff_entries env) live_wal_number fs.

(** The sections in order. *)
Definition flushImmutableMemTable (env : DbFlushEnv) (db : DBImpl) (fs : Directory) : option (DBImpl * Directory * Status) :=
  '(fs, r) ← flush_build env db fs;
  match r with
  | Err status => Some (db, fs, status)
  | Ok (descriptor, table_reader) =>
      '(candidate, candidate_version, live_wal_number) ← flush_candidate descriptor table_reader db;
      '(fs, status) ← flush_commit env descriptor candidate db fs;
      if negb (ok status) then Some (db, fs, status)
      else Some (flush_publish candidate candidate_version db, flush_clean env live_wal_number fs, success)
  end.

(** ** Compaction *)

(** What the system answers to a compaction. *)
Record DbCompactEnv := mkDbCompactEnv {
  cc_outputs : Z -> OutputEnv;
  cc_reads : Table -> ReadEnv;
  cc_manifest : ManifestEnv;
  cc_effective : string -> bool;
  cc_list_error : option Z;
  cc_entries : list string;
}.

Definition hasCompactionWork (db : DBImpl) : bool :=
  match current_version_ db with Some version => needsCompaction version defaultCompactionOptions | None => false end.

Definition compact_pick (db : DBImpl) : option (option CompactionPlan) :=
  pickCompaction (current_version_ db) (oldest (snapshots_ db) (last_sequence_ db)) defaultCompactionOptions.

(** The lambda [allocate_file_number]. *)
Definition allocateFileNumber (db : DBImpl) : DBImpl * result Z :=
  if next_file_number_ db =? kUint64Max then (db, Err (ioError "database file number space is exhausted"))
  else (set_next_file_number db (next_file_number_ db + 1), Ok (next_file_number_ db)).

(** The answers of [n] calls in a row. *)
Fixpoint allocateFileNumbers (n : nat) (db : DBImpl) : DBImpl * list (result Z) :=
  match n with
  | O => (db, [])
  | S n =>
      let '(db, r) := allocateFileNumber db in
      let '(db, rs) := allocateFileNumbers n db in (db, r :: rs)
  end.

(** The unlocked section: merging into tables.  [numbers] are the answers the
    allocator gives; [fuel] bounds the number of entries. *)
Definition compact_build (env : DbCompactEnv) (fuel : nat) (plan : CompactionPlan) (numbers : list (result Z)) (db : DBImpl) (fs : Directory) :
    option (Directory * nat * result (list CompactionOutput)) :=
  buildCompactionTables strerror (cc_outputs env) (cc_effective env) (cc_reads env) fuel plan (directory_ db)
    (Some (fun i => default (Err (ioError "database file number space is exhausted")) (numbers !! i)))
    defaultCompactionOptions fs.

(** Under the lock.  The comparison of the version pointers is the comparison of
    the versions. *)
Definition compact_candidate (plan : CompactionPlan) (outputs : list CompactionOutput) (db : DBImpl) : option (ManifestState * Version) :=
  _ ← assert_that (bool_decide (current_version_ db = input_version plan));
  _ ← assert_that (input_level plan + 1 <? kNumLevels)%nat;
  let levels := mf_levels (manifest_ db) in
  source ← level_at levels (input_level plan);
  target ← level_at levels (outputLevel plan);
  _ ← assert_that (ir_end (inputs plan) <=? length source)%nat;
  _ ← assert_that (ir_end (overlaps plan) <=? length target)%nat;
  let levels := compact_levels levels (input_level plan) (inputs plan) (overlaps plan) (map co_meta outputs) in
  version ← input_version plan;
  candidate_version ← withCompaction version (input_level plan) (inputs plan) (overlaps plan) (map output_table outputs);
  Some (mkManifestState (flushed_sequence (manifest_ db)) (oldest_wal_number (manifest_ db)) levels, candidate_version).

(** Between the locks: the manifest is written, or the outputs are removed. *)
Definition compact_commit (env : DbCompactEnv) (outputs : list CompactionOutput) (candidate : ManifestState) (db : DBImpl) (fs : Directory) :
    option (Directory * Status) :=
  '(fs, status) ← writeManifest strerror (cc_manifest env) (manifestFileName (directory_ db)) (manifestTemporaryFileName (directory_ db)) candidate fs;
  if negb (ok status) then Some (removeOutputs (cc_effective env) (directory_ db) outputs fs, status)
  else Some (fs, success).

Definition compact_publish (plan : CompactionPlan) (candidate : ManifestState) (candidate_version : Version) (db : DBImpl) : option DBImpl :=
  _ ← assert_that (bool_decide (current_version_ db = input_version plan));
  Some (set_disk db candidate (Some candidate_version)).

Definition compact_clean (env : DbCompactEnv) (db : DBImpl) (fs : Directory) : Directory :=
  removeObsoleteSSTableFilesBestEffort (cc_list_error env) (cc_effective env) (cc_entries env) (manifest_ db) fs.

(** The sections in order, with no other thread in between. *)
Definition compact (env : DbCompactEnv) (fuel : nat) (db : DBImpl) (fs : Directory) : option (DBImpl * Directory * Status) :=
  plan ← compact_pick db;
  match plan with
  | None => Some (db, fs, success)
  | Some plan =>
      '(fs, n, r) ← compact_build env fuel plan (allocateFileNumbers fuel db).2 db fs;
      let db := (allocateFileNumbers n db).1 in
      match r with
      | Err status => Some (db, fs, status)
      | Ok outputs =>
          '(candidate, candidate_version) ← compact_candidate plan outputs db;
          '(fs, status) ← compact_commit env outputs candidate db fs;
          if negb (ok status) then Some (db, fs, status)
          else
            db ← compact_publish plan candidate candidate_version db;
            Some (db, compact_clean env db fs, success)
      end
  end.

(** ** The background thread *)

(** The thread sleeps until notified, goes on with its loop, or ends. *)
Inductive turn := Sleeps | Continues | Ends.

(** One turn of the loop. *)
Definition background_turn (fenv : DbFlushEnv) (cenv : DbCompactEnv) (fuel : nat) (db : DBImpl) (fs : Directory) :
    option (DBImpl * Directory * turn) :=
  if negb (shutting_down_ db || bool_decide (is_Some (immutable_ db)) || hasCompactionWork db) then Some (db, fs, Sleeps)
  else if shutting_down_ db && bool_decide (immutable_ db = None) then Some (db, fs, Ends)
  else
    let should_compact := negb (shutting_down_ db) && hasCompactionWork db in
    '(db, fs, status) ← (if should_compact then compact cenv fuel db fs else flushImmutableMemTable fenv db fs);
    if negb (ok status) then Some (set_background db (shutting_down_ db) status, fs, Ends)
    else if shutting_down_ db && bool_decide (immutable_ db = None) then Some (db, fs, Ends)
    else Some (db, fs, Continues).

(** [~DBImpl] up to the join. *)
Definition shut_down (db : DBImpl) : DBImpl := set_background db true (background_error_ db).

(** ** Recovery *)

(** What the system answers while one log is replayed: [::open], the reads,
    [file_size] and [resize_file]. *)
Record WalFileEnv := mkWalFileEnv { wf_open : option Z; wf_reads : list read_event; wf_size : option Z; wf_resize : option Z }.

(** The [while] loop of [recoverWalFile]; [fuel] bounds the number of records. *)
Fixpoint replay_loop (fuel : nat) (evs : list read_event) (reader : WalReader) (db : DBImpl) : option (WalReader * DBImpl * Status) :=
  match fuel with
  | O => None
  | S fuel =>
      let '(reader, r, evs) := readNext strerror evs reader in
      match r with
      | Err status => Some (reader, db, status)
      | Ok None => Some (reader, db, success)
      | Ok (Some payload) =>
          match decode payload with
          | Err status => Some (reader, db, status)
          | Ok (first_sequence, batch) =>
              if negb (first_sequence =? wrap64 (last_sequence_ db + 1))
              then Some (reader, db, corruption "write batch sequence is not contiguous")
              else
                memtable ← applyBatch batch first_sequence (memtable_ db);
                replay_loop fuel evs reader (set_memtable db memtable (wrap64 (last_sequence_ db + wb_count batch)))
          end
      end
  end.

Definition truncated (valid_bytes : Z) (f : LogFile) : LogFile :=
  mkLogFile (take (Z.to_nat valid_bytes) (contents f)) (Nat.min (Z.to_nat valid_bytes) (durable f)).

Definition recoverWalFile (env : WalFileEnv) (path : string) (db : DBImpl) (fs : Directory) : option (DBImpl * Directory * Status) :=
  match reader_open strerror (wf_open env) path fs with
  | Err status => Some (db, fs, status)
  | Ok reader =>
      '(reader, db, status) ← replay_loop (S (length (r_rest reader))) (wf_reads env) reader db;
      if negb (ok status) then Some (db, fs, status)
      else
        let valid_bytes := valid_bytes_ reader in
        match wf_size env, fs !! path with
        | None, Some f =>
            if valid_bytes <? len (contents f) then
              match wf_resize env with
              | Some error => Some (db, fs, filesystemError strerror "truncate" path error)
              | None => Some (db, <[path := truncated valid_bytes f]> fs, success)
              end
            else Some (db, fs, success)
        | error, _ => Some (db, fs, filesystemError strerror "stat" path (default ENOENT error))
        end
  end.

(** The [for] loop of [recoverWalFiles]. *)
Fixpoint recover_files (envs : Z -> WalFileEnv) (numbers : list Z) (db : DBImpl) (fs : Directory) : option (DBImpl * Directory * Status) :=
  match numbers with
  | [] => Some (db, fs, success)
  | number :: numbers =>
      '(db, fs, status) ← recoverWalFile (envs number) (walFileName (directory_ db) number) db fs;
      if negb (ok status) then Some (db, fs, status)
      else recover_files envs numbers (set_wal db (wal_ db) number) fs
  end.

Definition recoverWalFiles (envs : Z -> WalFileEnv) (open_answer : option Z) (numbers : list Z) (db : DBImpl) (fs : Directory) :
    option (DBImpl * Directory * Status) :=
  let oldest_wal := oldest_wal_number (manifest_ db) in
  if oldest_wal =? 0 then Some (db, fs, corruption "manifest has no live WAL number")
  else
    first ← lower_bound (fun n => Some (n <? oldest_wal)) numbers;
    if match numbers !! first with Some n => negb (n =? oldest_wal) | None => true end
    then Some (db, fs, corruption "manifest references a missing WAL")
    else
      let db := set_memtable db (memtable_ db) (flushed_sequence (manifest_ db)) in
      '(db, fs, status) ← recover_files envs (drop first numbers) db fs;
      if negb (ok status) then Some (db, fs, status)
      else
        let '(fs, r) := wal_open strerror open_answer (walFileName (directory_ db) (wal_number_ db)) fs in
        match r with
        | Err status => Some (db, fs, status)
        | Ok wal => Some (set_wal db (Some wal) (wal_number_ db), fs, success)
        end.

(** What the system answers while a database is opened. *)
Record DbOpenEnv := mkDbOpenEnv {
  do_prepare : PrepareEnv;
  do_lock : LockEnv;
  do_list_error : option Z;
  do_entries : list string;
  do_exists : option Z;
  do_manifest_read : ManifestReadEnv;
  do_manifest_write : ManifestEnv;
  do_tables : TableMeta -> OpenEnv;
  do_wals : Z -> WalFileEnv;
  do_wal_open : option Z;
  do_effective : string -> bool;
  do_clean_errors : option Z * option Z;
  do_clean_entries : list string * list string;
  do_thread : option string;
}.

Definition loadVersion (env : DbOpenEnv) (db : DBImpl) (fs : Directory) : option (DBImpl * Status) :=
  r ← version_open strerror (do_tables env) (directory_ db) (manifest_ db) fs;
  Some (match r with
        | Err status => (db, status)
        | Ok version => (set_disk db (manifest_ db) (Some version), success)
        end).

Definition initializeNewDatabase (env : DbOpenEnv) (files : DirectoryContents) (db : DBImpl) (fs : Directory) :
    option (DBImpl * Directory * Status) :=
  if negb (bool_decide (wal_numbers files = [])) || has_sstable files
  then Some (db, fs, corruption "database files exist without a manifest")
  else
    let wal_number := next_file_number_ db in
    let db := set_next_file_number db (wrap64 (next_file_number_ db + 1)) in
    let '(fs, r) := wal_open strerror (do_wal_open env) (walFileName (directory_ db) wal_number) fs in
    match r with
    | Err status => Some (db, fs, status)
    | Ok wal =>
        let db := set_wal db (Some wal) wal_number in
        let manifest := mkManifestState (flushed_sequence (manifest_ db)) wal_number (mf_levels (manifest_ db)) in
        let db := set_disk db manifest (current_version_ db) in
        '(fs, status) ← writeManifest strerror (do_manifest_write env) (manifestFileName (directory_ db))
                          (manifestTemporaryFileName (directory_ db)) manifest fs;
        if negb (ok status) then Some (db, fs, status)
        else
          '(db, status) ← loadVersion env db fs;
          if negb (ok status) then Some (db, fs, status)
          else
            Some (db, removeObsoleteSSTableFilesBestEffort (do_clean_errors env).2 (do_effective env) (do_clean_entries env).2 manifest fs, success)
    end.

Definition recoverDatabase (env : DbOpenEnv) (files : DirectoryContents) (db : DBImpl) (fs : Directory) :
    option (DBImpl * Directory * Status) :=
  r ← readManifest strerror (do_manifest_read env) (manifestFileName (directory_ db)) fs;
  match r with
  | Err status => Some (db, fs, status)
  | Ok manifest =>
      let db := set_disk db manifest (current_version_ db) in
      '(db, status) ← loadVersion env db fs;
      if negb (ok status) then Some (db, fs, status)
      else
        '(db, fs, status) ← recoverWalFiles (do_wals env) (do_wal_open env) (wal_numbers files) db fs;
        if negb (ok status) then Some (db, fs, status)
        else
          let fs := removeObsoleteWalFilesBestEffort (do_clean_errors env).1 (do_effective env) (do_clean_entries env).1
                      (oldest_wal_number manifest) fs in
          let fs := removeObsoleteSSTableFilesBestEffort (do_clean_errors env).2 (do_effective env) (do_clean_entries env).2 manifest fs in
          Some (db, fs, success)
  end.

Definition noManifest : ManifestState := mkManifestState 0 0 no_levels.

(** A fresh [DBImpl], its tracker named [tracker]. *)
Definition newDBImpl (options : DBOptions) (directory : string) (lock : FileLock) (tracker : nat) : option DBImpl :=
  memtable ← newMemTable;
  Some (mkDBImpl (opt_write_buffer_size options) directory lock None 0 1 noManifest None 0 tracker newSnapshotTracker memtable None false success).

(** [DBImpl::open]: the path's kind, the lock file and the directory afterwards,
    and the database or the error.  A failure releases the lock. *)
Definition db_open (env : DbOpenEnv) (options : DBOptions) (directory : string) (tracker : nat) (kind : path_kind) (k : LockFile) (fs : Directory) :
    option (path_kind * LockFile * Directory * result DBImpl) :=
  if opt_write_buffer_size options =? 0 then Some (kind, k, fs, Err (invalidArgument "write_buffer_size must be positive"))
  else
    let '(kind, status) := prepareDatabaseDirectory strerror (do_prepare env) (open_mode options) directory kind in
    if negb (ok status) then Some (kind, k, fs, Err status)
    else
      let '(lock, k, status) := acquireDatabaseLock strerror (do_lock env) directory emptyFileLock k in
      let fail k fs status := Some (kind, (lock_reset lock k).2, fs, @Err DBImpl status) in
      if negb (ok status) then fail k fs status
      else
        db ← newDBImpl options directory lock tracker;
        match scanDatabaseDirectory strerror (do_list_error env) directory (do_entries env) with
        | Err status => fail k fs status
        | Ok files =>
            if maximum_number files =? kUint64Max then fail k fs (corruption "database file number space is exhausted")
            else
              let db := set_next_file_number db (maximum_number files + 1) in
              let manifest_path := manifestFileName directory in
              match do_exists env with
              | Some error => fail k fs (filesystemError strerror "stat" manifest_path error)
              | None =>
                  '(db, fs, status) ← match fs !! manifest_path with
                                      | Some _ => recoverDatabase env files db fs
                                      | None => initializeNewDatabase env files db fs
                                      end;
                  if negb (ok status) then fail k fs status
                  else
                    match do_thread env with
                    | Some message => fail k fs (ioError ("start background flush thread: " +:+ message))
                    | None => Some (kind, k, fs, Ok db)
                    end
              end
        end.

End db.
