(* ===== verification/History.v ===== *)
(** What a database promises, without files, tables or threads: a history of
    writes numbered from one, the sequence numbers under live snapshots, and
    reads of the history at a sequence number. *)
From S2P Require Import Prelude Status Coding InternalKey Mvcc WriteBatch Arena MemTable Version Compaction CompactionReads.

(** ** Histories *)

Definition op_write (op : Operation) (seq : Z) : mt_write :=
  match op_type op with
  | kPut => mkMtWrite seq kValue (op_key op) (op_value op)
  | kDelete => mkMtWrite seq kDeletion (op_key op) []
  end.

(** The operations of a batch, numbered from [first]. *)
Fixpoint writes_of (batch : WriteBatch) (first : Z) : list mt_write :=
  match batch with
  | [] => []
  | op :: batch => op_write op first :: writes_of batch (first + 1)
  end.

(** The writes of [h] are numbered from [first]. *)
Fixpoint numbered (first : Z) (h : list mt_write) : Prop :=
  match h with
  | [] => True
  | w :: h => w_seq w = first /\ write_ok w /\ numbered (first + 1) h
  end.

Notation history := (list mt_write).
Definition history_ok (h : history) : Prop := numbered 1 h /\ len h <= kMaxSequenceNumber.
Definition entries (h : history) : list entry := map write_entry h.

(** What a read of [key] at [seq] returns: the value, or nothing when the key is
    absent or deleted. *)
Definition history_get (h : history) (key : bytes) (seq : Z) : option bytes := visible (mvcc_get (entries h) key seq).

(** ** The abstract store *)

Record Store := mkStore { s_history : history; s_live : list Z }.

Inductive event :=
  | Wrote (batch : WriteBatch) (status : Status)
  | Waited (batch : WriteBatch)
  | Snapped (seq : Z)
  | Released (seq : Z)
  | Internal.

(** A successful write appends its batch; a failed one, a wait and everything the
    background thread does change nothing; a snapshot is the length of the
    history when it is taken. *)
Inductive store_step : Store -> event -> Store -> Prop :=
  | step_commit h live batch :
      batch <> [] -> history_ok (h ++ writes_of batch (len h + 1)) ->
      store_step (mkStore h live) (Wrote batch success) (mkStore (h ++ writes_of batch (len h + 1)) live)
  | step_empty s : store_step s (Wrote [] success) s
  | step_fail s batch status : ok status = false -> store_step s (Wrote batch status) s
  | step_wait s batch : store_step s (Waited batch) s
  | step_snap h live : store_step (mkStore h live) (Snapped (len h)) (mkStore h (len h :: live))
  | step_release h live live' seq : live ≡ₚ seq :: live' -> store_step (mkStore h live) (Released seq) (mkStore h live')
  | step_internal s : store_step s Internal s.

Inductive store_run : Store -> list event -> Store -> Prop :=
  | store_run_nil s : store_run s [] s
  | store_run_cons s e s' es s'' : store_step s e s' -> store_run s' es s'' -> store_run s (e :: es) s''.

(** The history after the events [es]: the batches that were acknowledged. *)
Definition committed (h : history) (e : event) : history :=
  match e with Wrote batch status => if ok status then h ++ writes_of batch (len h + 1) else h | _ => h end.
Definition history_after (h : history) (es : list event) : history := foldl committed h es.
Definition history_of (es : list event) : history := history_after [] es.

Lemma store_run_history s es s' : store_run s es s' -> s_history s' = history_after (s_history s) es.
Proof.
  induction 1 as [s|s e s1 es s2 Hs _ IH]; [done|]. rewrite IH. change (history_after (s_history s) (e :: es)) with (history_after (committed (s_history s) e) es).
  f_equal. destruct Hs; simpl; try done; [by rewrite app_nil_r|by case_match].
Qed.

(** ** Properties of histories *)

Lemma entries_app h h' : entries (h ++ h') = entries h ++ entries h'.
Proof. apply map_app. Qed.

Lemma numbered_app first h h' : numbered first (h ++ h') <-> numbered first h /\ numbered (first + len h) h'.
Proof.
  revert first. induction h as [|w h IH]; intros first; simpl; [rewrite Z.add_0_r; tauto|]. rewrite IH.
  assert (len (w :: h) = len h + 1) as -> by llia. replace (first + 1 + len h) with (first + (len h + 1)) by lia. tauto.
Qed.

Lemma numbered_elem first h w : numbered first h -> w ∈ h -> first <= w_seq w < first + len h /\ write_ok w.
Proof.
  revert first. induction h as [|w' h IH]; intros first; [by intros _ ?%elem_of_nil|]. intros (Hs & Hw & Hn) [->|Hin]%elem_of_cons.
  - split; [llia|done].
  - destruct (IH _ Hn Hin) as [? ?]. split; [llia|done].
Qed.

Lemma history_ok_app h h' : history_ok (h ++ h') -> history_ok h /\ numbered (len h + 1) h'.
Proof.
  intros [Hn Hl]. apply numbered_app in Hn as [H1 H2]. rewrite Z.add_comm in H2. split; [|done]. split; [done|]. revert Hl. llia.
Qed.

Lemma write_entry_parse w : write_ok w -> parseInternalKey (write_entry w).1 = Some (mkParsed (w_key w) (w_seq w) (w_type w)).
Proof. intros (Hs & _ & _). by apply parse_encode. Qed.

Lemma entries_parse first h e : numbered first h -> e ∈ entries h -> exists w, w ∈ h /\ e = write_entry w /\
  parseInternalKey e.1 = Some (mkParsed (w_key w) (w_seq w) (w_type w)).
Proof.
  intros Hn He. apply list_elem_of_fmap in He as (w & -> & Hw). destruct (numbered_elem _ _ _ Hn Hw) as [_ Hok].
  exists w. split_and!; [done|done|by apply write_entry_parse].
Qed.

(** Later writes are newer. *)
Lemma numbered_newer first h first' h' : numbered first h -> numbered first' h' -> first + len h <= first' ->
  newer_layer (entries h') (entries h).
Proof.
  intros Hn Hn' Hle e e' p p' He He' Hp Hp' _. destruct (entries_parse _ _ _ Hn' He) as (w & Hw & -> & Hpw).
  destruct (entries_parse _ _ _ Hn He') as (w' & Hw' & -> & Hpw'). rewrite Hp in Hpw. rewrite Hp' in Hpw'. simplify_eq. simpl.
  pose proof (numbered_elem _ _ _ Hn Hw'). pose proof (numbered_elem _ _ _ Hn' Hw). lia.
Qed.

Lemma numbered_nodup first h : numbered first h -> NoDup (map fst (entries h)).
Proof.
  revert first. induction h as [|w h IH]; intros first; [constructor|]. intros (Hs & Hw & Hn). simpl. apply list.NoDup_cons. split; [|by eapply IH].
  intros Hin. apply list_elem_of_fmap in Hin as (e & He & Hin). destruct (entries_parse _ _ _ Hn Hin) as (w' & Hw' & -> & Hp).
  rewrite <- He in Hp. pose proof (write_entry_parse w Hw) as Hp'. unfold write_entry in Hp'. simpl in Hp'. rewrite Hp in Hp'. simplify_eq.
  pose proof (numbered_elem _ _ _ Hn Hw'). lia.
Qed.

(** A permutation of the entries reads the same. *)
Lemma entries_get_perm first h es key seq : numbered first h -> es ≡ₚ entries h -> mvcc_get es key seq = mvcc_get (entries h) key seq.
Proof. intros Hn Hp. apply mvcc_get_perm; [|done]. rewrite Hp. by eapply numbered_nodup. Qed.

Lemma len_writes_of batch first : len (writes_of batch first) = len batch.
Proof. revert first. induction batch as [|op batch IH]; intros first; [done|]. simpl. specialize (IH (first + 1)). llia. Qed.
#[export] Hint Rewrite len_writes_of : len.

Lemma small_op_write op seq : small_op op -> len (op_bytes op) <= kMaxWriteBatchPayloadSize -> 0 <= seq <= kMaxSequenceNumber -> write_ok (op_write op seq).
Proof.
  intros Hs Hl Hseq. unfold small_op, op_bytes, write_ok, op_write, kMaxWriteBatchPayloadSize, kMaxWalRecordPayloadSize, kUint32Max in *.
  destruct (op_type op); simpl in *; (split; [done|]); revert Hl; llia.
Qed.

Lemma writes_of_numbered batch first : Forall small_op batch -> len (concat (map op_bytes batch)) <= kMaxWriteBatchPayloadSize ->
  0 <= first -> first + len batch <= kMaxSequenceNumber + 1 -> numbered first (writes_of batch first).
Proof.
  revert first. induction batch as [|op batch IH]; intros first Hs Hl Hf Hm; [done|]. apply Forall_cons_iff in Hs as [Ho Hs]. simpl in Hl |- *.
  assert (len (op_bytes op) <= kMaxWriteBatchPayloadSize /\ len (concat (map op_bytes batch)) <= kMaxWriteBatchPayloadSize) as [H1 H2] by (revert Hl; llia).
  assert (first + 1 + len batch <= kMaxSequenceNumber + 1) by (revert Hm; llia). pose proof (len_nonneg batch).
  split_and!; [by unfold op_write; destruct (op_type op)|apply small_op_write; (done || lia)|apply IH; (done || lia)].
Qed.
