(* ===== verification/DbState.v ===== *)
(** The database between two steps: how the memtables and the version share the
    history, and that reads (src/db/db_impl.cc: get, newIterator) return what the
    history says. *)
From S2P Require Import Prelude Posix Status Coding InternalKey Mvcc WriteBatch Wal SSTableBuilder Iterator SSTableReader Arena SkipList MemTable MergingIterator DbIterator Filename Level Manifest Snapshot DbFiles Version Compaction CompactionReads CompactionBuild FlushMemTable DbImpl History.

(** The history in three parts: in tables, in the immutable memtable, in the
    memtable; the runs of the tables; the sequence number from which the tables
    still answer; the live snapshots. *)
Record Parts := mkParts {
  in_tables : history;
  in_immutable : history;
  in_memtable : history;
  runs : Levels (list entry);
  floor : Z;
  live : list Z;
}.
Definition whole (g : Parts) : history := in_tables g ++ in_immutable g ++ in_memtable g.
Definition store_of (g : Parts) : Store := mkStore (whole g) (live g).

Section state.
Context `{SystemAllocatorLaws}.

Definition holds (m : MemTable) (h : history) : Prop :=
  exists es, mt_inv m es /\ es ≡ₚ entries h /\ mt_memoryUsage m <= 2 * kDefaultBlockSize + writes_room h.

(** The runs [R] of the tables hold [h] for reads from [floor] on. *)
Record runs_hold (R : Levels (list entry)) (h : history) (floor : Z) : Prop := {
  tn_layers : layers_ok (version_layers R);
  tn_entries : forall e, e ∈ concat (version_layers R) -> e ∈ entries h;
  tn_reads : forall key seq, floor <= seq -> visible (mvcc_get (concat (version_layers R)) key seq) = history_get h key seq;
}.

Record reads_inv (db : DBImpl) (g : Parts) : Prop := {
  ri_history : history_ok (whole g);
  ri_last : last_sequence_ db = len (whole g);
  ri_memtable : holds (memtable_ db) (in_memtable g);
  ri_immutable : match immutable_ db with
                 | Some im => holds (im_memtable im) (in_immutable g) /\ in_immutable g <> [] /\
                              im_last_sequence im = len (in_tables g ++ in_immutable g)
                 | None => in_immutable g = []
                 end;
  ri_version : exists v, current_version_ db = Some v /\ version_holds v (runs g) /\ runs_hold (runs g) (in_tables g) (floor g);
  ri_tracks : tracks (snapshots_ db) (live g);
  ri_floor : 0 <= floor g <= len (in_tables g);
  ri_live : Forall (fun s => floor g <= s <= len (whole g)) (live g);
}.

(** ** The parts in order *)

Lemma parts_numbered g : history_ok (whole g) ->
  numbered 1 (in_tables g) /\ numbered (len (in_tables g) + 1) (in_immutable g) /\
  numbered (len (in_tables g) + len (in_immutable g) + 1) (in_memtable g).
Proof.
  intros [Hn _]. unfold whole in Hn. apply numbered_app in Hn as [H1 Hn]. apply numbered_app in Hn as [H2 H3].
  replace (1 + len (in_tables g)) with (len (in_tables g) + 1) in * by lia.
  replace (len (in_tables g) + 1 + len (in_immutable g)) with (len (in_tables g) + len (in_immutable g) + 1) in * by lia. done.
Qed.

Lemma parts_layers g : history_ok (whole g) -> layers_ok [entries (in_memtable g); entries (in_immutable g); entries (in_tables g)].
Proof.
  intros (H1 & H2 & H3)%parts_numbered. pose proof (len_nonneg (in_immutable g)).
  apply layers_ok_three; (eapply numbered_newer; [done..|lia]).
Qed.

(** A lookup through the layers is a lookup in the history. *)
Lemma whole_get g key seq : history_ok (whole g) ->
  mvcc_get (entries (whole g)) key seq =
  first_answer [mvcc_get (entries (in_memtable g)) key seq; mvcc_get (entries (in_immutable g)) key seq; mvcc_get (entries (in_tables g)) key seq].
Proof.
  intros Hok. rewrite <- (entries_get_perm 1 (whole g) (concat [entries (in_memtable g); entries (in_immutable g); entries (in_tables g)])).
  - by rewrite layers_get by (by apply parts_layers).
  - apply Hok.
  - unfold whole. rewrite !entries_app. cbn [concat]. rewrite app_nil_r. rewrite (Permutation_app_comm (entries (in_memtable g))).
    rewrite (Permutation_app_comm (entries (in_immutable g)) (entries (in_tables g))). by rewrite <- app_assoc.
Qed.

(** ** Lookups *)

(** The sequence number a read uses. *)
Definition reads_at (options : ReadOptions) (db : DBImpl) (s : Store) (seq : Z) : Prop :=
  match ro_snapshot options with
  | None => seq = len (s_history s)
  | Some (OwnSnapshot p) => ss_tracker p = tracker_id db /\ ss_sequence p ∈ s_live s /\ seq = ss_sequence p
  | Some OtherSnapshot => False
  end.

Lemma read_sequence_spec options db g seq : reads_inv db g -> reads_at options db (store_of g) seq ->
  (exists s, read_sequence options db = Ok s /\ default (last_sequence_ db) s = seq) /\ floor g <= seq <= kMaxSequenceNumber /\ 0 <= seq.
Proof.
  intros Hi Hr. unfold reads_at, read_sequence, store_of in *. cbn [s_history s_live] in *. pose proof (ri_floor _ _ Hi). destruct (ri_history _ _ Hi) as [_ Hmax].
  assert (len (in_tables g) <= len (whole g)) by (unfold whole; llia).
  destruct (ro_snapshot options) as [[s|]|]; [|done|].
  - destruct Hr as (Ht & Hin & ->). unfold isFrom. rewrite Ht, Nat.eqb_refl. split; [by eexists|].
    pose proof (ri_live _ _ Hi) as Hl. rewrite Forall_elem in Hl. specialize (Hl _ Hin). lia.
  - subst seq. split; [|lia]. eexists. split; [done|]. simpl. apply (ri_last _ _ Hi).
Qed.

Lemma holds_get m first h key seq : holds m h -> numbered first h -> 0 <= seq <= kMaxSequenceNumber -> len key + 8 <= kUint32Max ->
  mt_get m key seq = Some (mvcc_get (entries h) key seq).
Proof. intros (es & Hm & Hp & _) Hn Hseq Hk. rewrite (mt_get_spec m es) by done. f_equal. by eapply entries_get_perm. Qed.

Lemma get_spec reads options key db g seq :
  reads_inv db g -> reads_at options db (store_of g) seq -> len key + 8 <= kUint32Max ->
  exists r, get reads options key db = Some r /\
    match r with
    | Ok value => history_get (whole g) key seq = Some value
    | Err st => (st = notFound "key does not exist" /\ history_get (whole g) key seq = None) \/ (ok st = false /\ isNotFound st = false /\ ~ benign_reads reads)
    end.
Proof.
  intros Hi Hr Hk. destruct (read_sequence_spec _ _ _ _ Hi Hr) as ((s & Hs & Hd) & Hseq & Hpos). pose proof (ri_history _ _ Hi) as Hok.
  destruct (parts_numbered g Hok) as (N1 & N2 & N3). unfold get. rewrite Hs, Hd. unfold history_get. rewrite whole_get by done. cbn [first_answer].
  rewrite (holds_get _ _ _ _ _ (ri_memtable _ _ Hi) N3) by (done || lia). cbn [mbind option_bind].
  destruct (mvcc_get (entries (in_memtable g)) key seq) eqn:E1; [|by eexists|eexists; split; [done|by left]].
  assert (match immutable_ db with Some im => mt_get (im_memtable im) key seq | None => Some LookupAbsent end =
          Some (mvcc_get (entries (in_immutable g)) key seq)) as ->.
  { pose proof (ri_immutable _ _ Hi) as Him. destruct (immutable_ db) as [im|].
    - destruct Him as (Hh & _). by rewrite (holds_get _ _ _ _ _ Hh N2) by (done || lia).
    - by rewrite Him. }
  cbn [mbind option_bind]. destruct (mvcc_get (entries (in_immutable g)) key seq) eqn:E2; [|by eexists|eexists; split; [done|by left]].
  destruct (ri_version _ _ Hi) as (v & -> & Hv & [Hl _ Hreads]). cbn [mbind option_bind].
  destruct (version_get_spec reads v (runs g) (verify_checksums options) key seq Hv Hl ltac:(lia)) as (r & Hget & Hres). rewrite Hget. cbn [mbind option_bind].
  specialize (Hreads key seq ltac:(lia)). unfold history_get in Hreads.
  destruct r as [r|st]; [|eexists; split; [done|right; destruct Hres; split_and!; [done|by eapply version_get_error; [| |exact Hget]; [|lia]|done]]]. subst r. destruct (mvcc_get (concat (version_layers (runs g))) key seq);
    (eexists; split; [done|]; cbn iota; simpl in Hreads; destruct (mvcc_get (entries (in_tables g)) key seq); simpl in *; try congruence; auto).
Qed.
(** ** Iterators *)

Lemma delivers_mono {A} (P Q : Prop) (rest : list A) res : (Q -> P) -> delivers P rest res -> delivers Q rest res.
Proof. intros Hi [?|(? & ? & ?)]; [by left|right]. tauto. Qed.

Lemma table_iterators_spec reads verify tables rs : Forall2 serves tables rs ->
  exists its, table_iterators reads verify tables = Some its /\ Forall2 it_on its rs /\ (benign_reads reads -> Forall it_benign its).
Proof.
  induction 1 as [|t es tables rs Ht _ IH]; [by exists []; repeat constructor|]. cbn [table_iterators].
  destruct (newSSTableIterator_on (reads t) (t_reader t) es verify (sv_reader _ _ Ht)) as (it & -> & Hon & Henv). cbn [mbind option_bind].
  destruct IH as (its & -> & Hons & Hb). cbn [mbind option_bind]. eexists. split; [done|]. split; [by constructor|].
  intros Hr. constructor; [|by apply Hb]. change (it_benign it) with (si_benign it). unfold si_benign. rewrite Henv. apply Hr.
Qed.

Lemma version_concat R : concat (version_layers R) = concat (all_tables R).
Proof. unfold version_layers, all_tables. rewrite !concat_app. simpl. by rewrite app_nil_r. Qed.

Lemma all_tables_hold v R : version_holds v R -> Forall2 serves (all_tables v) (all_tables R).
Proof. intros [L0 L1 L2 _ _]. unfold all_tables. by apply Forall2_app; [|apply Forall2_app]. Qed.

(** The memtables' children of the merging iterator. *)
Definition memtable_iterators (db : DBImpl) : list MemTableIterator :=
  mt_newIterator (memtable_ db) :: match immutable_ db with Some im => [mt_newIterator (im_memtable im)] | None => [] end.

Lemma memtable_children db g : reads_inv db g ->
  exists rs, Forall2 it_on (memtable_iterators db) rs /\ concat rs ≡ₚ entries (in_memtable g) ++ entries (in_immutable g).
Proof.
  intros Hi. destruct (ri_memtable _ _ Hi) as (em & Hm & Hpm & _). pose proof (ri_immutable _ _ Hi) as Him. unfold memtable_iterators.
  assert (it_on (mt_newIterator (memtable_ db)) em) as Hon by (by destruct Hm).
  destruct (immutable_ db) as [im|].
  - destruct Him as ((ei & Hm' & Hpi & _) & _). exists [em; ei]. split; [|simpl; by rewrite app_nil_r, Hpm, Hpi].
    constructor; [done|]. constructor; [by destruct Hm'|constructor].
  - exists [em]. split; [by repeat constructor|]. simpl. by rewrite Him, Hpm.
Qed.

(** The layers of the database, newest first, hold distinct, valid entries. *)
Lemma all_layers db g v : reads_inv db g -> version_holds v (runs g) -> runs_hold (runs g) (in_tables g) (floor g) ->
  let es := entries (in_memtable g) ++ entries (in_immutable g) ++ concat (version_layers (runs g)) in
  NoDup (map fst es) /\ Forall entry_valid es /\
  forall key seq, floor g <= seq -> visible (mvcc_get es key seq) = history_get (whole g) key seq.
Proof.
  intros Hi Hv [Hl He Hreads] es. pose proof (ri_history _ _ Hi) as Hok. destruct (parts_numbered g Hok) as (N1 & N2 & N3).
  pose proof (len_nonneg (in_immutable g)). pose proof (runs_sorted _ _ Hv) as Hrs.
  assert (newer_layer (entries (in_immutable g)) (concat (version_layers (runs g)))) as L2.
  { eapply newer_layer_sub; [eapply (numbered_newer _ _ _ _ N1 N2); lia|done|done]. }
  assert (newer_layer (entries (in_memtable g)) (entries (in_immutable g) ++ concat (version_layers (runs g)))) as L1.
  { apply newer_layer_app_r; [eapply (numbered_newer _ _ _ _ N2 N3); lia|].
    eapply newer_layer_sub; [eapply (numbered_newer _ _ _ _ N1 N3); lia|done|done]. }
  assert (forall first h, numbered first h -> Forall entry_valid (entries h)) as Hval.
  { intros first h Hn. rewrite Forall_elem. intros e Hin. destruct (entries_parse _ _ _ Hn Hin) as (w & _ & _ & Hp). by eexists. }
  assert (forall a b, newer_layer a b -> Forall entry_valid a -> NoDup (map fst a) -> NoDup (map fst b) -> NoDup (map fst (a ++ b))) as Happ.
  { intros a b Hn Ha Hna Hnb. rewrite map_app. apply list.NoDup_app. split_and!; [done| |done]. intros k Hk1 Hk2.
    apply list_elem_of_fmap in Hk1 as (e & -> & He1), Hk2 as (e' & Heq & He2). by apply (newer_nodup a b Hn Ha e e'). }
  split_and!.
  - unfold es. apply Happ; [done|by eapply Hval|by eapply numbered_nodup|]. apply Happ; [done|by eapply Hval|by eapply numbered_nodup|].
    by apply layers_nodup.
  - unfold es. rewrite !Forall_app. split_and!; [by eapply Hval..|]. rewrite Forall_elem. intros e Hin.
    destruct (entries_parse _ _ _ N1 (He e Hin)) as (w & _ & _ & Hp). by eexists.
  - intros key seq Hseq. unfold history_get, es. rewrite whole_get by done. rewrite (mvcc_get_newer_layer _ _ _ _ L1), (mvcc_get_newer_layer _ _ _ _ L2).
    cbn [first_answer]. destruct (mvcc_get (entries (in_memtable g)) key seq); [|done|done].
    destruct (mvcc_get (entries (in_immutable g)) key seq); [|done|done]. rewrite Hreads by done. unfold history_get.
    by destruct (mvcc_get (entries (in_tables g)) key seq).
Qed.

Lemma newIterator_spec reads options db g seq :
  reads_inv db g -> reads_at options db (store_of g) seq ->
  exists d es, newIterator reads options db = Some (Ok d) /\ newDBIterator (input_ d) seq = Some d /\
    it_on (input_ d) es /\ (benign_reads reads -> it_benign (input_ d)) /\ 0 <= seq <= kMaxSequenceNumber /\
    forall key, visible (mvcc_get es key seq) = history_get (whole g) key seq.
Proof.
  intros Hi Hr. destruct (read_sequence_spec _ _ _ _ Hi Hr) as ((s & Hs & Hd) & Hseq & Hpos). unfold newIterator. rewrite Hs, Hd.
  destruct (ri_version _ _ Hi) as (v & -> & Hv & Ht). cbn [mbind option_bind]. destruct (all_layers db g v Hi Hv Ht) as (Hnd & Hval & Hreads).
  destruct (table_iterators_spec reads (verify_checksums options) _ _ (all_tables_hold _ _ Hv)) as (its & -> & Hons & Hb).
  cbn [mbind option_bind]. destruct (memtable_children db g Hi) as (rs & Hmem & Hrs).
  set (es := entries (in_memtable g) ++ entries (in_immutable g) ++ concat (version_layers (runs g))) in *.
  set (input := newMergingIterator _).
  assert (children_ input = map inl (memtable_iterators db) ++ map inr its) as Hch.
  { unfold input, memtable_iterators. simpl. by destruct (immutable_ db). }
  assert (it_on input (sort_run es)) as Hon.
  { split_and!; [done|by apply sort_run_sorted|]. exists (rs ++ all_tables (runs g)). split.
    - rewrite Hch. apply Forall2_app; (rewrite Forall2_fmap_l; eapply Forall2_impl; [|done]; done).
    - rewrite sort_run_perm, concat_app, Hrs, <- version_concat. unfold es. by rewrite app_assoc. }
  unfold newDBIterator. destruct (Z.leb_spec seq kMaxSequenceNumber); [|lia]. cbn [assert_that mbind option_bind].
  eexists _, (sort_run es). split; [done|]. cbn [input_]. split_and!; [done|done| |lia|lia|].
  - intros Hbr. change (it_benign input) with (Forall it_benign (children_ input)). rewrite Hch, Forall_app, !Forall_fmap. split.
    + rewrite Forall_elem. done.
    + by apply Hb.
  - intros key. rewrite <- Hreads by lia. f_equal. apply mvcc_get_perm; [|apply sort_run_perm]. by rewrite sort_run_perm.
Qed.

Lemma iterator_scan reads options db g seq target :
  reads_inv db g -> reads_at options db (store_of g) seq -> len target + 8 <= kUint32Max ->
  exists d bound, newIterator reads options db = Some (Ok d) /\ forall fuel, (bound < fuel)%nat ->
    exists d1 d2 res1 res2 all from,
      di_seekToFirst fuel d = Some d1 /\ di_drain fuel d1 = Some res1 /\ delivers (benign_reads reads) all res1 /\
      di_seek fuel d target = Some d2 /\ di_drain fuel d2 = Some res2 /\ delivers (benign_reads reads) from res2 /\
      keys_increase all /\ (forall k v, (k, v) ∈ all <-> history_get (whole g) k seq = Some v) /\
      keys_increase from /\ (forall k v, (k, v) ∈ from <-> bytes_ltb k target = false /\ history_get (whole g) k seq = Some v).
Proof.
  intros Hi Hr Hlen. destruct (newIterator_spec reads options db g seq Hi Hr) as (d & es & Hd & Hnew & Hon & Hb & Hseq & Hreads).
  exists d, (2 * length es)%nat. split; [done|]. intros fuel Hfuel.
  destruct (db_iterator_scans (input_ d) es seq target fuel Hon Hseq Hlen Hfuel)
    as (d' & d1 & d2 & res1 & res2 & all & from & Hd' & H1 & H2 & H3 & H4 & H5 & H6 & H7 & H8 & H9 & H10).
  rewrite Hnew in Hd'. injection Hd' as <-.
  assert (forall k v, mvcc_get es k seq = LookupValue v <-> history_get (whole g) k seq = Some v) as Hget.
  { intros k v. rewrite <- Hreads. destruct (mvcc_get es k seq); simpl; naive_solver. }
  exists d1, d2, res1, res2, all, from. split_and!; try done; [by eapply delivers_mono..| |].
  - intros k v. by rewrite H8, Hget.
  - intros k v. by rewrite H10, Hget.
Qed.
End state.
