(* ===== verification/DbLog.v ===== *)
(** The write-ahead logs of a database: the batches a log records, numbered on
    from the tables' history, and how a batch reaches the memtable. *)
From S2P Require Import Prelude Posix Status Coding InternalKey Mvcc WriteBatch Wal SSTableBuilder Iterator Arena SkipList MemTable Filename Level Manifest DbFiles Version Compaction CompactionReads CompactionBuild DbImpl History DbState.

(** ** Batches in the memtable *)

Section apply.
Context `{SystemAllocatorLaws}.

Lemma applyBatch_all batch : forall seq m, 0 <= seq -> seq + len batch <= kUint64Max ->
  applyBatch batch seq m = mt_add_all (writes_of batch seq) m.
Proof.
  induction batch as [|op batch IH]; intros seq m Hs Hl; [done|]. cbn [applyBatch writes_of mt_add_all].
  assert (wrap64 (seq + 1) = seq + 1) as -> by (apply wrap64_small; revert Hl; llia).
  assert (seq + 1 + len batch <= kUint64Max) by (revert Hl; llia).
  unfold op_write at 1 2 3 4. destruct (op_type op); cbn [w_seq w_type w_key w_value];
    (destruct (mt_add _ _ _ _ _) as [m'|]; [|done]; cbn [mbind option_bind]; apply IH; (done || lia)).
Qed.

Lemma writes_room_app a b : writes_room (a ++ b) = writes_room a + writes_room b.
Proof. unfold writes_room. induction a as [|w a IH]; simpl; [done|]. rewrite IH. lia. Qed.

(** Every operation takes at least five bytes in its batch's payload. *)
Lemma batch_room batch seq : writes_room (writes_of batch seq) <= 2000 * len (concat (map op_bytes batch)).
Proof.
  revert seq. induction batch as [|op batch IH]; intros seq; [done|]. specialize (IH (seq + 1)). simpl. rewrite len_app.
  pose proof (op_bytes_min op) as Hmin. unfold kOperationHeaderSize in Hmin.
  assert (len (op_key op) + (match op_type op with kPut => len (op_value op) | kDelete => 0 end) <= len (op_bytes op)) as Hb
    by (unfold op_bytes; destruct (op_type op); llia).
  unfold add_room, op_write, kDefaultBlockSize. destruct (op_type op); simpl; revert Hb; llia.
Qed.

Lemma holds_new : exists m, newMemTable = Some m /\ holds m [].
Proof. destruct newMemTable_spec as (m & Hm & Hi & Hu). exists m. split; [done|]. exists []. split_and!; [done|done|simpl; lia]. Qed.

Lemma holds_apply m first h batch seq :
  holds m h -> numbered first (h ++ writes_of batch seq) -> 0 <= seq -> seq + len batch <= kUint64Max ->
  mt_memoryUsage m + writes_room (writes_of batch seq) <= kUint64Max ->
  exists m', applyBatch batch seq m = Some m' /\ holds m' (h ++ writes_of batch seq).
Proof.
  intros (es & Hi & Hp & Hu) Hn Hs Hl Hm. rewrite applyBatch_all by done. pose proof (numbered_nodup _ _ Hn) as Hnd.
  destruct (mt_add_all_spec (writes_of batch seq) m es Hi) as (m' & es' & -> & Hi' & Hp' & Hu').
  - rewrite Forall_elem. intros w Hw. eapply (numbered_elem _ _ w Hn). set_solver.
  - rewrite Hp, <- map_app. change (map write_entry (writes_of batch seq)) with (entries (writes_of batch seq)). rewrite entries_app in Hnd.
    by rewrite (Permutation_app_comm (entries (writes_of batch seq))).
  - done.
  - eexists. split; [done|]. exists es'. split_and!; [done| |rewrite writes_room_app; lia]. rewrite Hp', Hp, entries_app. apply Permutation_app_comm.
Qed.

Lemma holds_empty m h : holds m h -> mt_empty m = bool_decide (h = []).
Proof.
  intros (es & Hi & Hp & _). unfold mt_empty. rewrite (mi_count _ _ Hi). apply Permutation_length in Hp. unfold entries in Hp. rewrite length_map in Hp.
  unfold len. rewrite Hp. destruct h; [done|]. rewrite bool_decide_false by done. by apply Z.eqb_neq.
Qed.
End apply.

(** ** Logs *)

(** The payloads of [batches], numbered from [first]. *)
Fixpoint log_of (first : Z) (batches : list WriteBatch) (payloads : list bytes) : Prop :=
  match batches, payloads with
  | [], [] => True
  | b :: batches, p :: payloads => encode b first = Ok p /\ wf_batch b /\ log_of (first + len b) batches payloads
  | _, _ => False
  end.

Fixpoint batch_writes (first : Z) (batches : list WriteBatch) : history :=
  match batches with
  | [] => []
  | b :: batches => writes_of b first ++ batch_writes (first + len b) batches
  end.

Lemma len_batch_writes first batches : len (batch_writes first batches) = len (concat batches).
Proof. revert first. induction batches as [|b batches IH]; intros first; [done|]. simpl. rewrite !len_app, len_writes_of, IH. done. Qed.

Lemma batch_writes_app first a b : batch_writes first (a ++ b) = batch_writes first a ++ batch_writes (first + len (concat a)) b.
Proof.
  revert first. induction a as [|x a IH]; intros first; simpl; [by rewrite Z.add_0_r|]. rewrite IH, <- app_assoc. do 2 f_equal. rewrite len_app. f_equal. lia.
Qed.

Lemma batch_writes_prefix first a b : a `prefix_of` b -> batch_writes first a `prefix_of` batch_writes first b.
Proof. intros [x ->]. rewrite batch_writes_app. by apply prefix_app_r. Qed.

Lemma log_of_app first a b pa pb : log_of first a pa -> log_of (first + len (concat a)) b pb -> log_of first (a ++ b) (pa ++ pb).
Proof.
  revert first pa. induction a as [|x a IH]; intros first [|p pa]; simpl; try done; [by rewrite Z.add_0_r|].
  intros (He & Hw & Hl) Hb. split_and!; [done|done|]. apply IH; [done|]. rewrite len_app in Hb. by replace (first + len x + len (concat a)) with (first + (len x + len (concat a))) by lia.
Qed.

Lemma log_of_app_inv first a b ps : log_of first (a ++ b) ps ->
  exists pa pb, ps = pa ++ pb /\ log_of first a pa /\ log_of (first + len (concat a)) b pb.
Proof.
  revert first ps. induction a as [|x a IH]; intros first ps; simpl; [exists [], ps; by rewrite Z.add_0_r|]. destruct ps as [|p ps]; [done|].
  intros (He & Hw & Hl). destruct (IH _ _ Hl) as (pa & pb & -> & Ha & Hb). exists (p :: pa), pb. split; [done|]. split; [done|].
  rewrite len_app. by replace (first + (len x + len (concat a))) with (first + len x + len (concat a)) by lia.
Qed.

Lemma log_of_length first batches ps : log_of first batches ps -> length ps = length batches.
Proof. revert first ps. induction batches as [|b batches IH]; intros first [|p ps]; simpl; try done. intros (_ & _ & Hl). by rewrite (IH _ _ Hl). Qed.

Lemma log_of_take n first batches ps : log_of first batches ps -> log_of first (take n batches) (take n ps).
Proof.
  revert first batches ps. induction n as [|n IH]; intros first [|b batches] [|p ps]; simpl; try done. intros (? & ? & ?). auto.
Qed.

(** What [encode] says of a batch in a log. *)
Lemma encode_facts b first p : 0 <= first -> encode b first = Ok p ->
  1 <= first /\ 1 <= len b /\ first + len b <= kMaxSequenceNumber + 1 /\ numbered first (writes_of b first) /\ valid_payload p /\
  writes_room (writes_of b first) <= 2000 * kMaxWriteBatchPayloadSize.
Proof.
  intros Hf He. apply encode_Ok in He as (Hv & Hs & -> & Hl); [|done]. apply hasValidSequenceRange_spec in Hv as (H1 & H2 & H3); [|done|apply len_nonneg].
  assert (len (concat (map op_bytes b)) <= kMaxWriteBatchPayloadSize) as Hops by (revert Hl; unfold payload_bytes; llia).
  pose proof (batch_room b first). split_and!; [lia|lia|lia|apply writes_of_numbered; (done || lia)| |lia].
  split; [|done]. unfold payload_bytes. rewrite !len_app, !len_le_bytes. llia.
Qed.

Lemma log_of_facts first batches : forall ps, 1 <= first -> first <= kMaxSequenceNumber + 1 -> log_of first batches ps ->
  numbered first (batch_writes first batches) /\ Forall valid_payload ps /\ first + len (concat batches) <= kMaxSequenceNumber + 1.
Proof.
  revert first. induction batches as [|b batches IH]; intros first [|p ps] Hf Hm Hl; simpl in Hl; try done.
  { split_and!; [done|constructor|simpl; llia]. }
  destruct Hl as (He & _ & Hl). destruct (encode_facts b first p ltac:(lia) He) as (_ & H1 & H2 & Hn & Hv & _).
  destruct (IH (first + len b) ps ltac:(lia) ltac:(lia) Hl) as (Hn' & Hv' & Hlen). cbn [batch_writes concat]. rewrite len_app. split_and!; [|by constructor|lia].
  apply numbered_app. by rewrite len_writes_of.
Qed.
