(* ===== verification/DbDisk.v ===== *)
(** What a database directory holds between two steps: a readable manifest, its
    tables, and the logs from the manifest's oldest one to the current one, which
    together record the history. *)
From S2P Require Import Prelude Posix Status Coding InternalKey Mvcc WriteBatch Wal SSTableBuilder Iterator SSTableReader Arena SkipList MemTable Filename Level Manifest DbFiles Version Compaction CompactionReads CompactionBuild DbImpl History DbState DbLog.

(** A log that is no longer written to. *)
Record Segment := mkSegment { sg_number : Z; sg_batches : list WriteBatch }.
Definition segments_batches (segments : list Segment) : list WriteBatch := concat (map sg_batches segments).

(** The directory's part of the history: the manifest and the runs and writes of
    its tables, the older logs, and the current log: the batches committed, one
    more whose sync failed, and how many are synced. *)
Record Disk := mkDisk {
  dk_manifest : ManifestState;
  dk_runs : Levels (list entry);
  dk_tables : history;
  dk_floor : Z;
  dk_segments : list Segment;
  dk_batches : list WriteBatch;
  dk_failed : option WriteBatch;
  dk_synced : nat;
}.

(** The writes that are in tables, in older logs, or synced. *)
Definition durable_writes (k : Disk) : history :=
  dk_tables k ++ batch_writes (len (dk_tables k) + 1) (segments_batches (dk_segments k) ++ take (dk_synced k) (dk_batches k)).

Section disk.
Context (directory : string).
Notation W n := (walFileName directory n).

Definition segment_holds (fs : Directory) (first : Z) (s : Segment) : Prop :=
  exists f payloads, fs !! W (sg_number s) = Some f /\ contents f = log_bytes payloads /\ log_of first (sg_batches s) payloads.

Fixpoint segments_hold (fs : Directory) (first : Z) (segments : list Segment) : Prop :=
  match segments with
  | [] => True
  | s :: segments => segment_holds fs first s /\ segments_hold fs (first + len (concat (sg_batches s))) segments
  end.

Record current_log (fs : Directory) (wal : WalWriter) (number first : Z) (batches : list WriteBatch) (failed : option WriteBatch)
    (synced : nat) : Prop := {
  cl_path : w_path wal = W number;
  cl_file : fs !! W number = Some (w_file wal);
  cl_log : exists payloads, log_of first (batches ++ option_list failed) payloads /\ wal_inv wal payloads synced;
  cl_synced : (synced <= length batches)%nat;
  cl_failed : is_Some failed -> ok (error_ wal) = false;
}.

Definition log_numbers (k : Disk) (number : Z) : list Z := map sg_number (dk_segments k) ++ [number].

Record disk_inv (fs : Directory) (wal : WalWriter) (number : Z) (k : Disk) (h : history) : Prop := {
  di_manifest : let c := sealed (manifest_contents (dk_manifest k)) in fs !! manifestFileName directory = Some (mkLogFile c (length c));
  di_wf : manifest_wf (dk_manifest k);
  di_valid : validateState (dk_manifest k) = Some None;
  di_stored : levels_hold (stored directory fs) (mf_levels (dk_manifest k)) (dk_runs k);
  di_runs : runs_hold (dk_runs k) (dk_tables k) (dk_floor k);
  di_floor : 0 <= dk_floor k <= len (dk_tables k);
  di_flushed : flushed_sequence (dk_manifest k) = len (dk_tables k);
  di_oldest : head (log_numbers k number) = Some (oldest_wal_number (dk_manifest k));
  di_sorted : StronglySorted Z.lt (log_numbers k number);
  di_positive : Forall (fun n => 0 < n <= kUint64Max) (log_numbers k number);
  di_segments : segments_hold fs (len (dk_tables k) + 1) (dk_segments k);
  di_current : current_log fs wal number (len (dk_tables k) + 1 + len (concat (segments_batches (dk_segments k)))) (dk_batches k) (dk_failed k) (dk_synced k);
  di_history : dk_tables k ++ batch_writes (len (dk_tables k) + 1) (segments_batches (dk_segments k) ++ dk_batches k) = h;
  di_wals : forall path n, is_Some (fs !! path) -> parseNumberedFileName path = Some (n, kWal) -> oldest_wal_number (dk_manifest k) <= n ->
    path = W n /\ n ∈ log_numbers k number;
}.

(** ** The files that matter *)

Inductive relevant (m : ManifestState) : string -> Prop :=
  | relevant_manifest : relevant m (manifestFileName directory)
  | relevant_table t : t ∈ all_tables (mf_levels m) -> relevant m (sstableFileName directory (tm_number t))
  | relevant_log path n : parseNumberedFileName path = Some (n, kWal) -> oldest_wal_number m <= n -> relevant m path.

Definition same_relevant (m : ManifestState) (fs fs' : Directory) : Prop := forall path, relevant m path -> fs' !! path = fs !! path.

Lemma wal_parse n : 0 < n <= kUint64Max -> parseNumberedFileName (W n) = Some (n, kWal).
Proof. apply (numberedFileName_parse directory kWal n). Qed.

Lemma log_relevant fs wal number k h n : disk_inv fs wal number k h -> n ∈ log_numbers k number -> relevant (dk_manifest k) (W n).
Proof.
  intros Hd Hn. pose proof (di_positive _ _ _ _ _ Hd) as Hpos. rewrite Forall_elem in Hpos. apply (relevant_log _ _ n); [by apply wal_parse, Hpos|].
  pose proof (di_sorted _ _ _ _ _ Hd) as Hs. pose proof (di_oldest _ _ _ _ _ Hd) as Ho. destruct (log_numbers k number) as [|m ns]; [done|].
  simpl in Ho. injection Ho as <-. apply StronglySorted_inv in Hs as [_ Hs]. rewrite Forall_elem in Hs.
  apply elem_of_cons in Hn as [->|Hn]; [lia|]. specialize (Hs _ Hn). lia.
Qed.

Lemma segments_hold_frame fs fs' segments : forall first,
  (forall s, s ∈ segments -> fs' !! W (sg_number s) = fs !! W (sg_number s)) -> segments_hold fs first segments -> segments_hold fs' first segments.
Proof.
  induction segments as [|s segments IH]; intros first Hsame; [done|]. intros ((f & ps & Hf & ?) & Hs). split.
  - exists f, ps. rewrite Hsame by set_solver. done.
  - apply IH; [|done]. intros s' Hs'. apply Hsame. set_solver.
Qed.

Lemma stored_frame fs fs' t es : fs' !! sstableFileName directory (tm_number t) = fs !! sstableFileName directory (tm_number t) ->
  stored directory fs t es -> stored directory fs' t es.
Proof. intros Hsame [(c & Hf & ?) ? ? ? ?]. split; [|done..]. exists c. by rewrite Hsame. Qed.

Lemma Forall2_impl_in {A B} (P Q : A -> B -> Prop) l k : (forall x y, x ∈ l -> P x y -> Q x y) -> Forall2 P l k -> Forall2 Q l k.
Proof. induction 2; constructor; [apply H; set_solver|]. apply IHForall2. intros ? ? ?. apply H. set_solver. Qed.

Lemma levels_stored_frame fs fs' ls R :
  (forall t, t ∈ all_tables ls -> fs' !! sstableFileName directory (tm_number t) = fs !! sstableFileName directory (tm_number t)) ->
  levels_hold (stored directory fs) ls R -> levels_hold (stored directory fs') ls R.
Proof.
  intros Hsame [L0 L1 L2 S1 S2]. unfold all_tables in Hsame.
  split; [..|done|done]; (eapply Forall2_impl_in; [|eassumption]; intros t es Ht; apply stored_frame, Hsame; set_solver).
Qed.

Lemma disk_inv_frame fs fs' wal number k h : same_relevant (dk_manifest k) fs fs' -> disk_inv fs wal number k h -> disk_inv fs' wal number k h.
Proof.
  intros Hsame Hd. assert (forall n, n ∈ log_numbers k number -> fs' !! W n = fs !! W n) as Hlog by (intros n Hn; by apply Hsame, (log_relevant fs wal number k h)).
  destruct Hd as [H1 H2 H3 H4 H5 H6 H7 H8 H9 H10 H11 [C1 C2 C3 C4 C5] H13 H14]. split; try done.
  - rewrite Hsame; [done|constructor].
  - eapply levels_stored_frame; [|done]. intros t Ht. by apply Hsame, relevant_table.
  - eapply segments_hold_frame; [|done]. intros s Hs. apply Hlog. unfold log_numbers. apply elem_of_app. left. by apply list_elem_of_fmap_2.
  - split; try done. rewrite Hlog; [done|]. unfold log_numbers. set_solver.
  - intros path n Hp Hparse Hle. apply (H14 path n); [|done|done]. rewrite <- Hsame; [done|]. by eapply relevant_log.
Qed.

(** ** Writing to the current log *)

Section logging.
Context (strerror : Z -> string).

Lemma writeAll_path evs : forall w data w' st evs', writeAll strerror evs w data = (w', st, evs') -> w_path w' = w_path w.
Proof.
  assert (forall op errno w, w_path (latchIOError strerror op errno w) = w_path w) as Hl by (intros op errno w; unfold latchIOError; by destruct (ok _)).
  induction evs as [|ev evs IH]; intros w data w' st evs'; simpl; (case_bool_decide; [by intros [= <- _ _]|]); [by intros [= <- _ _]|].
  destruct ev as [n|errno].
  - destruct (0 <? n); [intros E; by rewrite (IH _ _ _ _ _ E)|]. intros [= <- _ _]. apply Hl.
  - destruct (errno =? EINTR); [intros E; by rewrite (IH _ _ _ _ _ E)|]. intros [= <- _ _]. apply Hl.
Qed.

Lemma append_path evs w payload w' st evs' : append strerror evs w payload = (w', st, evs') -> w_path w' = w_path w.
Proof.
  unfold append. destruct (negb _); [by intros [= <- _ _]|]. case_bool_decide; [by intros [= <- _ _]|]. destruct (_ <? _); [by intros [= <- _ _]|].
  destruct (writeAll _ _ _ _) as [[w1 st1] evs1] eqn:E1. apply writeAll_path in E1. destruct (negb _); [by intros [= <- _ _]|].
  intros E2. apply writeAll_path in E2. congruence.
Qed.

Lemma sync_path errnos w w' st : sync strerror errnos w = (w', st) -> w_path w' = w_path w.
Proof.
  unfold sync. destruct (negb _); [by intros [= <- _]|]. induction errnos as [|e errnos IH]; simpl; [by intros [= <- _]|].
  destruct (e =? EINTR); [done|]. intros [= <- _]. unfold latchIOError. by destruct (ok _).
Qed.

(** An append of a batch: committed, or the log is latched. *)
Lemma append_and_sync_spec env durability fs wal number first batches failed synced batch payload wal' st :
  current_log fs wal number first batches failed synced -> 0 <= first -> wf_batch batch ->
  encode batch (first + len (concat batches)) = Ok payload -> append_and_sync strerror env durability wal payload = (wal', st) ->
  (st = success /\ ok (error_ wal') = true /\
   current_log (publish_wal wal' fs) wal' number first (batches ++ [batch]) None (if durability is kSync then S (length batches) else synced)) \/
  (ok st = false /\ ok (error_ wal') = false /\ exists failed', current_log (publish_wal wal' fs) wal' number first batches failed' synced /\
     (failed' = None \/ failed' = failed \/ failed' = Some batch)).
Proof.
  intros [Hpath Hfile (ps & Hlog & Hinv) Hsy Hfl] Hf Hwf Henc. unfold append_and_sync. pose proof (len_nonneg (concat batches)) as Hnn.
  destruct (encode_facts batch (first + len (concat batches)) payload ltac:(lia) Henc) as (_ & _ & _ & _ & Hv & _).
  destruct (append strerror (we_writes env) wal payload) as [[w1 st1] evs1] eqn:Ea. pose proof (append_path _ _ _ _ _ _ Ea) as Hp1.
  pose proof (wal_inv_append strerror _ _ _ _ _ _ _ _ Hinv Ea) as Hi1.
  assert (forall w2, w_path w2 = w_path wal -> publish_wal w2 fs !! W number = Some (w_file w2)) as Hpub.
  { intros w2 Hp2. unfold publish_wal. rewrite Hp2, Hpath. apply lookup_insert_eq. }
  destruct (ok (error_ wal)) eqn:Hok.
  2:{ rewrite append_latched in Ea by done. injection Ea as <- <- <-. rewrite Hok. cbn [negb]. intros [= <- <-]. right. split_and!; [done|done|].
      exists failed. split; [split; [done|by apply Hpub|by exists ps|done|by intros _]|auto]. }
  destruct failed as [b|]; [by specialize (Hfl ltac:(by eexists))|]. simpl in Hlog. rewrite app_nil_r in Hlog.
  assert (log_of first (batches ++ [batch]) (ps ++ [payload])) as Hlog' by (apply log_of_app; [done|by split_and!]).
  pose proof (log_of_length _ _ _ Hlog) as Hlen. pose proof Ea as Ea'. apply append_spec in Ea as (j & Hwf1 & [(-> & _ & He)|(Hst & Hno & _)]); [| |done|done].
  2:{ rewrite Hno in Hi1 |- *. cbn [negb]. intros [= <- <-]. right. rewrite <- Hst. split_and!; [done|done|]. exists None.
      split; [|auto]. split; [congruence|by apply Hpub|exists ps; simpl; by rewrite app_nil_r|done|by intros [? ?]]. }
  simpl in Hi1. change (negb (ok success)) with false. cbn iota. destruct durability.
  - intros [= <- <-]. left. rewrite He. split_and!; [done|done|]. split; [congruence|by apply Hpub| |rewrite length_app; simpl; lia|by intros [? ?]].
    exists (ps ++ [payload]). simpl. by rewrite app_nil_r.
  - intros Es. pose proof (sync_path _ _ _ _ Es) as Hp2. pose proof (wal_inv_sync strerror _ _ _ _ _ _ Hi1 Es) as Hi2.
    unfold sync in Es. rewrite He, Hok in Es. cbn [negb] in Es. apply sync_loop_spec in Es as (_ & [(-> & He2 & _)|(Hst & Hno & _)]); [| |congruence].
    + left. rewrite He2, He. split_and!; [done|done|]. split; [congruence|by apply Hpub; congruence| |rewrite length_app; simpl; lia|by intros [? ?]].
      exists (ps ++ [payload]). simpl in Hi2 |- *. rewrite app_nil_r. split; [done|]. rewrite length_app, Hlen in Hi2. simpl in Hi2.
      by replace (S (length batches)) with (length batches + 1)%nat by lia.
    + right. rewrite Hno in Hi2. rewrite <- Hst. split_and!; [done|done|]. exists (Some batch). split; [|auto]. split; [congruence|by apply Hpub; congruence| |done|].
      * exists (ps ++ [payload]). done.
      * intros _. by rewrite <- Hst.
Qed.
End logging.

(** ** The current log grows, and is replaced *)

Definition with_log (k : Disk) (segments : list Segment) (batches : list WriteBatch) (failed : option WriteBatch) (synced : nat) : Disk :=
  mkDisk (dk_manifest k) (dk_runs k) (dk_tables k) (dk_floor k) segments batches failed synced.

Lemma table_parse n : 0 < n <= kUint64Max -> parseNumberedFileName (sstableFileName directory n) = Some (n, kSSTable).
Proof. apply (numberedFileName_parse directory kSSTable n). Qed.

Lemma wal_inj n m : 0 < n <= kUint64Max -> 0 < m <= kUint64Max -> W n = W m -> n = m.
Proof. intros Hn Hm E. by apply (numberedFileName_inj directory kWal n kWal m) in E as [_ ?]. Qed.

(** The numbers of the manifest's tables. *)
Lemma valid_numbers m t : manifest_wf m -> validateState m = Some None -> t ∈ all_tables (mf_levels m) -> 0 < tm_number t <= kUint64Max.
Proof.
  intros (_ & _ & Hwf) Hv Ht. rewrite Forall_elem in Hwf. destruct (Hwf t Ht) as [Hn _]. split; [|lia].
  destruct (valid_positive m t Hv Ht). lia.
Qed.

(** Two writes to a log's path change nothing else that matters. *)
Lemma wal_path_other fs wal number k h n f : disk_inv fs wal number k h -> 0 < n <= kUint64Max ->
  <[W n := f]> fs !! manifestFileName directory = fs !! manifestFileName directory /\
  (forall t, t ∈ all_tables (mf_levels (dk_manifest k)) ->
     <[W n := f]> fs !! sstableFileName directory (tm_number t) = fs !! sstableFileName directory (tm_number t)) /\
  (forall m, 0 < m <= kUint64Max -> m <> n -> <[W n := f]> fs !! W m = fs !! W m).
Proof.
  intros Hd Hn. pose proof (wal_parse n Hn) as Hpn. split_and!.
  - apply lookup_insert_ne. intros E. rewrite E, manifest_unnumbered in Hpn. done.
  - intros t Ht. apply lookup_insert_ne. intros E. rewrite E, table_parse in Hpn; [done|].
    eapply valid_numbers; [apply (di_wf _ _ _ _ _ Hd)|apply (di_valid _ _ _ _ _ Hd)|done].
  - intros m Hm Hne. apply lookup_insert_ne. intros E. by apply wal_inj in E.
Qed.

Lemma current_positive fs wal number k h : disk_inv fs wal number k h -> 0 < number <= kUint64Max.
Proof. intros Hd. pose proof (di_positive _ _ _ _ _ Hd) as Hp. rewrite Forall_elem in Hp. apply Hp. unfold log_numbers. set_solver. Qed.

Lemma older_numbers fs wal number k h s : disk_inv fs wal number k h -> s ∈ dk_segments k -> 0 < sg_number s <= kUint64Max /\ sg_number s < number.
Proof.
  intros Hd Hs. pose proof (di_positive _ _ _ _ _ Hd) as Hp. pose proof (di_sorted _ _ _ _ _ Hd) as Hso. unfold log_numbers in *.
  rewrite Forall_elem in Hp. split; [apply Hp, elem_of_app; left; by apply list_elem_of_fmap_2|].
  eapply (StronglySorted_app_1_elem_of Z.lt); [exact Hso|by apply list_elem_of_fmap_2|set_solver].
Qed.

Lemma disk_inv_write fs wal number k h wal' batches failed synced :
  disk_inv fs wal number k h -> w_path wal' = W number ->
  current_log (publish_wal wal' fs) wal' number (len (dk_tables k) + 1 + len (concat (segments_batches (dk_segments k)))) batches failed synced ->
  disk_inv (publish_wal wal' fs) wal' number (with_log k (dk_segments k) batches failed synced)
    (dk_tables k ++ batch_writes (len (dk_tables k) + 1) (segments_batches (dk_segments k) ++ batches)).
Proof.
  intros Hd Hpath Hcl. unfold publish_wal in *. rewrite Hpath in *. pose proof (current_positive _ _ _ _ _ Hd) as Hnum.
  destruct (wal_path_other fs wal number k h number (w_file wal') Hd Hnum) as (F1 & F2 & F3).
  pose proof (older_numbers fs wal number k h) as Hold. specialize (fun s => Hold s Hd).
  destruct Hd as [H1 H2 H3 H4 H5 H6 H7 H8 H9 H10 H11 [C1 C2 C3 C4 C5] H13 H14]. split; simpl; try done.
  - by rewrite F1.
  - eapply levels_stored_frame; [|done]. done.
  - eapply segments_hold_frame; [|done]. intros s Hs. destruct (Hold s Hs) as [? ?]. apply F3; [done|lia].
  - intros path n [f Hp] Hparse Hle. destruct (decide (path = W number)) as [->|Hne].
    + rewrite wal_parse in Hparse by done. injection Hparse as <-. split; [done|]. unfold log_numbers. set_solver.
    + rewrite lookup_insert_ne in Hp by done. apply (H14 path n); [by eexists|done|done].
Qed.

Lemma segments_hold_app fs a b : forall first,
  segments_hold fs first (a ++ b) <-> segments_hold fs first a /\ segments_hold fs (first + len (concat (segments_batches a))) b.
Proof.
  induction a as [|s a IH]; intros first; simpl; [rewrite Z.add_0_r; tauto|]. rewrite IH. unfold segments_batches. simpl. rewrite concat_app, len_app.
  replace (first + len (concat (sg_batches s)) + len (concat (concat (map sg_batches a))))
    with (first + (len (concat (sg_batches s)) + len (concat (concat (map sg_batches a))))) by lia. tauto.
Qed.

Lemma durable_log k segments batches failed synced :
  segments_batches (dk_segments k) ++ take (dk_synced k) (dk_batches k) `prefix_of` segments_batches segments ++ take synced batches ->
  durable_writes k `prefix_of` durable_writes (with_log k segments batches failed synced).
Proof.
  intros [x Hx]. unfold durable_writes. cbn [with_log dk_tables dk_segments dk_batches dk_synced]. rewrite Hx.
  generalize (segments_batches (dk_segments k) ++ take (dk_synced k) (dk_batches k)) as l. intros l. rewrite batch_writes_app, (app_assoc (dk_tables k)). by apply prefix_app_r.
Qed.

(** A new, empty log with a larger number. *)
Lemma disk_inv_rotate fs wal number k h number' :
  disk_inv fs wal number k h -> ok (error_ wal) = true -> number < number' <= kUint64Max -> fs !! W number' = None ->
  disk_inv (<[W number' := mkLogFile [] 0]> fs) (mkWalWriter (mkLogFile [] 0) (W number') success) number'
    (with_log k (dk_segments k ++ [mkSegment number (dk_batches k)]) [] None 0) h.
Proof.
  intros Hd Hok Hnum Hnone. pose proof (current_positive _ _ _ _ _ Hd) as Hpos.
  destruct (wal_path_other fs wal number k h number' (mkLogFile [] 0) Hd ltac:(lia)) as (F1 & F2 & F3).
  pose proof (older_numbers fs wal number k h) as Hold. specialize (fun s => Hold s Hd).
  destruct Hd as [H1 H2 H3 H4 H5 H6 H7 H8 H9 H10 H11 [C1 C2 (ps & Hlog & Hinv) C4 C5] H13 H14].
  destruct (dk_failed k) as [b|]; [by rewrite (C5 ltac:(by eexists)) in Hok|]. simpl in Hlog. rewrite app_nil_r in Hlog.
  assert (contents (w_file wal) = log_bytes ps) as Hcon.
  { destruct Hinv as (_ & (p & j & _ & _ & Hc & Hz) & _). rewrite Hc, (Hz Hok). by rewrite take_0, app_nil_r. }
  assert (map sg_number (dk_segments k ++ [mkSegment number (dk_batches k)]) = log_numbers k number) as Hnums by (unfold log_numbers; by rewrite map_app).
  assert (segments_batches (dk_segments k ++ [mkSegment number (dk_batches k)]) = segments_batches (dk_segments k) ++ dk_batches k) as Hbs
    by (unfold segments_batches; rewrite map_app, concat_app; simpl; by rewrite app_nil_r).
  split; cbn [dk_manifest dk_runs dk_tables dk_floor dk_segments dk_batches dk_failed dk_synced with_log]; try done.
  - by rewrite F1.
  - by eapply levels_stored_frame.
  - unfold log_numbers at 1. cbn [with_log dk_segments]. rewrite Hnums. unfold log_numbers in *. destruct (map sg_number (dk_segments k)); done.
  - unfold log_numbers at 1. cbn [with_log dk_segments]. rewrite Hnums. apply StronglySorted_app_2; [|done|repeat constructor]. intros n x Hn ->%list_elem_of_singleton.
    unfold log_numbers in Hn. apply elem_of_app in Hn as [Hn|Hn%list_elem_of_singleton]; [|lia].
    apply list_elem_of_fmap in Hn as (s & -> & Hs). destruct (Hold s Hs). lia.
  - unfold log_numbers at 1. cbn [with_log dk_segments]. rewrite Hnums. apply Forall_app. split; [done|]. constructor; [lia|constructor].
  - apply segments_hold_app. split.
    + eapply segments_hold_frame; [|done]. intros s Hs. destruct (Hold s Hs) as [? ?]. apply F3; [done|lia].
    + split; [|done]. exists (w_file wal), ps. simpl. split_and!; [|done|done]. rewrite F3; [done|done|lia].
  - split; simpl; [done|apply lookup_insert_eq| |lia|by intros [? ?]].
    exists []. split; [done|]. split_and!; [constructor| |done|simpl; lia]. exists [x00], 0%nat. split_and!; try done. rewrite length_record. lia.
  - by rewrite Hbs, app_nil_r.
  - intros path n [f Hp] Hparse Hle. unfold log_numbers at 1. cbn [with_log dk_segments]. rewrite Hnums. destruct (decide (path = W number')) as [->|Hne].
    + rewrite wal_parse in Hparse by lia. injection Hparse as <-. split; [done|]. set_solver.
    + rewrite lookup_insert_ne in Hp by done. destruct (H14 path n) as [-> ?]; [by eexists|done|done|]. split; [done|]. set_solver.
Qed.

(** ** A new manifest *)

Lemma log_path_not_manifest path n : parseNumberedFileName path = Some (n, kWal) ->
  path <> manifestFileName directory /\ path <> manifestTemporaryFileName directory.
Proof. intros Hp. split; intros ->; [by rewrite manifest_unnumbered in Hp|by rewrite manifest_temporary_unnumbered in Hp]. Qed.

Lemma table_path_not_manifest n : 0 < n <= kUint64Max ->
  sstableFileName directory n <> manifestFileName directory /\ sstableFileName directory n <> manifestTemporaryFileName directory.
Proof. intros Hn%table_parse. split; intros E; rewrite E in Hn; [by rewrite manifest_unnumbered in Hn|by rewrite manifest_temporary_unnumbered in Hn]. Qed.

Lemma durable_commit k m R floor old segments : dk_segments k = old ++ segments ->
  let tables := dk_tables k ++ batch_writes (len (dk_tables k) + 1) (segments_batches old) in
  durable_writes (mkDisk m R tables floor segments (dk_batches k) (dk_failed k) (dk_synced k)) = durable_writes k.
Proof.
  intros Hseg tables. unfold durable_writes. cbn [dk_tables dk_segments dk_batches dk_synced]. rewrite Hseg.
  assert (segments_batches (old ++ segments) = segments_batches old ++ segments_batches segments) as -> by (unfold segments_batches; by rewrite map_app, concat_app).
  rewrite <- (app_assoc (segments_batches old)), (batch_writes_app _ (segments_batches old)). unfold tables. rewrite <- app_assoc, len_app, len_batch_writes. do 3 f_equal. lia.
Qed.

(** The manifest [m] takes effect: its tables hold the history through the
    segments [old], which are no longer needed. *)
Lemma disk_inv_commit fs fs' wal number k h m R floor old segments :
  disk_inv fs wal number k h -> dk_segments k = old ++ segments ->
  let tables := dk_tables k ++ batch_writes (len (dk_tables k) + 1) (segments_batches old) in
  let k' := mkDisk m R tables floor segments (dk_batches k) (dk_failed k) (dk_synced k) in
  (forall path, path <> manifestFileName directory -> path <> manifestTemporaryFileName directory -> fs' !! path = fs !! path) ->
  (let c := sealed (manifest_contents m) in fs' !! manifestFileName directory = Some (mkLogFile c (length c))) ->
  manifest_wf m -> validateState m = Some None -> levels_hold (stored directory fs') (mf_levels m) R -> runs_hold R tables floor ->
  0 <= floor <= len tables -> flushed_sequence m = len tables -> head (log_numbers k' number) = Some (oldest_wal_number m) ->
  disk_inv fs' wal number k' h.
Proof.
  intros Hd Hseg tables k' Hsame Hm Hwf Hvalid Hst Hruns Hfloor Hfl Hold.
  assert (log_numbers k number = map sg_number old ++ log_numbers k' number) as Hnums by (unfold log_numbers; rewrite Hseg; simpl; by rewrite map_app, app_assoc).
  assert (forall n, n ∈ log_numbers k number -> fs' !! W n = fs !! W n) as Hlog.
  { intros n Hn. pose proof (di_positive _ _ _ _ _ Hd) as Hp. rewrite Forall_elem in Hp. by destruct (log_path_not_manifest (W n) n (wal_parse n (Hp n Hn))); apply Hsame. }
  assert (len tables = len (dk_tables k) + len (concat (segments_batches old))) as Hlen by (unfold tables; by rewrite len_app, len_batch_writes).
  assert (segments_batches (dk_segments k) = segments_batches old ++ segments_batches segments) as Hbs by (unfold segments_batches; by rewrite Hseg, map_app, concat_app).
  destruct Hd as [_ _ _ _ _ _ _ Ho Hs Hpos Hsegs [C1 C2 C3 C4 C5] Hh Hw]. rewrite Hseg in Hsegs. apply segments_hold_app in Hsegs as [_ Hsegs].
  rewrite Hnums in Hs, Hpos, Ho. split; cbn [k' dk_manifest dk_runs dk_tables dk_floor dk_segments dk_batches dk_failed dk_synced]; try done.
  - by apply StronglySorted_app_1_r in Hs.
  - by apply Forall_app in Hpos as [_ ?].
  - rewrite Hlen. replace (len (dk_tables k) + len (concat (segments_batches old)) + 1) with (len (dk_tables k) + 1 + len (concat (segments_batches old))) by lia.
    eapply segments_hold_frame; [|exact Hsegs]. intros s Hin. apply Hlog. rewrite Hnums. unfold log_numbers. simpl.
    rewrite !elem_of_app. right. left. by apply list_elem_of_fmap_2.
  - split; try done.
    + rewrite Hlog; [done|]. rewrite Hnums. unfold log_numbers. set_solver.
    + rewrite Hbs, concat_app, len_app in C3. rewrite Hlen.
      by replace (len (dk_tables k) + len (concat (segments_batches old)) + 1 + len (concat (segments_batches segments)))
        with (len (dk_tables k) + 1 + (len (concat (segments_batches old)) + len (concat (segments_batches segments)))) by lia.
  - rewrite <- Hh, Hbs, <- app_assoc, (batch_writes_app _ (segments_batches old)), Hlen. unfold tables. rewrite <- app_assoc. do 3 f_equal. lia.
  - intros path n [f Hp] Hparse Hle. destruct (log_path_not_manifest path n Hparse) as [N1 N2]. rewrite Hsame in Hp by done.
    assert (oldest_wal_number (dk_manifest k) <= oldest_wal_number m /\ oldest_wal_number m ∈ log_numbers k' number) as [Hle' Hin].
    { assert (oldest_wal_number m ∈ log_numbers k' number) as Hin by (destruct (log_numbers k' number); simplify_eq/=; set_solver). split; [|done].
      destruct (map sg_number old) as [|n0 ns] eqn:E; simpl in Ho, Hs; [rewrite Hold in Ho; injection Ho as Ho; lia|].
      injection Ho as <-. apply StronglySorted_inv in Hs as [_ Hs]. rewrite Forall_elem in Hs.
      specialize (Hs (oldest_wal_number m) ltac:(set_solver)). lia. }
    destruct (Hw path n) as [-> Hn]; [by eexists|done|lia|]. split; [done|]. rewrite Hnums in Hn. apply elem_of_app in Hn as [Hn|Hn]; [|done].
    exfalso. pose proof (StronglySorted_app_1_elem_of Z.lt _ _ _ _ Hs Hn Hin). lia.
Qed.
End disk.
