(* ===== verification/DbSteps.v ===== *)
(** The database as a state machine: calls of client threads and the sections of
    the background thread (src/db/db_impl.cc), interleaved at the points where
    the mutex is taken. *)
From S2P Require Import Prelude Posix Status Coding InternalKey Mvcc WriteBatch Wal BlockBuilder SSTableBuilder Iterator SSTableReader Arena SkipList MemTable MergingIterator DbIterator Filename Level Manifest Snapshot DbFiles Version Compaction CompactionReads CompactionBuild FlushMemTable DbImpl History DbState DbLog DbDisk.

(** Where the background thread is: at the top of its loop, between two sections
    of a flush or a compaction, or ended. *)
Inductive Background :=
  | Idle
  | Flushing
  | FlushBuilt (descriptor : TableMeta) (table_reader : SSTableReader)
  | FlushReady (descriptor : TableMeta) (candidate : ManifestState) (candidate_version : Version) (live_wal_number : Z)
  | FlushWritten (candidate : ManifestState) (candidate_version : Version) (live_wal_number : Z)
  | FlushPublished (live_wal_number : Z)
  | Compacting
  | CompactPicked (plan : CompactionPlan) (numbers : list (result Z))
  | CompactBuilt (plan : CompactionPlan) (outputs : list CompactionOutput)
  | CompactReady (plan : CompactionPlan) (outputs : list CompactionOutput) (candidate : ManifestState) (candidate_version : Version)
  | CompactWritten (plan : CompactionPlan) (candidate : ManifestState) (candidate_version : Version)
  | CompactPublished
  | Failed (status : Status)
  | Stopped.

Record State := mkState { st_db : DBImpl; st_fs : Directory; st_bg : Background }.

Section steps.
Context `{SystemAllocator} (strerror : Z -> string).

(** The top of the loop, with the mutex held. *)
Definition background_choose (db : DBImpl) : Background :=
  if negb (shutting_down_ db || bool_decide (is_Some (immutable_ db)) || hasCompactionWork db) then Idle
  else if shutting_down_ db && bool_decide (immutable_ db = None) then Stopped
  else if negb (shutting_down_ db) && hasCompactionWork db then Compacting else Flushing.

(** The bottom of the loop, with the mutex held, after a success. *)
Definition background_again (db : DBImpl) : Background :=
  if shutting_down_ db && bool_decide (immutable_ db = None) then Stopped else Idle.

(** The next section of the background thread.  [numbers] are handed out one call
    at a time; the merge has used exactly those handed out when it ends. *)
Inductive background_step : State -> State -> Prop :=
  | bg_choose db fs : background_step (mkState db fs Idle) (mkState db fs (background_choose db))
  | bg_flush_build env db fs fs' r :
      (forall im es, immutable_ db = Some im -> it_on (mt_newIterator (im_memtable im)) es -> table_room es <= kUint32Max) ->
      flush_build strerror env db fs = Some (fs', r) ->
      background_step (mkState db fs Flushing)
        (mkState db fs' (match r with Ok (descriptor, reader) => FlushBuilt descriptor reader | Err status => Failed status end))
  | bg_flush_candidate descriptor reader db fs candidate version live :
      flush_candidate descriptor reader db = Some (candidate, version, live) ->
      background_step (mkState db fs (FlushBuilt descriptor reader)) (mkState db fs (FlushReady descriptor candidate version live))
  | bg_flush_commit env descriptor candidate version live db fs fs' status :
      flush_commit strerror env descriptor candidate db fs = Some (fs', status) ->
      background_step (mkState db fs (FlushReady descriptor candidate version live))
        (mkState db fs' (if ok status then FlushWritten candidate version live else Failed status))
  | bg_flush_publish candidate version live db fs :
      background_step (mkState db fs (FlushWritten candidate version live)) (mkState (flush_publish candidate version db) fs (FlushPublished live))
  | bg_flush_clean env live db fs :
      background_step (mkState db fs (FlushPublished live)) (mkState db (flush_clean env live fs) (background_again db))
  | bg_compact_pick db fs plan :
      last_sequence_ db < kMaxSequenceNumber -> compact_pick db = Some plan ->
      background_step (mkState db fs Compacting)
        (mkState db fs (match plan with Some plan => CompactPicked plan [] | None => background_again db end))
  | bg_compact_number plan numbers db fs db' r :
      allocateFileNumber db = (db', r) ->
      background_step (mkState db fs (CompactPicked plan numbers)) (mkState db' fs (CompactPicked plan (numbers ++ [r])))
  | bg_compact_build env fuel plan numbers db fs fs' r :
      (forall v R, current_version_ db = Some v -> version_holds v R ->
         table_room (compaction_input R plan) <= kUint32Max /\ (length (compaction_input R plan) < fuel)%nat) ->
      compact_build strerror env fuel plan numbers db fs = Some (fs', length numbers, r) ->
      background_step (mkState db fs (CompactPicked plan numbers))
        (mkState db fs' (match r with Ok outputs => CompactBuilt plan outputs | Err status => Failed status end))
  | bg_compact_candidate plan outputs db fs candidate version :
      compact_candidate plan outputs db = Some (candidate, version) ->
      background_step (mkState db fs (CompactBuilt plan outputs)) (mkState db fs (CompactReady plan outputs candidate version))
  | bg_compact_commit env plan outputs candidate version db fs fs' status :
      compact_commit strerror env outputs candidate db fs = Some (fs', status) ->
      background_step (mkState db fs (CompactReady plan outputs candidate version))
        (mkState db fs' (if ok status then CompactWritten plan candidate version else Failed status))
  | bg_compact_publish plan candidate version db fs db' :
      compact_publish plan candidate version db = Some db' ->
      background_step (mkState db fs (CompactWritten plan candidate version)) (mkState db' fs CompactPublished)
  | bg_compact_clean env db fs :
      background_step (mkState db fs CompactPublished) (mkState db (compact_clean env db fs) (background_again db))
  | bg_failed status db fs :
      background_step (mkState db fs (Failed status)) (mkState (set_background db (shutting_down_ db) status) fs Stopped).

(** A call of a client, or a section of the background thread. *)
Inductive db_step : State -> event -> State -> Prop :=
  | db_write env durability batch db fs bg db' fs' r :
      wf_batch batch -> write strerror env durability batch db fs = Some (db', fs', r) ->
      db_step (mkState db fs bg) (match r with Some status => Wrote batch status | None => Waited batch end) (mkState db' fs' bg)
  | db_snapshot db fs bg db' s :
      count_of (last_sequence_ db) (snapshots_ db) < kUint64Max ->
      newSnapshot db = (db', OwnSnapshot s) -> db_step (mkState db fs bg) (Snapped (ss_sequence s)) (mkState db' fs bg)
  | db_release db fs bg db' s :
      releaseSnapshot s db = Some db' -> db_step (mkState db fs bg) (Released (ss_sequence s)) (mkState db' fs bg)
  | db_shut_down db fs bg : db_step (mkState db fs bg) Internal (mkState (shut_down db) fs bg)
  | db_background s s' : background_step s s' -> db_step s Internal s'.

(** ** The invariant *)

Context `{!SystemAllocatorLaws}.

(** A table number that is taken: it is not the one kept for the flush. *)
Definition number_taken (db : DBImpl) (n : Z) : Prop :=
  0 < n < next_file_number_ db /\ forall im, immutable_ db = Some im -> n <> im_table_number im.

(** The flush has its table: the immutable memtable's entries, sorted. *)
Definition flush_holds (db : DBImpl) (fs : Directory) (g : Parts) (descriptor : TableMeta) (reader : SSTableReader) (es : list entry) : Prop :=
  exists im, immutable_ db = Some im /\ tm_number descriptor = im_table_number im /\ es ≡ₚ entries (in_immutable g) /\
    stored (directory_ db) fs descriptor es /\ serves (mkTable descriptor reader) es.

(** The plan of a compaction in progress. *)
Definition plan_holds (db : DBImpl) (g : Parts) (plan : CompactionPlan) : Prop :=
  exists v, current_version_ db = Some v /\ plan_ok v (runs g) plan /\ 0 <= oldest_snapshot plan < kMaxSequenceNumber /\
    oldest_snapshot plan <= len (whole g) /\ Forall (fun s => oldest_snapshot plan <= s) (live g).

Definition numbers_hold (db : DBImpl) (numbers : list (result Z)) : Prop :=
  Forall (fun r => match r with Ok n => number_taken db n | Err st => ok st = false end) numbers.

(** A number no table of the manifest has. *)
Definition number_new (db : DBImpl) (n : Z) : Prop :=
  number_taken db n /\ forall t, t ∈ all_tables (mf_levels (manifest_ db)) -> tm_number t <> n.

Definition outputs_hold (db : DBImpl) (fs : Directory) (g : Parts) (plan : CompactionPlan) (outputs : list CompactionOutput) (outs : list (list entry)) : Prop :=
  Forall2 (output_holds (directory_ db) fs) outputs outs /\ StronglySorted keys_before outs /\
  (exists v, current_version_ db = Some v /\ concat outs = compaction_output v (runs g) plan) /\
  Forall (fun o => number_new db (tm_number (co_meta o))) outputs.

Definition flushed_runs (g : Parts) (es : list entry) : Levels (list entry) :=
  mkLevels (es :: level0 (runs g)) (level1 (runs g)) (level2 (runs g)).
Definition compacted_runs (g : Parts) (plan : CompactionPlan) (outs : list (list entry)) : Levels (list entry) :=
  compact_levels (runs g) (input_level plan) (inputs plan) (overlaps plan) outs.
Definition compacted_floor (g : Parts) (plan : CompactionPlan) : Z :=
  Z.min (Z.max (floor g) (oldest_snapshot plan)) (len (in_tables g)).

(** The directory records what the memory state says. *)
Definition disk_current (db : DBImpl) (g : Parts) (k : Disk) : Prop :=
  dk_manifest k = manifest_ db /\ dk_runs k = runs g /\ dk_tables k = in_tables g /\ dk_floor k = floor g.

Definition background_inv (db : DBImpl) (fs : Directory) (bg : Background) (g : Parts) (k : Disk) : Prop :=
  match bg with
  | Flushing => is_Some (immutable_ db) /\ disk_current db g k
  | FlushBuilt descriptor reader => (exists es, flush_holds db fs g descriptor reader es) /\ disk_current db g k
  | FlushReady descriptor candidate version live =>
      (exists reader es, flush_holds db fs g descriptor reader es /\ flush_candidate descriptor reader db = Some (candidate, version, live)) /\
      disk_current db g k
  | FlushWritten candidate version live =>
      exists descriptor reader es, flush_holds db fs g descriptor reader es /\ flush_candidate descriptor reader db = Some (candidate, version, live) /\
        dk_manifest k = candidate /\ dk_runs k = flushed_runs g es /\ dk_tables k = in_tables g ++ in_immutable g /\ dk_floor k = floor g /\
        dk_segments k = []
  | FlushPublished live => live <= oldest_wal_number (manifest_ db) /\ disk_current db g k
  | CompactPicked plan numbers => plan_holds db g plan /\ numbers_hold db numbers /\ disk_current db g k
  | CompactBuilt plan outputs => plan_holds db g plan /\ (exists outs, outputs_hold db fs g plan outputs outs) /\ disk_current db g k
  | CompactReady plan outputs candidate version =>
      plan_holds db g plan /\ (exists outs, outputs_hold db fs g plan outputs outs) /\
      compact_candidate plan outputs db = Some (candidate, version) /\ disk_current db g k
  | CompactWritten plan candidate version =>
      plan_holds db g plan /\ exists outputs outs, outputs_hold db fs g plan outputs outs /\
        compact_candidate plan outputs db = Some (candidate, version) /\
        dk_manifest k = candidate /\ dk_runs k = compacted_runs g plan outs /\ dk_tables k = in_tables g /\ dk_floor k = compacted_floor g plan
  | Failed status => ok status = false /\ disk_current db g k
  | Idle | Compacting | CompactPublished | Stopped => disk_current db g k
  end.

(** The next write finds room without rotating. *)
Definition has_room (db : DBImpl) : Prop := mt_empty (memtable_ db) || (mt_memoryUsage (memtable_ db) <? write_buffer_size db) = true.

Record db_inv (s : State) (g : Parts) (k : Disk) : Prop := {
  iv_reads : reads_inv (st_db s) g;
  iv_stored : levels_hold (stored (directory_ (st_db s)) (st_fs s)) (mf_levels (manifest_ (st_db s))) (runs g);
  iv_wf : manifest_wf (manifest_ (st_db s));
  iv_flushed : flushed_sequence (manifest_ (st_db s)) = len (in_tables g);
  iv_numbers : Forall (fun t => number_taken (st_db s) (tm_number t)) (all_tables (mf_levels (manifest_ (st_db s))));
  iv_disk : exists wal, wal_ (st_db s) = Some wal /\ disk_inv (directory_ (st_db s)) (st_fs s) wal (wal_number_ (st_db s)) k (whole g) /\
              (ok (error_ wal) = false -> has_room (st_db s));
  iv_current : is_Some (immutable_ (st_db s)) -> in_memtable g = batch_writes (len (in_tables g ++ in_immutable g) + 1) (dk_batches k);
  iv_next : 0 < next_file_number_ (st_db s) <= kUint64Max /\ wal_number_ (st_db s) < next_file_number_ (st_db s);
  iv_unused : forall n, next_file_number_ (st_db s) <= n <= kUint64Max -> st_fs s !! walFileName (directory_ (st_db s)) n = None;
  iv_immutable : forall im, immutable_ (st_db s) = Some im -> 0 < im_table_number im < next_file_number_ (st_db s);
  iv_buffer : write_buffer_size (st_db s) <= 2 ^ 63;
  iv_background : background_inv (st_db s) (st_fs s) (st_bg s) g k;
}.

End steps.
