(* ===== verification/DbWrite.v ===== *)
(** Writes preserve the invariant of the database and refine the store: the log
    and the memtable grow together, a rotation hands the memtable over, and the
    background thread's knowledge survives both. *)
From S2P Require Import Prelude Posix Status Coding InternalKey Mvcc WriteBatch Wal BlockBuilder SSTableBuilder Iterator SSTableReader Arena SkipList MemTable MergingIterator DbIterator Filename Level Manifest Snapshot DbFiles Version Compaction CompactionReads CompactionBuild FlushMemTable DbImpl History DbState DbLog DbDisk DbSteps.

Section steps.
Context `{SystemAllocator} (strerror : Z -> string) `{!SystemAllocatorLaws}.


(** ** What client calls leave alone *)

Lemma table_not_log directory n m : sstableFileName directory n <> walFileName directory m.
Proof.
  intros E. apply (f_equal to_chars) in E. unfold sstableFileName, walFileName in E.
  destruct (path_append_split directory (numberedName n sstable_suffix)) as (a & Ha & _).
  destruct (path_append_split directory (numberedName m wal_suffix)) as (b & Hb & _). rewrite Ha, Hb in E.
  apply (f_equal list.last) in E. unfold numberedName in E. rewrite !last_app in E. done.
Qed.

(** Same manifest, version and immutable memtable; tables and the disk's tables as
    before. *)
Record quiet (db db' : DBImpl) (fs fs' : Directory) (g g' : Parts) (k k' : Disk) : Prop := {
  qu_directory : directory_ db' = directory_ db;
  qu_manifest : manifest_ db' = manifest_ db;
  qu_version : current_version_ db' = current_version_ db;
  qu_next : next_file_number_ db <= next_file_number_ db';
  qu_tables : forall n, fs' !! sstableFileName (directory_ db) n = fs !! sstableFileName (directory_ db) n;
  qu_in_tables : in_tables g' = in_tables g;
  qu_runs : runs g' = runs g;
  qu_floor : floor g' = floor g;
  qu_length : len (whole g) <= len (whole g');
  qu_live : forall o, o <= len (whole g) -> Forall (fun s => o <= s) (live g) -> Forall (fun s => o <= s) (live g');
  qu_disk : dk_manifest k' = dk_manifest k /\ dk_runs k' = dk_runs k /\ dk_tables k' = dk_tables k /\ dk_floor k' = dk_floor k;
}.

Lemma quiet_stored db db' fs fs' g g' k k' t es : quiet db db' fs fs' g g' k k' ->
  stored (directory_ db) fs t es -> stored (directory_ db') fs' t es.
Proof. intros Hq. rewrite (qu_directory _ _ _ _ _ _ _ _ Hq). apply stored_frame, Hq. Qed.

Lemma quiet_current db db' fs fs' g g' k k' : quiet db db' fs fs' g g' k k' -> disk_current db g k -> disk_current db' g' k'.
Proof. intros [? ? ? ? ? ? ? ? ? ? (? & ? & ? & ?)] (? & ? & ? & ?). split_and!; congruence. Qed.

Lemma quiet_plan db db' fs fs' g g' k k' plan : quiet db db' fs fs' g g' k k' -> plan_holds db g plan -> plan_holds db' g' plan.
Proof.
  intros Hq (v & Hv & Hp & Ho & Hl & Hs). exists v. rewrite (qu_version _ _ _ _ _ _ _ _ Hq), (qu_runs _ _ _ _ _ _ _ _ Hq).
  pose proof (qu_length _ _ _ _ _ _ _ _ Hq). split_and!; try (done || lia). by apply Hq.
Qed.

Lemma quiet_outputs db db' fs fs' g g' k k' plan outputs outs : quiet db db' fs fs' g g' k k' ->
  (forall n, number_taken db n -> number_taken db' n) -> outputs_hold db fs g plan outputs outs -> outputs_hold db' fs' g' plan outputs outs.
Proof.
  intros Hq Hn (Ho & Hs & (v & Hv & Hc) & Hf). unfold outputs_hold. split_and!; [|done| |].
  - eapply Forall2_impl; [|exact Ho]. intros o run (Hst & ?). split; [|done]. by eapply quiet_stored.
  - exists v. by rewrite (qu_version _ _ _ _ _ _ _ _ Hq), (qu_runs _ _ _ _ _ _ _ _ Hq).
  - eapply Forall_impl; [|exact Hf]. intros o [? ?]. split; [auto|]. by rewrite (qu_manifest _ _ _ _ _ _ _ _ Hq).
Qed.

Lemma quiet_candidate db db' fs fs' g g' k k' plan outputs : quiet db db' fs fs' g g' k k' ->
  compact_candidate plan outputs db' = compact_candidate plan outputs db.
Proof. intros Hq. unfold compact_candidate. by rewrite (qu_version _ _ _ _ _ _ _ _ Hq), (qu_manifest _ _ _ _ _ _ _ _ Hq). Qed.

(** Without a rotation the background thread's knowledge stays. *)
Lemma background_quiet db db' fs fs' bg g g' k k' : quiet db db' fs fs' g g' k k' ->
  immutable_ db' = immutable_ db -> wal_number_ db' = wal_number_ db -> in_immutable g' = in_immutable g -> dk_segments k' = dk_segments k ->
  background_inv db fs bg g k -> background_inv db' fs' bg g' k'.
Proof.
  intros Hq Him Hwn Hii Hseg Hb. pose proof (fun H => quiet_current _ _ _ _ _ _ _ _ Hq H) as Hcur.
  assert (forall n, number_taken db n -> number_taken db' n) as Hnum.
  { intros n [? ?]. pose proof (qu_next _ _ _ _ _ _ _ _ Hq). split; [lia|]. by rewrite Him. }
  assert (forall d r es, flush_holds db fs g d r es -> flush_holds db' fs' g' d r es) as Hfl.
  { intros d r es (im & Hi & Hnm & Hp & Hst & Hse). exists im. rewrite Him, Hii. split_and!; try done. by eapply quiet_stored. }
  assert (forall d r, flush_candidate d r db' = flush_candidate d r db) as Hca.
  { intros d r. unfold flush_candidate. by rewrite Him, Hwn, (qu_version _ _ _ _ _ _ _ _ Hq), (qu_manifest _ _ _ _ _ _ _ _ Hq). }
  pose proof (qu_disk _ _ _ _ _ _ _ _ Hq) as (D1 & D2 & D3 & D4).
  destruct bg; simpl in *; try (by apply Hcur).
  - destruct Hb as [? ?]. rewrite Him. auto.
  - destruct Hb as [[es ?] ?]. eauto.
  - destruct Hb as [(r & es & ? & ?) ?]. split; [|auto]. exists r, es. rewrite Hca. auto.
  - destruct Hb as (d & r & es & ? & ? & E1 & E2 & E3 & E4 & E5). exists d, r, es. rewrite Hca, D1, D2, D3, D4, Hseg, Hii.
    unfold flushed_runs. rewrite (qu_in_tables _ _ _ _ _ _ _ _ Hq), (qu_runs _ _ _ _ _ _ _ _ Hq), (qu_floor _ _ _ _ _ _ _ _ Hq). split_and!; auto.
  - destruct Hb as [? ?]. rewrite (qu_manifest _ _ _ _ _ _ _ _ Hq). auto.
  - destruct Hb as (? & Hns & ?). split_and!; [by eapply quiet_plan| |auto]. eapply Forall_impl; [|exact Hns]. intros [n|st]; auto.
  - destruct Hb as (? & [outs ?] & ?). split_and!; [by eapply quiet_plan| |auto]. exists outs. by eapply quiet_outputs.
  - destruct Hb as (? & [outs ?] & ? & ?). rewrite (quiet_candidate _ _ _ _ _ _ _ _ _ _ Hq). split_and!; [by eapply quiet_plan| |done|auto]. exists outs. by eapply quiet_outputs.
  - destruct Hb as (? & outputs & outs & ? & ? & E1 & E2 & E3 & E4). split; [by eapply quiet_plan|]. exists outputs, outs.
    rewrite (quiet_candidate _ _ _ _ _ _ _ _ _ _ Hq), D1, D2, D3, D4. unfold compacted_runs, compacted_floor.
    rewrite (qu_in_tables _ _ _ _ _ _ _ _ Hq), (qu_runs _ _ _ _ _ _ _ _ Hq), (qu_floor _ _ _ _ _ _ _ _ Hq). split_and!; try done. by eapply quiet_outputs.
  - destruct Hb as [? ?]. auto.
Qed.

(** ** Writes *)

Definition with_writes (g : Parts) (ws : history) : Parts :=
  mkParts (in_tables g) (in_immutable g) (in_memtable g ++ ws) (runs g) (floor g) (live g).

Lemma whole_with_writes g ws : whole (with_writes g ws) = whole g ++ ws.
Proof. unfold whole, with_writes. simpl. by rewrite !app_assoc. Qed.

Lemma disk_length directory fs wal number k h : disk_inv directory fs wal number k h ->
  len (dk_tables k) + 1 + len (concat (segments_batches (dk_segments k))) + len (concat (dk_batches k)) = len h + 1.
Proof. intros Hd. rewrite <- (di_history _ _ _ _ _ _ Hd), len_app, len_batch_writes, concat_app, len_app. lia. Qed.

Lemma reads_inv_commit db g wal m ws : reads_inv db g -> history_ok (whole g ++ ws) -> holds m (in_memtable g ++ ws) ->
  reads_inv (set_memtable (set_wal db wal (wal_number_ db)) m (len (whole g ++ ws))) (with_writes g ws).
Proof.
  intros Hi Hok Hm. destruct Hi as [_ Hl _ Him Hv Ht Hf Hlive]. rewrite <- whole_with_writes in *. split; simpl; try done.
  eapply Forall_impl; [|exact Hlive]. intros s. rewrite whole_with_writes, len_app. simpl. llia.
Qed.

Lemma reads_inv_log db g wal : reads_inv db g -> reads_inv (set_wal db wal (wal_number_ db)) g.
Proof. by intros []. Qed.

(** What the invariant says when only the log and the memtable change. *)
Lemma db_inv_log db fs bg g k db' fs' g' k' wal :
  db_inv (mkState db fs bg) g k -> reads_inv db' g' -> quiet db db' fs fs' g g' k k' ->
  immutable_ db' = immutable_ db -> wal_number_ db' = wal_number_ db -> next_file_number_ db' = next_file_number_ db ->
  write_buffer_size db' = write_buffer_size db -> in_immutable g' = in_immutable g -> dk_segments k' = dk_segments k ->
  wal_ db' = Some wal -> disk_inv (directory_ db) fs' wal (wal_number_ db) k' (whole g') -> (ok (error_ wal) = false -> has_room db') ->
  (is_Some (immutable_ db) -> in_memtable g' = batch_writes (len (in_tables g ++ in_immutable g) + 1) (dk_batches k')) ->
  (forall n, n <> wal_number_ db -> 0 < n <= kUint64Max -> fs' !! walFileName (directory_ db) n = fs !! walFileName (directory_ db) n) ->
  db_inv (mkState db' fs' bg) g' k'.
Proof.
  intros [V1 V2 V3 V4 V5 V6 V7 V8 V9 V10 V11 V12] Hr Hq Him Hwn Hnx Hbuf Hii Hseg Hwal Hdisk Hroom Hcur Hlogs. simpl in *.
  pose proof Hq as [Q1 Q2 Q3 Q4 Q5 Q6 Q7 Q8 Q9 Q10 Q11]. split; simpl; try done.
  - rewrite Q2, Q7. rewrite Q1. eapply levels_stored_frame; [|done]. intros t _. apply Q5.
  - by rewrite Q2.
  - by rewrite Q2, Q6.
  - rewrite Q2. eapply Forall_impl; [|exact V5]. intros t [? ?]. split; [lia|]. by rewrite Him.
  - exists wal. rewrite Q1, Hwn. by split_and!.
  - rewrite Him, Q6, Hii. done.
  - rewrite Hnx, Hwn. done.
  - rewrite Hnx, Q1. intros n Hn. rewrite Hlogs; [by apply V9|lia|lia].
  - rewrite Him, Hnx. done.
  - by rewrite Hbuf.
  - by eapply background_quiet.
Qed.

Lemma publish_tables wal number directory fs n : w_path wal = walFileName directory number ->
  publish_wal wal fs !! sstableFileName directory n = fs !! sstableFileName directory n.
Proof. intros Hp. unfold publish_wal. rewrite Hp. apply lookup_insert_ne, not_eq_sym, table_not_log. Qed.

Lemma publish_logs wal number directory fs n : w_path wal = walFileName directory number -> 0 < number <= kUint64Max ->
  n <> number -> 0 < n <= kUint64Max -> publish_wal wal fs !! walFileName directory n = fs !! walFileName directory n.
Proof. intros Hp Hnum Hne Hn. unfold publish_wal. rewrite Hp. apply lookup_insert_ne. intros E. by apply wal_inj in E. Qed.

Lemma room_usage db g batch first payload : reads_inv db g -> has_room db -> write_buffer_size db <= 2 ^ 63 -> 0 <= first -> encode batch first = Ok payload ->
  mt_memoryUsage (memtable_ db) + writes_room (writes_of batch first) <= kUint64Max.
Proof.
  intros Hi Hroom Hbuf Hf He. destruct (encode_facts _ _ _ Hf He) as (_ & _ & _ & _ & _ & Hr). unfold has_room in Hroom.
  pose proof (holds_empty _ _ (ri_memtable _ _ Hi)) as Hem. destruct (ri_memtable _ _ Hi) as (es & _ & _ & Hu).
  unfold kMaxWriteBatchPayloadSize, kMaxWalRecordPayloadSize, kUint64Max, kDefaultBlockSize in *.
  apply orb_prop in Hroom as [Hroom|Hroom%Z.ltb_lt]; [|lia]. rewrite Hem in Hroom. apply bool_decide_eq_true in Hroom. rewrite Hroom in Hu. simpl in Hu. lia.
Qed.

Lemma log_write env durability batch payload db fs bg g k wal wal' st :
  db_inv (mkState db fs bg) g k -> has_room db -> wf_batch batch -> wal_ db = Some wal ->
  encode batch (last_sequence_ db + 1) = Ok payload -> append_and_sync strerror env durability wal payload = (wal', st) ->
  let db1 := set_wal db (Some wal') (wal_number_ db) in
  (st = success /\ exists m k', applyBatch batch (last_sequence_ db + 1) (memtable_ db) = Some m /\ last_sequence_ db + len batch <= kMaxSequenceNumber /\
     history_ok (whole g ++ writes_of batch (len (whole g) + 1)) /\
     db_inv (mkState (set_memtable db1 m (last_sequence_ db + len batch)) (publish_wal wal' fs) bg) (with_writes g (writes_of batch (len (whole g) + 1))) k' /\
     durable_writes k `prefix_of` durable_writes k' /\ (durability = kSync -> durable_writes k' = whole g ++ writes_of batch (len (whole g) + 1)) /\ dk_failed k' = None) \/
  (ok st = false /\ exists k', db_inv (mkState db1 (publish_wal wal' fs) bg) g k' /\ durable_writes k `prefix_of` durable_writes k' /\
     (dk_failed k' = None \/ dk_failed k' = dk_failed k \/ dk_failed k' = Some batch)).
Proof.
  intros Hi Hroom Hwf Hwal Henc Happ db1. pose proof (iv_reads _ _ _ Hi) as Hr. simpl in Hr. pose proof (ri_last _ _ Hr) as Hlast.
  destruct (iv_disk _ _ _ Hi) as (wal0 & Hwal0 & Hd & _). simpl in *. rewrite Hwal in Hwal0. injection Hwal0 as <-.
  pose proof (disk_length _ _ _ _ _ _ Hd) as Hdl. pose proof (current_positive _ _ _ _ _ _ Hd) as Hnum. pose proof (len_nonneg (whole g)) as Hnn.
  pose proof (di_current _ _ _ _ _ _ Hd) as Hcl. set (first := len (dk_tables k) + 1 + len (concat (segments_batches (dk_segments k)))) in *.
  assert (0 <= first) as Hfirst by (unfold first; pose proof (len_nonneg (dk_tables k)); pose proof (len_nonneg (concat (segments_batches (dk_segments k)))); lia).
  assert (encode batch (first + len (concat (dk_batches k))) = Ok payload) as Henc' by (rewrite Hdl, <- Hlast; exact Henc).
  destruct (encode_facts batch (last_sequence_ db + 1) payload ltac:(lia) Henc) as (_ & _ & Hmax & Hnumd & _ & _).
  assert (w_path wal' = walFileName (directory_ db) (wal_number_ db)) as Hpath.
  { destruct (append_and_sync_spec (directory_ db) strerror env durability fs wal (wal_number_ db) first (dk_batches k) (dk_failed k) (dk_synced k)
      batch payload wal' st Hcl Hfirst Hwf Henc' Happ) as [(_ & _ & [? _ _ _ _])|(_ & _ & f & [? _ _ _ _] & _)]; done. }
  assert (forall db' g', directory_ db' = directory_ db -> manifest_ db' = manifest_ db -> current_version_ db' = current_version_ db ->
    next_file_number_ db' = next_file_number_ db -> in_tables g' = in_tables g -> runs g' = runs g -> floor g' = floor g -> live g' = live g ->
    len (whole g) <= len (whole g') -> forall b f y, quiet db db' fs (publish_wal wal' fs) g g' k (with_log k (dk_segments k) b f y)) as Hquiet.
  { intros db' g' ? ? ? Hnx ? ? ? Hlv ? b f y. split; try done; [by rewrite Hnx|intros n; by eapply publish_tables|by rewrite Hlv]. }
  assert (forall n, n <> wal_number_ db -> 0 < n <= kUint64Max -> publish_wal wal' fs !! walFileName (directory_ db) n = fs !! walFileName (directory_ db) n) as Hlogs
    by (intros n ? ?; by eapply publish_logs).
  destruct (append_and_sync_spec (directory_ db) strerror env durability fs wal (wal_number_ db) first (dk_batches k) (dk_failed k) (dk_synced k)
    batch payload wal' st Hcl Hfirst Hwf Henc' Happ) as [(-> & Hok' & Hcl')|(Hst & Hok' & failed' & Hcl' & Hfail)].
  - left. split; [done|]. destruct (ri_history _ _ Hr) as [Hn _].
    assert (history_ok (whole g ++ writes_of batch (len (whole g) + 1))) as Hhist.
    { split; [|rewrite len_app, len_writes_of; lia]. apply numbered_app. split; [done|]. rewrite Z.add_comm, <- Hlast. done. }
    destruct (parts_numbered g (ri_history _ _ Hr)) as (_ & _ & N3).
    assert (len (in_tables g) + len (in_immutable g) + 1 + len (in_memtable g) = len (whole g) + 1) as Hwl by (unfold whole; rewrite !len_app; lia).
    destruct (holds_apply (memtable_ db) (len (in_tables g) + len (in_immutable g) + 1) (in_memtable g) batch (last_sequence_ db + 1)) as (m & Hm & Hholds).
    + apply Hr.
    + apply numbered_app. split; [done|]. by rewrite Hwl, <- Hlast.
    + lia.
    + unfold kMaxSequenceNumber, kUint64Max in *. lia.
    + eapply room_usage; [done|done|apply (iv_buffer _ _ _ Hi)|lia|done].
    + assert (dk_tables k ++ batch_writes (len (dk_tables k) + 1) (segments_batches (dk_segments k) ++ dk_batches k ++ [batch]) =
        whole g ++ writes_of batch (len (whole g) + 1)) as Hwhole.
      { rewrite <- (di_history _ _ _ _ _ _ Hd) at 1. rewrite app_assoc, batch_writes_app, app_assoc. simpl. rewrite app_nil_r, concat_app, len_app.
        do 2 f_equal. lia. }
      rewrite Hlast in Hm, Hholds |- *. eexists m, (with_log k (dk_segments k) (dk_batches k ++ [batch]) None (if durability is kSync then S (length (dk_batches k)) else dk_synced k)).
      split_and!; [done|lia|done| | | |done].
      2:{ apply durable_log. destruct durability.
          - by rewrite take_app_le by (apply Hcl).
          - rewrite (take_ge (dk_batches k ++ [batch])) by (rewrite length_app; simpl; lia). apply prefix_app. transitivity (dk_batches k); [apply prefix_take|by apply prefix_app_r]. }
      2:{ intros ->. unfold durable_writes. cbn [with_log dk_tables dk_segments dk_batches dk_synced].
          rewrite (take_ge (dk_batches k ++ [batch])) by (rewrite length_app; simpl; lia). apply Hwhole. }
      eapply (db_inv_log db fs bg g k); [exact Hi| |apply Hquiet; try done; rewrite whole_with_writes; llia|done..| |simpl; congruence| |done].
      * replace (len (whole g) + len batch) with (len (whole g ++ writes_of batch (len (whole g) + 1))) by (by rewrite len_app, len_writes_of).
        by apply reads_inv_commit.
      * rewrite whole_with_writes.
        rewrite <- Hwhole. by eapply disk_inv_write.
      * intros Him. simpl. rewrite batch_writes_app. simpl. rewrite app_nil_r. pose proof (iv_current _ _ _ Hi Him) as Hc. simpl in Hc. rewrite <- Hc. do 2 f_equal.
        apply (f_equal len) in Hc. rewrite len_batch_writes in Hc. rewrite <- Hc, len_app. lia.
  - right. split; [done|]. eexists (with_log k (dk_segments k) (dk_batches k) failed' _). split; [|split; [by apply durable_log|done]].
    eapply (db_inv_log db fs bg g k); [exact Hi|by apply reads_inv_log|by apply Hquiet|done..| |done| |done].
    + pose proof (disk_inv_write _ _ _ _ _ _ _ _ _ _ Hd Hpath Hcl') as Hd'. by rewrite (di_history _ _ _ _ _ _ Hd) in Hd'.
    + apply (iv_current _ _ _ Hi).
Qed.

Definition rotated (g : Parts) : Parts := mkParts (in_tables g) (in_memtable g) [] (runs g) (floor g) (live g).

Lemma whole_rotated g : in_immutable g = [] -> whole (rotated g) = whole g.
Proof. intros Hi. unfold whole, rotated. simpl. by rewrite Hi, app_nil_r. Qed.

(** A rotation finds no flush in progress. *)
Lemma background_rotate db db' fs fs' bg g k k' : quiet db db' fs fs' g (rotated g) k k' ->
  immutable_ db = None -> (forall n, number_taken db n -> number_taken db' n) ->
  background_inv db fs bg g k -> background_inv db' fs' bg (rotated g) k'.
Proof.
  intros Hq Him Hnum Hb. pose proof (fun H => quiet_current _ _ _ _ _ _ _ _ Hq H) as Hcur.
  assert (forall d r es, ~ flush_holds db fs g d r es) as Hfl by (intros d r es (im & ? & _); congruence).
  destruct bg; simpl in *; try (by apply Hcur).
  - destruct Hb as [[im ?] _]. congruence.
  - destruct Hb as [[es ?] _]. by destruct (Hfl _ _ _ H1).
  - destruct Hb as [(r & es & Hh & _) _]. by destruct (Hfl _ _ _ Hh).
  - destruct Hb as (d & r & es & Hh & _). by destruct (Hfl _ _ _ Hh).
  - destruct Hb as [? ?]. rewrite (qu_manifest _ _ _ _ _ _ _ _ Hq). auto.
  - destruct Hb as (? & Hns & ?). split_and!; [by eapply quiet_plan| |auto]. eapply Forall_impl; [|exact Hns]. intros [n|st]; auto.
  - destruct Hb as (? & [outs ?] & ?). split_and!; [by eapply quiet_plan| |auto]. exists outs. by eapply quiet_outputs.
  - destruct Hb as (? & [outs ?] & ? & ?). rewrite (quiet_candidate _ _ _ _ _ _ _ _ _ _ Hq). split_and!; [by eapply quiet_plan| |done|auto]. exists outs. by eapply quiet_outputs.
  - destruct Hb as (? & outputs & outs & ? & ? & E1 & E2 & E3 & E4). split; [by eapply quiet_plan|]. exists outputs, outs.
    pose proof (qu_disk _ _ _ _ _ _ _ _ Hq) as (D1 & D2 & D3 & D4).
    rewrite (quiet_candidate _ _ _ _ _ _ _ _ _ _ Hq), D1, D2, D3, D4. split_and!; try done. by eapply quiet_outputs.
  - destruct Hb as [? ?]. auto.
Qed.

Lemma rotate_spec answer db fs bg g k :
  db_inv (mkState db fs bg) g k -> immutable_ db = None -> ~ has_room db ->
  exists db' fs' st, rotateMemTable strerror answer db fs = Some (db', fs', st) /\
    ((st = success /\ has_room db' /\ last_sequence_ db' = last_sequence_ db /\ exists k', db_inv (mkState db' fs' bg) (rotated g) k' /\ durable_writes k `prefix_of` durable_writes k' /\ dk_failed k' = None) \/
     (ok st = false /\ db' = db /\ fs' = fs)).
Proof.
  intros Hi Him Hfull. pose proof (iv_reads _ _ _ Hi) as Hr. destruct (iv_next _ _ _ Hi) as [Hnext Hwn]. simpl in *.
  pose proof (ri_immutable _ _ Hr) as Hii. rewrite Him in Hii. unfold rotateMemTable.
  destruct (Z.ltb_spec (kUint64Max - 2) (next_file_number_ db)); [by eexists _, _, _; split; [|right]|].
  destruct holds_new as (m & -> & Hm). cbn [mbind option_bind]. unfold wal_open. destruct answer as [errno|]; [by eexists _, _, _; split; [|right]|].
  set (number := next_file_number_ db + 1). rewrite (iv_unused _ _ _ Hi) by (simpl; lia). cbn [default from_option id].
  eexists _, _, success. split; [done|]. left. split; [done|]. split.
  { unfold has_room. simpl. by rewrite (holds_empty _ _ Hm). }
  split; [done|]. destruct (iv_disk _ _ _ Hi) as (wal & Hwal & Hd & Hlatch). simpl in *. pose proof (current_positive _ _ _ _ _ _ Hd) as Hnum.
  assert (ok (error_ wal) = true) as Hok by (destruct (ok (error_ wal)) eqn:E; [done|by destruct (Hfull (Hlatch eq_refl))]).
  pose proof (disk_inv_rotate (directory_ db) fs wal (wal_number_ db) k (whole g) number Hd Hok ltac:(lia) ltac:(apply (iv_unused _ _ _ Hi); simpl; lia)) as Hd'.
  set (k' := with_log k _ [] None 0) in Hd'. exists k'. split.
  2:{ split; [|done]. apply durable_log. rewrite app_nil_r. unfold segments_batches. rewrite map_app, concat_app. simpl. rewrite app_nil_r. apply prefix_app, prefix_take. }
  set (db' := set_wal _ _ _). set (fs' := <[walFileName (directory_ db) number := _]> fs) in *.
  assert (quiet db db' fs fs' g (rotated g) k k') as Hq.
  { split; try done; [simpl; lia|intros n; apply lookup_insert_ne, not_eq_sym, table_not_log|by rewrite whole_rotated]. }
  assert (forall n, number_taken db n -> number_taken db' n) as Htaken by (intros n [? _]; split; [simpl; lia|intros im [= <-]; simpl; lia]).
  destruct Hi as [V1 V2 V3 V4 V5 V6 V7 V8 V9 V10 V11 V12]. simpl in *.
  assert (in_memtable g <> []) as Hne by (intros E; apply Hfull; unfold has_room; by rewrite (holds_empty _ _ (ri_memtable _ _ Hr)), E).
  split; simpl; try done.
  - destruct Hr as [R1 R2 R3 R4 R5 R6 R7 R8]. split; simpl; rewrite ?whole_rotated by done; try done. rewrite R2. split_and!; [done|done|]. unfold whole. by rewrite Hii.
  - eapply levels_stored_frame; [|done]. intros t _. apply Hq.
  - eapply Forall_impl; [|exact V5]. intros t. apply Htaken.
  - eexists. split; [done|]. rewrite whole_rotated by done. by split.
  - lia.
  - intros n Hn. unfold fs'. rewrite lookup_insert_ne; [apply V9; lia|]. intros E. apply wal_inj in E; unfold number in *; lia.
  - intros im [= <-]. simpl. lia.
  - by eapply background_rotate.
Qed.

(** One attempt to write. *)
Lemma write_spec env durability batch db fs bg g k :
  db_inv (mkState db fs bg) g k -> wf_batch batch ->
  exists db' fs' r g' k', write strerror env durability batch db fs = Some (db', fs', r) /\ db_inv (mkState db' fs' bg) g' k' /\
    store_step (store_of g) (match r with Some status => Wrote batch status | None => Waited batch end) (store_of g') /\
    durable_writes k `prefix_of` durable_writes k' /\ (durability = kSync -> r = Some success -> batch <> [] -> durable_writes k' = whole g') /\
    (dk_failed k' = None \/ dk_failed k' = dk_failed k \/ (dk_failed k' = Some batch /\ exists st, r = Some st /\ ok st = false)).
Proof.
  intros Hi Hwf. unfold write. destruct batch as [|op ops]; [by exists db, fs, (Some success), g, k; split_and!; [| |constructor| | |auto]|].
  set (batch := op :: ops) in *. assert (wb_empty batch = false) as -> by done.
  assert (exists db1 fs1 room g1 k1, makeRoomForWrite strerror (we_open env) db fs = Some (db1, fs1, room) /\ db_inv (mkState db1 fs1 bg) g1 k1 /\
    whole g1 = whole g /\ live g1 = live g /\ last_sequence_ db1 = last_sequence_ db /\ durable_writes k `prefix_of` durable_writes k1 /\
    (dk_failed k1 = None \/ dk_failed k1 = dk_failed k) /\ (room = Some success -> has_room db1) /\ (forall st, room = Some st -> ok st = true -> st = success)) as (db1 & fs1 & room & g1 & k1 & -> & Hi1 & Hw1 & Hl1 & Hs1 & Hdu1 & Hfa1 & Hroom & Hst1).
  { unfold makeRoomForWrite. destruct (ok (background_error_ db)) eqn:Eb; cbn [negb].
    2:{ exists db, fs, (Some (background_error_ db)), g, k. split_and!; try done; [by right|..]; [intros [= E]; by rewrite E in Eb|intros st [= <-]; congruence]. }
    destruct (mt_empty (memtable_ db) || (mt_memoryUsage (memtable_ db) <? write_buffer_size db)) eqn:Er.
    { exists db, fs, (Some success), g, k. split_and!; try done; [by right|by intros st [= <-]]. }
    destruct (immutable_ db) as [im|] eqn:Eim; [exists db, fs, None, g, k; split_and!; try done; by right|].
    destruct (rotate_spec (we_open env) db fs bg g k Hi Eim) as (db' & fs' & st & -> & Hc); [unfold has_room; by rewrite Er|]. cbn [mbind option_bind].
    pose proof (ri_immutable _ _ (iv_reads _ _ _ Hi)) as Hii. simpl in Hii. rewrite Eim in Hii.
    destruct Hc as [(-> & Hr' & Hs' & k' & Hi' & Hdu & Hfk)|(Hst & -> & ->)].
    - exists db', fs', (Some success), (rotated g), k'. split_and!; try done; [by apply whole_rotated|by left|by intros st [= <-]].
    - exists db, fs, (Some st), g, k. split_and!; try done; [by right|intros [= ->]; done|intros st' [= <-]; congruence]. }
  cbn [mbind option_bind]. assert (store_of g1 = store_of g) as Hso by (unfold store_of; by rewrite Hw1, Hl1).
  destruct room as [st|]; [|exists db1, fs1, None, g1, k1; rewrite Hso; split_and!; [done|done|constructor|done|done|tauto]].
  destruct (ok st) eqn:Est; cbn [negb]; [|exists db1, fs1, (Some st), g1, k1; rewrite Hso; split_and!; [done|done|by constructor|done|intros _ [= ->]; done|tauto]].
  rewrite (Hst1 st eq_refl Est) in Hroom. specialize (Hroom eq_refl). pose proof (iv_reads _ _ _ Hi1) as Hr1. simpl in Hr1.
  pose proof (ri_last _ _ Hr1) as Hlast. destruct (ri_history _ _ Hr1) as [_ Hmax]. pose proof (len_nonneg (whole g1)).
  rewrite wrap64_small by (unfold kMaxSequenceNumber, kUint64Max in *; lia).
  destruct (encode batch (last_sequence_ db1 + 1)) as [payload|st'] eqn:Henc.
  2:{ exists db1, fs1, (Some st'), g1, k1. rewrite Hso. apply encode_error in Henc. split_and!; [done|done|by constructor|done|intros _ [= ->]; done|tauto]. }
  destruct (iv_disk _ _ _ Hi1) as (wal & Hwal & _). simpl in Hwal. rewrite Hwal. cbn [mbind option_bind].
  destruct (append_and_sync strerror env durability wal payload) as [wal' st'] eqn:Happ.
  destruct (log_write env durability batch payload db1 fs1 bg g1 k1 wal wal' st' Hi1 Hroom Hwf Hwal Henc Happ)
    as [(-> & m & k' & Hm & Hle & Hok & Hi' & Hdu & Hds & Hfk)|(Hst' & k' & Hi' & Hdu & Hfk)].
  - change (negb (ok success)) with false. cbn iota. cbn [memtable_ set_wal last_sequence_]. rewrite Hm. cbn [mbind option_bind].
    unfold wb_count. pose proof (len_nonneg batch). rewrite wrap64_small by (unfold kMaxSequenceNumber, kUint64Max in *; lia).
    eexists _, _, (Some success), _, k'. split; [done|]. split; [exact Hi'|].
    split; [|split; [by etrans|split; [intros Hsync _ _; rewrite whole_with_writes; by apply Hds|by left]]]. unfold store_of. rewrite whole_with_writes, Hw1. simpl. rewrite Hl1.
    rewrite Hw1 in Hok. by constructor.
  - rewrite Hst'. cbn [negb]. eexists _, _, (Some st'), g1, k'. split; [done|]. split; [exact Hi'|]. rewrite Hso. split; [by constructor|]. split; [by etrans|]. split; [intros _ [= ->]; done|].
    destruct Hfk as [?|[->|?]]; [by left|tauto|right; right; split; [done|by exists st']].
Qed.

(** ** Snapshots *)

(** Steps that leave the directory, the tables and the memtables alone. *)
Lemma db_inv_memory db fs bg g k db' live' :
  db_inv (mkState db fs bg) g k ->
  write_buffer_size db' = write_buffer_size db -> directory_ db' = directory_ db -> wal_ db' = wal_ db -> wal_number_ db' = wal_number_ db ->
  next_file_number_ db' = next_file_number_ db -> manifest_ db' = manifest_ db -> current_version_ db' = current_version_ db ->
  last_sequence_ db' = last_sequence_ db -> memtable_ db' = memtable_ db -> immutable_ db' = immutable_ db ->
  tracks (snapshots_ db') live' -> Forall (fun s => floor g <= s <= len (whole g)) live' ->
  (forall o, o <= len (whole g) -> Forall (fun s => o <= s) (live g) -> Forall (fun s => o <= s) live') ->
  db_inv (mkState db' fs bg) (mkParts (in_tables g) (in_immutable g) (in_memtable g) (runs g) (floor g) live') k.
Proof.
  intros Hi E1 E2 E3 E4 E5 E6 E7 E8 E9 E10 Ht Hl Ho. destruct (iv_disk _ _ _ Hi) as (wal & Hwal & Hd & Hroom). simpl in *.
  eapply (db_inv_log db fs bg g k); [exact Hi| | |done..|by rewrite E3|exact Hd| | |done].
  - destruct (iv_reads _ _ _ Hi) as [R1 R2 R3 R4 R5 R6 R7 R8]. simpl in *. split; simpl; try done.
    + by rewrite E8.
    + by rewrite E9.
    + by rewrite E10.
    + by rewrite E7.
  - split; try done. rewrite E5. lia.
  - intros Hok. specialize (Hroom Hok). unfold has_room. by rewrite E9, E1.
  - apply (iv_current _ _ _ Hi).
Qed.

Lemma snapshot_spec db fs bg g k : db_inv (mkState db fs bg) g k -> count_of (last_sequence_ db) (snapshots_ db) < kUint64Max ->
  exists g', db_inv (mkState (newSnapshot db).1 fs bg) g' k /\ store_step (store_of g) (Snapped (last_sequence_ db)) (store_of g').
Proof.
  intros Hi Hc. pose proof (iv_reads _ _ _ Hi) as Hr. simpl in Hr. rewrite (ri_last _ _ Hr) in *. eexists. split.
  - eapply db_inv_memory; [exact Hi|done..| | |].
    + simpl. rewrite (ri_last _ _ Hr). apply tracks_add; [apply Hr|done].
    + constructor; [|apply Hr]. pose proof (ri_floor _ _ Hr). unfold whole. rewrite len_app. llia.
    + intros o ? ?. by constructor.
  - apply step_snap.
Qed.

Lemma release_spec db fs bg g k s db' : db_inv (mkState db fs bg) g k -> releaseSnapshot s db = Some db' ->
  exists g', db_inv (mkState db' fs bg) g' k /\ store_step (store_of g) (Released (ss_sequence s)) (store_of g').
Proof.
  intros Hi (c & Hc & [= <-])%bind_Some. pose proof (iv_reads _ _ _ Hi) as Hr. simpl in Hr.
  destruct (tracks_remove _ _ _ _ (ri_tracks _ _ Hr) Hc) as (live' & Hp). eexists. split.
  - eapply (db_inv_memory db fs bg g k _ live'); [exact Hi|done..| | |].
    + simpl. eapply tracks_release; [apply Hr|done|done].
    + pose proof (ri_live _ _ Hr) as Hl. rewrite Hp in Hl. by apply Forall_cons_iff in Hl as [_ ?].
    + intros o _ Hl. rewrite Hp in Hl. by apply Forall_cons_iff in Hl as [_ ?].
  - by apply step_release.
Qed.

(** The flags of the background thread. *)
Lemma flags_spec db fs bg g k down error : db_inv (mkState db fs bg) g k -> db_inv (mkState (set_background db down error) fs bg) g k.
Proof.
  intros Hi. pose proof (iv_reads _ _ _ Hi) as Hr. simpl in Hr. assert (g = mkParts (in_tables g) (in_immutable g) (in_memtable g) (runs g) (floor g) (live g)) as -> by (by destruct g).
  eapply (db_inv_memory db fs bg g k); [exact Hi|done..|apply Hr|apply Hr|done].
Qed.

End steps.
