(* ===== verification/DbFlush.v ===== *)
(** The sections of a flush preserve the invariant of the database: the table is
    built beside the live files, the manifest that names it takes effect in one
    step, and only then are the memtable and the old logs given up. *)
From S2P Require Import Prelude Posix Status Coding InternalKey Mvcc WriteBatch Wal BlockBuilder SSTableBuilder Iterator SSTableReader Arena SkipList MemTable MergingIterator DbIterator Filename Level Manifest Snapshot DbFiles Version Compaction CompactionReads CompactionBuild FlushMemTable DbImpl History DbState DbLog DbDisk DbSteps DbWrite.

Section steps.
Context `{SystemAllocator} (strerror : Z -> string) `{!SystemAllocatorLaws}.

(** ** Files that do not matter *)

Lemma table_irrelevant directory m n : manifest_wf m -> validateState m = Some None -> 0 < n <= kUint64Max ->
  (forall t, t ∈ all_tables (mf_levels m) -> tm_number t <> n) -> ~ relevant directory m (sstableFileName directory n).
Proof.
  intros Hwf Hv Hn Ht Hr. pose proof (table_parse directory n Hn) as Hp. inversion Hr as [E|t Hin E|path n' Hp' _ E].
  - rewrite <- E, manifest_unnumbered in Hp. done.
  - apply sst_inj in E; [by apply (Ht t)|by eapply valid_numbers|done].
  - subst. congruence.
Qed.

Lemma temporary_irrelevant directory m n : manifest_wf m -> validateState m = Some None -> 0 < n <= kUint64Max ->
  ~ relevant directory m (sstableTemporaryFileName directory n).
Proof.
  intros Hwf Hv Hn Hr. pose proof (numberedFileName_parse directory kSSTableTemporary n Hn) as Hp. simpl in Hp. inversion Hr as [E|t Hin E|path n' Hp' _ E].
  - rewrite <- E, manifest_unnumbered in Hp. done.
  - revert E. apply sst_not_tmp; [by eapply valid_numbers|done].
  - subst. congruence.
Qed.

Lemma log_not_table_path directory n path : 0 < n <= kUint64Max -> table_path directory path -> path <> walFileName directory n.
Proof.
  intros Hn (m & Hm & [-> | ->]) E; pose proof (wal_parse directory n Hn) as Hp; rewrite <- E in Hp.
  - by rewrite table_parse in Hp.
  - by rewrite (numberedFileName_parse directory kSSTableTemporary m Hm : parseNumberedFileName (sstableTemporaryFileName directory m) = _) in Hp.
Qed.

(** Cleaning up removes nothing that matters. *)
Lemma clean_wal_relevant directory m list_error effective entries live fs : manifest_wf m -> validateState m = Some None -> live <= oldest_wal_number m ->
  same_relevant directory m fs (removeObsoleteWalFilesBestEffort list_error effective entries live fs).
Proof.
  intros Hwf Hv Hlive path Hr. unfold removeObsoleteWalFilesBestEffort. destruct list_error; [done|]. rewrite remove_where_lookup.
  assert (obsolete_wal live path = false) as ->; [|by rewrite andb_false_r]. unfold obsolete_wal. inversion Hr as [E|t Hin E|? n Hp Hle E]; subst.
  - by rewrite manifest_unnumbered.
  - by rewrite table_parse by (by eapply valid_numbers).
  - rewrite Hp. lia.
Qed.

Lemma clean_table_relevant directory m list_error effective entries fs : manifest_wf m -> validateState m = Some None ->
  same_relevant directory m fs (removeObsoleteSSTableFilesBestEffort list_error effective entries m fs).
Proof.
  intros Hwf Hv path Hr. unfold removeObsoleteSSTableFilesBestEffort. destruct list_error; [done|]. rewrite remove_where_lookup.
  assert (obsolete_sstable m path = false) as ->; [|by rewrite andb_false_r]. unfold obsolete_sstable. inversion Hr as [E|t Hin E|? n Hp Hle E]; subst.
  - by rewrite manifest_unnumbered.
  - rewrite table_parse by (by eapply valid_numbers). rewrite bool_decide_true; [done|]. unfold live_numbers. rewrite elem_of_list_to_set. by apply list_elem_of_fmap_2.
  - by rewrite Hp.
Qed.

Lemma clean_wal_absent list_error effective entries live fs path : fs !! path = None ->
  removeObsoleteWalFilesBestEffort list_error effective entries live fs !! path = None.
Proof. intros Hn. unfold removeObsoleteWalFilesBestEffort. destruct list_error; [done|]. rewrite remove_where_lookup. by case_match. Qed.

Lemma clean_table_absent list_error effective entries m fs path : fs !! path = None ->
  removeObsoleteSSTableFilesBestEffort list_error effective entries m fs !! path = None.
Proof. intros Hn. unfold removeObsoleteSSTableFilesBestEffort. destruct list_error; [done|]. rewrite remove_where_lookup. by case_match. Qed.

(** The manifest in memory is the one on disk, or its tables are there too. *)
Lemma db_inv_files db fs bg g k fs' bg' :
  db_inv (mkState db fs bg) g k -> same_relevant (directory_ db) (dk_manifest k) fs fs' ->
  (forall t, t ∈ all_tables (mf_levels (manifest_ db)) ->
     fs' !! sstableFileName (directory_ db) (tm_number t) = fs !! sstableFileName (directory_ db) (tm_number t)) ->
  (forall n, next_file_number_ db <= n <= kUint64Max -> fs' !! walFileName (directory_ db) n = fs !! walFileName (directory_ db) n) ->
  background_inv db fs' bg' g k -> db_inv (mkState db fs' bg') g k.
Proof.
  intros [V1 V2 V3 V4 V5 (wal & V6 & V6' & V6'') V7 V8 V9 V10 V11 V12] Hsame Ht Hw Hb. simpl in *. split; simpl; try done.
  - by eapply levels_stored_frame.
  - exists wal. split_and!; [done| |done]. by eapply disk_inv_frame.
  - intros n Hn. rewrite Hw by done. by apply V9.
Qed.

(** While memory and disk agree, tables and temporary files with other numbers
    can change. *)
Lemma db_inv_work db fs bg g k fs' bg' (own : Z -> Prop) :
  db_inv (mkState db fs bg) g k -> disk_current db g k ->
  (forall n, own n -> 0 < n <= kUint64Max) ->
  (forall n t, own n -> t ∈ all_tables (mf_levels (manifest_ db)) -> tm_number t <> n) ->
  (forall path, fs' !! path = fs !! path \/
     (exists n, own n /\ path = sstableFileName (directory_ db) n) \/
     (exists n, 0 < n <= kUint64Max /\ path = sstableTemporaryFileName (directory_ db) n)) ->
  background_inv db fs' bg' g k -> db_inv (mkState db fs' bg') g k.
Proof.
  intros Hi (Hcur & _) Hpos Hown Hfs Hb. destruct (iv_disk _ _ _ Hi) as (wal & _ & Hd & _). simpl in Hd.
  pose proof (di_wf _ _ _ _ _ _ Hd) as Hwf. pose proof (di_valid _ _ _ _ _ _ Hd) as Hv.
  assert (same_relevant (directory_ db) (dk_manifest k) fs fs') as Hsame.
  { intros path Hr. destruct (Hfs path) as [|[(n & Hn & ->)|(n & Hn & ->)]]; [done|exfalso..].
    - revert Hr. apply table_irrelevant; [done|done|by apply Hpos|]. rewrite Hcur. intros t Ht. by apply Hown.
    - revert Hr. by apply temporary_irrelevant. }
  eapply db_inv_files; [exact Hi|exact Hsame| | |done].
  - intros t Ht. apply Hsame, relevant_table. by rewrite Hcur.
  - intros n Hn. destruct (iv_next _ _ _ Hi) as [? _]. simpl in *. assert (0 < n <= kUint64Max) as Hn' by lia.
    destruct (Hfs (walFileName (directory_ db) n)) as [|[(m & Hm & E)|(m & Hm & E)]]; [done|exfalso..];
      eapply (log_not_table_path (directory_ db) n); [done| |symmetry; exact E|done| |symmetry; exact E]; exists m; auto.
Qed.

(** ** Building the table *)

Lemma number_free db fs bg g k im t : db_inv (mkState db fs bg) g k -> immutable_ db = Some im ->
  t ∈ all_tables (mf_levels (manifest_ db)) -> tm_number t <> im_table_number im.
Proof. intros Hi Him Ht. pose proof (iv_numbers _ _ _ Hi) as Hn. rewrite Forall_elem in Hn. by apply (Hn t Ht). Qed.

Lemma immutable_room db fs bg g k : db_inv (mkState db fs bg) g k -> is_Some (immutable_ db) ->
  (forall im es, immutable_ db = Some im -> it_on (mt_newIterator (im_memtable im)) es -> table_room es <= kUint32Max) ->
  table_room (entries (in_immutable g)) <= kUint32Max.
Proof.
  intros Hi [im Him] Hroom. pose proof (ri_immutable _ _ (iv_reads _ _ _ Hi)) as Himm. simpl in Himm. rewrite Him in Himm. destruct Himm as ((es & Hmt & Hperm & _) & _).
  rewrite <- (table_room_perm _ _ Hperm). apply (Hroom im); [done|by destruct Hmt].
Qed.

Lemma flush_build_spec env db fs g k :
  db_inv (mkState db fs Flushing) g k ->
  table_room (entries (in_immutable g)) <= kUint32Max ->
  exists fs' r, flush_build strerror env db fs = Some (fs', r) /\
    db_inv (mkState db fs' (match r with Ok (descriptor, reader) => FlushBuilt descriptor reader | Err status => Failed status end)) g k.
Proof.
  intros Hi Hroom. pose proof (iv_background _ _ _ Hi) as ([im Him] & Hcur). simpl in Him, Hcur. pose proof (iv_reads _ _ _ Hi) as Hr. simpl in Hr.
  pose proof (ri_immutable _ _ Hr) as Himm. rewrite Him in Himm. destruct Himm as ((es & Hmt & Hperm & _) & Hne & _).
  pose proof (iv_immutable _ _ _ Hi im Him) as Hnum. destruct (iv_next _ _ _ Hi) as [Hnext _]. simpl in *.
  set (n := im_table_number im) in *. assert (0 < n <= kUint64Max) as Hn by lia. unfold flush_build. rewrite Him. cbn [mbind option_bind]. fold n.
  assert (es <> []) as Hes by (intros ->; apply Permutation_nil in Hperm; by destruct (in_immutable g)).
  set (T := sstableTemporaryFileName (directory_ db) n). set (S := sstableFileName (directory_ db) n).
  assert (T <> S) as HTS by (apply not_eq_sym, sst_not_tmp; done).
  destruct (buildLevel0Table_spec strerror (ff_effective env) (ff_table env) (im_memtable im) es T S default_block_size default_restart_interval fs)
    as (fs1 & r & -> & Hfr & Hout); [done|done|by rewrite (table_room_perm _ _ Hperm)|apply tmp_nonempty|done|done|done|].
  cbn [mbind option_bind].
  assert (forall fs' bg, (forall path, path <> S -> path <> T -> fs' !! path = fs !! path) -> background_inv db fs' bg g k -> db_inv (mkState db fs' bg) g k) as Hwork.
  { intros fs' bg Hfs Hb. eapply (db_inv_work db fs Flushing g k fs' bg (fun m => m = n)); [done|done|by intros ? ->| |intros path|done].
    - intros ? t -> Ht. by eapply number_free.
    - destruct (decide (path = S)) as [->|]; [right; left; by exists n|]. destruct (decide (path = T)) as [->|]; [right; right; by exists n|]. left. auto. }
  destruct r as [meta|st].
  2:{ eexists _, _. split; [done|]. cbn iota. apply Hwork; [auto|]. by destruct Hout as [? _]. }
  destruct Hout as (_ & _ & c & Hc & Htab & ->).
  destruct (reader_opens strerror (ff_open env) S fs1 es c _ (sstableFileName_nonempty _ _) Hc (mt_inv_run _ _ Hmt) Htab) as (r & -> & Hopen). cbn [mbind option_bind].
  destruct r as [reader|st].
  - eexists _, _. split; [done|]. cbn iota. apply Hwork; [auto|]. split; [|done]. exists es, im. split_and!; try done.
    split; simpl; [by exists c|by eapply mt_inv_run|done..].
  - eexists _, _. split; [done|]. cbn iota. apply Hwork; [|by destruct Hopen].
    intros path N1 N2. unfold removeFileBestEffort, fs_unlink. destruct (ff_effective env S); [|auto]. rewrite lookup_delete_ne by done. auto.
Qed.

(** ** The manifest takes effect *)

Lemma runs_hold_flush R t i floor es : runs_hold R t floor -> numbered 1 (t ++ i) -> es ≡ₚ entries i ->
  runs_hold (mkLevels (es :: level0 R) (level1 R) (level2 R)) (t ++ i) floor.
Proof.
  intros [Hl He Hr] Hn Hp. pose proof Hn as [N1 N2]%numbered_app. assert (newer_layer (entries i) (entries t)) as Hnew by (eapply numbered_newer; [done|done|lia]).
  assert (newer_layer es (concat (version_layers R))) as Hnew' by (eapply newer_layer_sub; [exact Hnew|intros e; by rewrite Hp|done]).
  change (version_layers (mkLevels (es :: level0 R) (level1 R) (level2 R))) with (es :: version_layers R). split.
  - constructor; [done|]. rewrite Forall_elem. intros l Hin. eapply newer_layer_sub; [exact Hnew'|done|]. intros e Hle.
    apply list_elem_of_In, in_concat. exists l. split; by apply list_elem_of_In.
  - intros e. simpl. rewrite entries_app, !elem_of_app, Hp. intros [?|?]; [by right|left; auto].
  - intros key seq Hseq. simpl. specialize (Hr key seq Hseq). unfold history_get in *. rewrite mvcc_get_newer_layer by done.
    rewrite <- (entries_get_perm 1 (t ++ i) (entries i ++ entries t)); [|done|rewrite entries_app; apply Permutation_app_comm].
    rewrite mvcc_get_newer_layer by done. rewrite (entries_get_perm _ i es) by done. by destruct (mvcc_get (entries i) key seq).
Qed.

(** The logs before the current one hold what the flush writes. *)
Lemma flushed_segments db fs bg g k : db_inv (mkState db fs bg) g k -> disk_current db g k -> is_Some (immutable_ db) ->
  dk_tables k ++ batch_writes (len (dk_tables k) + 1) (segments_batches (dk_segments k)) = in_tables g ++ in_immutable g.
Proof.
  intros Hi (_ & _ & Ht & _) Him. pose proof (iv_current _ _ _ Hi Him) as Hm. destruct (iv_disk _ _ _ Hi) as (wal & _ & Hd & _). simpl in *.
  pose proof (di_history _ _ _ _ _ _ Hd) as Hh. unfold whole in Hh. rewrite Ht in *. f_equal. apply app_inv_head in Hh.
  rewrite batch_writes_app in Hh. apply (f_equal len) in Hm as Hml. rewrite len_batch_writes in Hml.
  eapply app_inj_2 in Hh as [? _]; [done|]. rewrite Hm. unfold len in *. apply Nat2Z.inj. pose proof (len_batch_writes (len (in_tables g) + 1 + len (concat (segments_batches (dk_segments k)))) (dk_batches k)).
  pose proof (len_batch_writes (len (in_tables g ++ in_immutable g) + 1) (dk_batches k)). unfold len in *. lia.
Qed.

Lemma flush_candidate_spec descriptor reader db fs g k :
  db_inv (mkState db fs (FlushBuilt descriptor reader)) g k ->
  exists candidate version live, flush_candidate descriptor reader db = Some (candidate, version, live) /\
    db_inv (mkState db fs (FlushReady descriptor candidate version live)) g k.
Proof.
  intros Hi. pose proof (iv_background _ _ _ Hi) as [(es & Hf) Hcur]. simpl in *. destruct (ri_version _ _ (iv_reads _ _ _ Hi)) as (v & Hv & _). simpl in Hv.
  pose proof Hf as (im & Him & _). assert (is_Some (flush_candidate descriptor reader db)) as [[[candidate version] live] Hc].
  { unfold flush_candidate. rewrite Him, Hv. by eexists. }
  exists candidate, version, live. split; [done|]. eapply db_inv_files; [exact Hi|done..|]. split; [|done]. by exists reader, es.
Qed.

(** The new manifest, written out. *)
Lemma flush_candidate_facts db fs bg g k descriptor reader es candidate version live :
  db_inv (mkState db fs bg) g k -> flush_holds db fs g descriptor reader es -> flush_candidate descriptor reader db = Some (candidate, version, live) ->
  manifest_wf candidate /\ flushed_sequence candidate = len (in_tables g ++ in_immutable g) /\ oldest_wal_number candidate = wal_number_ db /\
  live = wal_number_ db /\ levels_hold (stored (directory_ db) fs) (mf_levels candidate) (flushed_runs g es) /\
  version_holds version (flushed_runs g es) /\ all_tables (mf_levels candidate) = descriptor :: all_tables (mf_levels (manifest_ db)).
Proof.
  intros Hi (im & Him & Hnum & Hp & Hst & Hse) Hc. unfold flush_candidate in Hc. rewrite Him in Hc.
  pose proof (iv_reads _ _ _ Hi) as Hr. simpl in Hr. destruct (ri_version _ _ Hr) as (v & Hv & Hvh & _). rewrite Hv in Hc. cbn [mbind option_bind] in Hc.
  injection Hc as <- <- <-. pose proof (ri_immutable _ _ Hr) as Hii. rewrite Him in Hii. destruct Hii as (_ & _ & Hlast).
  destruct (iv_disk _ _ _ Hi) as (wal & _ & Hd & _). pose proof (current_positive _ _ _ _ _ _ Hd) as Hpos. simpl in Hpos.
  pose proof (iv_immutable _ _ _ Hi im Him) as Hin. destruct (iv_next _ _ _ Hi) as [Hnx _]. destruct (iv_wf _ _ _ Hi) as (_ & _ & Hwf). simpl in *.
  destruct (ri_history _ _ Hr) as [_ Hmax]. split_and!; try done.
  - unfold manifest_wf. simpl. rewrite Hlast. split_and!; [apply len_nonneg| |lia|lia|].
    + revert Hmax. unfold whole, kMaxSequenceNumber, kUint64Max. llia.
    + constructor; [|exact Hwf]. destruct (sd_file _ _ _ _ Hst) as (c & _ & (_ & _ & _ & _ & _ & _ & _ & _ & Hlen) & Hsz). unfold meta_wf. rewrite Hnum, Hsz. llia.
  - destruct (iv_stored _ _ _ Hi) as [L0 L1 L2 S1 S2]. simpl in *. split; simpl; try done. by constructor.
  - by apply withLevel0Table_hold.
Qed.

(** Nothing but the manifest and its temporary file changes. *)
Definition but_manifest (directory : string) (fs fs' : Directory) : Prop :=
  forall path, path <> manifestFileName directory -> path <> manifestTemporaryFileName directory -> fs' !! path = fs !! path.

Lemma but_manifest_table directory fs fs' n : but_manifest directory fs fs' -> 0 < n <= kUint64Max ->
  fs' !! sstableFileName directory n = fs !! sstableFileName directory n.
Proof. intros Hb Hn. destruct (table_path_not_manifest directory n Hn). by apply Hb. Qed.

Lemma but_manifest_log directory fs fs' n : but_manifest directory fs fs' -> 0 < n <= kUint64Max ->
  fs' !! walFileName directory n = fs !! walFileName directory n.
Proof. intros Hb Hn. destruct (log_path_not_manifest directory _ n (wal_parse directory n Hn)). by apply Hb. Qed.

Lemma manifest_temporary_ne directory : manifestFileName directory <> manifestTemporaryFileName directory.
Proof.
  intros E. apply (f_equal to_chars) in E. unfold manifestFileName, manifestTemporaryFileName in E.
  destruct (path_append_split directory (to_chars "MANIFEST")) as (a & Ha & _). destruct (path_append_split directory (to_chars "MANIFEST.tmp")) as (b & Hb & _).
  rewrite Ha, Hb in E. apply (f_equal list.last) in E. rewrite !last_app in E. done.
Qed.

Lemma manifest_temporary_irrelevant directory m : manifest_wf m -> validateState m = Some None ->
  ~ relevant directory m (manifestTemporaryFileName directory).
Proof.
  intros Hwf Hv Hr. inversion Hr as [E|t Hin E|path n Hp _ E].
  - by apply manifest_temporary_ne in E.
  - destruct (table_path_not_manifest directory (tm_number t)) as [_ Hne]; [by eapply valid_numbers|done].
  - subst. by rewrite manifest_temporary_unnumbered in Hp.
Qed.

(** Whatever becomes of the manifest, it is the old one or the new one. *)
Lemma manifest_written env directory candidate fs :
  exists fs' status, writeManifest strerror env (manifestFileName directory) (manifestTemporaryFileName directory) candidate fs = Some (fs', status) /\
    but_manifest directory fs fs' /\
    if ok status then validateState candidate = Some None /\
      (let c := sealed (manifest_contents candidate) in fs' !! manifestFileName directory = Some (mkLogFile c (length c)))
    else fs' !! manifestFileName directory = fs !! manifestFileName directory.
Proof.
  destruct (writeManifest_total strerror env (manifestFileName directory) (manifestTemporaryFileName directory) candidate fs) as [[fs' status] Hw].
  exists fs', status. split; [done|]. apply writeManifest_spec in Hw as [Hb Hs]; [|apply manifest_temporary_ne]. split; [done|]. destruct (ok status); tauto.
Qed.

(** The manifest could not be written; the new tables may be removed. *)
Lemma commit_failed db fs bg g k fs1 fs2 status (own : Z -> Prop) :
  db_inv (mkState db fs bg) g k -> disk_current db g k -> but_manifest (directory_ db) fs fs1 ->
  fs1 !! manifestFileName (directory_ db) = fs !! manifestFileName (directory_ db) -> ok status = false ->
  (forall n, own n -> 0 < n <= kUint64Max) -> (forall n t, own n -> t ∈ all_tables (mf_levels (manifest_ db)) -> tm_number t <> n) ->
  (forall path, fs2 !! path = fs1 !! path \/ exists n, own n /\ path = sstableFileName (directory_ db) n) ->
  db_inv (mkState db fs2 (Failed status)) g k.
Proof.
  intros Hi Hcur Hb Hm Hst Hpos Hown Hfs. destruct (iv_disk _ _ _ Hi) as (wal & _ & Hd & _). destruct (iv_next _ _ _ Hi) as [Hnx _]. simpl in Hd, Hnx.
  pose proof (di_wf _ _ _ _ _ _ Hd) as Hwf. pose proof (di_valid _ _ _ _ _ _ Hd) as Hv. pose proof Hcur as (Hmf & _).
  assert (same_relevant (directory_ db) (dk_manifest k) fs fs1) as Hsame.
  { intros path Hr. destruct (decide (path = manifestFileName (directory_ db))) as [->|]; [done|]. apply Hb; [done|].
    intros ->. by eapply manifest_temporary_irrelevant. }
  assert (db_inv (mkState db fs1 (Failed status)) g k) as Hi1.
  { eapply db_inv_files; [exact Hi|exact Hsame| | |done].
    - intros t Ht. apply Hsame, relevant_table. by rewrite Hmf.
    - intros n Hn. apply but_manifest_log; [done|lia]. }
  eapply (db_inv_work db fs1 _ g k fs2 _ own); [exact Hi1|done|done|done| |done]. intros path. destruct (Hfs path) as [|?]; auto.
Qed.

(** The new manifest is in place; memory still has the old one. *)
Lemma commit_done db fs bg g k fs' bg' candidate R floor old segments :
  db_inv (mkState db fs bg) g k -> disk_current db g k -> dk_segments k = old ++ segments -> but_manifest (directory_ db) fs fs' ->
  (let c := sealed (manifest_contents candidate) in fs' !! manifestFileName (directory_ db) = Some (mkLogFile c (length c))) ->
  validateState candidate = Some None ->
  let tables := dk_tables k ++ batch_writes (len (dk_tables k) + 1) (segments_batches old) in
  let k' := mkDisk candidate R tables floor segments (dk_batches k) (dk_failed k) (dk_synced k) in
  manifest_wf candidate -> levels_hold (stored (directory_ db) fs) (mf_levels candidate) R -> runs_hold R tables floor -> 0 <= floor <= len tables ->
  flushed_sequence candidate = len tables -> head (log_numbers k' (wal_number_ db)) = Some (oldest_wal_number candidate) ->
  background_inv db fs' bg' g k' -> db_inv (mkState db fs' bg') g k'.
Proof.
  intros Hi (Hmf & _) Hseg Hb Hm Hv tables k' Hwf Hst Hruns Hfloor Hfl Hold Hbg.
  assert (forall m, manifest_wf m -> validateState m = Some None -> forall R, levels_hold (stored (directory_ db) fs) (mf_levels m) R ->
    levels_hold (stored (directory_ db) fs') (mf_levels m) R) as Hframe.
  { intros m Hw Hval R'. apply levels_stored_frame. intros t Ht. apply but_manifest_table; [done|by eapply valid_numbers]. }
  destruct Hi as [V1 V2 V3 V4 V5 (wal & V6 & V6' & V6'') V7 V8 V9 V10 V11 V12]. simpl in *. split; simpl; try done.
  - apply Hframe; [done| |done]. rewrite <- Hmf. apply V6'.
  - exists wal. split_and!; [done| |done]. eapply disk_inv_commit; [exact V6'|done|done|done|done|done|by apply Hframe|done..].
  - intros n Hn. rewrite (but_manifest_log (directory_ db) fs fs' n) by (done || lia). by apply V9.
Qed.

Lemma flush_commit_spec env descriptor candidate version live db fs g k :
  db_inv (mkState db fs (FlushReady descriptor candidate version live)) g k ->
  exists fs' status k', flush_commit strerror env descriptor candidate db fs = Some (fs', status) /\
    db_inv (mkState db fs' (if ok status then FlushWritten candidate version live else Failed status)) g k' /\ durable_writes k' = durable_writes k /\ dk_failed k' = dk_failed k.
Proof.
  intros Hi. pose proof (iv_background _ _ _ Hi) as [(reader & es & Hf & Hc) Hcur]. simpl in *.
  destruct (flush_candidate_facts _ _ _ _ _ _ _ _ _ _ _ Hi Hf Hc) as (Hwf & Hfl & Hold & _ & Hst & _ & _).
  pose proof Hf as (im & Him & Hnum & Hp & Hstd & Hse). pose proof (iv_immutable _ _ _ Hi im Him) as Hin. destruct (iv_next _ _ _ Hi) as [Hnx _]. simpl in Hin, Hnx.
  unfold flush_commit. destruct (manifest_written (ff_manifest env) (directory_ db) candidate fs) as (fs1 & status & -> & Hb & Hw). cbn [mbind option_bind].
  destruct (ok status) eqn:Hok; cbn [negb].
  - destruct Hw as [Hval Hm]. eexists fs1, success, _. split; [done|]. change (ok success) with true. cbn iota. split; [|split; [eapply durable_commit; symmetry; apply app_nil_r|done]].
    assert (is_Some (immutable_ db)) as Him' by (by rewrite Him). pose proof (flushed_segments _ _ _ _ _ Hi Hcur Him') as Hseg.
    pose proof (iv_reads _ _ _ Hi) as Hr. simpl in Hr. destruct (ri_version _ _ Hr) as (v & _ & _ & Hruns). pose proof (ri_floor _ _ Hr) as Hflo.
    eapply (commit_done db fs _ g k fs1 _ candidate (flushed_runs g es) (floor g) (dk_segments k) []); [exact Hi|done|by rewrite app_nil_r|done..| | | | |].
    + rewrite Hseg. apply runs_hold_flush; [done| |done]. destruct (ri_history _ _ Hr) as [Hn _]. unfold whole in Hn. rewrite app_assoc in Hn.
      by apply numbered_app in Hn as [? _].
    + rewrite Hseg, len_app. pose proof (len_nonneg (in_immutable g)). lia.
    + by rewrite Hseg.
    + by rewrite Hold.
    + exists descriptor, reader, es. rewrite Hseg. split_and!; try done. exists im. split_and!; try done.
      eapply stored_frame; [|done]. apply but_manifest_table; [done|lia].
  - eexists _, status, k. split; [done|]. rewrite Hok. split; [|done]. eapply (commit_failed db fs _ g k fs1 _ status (fun n => n = im_table_number im)); [exact Hi|done..| | |].
    + intros ? ->. lia.
    + intros ? t -> Ht. by eapply number_free.
    + intros path. rewrite Hnum. unfold removeFileBestEffort, fs_unlink. destruct (ff_effective env _); [|by left].
      destruct (decide (path = sstableFileName (directory_ db) (im_table_number im))); [right; eauto|left; by apply lookup_delete_ne].
Qed.

(** ** Memory follows *)

Definition flushed (g : Parts) (es : list entry) : Parts :=
  mkParts (in_tables g ++ in_immutable g) [] (in_memtable g) (flushed_runs g es) (floor g) (live g).

Lemma flush_publish_spec candidate version live db fs g k :
  db_inv (mkState db fs (FlushWritten candidate version live)) g k ->
  exists g', db_inv (mkState (flush_publish candidate version db) fs (FlushPublished live)) g' k /\ store_of g' = store_of g.
Proof.
  intros Hi. pose proof (iv_background _ _ _ Hi) as (descriptor & reader & es & Hf & Hc & D1 & D2 & D3 & D4 & D5). simpl in *.
  destruct (flush_candidate_facts _ _ _ _ _ _ _ _ _ _ _ Hi Hf Hc) as (Hwf & Hfl & Hold & -> & _ & Hvh & Hall).
  pose proof Hf as (im & Him & Hnum & _). pose proof (iv_immutable _ _ _ Hi im Him) as Hin. simpl in Hin.
  assert (whole (flushed g es) = whole g) as Hwh by (unfold whole, flushed; simpl; by rewrite <- app_assoc).
  exists (flushed g es). split; [|unfold store_of; by rewrite Hwh].
  destruct Hi as [V1 V2 V3 V4 V5 (wal & V6 & V6' & V6'') V7 V8 V9 V10 V11 V12]. simpl in *.
  pose proof (di_runs _ _ _ _ _ _ V6') as Hruns. pose proof (di_floor _ _ _ _ _ _ V6') as Hflo. pose proof (di_stored _ _ _ _ _ _ V6') as Hst.
  rewrite D1, D2, D3, D4 in *. split; simpl; try done.
  - destruct V1 as [R1 R2 R3 R4 R5 R6 R7 R8]. split; simpl; rewrite ?Hwh; try done. by eexists.
  - rewrite Hall. constructor; [|eapply Forall_impl; [|exact V5]; by intros t [? _]]. split; [simpl; lia|done].
  - exists wal. split_and!; [done| |done]. by rewrite Hwh.
  - split; [lia|]. by split_and!.
Qed.

Lemma flush_clean_spec env live db fs g k :
  db_inv (mkState db fs (FlushPublished live)) g k -> db_inv (mkState db (flush_clean env live fs) (background_again db)) g k.
Proof.
  intros Hi. pose proof (iv_background _ _ _ Hi) as [Hlive Hcur]. simpl in *. pose proof Hcur as (Hmf & _).
  destruct (iv_disk _ _ _ Hi) as (wal & _ & Hd & _). simpl in Hd.
  assert (same_relevant (directory_ db) (dk_manifest k) fs (flush_clean env live fs)) as Hsame
    by (apply clean_wal_relevant; [apply (di_wf _ _ _ _ _ _ Hd)|apply Hd|by rewrite Hmf]).
  eapply db_inv_files; [exact Hi|exact Hsame| | |].
  - intros t Ht. apply Hsame, relevant_table. by rewrite Hmf.
  - intros n Hn. pose proof (iv_unused _ _ _ Hi n Hn) as Hnone. simpl in Hnone. rewrite Hnone. by apply clean_wal_absent.
  - unfold background_again. by destruct (shutting_down_ db && _).
Qed.

End steps.
