(* ===== verification/DbCompact.v ===== *)
(** The sections of a compaction preserve the invariant of the database: the
    outputs are added beside the inputs, the manifest that exchanges them takes
    effect in one step, memory follows, and only then are the inputs removed. *)
From S2P Require Import Prelude Posix Status Coding InternalKey Mvcc WriteBatch Wal BlockBuilder SSTableBuilder Iterator SSTableReader Arena SkipList MemTable MergingIterator DbIterator Filename Level Manifest Snapshot DbFiles Version Compaction CompactionReads CompactionBuild FlushMemTable DbImpl History DbState DbLog DbDisk DbSteps DbWrite DbFlush.

(** ** The exchange *)

Lemma splice_elem {A} (l k : list A) r x : x ∈ splice l r k -> x ∈ l \/ x ∈ k.
Proof.
  unfold splice. rewrite !elem_of_app. intros [Hx|[Hx|Hx]]; [left|by right|left].
  - eapply elem_of_sublist; [exact Hx|apply sublist_take].
  - eapply elem_of_sublist; [exact Hx|apply sublist_drop].
Qed.

(** What an exchange leaves was there or is new. *)
Lemma compact_levels_elem {A} (ls : Levels A) i inputs overlaps outs x : (i <= 1)%nat ->
  x ∈ all_tables (compact_levels ls i inputs overlaps outs) -> x ∈ all_tables ls \/ x ∈ outs.
Proof.
  intros Hi. unfold all_tables, compact_levels. destruct i as [|[|i]]; [| |lia]; simpl; rewrite !elem_of_app;
    (intros [Hx|[Hx|Hx]]; try apply splice_elem in Hx as [Hx|Hx]; try (by apply elem_of_nil in Hx); auto).
Qed.

Lemma compact_runs_elem {A} (ls : Levels (list A)) i inputs overlaps outs e : (i <= 1)%nat ->
  e ∈ concat (all_tables (compact_levels ls i inputs overlaps outs)) -> e ∈ concat (all_tables ls) \/ e ∈ concat outs.
Proof.
  intros Hi He. apply list_elem_of_In, in_concat in He as (l & Hl & He). apply list_elem_of_In in Hl.
  apply compact_levels_elem in Hl as [Hl|Hl]; [left|right|done]; apply list_elem_of_In, in_concat; exists l; (split; [by apply list_elem_of_In|done]).
Qed.

(** No version is newer than the history is long. *)
Lemma runs_hold_lower R h f : numbered 1 h -> runs_hold R h f -> runs_hold R h (Z.min f (len h)).
Proof.
  intros Hn [Hl He Hr]. split; [done|done|]. intros key seq Hseq. destruct (Z.le_gt_cases f seq) as [|Hlt]; [by apply Hr|].
  assert (forall es, (forall e, e ∈ es -> e ∈ entries h) -> mvcc_get es key seq = mvcc_get es key (Z.max f seq)) as Hsame.
  { intros es Hes. unfold mvcc_get, mvcc_newest. do 2 f_equal. induction es as [|e es IH]; [done|]. cbn [omap list_omap].
    rewrite IH by (intros; apply Hes; set_solver). f_equal.
    destruct (entries_parse _ _ _ Hn (Hes e ltac:(set_solver))) as (w & Hw & _ & Hp). destruct (numbered_elem _ _ _ Hn Hw) as [? _].
    unfold candidate. rewrite Hp. simpl. destruct (Z.leb_spec (w_seq w) seq), (Z.leb_spec (w_seq w) (Z.max f seq)); (done || lia). }
  unfold history_get. rewrite (Hsame (entries h)), (Hsame (concat (version_layers R))) by done. apply Hr. lia.
Qed.

Lemma compaction_output_elem v R plan e : version_holds v R -> layers_ok (version_layers R) -> plan_ok v R plan ->
  e ∈ compaction_output v R plan -> e ∈ concat (version_layers R).
Proof.
  intros Hv Hl Hp He. eapply elem_of_sublist in He; [|apply compact_run_sublist]. rewrite sort_run_perm in He. 
  rewrite (compaction_old v R plan Hv Hp). set_solver.
Qed.

Lemma plan_level v R plan : plan_ok v R plan -> (input_level plan <= 1)%nat.
Proof. intros Hp. destruct (po_choice _ _ _ Hp) as [[-> _]|[-> _]]; lia. Qed.

Section steps.
Context `{SystemAllocator} (strerror : Z -> string) `{!SystemAllocatorLaws}.

(** ** Picking and numbering *)

Lemma oldest_holds db fs bg g k : db_inv (mkState db fs bg) g k ->
  let o := oldest (snapshots_ db) (last_sequence_ db) in
  0 <= o <= last_sequence_ db /\ Forall (fun s => o <= s) (live g).
Proof.
  intros Hi. pose proof (iv_reads _ _ _ Hi) as Hr. simpl in Hr. rewrite (ri_last _ _ Hr). cbv zeta. pose proof (ri_floor _ _ Hr).
  destruct (tracks_oldest _ _ (len (whole g)) (ri_tracks _ _ Hr)) as [P1 P2]. pose proof (ri_live _ _ Hr) as Hl.
  destruct (live g) as [|s l] eqn:E; [rewrite P1 by done; split; [split; [apply len_nonneg|lia]|constructor]|].
  destruct P2 as [Hin Hmin]; [done|]. rewrite Forall_elem in Hl. specialize (Hl _ Hin). split; [lia|]. by rewrite Forall_elem.
Qed.

Lemma compact_pick_spec db fs g k : db_inv (mkState db fs Compacting) g k -> last_sequence_ db < kMaxSequenceNumber ->
  exists plan, compact_pick db = Some plan /\
    db_inv (mkState db fs (match plan with Some plan => CompactPicked plan [] | None => background_again db end)) g k.
Proof.
  intros Hi Hlt. pose proof (iv_background _ _ _ Hi) as Hcur. simpl in Hcur. pose proof (iv_reads _ _ _ Hi) as Hr. simpl in Hr.
  destruct (oldest_holds _ _ _ _ _ Hi) as [Ho Hl]. destruct (ri_version _ _ Hr) as (v & Hv & Hvh & _).
  unfold compact_pick. rewrite Hv. destruct (pickCompaction_spec v (runs g) (oldest (snapshots_ db) (last_sequence_ db)) defaultCompactionOptions Hvh) as (p & -> & Hp).
  exists p. split; [done|]. eapply db_inv_files; [exact Hi|done..|]. destruct p as [plan|].
  - destruct Hp as (_ & Hp & Hpo). split_and!; [|constructor|done]. exists v. rewrite Hpo, <- (ri_last _ _ Hr). split_and!; (done || lia).
  - unfold background_again. by destruct (shutting_down_ db && _).
Qed.

(** A number is handed out. *)
Lemma compact_number_spec plan numbers db fs g k : db_inv (mkState db fs (CompactPicked plan numbers)) g k ->
  let '(db', r) := allocateFileNumber db in db_inv (mkState db' fs (CompactPicked plan (numbers ++ [r]))) g k.
Proof.
  intros Hi. pose proof (iv_background _ _ _ Hi) as (Hp & Hn & Hcur). simpl in *. unfold allocateFileNumber.
  destruct (Z.eqb_spec (next_file_number_ db) kUint64Max) as [E|E].
  { eapply db_inv_files; [exact Hi|done..|]. split_and!; [done| |done]. apply Forall_app. split; [done|]. by repeat constructor. }
  destruct (iv_next _ _ _ Hi) as [Hnx Hwn]. simpl in Hnx, Hwn. set (db' := set_next_file_number db _).
  assert (forall n, number_taken db n -> number_taken db' n) as Htaken by (intros n [? ?]; split; [simpl; lia|done]).
  destruct Hi as [V1 V2 V3 V4 V5 V6 V7 V8 V9 V10 V11 V12]. simpl in *. split; simpl; try done.
  - by destruct V1.
  - eapply Forall_impl; [|exact V5]. intros t. apply Htaken.
  - lia.
  - intros n Hle. apply V9. lia.
  - intros im Him. specialize (V10 im Him). lia.
  - split_and!; [done| |done]. apply Forall_app. split.
    + eapply Forall_impl; [|exact Hn]. intros [n|st]; [apply Htaken|done].
    + constructor; [|constructor]. split; [simpl; lia|]. intros im Him. specialize (V10 im Him). lia.
Qed.

(** ** Building the outputs *)

(** Tables and temporary files are added. *)
Lemma db_inv_grow db fs bg g k fs' bg' :
  db_inv (mkState db fs bg) g k -> disk_current db g k -> fs ⊆ fs' ->
  (forall path, fs' !! path = fs !! path \/ table_path (directory_ db) path) ->
  background_inv db fs' bg' g k -> db_inv (mkState db fs' bg') g k.
Proof.
  intros Hi (Hmf & _) Hsub Hfs Hb. destruct (iv_disk _ _ _ Hi) as (wal & _ & Hd & _). destruct (iv_next _ _ _ Hi) as [Hnx _]. simpl in Hd, Hnx.
  assert (forall path, is_Some (fs !! path) -> fs' !! path = fs !! path) as Hsome.
  { intros path [f Hf]. rewrite Hf. by eapply map_incl. }
  assert (forall t, t ∈ all_tables (mf_levels (dk_manifest k)) -> is_Some (fs !! sstableFileName (directory_ db) (tm_number t))) as Hex.
  { intros t Ht. destruct (di_stored _ _ _ _ _ _ Hd) as [L0 L1 L2 _ _]. unfold all_tables in Ht.
    pose proof (Forall2_app L0 (Forall2_app L1 L2)) as Hall. apply list_elem_of_lookup in Ht as [i Ht].
    destruct (Forall2_lookup_l _ _ _ _ _ Hall Ht) as (es & _ & [(c & Hc & _) _ _ _ _]). rewrite Hc. by eexists. }
  assert (same_relevant (directory_ db) (dk_manifest k) fs fs') as Hsame.
  { intros path Hr. inversion Hr as [E|t Hin E|? n Hp Hle E]; subst.
    - apply Hsome. rewrite (di_manifest _ _ _ _ _ _ Hd). by eexists.
    - by apply Hsome, Hex.
    - destruct (Hfs path) as [|(m & Hm & [-> | ->])]; [done|exfalso..].
      + by rewrite table_parse in Hp.
      + by rewrite (numberedFileName_parse (directory_ db) kSSTableTemporary m Hm : parseNumberedFileName (sstableTemporaryFileName _ m) = _) in Hp. }
  eapply db_inv_files; [exact Hi|exact Hsame| | |done].
  - intros t Ht. apply Hsame, relevant_table. by rewrite Hmf.
  - intros n Hn. destruct (Hfs (walFileName (directory_ db) n)) as [|Ht]; [done|]. exfalso.
    eapply log_not_table_path; [|exact Ht|done]. lia.
Qed.

Lemma compact_build_spec env fuel plan numbers db fs g k :
  db_inv (mkState db fs (CompactPicked plan numbers)) g k ->
  table_room (compaction_input (runs g) plan) <= kUint32Max -> (length (compaction_input (runs g) plan) < fuel)%nat ->
  exists fs' n r, compact_build strerror env fuel plan numbers db fs = Some (fs', n, r) /\
    db_inv (mkState db fs' (match r with Ok outputs => CompactBuilt plan outputs | Err status => Failed status end)) g k.
Proof.
  intros Hi Hroom Hfuel. pose proof (iv_background _ _ _ Hi) as (Hp & Hn & Hcur). simpl in *. pose proof Hp as (v & Hv & Hpo & _).
  pose proof (iv_reads _ _ _ Hi) as Hr. simpl in Hr. destruct (ri_version _ _ Hr) as (v' & Hv' & Hvh & [Hl _ _]).
  rewrite Hv in Hv'. injection Hv' as <-. destruct (iv_next _ _ _ Hi) as [Hnx _]. simpl in Hnx.
  set (allocate := fun i => default (Err (ioError "database file number space is exhausted")) (numbers !! i)).
  assert (forall i, match allocate i with Ok n => number_taken db n | Err st => ok st = false end) as Halloc.
  { intros i. unfold allocate. destruct (numbers !! i) as [r|] eqn:E; [|done]. unfold numbers_hold in Hn. rewrite Forall_elem in Hn.
    apply (Hn r). by eapply list_elem_of_lookup_2. }
  destruct (buildCompactionTables_spec strerror (cc_outputs env) (cc_effective env) (cc_reads env) fuel v (runs g) plan (directory_ db) allocate
    defaultCompactionOptions fs) as (fs' & n & r & Hb & Hsub & Hres); [done|done|done|done| |done|done|].
  { intros i. specialize (Halloc i). destruct (allocate i) as [m|]; [|done]. destruct Halloc as [? _]. lia. }
  exists fs', n, r. split; [exact Hb|]. destruct r as [outputs|st]; cbn iota.
  - destruct Hres as (Hfs & Hnew & outs & Ho & Hs & Hc).
    assert (Forall (fun o => number_new db (tm_number (co_meta o))) outputs) as Hnums.
    { rewrite Forall_elem. intros o Hino. destruct (Hnew o Hino) as (Hnone & i & _ & Hai). specialize (Halloc i). rewrite Hai in Halloc. split; [done|].
      intros t Ht E. destruct (iv_stored _ _ _ Hi) as [L0 L1 L2 _ _]. simpl in *. pose proof (Forall2_app L0 (Forall2_app L1 L2)) as Hall.
      apply list_elem_of_lookup in Ht as [j Ht]. destruct (Forall2_lookup_l _ _ _ _ _ Hall Ht) as (es & _ & [(c & Hc' & _) _ _ _ _]).
      rewrite E, Hnone in Hc'. done. }
    eapply db_inv_grow; [exact Hi|done|done| |].
    + intros path. destruct (Hfs path) as [|(o & Hino & ->)]; [by left|right]. rewrite Forall_elem in Hnums. destruct (Hnums o Hino) as [[? _] _].
      eexists. split; [|left; reflexivity]. lia.
    + split_and!; [done| |done]. exists outs. unfold outputs_hold. split_and!; [done|done|eauto|done].
  - destruct Hres as (Hst & _ & Hfs). eapply db_inv_grow; [exact Hi|done|done| |by split].
    intros path. destruct (Hfs path) as [|[_ ?]]; auto.
Qed.

(** ** The exchange takes effect *)

(** The candidate manifest and version of an exchange. *)
Lemma compact_candidate_facts db fs bg g k plan outputs outs :
  db_inv (mkState db fs bg) g k -> plan_holds db g plan -> outputs_hold db fs g plan outputs outs ->
  exists candidate version, compact_candidate plan outputs db = Some (candidate, version) /\
    manifest_wf candidate /\ flushed_sequence candidate = flushed_sequence (manifest_ db) /\ oldest_wal_number candidate = oldest_wal_number (manifest_ db) /\
    levels_hold (stored (directory_ db) fs) (mf_levels candidate) (compacted_runs g plan outs) /\ version_holds version (compacted_runs g plan outs) /\
    runs_hold (compacted_runs g plan outs) (in_tables g) (compacted_floor g plan) /\
    Forall (fun t => number_taken db (tm_number t)) (all_tables (mf_levels candidate)) /\ current_version_ db = input_version plan.
Proof.
  intros Hi (v & Hv & Hp & Hold & _ & _) (Ho & Hs & (v' & Hv' & Hc) & Hnew). rewrite Hv in Hv'. injection Hv' as <-.
  pose proof (iv_reads _ _ _ Hi) as Hr. simpl in Hr. destruct (ri_version _ _ Hr) as (v' & Hv' & Hvh & Hruns). rewrite Hv in Hv'. injection Hv' as <-.
  destruct (compaction_successor v (runs g) plan outputs outs (directory_ db) fs fs Hvh (tn_layers _ _ _ Hruns) Hp ltac:(lia) Ho Hs Hc)
    as (version & Hw & Hvh' & Hl' & Hst' & Hreads).
  pose proof (plan_level _ _ _ Hp) as Hlev. pose proof (iv_stored _ _ _ Hi) as Hst. simpl in Hst. pose proof (iv_wf _ _ _ Hi) as (W1 & W2 & W3). simpl in W1, W2, W3.
  set (levels := compact_levels (mf_levels (manifest_ db)) (input_level plan) (inputs plan) (overlaps plan) (map co_meta outputs)).
  assert (forall t, t ∈ all_tables levels -> t ∈ all_tables (mf_levels (manifest_ db)) \/ exists o, o ∈ outputs /\ t = co_meta o) as Htab.
  { intros t Ht. apply compact_levels_elem in Ht as [Ht|Ht]; [by left|right|done]. apply list_elem_of_fmap in Ht as (o & -> & ?). by exists o. }
  assert (compact_candidate plan outputs db = Some (mkManifestState (flushed_sequence (manifest_ db)) (oldest_wal_number (manifest_ db)) levels, version)) as Hcand.
  { unfold compact_candidate. rewrite (po_version _ _ _ Hp), Hv, bool_decide_true by done. pose proof (po_inputs _ _ _ Hp) as Hin. pose proof (po_overlaps _ _ _ Hp) as Hov.
    pose proof (Forall2_length (levels_hold_at _ _ _ (input_level plan) Hst)) as E1. pose proof (Forall2_length (levels_hold_at _ _ _ (input_level plan) Hvh)) as E2.
    pose proof (Forall2_length (levels_hold_at _ _ _ (outputLevel plan) Hst)) as E3. pose proof (Forall2_length (levels_hold_at _ _ _ (outputLevel plan) Hvh)) as E4.
    destruct (Nat.ltb_spec (input_level plan + 1) kNumLevels); [|unfold kNumLevels in *; lia]. cbn [assert_that mbind option_bind]. unfold outputLevel in *.
    destruct (level_at (mf_levels (manifest_ db)) (input_level plan)) as [source|] eqn:Es; [|by destruct (input_level plan) as [|[|]]; [..|lia]].
    destruct (level_at (mf_levels (manifest_ db)) (input_level plan + 1)) as [target|] eqn:Et; [|by destruct (input_level plan) as [|[|]]; [..|lia]].
    cbn [mbind option_bind default] in *. simpl in E1, E3. destruct (Nat.leb_spec (ir_end (inputs plan)) (length source)); [|lia]. cbn [assert_that mbind option_bind].
    destruct (Nat.leb_spec (ir_end (overlaps plan)) (length target)); [|lia]. cbn [assert_that mbind option_bind]. by rewrite Hw. }
  eexists _, _. split; [exact Hcand|]. split.
  { split; [done|]. split; [done|]. rewrite Forall_elem. intros t [Ht|(o & Hoin & ->)]%Htab; [rewrite Forall_elem in W3; by apply W3|].
    apply list_elem_of_lookup in Hoin as [j Hj]. destruct (Forall2_lookup_l _ _ _ _ _ Ho Hj) as (run & _ & [(c & _ & (_ & _ & _ & _ & _ & _ & _ & _ & Hlen) & Hsz) _ _ _ _] & _ & ?).
    split; [lia|]. rewrite Hsz. pose proof (len_nonneg c). lia. }
  simpl. split_and!; try done.
  - by apply Hst'.
  - apply runs_hold_lower; [by destruct (parts_numbered g (ri_history _ _ Hr))|]. destruct Hruns as [L1 L2 L3]. split; [done| |].
    + intros e He. rewrite version_concat in He. apply compact_runs_elem in He as [He|He]; [apply L2; by rewrite version_concat| |done].
      rewrite Hc in He. apply L2. eapply compaction_output_elem; done.
    + intros key seq Hseq. rewrite Hreads by lia. apply L3. lia.
  - rewrite Forall_elem. intros t [Ht|(o & Hoin & ->)]%Htab.
    + pose proof (iv_numbers _ _ _ Hi) as Hnum. rewrite Forall_elem in Hnum. by apply Hnum.
    + rewrite Forall_elem in Hnew. by apply Hnew.
  - by rewrite Hv, (po_version _ _ _ Hp).
Qed.

Lemma compact_candidate_spec plan outputs db fs g k :
  db_inv (mkState db fs (CompactBuilt plan outputs)) g k ->
  exists candidate version, compact_candidate plan outputs db = Some (candidate, version) /\
    db_inv (mkState db fs (CompactReady plan outputs candidate version)) g k.
Proof.
  intros Hi. pose proof (iv_background _ _ _ Hi) as (Hp & (outs & Ho) & Hcur). simpl in *.
  destruct (compact_candidate_facts _ _ _ _ _ _ _ _ Hi Hp Ho) as (candidate & version & Hc & _). exists candidate, version. split; [done|].
  eapply db_inv_files; [exact Hi|done..|]. split_and!; [done|by exists outs|done|done].
Qed.

Lemma compact_commit_spec env plan outputs candidate version db fs g k :
  db_inv (mkState db fs (CompactReady plan outputs candidate version)) g k ->
  exists fs' status k', compact_commit strerror env outputs candidate db fs = Some (fs', status) /\
    db_inv (mkState db fs' (if ok status then CompactWritten plan candidate version else Failed status)) g k' /\ durable_writes k' = durable_writes k /\ dk_failed k' = dk_failed k.
Proof.
  intros Hi. pose proof (iv_background _ _ _ Hi) as (Hp & (outs & Ho) & Hc & Hcur). simpl in *.
  destruct (compact_candidate_facts _ _ _ _ _ _ _ _ Hi Hp Ho) as (c & v' & Hc' & Hwf & Hfl & Hold & Hst & _ & Hruns & _).
  rewrite Hc in Hc'. injection Hc' as <- <-. pose proof Ho as (Hof & Hs & Hcat & Hnew). pose proof Hcur as (D1 & D2 & D3 & D4).
  destruct (iv_next _ _ _ Hi) as [Hnx _]. simpl in Hnx. rewrite Forall_elem in Hnew.
  unfold compact_commit. destruct (manifest_written strerror (cc_manifest env) (directory_ db) candidate fs) as (fs1 & status & -> & Hb & Hw). cbn [mbind option_bind].
  destruct (ok status) eqn:Hok; cbn [negb].
  - destruct Hw as [Hval Hm]. eexists fs1, success, _. split; [done|]. change (ok success) with true. cbn iota. split; [|split; [by eapply (durable_commit _ _ _ _ [] (dk_segments k))|done]].
    destruct (iv_disk _ _ _ Hi) as (wal & _ & Hd & _). simpl in Hd. pose proof (iv_reads _ _ _ Hi) as Hr. simpl in Hr. pose proof (ri_floor _ _ Hr).
    assert (0 <= compacted_floor g plan <= len (in_tables g)) as Hflo by (destruct Hp as (? & _ & _ & ? & _); unfold compacted_floor; lia).
    pose proof (iv_flushed _ _ _ Hi) as Hfs. simpl in Hfs.
    eapply (commit_done db fs _ g k fs1 _ candidate (compacted_runs g plan outs) (compacted_floor g plan) [] (dk_segments k));
      [exact Hi|done|done|done|done|done|done|done|..]; simpl; rewrite ?app_nil_r, ?D3; [done|done|congruence| |].
    + rewrite Hold, <- D1. apply (di_oldest _ _ _ _ _ _ Hd).
    + split; [done|]. exists outputs, outs. split_and!; try done. unfold outputs_hold. split_and!; [|done|done|by rewrite Forall_elem].
      eapply Forall2_impl_in; [|exact Hof]. intros o run Hin (? & ? & ?). split; [|done]. eapply stored_frame; [|done]. by apply but_manifest_table.
  - eexists _, status, k. split; [done|]. rewrite Hok. split; [|done].
    eapply (commit_failed db fs _ g k fs1 _ status (fun n => exists o, o ∈ outputs /\ n = tm_number (co_meta o))); [exact Hi|done..| | |].
    + intros ? (o & Hin & ->). destruct (Hnew o Hin) as [[? _] _]. lia.
    + intros ? t (o & Hin & ->) Ht. by apply (Hnew o Hin).
    + intros path. destruct (removeOutputs_lookup (cc_effective env) (directory_ db) outputs fs1 path) as [|(_ & o & Hin & ->)]; [by left|right]. eauto.
Qed.

Definition compacted (g : Parts) (plan : CompactionPlan) (outs : list (list entry)) : Parts :=
  mkParts (in_tables g) (in_immutable g) (in_memtable g) (compacted_runs g plan outs) (compacted_floor g plan) (live g).

Lemma compact_publish_spec plan candidate version db fs g k :
  db_inv (mkState db fs (CompactWritten plan candidate version)) g k ->
  exists db' g', compact_publish plan candidate version db = Some db' /\ db_inv (mkState db' fs CompactPublished) g' k /\ store_of g' = store_of g.
Proof.
  intros Hi. pose proof (iv_background _ _ _ Hi) as (Hp & outputs & outs & Ho & Hc & D1 & D2 & D3 & D4). simpl in *.
  destruct (compact_candidate_facts _ _ _ _ _ _ _ _ Hi Hp Ho) as (c & v' & Hc' & Hwf & Hfl & Hold & Hst & Hvh & Hruns & Hnum & Hver).
  rewrite Hc in Hc'. injection Hc' as <- <-. unfold compact_publish. rewrite Hver, bool_decide_true by done. cbn [assert_that mbind option_bind].
  exists (set_disk db candidate (Some version)), (compacted g plan outs). split; [done|]. split; [|done].
  destruct Hp as (v & _ & _ & Hos & _ & Hls).
  destruct Hi as [V1 V2 V3 V4 V5 (wal & V6 & V6' & V6'') V7 V8 V9 V10 V11 V12]. simpl in *. split; simpl; try done.
  - destruct V1 as [R1 R2 R3 R4 R5 R6 R7 R8]. split; simpl; try done.
    + by eexists.
    + unfold compacted_floor. lia.
    + rewrite Forall_elem in *. intros s Hin. specialize (R8 s Hin). specialize (Hls s Hin). unfold compacted_floor. change (whole (compacted g plan outs)) with (whole g). lia.
  - by rewrite Hfl.
  - by exists wal.
Qed.

Lemma compact_clean_spec env db fs g k :
  db_inv (mkState db fs CompactPublished) g k -> db_inv (mkState db (compact_clean env db fs) (background_again db)) g k.
Proof.
  intros Hi. pose proof (iv_background _ _ _ Hi) as Hcur. simpl in *. pose proof Hcur as (Hmf & _).
  destruct (iv_disk _ _ _ Hi) as (wal & _ & Hd & _). simpl in Hd.
  assert (same_relevant (directory_ db) (dk_manifest k) fs (compact_clean env db fs)) as Hsame.
  { unfold compact_clean. rewrite <- Hmf. apply clean_table_relevant; [apply (di_wf _ _ _ _ _ _ Hd)|apply Hd]. }
  eapply db_inv_files; [exact Hi|exact Hsame| | |].
  - intros t Ht. apply Hsame, relevant_table. by rewrite Hmf.
  - intros n Hn. pose proof (iv_unused _ _ _ Hi n Hn) as Hnone. simpl in Hnone. rewrite Hnone. by apply clean_table_absent.
  - unfold background_again. by destruct (shutting_down_ db && _).
Qed.

End steps.
