(* ===== verification/DbRefine.v ===== *)
(** The database refines the store: every interleaving of client calls with the
    sections of the background thread is an execution of the abstract store, in
    which reads see the history. *)
From S2P Require Import Prelude Posix Status Coding InternalKey Mvcc WriteBatch Wal BlockBuilder SSTableBuilder Iterator SSTableReader Arena SkipList MemTable MergingIterator DbIterator Filename Level Manifest Snapshot DbFiles Version Compaction CompactionReads CompactionBuild FlushMemTable DbImpl History DbState DbLog DbDisk DbSteps DbWrite DbFlush DbCompact.

Section steps.
Context `{SystemAllocator} (strerror : Z -> string) `{!SystemAllocatorLaws}.

Lemma background_choose_spec db fs g k : db_inv (mkState db fs Idle) g k -> db_inv (mkState db fs (background_choose db)) g k.
Proof.
  intros Hi. pose proof (iv_background _ _ _ Hi) as Hcur. simpl in Hcur. eapply db_inv_files; [exact Hi|done..|]. unfold background_choose.
  destruct (shutting_down_ db) eqn:Es, (immutable_ db) as [im|] eqn:Ei, (hasCompactionWork db) eqn:Ec; simpl; try done; split; try done; rewrite Ei; by eexists.
Qed.

Lemma failed_spec status db fs g k : db_inv (mkState db fs (Failed status)) g k ->
  db_inv (mkState (set_background db (shutting_down_ db) status) fs Stopped) g k.
Proof.
  intros Hi. pose proof (iv_background _ _ _ Hi) as [_ Hcur]. apply (flags_spec _ _ _ _ _ (shutting_down_ db) status) in Hi.
  by eapply db_inv_files.
Qed.

(** The parts and the disk of a step are those the section's lemma gives. *)
Ltac exact_inv := match goal with Hi' : db_inv ?s' ?g' ?k' |- exists g0 k0, db_inv ?s' g0 k0 /\ _ => exists g', k'; by split_and! end.

(** A section of the background thread. *)
Lemma background_step_spec s s' g k : db_inv s g k -> background_step strerror s s' ->
  exists g' k', db_inv s' g' k' /\ store_of g' = store_of g /\ durable_writes k' = durable_writes k /\ dk_failed k' = dk_failed k.
Proof.
  intros Hi Hs. destruct Hs.
  - exists g, k. split; [|done]. by apply background_choose_spec.
  - destruct (flush_build_spec strerror env db fs g k Hi) as (fs1 & r1 & Hb & Hi'); [eapply immutable_room; [exact Hi|apply (iv_background _ _ _ Hi)|done]|]. simplify_eq. exact_inv.
  - destruct (flush_candidate_spec _ _ _ _ _ _ Hi) as (c & v & l & Hc & Hi'). simplify_eq. exact_inv.
  - destruct (flush_commit_spec strerror env _ _ _ _ _ _ _ _ Hi) as (fs1 & st & k' & Hc & Hi' & Hdu & Hfa). simplify_eq. exact_inv.
  - destruct (flush_publish_spec _ _ _ _ _ _ _ Hi) as (g' & Hi' & Hst). exact_inv.
  - exists g, k. split; [|done]. by apply flush_clean_spec.
  - destruct (compact_pick_spec _ _ _ _ Hi) as (p & Hp & Hi'); [done|]. simplify_eq. exact_inv.
  - pose proof (compact_number_spec _ _ _ _ _ _ Hi) as Hn. rewrite H1 in Hn. exact_inv.
  - destruct (ri_version _ _ (iv_reads _ _ _ Hi)) as (v & Hv & Hvh & _). destruct (H1 v (runs g) Hv Hvh) as [Hr Hf].
    destruct (compact_build_spec strerror env fuel plan numbers db fs g k Hi Hr Hf) as (fs1 & n & r1 & Hb & Hi'). simplify_eq. exact_inv.
  - destruct (compact_candidate_spec _ _ _ _ _ _ Hi) as (c & v & Hc & Hi'). simplify_eq. exact_inv.
  - destruct (compact_commit_spec strerror env _ _ _ _ _ _ _ _ Hi) as (fs1 & st & k' & Hc & Hi' & Hdu & Hfa). simplify_eq. exact_inv.
  - destruct (compact_publish_spec _ _ _ _ _ _ _ Hi) as (db1 & g' & Hp & Hi' & Hst). rewrite H1 in Hp. injection Hp as <-. exact_inv.
  - exists g, k. split; [|done]. by apply compact_clean_spec.
  - exists g, k. split; [|done]. by apply failed_spec.
Qed.

Lemma db_step_spec s e s' g k : db_inv s g k -> db_step strerror s e s' ->
  exists g' k', db_inv s' g' k' /\ store_step (store_of g) e (store_of g') /\ durable_writes k `prefix_of` durable_writes k' /\
    (dk_failed k' = None \/ dk_failed k' = dk_failed k \/ exists b st, dk_failed k' = Some b /\ e = Wrote b st /\ ok st = false).
Proof.
  intros Hi Hs. destruct Hs as [env d batch db fs bg db' fs' r Hwf Hw|db fs bg db' s Hc Hn|db fs bg db' s Hn|db fs bg|s s' Hb].
  - destruct (write_spec strerror env d batch db fs bg g k Hi Hwf) as (db1 & fs1 & r1 & g' & k' & Hw' & Hi' & Hst & Hdu & _ & Hfa). rewrite Hw in Hw'. simplify_eq.
    exists g', k'. split_and!; try done. destruct Hfa as [?|[?|(? & st & -> & ?)]]; [by left|by right; left|right; right; eauto].
  - destruct (snapshot_spec _ _ _ _ _ Hi Hc) as (g' & Hi' & Hst). rewrite Hn in Hi'. unfold newSnapshot in Hn. simplify_eq. exists g', k. split_and!; auto.
  - destruct (release_spec _ _ _ _ _ _ _ Hi Hn) as (g' & Hi' & Hst). exists g', k. split_and!; auto.
  - exists g, k. split; [by apply flags_spec|split; [constructor|auto]].
  - destruct (background_step_spec _ _ _ _ Hi Hb) as (g' & k' & Hi' & Hst & Hdu & Hfa). exists g', k'. rewrite Hst, Hdu, Hfa. split; [done|]. split; [constructor|auto].
Qed.

(** ** Executions *)

Inductive db_run : State -> list event -> State -> Prop :=
  | db_run_nil s : db_run s [] s
  | db_run_cons s e s' es s'' : db_step strerror s e s' -> db_run s' es s'' -> db_run s (e :: es) s''.

Lemma db_run_spec s es s' : db_run s es s' -> forall g k, db_inv s g k ->
  exists g' k', db_inv s' g' k' /\ store_run (store_of g) es (store_of g') /\ durable_writes k `prefix_of` durable_writes k' /\
    (dk_failed k' = None \/ dk_failed k' = dk_failed k \/ exists b st, dk_failed k' = Some b /\ Wrote b st ∈ es /\ ok st = false).
Proof.
  induction 1 as [s|s e s1 es s2 Hs _ IH]; intros g k Hi; [exists g, k; split; [done|split; [constructor|auto]]|].
  destruct (db_step_spec _ _ _ _ _ Hi Hs) as (g1 & k1 & Hi1 & Hst & Hd & Hf). destruct (IH g1 k1 Hi1) as (g2 & k2 & Hi2 & Hr & Hd' & Hf').
  exists g2, k2. split; [done|]. split; [by econstructor|]. split; [by etrans|].
  destruct Hf' as [?|[E|(b & st & ? & ? & ?)]]; [by left| |right; right; exists b, st; set_solver]. rewrite E.
  destruct Hf as [?|[?|(b & st & ? & -> & ?)]]; [by left|by right; left|right; right; exists b, st; set_solver].
Qed.

End steps.
