(* ===== verification/DbRecovery.v ===== *)
(** Opening a database (src/db/db_impl.cc: open, recoverDatabase and what they
    call): what a crash leaves of a database directory is recovered, every synced
    write included, and a new directory is initialized. *)
From S2P Require Import Prelude Posix Status Coding InternalKey Mvcc WriteBatch Wal SSTableBuilder Iterator SSTableReader Arena SkipList MemTable Filename Level Manifest Snapshot DbFiles Version Compaction CompactionReads CompactionBuild DbImpl History DbState DbLog DbDisk DbSteps DbWrite DbFlush.

Section recovery.
Context `{SystemAllocatorLaws} (strerror : Z -> string).

(** ** Replaying one log *)

(** A log that was cut off, possibly inside a record, is replayed up to its last
    complete batch. *)
Lemma replay_spec batches : forall ps p j c evs reader db first h fuel,
  Forall benign_read evs -> log_of first batches ps -> valid_payload p -> (j < length (record_bytes p))%nat ->
  r_rest reader = take c (log_bytes ps ++ take j (record_bytes p)) -> (length (r_rest reader) < fuel)%nat ->
  0 <= valid_bytes_ reader -> valid_bytes_ reader + len (log_bytes ps) <= kUint64Max ->
  last_sequence_ db + 1 = first -> 1 <= first -> first <= kMaxSequenceNumber + 1 ->
  holds (memtable_ db) h -> numbered (first - len h) (h ++ batch_writes first batches) ->
  2 * kDefaultBlockSize + writes_room (h ++ batch_writes first batches) <= kUint64Max ->
  exists n m reader', replay_loop strerror fuel evs reader db =
      Some (reader', set_memtable db m (last_sequence_ db + len (concat (take n batches))), success) /\
    holds m (h ++ batch_writes first (take n batches)) /\ (n <= length batches)%nat /\
    valid_bytes_ reader' = valid_bytes_ reader + len (log_bytes (take n ps)) /\
    (length (log_bytes (take n ps)) <= c)%nat /\ (n = length batches \/ (c < length (log_bytes (take (S n) ps)))%nat).
Proof.
  induction batches as [|b batches IH]; intros ps p j c evs reader db first h fuel Hev Hlog Hp Hj Hrest Hfuel Hvb Hmax Hlast Hf Hfm Hh Hn Hroom;
    (destruct fuel as [|fuel]; [lia|]); (destruct ps as [|q ps]; [try done|try done]); cbn [replay_loop].
  - destruct (readNext_torn strerror reader evs p (Nat.min c j) Hev Hp) as (r' & evs' & -> & Hvb'); [lia|by rewrite Hrest; simpl; rewrite take_take|].
    exists 0%nat, (memtable_ db), r'. simpl. rewrite app_nil_r, Z.add_0_r. split_and!; [by destruct db|done|lia|unfold log_bytes, len; simpl; lia|lia|by left].
  - destruct Hlog as (He & Hwf & Hlog). destruct (encode_facts b first q ltac:(lia) He) as (_ & Hb1 & Hb2 & Hbn & Hv & Hbr).
    assert (log_bytes (q :: ps) = record_bytes q ++ log_bytes ps) as Hlb by done. rewrite Hlb, <- app_assoc in Hrest. cbn [batch_writes] in Hn, Hroom.
    rewrite len_log_cons in Hmax. pose proof (len_nonneg (log_bytes ps)). pose proof (len_nonneg (record_bytes q)).
    destruct (decide (c < length (record_bytes q))%nat) as [Hc|Hc].
    + destruct (readNext_torn strerror reader evs q c Hev Hv Hc) as (r' & evs' & -> & Hvb'); [by rewrite Hrest, take_app_le by lia|].
      exists 0%nat, (memtable_ db), r'. simpl take. simpl concat. cbn [batch_writes]. rewrite app_nil_r, len_nil, Z.add_0_r. simpl log_bytes.
      split_and!; [by destruct db|done|simpl; lia|unfold log_bytes, len; simpl; lia|simpl; lia|].
      right. unfold log_bytes. simpl. rewrite app_nil_r. done.
    + assert (r_rest reader = record_bytes q ++ take (c - length (record_bytes q)) (log_bytes ps ++ take j (record_bytes p))) as Hrest'
        by (by rewrite Hrest, take_app, take_ge by lia).
      destruct (readNext_record strerror reader evs q _ Hev Hv Hrest') as (evs' & Hev' & ->).
      rewrite (decode_encode b first q) by (done || lia). rewrite Hlast, wrap64_small by (unfold kMaxSequenceNumber, kUint64Max in *; lia).
      rewrite Z.eqb_refl. cbn [negb].
      rewrite app_assoc in Hn, Hroom. pose proof Hn as [Hn1 _]%numbered_app. rewrite !writes_room_app in Hroom.
      pose proof (writes_room_nonneg (batch_writes (first + len b) batches)) as Hwr. pose proof Hh as (es & _ & _ & Hu).
      destruct (holds_apply (memtable_ db) (first - len h) h b first Hh Hn1) as (m & -> & Hm); [lia|unfold kMaxSequenceNumber, kUint64Max in *; lia|lia|].
      cbn [mbind option_bind]. unfold wb_count. rewrite (wrap64_small (last_sequence_ db + len b)) by (unfold kMaxSequenceNumber, kUint64Max in *; lia).
      rewrite (wrap64_small (valid_bytes_ reader + len (record_bytes q))) by lia.
      set (reader1 := mkWalReader _ _ _). set (db1 := set_memtable db m (last_sequence_ db + len b)).
      assert (valid_bytes_ reader1 = valid_bytes_ reader + len (record_bytes q)) as Hvb1 by done.
      destruct (IH ps p j (c - length (record_bytes q))%nat evs' reader1 db1 (first + len b) (h ++ writes_of b first) fuel)
        as (n & m' & r' & Hrun & Hm' & Hnl & Hvb2 & Hfit & Hcase); try done.
      * rewrite Hrest' in Hfuel. rewrite length_app in Hfuel. pose proof (length_record q). unfold reader1. simpl r_rest. lia.
      * lia.
      * lia.
      * unfold db1. simpl. lia.
      * lia.
      * rewrite len_app, len_writes_of. by replace (first + len b - (len h + len b)) with (first - len h) by lia.
      * rewrite !writes_room_app. lia.
      * exists (S n), m', r'. rewrite Hrun. cbn [take concat batch_writes]. rewrite len_app, app_assoc, len_log_cons. split_and!; [|done|simpl; lia|lia| |].
        -- unfold db1. simpl. by rewrite Z.add_assoc.
        -- unfold log_bytes in *. simpl. rewrite length_app. lia.
        -- destruct Hcase as [->|Hlt]; [by left|right]. unfold log_bytes in *. simpl in *. rewrite length_app. lia.
Qed.

Definition wal_file_benign (env : WalFileEnv) : Prop :=
  wf_open env = None /\ Forall benign_read (wf_reads env) /\ wf_size env = None /\ wf_resize env = None.

(** The file of a log that may have been cut off.  After a crash of the machine
    ([None]) what is left is on the disk; after an exit of the process at least
    the first [synced] records are. *)
Definition cut_log (f : LogFile) (ps : list bytes) (kept : nat) (synced : option nat) : Prop :=
  match synced with
  | None => durable f = length (contents f)
  | Some synced => (synced <= kept)%nat /\ (length (log_bytes (take synced ps)) <= durable f)%nat
  end /\ exists p j c, valid_payload p /\ (j < length (record_bytes p))%nat /\
    contents f = take c (log_bytes ps ++ take j (record_bytes p)) /\ (length (log_bytes (take kept ps)) <= c)%nat.

(** What recovery leaves of a log of which [n] records are replayed: all of it, or
    the file cut at the end of the last record. *)
Definition kept_file (f f' : LogFile) (ps : list bytes) (n : nat) : Prop :=
  contents f' = log_bytes (take n ps) /\
  (f' = f \/ (length (contents f') < length (contents f))%nat /\ durable f' = Nat.min (length (contents f')) (durable f)).

(** A complete log. *)
Lemma complete_cut f ps : contents f = log_bytes ps -> cut_log f ps (length ps) (Some 0%nat).
Proof.
  intros Hf. split; [simpl; split; [lia|unfold log_bytes; simpl; lia]|]. exists [x00], 0%nat, (length (log_bytes ps)). rewrite take_0, app_nil_r, !firstn_all.
  split_and!; [done|rewrite length_record; lia|done|lia].
Qed.

Lemma kept_complete f f' ps n : contents f = log_bytes ps -> kept_file f f' ps n -> (length ps <= n)%nat -> f' = f.
Proof. intros Hf [Hc [?|[Hlt _]]] Hn; [done|]. rewrite Hc, take_ge, Hf in Hlt by done. lia. Qed.

Lemma kept_synced f f' ps n kept synced : kept_file f f' ps n -> cut_log f ps kept synced -> (kept <= n)%nat ->
  (length (log_bytes (take (default n synced) (take n ps))) <= durable f')%nat.
Proof.
  intros [Hc Hf] [Hs _] Hn. destruct synced as [s|]; simpl; rewrite take_take.
  - destruct Hs as [Hsk Hs]. rewrite Nat.min_l by lia. pose proof (prefix_length _ _ (log_bytes_take s n ps ltac:(lia))). rewrite <- Hc in *. destruct Hf as [->|[_ ->]]; lia.
  - rewrite Nat.min_id, <- Hc. destruct Hf as [->|[Hlt ->]]; lia.
Qed.

Lemma recoverWalFile_spec env path batches ps kept synced db fs f first h :
  wal_file_benign env -> fs !! path = Some f -> cut_log f ps kept synced -> (kept <= length batches)%nat -> log_of first batches ps ->
  len (log_bytes ps) <= kUint64Max -> last_sequence_ db + 1 = first -> 1 <= first -> first <= kMaxSequenceNumber + 1 ->
  holds (memtable_ db) h -> numbered (first - len h) (h ++ batch_writes first batches) ->
  2 * kDefaultBlockSize + writes_room (h ++ batch_writes first batches) <= kUint64Max ->
  exists n m f', recoverWalFile strerror env path db fs =
      Some (set_memtable db m (last_sequence_ db + len (concat (take n batches))), <[path := f']> fs, success) /\
    kept_file f f' ps n /\ holds m (h ++ batch_writes first (take n batches)) /\ (kept <= n <= length batches)%nat.
Proof.
  intros (Ho & Hev & Hsz & Hrs) Hf (_ & p & j & c & Hp & Hj & Hc & Hkept) Hk Hlog Hmax Hlast Hf1 Hfm Hh Hn Hroom.
  unfold recoverWalFile, reader_open. rewrite Ho, Hf. unfold open_reader. cbn [r_rest].
  destruct (replay_spec batches ps p j c (wf_reads env) (mkWalReader (contents f) path 0) db first h (S (length (contents f))))
    as (n & m & reader & -> & Hm & Hnl & Hvb & Hfit & Hcase); [done|done|done|done|done|simpl; lia|done|done|done|done|done|done|done|done|].
  cbn [mbind option_bind valid_bytes_] in *. rewrite Z.add_0_l in Hvb. change (negb (ok success)) with false. cbn iota. rewrite Hsz, Hvb.
  assert (log_bytes (take n ps) = take (length (log_bytes (take n ps))) (contents f)) as Hpre.
  { rewrite Hc, take_take, Nat.min_l by done. pose proof (log_of_length _ _ _ Hlog) as Hlen.
    assert (log_bytes (take n ps) `prefix_of` log_bytes ps) as [x ->] by (rewrite <- (firstn_all ps) at 2; apply log_bytes_take; lia).
    by rewrite <- app_assoc, take_app_length. }
  assert (kept <= n)%nat as Hkn.
  { destruct (Nat.le_gt_cases kept n) as [|Hgt]; [done|]. exfalso. destruct Hcase as [->|Hlt]; [lia|].
    pose proof (prefix_length _ _ (log_bytes_take (S n) kept ps ltac:(lia))). lia. }
  destruct (Z.ltb_spec (len (log_bytes (take n ps))) (len (contents f))) as [Hlt|Hge].
  - rewrite Hrs. exists n, m. eexists. split; [done|]. unfold kept_file, truncated. simpl. rewrite <- length_len, <- Hpre. unfold len in Hlt. repeat split; try done. right. lia.
  - rewrite (take_ge (contents f)) in Hpre by (unfold len in Hge; lia). exists n, m, f. rewrite (insert_id fs path f Hf). split; [done|]. split; [split; [done|by left]|done].
Qed.

(** ** Replaying the logs in order *)

Context (directory : string).
Notation W n := (walFileName directory n).

Fixpoint segments_complete (fs : Directory) (first : Z) (segments : list Segment) : Prop :=
  match segments with
  | [] => True
  | s :: segments =>
      (exists f ps, fs !! W (sg_number s) = Some f /\ contents f = log_bytes ps /\ log_of first (sg_batches s) ps /\ len (log_bytes ps) <= kUint64Max) /\
      segments_complete fs (first + len (concat (sg_batches s))) segments
  end.

(** The logs before the last are replayed whole. *)
Lemma recover_segments envs segments numbers : forall db fs first h,
  (forall n, wal_file_benign (envs n)) -> directory_ db = directory -> segments_complete fs first segments ->
  last_sequence_ db + 1 = first -> 1 <= first -> holds (memtable_ db) h ->
  numbered (first - len h) (h ++ batch_writes first (segments_batches segments)) ->
  first + len (concat (segments_batches segments)) <= kMaxSequenceNumber + 1 ->
  2 * kDefaultBlockSize + writes_room (h ++ batch_writes first (segments_batches segments)) <= kUint64Max ->
  exists m w, recover_files strerror envs (map sg_number segments ++ numbers) db fs =
      recover_files strerror envs numbers (set_wal (set_memtable db m (last_sequence_ db + len (concat (segments_batches segments)))) (wal_ db) w) fs /\
    holds m (h ++ batch_writes first (segments_batches segments)).
Proof.
  induction segments as [|s segments IH]; intros db fs first h Henv Hdir Hseg Hlast Hf Hh Hn Hmax Hroom.
  { exists (memtable_ db), (wal_number_ db). simpl. rewrite app_nil_r. split; [|done]. f_equal. destruct db; simpl in *. by rewrite Z.add_0_r. }
  destruct Hseg as [(f & ps & Hf1 & Hcon & Hlog & Hlen) Hseg]. unfold segments_batches in Hn, Hmax, Hroom |- *. cbn [map concat app] in Hn, Hmax, Hroom |- *.
  fold (segments_batches segments) in Hn, Hmax, Hroom |- *. rewrite batch_writes_app, app_assoc in Hn, Hroom |- *. rewrite concat_app, len_app in Hmax |- *.
  pose proof (len_nonneg (concat (sg_batches s))). pose proof (len_nonneg (concat (segments_batches segments))).
  pose proof Hn as [Hn1 _]%numbered_app. rewrite (writes_room_app (h ++ _)) in Hroom.
  pose proof (writes_room_nonneg (batch_writes (first + len (concat (sg_batches s))) (segments_batches segments))).
  pose proof (log_of_length _ _ _ Hlog) as Hpl. cbn [recover_files]. rewrite Hdir.
  destruct (recoverWalFile_spec (envs (sg_number s)) (W (sg_number s)) (sg_batches s) ps (length ps) (Some 0%nat) db fs f first h)
    as (n & m & f' & -> & Hkf & Hm & Hkn); [done|done|by apply complete_cut|lia|done|done|done|done|lia|done|done|lia|].
  cbn [mbind option_bind]. change (negb (ok success)) with false. cbn iota. rewrite (kept_complete _ _ _ _ Hcon Hkf), (insert_id fs) by (done || lia).
  rewrite (take_ge (sg_batches s)) in Hm |- * by lia.
  set (db1 := set_wal _ _ _). destruct (IH db1 fs (first + len (concat (sg_batches s))) (h ++ batch_writes first (sg_batches s)))
    as (m' & w & Hrun & Hm'); [done|done|done|simpl; lia|lia|done| |lia|rewrite writes_room_app; lia|].
  { rewrite len_app, len_batch_writes. by replace (first + len (concat (sg_batches s)) - (len h + len (concat (sg_batches s)))) with (first - len h) by lia. }
  exists m', w. split; [|done]. rewrite Hrun. unfold db1. simpl. by rewrite Z.add_assoc.
Qed.

(** ** Which logs are replayed *)

Lemma live_logs numbers oldest logs :
  Sorted Z.le numbers -> StronglySorted Z.lt logs -> filter (fun n => oldest <= n) numbers ≡ₚ logs ->
  exists i, lower_bound (fun n => Some (n <? oldest)) numbers = Some i /\ drop i numbers = logs.
Proof.
  intros Hs Hl Hp. apply Sorted_StronglySorted in Hs; [|intros x y z; lia]. set (p := fun n => n <? oldest).
  assert (Forall (fun n => p n = false) (dropwhile p numbers)) as Hd.
  { clear Hp. induction Hs as [|n numbers Hs IH Hle]; [constructor|]. cbn [dropwhile]. destruct (p n) eqn:E; [done|]. constructor; [done|].
    eapply Forall_impl; [|exact Hle]. unfold p in *. intros m. lia. }
  exists (length (takewhile p numbers)). split; [apply (lower_bound_spec _ p); [by rewrite Forall_elem|done]|].
  pose proof (takewhile_dropwhile p numbers) as Htd. rewrite <- Htd at 2. rewrite drop_app_length.
  assert (filter (fun n => oldest <= n) numbers = dropwhile p numbers) as Hf.
  { rewrite <- Htd at 1. rewrite list.filter_app. pose proof (takewhile_all p numbers) as Ht. clear - Hd Ht.
    assert (filter (fun n => oldest <= n) (takewhile p numbers) = []) as ->.
    - induction Ht as [|n l Hn _ IH]; [done|]. rewrite filter_cons_False, IH; [done|]. unfold p in Hn. lia.
    - simpl. induction Hd as [|n l Hn _ IH]; [done|]. rewrite filter_cons_True, IH; [done|]. unfold p in Hn. lia. }
  rewrite Hf in Hp. apply (StronglySorted_unique Z.le); [| |done].
  - rewrite <- Htd in Hs. by apply StronglySorted_app_1_r in Hs.
  - clear - Hl. induction Hl as [|n l Hl IH Hn]; constructor; [done|]. eapply Forall_impl; [|exact Hn]. simpl. lia.
Qed.

Definition wal_of (path : string) : option Z := match parseNumberedFileName path with Some (n, kWal) => Some n | _ => None end.

(** A listing without repetitions names every live log once. *)
Lemma listed_logs oldest entries :
  NoDup entries -> (forall path n, path ∈ entries -> wal_of path = Some n -> oldest <= n -> path = W n) ->
  NoDup (filter (fun n => oldest <= n) (omap wal_of entries)).
Proof.
  induction entries as [|path entries IH]; intros Hnd Hcan; [constructor|]. apply list.NoDup_cons in Hnd as [Hni Hnd]. simpl.
  assert (NoDup (filter (fun n => oldest <= n) (omap wal_of entries))) as Hr by (apply IH; [done|]; intros q n Hq; apply Hcan; set_solver).
  destruct (wal_of path) as [n|] eqn:E; [|done]. rewrite filter_cons. destruct (decide (oldest <= n)); [|done]. apply list.NoDup_cons. split; [|done].
  intros Hin. apply list_elem_of_filter in Hin as [_ Hin]. apply list_elem_of_omap in Hin as (q & Hq & Eq).
  apply Hni. rewrite (Hcan path n), <- (Hcan q n); [done|set_solver|done|done|set_solver|done|done].
Qed.

(** ** What is found when a database is opened *)

(** A readable manifest with its tables, complete older logs, and a last log of
    which at least [kept] batches survive. *)
Record image (fs : Directory) (number : Z) (k : Disk) (kept : nat) (synced : option nat) : Prop := {
  ig_manifest : let c := sealed (manifest_contents (dk_manifest k)) in
    fs !! manifestFileName directory = Some (mkLogFile c (length c)) /\ len c <= kMaximumManifestSize;
  ig_wf : manifest_wf (dk_manifest k);
  ig_valid : validateState (dk_manifest k) = Some None;
  ig_stored : levels_hold (stored directory fs) (mf_levels (dk_manifest k)) (dk_runs k);
  ig_runs : runs_hold (dk_runs k) (dk_tables k) (dk_floor k);
  ig_floor : 0 <= dk_floor k <= len (dk_tables k);
  ig_flushed : flushed_sequence (dk_manifest k) = len (dk_tables k);
  ig_oldest : head (log_numbers k number) = Some (oldest_wal_number (dk_manifest k));
  ig_sorted : StronglySorted Z.lt (log_numbers k number);
  ig_positive : Forall (fun n => 0 < n <= kUint64Max) (log_numbers k number);
  ig_segments : segments_complete fs (len (dk_tables k) + 1) (dk_segments k);
  ig_current : exists f ps, fs !! W number = Some f /\ cut_log f ps kept synced /\ (kept <= length (dk_batches k))%nat /\
    log_of (len (dk_tables k) + 1 + len (concat (segments_batches (dk_segments k)))) (dk_batches k) ps /\ len (log_bytes ps) <= kUint64Max;
  ig_history : history_ok (dk_tables k ++ batch_writes (len (dk_tables k) + 1) (segments_batches (dk_segments k) ++ dk_batches k));
  ig_room : 2 * kDefaultBlockSize + writes_room (batch_writes (len (dk_tables k) + 1) (segments_batches (dk_segments k) ++ dk_batches k)) <= kUint64Max;
  ig_wals : forall path n, is_Some (fs !! path) -> parseNumberedFileName path = Some (n, kWal) -> oldest_wal_number (dk_manifest k) <= n ->
    path = W n /\ n ∈ log_numbers k number;
}.

(** The history of an image of which [n] batches of the last log are read. *)
Definition recovered (k : Disk) (n : nat) : history :=
  batch_writes (len (dk_tables k) + 1) (segments_batches (dk_segments k) ++ take n (dk_batches k)).
Definition recovered_disk (k : Disk) (n : nat) (synced : option nat) : Disk :=
  with_log k (dk_segments k) (take n (dk_batches k)) None (default n synced).

Lemma recoverWalFiles_spec envs numbers db fs number k kept synced :
  image fs number k kept synced -> (forall n, wal_file_benign (envs n)) -> manifest_ db = dk_manifest k -> directory_ db = directory -> holds (memtable_ db) [] ->
  Sorted Z.le numbers -> filter (fun n => oldest_wal_number (dk_manifest k) <= n) numbers ≡ₚ log_numbers k number ->
  exists n m ps f f', (kept <= n <= length (dk_batches k))%nat /\ holds m (recovered k n) /\ cut_log f ps kept synced /\ kept_file f f' ps n /\
    log_of (len (dk_tables k) + 1 + len (concat (segments_batches (dk_segments k)))) (dk_batches k) ps /\
    recoverWalFiles strerror envs None numbers db fs =
      Some (set_wal (set_memtable db m (len (dk_tables k ++ recovered k n))) (Some (mkWalWriter f' (W number) success)) number,
            <[W number := f']> fs, success).
Proof.
  intros Hi Henv Hm Hdir Hh Hs Hp. destruct (live_logs numbers _ _ Hs (ig_sorted _ _ _ _ _ Hi) Hp) as (i & Hlb & Hdrop).
  assert (oldest_wal_number (dk_manifest k) <> 0) as Hnz.
  { pose proof (ig_oldest _ _ _ _ _ Hi) as Ho. pose proof (ig_positive _ _ _ _ _ Hi) as Hpos. destruct (log_numbers k number); [done|]. injection Ho as ->.
    apply Forall_cons_iff in Hpos as [? _]. lia. }
  unfold recoverWalFiles. rewrite Hm. destruct (Z.eqb_spec (oldest_wal_number (dk_manifest k)) 0) as [|_]; [done|]. rewrite Hlb. cbn [mbind option_bind].
  assert (numbers !! i = Some (oldest_wal_number (dk_manifest k))) as ->.
  { rewrite <- (ig_oldest _ _ _ _ _ Hi), <- Hdrop, head_lookup, lookup_drop. f_equal. lia. }
  rewrite Z.eqb_refl, Hdrop. cbn [negb]. unfold log_numbers. set (db0 := set_memtable db _ _).
  pose proof (ig_history _ _ _ _ _ Hi) as [Hn Hmax]. pose proof (ig_room _ _ _ _ _ Hi) as Hroom. destruct (ig_current _ _ _ _ _ Hi) as (f & ps & Hf & Hcut & Hk & Hlog & Hlen).
  set (first := len (dk_tables k) + 1) in *. set (segs := segments_batches (dk_segments k)) in *.
  apply numbered_app in Hn as [_ Hn]. replace (1 + len (dk_tables k)) with first in Hn by (unfold first; lia).
  rewrite len_app, len_batch_writes, concat_app, len_app in Hmax. rewrite batch_writes_app in Hn, Hroom. rewrite writes_room_app in Hroom. pose proof Hn as [Hn1 _]%numbered_app.
  pose proof (writes_room_nonneg (batch_writes (first + len (concat segs)) (dk_batches k))).
  pose proof (len_nonneg (dk_tables k)). pose proof (len_nonneg (concat segs)). pose proof (len_nonneg (concat (dk_batches k))).
  destruct (recover_segments envs (dk_segments k) [number] db0 fs first []) as (m1 & w & -> & Hm1);
    [done|done|apply Hi|simpl; rewrite (ig_flushed _ _ _ _ _ Hi); done|unfold first; lia|done| |fold segs; unfold first in *; lia|simpl; fold segs; lia|].
  { simpl. change (len (@nil mt_write)) with 0. by rewrite Z.sub_0_r. }
  simpl app in Hm1. fold segs in Hm1 |- *. cbn [recover_files]. set (db1 := set_wal (set_memtable db0 m1 _) (wal_ db0) w). change (directory_ db1) with (directory_ db). rewrite Hdir.
  assert (last_sequence_ db1 = len (dk_tables k) + len (concat segs)) as Hl1 by (simpl; by rewrite (ig_flushed _ _ _ _ _ Hi)).
  destruct (recoverWalFile_spec (envs number) (W number) (dk_batches k) ps kept synced db1 fs f (first + len (concat segs)) (batch_writes first segs))
    as (n & m & f' & -> & Hkf & Hm2 & Hkn); [done|done|done|done|done|done|rewrite Hl1; unfold first; lia|unfold first; lia|unfold first in *; lia|done| |rewrite writes_room_app; lia|].
  { rewrite len_batch_writes. by replace (first + len (concat segs) - len (concat segs)) with first by lia. }
  cbn [mbind option_bind]. change (negb (ok success)) with false. cbn iota. cbn [mbind option_bind]. change (negb (ok success)) with false. cbn iota.
  unfold wal_open. cbn [wal_number_ set_wal set_memtable directory_]. change (directory_ db1) with (directory_ db). rewrite Hdir, lookup_insert_eq. cbn [default from_option id].
  rewrite insert_insert_eq. exists n, m, ps, f, f'. split; [done|]. split; [unfold recovered; by rewrite batch_writes_app|]. split; [done|]. split; [done|]. split; [done|].
  do 3 f_equal. unfold recovered. fold first segs. rewrite Hl1, len_app, len_batch_writes, concat_app, len_app. unfold db1, db0. simpl. by rewrite Z.add_assoc.
Qed.

Lemma segments_complete_hold fs fs' segments : forall first,
  (forall s, s ∈ segments -> fs' !! W (sg_number s) = fs !! W (sg_number s)) -> segments_complete fs first segments -> segments_hold directory fs' first segments.
Proof.
  induction segments as [|s segments IH]; intros first Hsame; [done|]. intros [(f & ps & Hf & Hcon & Hl & _) Hs]. split.
  - exists f, ps. rewrite Hsame by set_solver. done.
  - apply IH; [|done]. intros s' Hs'. apply Hsame. set_solver.
Qed.

(** The directory after the last log was cut to its complete batches. *)
Lemma image_disk fs number k kept synced n ps f f' :
  image fs number k kept synced -> (kept <= n <= length (dk_batches k))%nat -> cut_log f ps kept synced -> kept_file f f' ps n ->
  log_of (len (dk_tables k) + 1 + len (concat (segments_batches (dk_segments k)))) (dk_batches k) ps ->
  disk_inv directory (<[W number := f']> fs) (mkWalWriter f' (W number) success) number
    (recovered_disk k n synced) (dk_tables k ++ recovered k n).
Proof.
  intros [[I1 I1'] I2 I3 I4 I5 I6 I7 I8 I9 I10 I11 _ I13 I14 I15] Hn Hcut Hkf Hlog.
  assert (0 < number <= kUint64Max) as Hnum by (rewrite Forall_elem in I10; apply I10; unfold log_numbers; set_solver).
  pose proof (wal_parse directory number Hnum) as Hparse. pose proof (log_of_take n _ _ _ Hlog) as Hlogn.
  assert (Forall valid_payload (take n ps)) as Hvp.
  { destruct I13 as [_ I13]. rewrite len_app, len_batch_writes, concat_app, len_app in I13. pose proof (len_nonneg (concat (dk_batches k))).
    pose proof (len_nonneg (dk_tables k)). pose proof (len_nonneg (concat (segments_batches (dk_segments k)))).
    eapply log_of_facts in Hlogn as (_ & ? & _); [done|lia|lia]. }
  split; cbn [recovered_disk with_log dk_manifest dk_runs dk_tables dk_floor dk_segments dk_batches dk_failed dk_synced]; try done.
  - rewrite lookup_insert_ne; [done|]. intros E. by rewrite E, manifest_unnumbered in Hparse.
  - eapply levels_stored_frame; [|exact I4]. intros t _. apply lookup_insert_ne, not_eq_sym, table_not_log.
  - assert (forall s, s ∈ dk_segments k -> sg_number s <> number) as Hne.
    { intros s Hs E. unfold log_numbers in I9. pose proof (StronglySorted_app_1_elem_of Z.lt _ _ (sg_number s) number I9 ltac:(by apply list_elem_of_fmap_2) ltac:(set_solver)). lia. }
    assert (forall s, s ∈ dk_segments k -> 0 < sg_number s <= kUint64Max) as Hpos.
    { intros s Hs. rewrite Forall_elem in I10. apply I10. unfold log_numbers. apply elem_of_app. left. by apply list_elem_of_fmap_2. }
    eapply segments_complete_hold; [|exact I11]. intros s Hs. apply lookup_insert_ne. intros E. apply wal_inj in E; [|done|by apply Hpos]. by apply (Hne s).
  - split; simpl; [done|apply lookup_insert_eq| |rewrite length_take; destruct Hcut as [Hs _]; destruct synced; simpl; lia|by intros [? ?]]. exists (take n ps). rewrite app_nil_r. split; [done|].
    pose proof (log_of_length _ _ _ Hlog) as Hlen. split_and!; [done| | |].
    + exists [x00], 0%nat. simpl. rewrite app_nil_r. split_and!; [done|rewrite length_record; lia|apply Hkf|done].
    + rewrite length_take. destruct Hcut as [Hs _]. destruct synced; simpl; lia.
    + eapply kept_synced; [exact Hkf|exact Hcut|lia].
  - intros path m [g Hp] Hpa Hle. destruct (decide (path = W number)) as [->|Hne].
    + rewrite Hparse in Hpa. injection Hpa as <-. split; [done|]. unfold log_numbers. set_solver.
    + rewrite lookup_insert_ne in Hp by done. apply (I15 path m); [by eexists|done|done].
Qed.

(** ** The whole recovery *)

(** The listing names every file once. *)
Definition lists (entries : list string) (fs : Directory) : Prop := NoDup entries /\ forall path, path ∈ entries <-> is_Some (fs !! path).

Lemma segments_complete_elem fs segments : forall first s, segments_complete fs first segments -> s ∈ segments -> is_Some (fs !! W (sg_number s)).
Proof.
  induction segments as [|s' segments IH]; intros first s; [by intros _ ?%elem_of_nil|]. intros [(f & ps & Hf & _) Hs] [->|Hin]%elem_of_cons; [by eexists|by eapply IH].
Qed.

Lemma image_logs fs number k kept synced entries : image fs number k kept synced -> lists entries fs ->
  filter (fun n => oldest_wal_number (dk_manifest k) <= n) (omap wal_of entries) ≡ₚ log_numbers k number.
Proof.
  intros Hi [Hnd Hin]. pose proof (ig_sorted _ _ _ _ _ Hi) as Hs. pose proof (ig_positive _ _ _ _ _ Hi) as Hpos. rewrite Forall_elem in Hpos.
  assert (forall path n, wal_of path = Some n -> parseNumberedFileName path = Some (n, kWal)) as Hwal.
  { intros path n. unfold wal_of. by destruct (parseNumberedFileName path) as [[m []]|]; intros [= ->]. }
  apply NoDup_Permutation.
  - apply listed_logs; [done|]. intros path n Hp Hw Hle. by apply (ig_wals _ _ _ _ _ Hi path n); [apply Hin|apply Hwal|].
  - clear - Hs. induction Hs as [|n l Hs IH Hn]; constructor; [|done]. intros Hin. rewrite Forall_elem in Hn. specialize (Hn _ Hin). lia.
  - intros n. rewrite list_elem_of_filter, list_elem_of_omap. split.
    + intros (Hle & path & Hp & Hw). by apply (ig_wals _ _ _ _ _ Hi path n); [apply Hin|apply Hwal|].
    + intros Hn. split.
      * pose proof (ig_oldest _ _ _ _ _ Hi) as Ho. destruct (log_numbers k number) as [|m l]; [done|]. injection Ho as <-.
        apply StronglySorted_inv in Hs as [_ Hs]. rewrite Forall_elem in Hs. apply elem_of_cons in Hn as [->|Hn]; [lia|]. specialize (Hs _ Hn). lia.
      * exists (W n). split; [|unfold wal_of; by rewrite wal_parse by (by apply Hpos)]. apply Hin. unfold log_numbers in Hn.
        apply elem_of_app in Hn as [Hn|Hn%list_elem_of_singleton].
        -- apply list_elem_of_fmap in Hn as (s & -> & Hs'). eapply segments_complete_elem; [apply Hi|done].
        -- subst n. destruct (ig_current _ _ _ _ _ Hi) as (f & ps & -> & _). by eexists.
Qed.

(** A database whose memory was just set up from its directory. *)
Lemma fresh_inv db fs wal number k h v :
  disk_inv directory fs wal number k (dk_tables k ++ h) -> ok (error_ wal) = true -> history_ok (dk_tables k ++ h) ->
  directory_ db = directory -> wal_ db = Some wal -> wal_number_ db = number -> manifest_ db = dk_manifest k ->
  current_version_ db = Some v -> version_holds v (dk_runs k) -> holds (memtable_ db) h -> last_sequence_ db = len (dk_tables k ++ h) ->
  immutable_ db = None -> snapshots_ db = newSnapshotTracker -> write_buffer_size db <= 2 ^ 63 ->
  0 < next_file_number_ db <= kUint64Max -> number < next_file_number_ db ->
  Forall (fun t => tm_number t < next_file_number_ db) (all_tables (mf_levels (dk_manifest k))) ->
  (forall n, next_file_number_ db <= n <= kUint64Max -> fs !! W n = None) ->
  db_inv (mkState db fs Idle) (mkParts (dk_tables k) [] h (dk_runs k) (dk_floor k) []) k.
Proof.
  intros Hd Hok Hh E1 E2 E3 E4 E5 Hv Hm E6 E7 E8 Hbuf Hnx Hlt Htab Hun. pose proof (di_wf _ _ _ _ _ _ Hd) as Hwf. pose proof (di_valid _ _ _ _ _ _ Hd) as Hval.
  split; simpl; rewrite ?E1, ?E3, ?E4; try done.
  - split; simpl; try done.
    + by rewrite E7.
    + exists v. split_and!; [done|done|apply Hd].
    + rewrite E8. apply tracks_new.
    + apply Hd.
  - apply Hd.
  - apply Hd.
  - rewrite Forall_elem in *. intros t Ht. split; [|by rewrite E7]. specialize (Htab t Ht). pose proof (valid_numbers _ _ Hwf Hval Ht). lia.
  - exists wal. split_and!; [done|exact Hd|by rewrite Hok].
  - rewrite E7. by intros [? ?].
  - by rewrite E7.
Qed.

(** The system answers everything with interruptions at worst, and lists the
    directory faithfully. *)
Record open_env_benign (env : DbOpenEnv) (fs : Directory) : Prop := {
  ob_list : do_list_error env = None;
  ob_lists : lists (do_entries env) fs;
  ob_exists : do_exists env = None;
  ob_manifest : benign_manifest_read (do_manifest_read env);
  ob_tables : forall meta, open_benign (do_tables env meta);
  ob_wals : forall n, wal_file_benign (do_wals env n);
  ob_wal : do_wal_open env = None;
}.

(** What recovery makes of an image. *)
Lemma recoverDatabase_spec env files db fs number k kept synced :
  image fs number k kept synced -> open_env_benign env fs -> scanDatabaseDirectory strerror None directory (do_entries env) = Ok files ->
  directory_ db = directory -> holds (memtable_ db) [] -> immutable_ db = None -> snapshots_ db = newSnapshotTracker -> write_buffer_size db <= 2 ^ 63 ->
  next_file_number_ db = maximum_number files + 1 -> maximum_number files < kUint64Max ->
  exists db' fs' n, recoverDatabase strerror env files db fs = Some (db', fs', success) /\ directory_ db' = directory /\ (kept <= n <= length (dk_batches k))%nat /\
    db_inv (mkState db' fs' Idle) (mkParts (dk_tables k) [] (recovered k n) (dk_runs k) (dk_floor k) []) (recovered_disk k n synced).
Proof.
  intros Hi [B1 B2 B3 B4 B5 B6 B7] Hscan Hdir Hh Him Hsn Hbuf Hnx Hmax. pose proof (ig_manifest _ _ _ _ _ Hi) as [Hmf Hsz]. pose proof Hscan as Hscan'.
  unfold scanDatabaseDirectory in Hscan'. injection Hscan' as Hfiles.
  destruct (scan_entries_spec (do_entries env) (mkDirectoryContents [] false 0)) as (Hw & _ & Hge & Hm & _). simpl in Hw, Hge.
  assert (forall path n t, is_Some (fs !! path) -> parseNumberedFileName path = Some (n, t) -> n < next_file_number_ db) as Hbelow.
  { intros path n t Hp Hpa. destruct B2 as [_ B2]. rewrite Hnx, <- Hfiles. simpl. specialize (Hm path n t ltac:(by apply B2) Hpa). lia. }
  assert (filter (fun n => oldest_wal_number (dk_manifest k) <= n) (wal_numbers files) ≡ₚ log_numbers k number) as Hlogs.
  { rewrite <- Hfiles. simpl. rewrite (merge_sort_Permutation Z.le), Hw. by eapply image_logs. }
  assert (Sorted Z.le (wal_numbers files)) as Hsorted by (rewrite <- Hfiles; apply Sorted_merge_sort; intros x y; lia).
  unfold recoverDatabase. rewrite Hdir, (readManifest_benign _ _ _ _ _ B4 Hmf) by done.
  simpl contents. rewrite (decode_sealed (dk_manifest k)) by (apply Hi || done). cbn [mbind option_bind]. unfold loadVersion. rewrite B7. cbn [directory_ set_disk manifest_]. rewrite Hdir.
  destruct (version_open_spec strerror (do_tables env) directory fs (dk_manifest k) (dk_runs k) (ig_stored _ _ _ _ _ Hi)) as (r & -> & Hr). cbn [mbind option_bind].
  destruct r as [v|st]; [|by destruct Hr as [_ []]]. destruct Hr as [_ Hv]. change (negb (ok success)) with false. cbn iota.
  set (db1 := set_disk _ _ _).
  destruct (recoverWalFiles_spec (do_wals env) (wal_numbers files) db1 fs number k kept synced Hi B6) as (n & m & ps & f & f' & Hn & Hm' & Hcut & Hkf & Hlog & ->); [done|done|done|done|done|].
  cbn [mbind option_bind]. change (negb (ok success)) with false. cbn iota.
  set (fs1 := <[W number := f']> fs). set (fs2 := removeObsoleteWalFilesBestEffort _ _ _ _ _). set (fs3 := removeObsoleteSSTableFilesBestEffort _ _ _ _ _).
  eexists _, fs3, n. split; [done|]. split; [done|]. split; [done|].
  pose proof (image_disk _ _ _ _ _ n ps f f' Hi Hn Hcut Hkf Hlog) as Hd. fold fs1 in Hd.
  assert (disk_inv directory fs3 (mkWalWriter f' (W number) success) number (recovered_disk k n synced) (dk_tables k ++ recovered k n)) as Hd3.
  { eapply disk_inv_frame; [|eapply disk_inv_frame; [|exact Hd]].
    - apply clean_table_relevant; apply Hi.
    - apply clean_wal_relevant; [apply Hi|apply Hi|done]. }
  assert (history_ok (dk_tables k ++ recovered k n)) as Hhist.
  { pose proof (ig_history _ _ _ _ _ Hi) as Hall. rewrite <- (take_drop n (dk_batches k)), (app_assoc (segments_batches _)), batch_writes_app, app_assoc in Hall.
    by apply history_ok_app in Hall as [? _]. }
  assert (0 < number <= kUint64Max) as Hnum by (pose proof (ig_positive _ _ _ _ _ Hi) as Hp; rewrite Forall_elem in Hp; apply Hp; unfold log_numbers; set_solver).
  assert (0 <= maximum_number files) as Hmn by (rewrite <- Hfiles; simpl; lia).
  eapply (fresh_inv _ fs3 _ number (recovered_disk k n synced) (recovered k n) v); [exact Hd3|done|exact Hhist|done..|exact Hv|exact Hm'| | | | | | | |]; simpl; try done.
  - lia.
  - eapply Hbelow; [|by apply (wal_parse directory)]. destruct (ig_current _ _ _ _ _ Hi) as (g & ? & -> & _). by eexists.
  - rewrite Forall_elem. intros t Ht. eapply Hbelow; [|apply (table_parse directory); eapply valid_numbers; [apply (ig_wf _ _ _ _ _ Hi)|apply Hi|done]].
    destruct (ig_stored _ _ _ _ _ Hi) as [L0 L1 L2 _ _]. pose proof (Forall2_app L0 (Forall2_app L1 L2)) as Hall. apply list_elem_of_lookup in Ht as [i Ht].
    destruct (Forall2_lookup_l _ _ _ _ _ Hall Ht) as (es & _ & [(c & -> & _) _ _ _ _]). by eexists.
  - intros q Hq. apply clean_table_absent, clean_wal_absent. assert (0 < q <= kUint64Max) by lia.
    assert (fs !! W q = None) as Hnone.
    { apply eq_None_not_Some. intros Hs. pose proof (Hbelow _ q kWal Hs ltac:(by apply wal_parse)). lia. }
    unfold fs1. rewrite lookup_insert_ne; [done|]. intros E. rewrite <- E in Hnone. destruct (ig_current _ _ _ _ _ Hi) as (g & ? & Hf & _). congruence.
Qed.

(** ** What is left of a directory *)

Lemma segments_left fs fs' segments : forall first,
  (forall path f, fs !! path = Some f -> len (contents f) <= 2 ^ 63) ->
  (forall s, s ∈ segments -> contents <$> fs' !! W (sg_number s) = contents <$> fs !! W (sg_number s)) ->
  segments_hold directory fs first segments -> segments_complete fs' first segments.
Proof.
  induction segments as [|s segments IH]; intros first Hsz Hsame; [done|]. intros [(f & ps & Hf & Hcon & Hlog) Hs]. split.
  - specialize (Hsame s ltac:(set_solver)). rewrite Hf in Hsame. destruct (fs' !! W (sg_number s)) as [f'|]; [|done]. simpl in Hsame. injection Hsame as Hcf.
    exists f', ps. split_and!; [done|congruence|done|rewrite <- Hcon; specialize (Hsz _ _ Hf); unfold kUint64Max; lia].
  - apply IH; [done| |done]. intros s' Hs'. apply Hsame. set_solver.
Qed.

(** The older logs are left, and the files that were synced; of the current one
    [kept] batches are. *)
Lemma left_image fs fs' wal number k h kept synced :
  disk_inv directory fs wal number k h -> history_ok h ->
  (forall path, is_Some (fs' !! path) -> is_Some (fs !! path)) ->
  (forall path c, fs !! path = Some (mkLogFile c (length c)) -> fs' !! path = Some (mkLogFile c (length c))) ->
  (forall s, s ∈ dk_segments k -> contents <$> fs' !! W (sg_number s) = contents <$> fs !! W (sg_number s)) ->
  (forall ps, wal_inv wal ps (dk_synced k) -> log_of (len (dk_tables k) + 1 + len (concat (segments_batches (dk_segments k)))) (dk_batches k ++ option_list (dk_failed k)) ps ->
     exists f, fs' !! W number = Some f /\ cut_log f ps kept synced) ->
  (kept <= length (dk_batches k))%nat ->
  (forall path f, fs !! path = Some f -> len (contents f) <= 2 ^ 63) ->
  len (sealed (manifest_contents (dk_manifest k))) <= kMaximumManifestSize -> writes_room h <= 2 ^ 63 ->
  image fs' number (with_log k (dk_segments k) (dk_batches k ++ option_list (dk_failed k)) None 0) kept synced.
Proof.
  intros Hd Hh Hsub Hdur Hsame Hcut Hkept Hsz Hms Hroom. pose proof (disk_length _ _ _ _ _ _ Hd) as Hlen.
  destruct Hd as [D1 D2 D3 D4 D5 D6 D7 D8 D9 D10 D11 [C1 C2 (ps & Hlog & Hinv) C4 C5] D13 D14]. destruct Hh as [Hn Hmax].
  set (first := len (dk_tables k) + 1 + len (concat (segments_batches (dk_segments k)))) in *.
  pose proof (len_nonneg (dk_tables k)) as L1. pose proof (len_nonneg (concat (segments_batches (dk_segments k)))) as L2. pose proof (len_nonneg (concat (dk_batches k))) as L3.
  destruct (log_of_facts first (dk_batches k ++ option_list (dk_failed k)) ps ltac:(unfold first; lia) ltac:(unfold first in *; lia) Hlog) as (Hnb & _ & Hmb).
  assert (writes_room (batch_writes (first + len (concat (dk_batches k))) (option_list (dk_failed k))) <= 2000 * kMaxWriteBatchPayloadSize) as Hfr.
  { destruct (dk_failed k) as [b|]; [|by vm_compute]. simpl option_list in *. cbn [batch_writes]. rewrite app_nil_r.
    apply log_of_app_inv in Hlog as (pa & pb & _ & _ & Hb). destruct pb as [|q pb]; [done|]. destruct Hb as (He & _). by apply encode_facts in He as (_ & _ & _ & _ & _ & ?); [|lia]. }
  split; cbn [with_log dk_manifest dk_runs dk_tables dk_floor dk_segments dk_batches dk_failed dk_synced]; try done.
  - split; [by apply Hdur|done].
  - destruct D4 as [L0' L1' L2' S1 S2]. split; [..|done|done]; (eapply Forall2_impl; [|eassumption]; intros t es [(c & Hf & Ht & Hs) ? ? ? ?];
      split; [exists c; split; [by apply Hdur|done]|done..]).
  - by eapply segments_left.
  - destruct (Hcut ps Hinv Hlog) as (f & Hf & Hcf). exists f, ps. split_and!; [done|done|rewrite length_app; lia|done|].
    destruct Hinv as (_ & (p & j & Hp & Hj & Hcon & _) & _). pose proof (Hsz _ _ C2) as Hs. rewrite Hcon, len_app in Hs. pose proof (len_nonneg (take j (record_bytes p))). unfold kUint64Max. lia.
  - rewrite app_assoc, batch_writes_app, app_assoc, D13. rewrite concat_app, len_app, Z.add_assoc. fold first. rewrite batch_writes_app in Hnb. apply numbered_app in Hnb as [_ Hnb].
    rewrite len_batch_writes in Hnb. split; [apply numbered_app; split; [done|]; by replace (1 + len h) with (first + len (concat (dk_batches k))) by (unfold first; lia)|].
    rewrite len_app, len_batch_writes. rewrite concat_app, len_app in Hmb. unfold first in *. lia.
  - rewrite app_assoc, batch_writes_app, writes_room_app. rewrite concat_app, len_app, (Z.add_assoc (len (dk_tables k) + 1)). fold first.
    rewrite <- D13, writes_room_app in Hroom. pose proof (writes_room_nonneg (dk_tables k)).
    unfold kMaxWriteBatchPayloadSize, kMaxWalRecordPayloadSize, kUint64Max, kDefaultBlockSize in *. lia.
  - intros path n Hs. by apply D14, Hsub.
Qed.

(** A crash of the machine keeps what was synced. *)
Lemma crash_image fs fs' wal number k h :
  disk_inv directory fs wal number k h -> history_ok h -> crash_directory fs fs' ->
  (forall s, s ∈ dk_segments k -> contents <$> fs' !! W (sg_number s) = contents <$> fs !! W (sg_number s)) ->
  (forall path f, fs !! path = Some f -> len (contents f) <= 2 ^ 63) ->
  len (sealed (manifest_contents (dk_manifest k))) <= kMaximumManifestSize -> writes_room h <= 2 ^ 63 ->
  image fs' number (with_log k (dk_segments k) (dk_batches k ++ option_list (dk_failed k)) None 0) (dk_synced k) None.
Proof.
  intros Hd Hh Hc Hsame Hsz Hms Hroom. eapply left_image; [exact Hd|done| | |done| | |done..].
  - intros path [f Hf]. specialize (Hc path). rewrite Hf in Hc. by destruct (fs !! path).
  - intros path c. by apply crash_durable.
  - intros ps (_ & (p & j & Hp & Hj & Hcon & _) & Hsy & Hdu) _. destruct (di_current _ _ _ _ _ _ Hd) as [_ C2 _ _ _]. specialize (Hc (W number)). rewrite C2 in Hc.
    destruct (fs' !! W number) as [f|]; [|done]. destruct Hc as [Hf Hdf]. exists f. split; [done|]. split; [done|].
    inversion Hf as [f0 c Hc' E1 E2]. exists p, j, c. rewrite <- Hcon. split_and!; [done|done|done|lia].
  - apply (di_current _ _ _ _ _ _ Hd).
Qed.

(** An exit of the process leaves everything that was written. *)
Lemma restart_image fs wal number k h :
  disk_inv directory fs wal number k h -> history_ok h ->
  (forall path f, fs !! path = Some f -> len (contents f) <= 2 ^ 63) ->
  len (sealed (manifest_contents (dk_manifest k))) <= kMaximumManifestSize -> writes_room h <= 2 ^ 63 ->
  image fs number (with_log k (dk_segments k) (dk_batches k ++ option_list (dk_failed k)) None 0) (length (dk_batches k)) (Some (dk_synced k)).
Proof.
  intros Hd Hh Hsz Hms Hroom. eapply left_image; [exact Hd|done|done|done|done| |done..].
  intros ps (_ & (p & j & Hp & Hj & Hcon & _) & Hsy & Hdu) Hlog. destruct (di_current _ _ _ _ _ _ Hd) as [_ C2 _ C4 _]. exists (w_file wal). split; [done|]. split; [done|].
  exists p, j, (length (contents (w_file wal))). rewrite <- Hcon, firstn_all. split_and!; [done|done|done|].
  pose proof (log_of_length _ _ _ Hlog) as Hl. rewrite length_app in Hl.
  pose proof (prefix_length _ _ (log_bytes_take (length (dk_batches k)) (length ps) ps ltac:(lia))) as Hpl. rewrite firstn_all in Hpl. rewrite Hcon, length_app. lia.
Qed.

(** ** Opening *)

(** The directory can be used, nobody else has it open, and the thread starts. *)
Definition admitted (env : DbOpenEnv) (options : DBOptions) (kind : path_kind) (lk : LockFile) : Prop :=
  ok (prepareDatabaseDirectory strerror (do_prepare env) (open_mode options) directory kind).2 = true /\
  ok (acquireDatabaseLock strerror (do_lock env) directory emptyFileLock lk).2 = true /\ do_thread env = None.

(** Room for more file numbers. *)
Definition numbers_below (limit : Z) (fs : Directory) : Prop :=
  forall path n t, is_Some (fs !! path) -> parseNumberedFileName path = Some (n, t) -> n < limit.

Lemma newDBImpl_spec options lock tracker : exists m, holds m [] /\
  newDBImpl options directory lock tracker =
    Some (mkDBImpl (opt_write_buffer_size options) directory lock None 0 1 noManifest None 0 tracker newSnapshotTracker m None false success).
Proof. destruct holds_new as (m & Hm & Hh). exists m. split; [done|]. unfold newDBImpl. by rewrite Hm. Qed.

Lemma scanned_maximum entries fs limit files : 0 < limit -> lists entries fs -> numbers_below limit fs ->
  scanDatabaseDirectory strerror None directory entries = Ok files -> 0 <= maximum_number files < limit.
Proof.
  intros Hl [_ Hin] Hb [= <-]. simpl. destruct (scan_entries_spec entries (mkDirectoryContents [] false 0)) as (_ & _ & Hge & _ & [->|(path & t & Hp & Hpa)]); simpl in *; [lia|].
  split; [lia|]. eapply Hb; [|exact Hpa]. by apply Hin.
Qed.

Lemma db_open_recovers env options tracker kind lk fs number k kept synced :
  image fs number k kept synced -> open_env_benign env fs -> admitted env options kind lk -> numbers_below kUint64Max fs ->
  0 < opt_write_buffer_size options <= 2 ^ 63 ->
  exists kind' lk' fs' db n, db_open strerror env options directory tracker kind lk fs = Some (kind', lk', fs', Ok db) /\
    directory_ db = directory /\ (kept <= n <= length (dk_batches k))%nat /\
    db_inv (mkState db fs' Idle) (mkParts (dk_tables k) [] (recovered k n) (dk_runs k) (dk_floor k) []) (recovered_disk k n synced).
Proof.
  intros Hi Hb (A1 & A2 & A3) Hbelow Hbuf. unfold db_open. destruct (Z.eqb_spec (opt_write_buffer_size options) 0); [lia|].
  destruct (prepareDatabaseDirectory _ _ _ _ _) as [kind' st]. simpl in A1. rewrite A1. cbn [negb].
  destruct (acquireDatabaseLock _ _ _ _ _) as [[lock lk'] st']. simpl in A2. rewrite A2. cbn [negb].
  destruct (newDBImpl_spec options lock tracker) as (m & Hm & ->). cbn [mbind option_bind]. rewrite (ob_list _ _ Hb).
  destruct (scanDatabaseDirectory strerror None directory (do_entries env)) as [files|] eqn:Hscan; [|done].
  pose proof (scanned_maximum _ _ kUint64Max _ ltac:(done) (ob_lists _ _ Hb) Hbelow Hscan) as Hmax.
  destruct (Z.eqb_spec (maximum_number files) kUint64Max); [lia|]. rewrite (ob_exists _ _ Hb). pose proof (ig_manifest _ _ _ _ _ Hi) as [-> _]. set (db0 := set_next_file_number _ _).
  destruct (recoverDatabase_spec env files db0 fs number k kept synced Hi Hb Hscan) as (db & fs' & q & -> & Hdir & Hq & Hinv); [done|done|done|done|simpl; lia|done|lia|].
  cbn [mbind option_bind]. change (negb (ok success)) with false. cbn iota. rewrite A3. by exists kind', lk', fs', db, q.
Qed.

(** ** A new database *)

Lemma no_runs : runs_hold no_levels [] 0.
Proof.
  split; [|by intros e He; apply elem_of_nil in He|done]. unfold layers_ok, version_layers. simpl. repeat constructor. intros e e' p p' He. by apply elem_of_nil in He.
Qed.

(** The directory of a new database: its first log and a manifest of no tables. *)
Lemma new_disk fs fs' number : 0 < number <= kUint64Max -> (forall path n, is_Some (fs !! path) -> parseNumberedFileName path <> Some (n, kWal)) ->
  let m := mkManifestState 0 number no_levels in let file := mkLogFile [] 0 in
  but_manifest directory (<[W number := file]> fs) fs' -> validateState m = Some None ->
  (let c := sealed (manifest_contents m) in fs' !! manifestFileName directory = Some (mkLogFile c (length c))) ->
  disk_inv directory fs' (mkWalWriter file (W number) success) number (mkDisk m no_levels [] 0 [] [] None 0) [].
Proof.
  intros Hnum Hnone m file Hb Hv Hm. pose proof (wal_parse directory number Hnum) as Hparse. split; simpl; try done.
  - split_and!; unfold kUint64Max in *; simpl; try lia. constructor.
  - by repeat constructor.
  - apply no_runs.
  - by repeat constructor.
  - by apply Forall_singleton.
  - split; simpl; [done| |exists []; split; [done|]|done|by intros [? ?]].
    + rewrite (but_manifest_log directory (<[W number := file]> fs)) by done. apply lookup_insert_eq.
    + split; [constructor|]. split; [|done]. exists [x00], 0%nat. split_and!; [done|rewrite length_record; lia|done|done].
  - intros path n [f Hf] Hpa _. destruct (log_path_not_manifest directory path n Hpa) as [N1 N2]. rewrite Hb in Hf by done.
    destruct (decide (path = W number)) as [->|Hne].
    + rewrite Hparse in Hpa. injection Hpa as <-. split; [done|]. unfold log_numbers. simpl. set_solver.
    + rewrite lookup_insert_ne in Hf by done. destruct (Hnone path n); [by eexists|done].
Qed.

Lemma initialize_spec env files db fs db' fs' st :
  lists (do_entries env) fs -> scanDatabaseDirectory strerror None directory (do_entries env) = Ok files ->
  directory_ db = directory -> holds (memtable_ db) [] -> manifest_ db = noManifest -> last_sequence_ db = 0 -> immutable_ db = None ->
  snapshots_ db = newSnapshotTracker -> write_buffer_size db <= 2 ^ 63 -> next_file_number_ db = maximum_number files + 1 -> maximum_number files < kUint64Max - 1 ->
  initializeNewDatabase strerror env files db fs = Some (db', fs', st) -> ok st = true ->
  directory_ db' = directory /\ exists k, dk_failed k = None /\ db_inv (mkState db' fs' Idle) (mkParts [] [] [] no_levels 0 []) k.
Proof.
  intros [_ Hlist] Hscan Hdir Hh Hmf Hl Him Hsn Hbuf Hnx Hmax Hrun Hst. pose proof Hscan as Hs. injection Hs as Hfiles.
  destruct (scan_entries_spec (do_entries env) (mkDirectoryContents [] false 0)) as (Hw & _ & Hge & Hm & _). simpl in Hw, Hge.
  unfold initializeNewDatabase in Hrun. destruct (negb (bool_decide (wal_numbers files = [])) || has_sstable files) eqn:E; [simplify_eq; done|].
  apply orb_false_iff in E as [E _]. apply negb_false_iff, bool_decide_eq_true in E.
  assert (forall path n, is_Some (fs !! path) -> parseNumberedFileName path <> Some (n, kWal)) as Hnone.
  { intros path n Hp Hpa. rewrite <- Hfiles in E. simpl in E. pose proof (merge_sort_Permutation Z.le (wal_numbers (scan_entries (do_entries env) (mkDirectoryContents [] false 0)))) as Hperm.
    rewrite E in Hperm. apply Permutation_nil in Hperm. rewrite Hw in Hperm. apply (not_elem_of_nil n). rewrite <- Hperm. apply list_elem_of_omap. exists path.
    rewrite Hpa. split; [by apply Hlist|done]. }
  assert (0 <= maximum_number files) as Hmn by (rewrite <- Hfiles; simpl; lia). set (number := next_file_number_ db) in *.
  assert (wrap64 (number + 1) = number + 1) as Hwrap by (apply wrap64_small; lia). rewrite Hwrap in Hrun.
  destruct (do_wal_open env) as [errno|]; [unfold wal_open in Hrun; simplify_eq; done|]. unfold wal_open in Hrun. cbn [directory_ set_next_file_number] in Hrun. rewrite Hdir in Hrun.
  assert (fs !! W number = None) as Hnew.
  { apply eq_None_not_Some. intros Hsome. by apply (Hnone _ number Hsome), wal_parse; unfold kUint64Max in *; lia. }
  rewrite Hnew in Hrun. cbn [default from_option id] in Hrun. cbn [manifest_ set_wal set_next_file_number set_disk current_version_ directory_ flushed_sequence mf_levels] in Hrun.
  rewrite Hmf in Hrun. simpl flushed_sequence in Hrun. simpl mf_levels in Hrun.
  destruct (manifest_written strerror (do_manifest_write env) directory (mkManifestState 0 number no_levels) (<[W number := mkLogFile [] 0]> fs)) as (fs1 & st1 & Hwm & Hb & Hcase).
  rewrite Hdir, Hwm in Hrun. cbn [mbind option_bind] in Hrun. destruct (ok st1) eqn:E1; [|cbn [negb] in Hrun; simplify_eq; congruence]. destruct Hcase as [Hv Hm1].
  cbn [negb] in Hrun. unfold loadVersion in Hrun. simpl in Hrun. injection Hrun as <- <- <-.
  assert (0 < number <= kUint64Max) as Hnum by lia. pose proof (new_disk fs fs1 number Hnum Hnone Hb Hv Hm1) as Hd.
  set (fs2 := removeObsoleteSSTableFilesBestEffort _ _ _ _ _).
  assert (disk_inv directory fs2 (mkWalWriter (mkLogFile [] 0) (W number) success) number (mkDisk (mkManifestState 0 number no_levels) no_levels [] 0 [] [] None 0) []) as Hd2.
  { eapply disk_inv_frame; [|exact Hd]. apply clean_table_relevant; [apply (di_wf _ _ _ _ _ _ Hd)|done]. }
  split; [done|]. eexists. split; [|eapply (fresh_inv _ fs2 _ number (mkDisk (mkManifestState 0 number no_levels) no_levels [] 0 [] [] None 0) [] no_levels); [exact Hd2|..]]; simpl; try done.
  - by repeat constructor.
  - lia.
  - lia.
  - intros n Hn. apply clean_table_absent. rewrite (but_manifest_log directory (<[W number := mkLogFile [] 0]> fs)) by (done || lia).
    rewrite lookup_insert_ne by (intros Ew; apply wal_inj in Ew; lia). apply eq_None_not_Some. intros Hsome. by apply (Hnone _ n Hsome), wal_parse; lia.
Qed.

Lemma db_open_creates env options tracker kind lk fs kind' lk' fs' db :
  do_list_error env = None -> lists (do_entries env) fs -> fs !! manifestFileName directory = None -> numbers_below (kUint64Max - 1) fs ->
  opt_write_buffer_size options <= 2 ^ 63 ->
  db_open strerror env options directory tracker kind lk fs = Some (kind', lk', fs', Ok db) ->
  directory_ db = directory /\ exists k, dk_failed k = None /\ db_inv (mkState db fs' Idle) (mkParts [] [] [] no_levels 0 []) k.
Proof.
  intros Hle Hlist Hnone Hbelow Hbuf. unfold db_open. destruct (_ =? 0); [done|].
  destruct (prepareDatabaseDirectory _ _ _ _ _) as [kind1 st]. destruct (negb (ok st)); [done|].
  destruct (acquireDatabaseLock _ _ _ _ _) as [[lock lk1] st']. destruct (negb (ok st')); [done|].
  destruct (newDBImpl_spec options lock tracker) as (m & Hm & ->). cbn [mbind option_bind]. rewrite Hle.
  destruct (scanDatabaseDirectory strerror None directory (do_entries env)) as [files|] eqn:Hscan; [|done].
  destruct (maximum_number files =? kUint64Max); [done|]. destruct (do_exists env); [done|]. rewrite Hnone.
  destruct (initializeNewDatabase _ _ _ _ _) as [[[db1 fs1] st1]|] eqn:Hinit; [|done]. cbn [mbind option_bind]. destruct (ok st1) eqn:Hok; [|done]. cbn [negb].
  destruct (do_thread env); [done|]. intros [= _ _ <- <-].
  pose proof (scanned_maximum _ _ (kUint64Max - 1) _ ltac:(done) Hlist Hbelow Hscan) as Hmax.
  eapply (initialize_spec env files _ fs db1 fs1 st1 Hlist Hscan); [..|exact Hinit|done]; done || (simpl; lia).
Qed.

End recovery.
