(* ===== verification/Database.v ===== *)
(** The database as its clients see it: what every execution from creation
    promises, crashes included.  The lemmas of the components are put together
    here. *)
From S2P Require Import Prelude Posix Status Coding InternalKey Mvcc WriteBatch Wal BlockBuilder SSTableBuilder Iterator SSTableReader Arena SkipList MemTable MergingIterator DbIterator Filename Level Manifest Snapshot DbFiles Version Compaction CompactionReads CompactionBuild FlushMemTable DbImpl History DbState DbLog DbDisk DbSteps DbWrite DbFlush DbCompact DbRefine DbRecovery.

Section database.
Context `{SystemAllocatorLaws} (strerror : Z -> string) (directory : string).

(** [db] was just created in a directory that had no manifest. *)
Definition created (db : DBImpl) (fs : Directory) : Prop :=
  exists env options tracker kind lk fs0 kind' lk', db_open strerror env options directory tracker kind lk fs0 = Some (kind', lk', fs, Ok db) /\
    do_list_error env = None /\ lists (do_entries env) fs0 /\ fs0 !! manifestFileName directory = None /\ numbers_below (kUint64Max - 1) fs0 /\
    opt_write_buffer_size options <= 2 ^ 63.

(** What a crash leaves: the logs before the current one had reached the disk.  No
    file is larger than an [off_t] can say, and the manifest is one that can be
    read back. *)
Record crash_of (s : State) (fs : Directory) : Prop := {
  co_files : crash_directory (st_fs s) fs;
  co_logs : forall n, 0 < n < wal_number_ (st_db s) -> contents <$> fs !! walFileName directory n = contents <$> st_fs s !! walFileName directory n;
  co_sizes : forall path f, st_fs s !! path = Some f -> len (contents f) <= 2 ^ 63;
  co_manifest : forall f, st_fs s !! manifestFileName directory = Some f -> len (contents f) <= kMaximumManifestSize;
}.

Lemma created_inv db fs : created db fs ->
  directory_ db = directory /\ exists k, dk_failed k = None /\ db_inv (mkState db fs Idle) (mkParts [] [] [] no_levels 0 []) k.
Proof. intros (env & options & tracker & kind & lk & fs0 & kind' & lk' & Ho & ? & ? & ? & ? & ?). by eapply db_open_creates. Qed.

(** ** What a database keeps for life *)

(** Its directory, its lock and its snapshot tracker. *)
Definition identity (db : DBImpl) : string * FileLock * nat := (directory_ db, lock_ db, tracker_id db).


Lemma rotate_identity answer db fs db' fs' st : rotateMemTable strerror answer db fs = Some (db', fs', st) -> identity db' = identity db.
Proof.
  unfold rotateMemTable. destruct (_ <? _); [by intros [= <- _ _]|]. destruct newMemTable as [m|]; [|done]. cbn [mbind option_bind].
  destruct (wal_open _ _ _ _) as [fs1 [wal|st1]]; by intros [= <- _ _].
Qed.

Lemma write_identity env durability batch db fs db' fs' r : write strerror env durability batch db fs = Some (db', fs', r) -> identity db' = identity db.
Proof.
  unfold write. destruct (wb_empty batch); [by intros [= <- _ _]|]. destruct (makeRoomForWrite _ _ _ _) as [[[db1 fs1] room]|] eqn:E; [|done]. cbn [mbind option_bind].
  assert (identity db1 = identity db) as <-.
  { unfold makeRoomForWrite in E. destruct (negb _); [by simplify_eq|]. destruct (_ || _); [by simplify_eq|]. destruct (immutable_ db); [by simplify_eq|].
    destruct (rotateMemTable _ _ _ _) as [[[db2 fs2] st]|] eqn:Er; [|done]. apply rotate_identity in Er. cbn [mbind option_bind] in E. by injection E as <- _ _. }
  destruct room as [st|]; [|by intros [= <- _ _]]. destruct (negb _); [by intros [= <- _ _]|]. destruct (encode _ _) as [payload|]; [|by intros [= <- _ _]].
  destruct (wal_ db1) as [wal|]; [|done]. cbn [mbind option_bind]. destruct (append_and_sync _ _ _ _ _) as [wal' st']. destruct (negb _); [by intros [= <- _ _]|].
  destruct (applyBatch _ _ _) as [m|]; [|done]. by intros [= <- _ _].
Qed.

Lemma step_identity s e s' : db_step strerror s e s' -> identity (st_db s') = identity (st_db s).
Proof.
  destruct 1 as [env d batch db fs bg db' fs' r _ Hw|db fs bg db' s _ Hn|db fs bg db' s Hn|db fs bg|s s' Hb]; simpl.
  - by eapply write_identity.
  - unfold newSnapshot in Hn. by simplify_eq.
  - unfold releaseSnapshot in Hn. by apply bind_Some in Hn as (c & _ & [= <-]).
  - done.
  - destruct Hb; try done; simpl in *.
    + unfold allocateFileNumber in *. case_match; by simplify_eq.
    + unfold compact_publish in *. match goal with Hc : _ = Some db' |- _ => by apply bind_Some in Hc as (? & _ & [= <-]) end.
Qed.

Lemma identity_directory db db' : identity db' = identity db -> directory_ db' = directory_ db.
Proof. by intros [= ? _ _]. Qed.

Lemma run_directory s es s' : db_run strerror s es s' -> directory_ (st_db s') = directory_ (st_db s).
Proof. induction 1 as [|s e s1 es s2 Hs _ IH]; [done|]. rewrite IH. by eapply identity_directory, step_identity. Qed.

(** ** From creation on *)

Lemma created_run db fs es s : created db fs -> db_run strerror (mkState db fs Idle) es s ->
  exists g k, db_inv s g k /\ store_run (mkStore [] []) es (store_of g) /\
    (dk_failed k = None \/ exists b st, dk_failed k = Some b /\ Wrote b st ∈ es /\ ok st = false) /\ whole g = history_of es /\ directory_ (st_db s) = directory.
Proof.
  intros Hc Hr. destruct (created_inv _ _ Hc) as (Hd & k0 & E0 & Hi). pose proof (run_directory _ _ _ Hr) as Hd'. simpl in Hd'.
  destruct (db_run_spec strerror _ _ _ Hr _ _ Hi) as (g & k & Hg & Hs & _ & Hf). exists g, k. split_and!; [done|done| | |congruence].
  - destruct Hf as [?|[E|?]]; [by left|left; congruence|by right].
  - by apply store_run_history in Hs.
Qed.

(** The answer of a lookup at [seq] in the history [h]. *)
Definition answers (h : history) (key : bytes) (seq : Z) (benign : Prop) (r : result bytes) : Prop :=
  match r with
  | Ok value => history_get h key seq = Some value
  | Err st => (st = notFound "key does not exist" /\ history_get h key seq = None) \/ (ok st = false /\ isNotFound st = false /\ ~ benign)
  end.

(** C1. The database refines the abstract store.  Take any execution of a newly
    created database: writes, snapshots and their release, shut-down, and the
    background thread's flushes and compactions, interleaved in any way and
    with any answer of the operating system.  It is an execution of the store,
    whose history is the acknowledged batches in order; in the state it reaches,
    [get] returns what the history holds for the key at the snapshot read (or
    now), or an error that only a failing read can cause; and an iterator's full
    scan and its scan from any key deliver exactly the visible pairs in key
    order, each once, or stop with an error that only a failing read can cause. *)
Theorem database_refines_store db fs es s :
  created db fs -> db_run strerror (mkState db fs Idle) es s ->
  exists live, store_run (mkStore [] []) es (mkStore (history_of es) live) /\
    forall reads options key seq, reads_at options (st_db s) (mkStore (history_of es) live) seq -> len key + 8 <= kUint32Max ->
      (exists r, get reads options key (st_db s) = Some r /\ answers (history_of es) key seq (benign_reads reads) r) /\
      exists d bound, newIterator reads options (st_db s) = Some (Ok d) /\ forall fuel, (bound < fuel)%nat ->
        exists d1 d2 res1 res2 all from,
          di_seekToFirst fuel d = Some d1 /\ di_drain fuel d1 = Some res1 /\ delivers (benign_reads reads) all res1 /\
          di_seek fuel d key = Some d2 /\ di_drain fuel d2 = Some res2 /\ delivers (benign_reads reads) from res2 /\
          keys_increase all /\ (forall k v, (k, v) ∈ all <-> history_get (history_of es) k seq = Some v) /\
          keys_increase from /\ (forall k v, (k, v) ∈ from <-> bytes_ltb k key = false /\ history_get (history_of es) k seq = Some v).
Proof.
  intros Hc Hr. destruct (created_run _ _ _ _ Hc Hr) as (g & k & Hi & Hs & _ & <- & _). exists (live g). split; [done|]. intros reads options key seq Hat Hk.
  pose proof (iv_reads _ _ _ Hi) as Hri. split; [|by apply iterator_scan]. by apply get_spec.
Qed.

(** ** Recovery *)

(** The history with the batch whose write failed. *)
Lemma recovered_all k :
  let h := dk_tables k ++ batch_writes (len (dk_tables k) + 1) (segments_batches (dk_segments k) ++ dk_batches k) in
  h ++ batch_writes (len h + 1) (option_list (dk_failed k)) =
  dk_tables k ++ batch_writes (len (dk_tables k) + 1) (segments_batches (dk_segments k) ++ dk_batches k ++ option_list (dk_failed k)).
Proof.
  intros h. unfold h. rewrite <- app_assoc. f_equal.
  replace (len (dk_tables k ++ batch_writes (len (dk_tables k) + 1) (segments_batches (dk_segments k) ++ dk_batches k)) + 1)
    with (len (dk_tables k) + 1 + len (concat (segments_batches (dk_segments k) ++ dk_batches k))) by (rewrite len_app, len_batch_writes; lia).
  by rewrite <- batch_writes_app, <- app_assoc.
Qed.

Lemma recovered_between k n : (dk_synced k <= n <= length (dk_batches k ++ option_list (dk_failed k)))%nat -> (dk_synced k <= length (dk_batches k))%nat ->
  let h := dk_tables k ++ batch_writes (len (dk_tables k) + 1) (segments_batches (dk_segments k) ++ dk_batches k) in
  let h' := dk_tables k ++ recovered (with_log k (dk_segments k) (dk_batches k ++ option_list (dk_failed k)) None 0) n in
  durable_writes k `prefix_of` h' /\ h' `prefix_of` h ++ batch_writes (len h + 1) (option_list (dk_failed k)).
Proof.
  intros Hn Hs h h'. unfold h. rewrite (recovered_all k). unfold h', durable_writes, recovered. cbn [with_log dk_tables dk_segments dk_batches]. split; apply prefix_app, batch_writes_prefix, prefix_app.
  - rewrite take_app. transitivity (take n (dk_batches k)); [|by apply prefix_app_r].
    exists (drop (dk_synced k) (take n (dk_batches k))). rewrite <- (take_drop (dk_synced k) (take n (dk_batches k))) at 1. f_equal. rewrite take_take. f_equal. lia.
  - apply prefix_take.
Qed.

Lemma crash_recovers s g k fs env options tracker kind lk :
  db_inv s g k -> directory_ (st_db s) = directory -> crash_of s fs -> writes_room (whole g) <= 2 ^ 63 ->
  open_env_benign env fs -> admitted strerror directory env options kind lk -> numbers_below kUint64Max fs -> 0 < opt_write_buffer_size options <= 2 ^ 63 ->
  exists kind' lk' fs' db g' k', db_open strerror env options directory tracker kind lk fs = Some (kind', lk', fs', Ok db) /\
    db_inv (mkState db fs' Idle) g' k' /\ live g' = [] /\ durable_writes k `prefix_of` whole g' /\
    whole g' `prefix_of` whole g ++ batch_writes (len (whole g) + 1) (option_list (dk_failed k)).
Proof.
  intros Hi Hdir [C1 C2 C3 C4] Hroom Hb Ha Hn Hbuf. destruct (iv_disk _ _ _ Hi) as (wal & _ & Hd & _). rewrite Hdir in Hd. pose proof (ri_history _ _ (iv_reads _ _ _ Hi)) as Hh.
  assert (image directory fs (wal_number_ (st_db s)) (with_log k (dk_segments k) (dk_batches k ++ option_list (dk_failed k)) None 0) (dk_synced k) None) as Him.
  { eapply (crash_image strerror); [exact Hd|done|done| |done| |done].
    - intros sg Hsg. destruct (older_numbers directory (st_fs s) wal (wal_number_ (st_db s)) k (whole g) sg Hd Hsg). apply C2. lia.
    - by apply (C4 _ (di_manifest _ _ _ _ _ _ Hd)). }
  destruct (db_open_recovers strerror directory env options tracker kind lk _ _ _ _ _ Him Hb Ha Hn Hbuf) as (kind' & lk' & fs' & db & n & Ho & _ & Hkn & Hi').
  eexists kind', lk', fs', db, _, _. split; [done|]. split; [exact Hi'|]. split; [done|].
  rewrite <- (di_history _ _ _ _ _ _ Hd). unfold whole. cbn [in_tables in_immutable in_memtable with_log dk_tables app]. destruct (di_current _ _ _ _ _ _ Hd) as [_ _ _ Hsy _]. cbn [with_log dk_batches] in Hkn.
  by apply recovered_between.
Qed.

(** After an exit of the process the files are as they were. *)
Record exit_of (s : State) : Prop := {
  eo_sizes : forall path f, st_fs s !! path = Some f -> len (contents f) <= 2 ^ 63;
  eo_manifest : forall f, st_fs s !! manifestFileName directory = Some f -> len (contents f) <= kMaximumManifestSize;
}.

Lemma exit_recovers s g k env options tracker kind lk :
  db_inv s g k -> directory_ (st_db s) = directory -> exit_of s -> writes_room (whole g) <= 2 ^ 63 ->
  open_env_benign env (st_fs s) -> admitted strerror directory env options kind lk -> numbers_below kUint64Max (st_fs s) -> 0 < opt_write_buffer_size options <= 2 ^ 63 ->
  exists kind' lk' fs' db g' k', db_open strerror env options directory tracker kind lk (st_fs s) = Some (kind', lk', fs', Ok db) /\
    db_inv (mkState db fs' Idle) g' k' /\ live g' = [] /\ dk_failed k' = None /\
    (whole g' = whole g \/ whole g' = whole g ++ batch_writes (len (whole g) + 1) (option_list (dk_failed k))).
Proof.
  intros Hi Hdir [C1 C2] Hroom Hb Ha Hn Hbuf. destruct (iv_disk _ _ _ Hi) as (wal & _ & Hd & _). rewrite Hdir in Hd. pose proof (ri_history _ _ (iv_reads _ _ _ Hi)) as Hh.
  pose proof (restart_image strerror _ _ _ _ _ _ Hd Hh C1 ltac:(by apply (C2 _ (di_manifest _ _ _ _ _ _ Hd))) Hroom) as Him.
  destruct (db_open_recovers strerror directory env options tracker kind lk _ _ _ _ _ Him Hb Ha Hn Hbuf) as (kind' & lk' & fs' & db & n & Ho & _ & Hkn & Hi').
  eexists kind', lk', fs', db, _, _. split; [done|]. split; [exact Hi'|]. split; [done|]. split; [done|]. rewrite <- (di_history _ _ _ _ _ _ Hd). unfold whole. cbn [in_tables in_immutable in_memtable with_log dk_tables app].
  cbn [with_log dk_batches] in Hkn. rewrite length_app in Hkn. pose proof (recovered_all k) as E. destruct (decide (n = length (dk_batches k))) as [->|Hne].
  - left. unfold recovered. cbn [with_log dk_tables dk_segments dk_batches]. by rewrite take_app_length.
  - right. rewrite E. unfold recovered. cbn [with_log dk_tables dk_segments dk_batches]. rewrite take_ge; [done|]. rewrite length_app. destruct (dk_failed k); simpl in *; lia.
Qed.


(** C3. An exit of the process loses nothing.  A new database went through any
    execution and its process ended at any moment, in the middle of a flush or
    a compaction included; the files stay as they were.  Opening the database
    again succeeds when the system answers its calls, and the second execution
    is one of the abstract store whose history starts with everything that was
    acknowledged, synced or not, and at most one batch more whose write was
    reported as failed; lookups return what that history holds. *)
Theorem restart_keeps_writes db fs es s env options tracker kind lk :
  created db fs -> db_run strerror (mkState db fs Idle) es s -> exit_of s -> writes_room (history_of es) <= 2 ^ 63 ->
  open_env_benign env (st_fs s) -> admitted strerror directory env options kind lk -> numbers_below kUint64Max (st_fs s) ->
  0 < opt_write_buffer_size options <= 2 ^ 63 ->
  exists kind' lk' fs' db' failed, db_open strerror env options directory tracker kind lk (st_fs s) = Some (kind', lk', fs', Ok db') /\
    (failed = [] \/ exists st, Wrote failed st ∈ es /\ ok st = false) /\
    let h := history_of es ++ writes_of failed (len (history_of es) + 1) in
    forall es2 s2, db_run strerror (mkState db' fs' Idle) es2 s2 ->
      exists live, store_run (mkStore h []) es2 (mkStore (history_after h es2) live) /\
        forall reads options key seq, reads_at options (st_db s2) (mkStore (history_after h es2) live) seq -> len key + 8 <= kUint32Max ->
          exists r, get reads options key (st_db s2) = Some r /\ answers (history_after h es2) key seq (benign_reads reads) r.
Proof.
  intros Hc Hr He Hroom Hb Ha Hn Hbuf. destruct (created_run _ _ _ _ Hc Hr) as (g & k & Hi & _ & Hf & Hw & Hd). rewrite <- Hw in Hroom.
  destruct (exit_recovers s g k env options tracker kind lk Hi Hd He Hroom Hb Ha Hn Hbuf) as (kind' & lk' & fs' & db' & g' & k' & Ho & Hi' & Hlive & _ & Hcase).
  exists kind', lk', fs', db'. assert (exists failed, (failed = [] \/ exists st, Wrote failed st ∈ es /\ ok st = false) /\
    whole g' = history_of es ++ writes_of failed (len (history_of es) + 1)) as (failed & Hfail & Hh).
  { rewrite <- Hw. destruct Hcase as [E|E]; [exists []; simpl; rewrite app_nil_r; auto|].
    destruct Hf as [E'|(b & st & E' & Hin & Hst)]; rewrite E' in E; simpl in E; [exists []; auto|]. rewrite app_nil_r in E. exists b. eauto. }
  exists failed. split; [done|]. split; [done|]. simpl. rewrite <- Hh. intros es2 s2 Hr2.
  destruct (db_run_spec strerror _ _ _ Hr2 _ _ Hi') as (g2 & k2 & Hi2 & Hs2 & _). unfold store_of in Hs2 at 1. rewrite Hlive in Hs2.
  exists (live g2). pose proof (store_run_history _ _ _ Hs2) as E. simpl in E. rewrite <- E. split; [done|].
  intros reads options' key seq Hat Hk. by apply get_spec; [apply Hi2|..].
Qed.

(** ** No assertion fails *)

(** The tables a flush or a compaction builds stay below 4 GiB. *)
Definition flush_fits (db : DBImpl) : Prop :=
  forall im es, immutable_ db = Some im -> it_on (mt_newIterator (im_memtable im)) es -> table_room es <= kUint32Max.
Definition compaction_fits (db : DBImpl) (plan : CompactionPlan) (fuel : nat) : Prop :=
  forall v R, current_version_ db = Some v -> version_holds v R ->
    table_room (compaction_input R plan) <= kUint32Max /\ (length (compaction_input R plan) < fuel)%nat.

(** The section the background thread is about to run does not fail an assertion,
    whatever the system answers. *)
Definition background_defined (s : State) : Prop :=
  let db := st_db s in let fs := st_fs s in
  match st_bg s with
  | Flushing => flush_fits db -> forall env, is_Some (flush_build strerror env db fs)
  | FlushBuilt descriptor reader => is_Some (flush_candidate descriptor reader db)
  | FlushReady descriptor candidate _ _ => forall env, is_Some (flush_commit strerror env descriptor candidate db fs)
  | Compacting => is_Some (compact_pick db)
  | CompactPicked plan numbers => forall env fuel, compaction_fits db plan fuel -> is_Some (compact_build strerror env fuel plan numbers db fs)
  | CompactBuilt plan outputs => is_Some (compact_candidate plan outputs db)
  | CompactReady _ outputs candidate _ => forall env, is_Some (compact_commit strerror env outputs candidate db fs)
  | CompactWritten plan candidate version => is_Some (compact_publish plan candidate version db)
  | _ => True
  end.

Lemma background_is_defined s g k : db_inv s g k -> background_defined s.
Proof.
  destruct s as [db fs bg]. intros Hi. unfold background_defined. simpl. destruct bg; try done.
  - intros Hfit env. pose proof (immutable_room _ _ _ _ _ Hi (proj1 (iv_background _ _ _ Hi)) Hfit) as Hroom. destruct (flush_build_spec strerror env db fs g k Hi Hroom) as (? & ? & -> & _). by eexists.
  - destruct (flush_candidate_spec _ _ _ _ _ _ Hi) as (? & ? & ? & -> & _). by eexists.
  - intros env. destruct (flush_commit_spec strerror env _ _ _ _ _ _ _ _ Hi) as (? & ? & ? & -> & _). by eexists.
  - destruct (ri_version _ _ (iv_reads _ _ _ Hi)) as (v & Hv & Hvh & _). simpl in Hv. unfold compact_pick. rewrite Hv.
    destruct (pickCompaction_spec v (runs g) (oldest (snapshots_ db) (last_sequence_ db)) defaultCompactionOptions Hvh) as (p & -> & _). by eexists.
  - intros env fuel Hfit. destruct (ri_version _ _ (iv_reads _ _ _ Hi)) as (v & Hv & Hvh & _). destruct (Hfit v (runs g) Hv Hvh) as [Hr Hf].
    destruct (compact_build_spec strerror env fuel plan numbers db fs g k Hi Hr Hf) as (? & ? & ? & -> & _). by eexists.
  - destruct (compact_candidate_spec _ _ _ _ _ _ Hi) as (? & ? & -> & _). by eexists.
  - intros env. destruct (compact_commit_spec strerror env _ _ _ _ _ _ _ _ Hi) as (? & ? & ? & -> & _). by eexists.
  - destruct (compact_publish_spec _ _ _ _ _ _ _ Hi) as (? & ? & -> & _). by eexists.
Qed.


End database.

(** ** A concrete database *)

Definition quiet_open (entries : list string) : DbOpenEnv :=
  mkDbOpenEnv (mkPrepareEnv None None None) (mkLockEnv (inr 3) None) None entries None (mkManifestReadEnv None None true [] None)
    (mkManifestEnv None [WriteCount 3; WriteErrno EINTR] [] None None true) (fun _ => mkOpenEnv None None None None [])
    (fun _ => mkWalFileEnv None [ReadErrno EINTR; ReadCount 2] None None) None (fun _ => true) (None, None) ([], []) None.

Definition sample_opened : option (DBImpl * Directory) :=
  match @db_open bump_allocator (fun _ => "") (quiet_open []) defaultDBOptions "d" 0 PathAbsent (mkLockFile ∅ None) ∅ with
  | Some (_, _, fs, Ok db) => Some (db, fs)
  | _ => None
  end.

Definition sample_batch : WriteBatch := wb_erase (wb_put [] [x61] [x01]) [x62].

Definition sample_written : option (DBImpl * Directory * option Status) :=
  '(db, fs) ← sample_opened; @write bump_allocator (fun _ => "") (mkWriteEnv None [WriteCount 5] [EINTR]) kSync sample_batch db fs.


Lemma lists_dom (fs : Directory) : lists (map fst (map_to_list fs)) fs.
Proof.
  split; [apply NoDup_fst_map_to_list|]. intros path. rewrite <- elem_of_dom. split; intros Hp.
  - apply list_elem_of_fmap in Hp as ([p f] & -> & Hin). apply elem_of_map_to_list in Hin. by apply elem_of_dom_2 in Hin.
  - apply elem_of_dom in Hp as [f Hf]. apply list_elem_of_fmap. exists (path, f). split; [done|]. by apply elem_of_map_to_list.
Qed.

Lemma quiet_benign entries fs : lists entries fs -> open_env_benign (quiet_open entries) fs.
Proof.
  intros Hl. split; [done|done|done| | | |done].
  - by split_and!.
  - intros meta. by split_and!.
  - intros n. split_and!; [done| |done|done]. apply Forall_cons_iff. split; [done|]. apply Forall_cons_iff. by split.
Qed.

Lemma nothing_listed : lists [] (∅ : Directory).
Proof. split; [constructor|]. intros path. rewrite lookup_empty. split; [by intros ?%elem_of_nil|by intros [? ?]]. Qed.

Lemma nothing_below limit : numbers_below limit (∅ : Directory).
Proof. intros path n t [f Hf]. by rewrite lookup_empty in Hf. Qed.

(** A database created in an empty directory. *)
Lemma created_empty options directory db fs kind lk kind' lk' : opt_write_buffer_size options <= 2 ^ 63 ->
  @db_open bump_allocator (fun _ => "") (quiet_open []) options directory 0 kind lk ∅ = Some (kind', lk', fs, Ok db) -> @created bump_allocator (fun _ => "") directory db fs.
Proof.
  intros Hbuf E. exists (quiet_open []), options, 0%nat, kind, lk, ∅, kind', lk'.
  split; [exact E|]. clear E. split_and!; [done|apply nothing_listed|apply lookup_empty|apply nothing_below|exact Hbuf].
Qed.

Lemma sample_created db fs : sample_opened = Some (db, fs) -> @created bump_allocator (fun _ => "") "d" db fs.
Proof.
  unfold sample_opened. destruct (db_open _ _ _ _ _ _ _ _) as [[[[kind lk] fs1] [db1|st]]|] eqn:E; [|discriminate 1|discriminate 1]. intros Heq.
  injection Heq as <- <-. eapply created_empty; [|exact E]. clear E. by vm_compute.
Qed.
#[local] Opaque sample_opened.

(** The sample database accepts the batch. *)
Lemma sample_write : exists db fs db1 fs1, @created bump_allocator (fun _ => "") "d" db fs /\
  @write bump_allocator (fun _ => "") (mkWriteEnv None [WriteCount 5] [EINTR]) kSync sample_batch db fs = Some (db1, fs1, Some success) /\
  wal_number_ db1 = 1 /\ map_Forall (fun path f => len (contents f) <= 1000) fs1 /\ map fst (map_to_list fs1) = ["d/MANIFEST"; "d/000001.log"].
Proof.
  assert (match sample_written with
          | Some (db1, fs1, Some st) => bool_decide (st = success) && (wal_number_ db1 =? 1) && bool_decide (map_Forall (fun path f => len (contents f) <= 1000) fs1) &&
              bool_decide (map fst (map_to_list fs1) = ["d/MANIFEST"; "d/000001.log"])
          | _ => false end = true) as Hs by (vm_compute; reflexivity).
  unfold sample_written in Hs. destruct sample_opened as [[db fs]|] eqn:Ho; [|discriminate Hs]. apply sample_created in Ho. cbn [mbind option_bind] in Hs.
  destruct (write _ _ _ _ db fs) as [[[db1 fs1] [st|]]|] eqn:E; [|discriminate Hs..]. rewrite !andb_true_iff, !bool_decide_eq_true, Z.eqb_eq in Hs.
  destruct Hs as [[[-> Hn] Hf] Hl]. exists db, fs, db1, fs1. repeat (split; [assumption|]). assumption.
Qed.

Lemma sample_batch_wf : wf_batch sample_batch.
Proof. by repeat constructor. Qed.

Lemma database_refines_store_witness :
  exists db1 fs1, @db_run bump_allocator (fun _ => "") (mkState db1 fs1 Idle) [] (mkState db1 fs1 Idle) /\
    forall reads, exists r, get reads (mkReadOptions None true) [x61] db1 = Some r /\
      answers (history_of [Wrote sample_batch success]) [x61] 2 (benign_reads reads) r /\ history_get (history_of [Wrote sample_batch success]) [x61] 2 = Some [x01].
Proof.
  destruct sample_write as (db & fs & db1 & fs1 & Ho & Hw & _). exists db1, fs1. split; [constructor|]. intros reads.
  destruct (@database_refines_store bump_allocator bump_allocator_laws (fun _ => "") "d" db fs [Wrote sample_batch success] (mkState db1 fs1 Idle)) as (live & _ & Hr).
  - exact Ho.
  - eapply db_run_cons; [|constructor]. eapply (db_write _ _ kSync sample_batch db fs Idle db1 fs1 (Some success)); [apply sample_batch_wf|exact Hw].
  - destruct (Hr reads (mkReadOptions None true) [x61] 2) as [(r & Hg & Ha) _]; [by vm_compute|by vm_compute|]. exists r. split_and!; [done|done|by vm_compute].
Defined.

(** What a crash leaves when everything had reached the disk. *)
Definition reached_disk (fs : Directory) : Directory := (fun f => mkLogFile (contents f) (length (contents f))) <$> fs.

Lemma crash_reached fs : crash_directory fs (reached_disk fs).
Proof.
  intros path. unfold reached_disk. rewrite lookup_fmap. destruct (fs !! path) as [f|] eqn:E; [|done]. simpl. split; [|done].
  rewrite <- (take_ge (contents f) (Nat.max (durable f) (length (contents f)))) at 1 by lia. constructor. lia.
Qed.



Lemma restart_keeps_writes_witness :
  exists fs1 kind' lk' fs' db', @db_open bump_allocator (fun _ => "") (quiet_open ["d/MANIFEST"; "d/000001.log"]) defaultDBOptions "d" 1 PathDirectory (mkLockFile ∅ None) fs1 = Some (kind', lk', fs', Ok db') /\
    forall reads, exists failed r, get reads (mkReadOptions None true) [x61] db' = Some r /\ (failed = [] \/ exists st, Wrote failed st ∈ [Wrote sample_batch success] /\ ok st = false) /\
      let h := history_of [Wrote sample_batch success] ++ writes_of failed 3 in answers h [x61] (len h) (benign_reads reads) r.
Proof.
  destruct sample_write as (db & fs & db1 & fs1 & Ho & Hw & Hn & Hsz & Hls). exists fs1. pose proof (lists_dom fs1) as [Hnd Hin]. rewrite Hls in Hnd, Hin.
  destruct (@restart_keeps_writes bump_allocator bump_allocator_laws (fun _ => "") "d" db fs [Wrote sample_batch success] (mkState db1 fs1 Idle)
    (quiet_open ["d/MANIFEST"; "d/000001.log"]) defaultDBOptions 1 PathDirectory (mkLockFile ∅ None)) as (kind' & lk' & fs' & db' & failed & Hopen & Hfail & Hrun).
  - exact Ho.
  - eapply db_run_cons; [|constructor]. eapply (db_write _ _ kSync sample_batch db fs Idle db1 fs1 (Some success)); [apply sample_batch_wf|exact Hw].
  - split; simpl.
    + intros path f Hf. specialize (Hsz path f Hf). simpl in Hsz. lia.
    + intros f Hf. specialize (Hsz _ f Hf). simpl in Hsz. unfold kMaximumManifestSize. lia.
  - by vm_compute.
  - apply quiet_benign. split; [done|]. intros path. apply Hin.
  - by vm_compute.
  - intros path n t. simpl. rewrite <- Hin. intros Hp Hpa. rewrite !elem_of_cons in Hp. destruct Hp as [->|[->|Hp]]; [..|by apply elem_of_nil in Hp]; vm_compute in Hpa; simplify_eq; done.
  - by vm_compute.
  - exists kind', lk', fs', db'. split; [exact Hopen|]. clear Hopen. intros reads. destruct (Hrun [] (mkState db' fs' Idle) (db_run_nil _ _)) as (live & _ & Hr).
    destruct (Hr reads (mkReadOptions None true) [x61] (len (history_of [Wrote sample_batch success] ++ writes_of failed 3))) as (r & Hg & Hans); [reflexivity|clear; by vm_compute|].
    exists failed, r. split; [exact Hg|]. split; [exact Hfail|exact Hans].
Defined.

(** ** Two ways to lose a database *)

Definition small_buffer : DBOptions := mkDBOptions kOpenOrCreate 1.
Definition put_of (key value : bytes) : WriteBatch := wb_put [] key value.

(** A write that is not synced, then one that is and rotates the log. *)
Definition rotation : option (DBImpl * Directory * DBImpl * Directory * DBImpl * Directory) :=
  match @db_open bump_allocator (fun _ => "") (quiet_open []) small_buffer "d" 0 PathAbsent (mkLockFile ∅ None) ∅ with
  | Some (_, _, fs, Ok db) =>
      '(db1, fs1, r1) ← @write bump_allocator (fun _ => "") (mkWriteEnv None [] []) kAsync (put_of [x61] [x01]) db fs;
      '(db2, fs2, r2) ← @write bump_allocator (fun _ => "") (mkWriteEnv None [] []) kSync (put_of [x62] [x02]) db1 fs1;
      _ ← assert_that (bool_decide (r1 = Some success) && bool_decide (r2 = Some success));
      Some (db, fs, db1, fs1, db2, fs2)
  | _ => None
  end.

(** The two writes succeed, and what is computed of the last state is so. *)
Lemma rotation_holds (P : DBImpl -> Directory -> bool) : match rotation with Some (_, _, _, _, db2, fs2) => P db2 fs2 | None => false end = true ->
  exists db fs db1 fs1 db2 fs2, @created bump_allocator (fun _ => "") "d" db fs /\
    @write bump_allocator (fun _ => "") (mkWriteEnv None [] []) kAsync (put_of [x61] [x01]) db fs = Some (db1, fs1, Some success) /\
    @write bump_allocator (fun _ => "") (mkWriteEnv None [] []) kSync (put_of [x62] [x02]) db1 fs1 = Some (db2, fs2, Some success) /\ P db2 fs2 = true.
Proof.
  unfold rotation. intros Hs. destruct (db_open _ _ _ _ _ _ _ _) as [[[[kind lk] fs] [db|st]]|] eqn:Eo; [|discriminate Hs|discriminate Hs].
  apply created_empty in Eo; [|clear; by vm_compute].
  destruct (write _ _ kAsync _ db fs) as [[[db1 fs1] r1]|] eqn:E1; [|discriminate Hs]. cbn [mbind option_bind] in Hs.
  destruct (write _ _ kSync _ db1 fs1) as [[[db2 fs2] r2]|] eqn:E2; [|discriminate Hs]. cbn [mbind option_bind] in Hs.
  destruct (bool_decide (r1 = Some success) && bool_decide (r2 = Some success)) eqn:Er; [|discriminate Hs]. cbn [assert_that mbind option_bind] in Hs.
  rewrite andb_true_iff, !bool_decide_eq_true in Er. destruct Er as [-> ->]. exists db, fs, db1, fs1, db2, fs2. split; [exact Eo|]. split; [exact E1|]. split; [exact E2|exact Hs].
Qed.

(** Of every file only the synced part is left. *)
Definition lost_cache (fs : Directory) : Directory := (fun f => mkLogFile (take (durable f) (contents f)) (length (take (durable f) (contents f)))) <$> fs.

Lemma crash_lost fs : crash_directory fs (lost_cache fs).
Proof.
  intros path. unfold lost_cache. rewrite lookup_fmap. destruct (fs !! path) as [f|] eqn:E; [|done]. simpl. split; [|done]. constructor. lia.
Qed.

#[global] Instance LogFile_eq_dec : EqDecision LogFile.
Proof. solve_decision. Defined.

(** The error with which opening fails. *)
Definition open_error (env : DbOpenEnv) (options : DBOptions) (kind : path_kind) (fs : Directory) : option Status :=
  match @db_open bump_allocator (fun _ => "") env options "d" 1 kind (mkLockFile ∅ None) fs with Some (_, _, _, Err st) => Some st | _ => None end.

(** C39. Rotating the log without syncing it can make the database unopenable.  A
    write that is not synced, followed by a synced write for which the memtable
    is full, leaves the first one in an older log that nobody syncs any more.
    After a crash that loses it, opening the database fails with a corruption
    error, although every file is as the operating system promises and the
    second write was acknowledged as synced: the premise on older logs in
    [synced_writes_survive] cannot be dropped. *)
Theorem rotation_blocks_recovery :
  exists db fs db1 fs1 db2 fs2 entries,
    @created bump_allocator (fun _ => "") "d" db fs /\
    @write bump_allocator (fun _ => "") (mkWriteEnv None [] []) kAsync (put_of [x61] [x01]) db fs = Some (db1, fs1, Some success) /\
    @write bump_allocator (fun _ => "") (mkWriteEnv None [] []) kSync (put_of [x62] [x02]) db1 fs1 = Some (db2, fs2, Some success) /\
    crash_directory fs2 (lost_cache fs2) /\ open_env_benign (quiet_open entries) (lost_cache fs2) /\
    admitted (fun _ => "") "d" (quiet_open entries) small_buffer PathDirectory (mkLockFile ∅ None) /\
    open_error (quiet_open entries) small_buffer PathDirectory (lost_cache fs2) = Some (corruption "write batch sequence is not contiguous").
Proof.
  destruct (rotation_holds (fun _ fs2 => bool_decide (open_error (quiet_open (map fst (map_to_list (lost_cache fs2)))) small_buffer PathDirectory (lost_cache fs2) =
    Some (corruption "write batch sequence is not contiguous")))) as (db & fs & db1 & fs1 & db2 & fs2 & Hc & E1 & E2 & Hs); [vm_compute; reflexivity|]. apply bool_decide_eq_true in Hs.
  exists db, fs, db1, fs1, db2, fs2, (map fst (map_to_list (lost_cache fs2))). split; [exact Hc|]. split; [exact E1|]. split; [exact E2|].
  split; [apply crash_lost|]. split; [apply quiet_benign, lists_dom|]. split; [|exact Hs]. clear. by vm_compute.
Qed.

(** The directory could not take the manifest. *)
Definition full_disk : DbOpenEnv :=
  mkDbOpenEnv (mkPrepareEnv None None None) (mkLockEnv (inr 3) None) None [] None (mkManifestReadEnv None None true [] None)
    (mkManifestEnv None [WriteErrno 28] [] None None true) (fun _ => mkOpenEnv None None None None []) (fun _ => mkWalFileEnv None [] None None) None (fun _ => true)
    (None, None) ([], []) None.

(** C40. A creation that fails blocks every later one.  The first log is created
    before the manifest, so when the manifest cannot be written the log stays
    behind; from then on every attempt to open the directory, in every mode that
    accepts an existing directory and with every answer of the system that lets
    it look, is refused as corrupt. *)
Theorem failed_creation_blocks_opening :
  exists fs st, (exists kind lk, @db_open bump_allocator (fun _ => "") full_disk defaultDBOptions "d" 0 PathAbsent (mkLockFile ∅ None) ∅ = Some (kind, lk, fs, Err st)) /\
    forall strerror env options tracker lk, opt_write_buffer_size options <> 0 -> admitted strerror "d" env options PathDirectory lk ->
      do_list_error env = None -> lists (do_entries env) fs -> do_exists env = None ->
      exists kind' lk', @db_open bump_allocator strerror env options "d" tracker PathDirectory lk fs =
        Some (kind', lk', fs, Err (corruption "database files exist without a manifest")).
Proof.
  assert (match @db_open bump_allocator (fun _ => "") full_disk defaultDBOptions "d" 0 PathAbsent (mkLockFile ∅ None) ∅ with
          | Some (_, _, fs, Err st) => bool_decide (fs = {["d/000001.log" := mkLogFile [] 0]}) | _ => false end = true) as Hs by (vm_compute; reflexivity).
  destruct (db_open _ _ _ _ _ _ _ _) as [[[[kind lk] fs] [db|st]]|] eqn:E; [discriminate Hs| |discriminate Hs]. apply bool_decide_eq_true in Hs.
  exists fs, st. split; [by exists kind, lk|]. clear E kind lk st. intros strerror env options tracker lk Hbuf (A1 & A2 & A3) Hle Hl Hex. unfold db_open.
  destruct (Z.eqb_spec (opt_write_buffer_size options) 0); [done|].
  destruct (prepareDatabaseDirectory _ _ _ _ _) as [kind' st']. simpl in A1. rewrite A1. cbn [negb].
  destruct (acquireDatabaseLock _ _ _ _ _) as [[lock lk'] st'']. simpl in A2. rewrite A2. cbn [negb].
  destruct (@newDBImpl_spec bump_allocator bump_allocator_laws "d" options lock tracker) as (m & _ & ->). cbn [mbind option_bind]. rewrite Hle.
  destruct (scanDatabaseDirectory strerror None "d" (do_entries env)) as [files|] eqn:Hscan; [|done].
  assert (numbers_below kUint64Max fs) as Hb.
  { intros path num t. subst fs. rewrite lookup_singleton_is_Some. intros <- Hp. vm_compute in Hp. by simplify_eq. }
  pose proof (scanned_maximum strerror "d" _ _ kUint64Max _ ltac:(done) Hl Hb Hscan) as Hmax. destruct (Z.eqb_spec (maximum_number files) kUint64Max); [lia|]. rewrite Hex.
  assert (fs !! manifestFileName "d" = None) as -> by (subst fs; by vm_compute).
  injection Hscan as Hfiles. destruct Hl as [_ Hl]. destruct (scan_entries_spec (do_entries env) (mkDirectoryContents [] false 0)) as (Hw & _).
  assert (1 ∈ wal_numbers files) as Hin.
  { rewrite <- Hfiles. simpl. rewrite (merge_sort_Permutation Z.le), Hw. simpl. apply list_elem_of_omap. exists "d/000001.log". split; [|by vm_compute]. apply Hl. subst fs.
    rewrite lookup_singleton_is_Some. done. }
  unfold initializeNewDatabase. rewrite bool_decide_false by (intros E; rewrite E in Hin; by apply elem_of_nil in Hin). cbn [negb orb mbind option_bind].
  eexists _, _. reflexivity.
Qed.
