(* ===== verification/DbLiveness.v ===== *)
(** Liveness of the background thread (src/db/db_impl.cc: backgroundLoop, compact,
    flushImmutableMemTable): a turn of its loop always ends, and a writer that
    waits for the immutable memtable is released after finitely many turns. *)
From S2P Require Import Prelude Posix Status Coding InternalKey Mvcc WriteBatch Wal BlockBuilder SSTableBuilder Iterator SSTableReader Arena SkipList MemTable MergingIterator DbIterator Filename Level Manifest Snapshot DbFiles Version Compaction CompactionReads CompactionBuild FlushMemTable DbImpl History DbState DbLog DbDisk DbSteps DbWrite DbFlush DbCompact DbRefine DbRecovery Database.

(** ** A compaction looks only at the numbers it takes *)

Section numbers.
Context (strerror : Z -> string) (envs : Z -> OutputEnv) (effective : string -> bool) (directory : string).
Context (allocate allocate' : FileNumberAllocator).

Lemma finishOutput_allocated w fs w' fs' st : finishOutput strerror envs effective directory w fs = Some (w', fs', st) -> allocated_ w' = allocated_ w.
Proof.
  unfold finishOutput. intros Hf. apply bind_Some in Hf as (b & _ & Hf). apply bind_Some in Hf as (? & _ & Hf). apply bind_Some in Hf as ([b' r] & _ & Hf).
  destruct r as [completed|]; [|by simplify_eq]. destruct (renameTable _ _ _ _ _ _) as [fs1 st1]. destruct (negb (ok st1)); [by simplify_eq|].
  apply bind_Some in Hf as ([reader|] & _ & Hf); by simplify_eq.
Qed.

Lemma openOutput_same w fs : allocate (allocated_ w) = allocate' (allocated_ w) ->
  openOutput strerror envs directory allocate w fs = openOutput strerror envs directory allocate' w fs.
Proof. unfold openOutput. by intros ->. Qed.

Lemma openOutput_allocated w fs w' fs' st : openOutput strerror envs directory allocate w fs = Some (w', fs', st) -> allocated_ w' = S (allocated_ w).
Proof.
  unfold openOutput. destruct (allocate _) as [n|]; [|by intros [= <- _ _]]. destruct (n =? 0); [by intros [= <- _ _]|]. destruct (ov_exists _); [by intros [= <- _ _]|].
  destruct (fs !! _); [by intros [= <- _ _]|]. intros Ho. apply bind_Some in Ho as ([fs1 [b|]] & _ & Ho); by simplify_eq.
Qed.

(** The numbers an operation took, and that it does the same with any others that
    agree on them. *)
Lemma writer_add_same target w key user value fs w' fs' st :
  writer_add strerror envs effective directory allocate target w key user value fs = Some (w', fs', st) ->
  (allocated_ w <= allocated_ w' <= S (allocated_ w))%nat /\
  ((forall i, (i < allocated_ w')%nat -> allocate i = allocate' i) ->
   writer_add strerror envs effective directory allocate' target w key user value fs = Some (w', fs', st)).
Proof.
  unfold writer_add. intros Ha. apply bind_Some in Ha as ([[w1 fs1] st1] & H1 & Ha).
  assert (allocated_ w1 = allocated_ w) as E1.
  { destruct (builder_ w); [|by simplify_eq]. destruct (_ && _); [|by simplify_eq]. by apply finishOutput_allocated in H1. }
  rewrite H1. cbn [mbind option_bind]. destruct (negb (ok st1)); [simplify_eq; split; [lia|done]|].
  apply bind_Some in Ha as ([[w2 fs2] st2] & H2 & Ha). assert (allocated_ w2 = allocated_ w') as E2.
  { destruct (negb (ok st2)); [by simplify_eq|]. apply bind_Some in Ha as (b & _ & Ha). apply bind_Some in Ha as ([b' st3] & _ & Ha). destruct (negb (ok st3)); by injection Ha as <- <- <-. }
  destruct (builder_ w1) as [b|] eqn:Eb.
  - injection H2 as <- <- <-. split; [lia|]. intros _. exact Ha.
  - pose proof (openOutput_allocated _ _ _ _ _ H2) as E3. split; [lia|]. intros Hsame. rewrite <- openOutput_same by (apply Hsame; lia). rewrite H2. exact Ha.
Qed.

Lemma merge_loop_same target fuel oldest : forall iterator previous d w fs w' fs' st,
  merge_loop strerror envs effective directory allocate target fuel oldest iterator previous d w fs = Some (w', fs', st) ->
  (allocated_ w <= allocated_ w' <= allocated_ w + fuel)%nat /\
  ((forall i, (i < allocated_ w')%nat -> allocate i = allocate' i) ->
   merge_loop strerror envs effective directory allocate' target fuel oldest iterator previous d w fs = Some (w', fs', st)).
Proof.
  induction fuel as [|fuel IH]; intros iterator previous d w fs w' fs' st Hm; [done|]. cbn [merge_loop] in Hm |- *.
  destruct (negb (mg_valid iterator)); [simplify_eq; split; [lia|done]|]. apply bind_Some in Hm as (key & -> & Hm). cbn [mbind option_bind].
  destruct (_ && _); [simplify_eq; split; [lia|done]|]. destruct (parseInternalKey key) as [parsed|]; [|simplify_eq; split; [lia|done]].
  apply bind_Some in Hm as ([drop d1] & -> & Hm). cbn [mbind option_bind]. apply bind_Some in Hm as ([[w1 fs1] st1] & H1 & Hm).
  assert ((allocated_ w <= allocated_ w1 <= S (allocated_ w))%nat /\ ((forall i, (i < allocated_ w1)%nat -> allocate i = allocate' i) ->
    (if drop : bool then Some (w, fs, success) else value ← mg_value iterator; writer_add strerror envs effective directory allocate' target w key (user_key parsed) value fs) =
    Some (w1, fs1, st1))) as [Hle Hs1].
  { destruct drop; [simplify_eq; split; [lia|done]|]. apply bind_Some in H1 as (value & -> & H1). by apply writer_add_same in H1. }
  destruct (negb (ok st1)) eqn:E1.
  { simplify_eq. split; [lia|]. intros Hsame. rewrite Hs1 by done. cbn [mbind option_bind]. by rewrite E1. }
  apply bind_Some in Hm as (it & Hn & Hm). destruct (negb (ok (mg_status_ it))) eqn:E2.
  { simplify_eq. split; [lia|]. intros Hsame. rewrite Hs1 by done. cbn [mbind option_bind]. rewrite E1, Hn. cbn [mbind option_bind]. by rewrite E2. }
  apply IH in Hm as [Hle' Hm]. split; [lia|]. intros Hsame. rewrite Hs1 by (intros i Hi; apply Hsame; lia). cbn [mbind option_bind]. rewrite E1, Hn. cbn [mbind option_bind]. rewrite E2. auto.
Qed.

Lemma buildCompactionTables_same reads fuel plan options fs fs' n r :
  buildCompactionTables strerror envs effective reads fuel plan directory (Some allocate) options fs = Some (fs', n, r) ->
  (n <= fuel)%nat /\ ((forall i, (i < n)%nat -> allocate i = allocate' i) ->
    buildCompactionTables strerror envs effective reads fuel plan directory (Some allocate') options fs = Some (fs', n, r)).
Proof.
  unfold buildCompactionTables. destruct (input_version plan) as [version|]; [|by intros [= <- <- <-]; split; [lia|]].
  rewrite !(bool_decide_false (Some _ = None)) by done. destruct (_ || _ || _ || _); [by intros [= <- <- <-]; split; [lia|]|]. cbn [mbind option_bind].
  destruct (level_at version (input_level plan)) as [source|]; [|done]. destruct (level_at version (outputLevel plan)) as [tgt|]; [|done]. cbn [mbind option_bind].
  destruct (_ || _ || _); [by intros [= <- <- <-]; split; [lia|]|]. destruct (add_iterators _ _) as [[its|]|]; [|by intros [= <- <- <-]; split; [lia|]|done]. cbn [mbind option_bind].
  destruct (mg_seekToFirst _) as [it|]; [|done]. cbn [mbind option_bind]. destruct (negb _); [by intros [= <- <- <-]; split; [lia|]|].
  intros Hm. apply bind_Some in Hm as ([[w fs1] st] & Hl & Hm). apply merge_loop_same in Hl as [Hle Hl]. simpl in Hle.
  assert (n = allocated_ w) as ->.
  { destruct (negb (ok st)); [by simplify_eq|]. apply bind_Some in Hm as ([[w' fs2] outs] & Hf & Hm). simplify_eq. unfold writer_finish in Hf.
    apply bind_Some in Hf as ([[w2 fs3] st2] & Hf & Hw). assert (allocated_ w2 = allocated_ w) as <- by (destruct (builder_ w); [by apply finishOutput_allocated in Hf|by simplify_eq]).
    destruct (negb (ok st2)); by simplify_eq. }
  split; [lia|]. intros Hsame. by rewrite Hl.
Qed.

End numbers.

Section liveness.
Context `{SystemAllocatorLaws} (strerror : Z -> string) (directory : string).

(** ** The numbers handed out in a row *)

Lemma allocateFileNumbers_frame n : forall db, exists next, (allocateFileNumbers n db).1 = set_next_file_number db next.
Proof.
  induction n as [|n IH]; intros db; [exists (next_file_number_ db); by destruct db|]. simpl. unfold allocateFileNumber.
  destruct (next_file_number_ db =? kUint64Max).
  - destruct (IH db) as [next E]. destruct (allocateFileNumbers n db). by exists next.
  - set (db1 := set_next_file_number db _). destruct (IH db1) as [next E]. destruct (allocateFileNumbers n db1). exists next. simpl in *. by rewrite E.
Qed.

Lemma allocateFileNumbers_take n : forall m db, (n <= m)%nat -> take n (allocateFileNumbers m db).2 = (allocateFileNumbers n db).2.
Proof.
  induction n as [|n IH]; intros [|m] db Hle; [done|done|lia|]. simpl. destruct (allocateFileNumber db) as [db1 r]. specialize (IH m db1 ltac:(lia)).
  destruct (allocateFileNumbers m db1), (allocateFileNumbers n db1). simpl in *. by rewrite IH.
Qed.

Lemma allocateFileNumbers_length n : forall db, length (allocateFileNumbers n db).2 = n.
Proof. induction n as [|n IH]; intros db; [done|]. simpl. destruct (allocateFileNumber db) as [db1 r]. specialize (IH db1). destruct (allocateFileNumbers n db1). simpl in *. by rewrite IH. Qed.

Lemma allocateFileNumbers_inv n : forall db numbers plan fs g k, db_inv (mkState db fs (CompactPicked plan numbers)) g k ->
  db_inv (mkState (allocateFileNumbers n db).1 fs (CompactPicked plan (numbers ++ (allocateFileNumbers n db).2))) g k.
Proof.
  induction n as [|n IH]; intros db numbers plan fs g k Hi; [simpl; by rewrite app_nil_r|]. simpl. pose proof (compact_number_spec _ _ _ _ _ _ Hi) as Hn.
  destruct (allocateFileNumber db) as [db1 r]. apply IH in Hn. destruct (allocateFileNumbers n db1). simpl in *. by rewrite <- app_assoc in Hn.
Qed.

(** ** A table has room for what is merged *)

Lemma table_room_subset a b : a ⊆+ b -> table_room a <= table_room b.
Proof. intros (c & Hp)%submseteq_Permutation. rewrite (table_room_perm _ _ Hp), table_room_app. pose proof (table_room_nonneg c). lia. Qed.

Lemma compaction_room db g v plan : reads_inv db g -> current_version_ db = Some v -> plan_ok v (runs g) plan ->
  table_room (compaction_input (runs g) plan) <= table_room (entries (in_tables g)) /\ (length (compaction_input (runs g) plan) <= length (in_tables g))%nat.
Proof.
  intros Hr Hv Hp. destruct (ri_version _ _ Hr) as (v' & Hv' & Hvh & [Hl He _]). rewrite Hv in Hv'. injection Hv' as <-.
  pose proof (compaction_old v (runs g) plan Hvh Hp) as Hperm. pose proof (layers_nodup _ Hl (runs_sorted v (runs g) Hvh)) as Hnd. apply NoDup_fmap_1 in Hnd.
  assert (compaction_input (runs g) plan ⊆+ entries (in_tables g)) as Hsub.
  { transitivity (concat (version_layers (runs g))); [|by apply NoDup_submseteq]. rewrite Hperm. by apply submseteq_inserts_l, submseteq_inserts_r. }
  split; [by apply table_room_subset|]. apply submseteq_length in Hsub. unfold entries in Hsub. by rewrite length_map in Hsub.
Qed.

(** ** One turn *)

(** What both kinds of work leave alone. *)
Definition flags_kept (db db' : DBImpl) : Prop := shutting_down_ db' = shutting_down_ db /\ background_error_ db' = background_error_ db.

Lemma flush_turn env db fs g k : db_inv (mkState db fs Flushing) g k -> table_room (entries (in_immutable g)) <= kUint32Max ->
  exists db' fs' st g' k', flushImmutableMemTable strerror env db fs = Some (db', fs', st) /\
    db_inv (mkState db' fs' (if ok st then background_again db' else Failed st)) g' k' /\ store_of g' = store_of g /\ flags_kept db db' /\
    (ok st = true -> immutable_ db' = None).
Proof.
  intros Hi Hroom. unfold flushImmutableMemTable. destruct (flush_build_spec strerror env db fs g k Hi Hroom) as (fs1 & r & -> & Hi1). cbn [mbind option_bind].
  assert (forall st, db_inv (mkState db fs1 (Failed st)) g k -> ok st = false) as Hbad by (intros st Hf; by apply (iv_background _ _ _ Hf)).
  destruct r as [[descriptor reader]|st].
  2:{ exists db, fs1, st, g, k. rewrite (Hbad st Hi1). split_and!; (done || by split). }
  destruct (flush_candidate_spec _ _ _ _ _ _ Hi1) as (candidate & version & live & -> & Hi2). cbn [mbind option_bind].
  destruct (flush_commit_spec strerror env _ _ _ _ _ _ _ _ Hi2) as (fs2 & st & k2 & -> & Hi3 & _). cbn [mbind option_bind]. destruct (ok st) eqn:E; cbn [negb].
  - destruct (flush_publish_spec _ _ _ _ _ _ _ Hi3) as (g' & Hi4 & Hs). apply (flush_clean_spec env) in Hi4. eexists _, _, success, g', k2. split; [done|]. by split_and!.
  - exists db, fs2, st, g, k2. rewrite E. by split_and!.
Qed.

(** The merge takes the first numbers of those it is offered. *)
Lemma compact_build_turn env fuel plan db fs g k v : db_inv (mkState db fs (CompactPicked plan [])) g k -> current_version_ db = Some v -> plan_ok v (runs g) plan ->
  table_room (entries (in_tables g)) <= kUint32Max -> (length (in_tables g) < fuel)%nat ->
  exists fs' n r next, compact_build strerror env fuel plan (allocateFileNumbers fuel db).2 db fs = Some (fs', n, r) /\
    (allocateFileNumbers n db).1 = set_next_file_number db next /\
    db_inv (mkState (set_next_file_number db next) fs' (match r with Ok outputs => CompactBuilt plan outputs | Err status => Failed status end)) g k.
Proof.
  intros Hi Hv Hpo Hroom Hfuel. destruct (compaction_room db g v plan (iv_reads _ _ _ Hi) Hv Hpo) as [Hroom1 Hlen1].
  pose proof (allocateFileNumbers_inv fuel db [] plan fs g k Hi) as Hif. simpl app in Hif.
  destruct (compact_build_spec strerror env fuel plan _ _ fs g k Hif ltac:(lia) ltac:(lia)) as (fs1 & n & r & Hb & _).
  destruct (allocateFileNumbers_frame fuel db) as [next Ef]. rewrite Ef in Hb. unfold compact_build in Hb |- *. cbn [directory_ set_next_file_number] in Hb. rewrite Hb.
  pose proof (allocateFileNumbers_inv n db [] plan fs g k Hi) as Hin. simpl app in Hin. destruct (allocateFileNumbers_frame n db) as [next' En].
  destruct (buildCompactionTables_same strerror (cc_outputs env) (cc_effective env) (directory_ db) _
    (fun i => default (Err (ioError "database file number space is exhausted")) ((allocateFileNumbers n db).2 !! i)) _ _ _ _ _ _ _ _ Hb) as [Hnf Hsame].
  specialize (Hsame ltac:(intros i Hlti; rewrite <- (allocateFileNumbers_take n fuel db Hnf), lookup_take_lt by done; done)).
  destruct (compact_build_spec strerror env fuel plan _ _ fs g k Hin ltac:(lia) ltac:(lia)) as (fs1' & n' & r' & Hb' & Hi2).
  rewrite En in Hi2, Hb'. unfold compact_build in Hb'. cbn [directory_ set_next_file_number] in Hb'. rewrite Hsame in Hb'. injection Hb' as <- <- <-. by exists fs1, n, r, next'.
Qed.

(** A failed compaction, and a successful one. *)
Lemma compact_turn env fuel db fs g k v : db_inv (mkState db fs Compacting) g k -> last_sequence_ db < kMaxSequenceNumber -> current_version_ db = Some v ->
  table_room (entries (in_tables g)) <= kUint32Max -> (length (in_tables g) < fuel)%nat ->
  exists db' fs' st g' k', compact strerror env fuel db fs = Some (db', fs', st) /\
    db_inv (mkState db' fs' (if ok st then background_again db' else Failed st)) g' k' /\ store_of g' = store_of g /\ flags_kept db db' /\
    immutable_ db' = immutable_ db /\
    (ok st = true -> hasCompactionWork db = true -> exists v', current_version_ db' = Some v' /\ compaction_of defaultCompactionOptions v v').
Proof.
  intros Hi Hlt Hv Hroom Hfuel. pose proof (iv_reads _ _ _ Hi) as Hr. simpl in Hr. unfold compact. destruct (compact_pick_spec _ _ _ _ Hi Hlt) as (p & Hpick & Hi1). rewrite Hpick. cbn [mbind option_bind].
  destruct p as [plan|].
  2:{ exists db, fs, success, g, k. split; [done|]. change (ok success) with true. cbn iota. split_and!; [done|done|by split|done|]. intros _ Hwork. exfalso.
    destruct (ri_version _ _ Hr) as (v' & Hv' & Hvh & _). rewrite Hv in Hv'. injection Hv' as <-. unfold hasCompactionWork in Hwork. unfold compact_pick in Hpick. rewrite Hv in Hwork, Hpick.
    destruct (pickCompaction_spec v (runs g) (oldest (snapshots_ db) (last_sequence_ db)) defaultCompactionOptions Hvh) as (p & Hp & Hn). rewrite Hpick in Hp. injection Hp as <-. congruence. }
  pose proof (iv_background _ _ _ Hi1) as ((v' & Hv' & Hpo & _) & _ & _). simpl in Hv'. rewrite Hv in Hv'. injection Hv' as <-.
  destruct (compact_build_turn env fuel plan db fs g k v Hi1 Hv Hpo Hroom Hfuel) as (fs1 & n & r & next & -> & En & Hi2). cbn [mbind option_bind]. rewrite En. set (db1 := set_next_file_number db next) in *.
  destruct r as [outputs|st].
  2:{ assert (ok st = false) as E by (apply (iv_background _ _ _ Hi2)). exists db1, fs1, st, g, k. rewrite E. split; [done|]. by split_and!. }
  destruct (compact_candidate_spec _ _ _ _ _ _ Hi2) as (candidate & version & Hc & Hi3). rewrite Hc. cbn [mbind option_bind].
  destruct (compact_commit_spec strerror env _ _ _ _ _ _ _ _ Hi3) as (fs2 & st & k2 & -> & Hi4 & _). cbn [mbind option_bind]. destruct (ok st) eqn:E; cbn [negb].
  2:{ exists db1, fs2, st, g, k2. rewrite E. by split_and!. }
  destruct (compact_publish_spec _ _ _ _ _ _ _ Hi4) as (db2 & g' & Hp & Hi5 & Hs). rewrite Hp. cbn [mbind option_bind]. apply (compact_clean_spec env) in Hi5.
  exists db2, (compact_clean env db2 fs2), success, g', k2. split; [done|]. change (ok success) with true. cbn iota. unfold compact_publish in Hp. apply bind_Some in Hp as (? & _ & [= <-]).
  split_and!; [done|done|done|done|]. intros _ _. exists version. split; [done|]. exists (oldest (snapshots_ db) (last_sequence_ db)), plan, (map output_table outputs).
  unfold compact_pick in Hpick. rewrite Hv in Hpick. split; [done|]. unfold compact_candidate in Hc. repeat (apply bind_Some in Hc as (? & ? & Hc)). simplify_eq.
  rewrite (po_version _ _ _ Hpo) in *. by simplify_eq.
Qed.

Definition after_turn (t : turn) : Background := match t with Ends => Stopped | _ => Idle end.

(** A turn that finds an immutable memtable flushes it, compacts, or fails. *)
Lemma turn_spec fenv cenv fuel db fs g k im v :
  db_inv (mkState db fs Idle) g k -> immutable_ db = Some im -> current_version_ db = Some v -> last_sequence_ db < kMaxSequenceNumber ->
  table_room (entries (in_tables g ++ in_immutable g)) <= kUint32Max -> (length (in_tables g) < fuel)%nat ->
  exists db' fs' t g' k', background_turn strerror fenv cenv fuel db fs = Some (db', fs', t) /\ db_inv (mkState db' fs' (after_turn t)) g' k' /\ store_of g' = store_of g /\
    (immutable_ db' = None \/ ok (background_error_ db') = false \/
     t = Continues /\ immutable_ db' = Some im /\ exists v', current_version_ db' = Some v' /\ compaction_of defaultCompactionOptions v v').
Proof.
  intros Hi Him Hv Hlt Hroom Hfuel. rewrite entries_app, table_room_app in Hroom. pose proof (table_room_nonneg (entries (in_tables g))). pose proof (table_room_nonneg (entries (in_immutable g))).
  pose proof (background_choose_spec _ _ _ _ Hi) as Hc. unfold background_turn. unfold background_choose in Hc. rewrite Him in Hc |- *.
  rewrite (bool_decide_true (is_Some _)) in Hc |- * by (by eexists). rewrite (bool_decide_false (Some im = None)) in Hc |- * by done. rewrite orb_true_r in Hc |- *. cbn [orb negb] in Hc |- *.
  rewrite andb_false_r in Hc |- *. cbn iota in Hc |- *.
  destruct (negb (shutting_down_ db) && hasCompactionWork db) eqn:Ew.
  - destruct (compact_turn cenv fuel db fs g k v Hc Hlt Hv ltac:(lia) Hfuel) as (db' & fs' & st & g' & k' & -> & Hi' & Hs & (E1 & E2) & E3 & Hok). cbn [mbind option_bind].
    destruct (ok st) eqn:E; cbn [negb].
    + apply andb_true_iff in Ew as [_ Ew]. unfold background_again in Hi'. rewrite E3, Him in Hi' |- *. rewrite (bool_decide_false (Some im = None)), andb_false_r in Hi' |- * by done.
      exists db', fs', Continues, g', k'. split_and!; [done|done|done|]. right. right. split; [done|]. split; [by rewrite E3|by apply Hok].
    + apply failed_spec in Hi'. eexists _, _, Ends, g', k'. split_and!; [done|done|done|]. right. left. done.
  - destruct (flush_turn fenv db fs g k Hc ltac:(lia)) as (db' & fs' & st & g' & k' & -> & Hi' & Hs & (E1 & E2) & Hok). cbn [mbind option_bind].
    destruct (ok st) eqn:E; cbn [negb].
    + specialize (Hok eq_refl). unfold background_again in Hi'. rewrite Hok in Hi' |- *. destruct (shutting_down_ db' && _); eexists _, _, _, g', k'; split_and!; try done; by left.
    + apply failed_spec in Hi'. eexists _, _, Ends, g', k'. split_and!; [done|done|done|]. right. left. done.
Qed.

(** ** Clients between two turns *)

Definition client_step (s s' : State) : Prop := exists e, e <> Internal /\ db_step strerror s e s'.

(** While the immutable memtable is there, clients replace neither it nor the tables. *)
Lemma write_frozen env durability batch db fs db' fs' r im : write strerror env durability batch db fs = Some (db', fs', r) -> immutable_ db = Some im ->
  immutable_ db' = Some im /\ current_version_ db' = current_version_ db.
Proof.
  unfold write. intros Hw Him. destruct (wb_empty batch); [by simplify_eq|]. apply bind_Some in Hw as ([[db1 fs1] room] & Hr & Hw).
  assert (db1 = db) as ->. { unfold makeRoomForWrite in Hr. rewrite Him in Hr. destruct (negb _); [by simplify_eq|]. destruct (_ || _); by simplify_eq. }
  destruct room as [st|]; [|by simplify_eq]. destruct (negb _); [by simplify_eq|]. destruct (encode _ _); [|by simplify_eq]. apply bind_Some in Hw as (wal & _ & Hw).
  destruct (append_and_sync _ _ _ _ _) as [wal' st']. destruct (negb _); [by simplify_eq|]. apply bind_Some in Hw as (m & _ & Hw). by simplify_eq.
Qed.

Lemma client_frozen s s' im : rtc client_step s s' -> immutable_ (st_db s) = Some im ->
  immutable_ (st_db s') = Some im /\ current_version_ (st_db s') = current_version_ (st_db s) /\ st_bg s' = st_bg s.
Proof.
  induction 1 as [s|s s1 s2 (e & Hne & Hs) _ IH]; [done|]. intros Him.
  assert (immutable_ (st_db s1) = Some im /\ current_version_ (st_db s1) = current_version_ (st_db s) /\ st_bg s1 = st_bg s) as (E1 & E2 & E3).
  { destruct Hs as [env d batch db fs bg db' fs' r _ Hw|db fs bg db' sn _ Hn|db fs bg db' sn Hn|db fs bg|s s' Hb]; simpl in *; try done.
    - by destruct (write_frozen _ _ _ _ _ _ _ _ _ Hw Him).
    - unfold newSnapshot in Hn. by simplify_eq.
    - unfold releaseSnapshot in Hn. by apply bind_Some in Hn as (c & _ & [= <-]). }
  destruct (IH E1) as (? & E4 & E5). split_and!; [done|congruence|congruence].
Qed.

Lemma client_inv s s' : rtc client_step s s' -> forall g k, db_inv s g k -> exists g' k', db_inv s' g' k' /\ whole g `prefix_of` whole g'.
Proof.
  induction 1 as [s|s s1 s2 (e & _ & Hs) _ IH]; intros g k Hi; [by exists g, k|]. destruct (db_step_spec strerror _ _ _ _ _ Hi Hs) as (g1 & k1 & Hi1 & Hst & _).
  destruct (IH g1 k1 Hi1) as (g2 & k2 & Hi2 & Hp). exists g2, k2. split; [done|]. transitivity (whole g1); [|done].
  assert (forall t t' ev, store_step t ev t' -> s_history t `prefix_of` s_history t') as Hmono by (destruct 1; simpl; try done; by apply prefix_app_r).
  by apply Hmono in Hst.
Qed.

(** What is not in the memtable is fixed by the immutable memtable. *)
Lemma frozen_history s g k im : db_inv s g k -> immutable_ (st_db s) = Some im ->
  in_tables g ++ in_immutable g = take (Z.to_nat (im_last_sequence im)) (whole g) /\ 0 <= im_last_sequence im <= len (whole g).
Proof.
  intros Hi Him. pose proof (ri_immutable _ _ (iv_reads _ _ _ Hi)) as Hm. rewrite Him in Hm. destruct Hm as (_ & _ & ->). unfold whole. rewrite app_assoc, <- length_len, take_app_length.
  split; [done|]. rewrite (len_app (in_tables g ++ in_immutable g)). pose proof (len_nonneg (in_memtable g)). pose proof (len_nonneg (in_tables g ++ in_immutable g)). lia.
Qed.

(** ** A write that waits is released *)

Definition write_returns (s : State) : Prop :=
  forall env durability batch, wf_batch batch -> exists db' fs' st, write strerror env durability batch (st_db s) (st_fs s) = Some (db', fs', Some st).

Lemma write_waits env durability batch db fs db' fs' : write strerror env durability batch db fs = Some (db', fs', None) ->
  ok (background_error_ db) = true /\ is_Some (immutable_ db).
Proof.
  unfold write. destruct (wb_empty batch); [done|]. intros Hw. apply bind_Some in Hw as ([[db1 fs1] room] & Hr & Hw). destruct room as [st|].
  - exfalso. destruct (negb _); [done|]. destruct (encode _ _); [|done]. apply bind_Some in Hw as (wal & _ & Hw). destruct (append_and_sync _ _ _ _ _) as [wal' st'].
    destruct (negb _); [done|]. by apply bind_Some in Hw as (m & _ & Hw).
  - unfold makeRoomForWrite in Hr. destruct (ok (background_error_ db)); [|done]. cbn [negb] in Hr. destruct (_ || _); [done|]. split; [done|].
    destruct (immutable_ db); [by eexists|]. by apply bind_Some in Hr as ([[? ?] ?] & _ & ?).
Qed.

Lemma unblocked s g k : db_inv s g k -> immutable_ (st_db s) = None \/ ok (background_error_ (st_db s)) = false -> write_returns s.
Proof.
  intros Hi Hu env durability batch Hwf. destruct s as [db fs bg]. destruct (write_spec strerror env durability batch db fs bg g k Hi Hwf) as (db' & fs' & r & _ & _ & Hw & _).
  exists db', fs'. destruct r as [st|]; [by exists st|]. simpl in *. destruct (write_waits _ _ _ _ _ _ _ Hw) as [E1 [im E2]]. destruct Hu; congruence.
Qed.

(** However the clients go on and whatever the system answers, after finitely many
    turns of the background thread no write has to wait.  [bound] limits the
    entries a compaction merges. *)
Inductive unblocks (bound : nat) : State -> Prop :=
  | unblocks_now s : write_returns s -> unblocks bound s
  | unblocks_turn s :
      (forall s1 fenv cenv fuel, rtc client_step s s1 -> last_sequence_ (st_db s1) < kMaxSequenceNumber -> (bound < fuel)%nat ->
         exists db' fs' t, background_turn strerror fenv cenv fuel (st_db s1) (st_fs s1) = Some (db', fs', t) /\ unblocks bound (mkState db' fs' (after_turn t))) ->
      unblocks bound s.

Lemma unblocks_frozen v : forall s g k im h, db_inv s g k -> st_bg s = Idle -> immutable_ (st_db s) = Some im -> current_version_ (st_db s) = Some v ->
  h = take (Z.to_nat (im_last_sequence im)) (whole g) -> table_room (entries h) <= kUint32Max -> unblocks (length h) s.
Proof.
  induction v as [v IH] using (version_induction defaultCompactionOptions). intros s g k im h Hi Hbg Him Hv Hh Hroom. apply unblocks_turn. intros s1 fenv cenv fuel Hc Hlt Hfuel.
  destruct (client_frozen _ _ _ Hc Him) as (Him1 & Hv1 & Hb1). destruct (client_inv _ _ Hc _ _ Hi) as (g1 & k1 & Hi1 & [later Hp]). rewrite Hv in Hv1. rewrite Hbg in Hb1.
  destruct (frozen_history _ _ _ _ Hi Him) as [_ Hle]. destruct (frozen_history _ _ _ _ Hi1 Him1) as [Hf _].
  assert (in_tables g1 ++ in_immutable g1 = h) as Hh1 by (rewrite Hf, Hp, take_app_le, Hh; [done|unfold len in Hle; lia]). destruct s1 as [db1 fs1 bg1]. simpl in Hb1. subst bg1. simpl in *.
  destruct (turn_spec fenv cenv fuel db1 fs1 g1 k1 im v Hi1 Him1 Hv1 Hlt) as (db' & fs' & t & g' & k' & Ht & Hi' & Hs & Hcase);
    [by rewrite Hh1|rewrite <- Hh1, length_app in Hfuel; lia|].
  exists db', fs', t. split; [done|]. destruct Hcase as [Hu|[Hu|(-> & Him' & v' & Hv' & Hcomp)]].
  - apply unblocks_now. eapply unblocked; [exact Hi'|by left].
  - apply unblocks_now. eapply unblocked; [exact Hi'|by right].
  - eapply (IH v' Hcomp _ g' k' im h); [exact Hi'|done|done|done| |done]. apply (f_equal s_history) in Hs. simpl in Hs. by rewrite Hs, <- Hf, Hh1.
Qed.


End liveness.

