(* ===== verification/CApi.v ===== *)
(** The C interface (include/lsmtree/c_api.h, src/c_api.cc): handles on a heap,
    shared ownership of databases, status values that point into a buffer of the
    calling thread, and every function of the header over the engine. *)
From S2P Require Import Prelude Posix Status Coding InternalKey Mvcc WriteBatch Wal BlockBuilder SSTableBuilder Iterator SSTableReader Arena SkipList MemTable MergingIterator DbIterator Filename Level Manifest Snapshot DbFiles Version Compaction CompactionBuild FlushMemTable DbImpl DbSteps.

(** ** Memory *)

(** A [std::shared_ptr<DB>] is null or the identity of a database object. *)
Record lsm_db := mkLsmDb { ld_db : option nat }.
Record lsm_reader := mkLsmReader { lr_db : option nat; lr_snapshot : option SnapshotHandle }.
Record lsm_batch := mkLsmBatch { lb_batch : WriteBatch }.
Notation db_iterator := (DBIterator (MergingIterator (MemTableIterator + SSTableIterator))).
Record lsm_iterator := mkLsmIterator { li_iterator : option db_iterator }.

(** What an allocation holds: an object of the interface, or bytes from [malloc]. *)
Inductive object :=
  | ObjDb (h : lsm_db)
  | ObjReader (h : lsm_reader)
  | ObjBatch (h : lsm_batch)
  | ObjIterator (h : lsm_iterator)
  | ObjBytes (b : bytes).

(** A directory of the file system: what its path is, its lock file, its files. *)
Record Folder := mkFolder { f_kind : path_kind; f_lock : LockFile; f_files : Directory }.

(** A process that uses the interface.  An address is never used twice, so a
    dangling pointer stays recognisable; 0 is the null pointer.  [w_dbs] are the
    database objects that are alive, each with its background thread. *)
Record World := mkWorld {
  w_heap : gmap Z object;
  w_next : Z;
  w_dbs : gmap nat (DBImpl * Background);
  w_fresh : nat;
  w_folders : gmap string Folder;
  w_errors : gmap nat string;
}.

(** Each thread has its own [last_error]; a status points at the one of the thread
    that got it. *)
Record lsm_status := mkLsmStatus { st_code : Z; st_message : option nat }.

(** The text a status shows when it is read. *)
Definition message_text (w : World) (st : lsm_status) : option string := t ← st_message st; w_errors w !! t.

Definition set_heap (w : World) (heap : gmap Z object) : World := mkWorld heap (w_next w) (w_dbs w) (w_fresh w) (w_folders w) (w_errors w).
Definition set_error (w : World) (thread : nat) (text : string) : World :=
  mkWorld (w_heap w) (w_next w) (w_dbs w) (w_fresh w) (w_folders w) (<[thread := text]> (w_errors w)).
Definition set_folder (w : World) (directory : string) (f : Folder) : World :=
  mkWorld (w_heap w) (w_next w) (w_dbs w) (w_fresh w) (<[directory := f]> (w_folders w)) (w_errors w).
Definition set_dbs (w : World) (dbs : gmap nat (DBImpl * Background)) : World :=
  mkWorld (w_heap w) (w_next w) dbs (w_fresh w) (w_folders w) (w_errors w).

(** [new] and a [malloc] that succeeds. *)
Definition allocate (w : World) (o : object) : World * Z :=
  (mkWorld (<[w_next w := o]> (w_heap w)) (w_next w + 1) (w_dbs w) (w_fresh w) (w_folders w) (w_errors w), w_next w).
Definition free (w : World) (p : Z) : World := set_heap w (delete p (w_heap w)).
Definition store (w : World) (p : Z) (o : object) : World := set_heap w (<[p := o]> (w_heap w)).

Definition deref_db (w : World) (p : Z) : option lsm_db := match w_heap w !! p with Some (ObjDb h) => Some h | _ => None end.
Definition deref_reader (w : World) (p : Z) : option lsm_reader := match w_heap w !! p with Some (ObjReader h) => Some h | _ => None end.
Definition deref_batch (w : World) (p : Z) : option lsm_batch := match w_heap w !! p with Some (ObjBatch h) => Some h | _ => None end.
Definition deref_iterator (w : World) (p : Z) : option lsm_iterator := match w_heap w !! p with Some (ObjIterator h) => Some h | _ => None end.

Definition no_folder : Folder := mkFolder PathAbsent (mkLockFile ∅ None) ∅.
Definition folder (w : World) (directory : string) : Folder := default no_folder (w_folders w !! directory).

(** A database object with its files, and a new state of it. *)
Definition db_state (w : World) (id : nat) : option State :=
  '(db, bg) ← w_dbs w !! id; Some (mkState db (f_files (folder w (directory_ db))) bg).
Definition set_state (w : World) (id : nat) (s : State) : World :=
  let f := folder w (directory_ (st_db s)) in
  set_folder (set_dbs w (<[id := (st_db s, st_bg s)]> (w_dbs w))) (directory_ (st_db s)) (mkFolder (f_kind f) (f_lock f) (st_fs s)).

(** ** Status values *)

Definition c_success (w : World) : World * lsm_status := (w, mkLsmStatus 0 None).

Definition c_fail (thread : nat) (code : StatusCode) (text : string) (w : World) : World * lsm_status :=
  (set_error w thread text, mkLsmStatus (StatusCode_value code) (Some thread)).

Definition c_status (thread : nat) (value : Status) (w : World) : World * lsm_status :=
  if ok value then c_success w else c_fail thread (code_ value) (toString value) w.

Definition c_invalid (thread : nat) (message : string) (w : World) : World * lsm_status := c_fail thread kInvalidArgument message w.

(** What a [try] block catches. *)
Inductive thrown := StdException (what : string) | OtherException.

Definition c_exception (thread : nat) (what : string) (w : World) : World * lsm_status := c_fail thread kIOError what w.
Definition c_unknownException (thread : nat) (w : World) : World * lsm_status := c_fail thread kIOError "unknown lsmtree exception" w.
Definition caught (thread : nat) (e : thrown) (w : World) : World * lsm_status :=
  match e with StdException what => c_exception thread what w | OtherException => c_unknownException thread w end.

Definition bad_alloc : string := "std::bad_alloc".

(** ** Slices *)

(** A pointer argument is null or what can be read there; a pointer to an output
    is null or what the output holds. *)
Definition makeSlice (data : option bytes) (size : Z) : option bytes :=
  if size =? 0 then Some []
  else data ← data; _ ← assert_that (size <=? len data); Some (take (Z.to_nat size) data).

(** [malloc_ok] is the system's answer. *)
Definition copySlice (thread : nat) (malloc_ok : bool) (slice : bytes) (output output_size : option Z) (w : World) :
    World * option Z * option Z * lsm_status :=
  match output, output_size with
  | Some _, Some _ =>
      if bool_decide (slice = []) then (w, Some 0, Some (len slice), (c_success w).2)
      else if negb malloc_ok then let '(w, st) := c_exception thread bad_alloc w in (w, Some 0, Some (len slice), st)
      else let '(w, p) := allocate w (ObjBytes slice) in (w, Some p, Some (len slice), (c_success w).2)
  | _, _ => let '(w, st) := c_invalid thread "null output" w in (w, output, output_size, st)
  end.

(** ** Shared ownership *)

Definition owns (id : nat) (o : object) : bool :=
  match o with
  | ObjDb h => bool_decide (ld_db h = Some id)
  | ObjReader h => bool_decide (lr_db h = Some id)
  | _ => false
  end.
Definition owned (w : World) (id : nat) : bool := existsb (fun kv => owns id kv.2) (map_to_list (w_heap w)).

(** [~DBImpl] and the destructors of the members: the thread has been told to stop
    and was joined in the state [joined]; then the lock is released. *)
Definition destroy_db (joined : State) (id : nat) (w : World) : option World :=
  _ ← w_dbs w !! id;
  let db := st_db joined in
  let f := folder w (directory_ db) in
  let '(_, lock) := lock_reset (lock_ db) (f_lock f) in
  Some (set_folder (set_dbs w (delete id (w_dbs w))) (directory_ db) (mkFolder (f_kind f) lock (st_fs joined))).

(** A [std::shared_ptr<DB>] goes away. *)
Definition release_db (joined : State) (db : option nat) (w : World) : option World :=
  match db with
  | None => Some w
  | Some id => if owned w id then Some w else destroy_db joined id w
  end.

(** A [SnapshotHandle] goes away. *)
Definition release_snapshot (snapshot : option SnapshotHandle) (w : World) : option World :=
  match snapshot with
  | Some (OwnSnapshot s) =>
      st ← db_state w (ss_tracker s);
      db ← releaseSnapshot s (st_db st);
      Some (set_state w (ss_tracker s) (mkState db (st_fs st) (st_bg st)))
  | _ => Some w
  end.

Section api.
Context `{SystemAllocator} (strerror : Z -> string).

(** ** Databases *)

(** [alloc] says whether allocating the holder throws. *)
Definition lsm_db_open (thread : nat) (alloc : option thrown) (env : DbOpenEnv) (directory : option string) (db : option Z) (w : World) :
    option (World * option Z * lsm_status) :=
  match directory, db with
  | Some directory, Some _ =>
      match alloc with
      | Some e => let '(w, st) := caught thread e w in Some (w, Some 0, st)
      | None =>
          let id := w_fresh w in
          let f := folder w directory in
          '(kind, lock, files, r) ← db_open strerror env defaultDBOptions directory id (f_kind f) (f_lock f) (f_files f);
          let w := set_folder w directory (mkFolder kind lock files) in
          match r with
          | Err result => let '(w, st) := c_status thread result w in Some (w, Some 0, st)
          | Ok opened =>
              let w := mkWorld (w_heap w) (w_next w) (<[id := (opened, Idle)]> (w_dbs w)) (S (w_fresh w)) (w_folders w) (w_errors w) in
              let '(w, p) := allocate w (ObjDb (mkLsmDb (Some id))) in
              Some (w, Some p, (c_success w).2)
          end
      end
  | _, _ => let '(w, st) := c_invalid thread "null open argument" w in Some (w, db, st)
  end.

Definition lsm_db_close (joined : State) (db : Z) (w : World) : option World :=
  if db =? 0 then Some w
  else h ← deref_db w db; release_db joined (ld_db h) (free w db).

(** One attempt; [None] in place of the status while it waits. *)
Definition lsm_db_write (thread : nat) (env : WriteEnv) (db batch sync : Z) (w : World) : option (World * option lsm_status) :=
  if (db =? 0) || (batch =? 0) then let '(w, st) := c_invalid thread "null write argument" w in Some (w, Some st)
  else
    h ← deref_db w db;
    b ← deref_batch w batch;
    id ← ld_db h;
    s ← db_state w id;
    '(db', files, r) ← write strerror env (if negb (sync =? 0) then kSync else kAsync) (lb_batch b) (st_db s) (st_fs s);
    let w := set_state w id (mkState db' files (st_bg s)) in
    match r with
    | None => Some (w, None)
    | Some result => let '(w, st) := c_status thread result w in Some (w, Some st)
    end.

(** ** Readers *)

Definition lsm_reader_open (thread : nat) (alloc : option thrown) (db : Z) (reader : option Z) (w : World) : option (World * option Z * lsm_status) :=
  match reader with
  | Some _ =>
      if db =? 0 then let '(w, st) := c_invalid thread "null reader argument" w in Some (w, reader, st)
      else
        match alloc with
        | Some e => let '(w, st) := caught thread e w in Some (w, Some 0, st)
        | None =>
            h ← deref_db w db;
            id ← ld_db h;
            s ← db_state w id;
            let '(db', snapshot) := newSnapshot (st_db s) in
            let w := set_state w id (mkState db' (st_fs s) (st_bg s)) in
            let '(w, p) := allocate w (ObjReader (mkLsmReader (ld_db h) (Some snapshot))) in
            Some (w, Some p, (c_success w).2)
        end
  | None => let '(w, st) := c_invalid thread "null reader argument" w in Some (w, reader, st)
  end.

(** The members go in reverse order: the snapshot, then the database. *)
Definition lsm_reader_close (joined : State) (reader : Z) (w : World) : option World :=
  if reader =? 0 then Some w
  else
    h ← deref_reader w reader;
    w ← release_snapshot (lr_snapshot h) (free w reader);
    release_db joined (lr_db h) w.

Definition is_null {A} (p : option A) : bool := match p with None => true | Some _ => false end.

Definition lsm_reader_get (thread : nat) (throws : option thrown) (malloc_ok : bool) (reads : Table -> ReadEnv) (reader : Z) (key : option bytes) (key_size : Z)
    (value value_size found : option Z) (w : World) : option (World * option Z * option Z * option Z * lsm_status) :=
  let refuse w := let '(w, st) := c_invalid thread "null get argument" w in Some (w, value, value_size, found, st) in
  if reader =? 0 then refuse w
  else
    h ← deref_reader w reader;
    if is_null (lr_db h) || is_null value || is_null value_size || is_null found || (is_null key && negb (key_size =? 0)) then refuse w
    else
      match throws with
      | Some e => let '(w, st) := caught thread e w in Some (w, Some 0, Some 0, Some 0, st)
      | None =>
          id ← lr_db h;
          s ← db_state w id;
          slice ← makeSlice key key_size;
          r ← get reads (mkReadOptions (lr_snapshot h) false) slice (st_db s);
          match r with
          | Err get_result =>
              if isNotFound get_result then Some (w, Some 0, Some 0, Some 0, (c_success w).2)
              else let '(w, st) := c_status thread get_result w in Some (w, Some 0, Some 0, Some 0, st)
          | Ok result_value =>
              let '(w, value, value_size, st) := copySlice thread malloc_ok result_value (Some 0) (Some 0) w in
              Some (w, value, value_size, Some 1, st)
          end
      end.

Definition lsm_reader_new_iterator (thread : nat) (alloc : option thrown) (reads : Table -> ReadEnv) (reader : Z) (iterator : option Z) (w : World) :
    option (World * option Z * lsm_status) :=
  let refuse w := let '(w, st) := c_invalid thread "null iterator argument" w in Some (w, iterator, st) in
  if reader =? 0 then refuse w
  else
    h ← deref_reader w reader;
    if is_null (lr_db h) || is_null iterator then refuse w
    else
      match alloc with
      | Some e => let '(w, st) := caught thread e w in Some (w, Some 0, st)
      | None =>
          id ← lr_db h;
          s ← db_state w id;
          r ← newIterator reads (mkReadOptions (lr_snapshot h) false) (st_db s);
          match r with
          | Err result => let '(w, st) := c_status thread result w in Some (w, Some 0, st)
          | Ok it => let '(w, p) := allocate w (ObjIterator (mkLsmIterator (Some it))) in Some (w, Some p, (c_success w).2)
          end
      end.

Definition lsm_bytes_free (p : Z) (w : World) : option World :=
  if p =? 0 then Some w else match w_heap w !! p with Some (ObjBytes _) => Some (free w p) | _ => None end.

(** ** Iterators *)

(** The iterator behind a handle; [None] for a null handle. *)
Definition open_iterator (iterator : Z) (w : World) : option (option db_iterator) :=
  if iterator =? 0 then Some None else h ← deref_iterator w iterator; Some (li_iterator h).

Definition lsm_iterator_valid (iterator : Z) (w : World) : option Z :=
  it ← open_iterator iterator w;
  Some (match it with Some d => if di_valid d then 1 else 0 | None => 0 end).

(** [fuel] bounds the entries the engine skips. *)
Definition lsm_iterator_seek (fuel : nat) (iterator : Z) (key : option bytes) (key_size : Z) (w : World) : option World :=
  it ← open_iterator iterator w;
  match it with
  | None => Some w
  | Some d =>
      slice ← makeSlice key key_size;
      d ← di_seek fuel d slice;
      Some (store w iterator (ObjIterator (mkLsmIterator (Some d))))
  end.

Definition lsm_iterator_next (fuel : nat) (iterator : Z) (w : World) : option World :=
  it ← open_iterator iterator w;
  match it with
  | None => Some w
  | Some d => d ← di_next fuel d; Some (store w iterator (ObjIterator (mkLsmIterator (Some d))))
  end.

(** The common part of [lsm_iterator_key] and [lsm_iterator_value]. *)
Definition lsm_iterator_copy (part : db_iterator -> option bytes) (thread : nat) (malloc_ok : bool) (iterator : Z) (output output_size : option Z) (w : World) :
    option (World * option Z * option Z * lsm_status) :=
  let refuse w := let '(w, st) := c_invalid thread "invalid iterator" w in Some (w, output, output_size, st) in
  it ← open_iterator iterator w;
  match it with
  | None => refuse w
  | Some d =>
      if negb (di_valid d) then refuse w
      else slice ← part d; Some (copySlice thread malloc_ok slice output output_size w)
  end.

Definition lsm_iterator_key := lsm_iterator_copy di_key.
Definition lsm_iterator_value := lsm_iterator_copy di_value.

Definition lsm_iterator_status (thread : nat) (iterator : Z) (w : World) : option (World * lsm_status) :=
  it ← open_iterator iterator w;
  Some (match it with Some d => c_status thread (di_status d) w | None => c_invalid thread "invalid iterator" w end).

Definition lsm_iterator_close (iterator : Z) (w : World) : option World :=
  if iterator =? 0 then Some w else _ ← deref_iterator w iterator; Some (free w iterator).

(** ** Batches *)

Definition lsm_batch_new (thread : nat) (alloc : option thrown) (batch : option Z) (w : World) : World * option Z * lsm_status :=
  match batch with
  | None => let '(w, st) := c_invalid thread "null batch argument" w in (w, batch, st)
  | Some _ =>
      match alloc with
      | Some e => let '(w, st) := caught thread e w in (w, Some 0, st)
      | None => let '(w, p) := allocate w (ObjBatch (mkLsmBatch [])) in (w, Some p, (c_success w).2)
      end
  end.

Definition lsm_batch_clear (batch : Z) (w : World) : option World :=
  if batch =? 0 then Some w
  else h ← deref_batch w batch; Some (store w batch (ObjBatch (mkLsmBatch (wb_clear (lb_batch h))))).

Definition lsm_batch_close (batch : Z) (w : World) : option World :=
  if batch =? 0 then Some w else _ ← deref_batch w batch; Some (free w batch).

(** A batch that cannot grow is left as it was. *)
Definition lsm_batch_put (thread : nat) (throws : option thrown) (batch : Z) (key : option bytes) (key_size : Z) (value : option bytes) (value_size : Z) (w : World) :
    option (World * lsm_status) :=
  if (batch =? 0) || (is_null key && negb (key_size =? 0)) || (is_null value && negb (value_size =? 0))
  then Some (c_invalid thread "null put argument" w)
  else
    match throws with
    | Some e => Some (caught thread e w)
    | None =>
        h ← deref_batch w batch;
        k ← makeSlice key key_size;
        v ← makeSlice value value_size;
        Some (c_success (store w batch (ObjBatch (mkLsmBatch (wb_put (lb_batch h) k v)))))
    end.

Definition lsm_batch_erase (thread : nat) (throws : option thrown) (batch : Z) (key : option bytes) (key_size : Z) (w : World) : option (World * lsm_status) :=
  if (batch =? 0) || (is_null key && negb (key_size =? 0)) then Some (c_invalid thread "null erase argument" w)
  else
    match throws with
    | Some e => Some (caught thread e w)
    | None =>
        h ← deref_batch w batch;
        k ← makeSlice key key_size;
        Some (c_success (store w batch (ObjBatch (mkLsmBatch (wb_erase (lb_batch h) k)))))
    end.

End api.
