(* ===== verification/CApiSpec.v ===== *)
(** Sessions of the C interface (src/c_api.cc): ownership of databases, snapshots
    and memory over any sequence of calls, and what a client reads through a
    reader, composed with the refinement of the database. *)
From S2P Require Import Prelude Posix Status Coding InternalKey Mvcc WriteBatch Wal BlockBuilder SSTableBuilder Iterator SSTableReader Arena SkipList MemTable MergingIterator Filename Level Manifest Snapshot DbFiles Version Compaction CompactionReads CompactionBuild FlushMemTable DbImpl History DbState DbLog DbDisk DbSteps DbWrite DbFlush DbCompact DbRefine DbRecovery Database DbIterator CApi.

(** ** Who a database is *)

Section identity.
Context `{SystemAllocator} (strerror : Z -> string).

Lemma replay_identity fuel : forall evs reader db reader' db' st, replay_loop strerror fuel evs reader db = Some (reader', db', st) -> identity db' = identity db.
Proof.
  induction fuel as [|fuel IH]; intros evs reader db reader' db' st; [done|]. cbn [replay_loop]. destruct (readNext strerror evs reader) as [[r1 [[payload|]|st1]] evs1]; [|by intros [= _ <- _]..].
  destruct (decode payload) as [[first batch]|]; [|by intros [= _ <- _]]. destruct (negb _); [by intros [= _ <- _]|]. destruct (applyBatch _ _ _) as [m|]; [|done]. cbn [mbind option_bind].
  intros Hr. by apply IH in Hr.
Qed.

Lemma recoverWalFile_identity env path db fs db' fs' st : recoverWalFile strerror env path db fs = Some (db', fs', st) -> identity db' = identity db.
Proof.
  unfold recoverWalFile. destruct (reader_open _ _ _ _) as [reader|]; [|by intros [= <- _ _]]. intros Hr. apply bind_Some in Hr as ([[r1 db1] st1] & Hl & Hr).
  apply replay_identity in Hl. rewrite <- Hl. destruct (negb _); [by injection Hr as <- _ _|]. destruct (wf_size env) as [e|].
  - by injection Hr as <- _ _.
  - destruct (fs !! path) as [f|]; [|by injection Hr as <- _ _]. destruct (_ <? _); [|by injection Hr as <- _ _]. destruct (wf_resize env); by injection Hr as <- _ _.
Qed.

Lemma recover_files_identity envs numbers : forall db fs db' fs' st, recover_files strerror envs numbers db fs = Some (db', fs', st) -> identity db' = identity db.
Proof.
  induction numbers as [|n numbers IH]; intros db fs db' fs' st; [by intros [= <- _ _]|]. cbn [recover_files]. intros Hr. apply bind_Some in Hr as ([[db1 fs1] st1] & Hf & Hr).
  apply recoverWalFile_identity in Hf. destruct (negb _); [by injection Hr as <- _ _|]. apply IH in Hr. rewrite Hr. done.
Qed.

Lemma recoverWalFiles_identity envs answer numbers db fs db' fs' st : recoverWalFiles strerror envs answer numbers db fs = Some (db', fs', st) -> identity db' = identity db.
Proof.
  unfold recoverWalFiles. destruct (_ =? 0); [by intros [= <- _ _]|]. intros Hr. apply bind_Some in Hr as (first & _ & Hr).
  destruct (match numbers !! first with Some _ => _ | None => _ end); [by injection Hr as <- _ _|]. apply bind_Some in Hr as ([[db1 fs1] st1] & Hf & Hr).
  apply recover_files_identity in Hf. destruct (negb _); [by injection Hr as <- _ _|]. destruct (wal_open _ _ _ _) as [fs2 [wal|]]; by injection Hr as <- _ _.
Qed.

Lemma loadVersion_identity env db fs db' st : loadVersion strerror env db fs = Some (db', st) -> identity db' = identity db.
Proof. unfold loadVersion. intros Hl. apply bind_Some in Hl as ([v|] & _ & Hl); by injection Hl as <- _. Qed.

Lemma recoverDatabase_identity env files db fs db' fs' st : recoverDatabase strerror env files db fs = Some (db', fs', st) -> identity db' = identity db.
Proof.
  unfold recoverDatabase. intros Hr. apply bind_Some in Hr as ([m|] & _ & Hr); [|by injection Hr as <- _ _]. apply bind_Some in Hr as ([db1 st1] & Hl & Hr). apply loadVersion_identity in Hl.
  destruct (negb _); [by injection Hr as <- _ _|]. apply bind_Some in Hr as ([[db2 fs2] st2] & Hw & Hr). apply recoverWalFiles_identity in Hw. destruct (negb _); injection Hr as <- _ _; by rewrite Hw.
Qed.

Lemma initialize_identity env files db fs db' fs' st : initializeNewDatabase strerror env files db fs = Some (db', fs', st) -> identity db' = identity db.
Proof.
  unfold initializeNewDatabase. destruct (_ || _); [by intros [= <- _ _]|]. destruct (wal_open _ _ _ _) as [fs1 [wal|]]; [|by intros [= <- _ _]]. intros Hr.
  apply bind_Some in Hr as ([fs2 st1] & _ & Hr). destruct (negb _); [by injection Hr as <- _ _|]. apply bind_Some in Hr as ([db1 st2] & Hl & Hr). apply loadVersion_identity in Hl.
  destruct (negb _); injection Hr as <- _ _; by rewrite Hl.
Qed.

(** An opened database holds the lock, which nobody held before; while somebody
    holds it, opening fails and touches neither the lock nor a file. *)
Lemma open_exclusive env options directory tracker kind k fs kind' k' fs' r :
  (forall fd, le_open (do_lock env) = inr fd -> 0 <= fd) ->
  db_open strerror env options directory tracker kind k fs = Some (kind', k', fs', r) ->
  (lock_holder k <> None -> lock_holder k' = lock_holder k /\ fs' = fs /\ exists st, r = Err st /\ ok st = false) /\
  forall db, r = Ok db -> directory_ db = directory /\ tracker_id db = tracker /\ 0 <= fd_ (lock_ db) /\ lock_holder k' = Some (fd_ (lock_ db)).
Proof.
  intros Hfd. unfold db_open. destruct (_ =? 0); [intros [= _ <- <- <-]; split; [|done]; intros _; split_and!; [done|done|by eexists]|].
  destruct (prepareDatabaseDirectory _ _ _ _ _) as [kind1 st1]. destruct (ok st1) eqn:E1; cbn [negb]; [|intros [= _ <- <- <-]; split; [|done]; intros _; split_and!; [done|done|by eexists]].
  unfold acquireDatabaseLock. destruct (le_open (do_lock env)) as [errno|fd].
  { cbn [negb ok posixError ioError code_]. intros [= _ <- <- <-]. split; [|done]. intros _. split_and!; [done|done|by eexists]. }
  specialize (Hfd fd eq_refl). destruct k as [fds holder]. cbn [open_fds lock_holder].
  destruct (match holder with Some _ => _ | None => _ end) as [saved|] eqn:Ea.
  { destruct (saved =? EWOULDBLOCK); cbn [negb ok posixError ioError busy code_]; (intros [= _ <- <- <-]; split; [|done]; intros _; split_and!; [done|done|by eexists]). }
  destruct holder as [h|]; [done|]. unfold lock_assign, lock_reset at 1. cbn [emptyFileLock fd_]. cbn [Z.ltb Z.compare]. change (negb (ok success)) with false. cbn iota. intros Ho. split; [done|]. intros db ->.
  apply bind_Some in Ho as (db0 & Hn & Ho). unfold newDBImpl in Hn. apply bind_Some in Hn as (m & _ & [= <-]).
  destruct (scanDatabaseDirectory _ _ _ _) as [files|]; [|done]. destruct (_ =? _); [done|]. destruct (do_exists env); [done|]. apply bind_Some in Ho as ([[db1 fs1] st] & Hr & Ho).
  destruct (negb (ok st)); [done|]. destruct (do_thread env); [done|]. injection Ho as _ <- _ <-.
  assert (identity db1 = (directory, mkFileLock fd, tracker)) as [= -> -> ->]; [|done].
  destruct (fs !! _); [by apply recoverDatabase_identity in Hr|by apply initialize_identity in Hr].
Qed.

End identity.

(** ** Handles *)

(** The database an object keeps alive, and the sequence number of a reader. *)
Definition handle_of (o : object) : option (nat * option Z) :=
  match o with
  | ObjDb h => id ← ld_db h; Some (id, None)
  | ObjReader h => id ← lr_db h; Some (id, match lr_snapshot h with Some (OwnSnapshot s) => Some (ss_sequence s) | _ => None end)
  | _ => None
  end.
Definition handles_of (heap : gmap Z object) : gmap Z (nat * option Z) := omap handle_of heap.

(** The sequence numbers of the readers of a database. *)
Definition reader_sequence (id : nat) (h : Z * (nat * option Z)) : option Z := if decide (h.2.1 = id) then h.2.2 else None.
Definition sequences (id : nat) (m : gmap Z (nat * option Z)) : list Z := omap (reader_sequence id) (map_to_list m).

Lemma sequences_insert id m p h : m !! p = None -> sequences id (<[p := h]> m) ≡ₚ option_list (reader_sequence id (p, h)) ++ sequences id m.
Proof. intros Hp. unfold sequences. rewrite (map_to_list_insert m p h Hp). simpl. by destruct (reader_sequence id (p, h)). Qed.

Lemma sequences_delete id m p h : m !! p = Some h -> sequences id m ≡ₚ option_list (reader_sequence id (p, h)) ++ sequences id (delete p m).
Proof. intros Hp. rewrite <- (insert_delete_id m p h Hp) at 1. apply sequences_insert, lookup_delete_eq. Qed.

Lemma sequences_size id m : (length (sequences id m) <= size m)%nat.
Proof.
  unfold sequences. rewrite <- length_map_to_list. generalize (map_to_list m). intros l. induction l as [|x l IH]; [done|]. csimpl. destruct (reader_sequence id x); csimpl; lia.
Qed.

Lemma handles_insert heap p o : handles_of (<[p := o]> heap) = match handle_of o with Some h => <[p := h]> (handles_of heap) | None => delete p (handles_of heap) end.
Proof. unfold handles_of. destruct (handle_of o) eqn:E; [by apply omap_insert_Some|by apply omap_insert_None]. Qed.

Lemma handles_delete heap p : handles_of (delete p heap) = delete p (handles_of heap).
Proof. apply omap_delete. Qed.

Lemma handles_lookup heap p : handles_of heap !! p = (heap !! p) ≫= handle_of.
Proof. apply lookup_omap. Qed.

(** Some object keeps the database alive. *)
Definition has_owner (id : nat) (m : gmap Z (nat * option Z)) : Prop := exists p s, m !! p = Some (id, s).

Lemma owns_handle id o : owns id o = true <-> exists s, handle_of o = Some (id, s).
Proof.
  destruct o as [[[i|]]|[[i|] sn]| | |]; simpl; (split; [|intros [s Hs]; try done]); try done.
  - intros [= ->]%bool_decide_eq_true. by eexists.
  - injection Hs as -> _. by apply bool_decide_eq_true.
  - intros [= ->]%bool_decide_eq_true. by eexists.
  - injection Hs as -> _. by apply bool_decide_eq_true.
Qed.

Lemma owned_spec w id : owned w id = true <-> has_owner id (handles_of (w_heap w)).
Proof.
  unfold owned. rewrite existsb_exists. split.
  - intros ([p o] & Hin & [s Ho]%owns_handle). exists p, s. apply list_elem_of_In, elem_of_map_to_list in Hin. by rewrite handles_lookup, Hin.
  - intros (p & s & Hp). rewrite handles_lookup in Hp. apply bind_Some in Hp as (o & Hp & Ho). exists (p, o).
    split; [by apply list_elem_of_In, elem_of_map_to_list|]. apply owns_handle. by exists s.
Qed.

(** A status shows the text of its own failure only until the next failure of the
    same thread; a failure of another thread does not change it. *)
Theorem status_text_overwritten thread other first second w : ok first = false -> ok second = false -> other <> thread ->
  let '(w1, st) := c_status thread first w in
  message_text w1 st = Some (toString first) /\ message_text (c_status thread second w1).1 st = Some (toString second) /\
  message_text (c_status other second w1).1 st = Some (toString first).
Proof.
  intros H1 H2 Hne. unfold c_status. rewrite H1, H2. unfold c_fail, message_text. cbn. by rewrite !lookup_insert_eq, lookup_insert_ne, lookup_insert_eq.
Qed.

Section sessions.
Context `{SystemAllocatorLaws} (strerror : Z -> string).

(** ** Well-formed processes *)

(** An object refers to live databases only, and a reader's snapshot is one of its
    own database. *)
Definition object_ok (dbs : gmap nat (DBImpl * Background)) (o : object) : Prop :=
  match o with
  | ObjDb h => exists id, ld_db h = Some id /\ is_Some (dbs !! id)
  | ObjReader h => exists s, lr_db h = Some (ss_tracker s) /\ lr_snapshot h = Some (OwnSnapshot s) /\ is_Some (dbs !! ss_tracker s)
  | ObjBatch h => wf_batch (lb_batch h)
  | ObjIterator _ => True
  | ObjBytes b => b <> []
  end.

(** Every address was handed out; every object is well-formed; every live database
    has an owner and holds the lock of its directory. *)
Record well_formed (w : World) : Prop := {
  wf_addresses : forall p o, w_heap w !! p = Some o -> 0 < p < w_next w;
  wf_objects : forall p o, w_heap w !! p = Some o -> object_ok (w_dbs w) o;
  wf_next : 0 < w_next w;
  wf_fresh : forall id, is_Some (w_dbs w !! id) -> (id < w_fresh w)%nat;
  wf_owners : forall id, is_Some (w_dbs w !! id) -> has_owner id (handles_of (w_heap w));
  wf_locks : forall id s, db_state w id = Some s -> tracker_id (st_db s) = id /\ 0 <= fd_ (lock_ (st_db s)) /\
    lock_holder (f_lock (folder w (directory_ (st_db s)))) = Some (fd_ (lock_ (st_db s)));
  wf_directories : forall id id' s s', db_state w id = Some s -> db_state w id' = Some s' -> directory_ (st_db s) = directory_ (st_db s') -> id = id';
}.

(** The history [h] of a database in state [s] whose live snapshots are [live]. *)
Definition represents (s : State) (h : history) (live : list Z) : Prop :=
  exists g k, db_inv s g k /\ whole g = h /\ DbState.live g ≡ₚ live.

(** The live databases hold their histories, and their snapshots are those of the
    readers. *)
Definition histories_hold (w : World) (hs : gmap nat history) : Prop :=
  forall id s, db_state w id = Some s -> exists h, hs !! id = Some h /\ represents s h (sequences id (handles_of (w_heap w))).

(** ** Calls *)

Inductive api_event :=
  | Opened (id : nat) (h : history)
  | Committed (id : nat) (batch : WriteBatch)
  | Silent.

Definition record (hs : gmap nat history) (e : api_event) : gmap nat history :=
  match e with
  | Opened id h => <[id := h]> hs
  | Committed id batch => alter (fun h => h ++ writes_of batch (len h + 1)) id hs
  | Silent => hs
  end.

(** The database a write goes to, with the batch, when it succeeds. *)
Definition committed_by (db batch : Z) (r : option lsm_status) (w : World) : api_event :=
  match r, deref_db w db, deref_batch w batch with
  | Some st, Some h, Some b => match ld_db h with Some id => if st_code st =? 0 then Committed id (lb_batch b) else Silent | None => Silent end
  | _, _, _ => Silent
  end.

(** The destructor joins the background thread, which was told to stop. *)
Definition joins (s joined : State) : Prop :=
  rtc (background_step strerror) (mkState (shut_down (st_db s)) (st_fs s) (st_bg s)) joined /\ st_bg joined = Stopped.
Definition joins_last (w : World) (db : option nat) (joined : State) : Prop := forall id s, db = Some id -> owned w id = false -> db_state w id = Some s -> joins s joined.

(** A call of the interface, by any thread and with any answers of the system, or
    a section of a background thread.  Opening has established a database. *)
Inductive api_step : World -> api_event -> World -> Prop :=
  | api_db_open thread alloc env directory db w w' db' st h :
      lsm_db_open strerror thread alloc env directory db w = Some (w', db', st) -> (forall fd, le_open (do_lock env) = inr fd -> 0 <= fd) ->
      (forall s, w_fresh w' = S (w_fresh w) -> db_state w' (w_fresh w) = Some s -> represents s h []) ->
      api_step w (if st_code st =? 0 then Opened (w_fresh w) h else Silent) w'
  | api_db_close joined db w w' :
      lsm_db_close joined db w = Some w' -> (forall h, deref_db w db = Some h -> joins_last (free w db) (ld_db h) joined) -> api_step w Silent w'
  | api_db_write thread env db batch sync w w' r :
      lsm_db_write strerror thread env db batch sync w = Some (w', r) -> api_step w (committed_by db batch r w) w'
  | api_reader_open thread alloc db reader w w' reader' st :
      lsm_reader_open thread alloc db reader w = Some (w', reader', st) -> w_next w <= kUint64Max -> api_step w Silent w'
  | api_reader_close joined reader w w' :
      lsm_reader_close joined reader w = Some w' ->
      (forall h w1, deref_reader w reader = Some h -> release_snapshot (lr_snapshot h) (free w reader) = Some w1 -> joins_last w1 (lr_db h) joined) -> api_step w Silent w'
  | api_reader_get thread throws malloc_ok reads reader key size value value_size found w w' value' value_size' found' st :
      lsm_reader_get thread throws malloc_ok reads reader key size value value_size found w = Some (w', value', value_size', found', st) -> api_step w Silent w'
  | api_reader_new_iterator thread alloc reads reader iterator w w' iterator' st :
      lsm_reader_new_iterator thread alloc reads reader iterator w = Some (w', iterator', st) -> api_step w Silent w'
  | api_bytes_free p w w' : lsm_bytes_free p w = Some w' -> api_step w Silent w'
  | api_iterator_seek fuel iterator key size w w' : lsm_iterator_seek fuel iterator key size w = Some w' -> api_step w Silent w'
  | api_iterator_next fuel iterator w w' : lsm_iterator_next fuel iterator w = Some w' -> api_step w Silent w'
  | api_iterator_key thread malloc_ok iterator key size w w' key' size' st :
      lsm_iterator_key thread malloc_ok iterator key size w = Some (w', key', size', st) -> api_step w Silent w'
  | api_iterator_value thread malloc_ok iterator value size w w' value' size' st :
      lsm_iterator_value thread malloc_ok iterator value size w = Some (w', value', size', st) -> api_step w Silent w'
  | api_iterator_status thread iterator w w' st : lsm_iterator_status thread iterator w = Some (w', st) -> api_step w Silent w'
  | api_iterator_close iterator w w' : lsm_iterator_close iterator w = Some w' -> api_step w Silent w'
  | api_batch_new thread alloc batch w w' batch' st : lsm_batch_new thread alloc batch w = (w', batch', st) -> api_step w Silent w'
  | api_batch_clear batch w w' : lsm_batch_clear batch w = Some w' -> api_step w Silent w'
  | api_batch_close batch w w' : lsm_batch_close batch w = Some w' -> api_step w Silent w'
  | api_batch_put thread throws batch key size value value_size w w' st :
      lsm_batch_put thread throws batch key size value value_size w = Some (w', st) -> api_step w Silent w'
  | api_batch_erase thread throws batch key size w w' st : lsm_batch_erase thread throws batch key size w = Some (w', st) -> api_step w Silent w'
  | api_background id s s' w : db_state w id = Some s -> background_step strerror s s' -> api_step w Silent (set_state w id s').

Inductive api_run : World -> list api_event -> World -> Prop :=
  | api_run_nil w : api_run w [] w
  | api_run_cons w e w1 es w2 : api_step w e w1 -> api_run w1 es w2 -> api_run w (e :: es) w2.

(** ** Frames *)

Definition api_inv (w : World) (hs : gmap nat history) : Prop := well_formed w /\ histories_hold w hs.

Definition with_memory (w : World) (heap : gmap Z object) (next : Z) : World := mkWorld heap next (w_dbs w) (w_fresh w) (w_folders w) (w_errors w).

(** Objects that are fine in a process with the databases of [w]. *)
Record memory_ok (w : World) (heap : gmap Z object) (next : Z) : Prop := {
  mo_next : 0 < next;
  mo_addresses : forall p o, heap !! p = Some o -> 0 < p < next;
  mo_objects : forall p o, heap !! p = Some o -> object_ok (w_dbs w) o;
  mo_owners : forall id, is_Some (w_dbs w !! id) -> has_owner id (handles_of heap);
}.

Lemma object_ok_mono dbs dbs' o : (forall id, is_Some (dbs !! id) -> is_Some (dbs' !! id)) -> object_ok dbs o -> object_ok dbs' o.
Proof. intros Hd. destruct o; simpl; naive_solver. Qed.

Lemma api_inv_error w hs thread text : api_inv (set_error w thread text) hs <-> api_inv w hs.
Proof. split; (intros [[W1 W2 W3 W4 W5 W6 W7] Hh]; split; [by split|exact Hh]). Qed.

Lemma well_formed_memory w : well_formed w -> memory_ok w (w_heap w) (w_next w).
Proof. intros [W1 W2 W3 W4 W5 _ _]. by split. Qed.

(** Memory changes, the databases do not. *)
Lemma api_inv_memory w hs heap next : api_inv w hs -> memory_ok w heap next ->
  (forall id, sequences id (handles_of heap) ≡ₚ sequences id (handles_of (w_heap w))) -> api_inv (with_memory w heap next) hs.
Proof.
  intros [[W1 W2 W3 W4 W5 W6 W7] Hh] [M1 M2 M3 M4] Hs. split; [by split|]. intros id s Hst. destruct (Hh id s Hst) as (h & Hhs & g & k & Hi & Hw & Hl).
  exists h. split; [done|]. exists g, k. split_and!; [done|done|]. by rewrite Hl, <- Hs.
Qed.

Lemma api_inv_plain w hs heap next : api_inv w hs -> 0 < next -> handles_of heap = handles_of (w_heap w) ->
  (forall p o, heap !! p = Some o -> 0 < p < next /\ object_ok (w_dbs w) o) -> api_inv (with_memory w heap next) hs.
Proof.
  intros Hi Hn Hh Ho. pose proof Hi as [[W1 W2 W3 W4 W5 _ _] _]. apply api_inv_memory; [done| |by rewrite Hh]. split; [done|by apply Ho|intros p o Hp; by apply (Ho p o)|by rewrite Hh].
Qed.

Lemma api_inv_allocate w hs o : api_inv w hs -> handle_of o = None -> object_ok (w_dbs w) o -> api_inv (allocate w o).1 hs.
Proof.
  intros Hi Hn Ho. pose proof Hi as [[W1 W2 W3 _ _ _ _] _]. apply (api_inv_plain w hs (<[w_next w := o]> (w_heap w)) (w_next w + 1)); [done|lia| |].
  - rewrite handles_insert, Hn. apply delete_id. rewrite handles_lookup. destruct (w_heap w !! w_next w) as [o'|] eqn:E; [|done]. specialize (W1 _ _ E). lia.
  - intros p o' Hp. destruct (decide (p = w_next w)) as [->|Hne]; [rewrite lookup_insert_eq in Hp; injection Hp as <-; split; [lia|done]|].
    rewrite lookup_insert_ne in Hp by done. specialize (W1 _ _ Hp). split; [lia|by eapply W2].
Qed.

Lemma api_inv_store w hs p o o' : api_inv w hs -> w_heap w !! p = Some o -> handle_of o = None -> handle_of o' = None -> object_ok (w_dbs w) o' -> api_inv (store w p o') hs.
Proof.
  intros Hi Hp Hn Hn' Ho. pose proof Hi as [[W1 W2 W3 _ _ _ _] _]. apply (api_inv_plain w hs (<[p := o']> (w_heap w)) (w_next w)); [done|done| |].
  - rewrite handles_insert, Hn'. apply delete_id. by rewrite handles_lookup, Hp.
  - intros q o1 Hq. destruct (decide (q = p)) as [->|Hne]; [rewrite lookup_insert_eq in Hq; injection Hq as <-; split; [by eapply W1|done]|].
    rewrite lookup_insert_ne in Hq by done. split; [by eapply W1|by eapply W2].
Qed.

Lemma api_inv_free w hs p o : api_inv w hs -> w_heap w !! p = Some o -> handle_of o = None -> api_inv (free w p) hs.
Proof.
  intros Hi Hp Hn. pose proof Hi as [[W1 W2 W3 _ _ _ _] _]. apply (api_inv_plain w hs (delete p (w_heap w)) (w_next w)); [done|done| |].
  - rewrite handles_delete. apply delete_id. by rewrite handles_lookup, Hp.
  - intros q o1 Hq. apply lookup_delete_Some in Hq as [_ Hq]. split; [by eapply W1|by eapply W2].
Qed.

(** ** Databases change *)

Lemma db_state_directory w id s : db_state w id = Some s -> w_dbs w !! id = Some (st_db s, st_bg s) /\ st_fs s = f_files (folder w (directory_ (st_db s))).
Proof. unfold db_state. intros Hs. by apply bind_Some in Hs as ([db bg] & ? & [= <-]). Qed.

Lemma folder_set w d f d' : folder (set_folder w d f) d' = if decide (d' = d) then f else folder w d'.
Proof. unfold folder, set_folder. simpl. destruct (decide (d' = d)) as [->|Hne]; [by rewrite lookup_insert_eq|by rewrite lookup_insert_ne]. Qed.

Lemma db_state_set w id s s' id' : well_formed w -> db_state w id = Some s -> directory_ (st_db s') = directory_ (st_db s) ->
  db_state (set_state w id s') id' = if decide (id' = id) then Some s' else db_state w id'.
Proof.
  intros Hwf Hs Hd. unfold set_state. set (f := mkFolder _ _ _). unfold db_state at 1. cbn [set_folder set_dbs w_dbs]. destruct (decide (id' = id)) as [->|Hne].
  - rewrite lookup_insert_eq. cbn [mbind option_bind]. rewrite folder_set, decide_True by done. by destruct s'.
  - rewrite lookup_insert_ne by done. unfold db_state. destruct (w_dbs w !! id') as [[db bg]|] eqn:E; [|done]. cbn [mbind option_bind]. rewrite folder_set.
    destruct (decide (directory_ db = directory_ (st_db s'))) as [Heq|]; [|done]. exfalso. apply Hne.
    eapply (wf_directories _ Hwf id' id (mkState db (f_files (folder w (directory_ db))) bg) s); [unfold db_state; by rewrite E|done|simpl; congruence].
Qed.

Lemma dbs_set w id s s' : db_state w id = Some s -> forall id', is_Some (w_dbs (set_state w id s') !! id') <-> is_Some (w_dbs w !! id').
Proof.
  intros [Hs _]%db_state_directory id'. cbn [set_state set_folder set_dbs w_dbs]. destruct (decide (id' = id)) as [->|Hne].
  - rewrite lookup_insert_eq, Hs. split; by eexists.
  - by rewrite lookup_insert_ne.
Qed.

(** One database takes a step, and memory may change with it. *)
Lemma api_inv_step w hs id s s' h heap next :
  api_inv w hs -> db_state w id = Some s -> identity (st_db s') = identity (st_db s) -> memory_ok w heap next ->
  represents s' h (sequences id (handles_of heap)) ->
  (forall id', id' <> id -> sequences id' (handles_of heap) ≡ₚ sequences id' (handles_of (w_heap w))) ->
  api_inv (with_memory (set_state w id s') heap next) (<[id := h]> hs).
Proof.
  intros [Hwf Hh] Hs Hid [M1 M2 M3 M4] Hr Hothers. pose proof (identity_directory _ _ Hid) as Hd. pose proof Hwf as [W1 W2 W3 W4 W5 W6 W7].
  assert (forall id', db_state (with_memory (set_state w id s') heap next) id' = if decide (id' = id) then Some s' else db_state w id') as Hst.
  { intros id'. change (db_state (with_memory (set_state w id s') heap next) id') with (db_state (set_state w id s') id'). by apply db_state_set with s. }
  split; [split|].
  - exact M2.
  - intros p o Hp. eapply object_ok_mono; [|by eapply M3]. intros id' Hid'. by apply (dbs_set w id s s' Hs).
  - exact M1.
  - intros id' Hid'. apply W4. by apply (dbs_set w id s s' Hs).
  - intros id' Hid'. apply M4. by apply (dbs_set w id s s' Hs).
  - intros id' s1. rewrite Hst. change (folder (with_memory (set_state w id s') heap next)) with (folder (set_state w id s')). unfold set_state. rewrite folder_set.
    destruct (decide (id' = id)) as [->|Hne].
    + intros [= <-]. rewrite decide_True by done. simpl. injection Hid as _ E2 E3. rewrite E2, E3, Hd. by apply W6.
    + intros Hs1. rewrite decide_False; [by apply W6|]. intros E. apply Hne. eapply W7; [exact Hs1|exact Hs|congruence].
  - intros i j s1 s2. rewrite !Hst. destruct (decide (i = id)) as [->|Hi], (decide (j = id)) as [->|Hj]; [done|..].
    + intros [= <-] Hs2 Hdd. eapply W7; [exact Hs|exact Hs2|congruence].
    + intros Hs1 [= <-] Hdd. eapply W7; [exact Hs1|exact Hs|congruence].
    + apply W7.
  - intros id' s1. rewrite Hst. destruct (decide (id' = id)) as [->|Hne].
    + intros [= <-]. exists h. by rewrite lookup_insert_eq.
    + intros Hs1. destruct (Hh id' s1 Hs1) as (h1 & Hhs & g & k & Hi & Hw & Hl). exists h1. rewrite lookup_insert_ne by done. split; [done|]. exists g, k.
      split_and!; [done|done|]. cbn [with_memory w_heap]. by rewrite Hl, Hothers.
Qed.

(** A step of the engine. *)
Lemma represents_step s e s' h l : represents s h l -> db_step strerror s e s' ->
  exists l', represents s' (committed h e) l' /\
    match e with Snapped seq => seq = len h /\ l' = seq :: l | Released seq => l ≡ₚ seq :: l' | _ => l' = l end.
Proof.
  intros (g & k & Hi & <- & Hl) Hs. destruct (db_step_spec strerror _ _ _ _ _ Hi Hs) as (g' & k' & Hi' & Hst & _).
  assert (whole g' = committed (whole g) e) as Hw. { by apply (store_run_history _ _ _ (store_run_cons _ _ _ [] _ Hst (store_run_nil _))). }
  unfold store_of in Hst. inversion Hst; subst.
  - exists l. split; [|done]. exists g', k'. split_and!; [done|done|congruence].
  - exists l. split; [|done]. exists g', k'. split_and!; [done|done|congruence].
  - exists l. split; [|done]. exists g', k'. split_and!; [done|done|congruence].
  - exists l. split; [|done]. exists g', k'. split_and!; [done|done|congruence].
  - exists (len (whole g) :: l). split; [|done]. exists g', k'. split_and!; [done|done|]. rewrite <- Hl. by match goal with E : _ :: _ = live g' |- _ => rewrite <- E end.
  - exists (live g'). split; [exists g', k'; by split_and!|]. by rewrite <- Hl.
  - exists l. split; [|done]. exists g', k'. split_and!; [done|done|congruence].
Qed.

(** ** Calls that change no database *)

Lemma c_status_inv w hs thread value w' st : api_inv w hs -> c_status thread value w = (w', st) -> api_inv w' hs.
Proof. unfold c_status, c_success, c_fail. intros Hi. destruct (ok value); intros [= <- _]; [done|]. by apply api_inv_error. Qed.

Lemma caught_inv w hs thread e w' st : api_inv w hs -> caught thread e w = (w', st) -> api_inv w' hs.
Proof. unfold caught, c_exception, c_unknownException, c_fail. intros Hi. destruct e; intros [= <- _]; by apply api_inv_error. Qed.

Lemma c_invalid_inv w hs thread message w' st : api_inv w hs -> c_invalid thread message w = (w', st) -> api_inv w' hs.
Proof. unfold c_invalid, c_fail. intros Hi [= <- _]. by apply api_inv_error. Qed.

Lemma copySlice_inv w hs thread malloc_ok slice output size w' output' size' st :
  api_inv w hs -> copySlice thread malloc_ok slice output size w = (w', output', size', st) -> api_inv w' hs.
Proof.
  intros Hi. unfold copySlice. destruct output, size; try (intros [= <- _ _ _]; by apply api_inv_error).
  case_bool_decide as Hs; [by intros [= <- _ _ _]|]. destruct malloc_ok; cbn [negb]; intros [= <- _ _ _]; [|by apply api_inv_error].
  by apply (api_inv_allocate w hs (ObjBytes slice)).
Qed.

(** The end of a call that failed. *)
Ltac failed_call :=
  match goal with
  | |- context [c_status ?t ?v ?w] => let E := fresh "E" in destruct (c_status t v w) eqn:E; eapply c_status_inv in E; [|eassumption]
  | |- context [caught ?t ?e ?w] => let E := fresh "E" in destruct (caught t e w) eqn:E; eapply caught_inv in E; [|eassumption]
  | |- context [c_invalid ?t ?m ?w] => let E := fresh "E" in destruct (c_invalid t m w) eqn:E; eapply c_invalid_inv in E; [|eassumption]
  end.

Lemma reader_get_inv w hs thread throws malloc_ok reads reader key size value value_size found w' value' value_size' found' st :
  api_inv w hs -> lsm_reader_get thread throws malloc_ok reads reader key size value value_size found w = Some (w', value', value_size', found', st) -> api_inv w' hs.
Proof.
  intros Hi. unfold lsm_reader_get. destruct (reader =? 0); [failed_call; by intros [= <- _ _ _ _]|]. destruct (deref_reader w reader) as [h|]; [|done]. cbn [mbind option_bind].
  destruct (_ || _); [failed_call; by intros [= <- _ _ _ _]|]. destruct throws as [e|]; [failed_call; by intros [= <- _ _ _ _]|]. intros Hg.
  apply bind_Some in Hg as (id & _ & Hg). apply bind_Some in Hg as (s & _ & Hg). apply bind_Some in Hg as (slice & _ & Hg). apply bind_Some in Hg as ([v|e] & _ & Hg).
  - destruct (copySlice _ _ _ _ _ _) as [[[w1 a] b] c] eqn:E. eapply copySlice_inv in E; [|done]. by injection Hg as <- _ _ _ _.
  - revert Hg. destruct (isNotFound e); [by intros [= <- _ _ _ _]|]. failed_call. by intros [= <- _ _ _ _].
Qed.

Lemma reader_new_iterator_inv w hs thread alloc reads reader iterator w' iterator' st :
  api_inv w hs -> lsm_reader_new_iterator thread alloc reads reader iterator w = Some (w', iterator', st) -> api_inv w' hs.
Proof.
  intros Hi. unfold lsm_reader_new_iterator. destruct (reader =? 0); [failed_call; by intros [= <- _ _]|]. destruct (deref_reader w reader) as [h|]; [|done]. cbn [mbind option_bind].
  destruct (_ || _); [failed_call; by intros [= <- _ _]|]. destruct alloc as [e|]; [failed_call; by intros [= <- _ _]|]. intros Hg.
  apply bind_Some in Hg as (id & _ & Hg). apply bind_Some in Hg as (s & _ & Hg). apply bind_Some in Hg as ([it|e] & _ & Hg).
  - injection Hg as <- _ _. by apply (api_inv_allocate w hs (ObjIterator (mkLsmIterator (Some it)))).
  - revert Hg. failed_call. by intros [= <- _ _].
Qed.

Lemma deref_iterator_heap w p h : deref_iterator w p = Some h -> w_heap w !! p = Some (ObjIterator h).
Proof. unfold deref_iterator. destruct (w_heap w !! p) as [[]|]; congruence. Qed.
Lemma deref_batch_heap w p h : deref_batch w p = Some h -> w_heap w !! p = Some (ObjBatch h).
Proof. unfold deref_batch. destruct (w_heap w !! p) as [[]|]; congruence. Qed.
Lemma deref_db_heap w p h : deref_db w p = Some h -> w_heap w !! p = Some (ObjDb h).
Proof. unfold deref_db. destruct (w_heap w !! p) as [[]|]; congruence. Qed.
Lemma deref_reader_heap w p h : deref_reader w p = Some h -> w_heap w !! p = Some (ObjReader h).
Proof. unfold deref_reader. destruct (w_heap w !! p) as [[]|]; congruence. Qed.

Lemma open_iterator_some w p d : open_iterator p w = Some (Some d) -> exists h, w_heap w !! p = Some (ObjIterator h).
Proof.
  unfold open_iterator. destruct (p =? 0); [done|]. intros Ho. apply bind_Some in Ho as (h & Hh & _). exists h. by apply deref_iterator_heap.
Qed.

Lemma iterator_move_inv w hs p (move : db_iterator -> option db_iterator) w' :
  api_inv w hs -> (it ← open_iterator p w; match it with None => Some w | Some d => d ← move d; Some (store w p (ObjIterator (mkLsmIterator (Some d)))) end) = Some w' -> api_inv w' hs.
Proof.
  intros Hi Hm. apply bind_Some in Hm as ([d|] & Ho & Hm); [|by injection Hm as <-]. apply bind_Some in Hm as (d' & _ & [= <-]).
  destruct (open_iterator_some _ _ _ Ho) as [h Hh]. by eapply api_inv_store.
Qed.

Lemma iterator_seek_inv w hs fuel p key size w' : api_inv w hs -> lsm_iterator_seek fuel p key size w = Some w' -> api_inv w' hs.
Proof.
  intros Hi Hs. unfold lsm_iterator_seek in Hs. destruct (makeSlice key size) as [slice|] eqn:E.
  - by eapply (iterator_move_inv w hs p (fun d => di_seek fuel d slice)).
  - apply bind_Some in Hs as ([d|] & _ & Hs); [done|by injection Hs as <-].
Qed.

Lemma iterator_copy_inv part w hs thread malloc_ok p output size w' output' size' st :
  api_inv w hs -> lsm_iterator_copy part thread malloc_ok p output size w = Some (w', output', size', st) -> api_inv w' hs.
Proof.
  intros Hi Hc. unfold lsm_iterator_copy in Hc. apply bind_Some in Hc as ([d|] & _ & Hc).
  - revert Hc. destruct (negb _); [failed_call; by intros [= <- _ _ _]|]. intros Hc. apply bind_Some in Hc as (slice & _ & [= Hc]). by eapply copySlice_inv.
  - revert Hc. failed_call. by intros [= <- _ _ _].
Qed.

Lemma batch_put_wf b k v : wf_batch b -> wf_batch (wb_put b k v).
Proof. intros Hb. apply Forall_app. split; [done|]. by repeat constructor. Qed.
Lemma batch_erase_wf b k : wf_batch b -> wf_batch (wb_erase b k).
Proof. intros Hb. apply Forall_app. split; [done|]. by repeat constructor. Qed.

Lemma batch_update_inv w hs p h b : api_inv w hs -> deref_batch w p = Some h -> (wf_batch (lb_batch h) -> wf_batch b) -> api_inv (store w p (ObjBatch (mkLsmBatch b))) hs.
Proof.
  intros Hi Hh Hb. apply deref_batch_heap in Hh. eapply api_inv_store; [done|exact Hh|done|done|]. simpl. apply Hb. by apply (wf_objects _ (proj1 Hi) _ _ Hh).
Qed.

Lemma batch_put_inv w hs thread throws p key size value value_size w' st :
  api_inv w hs -> lsm_batch_put thread throws p key size value value_size w = Some (w', st) -> api_inv w' hs.
Proof.
  intros Hi. unfold lsm_batch_put. destruct (_ || _); [failed_call; by intros [= <- _]|]. destruct throws as [e|]; [failed_call; by intros [= <- _]|]. intros Hp.
  apply bind_Some in Hp as (h & Hh & Hp). apply bind_Some in Hp as (k & _ & Hp). apply bind_Some in Hp as (v & _ & [= <- _]). eapply batch_update_inv; [done|done|]. apply batch_put_wf.
Qed.

Lemma batch_erase_inv w hs thread throws p key size w' st : api_inv w hs -> lsm_batch_erase thread throws p key size w = Some (w', st) -> api_inv w' hs.
Proof.
  intros Hi. unfold lsm_batch_erase. destruct (_ || _); [failed_call; by intros [= <- _]|]. destruct throws as [e|]; [failed_call; by intros [= <- _]|]. intros Hp.
  apply bind_Some in Hp as (h & Hh & Hp). apply bind_Some in Hp as (k & _ & [= <- _]). eapply batch_update_inv; [done|done|]. apply batch_erase_wf.
Qed.

(** ** Writing *)

Lemma c_status_code thread value w : (st_code (c_status thread value w).2 =? 0) = ok value.
Proof. unfold c_status, ok. destruct (code_ value) eqn:E; simpl; by rewrite ?E. Qed.

Lemma api_inv_same w hs id s s' h : api_inv w hs -> db_state w id = Some s -> identity (st_db s') = identity (st_db s) ->
  represents s' h (sequences id (handles_of (w_heap w))) -> api_inv (set_state w id s') (<[id := h]> hs).
Proof. intros Hi Hs Hid Hr. apply (api_inv_step w hs id s s' h (w_heap w) (w_next w)); [done|done|done|apply well_formed_memory, Hi|done|done]. Qed.

Lemma record_committed (hs : gmap nat history) id h batch : hs !! id = Some h -> <[id := h ++ writes_of batch (len h + 1)]> hs = record hs (Committed id batch).
Proof.
  intros Hh. apply map_eq. intros i. simpl. destruct (decide (i = id)) as [->|Hne]; [by rewrite lookup_insert_eq, lookup_alter_eq, Hh|by rewrite lookup_insert_ne, lookup_alter_ne].
Qed.

Lemma db_write_inv w hs thread env db batch sync w' r :
  api_inv w hs -> lsm_db_write strerror thread env db batch sync w = Some (w', r) -> api_inv w' (record hs (committed_by db batch r w)).
Proof.
  intros Hi. unfold lsm_db_write. destruct (_ || _).
  { unfold c_invalid, c_fail. intros [= <- <-]. unfold committed_by. simpl. apply api_inv_error. by destruct (deref_db w db) as [[[id|]]|], (deref_batch w batch). }
  intros Hw. apply bind_Some in Hw as (h & Hh & Hw). apply bind_Some in Hw as (b & Hb & Hw). apply bind_Some in Hw as (id & Hid & Hw). apply bind_Some in Hw as (s & Hs & Hw).
  apply bind_Some in Hw as ([[db' files] r'] & Hwr & Hw). unfold committed_by. rewrite Hh, Hb, Hid.
  assert (wf_batch (lb_batch b)) as Hwf by (apply deref_batch_heap in Hb; by apply (wf_objects _ (proj1 Hi) _ _ Hb)).
  destruct (proj2 Hi id s Hs) as (hist & Hhs & Hr). set (s' := mkState db' files (st_bg s)) in *.
  set (e := match r' with Some status => Wrote (lb_batch b) status | None => Waited (lb_batch b) end).
  assert (db_step strerror s e s') as Hstep by (destruct s; by eapply db_write).
  destruct (represents_step _ _ _ _ _ Hr Hstep) as (l & Hr' & Hl). assert (l = sequences id (handles_of (w_heap w))) as -> by (unfold e in Hl; by destruct r').
  pose proof (api_inv_same w hs id s s' _ Hi Hs (step_identity _ _ _ _ Hstep) Hr') as Hi'. destruct r' as [result|].
  - pose proof (c_status_code thread result (set_state w id s')) as Hc. destruct (c_status _ _ _) as [w1 st] eqn:Ec. injection Hw as <- <-. simpl in Hc. rewrite Hc. eapply c_status_inv; [|exact Ec].
    unfold e in Hi'. simpl in Hi'. destruct (ok result); [by rewrite <- (record_committed _ _ _ _ Hhs)|]. by rewrite insert_id in Hi'.
  - injection Hw as <- <-. unfold e in Hi'. simpl in Hi'. by rewrite insert_id in Hi'.
Qed.

Lemma background_inv_api w hs id s s' : api_inv w hs -> db_state w id = Some s -> background_step strerror s s' -> api_inv (set_state w id s') hs.
Proof.
  intros Hi Hs Hb. destruct (proj2 Hi id s Hs) as (hist & Hhs & Hr). pose proof (db_background strerror s s' Hb) as Hstep.
  destruct (represents_step _ _ _ _ _ Hr Hstep) as (l & Hr' & ->). simpl in Hr'.
  pose proof (api_inv_same w hs id s s' _ Hi Hs (step_identity _ _ _ _ Hstep) Hr') as Hi'. by rewrite insert_id in Hi'.
Qed.

(** ** Readers *)

(** There are fewer handles than addresses. *)
Lemma heap_size w : well_formed w -> Z.of_nat (size (w_heap w)) < w_next w.
Proof.
  intros Hwf. pose proof (wf_next _ Hwf) as Hn. assert (dom (w_heap w) ⊆ list_to_set (map Z.of_nat (seq 1 (Z.to_nat (w_next w - 1))))) as Hsub.
  { intros p Hp. apply elem_of_dom in Hp as [o Ho]. destruct (wf_addresses _ Hwf _ _ Ho). apply elem_of_list_to_set, list_elem_of_fmap. exists (Z.to_nat p). split; [lia|].
    apply elem_of_seq. lia. }
  apply subseteq_size in Hsub. rewrite size_dom, size_list_to_set in Hsub.
  - rewrite length_map, length_seq in Hsub. lia.
  - apply NoDup_fmap_2; [intros a b; lia|apply NoDup_seq].
Qed.

Lemma handles_size heap : (size (handles_of heap) <= size heap)%nat.
Proof.
  rewrite <- (size_dom (handles_of heap)), <- (size_dom heap). apply subseteq_size. intros p Hp. apply elem_of_dom in Hp as [h Hh]. rewrite handles_lookup in Hh.
  apply bind_Some in Hh as (o & Ho & _). apply elem_of_dom. by eexists.
Qed.

Lemma reader_open_inv w hs thread alloc db reader w' reader' st :
  api_inv w hs -> lsm_reader_open thread alloc db reader w = Some (w', reader', st) -> w_next w <= kUint64Max -> api_inv w' hs.
Proof.
  intros Hi Ho Hn. revert Ho. unfold lsm_reader_open. destruct reader as [r0|]; [|failed_call; by intros [= <- _ _]]. destruct (db =? 0); [failed_call; by intros [= <- _ _]|].
  destruct alloc as [e|]; [failed_call; by intros [= <- _ _]|]. intros Ho. apply bind_Some in Ho as (h & Hh & Ho). apply bind_Some in Ho as (id & Hid & Ho). apply bind_Some in Ho as (s & Hs & Ho).
  destruct (proj2 Hi id s Hs) as (hist & Hhs & Hr). pose proof Hi as [Hwf _]. destruct (wf_locks _ Hwf id s Hs) as [Htr _].
  assert (count_of (last_sequence_ (st_db s)) (snapshots_ (st_db s)) < kUint64Max) as Hcount.
  { destruct Hr as (g & k & Hg & _ & Hl). rewrite (tr_counts _ _ (ri_tracks _ _ (iv_reads _ _ _ Hg))). pose proof (occurrences_range (last_sequence_ (st_db s)) (live g)).
    pose proof (heap_size w Hwf). pose proof (handles_size (w_heap w)). pose proof (sequences_size id (handles_of (w_heap w))). apply Permutation_length in Hl. unfold len in *. lia. }
  unfold newSnapshot in Ho. set (seq := last_sequence_ (st_db s)) in *. set (s' := mkState _ _ _) in Ho. cbn [allocate w_next set_state set_folder set_dbs] in Ho. injection Ho as <- _ _.
  assert (db_step strerror s (Snapped seq) s') as Hstep.
  { destruct s as [db0 fs0 bg0]. by eapply (db_snapshot strerror db0 fs0 bg0 _ (mkSnapshotImpl seq (tracker_id db0))). }
  destruct (represents_step _ _ _ _ _ Hr Hstep) as (l & Hr' & Hseq & ->). simpl in Hr'. rewrite Hid.
  set (o := ObjReader _). assert (handle_of o = Some (id, Some seq)) as Hho by (unfold o; done).
  assert (handles_of (w_heap w) !! w_next w = None) as Hfresh.
  { rewrite handles_lookup. destruct (w_heap w !! w_next w) as [o'|] eqn:E; [|done]. destruct (wf_addresses _ Hwf _ _ E). lia. }
  assert (handles_of (<[w_next w := o]> (w_heap w)) = <[w_next w := (id, Some seq)]> (handles_of (w_heap w))) as Hhandles by (by rewrite handles_insert, Hho).
  pose proof (api_inv_step w hs id s s' hist (<[w_next w := o]> (w_heap w)) (w_next w + 1) Hi Hs (step_identity _ _ _ _ Hstep)) as Hfin. rewrite (insert_id hs id hist Hhs) in Hfin. apply Hfin.
  - pose proof (well_formed_memory w Hwf) as [M1 M2 M3 M4]. split; [lia| | |].
    + intros p o' Hp. destruct (decide (p = w_next w)) as [->|Hne]; [lia|]. rewrite lookup_insert_ne in Hp by done. specialize (M2 _ _ Hp). lia.
    + intros p o' Hp. destruct (decide (p = w_next w)) as [->|Hne]; [|rewrite lookup_insert_ne in Hp by done; by eapply M3]. rewrite lookup_insert_eq in Hp. injection Hp as <-.
      exists (mkSnapshotImpl seq (tracker_id (st_db s))). simpl. rewrite Htr. split_and!; [done|done|]. apply db_state_directory in Hs as [-> _]. by eexists.
    + intros id' Hid'. destruct (M4 id' Hid') as (p & x & Hp). exists p, x. rewrite Hhandles, lookup_insert_ne; [done|]. intros <-. congruence.
  - rewrite Hhandles. destruct Hr' as (g & k & Hg & Hw & Hl). exists g, k. split_and!; [done|done|]. rewrite sequences_insert by done. unfold reader_sequence. simpl. by rewrite decide_True by done.
  - intros id' Hne. rewrite Hhandles, sequences_insert by done. unfold reader_sequence. simpl. by rewrite decide_False by done.
Qed.

(** ** Opening *)

Lemma db_state_folder w d f id : (forall s, db_state w id = Some s -> directory_ (st_db s) = d -> f_files f = f_files (folder w d)) ->
  db_state (set_folder w d f) id = db_state w id.
Proof.
  intros Hf. unfold db_state in *. cbn [set_folder w_dbs]. destruct (w_dbs w !! id) as [[db bg]|]; [|done]. cbn [mbind option_bind] in *. rewrite folder_set.
  destruct (decide (directory_ db = d)) as [E|]; [|done]. rewrite (Hf _ eq_refl E). by rewrite E.
Qed.

Lemma api_inv_folder w hs d f : api_inv w hs ->
  (forall id s, db_state w id = Some s -> directory_ (st_db s) = d -> f_files f = f_files (folder w d) /\ lock_holder (f_lock f) = lock_holder (f_lock (folder w d))) ->
  api_inv (set_folder w d f) hs.
Proof.
  intros [[W1 W2 W3 W4 W5 W6 W7] Hh] Hf.
  assert (forall id, db_state (set_folder w d f) id = db_state w id) as Hst by (intros id; apply db_state_folder; intros s Hs Hd; by apply (Hf id s)).
  split; [split; try done|].
  - intros id s. rewrite Hst, folder_set. intros Hs. destruct (W6 id s Hs) as (? & ? & Hl). destruct (decide (directory_ (st_db s) = d)) as [Hd|]; [|done].
    destruct (Hf id s Hs Hd) as [_ ->]. by rewrite <- Hd.
  - intros i j s1 s2. rewrite !Hst. apply W7.
  - intros id s. rewrite Hst. apply Hh.
Qed.

Lemma handle_live w o p id x : well_formed w -> w_heap w !! p = Some o -> handle_of o = Some (id, x) -> is_Some (w_dbs w !! id).
Proof.
  intros Hwf Hp Ho. pose proof (wf_objects _ Hwf _ _ Hp) as Hok. destruct o as [h|h| | |]; simpl in *; try done.
  - destruct Hok as (i & E & Hs), h as [d]. simpl in *. rewrite E in Ho. by injection Ho as <- _.
  - destruct Hok as (s & E & _ & Hs), h as [d sn]. simpl in *. rewrite E in Ho. by injection Ho as <- _.
Qed.

Lemma sequences_none id m : (forall p x, m !! p <> Some (id, x)) -> sequences id m = [].
Proof.
  intros Hn. unfold sequences. assert (forall h, h ∈ map_to_list m -> reader_sequence id h = None) as Hnone.
  { intros [p [i x]] Hin. apply elem_of_map_to_list in Hin. unfold reader_sequence. simpl. destruct (decide (i = id)) as [->|]; [|done]. by apply Hn in Hin. }
  revert Hnone. generalize (map_to_list m). intros l. induction l as [|h l IH]; intros Hnone; [done|]. csimpl. rewrite (Hnone h) by set_solver. apply IH. set_solver.
Qed.

(** A new database with its first handle. *)
Lemma api_inv_new w hs db h : api_inv w hs -> tracker_id db = w_fresh w -> 0 <= fd_ (lock_ db) ->
  lock_holder (f_lock (folder w (directory_ db))) = Some (fd_ (lock_ db)) -> (forall id s, db_state w id = Some s -> directory_ (st_db s) <> directory_ db) ->
  represents (mkState db (f_files (folder w (directory_ db))) Idle) h [] ->
  api_inv (mkWorld (<[w_next w := ObjDb (mkLsmDb (Some (w_fresh w)))]> (w_heap w)) (w_next w + 1) (<[w_fresh w := (db, Idle)]> (w_dbs w)) (S (w_fresh w)) (w_folders w) (w_errors w))
    (<[w_fresh w := h]> hs).
Proof.
  intros [Hwf Hh] Ht Hfd Hl Hnd Hr. set (id := w_fresh w) in *. set (w' := mkWorld _ _ _ _ _ _). pose proof Hwf as [W1 W2 W3 W4 W5 W6 W7].
  assert (w_dbs w !! id = None) as Hnone. { apply eq_None_not_Some. intros Hs. specialize (W4 _ Hs). unfold id in W4. lia. }
  assert (handles_of (w_heap w) !! w_next w = None) as Hfresh. { rewrite handles_lookup. destruct (w_heap w !! w_next w) eqn:E; [|done]. specialize (W1 _ _ E). lia. }
  assert (handles_of (w_heap w') = <[w_next w := (id, None)]> (handles_of (w_heap w))) as Hhandles by (simpl; by rewrite handles_insert).
  assert (forall i, sequences i (handles_of (w_heap w')) ≡ₚ sequences i (handles_of (w_heap w))) as Hseq.
  { intros i. rewrite Hhandles, sequences_insert by done. unfold reader_sequence. simpl. by destruct (decide (id = i)). }
  assert (forall i, db_state w' i = if decide (i = id) then Some (mkState db (f_files (folder w (directory_ db))) Idle) else db_state w i) as Hst.
  { intros i. unfold db_state. simpl. destruct (decide (i = id)) as [->|Hne]; [by rewrite lookup_insert_eq|by rewrite lookup_insert_ne]. }
  assert (forall i, is_Some (w_dbs w !! i) -> is_Some (w_dbs w' !! i)) as Hmono.
  { intros i Hs. simpl. destruct (decide (i = id)) as [->|Hne]; [rewrite lookup_insert_eq; by eexists|by rewrite lookup_insert_ne]. }
  split; [split|].
  - intros p o Hp. simpl in Hp |- *. destruct (decide (p = w_next w)) as [->|Hne]; [lia|]. rewrite lookup_insert_ne in Hp by done. specialize (W1 _ _ Hp). lia.
  - intros p o Hp. destruct (decide (p = w_next w)) as [->|Hne].
    + simpl in Hp. rewrite lookup_insert_eq in Hp. injection Hp as <-. exists id. split; [done|]. simpl. rewrite lookup_insert_eq. by eexists.
    + simpl in Hp. rewrite lookup_insert_ne in Hp by done. eapply object_ok_mono; [exact Hmono|by eapply W2].
  - simpl. lia.
  - intros i. simpl. destruct (decide (i = id)) as [->|Hne]; [intros _; unfold id; lia|]. rewrite lookup_insert_ne by done. intros Hs. specialize (W4 _ Hs). lia.
  - intros i. rewrite Hhandles. destruct (decide (i = id)) as [->|Hne]; [intros _; exists (w_next w), None; by rewrite lookup_insert_eq|]. simpl. rewrite lookup_insert_ne by done.
    intros Hs. destruct (W5 i Hs) as (p & x & Hp). exists p, x. rewrite lookup_insert_ne; [done|]. intros <-. congruence.
  - intros i s. rewrite Hst. destruct (decide (i = id)) as [->|Hne]; [intros [= <-]; done|]. apply W6.
  - intros i j s1 s2. rewrite !Hst. destruct (decide (i = id)) as [->|Hi], (decide (j = id)) as [->|Hj]; [done|..|apply W7].
    + intros [= <-] Hs2 Hdd. by destruct (Hnd j s2 Hs2).
    + intros Hs1 [= <-] Hdd. by destruct (Hnd i s1 Hs1).
  - intros i s. rewrite Hst. destruct (decide (i = id)) as [->|Hne].
    + intros [= <-]. exists h. rewrite lookup_insert_eq. split; [done|]. destruct Hr as (g & k & Hg & Hw & Hlv). exists g, k. split_and!; [done|done|]. rewrite Hseq, sequences_none; [done|].
      intros p x Hp. rewrite handles_lookup in Hp. apply bind_Some in Hp as (o & Hp & Ho). destruct (handle_live w o p id x Hwf Hp Ho). congruence.
    + intros Hs. destruct (Hh i s Hs) as (h1 & Hhs & g & k & Hg & Hw & Hlv). exists h1. rewrite lookup_insert_ne by done. split; [done|]. exists g, k. split_and!; [done|done|by rewrite Hseq].
Qed.

Lemma open_error_bad env options directory tracker kind k fs kind' k' fs' st : db_open strerror env options directory tracker kind k fs = Some (kind', k', fs', Err st) -> ok st = false.
Proof.
  unfold db_open. destruct (_ =? 0); [by intros [= _ _ _ <-]|]. destruct (prepareDatabaseDirectory _ _ _ _ _) as [kind1 st1]. destruct (ok st1) eqn:E1; cbn [negb]; [|intros [= _ _ _ <-]; done].
  destruct (acquireDatabaseLock _ _ _ _ _) as [[lock k1] st2]. destruct (ok st2) eqn:E2; cbn [negb]; [|intros [= _ _ _ <-]; done]. intros Ho. apply bind_Some in Ho as (db0 & _ & Ho).
  destruct (scanDatabaseDirectory _ _ _ _) as [files|st3] eqn:Es.
  2:{ injection Ho as _ _ _ <-. unfold scanDatabaseDirectory in Es. destruct (do_list_error env); [|done]. by injection Es as <-. }
  destruct (_ =? _); [by injection Ho as _ _ _ <-|]. destruct (do_exists env); [by injection Ho as _ _ _ <-|]. apply bind_Some in Ho as ([[db1 fs1] st4] & _ & Ho).
  destruct (ok st4) eqn:E4; cbn [negb] in Ho; [|by injection Ho as _ _ _ <-]. destruct (do_thread env); [by injection Ho as _ _ _ <-|discriminate Ho].
Qed.

Lemma db_open_inv w hs thread alloc env directory db w' db' st h :
  api_inv w hs -> lsm_db_open strerror thread alloc env directory db w = Some (w', db', st) -> (forall fd, le_open (do_lock env) = inr fd -> 0 <= fd) ->
  (forall s, w_fresh w' = S (w_fresh w) -> db_state w' (w_fresh w) = Some s -> represents s h []) ->
  api_inv w' (record hs (if st_code st =? 0 then Opened (w_fresh w) h else Silent)).
Proof.
  intros Hi Ho Hfd Hnew. unfold lsm_db_open in Ho. destruct directory as [d|], db as [cell|]; try (injection Ho as <- _ <-; simpl; by apply api_inv_error).
  destruct alloc as [e|]. { unfold caught in Ho. destruct e; injection Ho as <- _ <-; simpl; by apply api_inv_error. }
  apply bind_Some in Ho as ([[[kind lock] files] r] & Hop & Ho). destruct (open_exclusive strerror _ _ _ _ _ _ _ _ _ _ _ Hfd Hop) as [Hexc Hok].
  destruct r as [opened|result].
  - cbn [allocate set_folder w_heap w_next w_dbs w_fresh w_folders w_errors c_success snd] in Ho. injection Ho as <- _ <-. simpl (record _ _). destruct (Hok opened eq_refl) as (Hd & Ht & Hfd' & Hl).
    assert (forall id s, db_state w id = Some s -> directory_ (st_db s) <> d) as Hnd.
    { intros id s Hs E. destruct (wf_locks _ (proj1 Hi) id s Hs) as (_ & _ & Hlk). rewrite E in Hlk. destruct Hexc as (_ & _ & ? & ? & _); [by rewrite Hlk|done]. }
    pose proof (api_inv_new (set_folder w d (mkFolder kind lock files)) hs opened h) as Hfin. cbn [set_folder w_heap w_next w_dbs w_fresh w_folders w_errors] in Hfin. apply Hfin.
    + apply api_inv_folder; [done|]. intros id s Hs E. by destruct (Hnd id s Hs).
    + done.
    + done.
    + by rewrite Hd, folder_set, decide_True by done.
    + intros id s. rewrite db_state_folder, Hd; [by apply Hnd|]. intros s1 Hs1 E. by destruct (Hnd id s1 Hs1).
    + apply Hnew; [done|]. unfold db_state. simpl. rewrite lookup_insert_eq. done.
  - pose proof (open_error_bad _ _ _ _ _ _ _ _ _ _ _ Hop) as Hbad. pose proof (c_status_code thread result (set_folder w d (mkFolder kind lock files))) as Hc.
    destruct (c_status _ _ _) as [w1 st1] eqn:Ec. injection Ho as <- _ <-. simpl in Hc. rewrite Hc, Hbad. eapply c_status_inv; [|exact Ec]. apply api_inv_folder; [done|]. intros id s Hs E.
    destruct (wf_locks _ (proj1 Hi) id s Hs) as (_ & _ & Hlk). rewrite E in Hlk. destruct Hexc as (E1 & -> & _); [by rewrite Hlk|]. done.
Qed.

(** ** Closing *)

Lemma joins_identity s joined : joins s joined -> identity (st_db joined) = identity (st_db s).
Proof.
  intros [Hr _]. change (identity (st_db s)) with (identity (st_db (mkState (shut_down (st_db s)) (st_fs s) (st_bg s)))).
  induction Hr as [|a b c Hs _ IH]; [done|]. rewrite IH. by apply (step_identity strerror _ Internal), db_background.
Qed.

Lemma has_owner_delete m p id x : m !! p = Some (id, x) -> forall i, i <> id -> has_owner i m -> has_owner i (delete p m).
Proof. intros Hp i Hne (q & y & Hq). exists q, y. rewrite lookup_delete_ne; [done|]. intros <-. congruence. Qed.

Lemma sequences_others m p id x : m !! p = Some (id, x) -> forall i, i <> id -> sequences i (delete p m) ≡ₚ sequences i m.
Proof. intros Hp i Hne. rewrite (sequences_delete i m p (id, x) Hp). unfold reader_sequence. simpl. by rewrite decide_False by done. Qed.

(** The last handle goes, and the database with it. *)
Lemma api_inv_gone w hs id s p x f :
  api_inv w hs -> db_state w id = Some s -> handles_of (w_heap w) !! p = Some (id, x) -> ~ has_owner id (handles_of (delete p (w_heap w))) ->
  api_inv (mkWorld (delete p (w_heap w)) (w_next w) (delete id (w_dbs w)) (w_fresh w) (<[directory_ (st_db s) := f]> (w_folders w)) (w_errors w)) hs.
Proof.
  intros [Hwf Hh] Hs Hp Hno. set (w' := mkWorld _ _ _ _ _ _). pose proof Hwf as [W1 W2 W3 W4 W5 W6 W7].
  assert (forall i s1, db_state w' i = Some s1 -> i <> id /\ db_state w i = Some s1 /\ directory_ (st_db s1) <> directory_ (st_db s)) as Hst.
  { intros i s1 Hi. unfold db_state in Hi. apply bind_Some in Hi as ([db bg] & Hl & [= <-]). simpl in Hl. apply lookup_delete_Some in Hl as [Hne Hl]. simpl.
    assert (db_state w i = Some (mkState db (f_files (folder w (directory_ db))) bg)) as Hi by (unfold db_state; by rewrite Hl).
    assert (directory_ db <> directory_ (st_db s)) as Hd by (intros E; by apply Hne; symmetry; eapply W7). split_and!; [done| |done]. rewrite Hi. unfold folder. simpl. by rewrite lookup_insert_ne. }
  assert (forall q o, delete p (w_heap w) !! q = Some o -> handle_of o = None \/ exists i y, handle_of o = Some (i, y) /\ i <> id) as Hothers.
  { intros q o Hq. destruct (handle_of o) as [[i y]|] eqn:E; [right|by left]. exists i, y. split; [done|]. intros ->. apply Hno. exists q, y. by rewrite handles_lookup, Hq. }
  split; [split|].
  - intros q o Hq. simpl in Hq. apply lookup_delete_Some in Hq as [_ Hq]. by eapply W1.
  - intros q o Hq. simpl in Hq. pose proof (Hothers q o Hq) as Ho. apply lookup_delete_Some in Hq as [_ Hq]. specialize (W2 q o Hq). destruct o as [[d]|[d sn]| | |]; simpl in *; try done.
    + destruct W2 as (i & -> & Hi). exists i. split; [done|]. destruct Ho as [|(j & y & [= <- _] & Hne)]; [done|]. by rewrite lookup_delete_ne.
    + destruct W2 as (sp & -> & -> & Hi). exists sp. split_and!; [done|done|]. destruct Ho as [|(j & y & [= <- _] & Hne)]; [done|]. by rewrite lookup_delete_ne.
  - done.
  - intros i [y Hi]. simpl in Hi. apply lookup_delete_Some in Hi as [_ Hi]. apply W4. by eexists.
  - intros i [y Hi]. simpl in Hi. apply lookup_delete_Some in Hi as [Hne Hi]. simpl. rewrite handles_delete. apply (has_owner_delete _ _ _ _ Hp); [done|]. apply W5. by eexists.
  - intros i s1 Hi. apply Hst in Hi as (Hne & Hi & Hd). unfold folder. simpl. rewrite lookup_insert_ne by done. by apply W6.
  - intros i j s1 s2 Hi Hj. apply Hst in Hi as (_ & Hi & _), Hj as (_ & Hj & _). by eapply W7.
  - intros i s1 Hi. apply Hst in Hi as (Hne & Hi & Hd). destruct (Hh i s1 Hi) as (h1 & Hhs & g & k & Hg & Hw & Hlv). exists h1. split; [done|]. exists g, k. split_and!; [done|done|].
    simpl. by rewrite Hlv, handles_delete, (sequences_others _ _ _ _ Hp).
Qed.

Lemma memory_ok_delete w p id x : well_formed w -> handles_of (w_heap w) !! p = Some (id, x) -> has_owner id (handles_of (delete p (w_heap w))) ->
  memory_ok w (delete p (w_heap w)) (w_next w).
Proof.
  intros Hwf Hp Ho. pose proof (well_formed_memory w Hwf) as [M1 M2 M3 M4]. split; [done|..].
  - intros q o Hq. apply lookup_delete_Some in Hq as [_ Hq]. by eapply M2.
  - intros q o Hq. apply lookup_delete_Some in Hq as [_ Hq]. by eapply M3.
  - intros i Hi. destruct (decide (i = id)) as [->|Hne]; [done|]. rewrite handles_delete. apply (has_owner_delete _ _ _ _ Hp); [done|]. by apply M4.
Qed.

Lemma db_close_inv w hs joined db w' : api_inv w hs -> lsm_db_close joined db w = Some w' ->
  (forall h, deref_db w db = Some h -> joins_last (free w db) (ld_db h) joined) -> api_inv w' hs.
Proof.
  intros Hi Hc Hj. unfold lsm_db_close in Hc. destruct (db =? 0); [by injection Hc as <-|]. apply bind_Some in Hc as (h & Hh & Hc). specialize (Hj h Hh). pose proof Hi as [Hwf _].
  apply deref_db_heap in Hh. pose proof (wf_objects _ Hwf _ _ Hh) as (id & Hid & [[d bg] Hd]). rewrite Hid in *.
  assert (handles_of (w_heap w) !! db = Some (id, None)) as Hp by (by rewrite handles_lookup, Hh; simpl; rewrite Hid).
  unfold release_db in Hc. destruct (owned (free w db) id) eqn:Eo.
  - injection Hc as <-. apply owned_spec in Eo. apply (api_inv_memory w hs (delete db (w_heap w)) (w_next w)); [done|by eapply memory_ok_delete|].
    intros i. rewrite handles_delete, (sequences_delete i _ _ _ Hp). unfold reader_sequence. simpl. by destruct (decide (id = i)).
  - unfold destroy_db in Hc. apply bind_Some in Hc as (x & _ & Hc). destruct (db_state w id) as [s|] eqn:Hs; [|unfold db_state in Hs; by rewrite Hd in Hs].
    pose proof (identity_directory _ _ (joins_identity _ _ (Hj id s eq_refl Eo Hs))) as Edir. destruct (lock_reset _ _) as [u lock]. injection Hc as <-. rewrite Edir.
    apply (api_inv_gone w hs id s db None _ Hi Hs Hp). intros Ho. apply (owned_spec (free w db)) in Ho. congruence.
Qed.

Lemma reader_close_inv w hs joined reader w' : api_inv w hs -> lsm_reader_close joined reader w = Some w' ->
  (forall h w1, deref_reader w reader = Some h -> release_snapshot (lr_snapshot h) (free w reader) = Some w1 -> joins_last w1 (lr_db h) joined) -> api_inv w' hs.
Proof.
  intros Hi Hc Hj. unfold lsm_reader_close in Hc. destruct (reader =? 0); [by injection Hc as <-|]. apply bind_Some in Hc as (h & Hh & Hc). apply bind_Some in Hc as (w1 & Hr & Hc).
  specialize (Hj h w1 Hh Hr). pose proof Hi as [Hwf Hhold]. apply deref_reader_heap in Hh. pose proof (wf_objects _ Hwf _ _ Hh) as (sn & Hid & Hsn & Hlive). rewrite Hid, Hsn in *. set (id := ss_tracker sn) in *.
  assert (handles_of (w_heap w) !! reader = Some (id, Some (ss_sequence sn))) as Hp by (rewrite handles_lookup, Hh; simpl; by rewrite Hid, Hsn).
  cbn [release_snapshot] in Hr. change (db_state (free w reader) id) with (db_state w id) in Hr. apply bind_Some in Hr as (s & Hs & Hr). apply bind_Some in Hr as (db' & Hrel & [= <-]).
  set (s' := mkState db' (st_fs s) (st_bg s)) in *.
  assert (db_step strerror s (Released (ss_sequence sn)) s') as Hstep by (destruct s; by apply db_release).
  pose proof (step_identity _ _ _ _ Hstep) as Hident. pose proof (identity_directory _ _ Hident) as Edir.
  destruct (Hhold id s Hs) as (hist & Hhs & Hrep). destruct (represents_step _ _ _ _ _ Hrep Hstep) as (l & Hrep' & Hl). simpl in Hrep'.
  unfold release_db in Hc. destruct (owned _ id) eqn:Eo.
  - injection Hc as <-. apply owned_spec in Eo. pose proof (api_inv_step w hs id s s' hist (delete reader (w_heap w)) (w_next w) Hi Hs Hident) as Hfin. rewrite (insert_id hs id hist Hhs) in Hfin. apply Hfin.
    + by eapply memory_ok_delete.
    + destruct Hrep' as (g & k & Hg & Hw & Hlv). exists g, k. split_and!; [done|done|]. rewrite Hlv. rewrite (sequences_delete id _ _ _ Hp) in Hl. unfold reader_sequence in Hl. simpl in Hl.
      rewrite decide_True in Hl by done. simpl in Hl. rewrite handles_delete. symmetry. by apply Permutation_cons_inv in Hl.
    + intros i Hne. rewrite handles_delete. by apply (sequences_others _ _ _ _ Hp).
  - unfold destroy_db in Hc. apply bind_Some in Hc as (x & _ & Hc).
    assert (db_state (set_state (free w reader) id s') id = Some s') as Hs1.
    { unfold db_state. cbn [set_state set_folder set_dbs w_dbs free]. rewrite lookup_insert_eq. cbn [mbind option_bind]. unfold set_state. rewrite folder_set, decide_True by done. by destruct s'. }
    pose proof (identity_directory _ _ (joins_identity _ _ (Hj id s' eq_refl Eo Hs1))) as Ejoin. destruct (lock_reset _ _) as [u lock]. injection Hc as <-. rewrite Ejoin, Edir.
    set (f := mkFolder _ _ _). unfold set_folder, set_dbs, set_state, free, set_heap. cbn [set_folder set_dbs w_heap w_next w_dbs w_fresh w_folders w_errors].
    rewrite delete_insert_eq, Edir, insert_insert_eq.
    apply (api_inv_gone w hs id s reader _ _ Hi Hs Hp). intros Ho. apply (owned_spec (free w reader)) in Ho. assert (owned (free w reader) id = false) by exact Eo. congruence.
Qed.

(** ** Sessions *)

Lemma api_step_inv w e w' hs : api_step w e w' -> api_inv w hs -> api_inv w' (record hs e).
Proof.
  intros Hs Hi. destruct Hs as [????????? h ? Hf Hn|???? Hc Hj|??????? r Hw|???????? Ho Hn|???? Hc Hj|???????????????? Hg|????????? Ho|p ? w' Hf|?????? Hm|???? Hm|?????????? Hc|?????????? Hc
    |????? Hst|??? Hc|??????? Hb|??? Hc|??? Hc|?????????? Hp|???????? Hp|???? Hd Hb]; cbn [record].
  - by eapply db_open_inv.
  - by eapply db_close_inv.
  - by eapply db_write_inv.
  - by eapply reader_open_inv.
  - by eapply reader_close_inv.
  - by eapply reader_get_inv.
  - by eapply reader_new_iterator_inv.
  - unfold lsm_bytes_free in Hf. destruct (p =? 0); [by injection Hf as <-|]. destruct (w_heap w !! p) as [[]|] eqn:E; try done. injection Hf as <-. by eapply api_inv_free.
  - by eapply iterator_seek_inv.
  - by eapply (iterator_move_inv w hs iterator (di_next fuel)).
  - by eapply (iterator_copy_inv di_key).
  - by eapply (iterator_copy_inv di_value).
  - unfold lsm_iterator_status in Hst. apply bind_Some in Hst as ([d|] & _ & Hst); apply (inj Some) in Hst; [by eapply c_status_inv|by eapply c_invalid_inv].
  - unfold lsm_iterator_close in Hc. destruct (iterator =? 0); [by injection Hc as <-|]. apply bind_Some in Hc as (h & Hh%deref_iterator_heap & [= <-]). by eapply api_inv_free.
  - revert Hb. unfold lsm_batch_new. destruct batch; [|failed_call; by intros [= <- _ _]]. destruct alloc; [failed_call; by intros [= <- _ _]|].
    intros [= <- _ _]. by apply (api_inv_allocate w hs (ObjBatch (mkLsmBatch []))); [|done|constructor].
  - unfold lsm_batch_clear in Hc. destruct (batch =? 0); [by injection Hc as <-|]. apply bind_Some in Hc as (h & Hh & [= <-]). eapply batch_update_inv; [done|done|constructor].
  - unfold lsm_batch_close in Hc. destruct (batch =? 0); [by injection Hc as <-|]. apply bind_Some in Hc as (h & Hh%deref_batch_heap & [= <-]). by eapply api_inv_free.
  - by eapply batch_put_inv.
  - by eapply batch_erase_inv.
  - by eapply background_inv_api.
Qed.

(** What the databases of a session hold. *)
Definition recorded (hs : gmap nat history) (es : list api_event) : gmap nat history := fold_left record es hs.

Lemma api_run_inv w es w' : api_run w es w' -> forall hs, api_inv w hs -> api_inv w' (recorded hs es).
Proof. induction 1 as [|w e w1 es w2 Hs _ IH]; intros hs Hi; [done|]. apply IH. by eapply api_step_inv. Qed.

(** A process that has not used the interface yet. *)
Definition process (folders : gmap string Folder) : World := mkWorld ∅ 1 ∅ 0 folders ∅.

Lemma process_inv folders : api_inv (process folders) ∅.
Proof.
  assert (forall id, db_state (process folders) id = None) as Hn by done. split; [split|].
  - intros p o. simpl. by rewrite lookup_empty.
  - intros p o. simpl. by rewrite lookup_empty.
  - done.
  - intros id [x Hx]. simpl in Hx. by rewrite lookup_empty in Hx.
  - intros id [x Hx]. simpl in Hx. by rewrite lookup_empty in Hx.
  - intros id s. by rewrite Hn.
  - intros i j s1 s2. by rewrite Hn.
  - intros id s. by rewrite Hn.
Qed.

(** ** Later writes are not visible *)

Lemma history_get_prefix h h' key seq : history_ok h' -> h `prefix_of` h' -> seq <= len h -> history_get h' key seq = history_get h key seq.
Proof.
  intros Hok [r ->] Hs. destruct (history_ok_app _ _ Hok) as [_ Hr]. unfold history_get, mvcc_get. rewrite entries_app, mvcc_newest_app, (mvcc_newest_none (entries r)); [by rewrite newer_None_r|].
  apply Forall_elem. intros e He. destruct (entries_parse _ _ _ Hr He) as (w & Hw & -> & Hp). pose proof (numbered_elem _ _ _ Hr Hw) as [Hn _]. unfold candidate. rewrite Hp. simpl.
  rewrite (proj2 (Z.leb_gt _ _)) by lia. by rewrite andb_false_r.
Qed.

(** ** A reader stays what it is *)

(** No call changes a reader or reuses an address. *)
Record keeps_readers (w w' : World) : Prop := {
  kr_next : w_next w <= w_next w';
  kr_fresh : (w_fresh w <= w_fresh w')%nat;
  kr_readers : forall p h, p < w_next w -> w_heap w' !! p = Some (ObjReader h) -> w_heap w !! p = Some (ObjReader h);
}.

Lemma keeps_refl w : keeps_readers w w.
Proof. by split. Qed.
Lemma keeps_trans w w1 w2 : keeps_readers w w1 -> keeps_readers w1 w2 -> keeps_readers w w2.
Proof. intros [A1 A2 A3] [B1 B2 B3]. split; [lia|lia|]. intros p h Hp Hh. apply A3; [done|]. apply B3; [lia|done]. Qed.

Lemma keeps_same w w' : w_next w' = w_next w -> w_fresh w' = w_fresh w -> w_heap w' = w_heap w -> keeps_readers w w'.
Proof. intros E1 E2 E3. split; [lia|lia|by rewrite E3]. Qed.
Lemma keeps_new w o dbs fresh folders errors : (w_fresh w <= fresh)%nat -> keeps_readers w (mkWorld (<[w_next w := o]> (w_heap w)) (w_next w + 1) dbs fresh folders errors).
Proof. intros Hf. split; [simpl; lia|done|]. intros p h Hp. simpl. by rewrite lookup_insert_ne by lia. Qed.
Lemma keeps_allocate w o w' p : allocate w o = (w', p) -> keeps_readers w w'.
Proof. intros [= <- _]. by apply keeps_new. Qed.
Lemma keeps_free w p : keeps_readers w (free w p).
Proof. split; [done|done|]. intros q h _. simpl. intros Hq. by apply lookup_delete_Some in Hq as [_ ?]. Qed.
Lemma keeps_store w p o : (forall h, o <> ObjReader h) -> keeps_readers w (store w p o).
Proof.
  intros Ho. split; [done|done|]. intros q h _. simpl. destruct (decide (q = p)) as [->|Hne]; [|by rewrite lookup_insert_ne]. rewrite lookup_insert_eq. intros [= E]. by destruct (Ho h).
Qed.
Lemma keeps_c_fail w thread code text : keeps_readers w (c_fail thread code text w).1.
Proof. by apply keeps_same. Qed.
Lemma keeps_c_status w thread value w' st : c_status thread value w = (w', st) -> keeps_readers w w'.
Proof. unfold c_status, c_success, c_fail. destruct (ok value); intros [= <- _]; [apply keeps_refl|by apply keeps_same]. Qed.
Lemma keeps_caught w thread e w' st : caught thread e w = (w', st) -> keeps_readers w w'.
Proof. destruct e; intros [= <- _]; by apply keeps_same. Qed.
Lemma keeps_c_invalid w thread message w' st : c_invalid thread message w = (w', st) -> keeps_readers w w'.
Proof. intros [= <- _]. by apply keeps_same. Qed.
Lemma keeps_set_state w id s : keeps_readers w (set_state w id s).
Proof. by apply keeps_same. Qed.
Lemma keeps_copySlice w thread malloc_ok slice output size w' output' size' st : copySlice thread malloc_ok slice output size w = (w', output', size', st) -> keeps_readers w w'.
Proof.
  unfold copySlice. destruct output, size; try (intros [= <- _ _ _]; by apply keeps_same). case_bool_decide; [intros [= <- _ _ _]; apply keeps_refl|].
  destruct malloc_ok; cbn [negb]; intros [= <- _ _ _]; [by apply keeps_new|by apply keeps_same].
Qed.
Lemma keeps_release_db joined db w w' : release_db joined db w = Some w' -> keeps_readers w w'.
Proof.
  unfold release_db. destruct db as [id|]; [|intros [= <-]; apply keeps_refl]. destruct (owned w id); [intros [= <-]; apply keeps_refl|]. unfold destroy_db. intros Hd. apply bind_Some in Hd as (x & _ & Hd).
  destruct (lock_reset _ _). injection Hd as <-. by apply keeps_same.
Qed.
Lemma keeps_release_snapshot snapshot w w' : release_snapshot snapshot w = Some w' -> keeps_readers w w'.
Proof.
  unfold release_snapshot. destruct snapshot as [[s|]|]; try (intros [= <-]; apply keeps_refl). intros Hr. apply bind_Some in Hr as (st & _ & Hr). apply bind_Some in Hr as (d & _ & [= <-]). apply keeps_set_state.
Qed.

(** Destructs the calls in hypothesis [Hc]. *)
Ltac keep_cases Hc :=
  repeat match type of Hc with
  | mbind _ _ = Some _ => let x := fresh "x" in apply bind_Some in Hc as (x & _ & Hc)
  | context [c_status ?t ?v ?w] => let E := fresh "E" in destruct (c_status t v w) eqn:E; apply keeps_c_status in E
  | context [caught ?t ?e ?w] => let E := fresh "E" in destruct (caught t e w) eqn:E; apply keeps_caught in E
  | context [c_invalid ?t ?m ?w] => let E := fresh "E" in destruct (c_invalid t m w) eqn:E; apply keeps_c_invalid in E
  | context [copySlice ?t ?m ?s ?o ?z ?w] => let E := fresh "E" in destruct (copySlice t m s o z w) as [[[? ?] ?] ?] eqn:E; apply keeps_copySlice in E
  | context [allocate ?w ?o] => let E := fresh "E" in destruct (allocate w o) eqn:E; apply keeps_allocate in E
  | context [if ?b then _ else _] => destruct b
  | context [match ?x with _ => _ end] => destruct x
  end.
Ltac keep_done Hc :=
  first [discriminate Hc | injection Hc; intros; subst;
    first [assumption | apply keeps_refl | apply keeps_free | by apply keeps_store | apply keeps_set_state
          | eapply keeps_trans; [|eassumption]; apply keeps_same; reflexivity]].

Lemma keeps_db_open thread alloc env directory db w w' db' st : lsm_db_open strerror thread alloc env directory db w = Some (w', db', st) -> keeps_readers w w'.
Proof.
  unfold lsm_db_open. intros Ho. destruct directory as [d|], db as [cell|]; try (keep_cases Ho; by keep_done Ho). destruct alloc as [e|]; [keep_cases Ho; by keep_done Ho|].
  apply bind_Some in Ho as ([[[kind lock] files] r] & _ & Ho). destruct r as [opened|result]; [|keep_cases Ho; by keep_done Ho]. injection Ho as <- _ _. apply keeps_new. lia.
Qed.

Lemma keeps_reader_open thread alloc db reader w w' reader' st : lsm_reader_open thread alloc db reader w = Some (w', reader', st) -> keeps_readers w w'.
Proof.
  unfold lsm_reader_open. intros Ho. destruct reader as [cell|]; [|keep_cases Ho; by keep_done Ho]. destruct (db =? 0); [keep_cases Ho; by keep_done Ho|]. destruct alloc as [e|]; [keep_cases Ho; by keep_done Ho|].
  apply bind_Some in Ho as (h & _ & Ho). apply bind_Some in Ho as (id & _ & Ho). apply bind_Some in Ho as (s & _ & Ho). destruct (newSnapshot _) as [d sn]. injection Ho as <- _ _.
  by apply keeps_new.
Qed.

Lemma keeps_reader_close joined reader w w' : lsm_reader_close joined reader w = Some w' -> keeps_readers w w'.
Proof.
  unfold lsm_reader_close. intros Hc. destruct (reader =? 0); [by keep_done Hc|]. apply bind_Some in Hc as (h & _ & Hc). apply bind_Some in Hc as (w1 & Hr%keeps_release_snapshot & Hc%keeps_release_db).
  eapply keeps_trans; [apply keeps_free|]. by eapply keeps_trans.
Qed.

Lemma keeps_db_write thread env db batch sync w w' r : lsm_db_write strerror thread env db batch sync w = Some (w', r) -> keeps_readers w w'.
Proof.
  unfold lsm_db_write. intros Hw. destruct (_ || _); [keep_cases Hw; by keep_done Hw|]. do 4 (apply bind_Some in Hw as (? & _ & Hw)). apply bind_Some in Hw as ([[d files] r'] & _ & Hw).
  destruct r'; [|injection Hw as <- _; apply keeps_set_state]. keep_cases Hw. injection Hw as <- _. eapply keeps_trans; [apply keeps_set_state|eassumption].
Qed.

Lemma api_step_keeps w e w' : api_step w e w' -> keeps_readers w w'.
Proof.
  intros Hs. destruct Hs as [?????????? Ho ??|???? Hc _|???????? Hw|???????? Ho _|???? Hc Hj|???????????????? Hg|????????? Ho|??? Hf|?????? Hm|???? Hm|?????????? Hc|?????????? Hc
    |????? Hst|??? Hc|??????? Hb|??? Hc|??? Hc|?????????? Hp|???????? Hp|id s s' w Hd Hb].
  - by eapply keeps_db_open.
  - unfold lsm_db_close in Hc. destruct (db =? 0); [by keep_done Hc|]. apply bind_Some in Hc as (h & _ & Hc%keeps_release_db). eapply keeps_trans; [apply keeps_free|exact Hc].
  - by eapply keeps_db_write.
  - by eapply keeps_reader_open.
  - by eapply keeps_reader_close.
  - unfold lsm_reader_get in Hg. keep_cases Hg; by keep_done Hg.
  - unfold lsm_reader_new_iterator in Ho. keep_cases Ho; by keep_done Ho.
  - unfold lsm_bytes_free in Hf. keep_cases Hf; by keep_done Hf.
  - unfold lsm_iterator_seek in Hm. keep_cases Hm; by keep_done Hm.
  - unfold lsm_iterator_next in Hm. keep_cases Hm; by keep_done Hm.
  - unfold lsm_iterator_key, lsm_iterator_copy in Hc. keep_cases Hc; by keep_done Hc.
  - unfold lsm_iterator_value, lsm_iterator_copy in Hc. keep_cases Hc; by keep_done Hc.
  - unfold lsm_iterator_status in Hst. keep_cases Hst; by keep_done Hst.
  - unfold lsm_iterator_close in Hc. keep_cases Hc; by keep_done Hc.
  - unfold lsm_batch_new in Hb. keep_cases Hb; by keep_done Hb.
  - unfold lsm_batch_clear in Hc. keep_cases Hc; by keep_done Hc.
  - unfold lsm_batch_close in Hc. keep_cases Hc; by keep_done Hc.
  - unfold lsm_batch_put in Hp. keep_cases Hp; by keep_done Hp.
  - unfold lsm_batch_erase in Hp. keep_cases Hp; by keep_done Hp.
  - apply keeps_set_state.
Qed.

Lemma api_run_keeps w es w' : api_run w es w' -> keeps_readers w w'.
Proof. induction 1 as [|w e w1 es w2 Hs _ IH]; [apply keeps_refl|]. eapply keeps_trans; [by eapply api_step_keeps|done]. Qed.

(** The history of a database only grows. *)
Lemma api_step_grows w e w' hs id h : api_step w e w' -> (id < w_fresh w)%nat -> hs !! id = Some h -> exists h', record hs e !! id = Some h' /\ h `prefix_of` h'.
Proof.
  intros Hs Hid Hh. assert ((exists h', e = Opened (w_fresh w) h') \/ (exists i b, e = Committed i b) \/ e = Silent) as He.
  { destruct Hs; try tauto; [destruct (_ =? 0); eauto|]. unfold committed_by. destruct r, (deref_db w db) as [[[i|]]|], (deref_batch w batch); simpl; try tauto. destruct (_ =? 0); eauto. }
  destruct He as [[h' ->]|[(i & b & ->)| ->]]; simpl.
  - exists h. rewrite lookup_insert_ne by lia. by split.
  - destruct (decide (i = id)) as [->|Hne]; [|exists h; by rewrite lookup_alter_ne]. rewrite lookup_alter_eq, Hh. eexists. split; [done|]. by apply prefix_app_r.
  - by exists h.
Qed.

Lemma api_run_grows w es w' : api_run w es w' -> forall hs id h, (id < w_fresh w)%nat -> hs !! id = Some h -> exists h', recorded hs es !! id = Some h' /\ h `prefix_of` h'.
Proof.
  induction 1 as [|w e w1 es w2 Hs _ IH]; intros hs id h Hid Hh; [by exists h|]. destruct (api_step_grows _ _ _ _ _ _ Hs Hid Hh) as (h1 & Hh1 & Hp1).
  destruct (IH (record hs e) id h1) as (h2 & Hh2 & Hp2); [pose proof (kr_fresh _ _ (api_step_keeps _ _ _ Hs)); lia|done|]. exists h2. split; [done|]. by etrans.
Qed.

(** ** What a reader serves *)

(** The database of an open reader: its state, the history and the sequence number
    the reader is at. *)
Lemma reader_reads w hs p h : api_inv w hs -> deref_reader w p = Some h ->
  exists id s hist sn g k, lr_db h = Some id /\ lr_snapshot h = Some (OwnSnapshot sn) /\ db_state w id = Some s /\ hs !! id = Some hist /\
    db_inv s g k /\ whole g = hist /\ forall verify, reads_at (mkReadOptions (lr_snapshot h) verify) (st_db s) (store_of g) (ss_sequence sn).
Proof.
  intros [Hwf Hh] Hp. apply deref_reader_heap in Hp. destruct (wf_objects _ Hwf _ _ Hp) as (sn & Hid & Hsn & [[db bg] Hd]).
  destruct (db_state w (ss_tracker sn)) as [s|] eqn:Hs; [|unfold db_state in Hs; by rewrite Hd in Hs]. destruct (Hh _ _ Hs) as (hist & Hhs & g & k & Hg & Hw & Hl).
  exists (ss_tracker sn), s, hist, sn, g, k. split_and!; try done. intros verify. rewrite Hsn. simpl. destruct (wf_locks _ Hwf _ _ Hs) as [Ht _]. split_and!; [done| |done].
  rewrite Hl. apply list_elem_of_omap. exists (p, (ss_tracker sn, Some (ss_sequence sn))). split; [|unfold reader_sequence; simpl; by rewrite decide_True].
  apply elem_of_map_to_list. rewrite handles_lookup, Hp. simpl. by rewrite Hid, Hsn.
Qed.

(** Opening a reader fixes the history it serves. *)
Lemma reader_opened w hs thread alloc db cell w' p st : api_inv w hs -> lsm_reader_open thread alloc db (Some cell) w = Some (w', Some p, st) -> st_code st = 0 ->
  exists id hist sn, deref_db w db = Some (mkLsmDb (Some id)) /\ hs !! id = Some hist /\ (id < w_fresh w)%nat /\ p < w_next w' /\
    w_heap w' !! p = Some (ObjReader (mkLsmReader (Some id) (Some (OwnSnapshot sn)))) /\ ss_sequence sn = len hist.
Proof.
  intros [Hwf Hh] Ho Hst. unfold lsm_reader_open in Ho. destruct (db =? 0); [injection Ho as _ _ <-; done|]. destruct alloc as [e|]; [destruct e; injection Ho as _ _ <-; done|].
  apply bind_Some in Ho as ([d] & Hd & Ho). apply bind_Some in Ho as (id & Hid & Ho). apply bind_Some in Ho as (s & Hs & Ho). simpl in Hid. subst d. destruct (Hh _ _ Hs) as (hist & Hhs & g & k & Hg & Hw & _).
  destruct (db_state_directory _ _ _ Hs) as [Hdb _]. injection Ho as <- <- _. exists id, hist, (mkSnapshotImpl (last_sequence_ (st_db s)) (tracker_id (st_db s))). split_and!; [done|done| |simpl; lia| |].
  - apply (wf_fresh _ Hwf). rewrite Hdb. by eexists.
  - simpl. by rewrite lookup_insert_eq.
  - simpl. rewrite (ri_last _ _ (iv_reads _ _ _ Hg)). by rewrite Hw.
Qed.

(** A session that opens a reader, goes on and still has it. *)
Lemma reader_later folders es w thread alloc db cell w1 p st es' w2 h :
  api_run (process folders) es w -> lsm_reader_open thread alloc db (Some cell) w = Some (w1, Some p, st) -> st_code st = 0 -> w_next w <= kUint64Max ->
  api_run w1 es' w2 -> deref_reader w2 p = Some h ->
  exists id hist, deref_db w db = Some (mkLsmDb (Some id)) /\ recorded ∅ es !! id = Some hist /\
    exists s g k, lr_db h = Some id /\ db_state w2 id = Some s /\ db_inv s g k /\ (forall key, history_get (whole g) key (len hist) = history_get hist key (len hist)) /\
      forall verify, reads_at (mkReadOptions (lr_snapshot h) verify) (st_db s) (store_of g) (len hist).
Proof.
  intros Hr Ho Hst Hn Hr' Hp. pose proof (api_run_inv _ _ _ Hr _ (process_inv folders)) as Hi.
  pose proof (reader_open_inv _ _ _ _ _ _ _ _ _ Hi Ho Hn) as Hi1. pose proof (api_run_inv _ _ _ Hr' _ Hi1) as Hi2.
  destruct (reader_opened _ _ _ _ _ _ _ _ _ Hi Ho Hst) as (id & hist & sn & Hd & Hh & Hf & Hpn & Hheap & Hseq). exists id, hist. split_and!; [done|done|].
  destruct (reader_reads _ _ _ _ Hi2 Hp) as (id' & s & hist' & sn' & g & k & Hid & Hsn & Hs & Hh' & Hg & Hw & Hat).
  assert (h = mkLsmReader (Some id) (Some (OwnSnapshot sn))) as ->. { apply deref_reader_heap in Hp. apply (kr_readers _ _ (api_run_keeps _ _ _ Hr') _ _ Hpn) in Hp. congruence. }
  simpl in Hid, Hsn. simplify_eq. destruct (api_run_grows _ _ _ Hr' (recorded ∅ es) id' hist) as (h' & Hh1 & Hpre); [pose proof (kr_fresh _ _ (keeps_reader_open _ _ _ _ _ _ _ _ Ho)); lia|done|].
  assert (h' = whole g) as -> by congruence. exists s, g, k. split_and!; [done|done|done| |by rewrite <- Hseq].
  intros key. apply history_get_prefix; [apply (ri_history _ _ (iv_reads _ _ _ Hg))|done|lia].
Qed.

(** ** Reading through pointers *)

(** The bytes a client copies from a result. *)
Definition c_bytes (w : World) (p size : Z) : option bytes :=
  if (p =? 0) || (size =? 0) then Some [] else match w_heap w !! p with Some (ObjBytes b) => makeSlice (Some b) size | _ => None end.

(** A client's loop over an iterator: copies of the keys and values, and the status
    at the end. *)
Fixpoint c_scan (fuel thread : nat) (it : Z) (w : World) : option (World * list (bytes * bytes) * lsm_status) :=
  match fuel with
  | O => None
  | S fuel' =>
      valid ← lsm_iterator_valid it w;
      if valid =? 0 then '(w, st) ← lsm_iterator_status thread it w; Some (w, [], st)
      else
        '(w, key, key_size, _) ← lsm_iterator_key thread true it (Some 0) (Some 0) w;
        '(w, value, value_size, _) ← lsm_iterator_value thread true it (Some 0) (Some 0) w;
        k ← c_bytes w (default 0 key) (default 0 key_size);
        v ← c_bytes w (default 0 value) (default 0 value_size);
        w ← lsm_bytes_free (default 0 key) w;
        w ← lsm_bytes_free (default 0 value) w;
        w ← lsm_iterator_next fuel it w;
        '(w, kvs, st) ← c_scan fuel' thread it w;
        Some (w, (k, v) :: kvs, st)
  end.

(** The objects of [w] below [bound] are still there. *)
Definition keeps_below (bound : Z) (w w' : World) : Prop := w_next w <= w_next w' /\ forall p, p < bound -> w_heap w' !! p = w_heap w !! p.

Lemma copySlice_ok thread slice w : 0 < w_next w ->
  exists w' p, copySlice thread true slice (Some 0) (Some 0) w = (w', Some p, Some (len slice), mkLsmStatus 0 None) /\ keeps_below (w_next w) w w' /\
    c_bytes w' p (len slice) = Some slice /\ ((p = 0 /\ slice = []) \/ (p = w_next w /\ p < w_next w' /\ w_heap w' !! p = Some (ObjBytes slice))).
Proof.
  intros Hn. unfold copySlice. case_bool_decide as Hs.
  - exists w, 0. subst. split_and!; [done|by split|done|by left].
  - eexists _, _. split_and!; [done| | |right; split_and!; [done|simpl; lia|simpl; by rewrite lookup_insert_eq]].
    + split; [simpl; lia|]. intros q Hq. simpl. by rewrite lookup_insert_ne by lia.
    + unfold c_bytes. simpl. rewrite lookup_insert_eq. destruct (_ || _) eqn:E; [|unfold makeSlice; rewrite (proj2 (Z.eqb_neq _ _))].
      * apply orb_true_iff in E as [E|E]; apply Z.eqb_eq in E; [lia|]. destruct slice; [done|]. unfold len in E. simpl in E. lia.
      * cbn [mbind option_bind]. unfold assert_that. rewrite (proj2 (Z.leb_le _ _)) by lia. simpl. by rewrite take_ge by (unfold len; lia).
      * intros E'. by rewrite E', orb_true_r in E.
Qed.

Lemma free_read p b w : (p = 0 /\ b = []) \/ w_heap w !! p = Some (ObjBytes b) -> 0 <= p -> exists w', lsm_bytes_free p w = Some w' /\ w_next w' = w_next w /\
  forall q, q <> p -> w_heap w' !! q = w_heap w !! q.
Proof.
  intros Hp Hpos. unfold lsm_bytes_free. destruct (Z.eqb_spec p 0) as [->|Hne]; [by exists w|]. destruct Hp as [[? _]| ->]; [done|]. exists (free w p). split_and!; [done|done|].
  intros q Hq. simpl. by rewrite lookup_delete_ne.
Qed.

Lemma iterator_here w it d : 0 < it -> w_heap w !! it = Some (ObjIterator (mkLsmIterator (Some d))) -> open_iterator it w = Some (Some d).
Proof. intros Hp Hh. unfold open_iterator, deref_iterator. rewrite (proj2 (Z.eqb_neq _ _)) by lia. by rewrite Hh. Qed.

Lemma iterator_copy_ok part thread it d w slice : 0 < it < w_next w -> w_heap w !! it = Some (ObjIterator (mkLsmIterator (Some d))) -> di_valid d = true -> part d = Some slice ->
  lsm_iterator_copy part thread true it (Some 0) (Some 0) w = Some (copySlice thread true slice (Some 0) (Some 0) w).
Proof. intros Hp Hh Hv Hs. unfold lsm_iterator_copy. rewrite (iterator_here w it d) by (done || lia). cbn [mbind option_bind]. rewrite Hv. cbn [negb]. by rewrite Hs. Qed.

(** The client's loop is the engine's. *)
Lemma c_scan_drain fuel : forall thread it w d kvs st, 0 < it < w_next w -> w_heap w !! it = Some (ObjIterator (mkLsmIterator (Some d))) -> di_drain fuel d = Some (kvs, st) ->
  exists w' cst, c_scan fuel thread it w = Some (w', kvs, cst) /\ (st_code cst =? 0) = ok st.
Proof.
  induction fuel as [|fuel IH]; intros thread it w d kvs st Hp Hh Hd; [done|]. cbn [di_drain] in Hd. cbn [c_scan]. unfold lsm_iterator_valid. rewrite (iterator_here w it d) by (done || lia).
  cbn [mbind option_bind]. destruct (di_valid d) eqn:Hv; cbn [Z.eqb].
  2:{ injection Hd as <- <-. unfold lsm_iterator_status. rewrite (iterator_here w it d) by (done || lia). cbn [mbind option_bind]. pose proof (c_status_code thread (di_status d) w) as Hc.
      destruct (c_status thread (di_status d) w) as [w' cst]. by exists w', cst. }
  apply bind_Some in Hd as (k & Hk & Hd). apply bind_Some in Hd as (v & Hvv & Hd). apply bind_Some in Hd as (d' & Hn & Hd). apply bind_Some in Hd as ([kvs' st'] & Hd & [= <- <-]).
  unfold lsm_iterator_key. rewrite (iterator_copy_ok _ _ _ d _ k) by done. destruct (copySlice_ok thread k w) as (w1 & pk & -> & [Hn1 Hk1] & Hb1 & Hpk); [lia|]. cbn [mbind option_bind].
  assert (w_heap w1 !! it = Some (ObjIterator (mkLsmIterator (Some d)))) as Hh1 by (rewrite Hk1 by lia; done).
  unfold lsm_iterator_value. rewrite (iterator_copy_ok _ _ _ d _ v) by (done || lia). destruct (copySlice_ok thread v w1) as (w2 & pv & -> & [Hn2 Hk2] & Hb2 & Hpv); [lia|]. cbn [mbind option_bind].
  assert (c_bytes w2 pk (len k) = Some k) as Hb1'. { destruct Hpk as [[-> ->]|(-> & Hlt & Hl)]; [done|]. unfold c_bytes in *. rewrite Hk2 by lia. done. }
  cbn [from_option id]. rewrite Hb1', Hb2. cbn [mbind option_bind].
  destruct (free_read pk k w2) as (w3 & -> & Hn3 & Hk3); [destruct Hpk as [?|(-> & ? & ?)]; [by left|right; rewrite Hk2 by lia; done]|lia|]. cbn [mbind option_bind].
  destruct (free_read pv v w3) as (w4 & -> & Hn4 & Hk4); [destruct Hpv as [?|(-> & ? & ?)]; [by left|right; rewrite Hk3 by lia; done]|lia|]. cbn [mbind option_bind].
  assert (w_heap w4 !! it = Some (ObjIterator (mkLsmIterator (Some d)))) as Hh4. { rewrite Hk4, Hk3, Hk2 by (destruct Hpk as [[-> _]|[-> _]], Hpv as [[-> _]|[-> _]]; lia). done. }
  unfold lsm_iterator_next. rewrite (iterator_here w4 it d) by (done || lia). cbn [mbind option_bind]. rewrite Hn. cbn [mbind option_bind].
  set (w5 := store _ _ _). destruct (IH thread it w5 d' kvs' st') as (w6 & cst & -> & Hc); [simpl; lia|by simpl; rewrite lookup_insert_eq|done|]. by exists w6, cst.
Qed.

(** ** Calls on open handles *)

Lemma slice_whole b : makeSlice (Some b) (len b) = Some b.
Proof.
  unfold makeSlice. destruct (Z.eqb_spec (len b) 0) as [E|_]; [by destruct b; [|unfold len in E; simpl in E; lia]|]. cbn [mbind option_bind]. unfold assert_that.
  rewrite (proj2 (Z.leb_le _ _)) by lia. simpl. by rewrite take_ge by (unfold len; lia).
Qed.

Lemma handle_address w p : well_formed w -> is_Some (w_heap w !! p) -> (p =? 0) = false.
Proof. intros Hwf [o Ho]. apply Z.eqb_neq. pose proof (wf_addresses _ Hwf _ _ Ho). lia. Qed.

Lemma reader_address w p h : well_formed w -> deref_reader w p = Some h -> (p =? 0) = false.
Proof. intros Hwf Hh%deref_reader_heap. apply (handle_address w); [done|]. by eexists. Qed.

Lemma reader_get_runs w p h id s key thread reads malloc_ok : (p =? 0) = false -> deref_reader w p = Some h -> lr_db h = Some id -> db_state w id = Some s ->
  lsm_reader_get thread None malloc_ok reads p (Some key) (len key) (Some 0) (Some 0) (Some 0) w =
  (r ← get reads (mkReadOptions (lr_snapshot h) false) key (st_db s);
   match r with
   | Err get_result =>
       if isNotFound get_result then Some (w, Some 0, Some 0, Some 0, (c_success w).2)
       else let '(w, st) := c_status thread get_result w in Some (w, Some 0, Some 0, Some 0, st)
   | Ok result_value =>
       let '(w, value, value_size, st) := copySlice thread malloc_ok result_value (Some 0) (Some 0) w in
       Some (w, value, value_size, Some 1, st)
   end).
Proof.
  intros Hp Hh Hid Hs. unfold lsm_reader_get. rewrite Hp, Hh. cbn [mbind option_bind]. rewrite Hid. cbn [is_null orb andb mbind option_bind]. rewrite Hs. cbn [mbind option_bind].
  by rewrite slice_whole.
Qed.

Lemma reader_iterator_runs w p h id s thread reads cell : (p =? 0) = false -> deref_reader w p = Some h -> lr_db h = Some id -> db_state w id = Some s ->
  lsm_reader_new_iterator thread None reads p (Some cell) w =
  (r ← newIterator reads (mkReadOptions (lr_snapshot h) false) (st_db s);
   match r with
   | Err result => let '(w, st) := c_status thread result w in Some (w, Some 0, st)
   | Ok it => let '(w, p) := allocate w (ObjIterator (mkLsmIterator (Some it))) in Some (w, Some p, (c_success w).2)
   end).
Proof.
  intros Hp Hh Hid Hs. unfold lsm_reader_new_iterator. rewrite Hp, Hh. cbn [mbind option_bind]. rewrite Hid. cbn [is_null orb andb mbind option_bind]. by rewrite Hs.
Qed.

Lemma release_db_defined w joined id : is_Some (w_dbs w !! id) -> is_Some (release_db joined (Some id) w).
Proof. intros [x Hx]. unfold release_db. destruct (owned w id); [by eexists|]. unfold destroy_db. rewrite Hx. cbn [mbind option_bind]. destruct (lock_reset _ _). by eexists. Qed.

Lemma db_calls_defined w hs p h : api_inv w hs -> deref_db w p = Some h ->
  (forall joined, is_Some (lsm_db_close joined p w)) /\
  (forall thread alloc cell, is_Some (lsm_reader_open thread alloc p cell w)) /\
  forall thread env batch b sync, deref_batch w batch = Some b -> is_Some (lsm_db_write strerror thread env p batch sync w).
Proof.
  intros Hi Hh. pose proof Hi as [Hwf Hhold]. pose proof Hh as Hheap. apply deref_db_heap in Hheap. destruct (wf_objects _ Hwf _ _ Hheap) as (id & Hid & [[d bg] Hd]).
  assert (exists s, db_state w id = Some s) as [s Hs] by (unfold db_state; rewrite Hd; by eexists). pose proof (handle_address w p Hwf (ex_intro _ _ Hheap)) as Hp. split_and!.
  - intros joined. unfold lsm_db_close. rewrite Hp, Hh. cbn [mbind option_bind]. rewrite Hid. apply release_db_defined. cbn [free set_heap w_dbs]. rewrite Hd. by eexists.
  - intros thread alloc cell. unfold lsm_reader_open. destruct cell; [|by eexists]. rewrite Hp. destruct alloc as [[]|]; [by eexists..|]. rewrite Hh. cbn [mbind option_bind]. rewrite Hid. cbn [mbind option_bind].
    rewrite Hs. by eexists.
  - intros thread env batch b sync Hb. pose proof Hb as Hbh. apply deref_batch_heap in Hbh. unfold lsm_db_write. rewrite Hp, (handle_address w batch Hwf (ex_intro _ _ Hbh)). cbn [orb].
    rewrite Hh, Hb. cbn [mbind option_bind]. rewrite Hid. cbn [mbind option_bind]. rewrite Hs. cbn [mbind option_bind]. destruct (Hhold _ _ Hs) as (hist & _ & g & k & Hg & _). destruct s as [db fs bg']. cbn [st_db st_fs st_bg].
    destruct (write_spec strerror env (if negb (sync =? 0) then kSync else kAsync) (lb_batch b) db fs bg' g k Hg (wf_objects _ Hwf _ _ Hbh)) as (db' & fs' & r & _ & _ & -> & _). cbn [mbind option_bind].
    destruct r as [result|]; [|by eexists]. destruct (c_status _ _ _). by eexists.
Qed.

Lemma reader_calls_defined w hs p h : api_inv w hs -> deref_reader w p = Some h ->
  (forall joined, is_Some (lsm_reader_close joined p w)) /\
  (forall thread throws malloc_ok reads key value value_size found, len key + 8 <= kUint32Max ->
     is_Some (lsm_reader_get thread throws malloc_ok reads p (Some key) (len key) value value_size found w)) /\
  forall thread alloc reads cell, is_Some (lsm_reader_new_iterator thread alloc reads p cell w).
Proof.
  intros Hi Hh. pose proof Hi as [Hwf Hhold]. pose proof (reader_address w p h Hwf Hh) as Hp. destruct (reader_reads w hs p h Hi Hh) as (id & s & hist & sn & g & k & Hid & Hsn & Hs & _ & Hg & _ & Hat).
  pose proof (iv_reads _ _ _ Hg) as Hri. split_and!.
  - intros joined. unfold lsm_reader_close. rewrite Hp, Hh. cbn [mbind option_bind]. rewrite Hsn, Hid. cbn [release_snapshot]. specialize (Hat false). rewrite Hsn in Hat. destruct Hat as (_ & Hin & _).
    pose proof Hh as Hheap. apply deref_reader_heap in Hheap. destruct (wf_objects _ Hwf _ _ Hheap) as (sn' & Hid' & Hsn' & _). assert (sn' = sn) as -> by congruence. assert (ss_tracker sn = id) as -> by congruence.
    change (db_state (free w p) id) with (db_state w id). rewrite Hs. cbn [mbind option_bind]. destruct (tracks_removable _ _ _ (ri_tracks _ _ Hri) Hin) as [c Hc]. unfold releaseSnapshot. rewrite Hc.
    cbn [mbind option_bind]. apply release_db_defined. cbn [set_state set_folder set_dbs w_dbs]. rewrite lookup_insert_eq. by eexists.
  - intros thread throws malloc_ok reads key value value_size found Hk. unfold lsm_reader_get. rewrite Hp, Hh. cbn [mbind option_bind]. destruct (_ || _); [by eexists|].
    destruct throws as [[]|]; [by eexists..|]. rewrite Hid. cbn [mbind option_bind]. rewrite Hs. cbn [mbind option_bind]. rewrite slice_whole. cbn [mbind option_bind].
    destruct (get_spec reads _ key _ g _ Hri (Hat false) Hk) as (r & -> & _). cbn [mbind option_bind]. destruct r as [v|e]; [destruct (copySlice _ _ _ _ _ _) as [[[? ?] ?] ?]; by eexists|].
    destruct (isNotFound e); [by eexists|]. destruct (c_status _ _ _). by eexists.
  - intros thread alloc reads cell. unfold lsm_reader_new_iterator. rewrite Hp, Hh. cbn [mbind option_bind]. destruct (_ || _); [by eexists|]. destruct alloc as [[]|]; [by eexists..|].
    rewrite Hid. cbn [mbind option_bind]. rewrite Hs. cbn [mbind option_bind]. destruct (newIterator_spec reads _ _ g _ Hri (Hat false)) as (d & ? & -> & _). by eexists.
Qed.

(** What a lookup answers through the pointers of the interface. *)
Definition c_answers (h : history) (key : bytes) (benign : Prop) (w : World) (value value_size found : option Z) (st : lsm_status) : Prop :=
  (st_code st = 0 /\ match history_get h key (len h) with
                     | Some v => found = Some 1 /\ exists p, value = Some p /\ value_size = Some (len v) /\ c_bytes w p (len v) = Some v
                     | None => found = Some 0 /\ value = Some 0 /\ value_size = Some 0
                     end) \/
  (st_code st <> 0 /\ ~ benign).

(** What the lookup's result becomes. *)
Lemma get_answers w thread key hist benign r : 0 < w_next w ->
  match r with
  | Ok value => history_get hist key (len hist) = Some value
  | Err st => (st = notFound "key does not exist" /\ history_get hist key (len hist) = None) \/ (ok st = false /\ isNotFound st = false /\ ~ benign)
  end ->
  exists w' value value_size found st,
    match r with
    | Err get_result =>
        if isNotFound get_result then Some (w, Some 0, Some 0, Some 0, (c_success w).2)
        else let '(w, st) := c_status thread get_result w in Some (w, Some 0, Some 0, Some 0, st)
    | Ok result_value =>
        let '(w, value, value_size, st) := copySlice thread true result_value (Some 0) (Some 0) w in
        Some (w, value, value_size, Some 1, st)
    end = Some (w', value, value_size, found, st) /\ c_answers hist key benign w' value value_size found st.
Proof.
  intros Hn Hr. unfold c_answers. destruct r as [v|e].
  - destruct (copySlice_ok thread v w Hn) as (w' & p & -> & _ & Hb & _). do 5 eexists. split; [done|]. left. split; [done|]. rewrite Hr. split; [done|]. by exists p.
  - destruct Hr as [[-> Hr]|(Hbad & Hnf & Hnb)]; [do 5 eexists; split; [done|]; left; by rewrite Hr|]. rewrite Hnf. pose proof (c_status_code thread e w) as Hc.
    destruct (c_status thread e w) as [w' st]. do 5 eexists. split; [done|]. right. split; [|done]. simpl in Hc. rewrite Hbad in Hc. by apply Z.eqb_neq.
Qed.

(** ** What a client can rely on *)

(** C6. Every session of the interface keeps the process well-formed.  Whatever calls
    the threads make, in any order and with any answer of the system, as long as
    each pointer they pass is one the interface gave out and is still open: every
    database handle and every reader refers to a live database and a reader to a
    snapshot of it; a database lives exactly as long as a handle or a reader owns
    it and holds the lock of its directory, which no other database is in; and
    the databases hold the batches whose writes succeeded, in order, with the
    snapshots of the open readers. *)
Theorem session_well_formed folders es w : api_run (process folders) es w -> well_formed w /\ histories_hold w (recorded ∅ es).
Proof. intros Hr. exact (api_run_inv _ _ _ Hr _ (process_inv folders)). Qed.


(** C7. A reader is isolated from everything that happens after it was opened.  In any
    session that opens a reader, goes on with any calls, writes to the same
    database, flushes, compactions and the closing of the database handle
    included, and still has the reader open: a lookup through it answers with the
    bytes the key had in the database when the reader was opened, in memory the
    caller frees, or says that there were none; it fails only if a read of a
    table failed. *)
Theorem reader_get_isolated folders es w thread alloc db cell w1 p st es' w2 h :
  api_run (process folders) es w -> lsm_reader_open thread alloc db (Some cell) w = Some (w1, Some p, st) -> st_code st = 0 -> w_next w <= kUint64Max ->
  api_run w1 es' w2 -> deref_reader w2 p = Some h ->
  exists id hist, deref_db w db = Some (mkLsmDb (Some id)) /\ recorded ∅ es !! id = Some hist /\
    forall thread' reads key, len key + 8 <= kUint32Max -> exists w3 value value_size found st',
      lsm_reader_get thread' None true reads p (Some key) (len key) (Some 0) (Some 0) (Some 0) w2 = Some (w3, value, value_size, found, st') /\
      c_answers hist key (benign_reads reads) w3 value value_size found st'.
Proof.
  intros Hr Ho Hst Hn Hr' Hp. destruct (reader_later _ _ _ _ _ _ _ _ _ _ _ _ _ Hr Ho Hst Hn Hr' Hp) as (id & hist & Hd & Hh & s & g & k & Hid & Hs & Hg & Hsame & Hat).
  exists id, hist. split_and!; [done|done|]. intros thread' reads key Hk. destruct (get_spec reads _ key _ g _ (iv_reads _ _ _ Hg) (Hat false) Hk) as (r & Hget & Hres). rewrite Hsame in Hres.
  pose proof (api_run_inv _ _ _ Hr' _ (reader_open_inv _ _ _ _ _ _ _ _ _ (api_run_inv _ _ _ Hr _ (process_inv folders)) Ho Hn)) as [Hwf _].
  rewrite (reader_get_runs w2 p h id s key) by (done || by apply (reader_address w2 p h)). rewrite Hget. cbn [mbind option_bind].
  by apply get_answers; [apply (wf_next _ Hwf)|].
Qed.

(** C8. Scanning through a reader is isolated in the same way: the loop a client runs
    over an iterator, copying each key and value out and freeing the copies,
    delivers exactly the pairs that were visible from the given key on when the
    reader was opened, in key order, each once; or it stops early with an error
    in the status, which only a failing read can cause. *)
Theorem reader_scan_isolated folders es w thread alloc db cell w1 p st es' w2 h :
  api_run (process folders) es w -> lsm_reader_open thread alloc db (Some cell) w = Some (w1, Some p, st) -> st_code st = 0 -> w_next w <= kUint64Max ->
  api_run w1 es' w2 -> deref_reader w2 p = Some h ->
  exists id hist, deref_db w db = Some (mkLsmDb (Some id)) /\ recorded ∅ es !! id = Some hist /\
    forall thread' reads key, len key + 8 <= kUint32Max -> exists w3 it bound,
      lsm_reader_new_iterator thread' None reads p (Some 0) w2 = Some (w3, Some it, mkLsmStatus 0 None) /\
      forall fuel, (bound < fuel)%nat -> exists w4 w5 kvs got st',
        lsm_iterator_seek fuel it (Some key) (len key) w3 = Some w4 /\ c_scan fuel thread' it w4 = Some (w5, got, st') /\
        ((st_code st' = 0 /\ got = kvs) \/ (st_code st' <> 0 /\ got `prefix_of` kvs /\ ~ benign_reads reads)) /\
        keys_increase kvs /\ (forall k v, (k, v) ∈ kvs <-> bytes_ltb k key = false /\ history_get hist k (len hist) = Some v).
Proof.
  intros Hr Ho Hst Hn Hr' Hp. destruct (reader_later _ _ _ _ _ _ _ _ _ _ _ _ _ Hr Ho Hst Hn Hr' Hp) as (id & hist & Hd & Hh & s & g & k & Hid & Hs & Hg & Hsame & Hat).
  exists id, hist. split_and!; [done|done|]. intros thread' reads key Hk. destruct (iterator_scan reads _ _ g _ key (iv_reads _ _ _ Hg) (Hat false) Hk) as (d & bound & Hnew & Hscan).
  pose proof (api_run_inv _ _ _ Hr' _ (reader_open_inv _ _ _ _ _ _ _ _ _ (api_run_inv _ _ _ Hr _ (process_inv folders)) Ho Hn)) as [Hwf _]. pose proof (wf_next _ Hwf) as Hnext.
  rewrite (reader_iterator_runs w2 p h id s) by (done || by apply (reader_address w2 p h)). rewrite Hnew. cbn [mbind option_bind].
  eexists _, _, bound. split; [done|]. intros fuel Hf. destruct (Hscan fuel Hf) as (d1 & d2 & res1 & res2 & all & from & _ & _ & _ & Hseek & Hdrain & Hdel & _ & _ & Hinc & Hin).
  destruct res2 as [got st2]. unfold lsm_iterator_seek. rewrite (iterator_here _ _ d) by (simpl; (lia || by rewrite lookup_insert_eq)). cbn [mbind option_bind].
  rewrite slice_whole. cbn [mbind option_bind]. rewrite Hseek. cbn [mbind option_bind]. set (w4 := store _ _ _).
  destruct (c_scan_drain fuel thread' (w_next w2) w4 d2 got st2) as (w5 & cst & Hc & Hcode); [simpl; lia|by simpl; rewrite lookup_insert_eq|done|].
  exists w4, w5, from, got, cst. split_and!; [done|done| |done|intros k0 v0; by rewrite Hin, Hsame].
  destruct Hdel as [[= -> ->]|(Hpre & Hbad & Hnb)]; [left; split; [by apply Z.eqb_eq|done]|right]. simpl in *. split_and!; [|done|done]. apply Z.eqb_neq. by rewrite Hcode.
Qed.
End sessions.

(** ** A concrete session *)

Definition no_strerror : Z -> string := fun _ => "".

(** A database is opened in a new directory and a reader on it; then a batch is
    written, and the database handle closed while the reader stays. *)
Definition sample_opening : option (World * option Z * lsm_status) :=
  @lsm_db_open bump_allocator no_strerror 0 None (quiet_open []) (Some "d") (Some 0) (process ∅).

Definition sample_session : option (World * lsm_status * World * option Z * lsm_status * World * World * option lsm_status * World * World) :=
  '(w, _, st) ← sample_opening;
  '(w1, p, st1) ← lsm_reader_open 0 None 1 (Some 0) w;
  let '(w2, _, _) := lsm_batch_new 0 None (Some 0) w1 in
  '(w3, _) ← lsm_batch_put 0 None 3 (Some [x61]) 1 (Some [x01]) 1 w2;
  '(w4, r) ← @lsm_db_write bump_allocator no_strerror 0 (mkWriteEnv None [WriteCount 5] [EINTR]) 1 3 1 w3;
  s ← db_state w4 0;
  w5 ← lsm_db_close s 1 w4;
  Some (w, st, w1, p, st1, w2, w3, r, w4, w5).

Definition sample_fine : bool :=
  match sample_session with
  | Some (w, st, w1, p, st1, w2, w3, r, w4, w5) =>
      (st_code st =? 0) && (st_code st1 =? 0) && bool_decide (p = Some 2) && (w_next w =? 2) && bool_decide (st_code <$> r = Some 0) &&
      bool_decide (ld_db <$> deref_db w3 1 = Some (Some 0%nat)) && bool_decide (is_Some (deref_batch w3 3)) &&
      bool_decide (ld_db <$> deref_db w4 1 = Some (Some 0%nat)) && owned (free w4 1) 0 && bool_decide (is_Some (deref_reader w5 2))
  | None => false
  end.

Lemma quiet_lock entries fd : le_open (do_lock (quiet_open entries)) = inr fd -> 0 <= fd.
Proof. cbn. intros E. injection E as <-. lia. Qed.

(** The session runs: what was opened holds nothing yet. *)
Lemma sample_represents w db' st s : sample_opening = Some (w, db', st) -> db_state w 0 = Some s -> represents s [] [].
Proof.
  unfold sample_opening, lsm_db_open. intros Ho Hs. apply bind_Some in Ho as ([[[kind lock] files] [opened|result]] & Hop & Ho).
  - cbn [allocate] in Ho. injection Ho as <- _ _. unfold db_state in Hs. cbn [w_dbs set_folder w_fresh process] in Hs. rewrite lookup_insert_eq in Hs. cbn [mbind option_bind] in Hs. injection Hs as <-.
    pose proof (@open_exclusive bump_allocator no_strerror _ _ _ _ _ _ _ _ _ _ _ (quiet_lock []) Hop) as [_ Hd]. destruct (Hd opened eq_refl) as (Ed & _).
    apply created_empty in Hop; [|by vm_compute]. destruct (@created_inv bump_allocator bump_allocator_laws _ _ _ _ Hop) as (_ & k & _ & Hi). rewrite Ed.
    unfold folder. cbn [w_folders set_folder]. rewrite lookup_insert_eq. cbn [from_option f_files]. by eexists _, k.
  - destruct (c_status _ _ _) as [w1 st1] eqn:E. injection Ho as <- _ _. unfold c_status, c_success, c_fail in E. destruct (ok result); injection E as <- _; unfold db_state in Hs; cbn [set_error set_folder w_dbs process] in Hs;
      rewrite lookup_empty in Hs; discriminate Hs.
Qed.

Lemma sample_open_step w db' st : sample_opening = Some (w, db', st) -> st_code st = 0 -> @api_step bump_allocator no_strerror (process ∅) (Opened 0 []) w.
Proof.
  intros Ho E. pose proof (fun s (_ : w_fresh w = 1%nat) Hs => sample_represents w db' st s Ho Hs) as Hr. unfold sample_opening in Ho.
  pose proof (api_db_open no_strerror 0 None (quiet_open []) (Some "d") (Some 0) (process ∅) w db' st [] Ho (quiet_lock []) Hr) as Hstep. rewrite E in Hstep. exact Hstep.
Qed.
#[local] Opaque sample_opening.

Lemma sample_runs : exists w w1 st w2 h batch, @api_run bump_allocator no_strerror (process ∅) [Opened 0 []] w /\
  lsm_reader_open 0 None 1 (Some 0) w = Some (w1, Some 2, st) /\ st_code st = 0 /\ w_next w = 2 /\
  @api_run bump_allocator no_strerror w1 [Silent; Silent; Committed 0 batch; Silent] w2 /\ deref_reader w2 2 = Some h.
Proof.
  assert (sample_fine = true) as Hf by (vm_compute; reflexivity). unfold sample_fine, sample_session in Hf. destruct sample_opening as [[[w db'] st]|] eqn:Ho; [|discriminate Hf]. cbn [mbind option_bind] in Hf.
  destruct (lsm_reader_open 0 None 1 (Some 0) w) as [[[w1 p] st1]|] eqn:Hr; [|discriminate Hf]. cbn [mbind option_bind] in Hf.
  destruct (lsm_batch_new 0 None (Some 0) w1) as [[w2 b] st2] eqn:Hb.
  destruct (lsm_batch_put _ _ _ _ _ _ _ _) as [[w3 st3]|] eqn:Hp; [|discriminate Hf]. cbn [mbind option_bind] in Hf.
  destruct (lsm_db_write _ _ _ _ _ _ _) as [[w4 r]|] eqn:Hw; [|discriminate Hf]. cbn [mbind option_bind] in Hf.
  destruct (db_state w4 0) as [s|] eqn:Hs; [|discriminate Hf]. cbn [mbind option_bind] in Hf.
  destruct (lsm_db_close s 1 w4) as [w5|] eqn:Hc; [|discriminate Hf]. cbn [mbind option_bind] in Hf.
  rewrite !andb_true_iff, !bool_decide_eq_true, !Z.eqb_eq in Hf. destruct Hf as [[[[[[[[[E1 E2] ->] E3] E4] E5] [batch E6]] E7] E8] [h Hh]].
  destruct r as [st4|]; [|discriminate E4]. injection E4 as E4.
  exists w, w1, st1, w5, h, (lb_batch batch). split_and!; [| |exact E2|exact E3| |exact Hh].
  - eapply api_run_cons; [exact (sample_open_step _ _ _ Ho E1)|constructor].
  - exact Hr.
  - eapply api_run_cons; [eapply api_batch_new; exact Hb|]. eapply api_run_cons; [eapply api_batch_put; exact Hp|]. eapply api_run_cons.
    { pose proof (api_db_write no_strerror _ _ _ _ _ _ _ _ Hw) as Hstep. unfold committed_by in Hstep. rewrite E6 in Hstep. destruct (deref_db w3 1) as [d|]; [|discriminate E5]. injection E5 as E5. rewrite E5, E4 in Hstep. exact Hstep. }
    eapply api_run_cons; [|constructor]. eapply api_db_close; [exact Hc|]. intros d Hd id s' Hid Howned. exfalso. destruct (deref_db w4 1) as [d'|]; [|discriminate Hd]. injection Hd as ->. injection E7 as E7.
    rewrite E7 in Hid. injection Hid as <-. rewrite E8 in Howned. discriminate Howned.
Qed.

Lemma sample_whole : exists w h, @api_run bump_allocator no_strerror (process ∅) [Opened 0 []; Silent] w /\ deref_reader w 2 = Some h.
Proof.
  destruct sample_runs as (w & w1 & st & w2 & h & batch & Hr & Ho & Hst & Hn & _ & _). assert (w_next w <= kUint64Max) as Hle by (rewrite Hn; vm_compute; congruence).
  destruct (reader_opened w _ 0 None 1 0 w1 2 st (@api_run_inv bump_allocator bump_allocator_laws _ _ _ _ Hr _ (process_inv _)) Ho Hst) as (id & hist & sn & _ & _ & _ & _ & Hheap & _). exists w1. eexists. split.
  - inversion Hr; subst. match goal with Hx : api_run _ _ [] _ |- _ => inversion Hx; subst end. eapply api_run_cons; [eassumption|]. eapply api_run_cons; [|constructor]. eapply api_reader_open; [exact Ho|exact Hle].
  - unfold deref_reader. rewrite Hheap. reflexivity.
Qed.

Lemma session_well_formed_witness : exists w h, deref_reader w 2 = Some h /\ well_formed w.
Proof.
  destruct sample_whole as (w & h & Hr & Hh). exists w, h. split; [exact Hh|]. exact (proj1 (@session_well_formed bump_allocator bump_allocator_laws no_strerror ∅ _ w Hr)).
Defined.


(** The reader was opened on an empty database and does not see the batch. *)
Lemma reader_get_isolated_witness : exists w2, forall reads, exists w3 value value_size found st,
  lsm_reader_get 0 None true reads 2 (Some [x61]) 1 (Some 0) (Some 0) (Some 0) w2 = Some (w3, value, value_size, found, st) /\
  ((st_code st = 0 /\ found = Some 0 /\ value = Some 0 /\ value_size = Some 0) \/ (st_code st <> 0 /\ ~ benign_reads reads)).
Proof.
  destruct sample_runs as (w & w1 & st & w2 & h & batch & Hr & Ho & Hst & Hn & Hr2 & Hh). assert (w_next w <= kUint64Max) as Hle by (rewrite Hn; vm_compute; congruence). exists w2. intros reads.
  destruct (@reader_get_isolated bump_allocator bump_allocator_laws no_strerror ∅ _ w 0 None 1 0 w1 2 st _ w2 h Hr Ho Hst Hle Hr2 Hh) as (id & hist & _ & Hhist & Hget).
  assert (hist = []) as ->. { cbn in Hhist. destruct (decide (id = 0%nat)) as [->|Hne]; [rewrite lookup_insert_eq in Hhist; congruence|rewrite lookup_insert_ne, lookup_empty in Hhist by congruence; discriminate Hhist]. }
  destruct (Hget 0%nat reads [x61]) as (w3 & value & value_size & found & st' & Hg & Ha); [vm_compute; congruence|]. exists w3, value, value_size, found, st'. split; [exact Hg|]. exact Ha.
Defined.

Lemma reader_scan_isolated_witness : exists w2, forall reads, exists w3 it bound, lsm_reader_new_iterator 0 None reads 2 (Some 0) w2 = Some (w3, Some it, mkLsmStatus 0 None) /\
  forall fuel, (bound < fuel)%nat -> exists w4 w5 st, lsm_iterator_seek fuel it (Some [x61]) 1 w3 = Some w4 /\ c_scan fuel 0 it w4 = Some (w5, [], st).
Proof.
  destruct sample_runs as (w & w1 & st & w2 & h & batch & Hr & Ho & Hst & Hn & Hr2 & Hh). assert (w_next w <= kUint64Max) as Hle by (rewrite Hn; vm_compute; congruence). exists w2. intros reads.
  destruct (@reader_scan_isolated bump_allocator bump_allocator_laws no_strerror ∅ _ w 0 None 1 0 w1 2 st _ w2 h Hr Ho Hst Hle Hr2 Hh) as (id & hist & _ & Hhist & Hscan).
  assert (hist = []) as ->. { cbn in Hhist. destruct (decide (id = 0%nat)) as [->|Hne]; [rewrite lookup_insert_eq in Hhist; congruence|rewrite lookup_insert_ne, lookup_empty in Hhist by congruence; discriminate Hhist]. }
  destruct (Hscan 0%nat reads [x61]) as (w3 & it & bound & Hnew & Hs); [vm_compute; congruence|]. exists w3, it, bound. split; [exact Hnew|]. intros fuel Hf.
  destruct (Hs fuel Hf) as (w4 & w5 & kvs & got & st' & Hseek & Hc & Hd & _ & Hin). exists w4, w5, st'. split; [exact Hseek|].
  assert (kvs = []) as ->. { destruct kvs as [|[k v] kvs]; [reflexivity|]. destruct (proj1 (Hin k v) ltac:(left)) as [_ Hg]. discriminate Hg. }
  destruct Hd as [[_ ->]|(_ & Hpre & _)]; [exact Hc|]. apply prefix_nil_inv in Hpre. rewrite Hpre in Hc. exact Hc.
Defined.
