(* ===== verification/RaftLog.v ===== *)
(** The Raft log (raft/log.go): a slice of entries whose first element stands for
    the snapshot the log starts after.  A slice expression or an index outside
    the slice panics; the model then has no result. *)
From S2P Require Import Prelude.

(** [raftpb.Entry]. *)
Record Entry := mkEntry { e_term : Z; e_index : Z; e_data : bytes }.

(** [entries[i]] is the entry with index [offset+i]; [entries[0]] is a sentinel. *)
Record RaftLog := mkRaftLog { rl_entries : list Entry; rl_offset : Z }.

Definition NewRaftLog : RaftLog := mkRaftLog [mkEntry 0 0 []] 0.

Definition FirstIndex (l : RaftLog) : Z := rl_offset l.
Definition LastIndex (l : RaftLog) : Z := wrap64 (rl_offset l + len (rl_entries l) - 1).
Definition LastTerm (l : RaftLog) : Z := match rl_entries l !! (length (rl_entries l) - 1)%nat with Some e => e_term e | None => 0 end.

(** An index expression on the slice. *)
Definition log_at (l : RaftLog) (i : Z) : option Entry := rl_entries l !! Z.to_nat (wrap64 (i - rl_offset l)).

Definition log_term (l : RaftLog) (i : Z) : option Z :=
  if (i <? rl_offset l) || (LastIndex l <? i) then Some 0 else e ← log_at l i; Some (e_term e).

Definition log_entry (l : RaftLog) (i : Z) : option Entry := log_at l i.

(** A slice expression [lo:hi] within the length. *)
Definition slice_of (es : list Entry) (lo hi : Z) : option (list Entry) :=
  _ ← assert_that ((lo <=? hi) && (hi <=? len es)); Some (take (Z.to_nat (hi - lo)) (drop (Z.to_nat lo) es)).

Definition log_slice (l : RaftLog) (lo hi : Z) : option (list Entry) :=
  let lo := if lo <? rl_offset l then rl_offset l else lo in
  let hi := if wrap64 (LastIndex l + 1) <? hi then wrap64 (LastIndex l + 1) else hi in
  if hi <=? lo then Some [] else slice_of (rl_entries l) (wrap64 (lo - rl_offset l)) (wrap64 (hi - rl_offset l)).

Definition log_append (l : RaftLog) (es : list Entry) : RaftLog := mkRaftLog (rl_entries l ++ es) (rl_offset l).

Definition TruncateAndAppend (l : RaftLog) (prevIndex : Z) (es : list Entry) : option RaftLog :=
  let pos := wrap64 (prevIndex - rl_offset l + 1) in
  kept ← slice_of (rl_entries l) 0 pos;
  Some (mkRaftLog (kept ++ es) (rl_offset l)).

Definition Truncate (l : RaftLog) (index : Z) : option RaftLog :=
  if index <? rl_offset l then Some l
  else
    let cut := wrap64 (index - rl_offset l) in
    kept ← slice_of (rl_entries l) 0 cut;
    Some (mkRaftLog kept (rl_offset l)).

Definition MatchTerm (l : RaftLog) (index term : Z) : option bool :=
  if (index <? rl_offset l) || (LastIndex l <? index) then Some false
  else t ← log_term l index; Some (t =? term).

(** The loop runs from [i] down to the first index. *)
Fixpoint find_last (fuel : nat) (l : RaftLog) (term i : Z) : option (option Z) :=
  match fuel with
  | O => None
  | S fuel =>
      if FirstIndex l <=? i then
        t ← log_term l i;
        if t =? term then Some (Some i)
        else if i =? FirstIndex l then Some None
        else find_last fuel l term (wrap64 (i - 1))
      else Some None
  end.
Definition FindLastIndexOfTerm (l : RaftLog) (term : Z) : option (option Z) := find_last (S (length (rl_entries l))) l term (LastIndex l).

Definition CompactTo (l : RaftLog) (index term : Z) : option RaftLog :=
  if index <=? rl_offset l then Some l
  else
    let last := LastIndex l in
    let index := if last <? index then last else index in
    rest ← if index <? last then log_slice l (wrap64 (index + 1)) (wrap64 (last + 1)) else Some [];
    Some (mkRaftLog (mkEntry term index [] :: rest) index).

Definition log_restore (snapIndex snapTerm : Z) : RaftLog := mkRaftLog [mkEntry snapTerm snapIndex []] snapIndex.
