(* ===== verification/Raft.v ===== *)
(** The Raft node (raft/raft.go, raft/read_index.go, raft/types.go, raft/util.go):
    its state and every method.  A method runs to its end before the next one
    starts.  [None] is a panic: a nil progress or an index outside a slice. *)
From S2P Require Import Prelude RaftLog.

(** ** Data *)

Inductive StateType := StateFollower | StateCandidate | StateLeader.

Record HardState := mkHardState { Term : Z; Vote : Z; CommitIndex : Z }.
Record Progress := mkProgress { Match : Z; Next : Z }.

(** [raftpb.Snapshot], [raftpb.Type] and [raftpb.Message]; a node leaves the
    fields it does not set at zero. *)
Record Snapshot := mkSnapshot { s_data : bytes; s_index : Z; s_term : Z }.
Inductive Type_ := MsgHup | MsgBeat | MsgApp | MsgAppResp | MsgVote | MsgVoteResp | MsgSnap | MsgSnapResp.
Record Message := mkMessage {
  m_type : Type_;
  m_from : Z;
  m_to : Z;
  m_term : Z;
  m_logTerm : Z;
  m_logIndex : Z;
  m_commit : Z;
  m_entries : list Entry;
  m_reject : bool;
  m_readId : Z;
  m_snapshot : option Snapshot;
}.

Record readRound := mkReadRound { rr_index : Z; rr_started : bool; rr_acks : gset Z }.
Record ReadState := mkReadState { rs_readID : Z; rs_index : Z }.

Record Raft := mkRaft {
  id : Z;
  state : StateType;
  lead : Z;
  hardState : HardState;
  raftLog : RaftLog;
  prs : gmap Z Progress;
  votes : gmap Z bool;
  msgs : list Message;
  electionElapsed : Z;
  heartbeatElapsed : Z;
  electionTimeout : Z;
  heartbeatTimeout : Z;
  currentSnapshot : option Snapshot;
  pendingHardState : option HardState;
  pendingEntries : list Entry;
  pendingSnapshot : option Snapshot;
  committedEntries : list Entry;
  readStates : list ReadState;
  readRounds : gmap Z readRound;
  committedCursor : Z;
}.

Definition set_state (r : Raft) (x : StateType) : Raft :=
  mkRaft (id r) x (lead r) (hardState r) (raftLog r) (prs r) (votes r) (msgs r) (electionElapsed r) (heartbeatElapsed r) (electionTimeout r) (heartbeatTimeout r) (currentSnapshot r) (pendingHardState r) (pendingEntries r) (pendingSnapshot r) (committedEntries r) (readStates r) (readRounds r) (committedCursor r).
Definition set_lead (r : Raft) (x : Z) : Raft :=
  mkRaft (id r) (state r) x (hardState r) (raftLog r) (prs r) (votes r) (msgs r) (electionElapsed r) (heartbeatElapsed r) (electionTimeout r) (heartbeatTimeout r) (currentSnapshot r) (pendingHardState r) (pendingEntries r) (pendingSnapshot r) (committedEntries r) (readStates r) (readRounds r) (committedCursor r).
Definition set_hardState (r : Raft) (x : HardState) : Raft :=
  mkRaft (id r) (state r) (lead r) x (raftLog r) (prs r) (votes r) (msgs r) (electionElapsed r) (heartbeatElapsed r) (electionTimeout r) (heartbeatTimeout r) (currentSnapshot r) (pendingHardState r) (pendingEntries r) (pendingSnapshot r) (committedEntries r) (readStates r) (readRounds r) (committedCursor r).
Definition set_raftLog (r : Raft) (x : RaftLog) : Raft :=
  mkRaft (id r) (state r) (lead r) (hardState r) x (prs r) (votes r) (msgs r) (electionElapsed r) (heartbeatElapsed r) (electionTimeout r) (heartbeatTimeout r) (currentSnapshot r) (pendingHardState r) (pendingEntries r) (pendingSnapshot r) (committedEntries r) (readStates r) (readRounds r) (committedCursor r).
Definition set_prs (r : Raft) (x : gmap Z Progress) : Raft :=
  mkRaft (id r) (state r) (lead r) (hardState r) (raftLog r) x (votes r) (msgs r) (electionElapsed r) (heartbeatElapsed r) (electionTimeout r) (heartbeatTimeout r) (currentSnapshot r) (pendingHardState r) (pendingEntries r) (pendingSnapshot r) (committedEntries r) (readStates r) (readRounds r) (committedCursor r).
Definition set_votes (r : Raft) (x : gmap Z bool) : Raft :=
  mkRaft (id r) (state r) (lead r) (hardState r) (raftLog r) (prs r) x (msgs r) (electionElapsed r) (heartbeatElapsed r) (electionTimeout r) (heartbeatTimeout r) (currentSnapshot r) (pendingHardState r) (pendingEntries r) (pendingSnapshot r) (committedEntries r) (readStates r) (readRounds r) (committedCursor r).
Definition set_msgs (r : Raft) (x : list Message) : Raft :=
  mkRaft (id r) (state r) (lead r) (hardState r) (raftLog r) (prs r) (votes r) x (electionElapsed r) (heartbeatElapsed r) (electionTimeout r) (heartbeatTimeout r) (currentSnapshot r) (pendingHardState r) (pendingEntries r) (pendingSnapshot r) (committedEntries r) (readStates r) (readRounds r) (committedCursor r).
Definition set_electionElapsed (r : Raft) (x : Z) : Raft :=
  mkRaft (id r) (state r) (lead r) (hardState r) (raftLog r) (prs r) (votes r) (msgs r) x (heartbeatElapsed r) (electionTimeout r) (heartbeatTimeout r) (currentSnapshot r) (pendingHardState r) (pendingEntries r) (pendingSnapshot r) (committedEntries r) (readStates r) (readRounds r) (committedCursor r).
Definition set_heartbeatElapsed (r : Raft) (x : Z) : Raft :=
  mkRaft (id r) (state r) (lead r) (hardState r) (raftLog r) (prs r) (votes r) (msgs r) (electionElapsed r) x (electionTimeout r) (heartbeatTimeout r) (currentSnapshot r) (pendingHardState r) (pendingEntries r) (pendingSnapshot r) (committedEntries r) (readStates r) (readRounds r) (committedCursor r).
Definition set_currentSnapshot (r : Raft) (x : option Snapshot) : Raft :=
  mkRaft (id r) (state r) (lead r) (hardState r) (raftLog r) (prs r) (votes r) (msgs r) (electionElapsed r) (heartbeatElapsed r) (electionTimeout r) (heartbeatTimeout r) x (pendingHardState r) (pendingEntries r) (pendingSnapshot r) (committedEntries r) (readStates r) (readRounds r) (committedCursor r).
Definition set_pendingHardState (r : Raft) (x : option HardState) : Raft :=
  mkRaft (id r) (state r) (lead r) (hardState r) (raftLog r) (prs r) (votes r) (msgs r) (electionElapsed r) (heartbeatElapsed r) (electionTimeout r) (heartbeatTimeout r) (currentSnapshot r) x (pendingEntries r) (pendingSnapshot r) (committedEntries r) (readStates r) (readRounds r) (committedCursor r).
Definition set_pendingEntries (r : Raft) (x : list Entry) : Raft :=
  mkRaft (id r) (state r) (lead r) (hardState r) (raftLog r) (prs r) (votes r) (msgs r) (electionElapsed r) (heartbeatElapsed r) (electionTimeout r) (heartbeatTimeout r) (currentSnapshot r) (pendingHardState r) x (pendingSnapshot r) (committedEntries r) (readStates r) (readRounds r) (committedCursor r).
Definition set_pendingSnapshot (r : Raft) (x : option Snapshot) : Raft :=
  mkRaft (id r) (state r) (lead r) (hardState r) (raftLog r) (prs r) (votes r) (msgs r) (electionElapsed r) (heartbeatElapsed r) (electionTimeout r) (heartbeatTimeout r) (currentSnapshot r) (pendingHardState r) (pendingEntries r) x (committedEntries r) (readStates r) (readRounds r) (committedCursor r).
Definition set_committedEntries (r : Raft) (x : list Entry) : Raft :=
  mkRaft (id r) (state r) (lead r) (hardState r) (raftLog r) (prs r) (votes r) (msgs r) (electionElapsed r) (heartbeatElapsed r) (electionTimeout r) (heartbeatTimeout r) (currentSnapshot r) (pendingHardState r) (pendingEntries r) (pendingSnapshot r) x (readStates r) (readRounds r) (committedCursor r).
Definition set_readStates (r : Raft) (x : list ReadState) : Raft :=
  mkRaft (id r) (state r) (lead r) (hardState r) (raftLog r) (prs r) (votes r) (msgs r) (electionElapsed r) (heartbeatElapsed r) (electionTimeout r) (heartbeatTimeout r) (currentSnapshot r) (pendingHardState r) (pendingEntries r) (pendingSnapshot r) (committedEntries r) x (readRounds r) (committedCursor r).
Definition set_readRounds (r : Raft) (x : gmap Z readRound) : Raft :=
  mkRaft (id r) (state r) (lead r) (hardState r) (raftLog r) (prs r) (votes r) (msgs r) (electionElapsed r) (heartbeatElapsed r) (electionTimeout r) (heartbeatTimeout r) (currentSnapshot r) (pendingHardState r) (pendingEntries r) (pendingSnapshot r) (committedEntries r) (readStates r) x (committedCursor r).
Definition set_committedCursor (r : Raft) (x : Z) : Raft :=
  mkRaft (id r) (state r) (lead r) (hardState r) (raftLog r) (prs r) (votes r) (msgs r) (electionElapsed r) (heartbeatElapsed r) (electionTimeout r) (heartbeatTimeout r) (currentSnapshot r) (pendingHardState r) (pendingEntries r) (pendingSnapshot r) (committedEntries r) (readStates r) (readRounds r) x.

Definition with_term (h : HardState) (t : Z) : HardState := mkHardState t (Vote h) (CommitIndex h).
Definition with_vote (h : HardState) (v : Z) : HardState := mkHardState (Term h) v (CommitIndex h).
Definition with_commit (h : HardState) (c : Z) : HardState := mkHardState (Term h) (Vote h) c.

Definition u64_min (a b : Z) : Z := if b <? a then b else a.
Definition u64_max (a b : Z) : Z := if b <? a then a else b.
Definition IsLocalMsg (t : Type_) : bool := match t with MsgHup | MsgBeat => true | _ => false end.

Record Config := mkConfig { ID : Z; Peers : list Z; ElectionTimeout : Z; HeartbeatTimeout : Z }.

Definition NewRaft (cfg : Config) : Raft :=
  let election := if ElectionTimeout cfg =? 0 then 15 else ElectionTimeout cfg in
  let heartbeat := if HeartbeatTimeout cfg =? 0 then 2 else HeartbeatTimeout cfg in
  let prs := foldl (fun prs peer => <[peer := mkProgress 0 1]> prs) ∅ (Peers cfg) in
  mkRaft (ID cfg) StateFollower 0 (mkHardState 0 0 0) NewRaftLog prs ∅ [] 0 0 election heartbeat None None [] None [] [] ∅ 0.

(** The order in which a loop visits the keys of a map is not specified. *)
Class RangeOrder := range : list Z -> list Z.
Class RangeOrderLaws `{RangeOrder} := range_keys l : range l ≡ₚ l.

Section raft.
Context `{RangeOrder}.

Definition keys {A} (m : gmap Z A) : list Z := range (map fst (map_to_list m)).

(** ** Small steps *)

Definition send (r : Raft) (m : Message) : Raft := set_msgs r (msgs r ++ [m]).
Definition markHardStateChanged (r : Raft) : Raft := set_pendingHardState r (Some (hardState r)).
Definition quorum (r : Raft) : nat := (size (prs r) / 2 + 1)%nat.

(** [r.prs[id].Match = ...], which panics when there is no such peer. *)
Definition set_progress (r : Raft) (id match_ next : Z) : option Raft :=
  _ ← prs r !! id; Some (set_prs r (<[id := mkProgress match_ next]> (prs r))).

(** ** Sending *)

Definition sendSnapshot (r : Raft) (to readID : Z) : Raft :=
  match currentSnapshot r with
  | None => r
  | Some s =>
      if s_index s =? 0 then r
      else send r (mkMessage MsgSnap (id r) to (Term (hardState r)) 0 0 0 [] false readID (Some s))
  end.

Definition sendAppend (r : Raft) (to readID : Z) : option Raft :=
  pr ← prs r !! to;
  if Next pr <=? FirstIndex (raftLog r) then Some (sendSnapshot r to readID)
  else
    let prevIndex := wrap64 (Next pr - 1) in
    prevTerm ← log_term (raftLog r) prevIndex;
    entries ← log_slice (raftLog r) (Next pr) (wrap64 (LastIndex (raftLog r) + 1));
    Some (send r (mkMessage MsgApp (id r) to (Term (hardState r)) prevTerm prevIndex (CommitIndex (hardState r)) entries false readID None)).

Fixpoint bcast_loop (r : Raft) (readID : Z) (ids : list Z) : option Raft :=
  match ids with
  | [] => Some r
  | to :: ids => if to =? id r then bcast_loop r readID ids else r ← sendAppend r to readID; bcast_loop r readID ids
  end.
Definition bcastAppend (r : Raft) (readID : Z) : option Raft := bcast_loop r readID (keys (prs r)).

(** ** Linearizable reads *)

Definition committedEntryInCurrentTerm (r : Raft) : option bool :=
  if 0 <? CommitIndex (hardState r)
  then t ← log_term (raftLog r) (CommitIndex (hardState r)); Some (t =? Term (hardState r))
  else Some false.

Definition completeReadRound (r : Raft) (readID : Z) : Raft :=
  match readRounds r !! readID with
  | None => r
  | Some round =>
      set_readRounds (set_readStates r (readStates r ++ [mkReadState readID (rr_index round)])) (delete readID (readRounds r))
  end.

Definition startReadRound (r : Raft) (readID : Z) : option Raft :=
  match readRounds r !! readID with
  | None => Some r
  | Some round =>
      if rr_started round then Some r
      else
        committed ← committedEntryInCurrentTerm r;
        if negb committed then Some r
        else
          let round := mkReadRound (CommitIndex (hardState r)) true {[id r]} in
          let r := set_readRounds r (<[readID := round]> (readRounds r)) in
          if (quorum r <=? size (rr_acks round))%nat then Some (completeReadRound r readID)
          else bcastAppend r readID
  end.

Fixpoint start_rounds (r : Raft) (ids : list Z) : option Raft :=
  match ids with
  | [] => Some r
  | readID :: ids => r ← startReadRound r readID; start_rounds r ids
  end.

Definition startPendingReadRounds (r : Raft) : option Raft :=
  match state r with
  | StateLeader => committed ← committedEntryInCurrentTerm r; if negb committed then Some r else start_rounds r (keys (readRounds r))
  | _ => Some r
  end.

Fixpoint retry_rounds (r : Raft) (ids : list Z) : option Raft :=
  match ids with
  | [] => Some r
  | readID :: ids =>
      r ← match readRounds r !! readID with
          | Some round => if rr_started round then bcastAppend r readID else Some r
          | None => Some r
          end;
      retry_rounds r ids
  end.
Definition retryReadRounds (r : Raft) : option Raft := retry_rounds r (keys (readRounds r)).

Definition ackReadRound (r : Raft) (readID from : Z) : Raft :=
  if (readID =? 0) || negb (match state r with StateLeader => true | _ => false end) then r
  else
    match prs r !! from with
    | None => r
    | Some _ =>
        match readRounds r !! readID with
        | None => r
        | Some round =>
            if negb (rr_started round) then r
            else
              let round := mkReadRound (rr_index round) true ({[from]} ∪ rr_acks round) in
              let r := set_readRounds r (<[readID := round]> (readRounds r)) in
              if (quorum r <=? size (rr_acks round))%nat then completeReadRound r readID else r
        end
    end.

(** ** Committing *)

Fixpoint emit_loop (fuel : nat) (r : Raft) : option Raft :=
  if committedCursor r <? CommitIndex (hardState r) then
    match fuel with
    | O => None
    | S fuel =>
        let idx := wrap64 (committedCursor r + 1) in
        let r := set_committedCursor r idx in
        if (idx <? FirstIndex (raftLog r)) || (LastIndex (raftLog r) <? idx) then emit_loop fuel r
        else entry ← log_entry (raftLog r) idx; emit_loop fuel (set_committedEntries r (committedEntries r ++ [entry]))
    end
  else Some r.
Definition emitCommittedEntries (r : Raft) : option Raft := emit_loop (Z.to_nat (CommitIndex (hardState r) - committedCursor r)) r.

Definition commitTo (r : Raft) (index : Z) : option Raft :=
  if CommitIndex (hardState r) <? index then
    let r := set_hardState r (with_commit (hardState r) index) in
    let r := markHardStateChanged r in
    r ← emitCommittedEntries r;
    startPendingReadRounds r
  else Some r.

Definition maybeCommit (r : Raft) : option Raft :=
  let matches := omap (fun id => Match <$> prs r !! id) (keys (prs r)) in
  let matches := merge_sort Z.ge matches in
  mci ← matches !! (quorum r - 1)%nat;
  current ← MatchTerm (raftLog r) mci (Term (hardState r));
  if current : bool then commitTo r mci else Some r.

(** ** Roles *)

Definition appendEntry (r : Raft) (data : bytes) : option Raft :=
  let index := wrap64 (LastIndex (raftLog r) + 1) in
  let entry := mkEntry (Term (hardState r)) index data in
  let r := set_raftLog r (log_append (raftLog r) [entry]) in
  let r := set_pendingEntries r (pendingEntries r ++ [entry]) in
  r ← set_progress r (id r) index (wrap64 (index + 1));
  r ← bcastAppend r 0;
  maybeCommit r.

Definition becomeFollower (r : Raft) (term lead : Z) : Raft :=
  let r := set_electionElapsed (set_lead (set_state r StateFollower) lead) 0 in
  let r := if Term (hardState r) <? term
           then markHardStateChanged (set_hardState r (with_vote (with_term (hardState r) term) 0))
           else r in
  set_readRounds (set_votes r ∅) ∅.

Definition becomeCandidate (r : Raft) : Raft :=
  let r := set_lead (set_state r StateCandidate) 0 in
  let r := set_hardState r (with_vote (with_term (hardState r) (wrap64 (Term (hardState r) + 1))) (id r)) in
  let r := markHardStateChanged r in
  set_electionElapsed (set_readRounds (set_votes r {[id r := true]}) ∅) 0.

Definition becomeLeader (r : Raft) : option Raft :=
  let r := set_heartbeatElapsed (set_lead (set_state r StateLeader) (id r)) 0 in
  let next := wrap64 (LastIndex (raftLog r) + 1) in
  let r := set_prs r ((fun _ => mkProgress 0 next) <$> prs r) in
  appendEntry r [].

Fixpoint campaign_loop (r : Raft) (ids : list Z) : Raft :=
  match ids with
  | [] => r
  | to :: ids =>
      if to =? id r then campaign_loop r ids
      else campaign_loop (send r (mkMessage MsgVote (id r) to (Term (hardState r)) (LastTerm (raftLog r)) (LastIndex (raftLog r)) 0 [] false 0 None)) ids
  end.

Definition campaign (r : Raft) : option Raft :=
  let r := becomeCandidate r in
  if (size (prs r) =? 1)%nat then becomeLeader r else Some (campaign_loop r (keys (prs r))).

(** ** Messages *)

Definition canVote (r : Raft) (m : Message) : bool :=
  if m_term m <? Term (hardState r) then false
  else if negb (Vote (hardState r) =? 0) && negb (Vote (hardState r) =? m_from m) then false
  else
    let lastTerm := LastTerm (raftLog r) in
    let lastIndex := LastIndex (raftLog r) in
    if m_logTerm m <? lastTerm then false
    else if (lastTerm =? m_logTerm m) && (m_logIndex m <? lastIndex) then false
    else true.

Definition handleVote (r : Raft) (m : Message) : Raft :=
  let granted := canVote r m in
  let r := if granted then set_electionElapsed (markHardStateChanged (set_hardState r (with_vote (hardState r) (m_from m)))) 0 else r in
  send r (mkMessage MsgVoteResp (id r) (m_from m) (Term (hardState r)) 0 0 0 [] (negb granted) 0 None).

(** How many votes in the map are [v]. *)
Definition count_votes (v : bool) (votes : gmap Z bool) : nat := length (filter (fun kv => kv.2 = v) (map_to_list votes)).

Definition handleVoteResp (r : Raft) (m : Message) : option Raft :=
  let r := set_votes r (<[m_from m := negb (m_reject m)]> (votes r)) in
  let granted := count_votes true (votes r) in
  let rejected := count_votes false (votes r) in
  if (quorum r <=? granted)%nat then becomeLeader r
  else if (quorum r <=? rejected)%nat then Some (becomeFollower r (Term (hardState r)) 0)
  else Some r.

(** The first index of the term that is in conflict. *)
Fixpoint conflict_loop (fuel : nat) (l : RaftLog) (term first : Z) : option Z :=
  if FirstIndex l <? first then
    match fuel with
    | O => None
    | S fuel =>
        t ← log_term l (wrap64 (first - 1));
        if t =? term then conflict_loop fuel l term (wrap64 (first - 1)) else Some first
    end
  else Some first.

Definition append_reply (r : Raft) (m : Message) (term logTerm logIndex : Z) (reject : bool) : Message :=
  mkMessage MsgAppResp (id r) (m_from m) term logTerm logIndex 0 [] reject (m_readId m) None.

(** What a follower does with the entries of its leader; [term] is the term of the
    answer. *)
Definition append_entries (r : Raft) (m : Message) (term : Z) : option Raft :=
  if LastIndex (raftLog r) <? m_logIndex m
  then Some (send r (append_reply r m term 0 (wrap64 (LastIndex (raftLog r) + 1)) true))
  else
    logTerm ← log_term (raftLog r) (m_logIndex m);
    if negb (m_logTerm m =? logTerm) then
      first ← conflict_loop (Z.to_nat (m_logIndex m - FirstIndex (raftLog r))) (raftLog r) logTerm (m_logIndex m);
      log ← Truncate (raftLog r) first;
      Some (send (set_raftLog r log) (append_reply r m term logTerm first true))
    else
      r ← if bool_decide (m_entries m = []) then Some r
          else
            log ← TruncateAndAppend (raftLog r) (m_logIndex m) (m_entries m);
            Some (set_pendingEntries (set_raftLog r log) (pendingEntries r ++ m_entries m));
      r ← if CommitIndex (hardState r) <? m_commit m then commitTo r (u64_min (m_commit m) (LastIndex (raftLog r))) else Some r;
      Some (send r (append_reply r m term 0 (LastIndex (raftLog r)) false)).

Definition handleAppend (r : Raft) (m : Message) : option Raft :=
  let term := Term (hardState r) in
  if m_term m <? term then Some (send r (append_reply r m term 0 0 true))
  else append_entries (becomeFollower r (m_term m) (m_from m)) m term.

Definition handleAppendResp (r : Raft) (m : Message) : option Raft :=
  match prs r !! m_from m with
  | None => Some r
  | Some pr =>
      if negb (m_term m =? Term (hardState r)) then Some r
      else
        let r := ackReadRound r (m_readId m) (m_from m) in
        '(match_, next) ←
          if negb (m_reject m) then Some (m_logIndex m, u64_min (wrap64 (m_logIndex m + 1)) (wrap64 (LastIndex (raftLog r) + 1)))
          else if m_logTerm m =? 0 then Some (Match pr, u64_max (m_logIndex m) 1)
          else
            found ← FindLastIndexOfTerm (raftLog r) (m_logTerm m);
            Some (Match pr, match found with Some i => wrap64 (i + 1) | None => m_logIndex m end);
        let match_ := if next <=? match_ then wrap64 (next - 1) else match_ in
        r ← set_progress r (m_from m) match_ next;
        maybeCommit r
  end.

(** ** Snapshots *)

Definition RestoreSnapshot (r : Raft) (snap : Snapshot) : Raft :=
  if s_index snap =? 0 then r
  else
    let r := set_pendingSnapshot r (Some snap) in
    let r := set_raftLog r (log_restore (s_index snap) (s_term snap)) in
    let r := set_committedCursor r (s_index snap) in
    let r := set_hardState r (with_commit (hardState r) (u64_max (s_index snap) (CommitIndex (hardState r)))) in
    let r := if Term (hardState r) <? s_term snap then set_hardState r (with_term (hardState r) (s_term snap)) else r in
    set_currentSnapshot r (Some snap).

Definition snapshot_reply (r : Raft) (m : Message) (term : Z) (reject : bool) : Message :=
  mkMessage MsgSnapResp (id r) (m_from m) term 0 0 0 [] reject (m_readId m) None.

Definition handleSnapshot (r : Raft) (m : Message) : Raft :=
  let term := Term (hardState r) in
  match m_snapshot m with
  | None => send r (snapshot_reply r m term true)
  | Some snap =>
      if m_term m <? Term (hardState r) then send r (snapshot_reply r m term true)
      else if s_index snap <=? FirstIndex (raftLog r) then send r (snapshot_reply r m term true)
      else
        let r := becomeFollower r (m_term m) (m_from m) in
        let r := set_pendingSnapshot r (Some snap) in
        let r := RestoreSnapshot r snap in
        send r (snapshot_reply r m term false)
  end.

Definition handleSnapshotResp (r : Raft) (m : Message) : Raft :=
  if negb (m_term m =? Term (hardState r)) then r
  else
    let r := ackReadRound r (m_readId m) (m_from m) in
    if m_reject m then r
    else
      match prs r !! m_from m with
      | None => r
      | Some _ => set_prs r (<[m_from m := mkProgress (FirstIndex (raftLog r)) (wrap64 (FirstIndex (raftLog r) + 1))]> (prs r))
      end.

(** The leader's view of a peer after the log was compacted. *)
Definition compact_progress (first : Z) (pr : Progress) : Progress :=
  mkProgress (if Match pr <? first then first else Match pr) (if Next pr <=? first then wrap64 (first + 1) else Next pr).

Definition TakeSnapshot (r : Raft) (index : Z) (data : bytes) : option Raft :=
  if index <=? FirstIndex (raftLog r) then Some r
  else
    term ← log_term (raftLog r) index;
    log ← CompactTo (raftLog r) index term;
    let r := set_raftLog r log in
    let r := set_hardState r (with_commit (hardState r) (u64_max index (CommitIndex (hardState r)))) in
    let r := set_committedCursor r (u64_max index (committedCursor r)) in
    let r := markHardStateChanged r in
    let r := match state r with
             | StateLeader => set_prs r (compact_progress (FirstIndex (raftLog r)) <$> prs r)
             | _ => r
             end in
    Some (set_currentSnapshot r (Some (mkSnapshot data index term))).

(** ** The interface *)

Fixpoint restore_entries (l : RaftLog) (entries : list Entry) : RaftLog :=
  match entries with
  | [] => l
  | e :: entries => restore_entries (log_append l [e]) entries
  end.

Definition RestoreState (r : Raft) (hs : HardState) (entries : list Entry) : option Raft :=
  let r := set_hardState r hs in
  let r := set_raftLog r (restore_entries (raftLog r) entries) in
  emitCommittedEntries r.

(** [jitter] is what [rand.Intn(r.electionTimeout)] returns. *)
Definition Tick (r : Raft) (jitter : Z) : option Raft :=
  match state r with
  | StateLeader =>
      let r := set_heartbeatElapsed r (heartbeatElapsed r + 1) in
      if heartbeatTimeout r <=? heartbeatElapsed r then
        r ← bcastAppend (set_heartbeatElapsed r 0) 0;
        retryReadRounds r
      else Some r
  | _ =>
      let r := set_electionElapsed r (electionElapsed r + 1) in
      _ ← assert_that ((0 <=? jitter) && (jitter <? electionTimeout r));
      if electionTimeout r + jitter <=? electionElapsed r then campaign (set_electionElapsed r 0) else Some r
  end.

Definition stepFollower (r : Raft) (m : Message) : option Raft :=
  match m_type m with
  | MsgVote => Some (handleVote r m)
  | MsgApp => handleAppend r m
  | MsgSnap => Some (handleSnapshot r m)
  | _ => Some r
  end.

Definition stepCandidate (r : Raft) (m : Message) : option Raft :=
  match m_type m with
  | MsgVoteResp => handleVoteResp r m
  | MsgVote => Some (handleVote r m)
  | MsgApp => handleAppend r m
  | MsgSnap => Some (handleSnapshot r m)
  | _ => Some r
  end.

Definition stepLeader (r : Raft) (m : Message) : option Raft :=
  match m_type m with
  | MsgAppResp => handleAppendResp r m
  | MsgSnapResp => Some (handleSnapshotResp r m)
  | _ => Some r
  end.

Definition Step (r : Raft) (m : Message) : option Raft :=
  let r := if Term (hardState r) <? m_term m then becomeFollower r (m_term m) 0 else r in
  if IsLocalMsg (m_type m) then
    match m_type m, state r with
    | MsgHup, StateLeader => Some r
    | MsgHup, _ => campaign r
    | MsgBeat, StateLeader => bcastAppend r 0
    | _, _ => Some r
    end
  else
    match state r with
    | StateFollower => stepFollower r m
    | StateCandidate => stepCandidate r m
    | StateLeader => stepLeader r m
    end.

Definition Propose (r : Raft) (data : bytes) : option (Raft * bool) :=
  match state r with
  | StateLeader => r ← appendEntry r data; Some (r, true)
  | _ => Some (r, false)
  end.

Definition ReadIndex (r : Raft) (readID : Z) : option (Raft * bool) :=
  match state r with
  | StateLeader =>
      if readID =? 0 then Some (r, false)
      else
        match readRounds r !! readID with
        | Some _ => Some (r, false)
        | None => r ← startReadRound (set_readRounds r (<[readID := mkReadRound 0 false ∅]> (readRounds r))) readID; Some (r, true)
        end
  | _ => Some (r, false)
  end.

Definition CancelReadIndex (r : Raft) (readID : Z) : Raft := set_readRounds r (delete readID (readRounds r)).

Record Ready := mkReady {
  rd_hardState : option HardState;
  rd_entries : list Entry;
  rd_snapshot : option Snapshot;
  rd_committed : list Entry;
  rd_messages : list Message;
  rd_readStates : list ReadState;
}.

Definition ready (r : Raft) : Ready :=
  mkReady (pendingHardState r) (pendingEntries r) (pendingSnapshot r) (committedEntries r) (msgs r) (readStates r).

Definition Advance (r : Raft) : Raft :=
  let r := set_pendingEntries (set_pendingHardState r None) [] in
  let r := set_committedEntries (set_pendingSnapshot r None) [] in
  set_readStates (set_msgs r []) [].

End raft.
