(* ===== verification/RaftNode.v ===== *)
(** One Raft node (raft/raft.go): what its methods leave alone, that it votes at
    most once in a term, and what a leader commits. *)
From S2P Require Import Prelude RaftLog Raft.

(** ** Frames *)

(** A method that keeps role, term, vote and members, never takes a commit back
    and sends no answer to a vote request. *)
Record quiet (r r' : Raft) : Prop := {
  q_id : id r' = id r;
  q_state : state r' = state r;
  q_term : Term (hardState r') = Term (hardState r);
  q_vote : Vote (hardState r') = Vote (hardState r);
  q_commit : CommitIndex (hardState r) <= CommitIndex (hardState r');
  q_votes : votes r' = votes r;
  q_members : dom (prs r') = dom (prs r);
  q_messages : exists ms, msgs r' = msgs r ++ ms /\ Forall (fun m => m_type m <> MsgVoteResp /\ m_from m = id r /\ IsLocalMsg (m_type m) = false) ms;
}.

#[global] Instance quiet_refl : Reflexive quiet.
Proof. intros r. split; try done. exists []. by rewrite app_nil_r. Qed.

#[global] Instance quiet_trans : Transitive quiet.
Proof.
  intros r r1 r2 [A1 A2 A3 A4 A5 A6 A7 (ms & A8 & A9)] [B1 B2 B3 B4 B5 B6 B7 (ms' & B8 & B9)]. split; try congruence; [lia|].
  exists (ms ++ ms'). split; [by rewrite B8, A8, app_assoc|]. rewrite A1 in B9. by apply Forall_app.
Qed.

(** Only fields outside the frame change. *)
Lemma quiet_fields r r' : id r' = id r -> state r' = state r -> hardState r' = hardState r -> votes r' = votes r -> dom (prs r') = dom (prs r) -> msgs r' = msgs r -> quiet r r'.
Proof. intros E1 E2 E3 E4 E5 E6. split; try done; [by rewrite E3..| |]; [rewrite E3; lia|]. exists []. by rewrite app_nil_r. Qed.

(** A method that also keeps the hard state and the log. *)
Definition still (r r' : Raft) : Prop := quiet r r' /\ hardState r' = hardState r /\ raftLog r' = raftLog r.

#[global] Instance still_refl : Reflexive still.
Proof. by intros r. Qed.

#[global] Instance still_trans : Transitive still.
Proof. intros r r1 r2 (? & ? & ?) (? & ? & ?). split_and!; [by etrans|congruence|congruence]. Qed.

Lemma still_quiet r r' : still r r' -> quiet r r'.
Proof. by intros []. Qed.

Lemma still_fields r r' : id r' = id r -> state r' = state r -> hardState r' = hardState r -> raftLog r' = raftLog r -> votes r' = votes r -> dom (prs r') = dom (prs r) -> msgs r' = msgs r -> still r r'.
Proof. intros. split_and!; [by apply quiet_fields|done|done]. Qed.

Lemma send_still r m : m_type m <> MsgVoteResp -> m_from m = id r -> IsLocalMsg (m_type m) = false -> still r (send r m).
Proof. intros Hm Hf Hloc. split_and!; [|done|done]. split; try done. exists [m]. split; [done|]. by repeat constructor. Qed.

Lemma send_quiet r m : m_type m <> MsgVoteResp -> m_from m = id r -> IsLocalMsg (m_type m) = false -> quiet r (send r m).
Proof. intros Hm Hf Hloc. by apply still_quiet, send_still. Qed.

Section quiet.
Context `{RangeOrder}.

Lemma sendSnapshot_still r to readID : still r (sendSnapshot r to readID).
Proof. unfold sendSnapshot. destruct (currentSnapshot r) as [s|]; [|done]. destruct (s_index s =? 0); [done|]. by apply send_still. Qed.

Lemma sendAppend_still r to readID r' : sendAppend r to readID = Some r' -> still r r'.
Proof.
  unfold sendAppend. intros Hs. apply bind_Some in Hs as (pr & _ & Hs). destruct (_ <=? _); [injection Hs as <-; apply sendSnapshot_still|].
  apply bind_Some in Hs as (t & _ & Hs). apply bind_Some in Hs as (es & _ & [= <-]). by apply send_still.
Qed.

Lemma bcast_loop_still readID ids : forall r r', bcast_loop r readID ids = Some r' -> still r r'.
Proof.
  induction ids as [|to ids IH]; intros r r'; [by intros [= <-]|]. simpl. destruct (to =? id r); [apply IH|]. intros Hs. apply bind_Some in Hs as (r1 & H1%sendAppend_still & H2%IH). by etrans.
Qed.

Lemma bcastAppend_still r readID r' : bcastAppend r readID = Some r' -> still r r'.
Proof. apply bcast_loop_still. Qed.

Lemma completeReadRound_still r readID : still r (completeReadRound r readID).
Proof. unfold completeReadRound. destruct (readRounds r !! readID); [by apply still_fields|done]. Qed.

Lemma startReadRound_still r readID r' : startReadRound r readID = Some r' -> still r r'.
Proof.
  unfold startReadRound. destruct (readRounds r !! readID) as [round|]; [|by intros [= <-]]. destruct (rr_started round); [by intros [= <-]|]. intros Hs. apply bind_Some in Hs as (c & _ & Hs).
  destruct (negb c); [by injection Hs as <-|]. destruct (_ <=? _)%nat.
  - injection Hs as <-. etrans; [|apply completeReadRound_still]. by apply still_fields.
  - apply bcastAppend_still in Hs. etrans; [|exact Hs]. by apply still_fields.
Qed.

Lemma start_rounds_still ids : forall r r', start_rounds r ids = Some r' -> still r r'.
Proof. induction ids as [|i ids IH]; intros r r'; [by intros [= <-]|]. simpl. intros Hs. apply bind_Some in Hs as (r1 & H1%startReadRound_still & H2%IH). by etrans. Qed.

Lemma startPendingReadRounds_still r r' : startPendingReadRounds r = Some r' -> still r r'.
Proof.
  unfold startPendingReadRounds. destruct (state r); [by intros [= <-]..|]. intros Hs. apply bind_Some in Hs as (c & _ & Hs). destruct (negb c); [by injection Hs as <-|]. by eapply start_rounds_still.
Qed.

Lemma retry_rounds_still ids : forall r r', retry_rounds r ids = Some r' -> still r r'.
Proof.
  induction ids as [|i ids IH]; intros r r'; [by intros [= <-]|]. simpl. intros Hs. apply bind_Some in Hs as (r1 & H1 & H2%IH). etrans; [|exact H2].
  destruct (readRounds r !! i) as [round|]; [|by injection H1 as <-]. destruct (rr_started round); [by eapply bcastAppend_still|by injection H1 as <-].
Qed.

Lemma ackReadRound_still r readID from : still r (ackReadRound r readID from).
Proof.
  unfold ackReadRound. destruct (_ || _); [done|]. destruct (prs r !! from); [|done]. destruct (readRounds r !! readID) as [round|]; [|done]. destruct (negb _); [done|].
  destruct (_ <=? _)%nat; [etrans; [|apply completeReadRound_still]|]; by apply still_fields.
Qed.

Lemma emit_loop_still fuel : forall r r', emit_loop fuel r = Some r' -> still r r'.
Proof.
  induction fuel as [|fuel IH]; intros r r'; cbn [emit_loop]; (destruct (_ <? _); [|by intros [= <-]]); [done|]. destruct (_ || _).
  - intros Hs%IH. etrans; [|exact Hs]. by apply still_fields.
  - intros Hs. apply bind_Some in Hs as (e & _ & Hs%IH). etrans; [|exact Hs]. by apply still_fields.
Qed.

Lemma commitTo_quiet r index r' : commitTo r index = Some r' -> quiet r r'.
Proof.
  unfold commitTo. destruct (Z.ltb_spec (CommitIndex (hardState r)) index); [|by intros [= <-]]. intros Hs. apply bind_Some in Hs as (r1 & H1%emit_loop_still%still_quiet & H2%startPendingReadRounds_still%still_quiet).
  etrans; [|exact H2]. etrans; [|exact H1]. split; try done; [simpl; lia|]. exists []. by rewrite app_nil_r.
Qed.

Lemma maybeCommit_quiet r r' : maybeCommit r = Some r' -> quiet r r'.
Proof.
  unfold maybeCommit. intros Hs. apply bind_Some in Hs as (mci & _ & Hs). apply bind_Some in Hs as (c & _ & Hs). destruct c; [by eapply commitTo_quiet|by injection Hs as <-].
Qed.

Lemma set_progress_still r p m n r' : set_progress r p m n = Some r' -> still r r'.
Proof.
  unfold set_progress. intros Hs. apply bind_Some in Hs as (pr & Hp & [= <-]). apply still_fields; try done. simpl. rewrite dom_insert_L. apply elem_of_dom_2 in Hp. set_solver.
Qed.

Lemma appendEntry_quiet r data r' : appendEntry r data = Some r' -> quiet r r'.
Proof.
  unfold appendEntry. intros Hs. apply bind_Some in Hs as (r1 & H1%set_progress_still%still_quiet & Hs). apply bind_Some in Hs as (r2 & H2%bcastAppend_still%still_quiet & H3%maybeCommit_quiet).
  etrans; [|exact H3]. etrans; [|exact H2]. etrans; [|exact H1]. by apply quiet_fields.
Qed.

Lemma handleAppendResp_quiet r m r' : handleAppendResp r m = Some r' -> quiet r r'.
Proof.
  unfold handleAppendResp. destruct (prs r !! m_from m) as [pr|]; [|by intros [= <-]]. destruct (negb _); [by intros [= <-]|]. intros Hs. apply bind_Some in Hs as ([a b] & _ & Hs).
  apply bind_Some in Hs as (r1 & H1%set_progress_still%still_quiet & H2%maybeCommit_quiet). etrans; [|exact H2]. etrans; [|exact H1]. apply still_quiet, ackReadRound_still.
Qed.

Lemma handleSnapshotResp_quiet r m : quiet r (handleSnapshotResp r m).
Proof.
  unfold handleSnapshotResp. destruct (negb _); [done|]. destruct (m_reject m); [apply still_quiet, ackReadRound_still|]. destruct (prs _ !! m_from m) eqn:E; [|apply still_quiet, ackReadRound_still].
  etrans; [apply still_quiet, ackReadRound_still|]. apply quiet_fields; try done. simpl. rewrite dom_insert_L. apply elem_of_dom_2 in E. set_solver.
Qed.

Lemma TakeSnapshot_quiet r index data r' : TakeSnapshot r index data = Some r' -> quiet r r'.
Proof.
  unfold TakeSnapshot. destruct (_ <=? _); [by intros [= <-]|]. intros Hs. apply bind_Some in Hs as (t & _ & Hs). apply bind_Some in Hs as (l & _ & [= <-]).
  unfold u64_max. destruct (state r) eqn:E; (split; simpl; try done; try (by rewrite dom_fmap_L); try (exists []; by rewrite app_nil_r));
    destruct (Z.ltb_spec (CommitIndex (hardState r)) index); lia.
Qed.

Lemma append_entries_quiet r m term r' : append_entries r m term = Some r' -> quiet r r'.
Proof.
  unfold append_entries. destruct (_ <? _); [intros [= <-]; by apply send_quiet|]. intros Hs. apply bind_Some in Hs as (t & _ & Hs). destruct (negb _).
  - apply bind_Some in Hs as (first & _ & Hs). apply bind_Some in Hs as (l & _ & [= <-]). etrans; [|by apply send_quiet]. by apply quiet_fields.
  - apply bind_Some in Hs as (r2 & H2 & Hs). apply bind_Some in Hs as (r3 & H3 & [= <-]). etrans; [|by apply send_quiet]. etrans.
    + case_bool_decide; [by injection H2 as <-|]. apply bind_Some in H2 as (l & _ & [= <-]). by apply quiet_fields.
    + destruct (_ <? _); [by eapply commitTo_quiet|by injection H3 as <-].
Qed.

End quiet.

(** ** Terms, votes and commits *)

(** What a node is called with; [Ready] is read before [Advance]. *)
Inductive input :=
  | Ticks (jitter : Z)
  | Receives (m : Message)
  | Proposes (data : bytes)
  | Reads (readID : Z)
  | Cancels (readID : Z)
  | Compacts (index : Z) (data : bytes)
  | Advances.

Definition node_do `{RangeOrder} (r : Raft) (i : input) : option Raft :=
  match i with
  | Ticks jitter => Tick r jitter
  | Receives m => Step r m
  | Proposes data => fst <$> Propose r data
  | Reads readID => fst <$> ReadIndex r readID
  | Cancels readID => Some (CancelReadIndex r readID)
  | Compacts index data => TakeSnapshot r index data
  | Advances => Some (Advance r)
  end.

(** Terms and commits only grow, and a vote stays for its term. *)
Record grows (r r' : Raft) : Prop := {
  g_id : id r' = id r;
  g_members : dom (prs r') = dom (prs r);
  g_commit : CommitIndex (hardState r) <= CommitIndex (hardState r');
  g_vote : Term (hardState r) < Term (hardState r') \/
    (Term (hardState r') = Term (hardState r) /\ (Vote (hardState r) = 0 \/ Vote (hardState r') = Vote (hardState r)));
}.

#[global] Instance grows_refl : Reflexive grows.
Proof. intros r. split; try done. right. auto. Qed.

#[global] Instance grows_trans : Transitive grows.
Proof. intros r r1 r2 [A1 A2 A3 A4] [B1 B2 B3 B4]. split; [congruence|congruence|lia|]. destruct A4 as [|[? [|]]], B4 as [|[? [|]]]; try (left; lia); right; (split; [lia|]); [left|left|left|right]; congruence. Qed.

Lemma quiet_grows r r' : quiet r r' -> grows r r'.
Proof. intros [A1 A2 A3 A4 A5 A6 A7 _]. split; try done. right. auto. Qed.

Lemma becomeFollower_grows r term lead : grows r (becomeFollower r term lead).
Proof. unfold becomeFollower. simpl. destruct (Z.ltb_spec (Term (hardState r)) term); (split; try done; simpl; [auto with lia..]); right; auto. Qed.

Lemma becomeCandidate_grows r : 0 <= Term (hardState r) < kUint64Max -> grows r (becomeCandidate r).
Proof. intros Ht. split; try done. left. simpl. unfold wrap64, kUint64Max in *. rewrite Z.mod_small by lia. lia. Qed.

Section growing.
Context `{RangeOrder}.

(** The leader starts from clean progress. *)
Lemma becomeLeader_step r r' : becomeLeader r = Some r' -> quiet (set_prs (set_heartbeatElapsed (set_lead (set_state r StateLeader) (id r)) 0)
  ((fun _ => mkProgress 0 (wrap64 (LastIndex (raftLog r) + 1))) <$> prs r)) r'.
Proof. unfold becomeLeader. apply appendEntry_quiet. Qed.

Lemma becomeLeader_grows r r' : becomeLeader r = Some r' -> grows r r'.
Proof. intros Hl%becomeLeader_step%quiet_grows. etrans; [|exact Hl]. split; try done; [simpl; by rewrite dom_fmap_L|]. right. auto. Qed.

Lemma campaign_loop_quiet ids : forall r, quiet r (campaign_loop r ids).
Proof. induction ids as [|to ids IH]; intros r; [done|]. simpl. destruct (to =? id r); [apply IH|]. etrans; [|apply IH]. by apply send_quiet. Qed.

Lemma campaign_grows r r' : 0 <= Term (hardState r) < kUint64Max -> campaign r = Some r' -> grows r r'.
Proof.
  intros Ht Hc. unfold campaign in Hc. etrans; [by apply becomeCandidate_grows|]. destruct (_ =? _)%nat; [by apply becomeLeader_grows|]. injection Hc as <-. apply quiet_grows, campaign_loop_quiet.
Qed.

Lemma handleVote_grows r m : grows r (handleVote r m).
Proof.
  unfold handleVote. destruct (canVote r m) eqn:E; [|split; try done; right; auto].
  split; try done; simpl. right. split; [done|]. unfold canVote in E. destruct (_ <? _); [done|]. destruct (Z.eqb_spec (Vote (hardState r)) 0); [auto|]. destruct (Z.eqb_spec (Vote (hardState r)) (m_from m)); [auto|done].
Qed.

Lemma handleVoteResp_grows r m r' : handleVoteResp r m = Some r' -> grows r r'.
Proof.
  unfold handleVoteResp. set (r1 := set_votes r _). assert (grows r r1) as H1 by (split; try done; right; auto). destruct (_ <=? _)%nat; [intros Hl%becomeLeader_grows; by etrans|].
  destruct (_ <=? _)%nat; intros [= <-]; [|done]. etrans; [exact H1|apply becomeFollower_grows].
Qed.

Lemma handleAppend_grows r m r' : handleAppend r m = Some r' -> grows r r'.
Proof.
  unfold handleAppend. destruct (_ <? _); [intros [= <-]; by apply quiet_grows, send_quiet|]. intros Hs%append_entries_quiet%quiet_grows. etrans; [apply becomeFollower_grows|exact Hs].
Qed.

Lemma RestoreSnapshot_grows r snap : grows r (RestoreSnapshot r snap).
Proof.
  unfold RestoreSnapshot. destruct (s_index snap =? 0); [done|]. simpl. unfold u64_max.
  destruct (Z.ltb_spec (CommitIndex (hardState r)) (s_index snap)), (Z.ltb_spec (Term (hardState r)) (s_term snap)); (split; simpl; try done; lia).
Qed.

Lemma set_pendingSnapshot_quiet r snap : quiet r (set_pendingSnapshot r snap).
Proof. by apply quiet_fields. Qed.

Lemma handleSnapshot_grows r m : grows r (handleSnapshot r m).
Proof.
  unfold handleSnapshot. destruct (m_snapshot m) as [snap|]; [|by apply quiet_grows, send_quiet]. destruct (_ <? _); [by apply quiet_grows, send_quiet|]. destruct (_ <=? _); [by apply quiet_grows, send_quiet|].
  etrans; [apply (becomeFollower_grows r (m_term m) (m_from m))|]. etrans; [|by apply quiet_grows, send_quiet]. etrans; [|apply RestoreSnapshot_grows]. apply quiet_grows, set_pendingSnapshot_quiet.
Qed.

Lemma node_do_grows r i r' : 0 <= Term (hardState r) < kUint64Max -> (forall m, i = Receives m -> IsLocalMsg (m_type m) = true -> m_term m < kUint64Max) -> node_do r i = Some r' -> grows r r'.
Proof.
  intros Ht Hm. destruct i as [jitter|m|data|readID|readID|index data|]; simpl; intros Hd.
  - unfold Tick in Hd. destruct (state r).
    1,2: apply bind_Some in Hd as (u & _ & Hd); destruct (_ <=? _); [apply campaign_grows in Hd; [|done]; etrans; [|exact Hd]|injection Hd as <-]; by apply quiet_grows, quiet_fields.
    destruct (_ <=? _); [|injection Hd as <-; by apply quiet_grows, quiet_fields]. apply bind_Some in Hd as (r1 & H1%bcastAppend_still%still_quiet & H2%retry_rounds_still%still_quiet). apply quiet_grows. etrans; [|exact H2]. etrans; [|exact H1]. by apply quiet_fields.
  - unfold Step in Hd. set (r1 := if _ <? _ then _ else r) in Hd. assert (grows r r1) as H1 by (unfold r1; destruct (_ <? _); [apply becomeFollower_grows|done]). etrans; [exact H1|].
    destruct (IsLocalMsg (m_type m)) eqn:El.
    + specialize (Hm m eq_refl El). assert (0 <= Term (hardState r1) < kUint64Max) as Ht1.
      { unfold r1. destruct (Z.ltb_spec (Term (hardState r)) (m_term m)); [|done]. unfold becomeFollower. simpl. rewrite (proj2 (Z.ltb_lt _ _)) by done. simpl. lia. }
      destruct (m_type m), (state r1); try done; try (by injection Hd as <-); try (by eapply campaign_grows); by eapply quiet_grows, still_quiet, bcastAppend_still.
    + unfold stepFollower, stepCandidate, stepLeader in Hd. destruct (state r1), (m_type m); try done; try (by injection Hd as <-);
        first [injection Hd as <-; apply handleVote_grows|by apply handleAppend_grows in Hd|injection Hd as <-; apply handleSnapshot_grows|by apply handleVoteResp_grows in Hd
              |by apply quiet_grows, (handleAppendResp_quiet _ m)|injection Hd as <-; apply quiet_grows, handleSnapshotResp_quiet].
  - apply fmap_Some in Hd as ([r1 b] & Hp & ->). unfold Propose in Hp. destruct (state r); [by injection Hp as <- _..|]. apply bind_Some in Hp as (r2 & H2%appendEntry_quiet & [= <- _]). by apply quiet_grows.
  - apply fmap_Some in Hd as ([r1 b] & Hp & ->). unfold ReadIndex in Hp. destruct (state r); [by injection Hp as <- _..|]. destruct (readID =? 0); [by injection Hp as <- _|]. destruct (readRounds r !! readID); [by injection Hp as <- _|].
    apply bind_Some in Hp as (r2 & H2%startReadRound_still%still_quiet & [= <- _]). apply quiet_grows. etrans; [|exact H2]. by apply quiet_fields.
  - injection Hd as <-. by apply quiet_grows, quiet_fields.
  - by eapply quiet_grows, TakeSnapshot_quiet.
  - injection Hd as <-. split; try done. right. auto.
Qed.

(** Any calls, as long as terms stay below the largest number. *)
Inductive node_run : Raft -> Raft -> Prop :=
  | node_run_nil r : node_run r r
  | node_run_cons r i r1 r2 : 0 <= Term (hardState r) < kUint64Max -> (forall m, i = Receives m -> m_term m < kUint64Max) ->
      node_do r i = Some r1 -> node_run r1 r2 -> node_run r r2.

(** C0. A node votes at most once in a term.  Over any calls, with any messages, its
    term and its commit index never decrease, and as long as it stays in a term
    in which it has voted its vote does not change. *)
Theorem one_vote_per_term r r' : node_run r r' ->
  Term (hardState r) <= Term (hardState r') /\ CommitIndex (hardState r) <= CommitIndex (hardState r') /\
  (Term (hardState r') = Term (hardState r) -> Vote (hardState r) <> 0 -> Vote (hardState r') = Vote (hardState r)).
Proof.
  intros Hr. assert (grows r r') as [_ _ Hc Hv]. { induction Hr as [|r i r1 r2 Ht Hm Hd _ IH]; [done|]. etrans; [|exact IH]. eapply node_do_grows; [done| |done]. eauto. }
  split_and!; [lia|lia|]. destruct Hv as [|[_ [|]]]; [lia|done|done].
Qed.
End growing.

(** ** What a leader commits *)

(** How many peers are known to have the log up to [i]. *)
Definition replicated (r : Raft) (i : Z) : nat := length (filter (fun kv => i <= Match kv.2) (map_to_list (prs r))).

(** The element at position [q] of a list in descending order separates the
    values at least [q+1] elements reach from the others. *)
Lemma descending_rank (l : list Z) (q : nat) (x : Z) : StronglySorted Z.ge l -> l !! q = Some x ->
  (q < length (filter (fun y => (x <= y)%Z) l))%nat /\ forall i, x < i -> (length (filter (fun y => (i <= y)%Z) l) <= q)%nat.
Proof.
  revert q. induction l as [|a l IH]; intros q Hs Hq; [done|]. apply StronglySorted_inv in Hs as [Hs Ha]. destruct q as [|q]; simpl in Hq.
  - injection Hq as ->. split; [rewrite filter_cons_True by lia; simpl; lia|]. intros i Hi. rewrite filter_cons_False by lia.
    assert (filter (fun y => i <= y) l = []) as ->; [|done]. clear -Ha Hi. induction l as [|b l IH]; [done|]. apply Forall_cons_iff in Ha as [Hb Ha]. rewrite filter_cons_False by lia. by apply IH.
  - destruct (IH q Hs Hq) as [H1 H2]. assert (x <= a) as Hxa by (rewrite Forall_elem in Ha; apply list_elem_of_lookup_2 in Hq; specialize (Ha x Hq); lia). split.
    + rewrite filter_cons_True by done. simpl. lia.
    + intros i Hi. specialize (H2 i Hi). destruct (decide (i <= a)); [rewrite filter_cons_True by done; simpl; lia|rewrite filter_cons_False by done; lia].
Qed.

Section commits.
Context `{RangeOrderLaws}.

Lemma matches_perm r : omap (fun i => Match <$> prs r !! i) (keys (prs r)) ≡ₚ map (fun kv => Match kv.2) (map_to_list (prs r)).
Proof.
  unfold keys. rewrite (range_keys (map fst (map_to_list (prs r)))). assert (forall l, (forall kv, kv ∈ l -> prs r !! kv.1 = Some kv.2) ->
    omap (fun i => Match <$> prs r !! i) (map fst l) = map (fun kv => Match kv.2) l) as E.
  { induction l as [|[k p] l IH]; intros Hl; [done|]. cbn [map omap list_omap fst snd]. pose proof (Hl (k, p) ltac:(left)) as Hk. simpl in Hk. cbn. rewrite Hk. simpl. f_equal. apply IH. intros kv Hkv. apply Hl. by right. }
  rewrite E; [done|]. intros [k p] Hkv. by apply elem_of_map_to_list in Hkv.
Qed.

Lemma replicated_matches r i l : l ≡ₚ map (fun kv => Match kv.2) (map_to_list (prs r)) -> length (filter (fun y => i <= y) l) = replicated r i.
Proof.
  intros Hl. rewrite (Permutation_length (filter_Permutation _ _ _ Hl)). unfold replicated. generalize (map_to_list (prs r)). intros m. induction m as [|[k p] m IH]; [done|]. cbn [map snd].
  destruct (decide (i <= Match p)); [rewrite !filter_cons_True by done; simpl; by rewrite IH|by rewrite !filter_cons_False by done].
Qed.

Lemma commitTo_commit r index r' : commitTo r index = Some r' -> CommitIndex (hardState r') = Z.max (CommitIndex (hardState r)) index.
Proof.
  unfold commitTo. destruct (Z.ltb_spec (CommitIndex (hardState r)) index); [|intros [= <-]; lia]. intros Hs. apply bind_Some in Hs as (r1 & (_ & Hh1 & _)%emit_loop_still & (_ & Hh2 & _)%startPendingReadRounds_still).
  rewrite Hh2, Hh1. simpl. lia.
Qed.

(** C0. A leader commits by counting.  The index [maybeCommit] considers is the
    largest one that a quorum of the peers is known to have; the commit index
    becomes that index if the entry there is of the current term, and otherwise
    stays as it is; it never goes back. *)
Theorem leader_commits_quorum r r' : maybeCommit r = Some r' ->
  exists mci, (quorum r <= replicated r mci)%nat /\ (forall i, mci < i -> (replicated r i < quorum r)%nat) /\
    (MatchTerm (raftLog r) mci (Term (hardState r)) = Some true /\ CommitIndex (hardState r') = Z.max (CommitIndex (hardState r)) mci \/
     MatchTerm (raftLog r) mci (Term (hardState r)) = Some false /\ r' = r).
Proof.
  intros Hm. unfold maybeCommit in Hm. apply bind_Some in Hm as (mci & Hmci & Hm). apply bind_Some in Hm as (c & Hc & Hm). exists mci.
  assert (StronglySorted Z.ge (merge_sort Z.ge (omap (fun i => Match <$> prs r !! i) (keys (prs r))))) as Hsort by (apply StronglySorted_merge_sort; [intros ? ? ?; lia|intros ? ?; lia]).
  destruct (descending_rank _ _ _ Hsort Hmci) as [Hge Hlt]. pose proof (merge_sort_Permutation Z.ge (omap (fun i => Match <$> prs r !! i) (keys (prs r)))) as Hp. apply (fun E => transitivity E (matches_perm r)) in Hp.
  rewrite (replicated_matches r _ _ Hp) in Hge. split_and!.
  - unfold quorum in *. lia.
  - intros i Hi. specialize (Hlt i Hi). rewrite (replicated_matches r _ _ Hp) in Hlt. unfold quorum in *. lia.
  - destruct c; [left; split; [done|by apply commitTo_commit]|right; split; [done|congruence]].
Qed.
End commits.

(** ** Instances *)

(** Loops that visit the keys of a map in the order of the list. *)
Definition key_order : RangeOrder := fun l => l.
#[global] Instance key_order_laws : @RangeOrderLaws key_order.
Proof. intros l. done. Qed.

Definition vote_request (from term : Z) : Message := mkMessage MsgVote from 1 term 0 0 0 [] false 0 None.

(** A node that has voted for node 2 in term 1. *)
Definition sample_voter : Raft :=
  default (NewRaft (mkConfig 1 [1; 2; 3] 10 2)) (@Step key_order (NewRaft (mkConfig 1 [1; 2; 3] 10 2)) (vote_request 2 1)).

Lemma one_vote_per_term_witness : exists r', @Step key_order sample_voter (vote_request 3 1) = Some r' /\ Term (hardState r') = 1 /\ Vote (hardState r') = 2.
Proof.
  eexists. split; [vm_compute; reflexivity|]. split; [reflexivity|].
  apply (@one_vote_per_term key_order sample_voter); [|reflexivity|discriminate].
  apply (@node_run_cons key_order _ (Receives (vote_request 3 1)) (default sample_voter (@Step key_order sample_voter (vote_request 3 1)))); [vm_compute; split; [discriminate|reflexivity]|intros m [= <-]; reflexivity|vm_compute; reflexivity|].
  apply node_run_nil.
Defined.

(** A leader of term 1 with one entry, which one of its two peers has. *)
Definition sample_leader : Raft :=
  mkRaft 1 StateLeader 1 (mkHardState 1 1 0) (mkRaftLog [mkEntry 0 0 []; mkEntry 1 1 []] 0) {[1 := mkProgress 1 2; 2 := mkProgress 1 2; 3 := mkProgress 0 1]}
    ∅ [] 0 0 10 2 None None [] None [] [] ∅ 0.

Lemma leader_commits_quorum_witness : exists r', @maybeCommit key_order sample_leader = Some r' /\ CommitIndex (hardState r') = 1 /\
  exists mci, (quorum sample_leader <= replicated sample_leader mci)%nat /\ (forall i, mci < i -> (replicated sample_leader i < quorum sample_leader)%nat) /\
    (MatchTerm (raftLog sample_leader) mci 1 = Some true /\ CommitIndex (hardState r') = Z.max 0 mci \/ MatchTerm (raftLog sample_leader) mci 1 = Some false /\ r' = sample_leader).
Proof.
  eexists. split; [vm_compute; reflexivity|]. split; [reflexivity|]. apply (@leader_commits_quorum key_order key_order_laws sample_leader). vm_compute. reflexivity.
Defined.
