(* ===== verification/RaftRead.v ===== *)
(** Linearizable reads of one Raft node (raft/read_index.go, raft/raft.go): a read
    that is answered has an index at least the commit index at its request, and a
    quorum has confirmed the leader in between. *)
From S2P Require Import Prelude RaftLog Raft RaftNode.

Section reading.
Context `{RangeOrder}.

(** The request [k], made to node [n] of the peers [members] in term [T] when
    [floor] was the commit index. *)
Variables (n k T floor : Z) (members : gset Z).

(** The peer that confirms the request by a call. *)
Definition confirms (i : input) : option Z :=
  match i with
  | Receives m =>
      match m_type m with
      | MsgAppResp | MsgSnapResp => if (m_term m =? T) && (m_readId m =? k) then Some (m_from m) else None
      | _ => None
      end
  | _ => None
  end.

(** A round or an answer of the request, when the peers [S] have confirmed it. *)
Record round_ok (S : gset Z) (r : Raft) (round : readRound) : Prop := {
  ro_leader : state r = StateLeader;
  ro_term : Term (hardState r) = T;
  ro_floor : floor <= CommitIndex (hardState r);
  ro_started : rr_started round = true -> floor <= rr_index round <= CommitIndex (hardState r) /\ rr_acks round ⊆ S ∪ {[n]};
}.

Definition answer_ok (S : gset Z) (r : Raft) (index : Z) : Prop :=
  floor <= index <= CommitIndex (hardState r) /\ exists Q, Q ⊆ S ∪ {[n]} /\ (size members / 2 + 1 <= size Q)%nat.

Record reading (S : gset Z) (r : Raft) : Prop := {
  rd_id : id r = n;
  rd_members : dom (prs r) = members;
  rd_round : forall round, readRounds r !! k = Some round -> round_ok S r round;
  rd_answer : forall rs, rs ∈ readStates r -> rs_readID rs = k -> answer_ok S r (rs_index rs);
}.

Lemma reading_quorum S r : reading S r -> quorum r = (size members / 2 + 1)%nat.
Proof. intros [_ <- _ _]. unfold quorum. by rewrite size_dom. Qed.

Lemma reading_mono S S' r : S ⊆ S' -> reading S r -> reading S' r.
Proof.
  intros Hs [H1 H2 H3 H4]. split; [done|done| |].
  - intros round Hr. destruct (H3 round Hr) as [A B C D]. split; [done..|]. intros Hst. destruct (D Hst). set_solver.
  - intros rs Hrs Hk. destruct (H4 rs Hrs Hk) as (A & Q & B & C). split; [done|]. exists Q. set_solver.
Qed.

(** A method that touches no request: it keeps the rounds, or drops them all. *)
Lemma reading_keep S r r' : reading S r -> id r' = id r -> dom (prs r') = dom (prs r) -> CommitIndex (hardState r) <= CommitIndex (hardState r') -> readStates r' = readStates r ->
  (readRounds r' !! k = None \/ (readRounds r' = readRounds r /\ state r' = state r /\ Term (hardState r') = Term (hardState r))) -> reading S r'.
Proof.
  intros [A1 A2 A3 A4] E1 E2 E3 E4 E5. split; [congruence|congruence| |].
  - intros round Hr. destruct E5 as [E5|(E5 & E6 & E7)]; [congruence|]. rewrite E5 in Hr. destruct (A3 round Hr) as [B1 B2 B3 B4]. split; [congruence|congruence|lia|]. intros Hst. destruct (B4 Hst). split; [lia|done].
  - intros rs Hrs Hk. rewrite E4 in Hrs. destruct (A4 rs Hrs Hk) as (A & Q). split; [lia|done].
Qed.

(** Requests stay as they are. *)
Definition unread (r r' : Raft) : Prop := quiet r r' /\ readRounds r' = readRounds r /\ readStates r' = readStates r.

Lemma unread_trans r r1 r2 : unread r r1 -> unread r1 r2 -> unread r r2.
Proof. intros (? & ? & ?) (? & ? & ?). split_and!; [by etrans|congruence|congruence]. Qed.

Lemma reading_unread S r r' : unread r r' -> reading S r -> reading S r'.
Proof. intros ([Q1 Q2 Q3 Q4 Q5 Q6 Q7 _] & E1 & E2) Hr. eapply reading_keep; eauto. Qed.

Lemma send_unread r m : m_type m <> MsgVoteResp -> m_from m = id r -> IsLocalMsg (m_type m) = false -> unread r (send r m).
Proof. intros. split_and!; [by apply send_quiet|done|done]. Qed.

Lemma sendAppend_unread r to readID r' : sendAppend r to readID = Some r' -> unread r r'.
Proof.
  unfold sendAppend, sendSnapshot. intros Hs. apply bind_Some in Hs as (pr & _ & Hs). destruct (_ <=? _).
  - destruct (currentSnapshot r) as [s|]; [|by injection Hs as <-]. destruct (s_index s =? 0); injection Hs as <-; [done|by apply send_unread].
  - apply bind_Some in Hs as (t & _ & Hs). apply bind_Some in Hs as (es & _ & [= <-]). by apply send_unread.
Qed.

Lemma bcast_loop_unread readID ids : forall r r', bcast_loop r readID ids = Some r' -> unread r r'.
Proof.
  induction ids as [|to ids IH]; intros r r'; [by intros [= <-]|]. simpl. destruct (to =? id r); [apply IH|]. intros Hs. apply bind_Some in Hs as (r1 & H1%sendAppend_unread & H2%IH). by eapply unread_trans.
Qed.

Lemma bcastAppend_unread r readID r' : bcastAppend r readID = Some r' -> unread r r'.
Proof. apply bcast_loop_unread. Qed.

Lemma emit_loop_unread fuel : forall r r', emit_loop fuel r = Some r' -> unread r r'.
Proof.
  intros r r' Hs. split; [by eapply still_quiet, emit_loop_still|]. revert r r' Hs.
  induction fuel as [|fuel IH]; intros r r'; cbn [emit_loop]; (destruct (_ <? _); [|by intros [= <-]]); [done|]. destruct (_ || _); [by intros Hs%IH|]. intros Hs. by apply bind_Some in Hs as (e & _ & Hs%IH).
Qed.

Lemma set_progress_unread r p m nx r' : set_progress r p m nx = Some r' -> unread r r'.
Proof. intros Hs. split; [by eapply still_quiet, set_progress_still|]. unfold set_progress in Hs. by apply bind_Some in Hs as (pr & _ & [= <-]). Qed.

Lemma retry_rounds_unread ids : forall r r', retry_rounds r ids = Some r' -> unread r r'.
Proof.
  induction ids as [|i ids IH]; intros r r'; [by intros [= <-]|]. simpl. intros Hs. apply bind_Some in Hs as (r1 & H1 & H2%IH). eapply unread_trans; [|exact H2].
  destruct (readRounds r !! i) as [round|]; [|by injection H1 as <-]. destruct (rr_started round); [by eapply bcastAppend_unread|by injection H1 as <-].
Qed.

(** ** Rounds *)

(** A round with enough confirmations becomes an answer. *)
Lemma complete_reading S r j round : reading S r -> readRounds r !! j = Some round -> rr_started round = true -> (quorum r <= size (rr_acks round))%nat -> reading S (completeReadRound r j).
Proof.
  intros Hr Hj Hst Hq. rewrite (reading_quorum _ _ Hr) in Hq. unfold completeReadRound. rewrite Hj. destruct Hr as [A1 A2 A3 A4]. split; [done|done| |]; simpl.
  - intros round' Hd. apply lookup_delete_Some in Hd as [_ Hd]. by destruct (A3 round' Hd).
  - intros rs [Hrs|Hrs]%elem_of_app Hk; [by apply A4|]. apply list_elem_of_singleton in Hrs as ->. simpl in *. subst j. destruct (A3 round Hj) as [_ _ _ B]. destruct (B Hst) as [C D]. split; [done|]. by exists (rr_acks round).
Qed.

(** A round that changes keeps the request. *)
Lemma insert_reading S r j round : reading S r -> (j = k -> round_ok S r round) -> reading S (set_readRounds r (<[j := round]> (readRounds r))).
Proof.
  intros [A1 A2 A3 A4] Hj. split; [done|done| |done]. simpl. intros round' Hr. destruct (decide (j = k)) as [->|Hne].
  - rewrite lookup_insert_eq in Hr. injection Hr as <-. by destruct (Hj eq_refl).
  - rewrite lookup_insert_ne in Hr by done. by destruct (A3 round' Hr).
Qed.

Lemma startReadRound_reading S r j r' : startReadRound r j = Some r' -> reading S r -> reading S r'.
Proof.
  unfold startReadRound. intros Hs Hr. destruct (readRounds r !! j) as [round|] eqn:Ej; [|by injection Hs as <-]. destruct (rr_started round); [by injection Hs as <-|].
  apply bind_Some in Hs as (c & _ & Hs). destruct (negb c); [by injection Hs as <-|].
  assert (reading S (set_readRounds r (<[j := mkReadRound (CommitIndex (hardState r)) true {[id r]}]> (readRounds r)))) as H1.
  { apply insert_reading; [done|]. intros ->. destruct (rd_round _ _ Hr _ Ej) as [B1 B2 B3 _]. split; [done..|]. intros _. rewrite (rd_id _ _ Hr). simpl. split; [lia|set_solver]. }
  case_match eqn:Eq.
  - injection Hs as <-. eapply complete_reading; [exact H1|simpl; apply lookup_insert_eq|done|]. by apply Nat.leb_le.
  - eapply reading_unread; [by eapply bcastAppend_unread|exact H1].
Qed.

Lemma start_rounds_reading S ids : forall r r', start_rounds r ids = Some r' -> reading S r -> reading S r'.
Proof. induction ids as [|i ids IH]; intros r r'; [by intros [= <-]|]. simpl. intros Hs Hr. apply bind_Some in Hs as (r1 & H1 & H2). eapply IH; [exact H2|]. by eapply startReadRound_reading. Qed.

Lemma commitTo_reading S r index r' : commitTo r index = Some r' -> reading S r -> reading S r'.
Proof.
  unfold commitTo. destruct (Z.ltb_spec (CommitIndex (hardState r)) index); [|by intros [= <-]]. intros Hs Hr. apply bind_Some in Hs as (r1 & H1%emit_loop_unread & Hs).
  assert (reading S r1) as Hr1. { eapply reading_unread; [exact H1|]. eapply reading_keep; [exact Hr|..]; try done; [simpl; lia|by right]. }
  unfold startPendingReadRounds in Hs. destruct (state r1); [by injection Hs as <-..|]. apply bind_Some in Hs as (c & _ & Hs). destruct (negb c); [by injection Hs as <-|]. by eapply start_rounds_reading.
Qed.

Lemma maybeCommit_reading S r r' : maybeCommit r = Some r' -> reading S r -> reading S r'.
Proof. unfold maybeCommit. intros Hs. apply bind_Some in Hs as (mci & _ & Hs). apply bind_Some in Hs as (c & _ & Hs). destruct c; [by eapply commitTo_reading|by injection Hs as <-]. Qed.

Lemma appendEntry_reading S r data r' : appendEntry r data = Some r' -> reading S r -> reading S r'.
Proof.
  unfold appendEntry. intros Hs Hr. apply bind_Some in Hs as (r1 & H1%set_progress_unread & Hs). apply bind_Some in Hs as (r2 & H2%bcastAppend_unread & H3).
  eapply maybeCommit_reading; [exact H3|]. eapply reading_unread; [exact H2|]. eapply reading_unread; [exact H1|]. eapply reading_keep; [exact Hr|..]; try done; by right.
Qed.

(** Only a peer that confirms the request is counted. *)
Lemma ackReadRound_reading S r j from : (j = k -> Term (hardState r) = T -> from ∈ S) -> reading S r -> reading S (ackReadRound r j from).
Proof.
  intros Hf Hr. unfold ackReadRound. destruct (_ || _); [done|]. destruct (prs r !! from); [|done]. destruct (readRounds r !! j) as [round|] eqn:Ej; [|done]. destruct (rr_started round) eqn:Est; [|done]. simpl.
  assert (reading S (set_readRounds r (<[j := mkReadRound (rr_index round) true ({[from]} ∪ rr_acks round)]> (readRounds r)))) as H1.
  { apply insert_reading; [done|]. intros ->. destruct (rd_round _ _ Hr _ Ej) as [B1 B2 B3 B4]. split; [done..|]. intros _. simpl. destruct (B4 Est). specialize (Hf eq_refl B2). set_solver. }
  case_match eqn:Eq; [|done]. eapply complete_reading; [exact H1|simpl; apply lookup_insert_eq|done|]. by apply Nat.leb_le.
Qed.

(** ** Roles and messages *)

Lemma becomeFollower_reading S r term lead : reading S r -> reading S (becomeFollower r term lead).
Proof. intros Hr. eapply reading_keep; [exact Hr|..]; unfold becomeFollower; simpl; destruct (_ <? _); try done; by left. Qed.

Lemma becomeLeader_reading S r r' : becomeLeader r = Some r' -> state r <> StateLeader -> reading S r -> reading S r'.
Proof.
  unfold becomeLeader. intros Hs Hl Hr. eapply appendEntry_reading; [exact Hs|]. eapply reading_keep; [exact Hr|..]; try done; [simpl; by rewrite dom_fmap_L|]. left. simpl.
  destruct (readRounds r !! k) as [round|] eqn:E; [|done]. by destruct (rd_round _ _ Hr _ E).
Qed.

Lemma campaign_loop_unread ids : forall r, unread r (campaign_loop r ids).
Proof. induction ids as [|to ids IH]; intros r; [done|]. simpl. destruct (to =? id r); [apply IH|]. eapply unread_trans; [|apply IH]. by apply send_unread. Qed.

Lemma campaign_reading S r r' : campaign r = Some r' -> reading S r -> reading S r'.
Proof.
  unfold campaign. intros Hs Hr. assert (reading S (becomeCandidate r)) as H1 by (eapply reading_keep; [exact Hr|..]; try done; by left).
  destruct (_ =? _)%nat; [by eapply becomeLeader_reading|]. injection Hs as <-. by eapply reading_unread; [apply campaign_loop_unread|].
Qed.

Lemma handleVote_reading S r m : reading S r -> reading S (handleVote r m).
Proof. intros Hr. unfold handleVote. destruct (canVote r m); (eapply reading_keep; [exact Hr|..]; try done; by right). Qed.

Lemma handleVoteResp_reading S r m r' : handleVoteResp r m = Some r' -> state r <> StateLeader -> reading S r -> reading S r'.
Proof.
  unfold handleVoteResp. intros Hs Hl Hr. assert (reading S (set_votes r (<[m_from m := negb (m_reject m)]> (votes r)))) as H1 by (eapply reading_keep; [exact Hr|..]; try done; by right).
  destruct (_ <=? _)%nat; [by eapply becomeLeader_reading|]. destruct (_ <=? _)%nat; injection Hs as <-; [by apply becomeFollower_reading|done].
Qed.

Lemma append_entries_reading S r m term r' : append_entries r m term = Some r' -> reading S r -> reading S r'.
Proof.
  unfold append_entries. intros Hs Hr. destruct (_ <? _); [injection Hs as <-; eapply reading_unread; [by apply send_unread|done]|]. apply bind_Some in Hs as (t & _ & Hs). destruct (negb _).
  - apply bind_Some in Hs as (first & _ & Hs). apply bind_Some in Hs as (l & _ & [= <-]). eapply reading_unread; [by apply send_unread|]. eapply reading_keep; [exact Hr|..]; try done; by right.
  - apply bind_Some in Hs as (r2 & H2 & Hs). apply bind_Some in Hs as (r3 & H3 & [= <-]). eapply reading_unread; [by apply send_unread|]. assert (reading S r2) as Hr2.
    { case_bool_decide; [by injection H2 as <-|]. apply bind_Some in H2 as (l & _ & [= <-]). eapply reading_keep; [exact Hr|..]; try done; by right. }
    destruct (_ <? _); [by eapply commitTo_reading|by injection H3 as <-].
Qed.

Lemma handleAppend_reading S r m r' : handleAppend r m = Some r' -> reading S r -> reading S r'.
Proof.
  unfold handleAppend. intros Hs Hr. destruct (_ <? _); [injection Hs as <-; eapply reading_unread; [by apply send_unread|done]|]. eapply append_entries_reading; [exact Hs|by apply becomeFollower_reading].
Qed.

Lemma handleAppendResp_reading S r m r' : (m_readId m = k -> m_term m = T -> m_from m ∈ S) -> handleAppendResp r m = Some r' -> reading S r -> reading S r'.
Proof.
  intros Hf. unfold handleAppendResp. intros Hs Hr. destruct (prs r !! m_from m) as [pr|]; [|by injection Hs as <-]. destruct (Z.eqb_spec (m_term m) (Term (hardState r))) as [Et|]; [|by injection Hs as <-]. simpl in Hs.
  apply bind_Some in Hs as ([a b] & _ & Hs). apply bind_Some in Hs as (r1 & H1%set_progress_unread & H2). eapply maybeCommit_reading; [exact H2|]. eapply reading_unread; [exact H1|].
  apply ackReadRound_reading; [|done]. intros Hk Ht. apply Hf; congruence.
Qed.

Lemma handleSnapshotResp_reading S r m : (m_readId m = k -> m_term m = T -> m_from m ∈ S) -> reading S r -> reading S (handleSnapshotResp r m).
Proof.
  intros Hf Hr. unfold handleSnapshotResp. destruct (Z.eqb_spec (m_term m) (Term (hardState r))) as [Et|]; [|done]. simpl.
  assert (reading S (ackReadRound r (m_readId m) (m_from m))) as H1 by (apply ackReadRound_reading; [intros; apply Hf; congruence|done]).
  destruct (m_reject m); [done|]. destruct (prs _ !! m_from m) eqn:E; [|done]. eapply reading_keep; [exact H1|..]; try done; [|by right]. simpl. rewrite dom_insert_L. apply elem_of_dom_2 in E. set_solver.
Qed.

Lemma handleSnapshot_reading S r m : reading S r -> reading S (handleSnapshot r m).
Proof.
  intros Hr. unfold handleSnapshot. destruct (m_snapshot m) as [snap|]; [|eapply reading_unread; [by apply send_unread|done]]. destruct (_ <? _); [eapply reading_unread; [by apply send_unread|done]|].
  destruct (_ <=? _); [eapply reading_unread; [by apply send_unread|done]|]. eapply reading_unread; [by apply send_unread|]. apply (becomeFollower_reading _ _ (m_term m) (m_from m)) in Hr.
  assert (readRounds (becomeFollower r (m_term m) (m_from m)) = ∅) as He by done. generalize dependent (becomeFollower r (m_term m) (m_from m)). intros r1 Hr1 He.
  unfold RestoreSnapshot. destruct (s_index snap =? 0); [eapply reading_keep; [exact Hr1|..]; try done; by right|]. simpl. unfold u64_max.
  eapply reading_keep; [exact Hr1|..]; destruct (Z.ltb_spec (CommitIndex (hardState r1)) (s_index snap)), (_ <? _); simpl; try done; try lia; left; by rewrite He.
Qed.

Lemma stepLeader_reading S r m r' : (confirms (Receives m) = Some (m_from m) -> m_from m ∈ S) -> stepLeader r m = Some r' -> reading S r -> reading S r'.
Proof.
  intros Hf. unfold stepLeader, confirms in *. destruct (m_type m); try (by intros [= <-]); [apply handleAppendResp_reading|intros [= <-]; apply handleSnapshotResp_reading];
    intros <- <-; apply Hf; by rewrite !Z.eqb_refl.
Qed.

Lemma Step_reading S r m r' : (confirms (Receives m) = Some (m_from m) -> m_from m ∈ S) -> Step r m = Some r' -> reading S r -> reading S r'.
Proof.
  intros Hf Hs Hr. unfold Step in Hs. set (r1 := if _ <? _ then _ else r) in Hs. assert (reading S r1) as H1 by (unfold r1; destruct (_ <? _); [by apply becomeFollower_reading|done]).
  clearbody r1. destruct (IsLocalMsg (m_type m)).
  - destruct (m_type m), (state r1); try (by injection Hs as <-); try (by eapply campaign_reading); eapply reading_unread; [by eapply bcastAppend_unread|done].
  - destruct (state r1) eqn:Es; [| |by eapply stepLeader_reading]; unfold stepFollower, stepCandidate in Hs;
      destruct (m_type m); try (by injection Hs as <-); try (by eapply handleAppend_reading); try (injection Hs as <-; by apply handleVote_reading || by apply handleSnapshot_reading).
    eapply handleVoteResp_reading; [done|by rewrite Es|done].
Qed.

(** Every call keeps the request, and adds at most the peer that confirms it. *)
Lemma node_do_reading S r i r' : i <> Reads k -> (forall p, confirms i = Some p -> p ∈ S) -> node_do r i = Some r' -> reading S r -> reading S r'.
Proof.
  intros Hi Hf Hd Hr. destruct i as [jitter|m|data|j|j|index data|]; cbn [node_do] in Hd.
  - unfold Tick in Hd. destruct (state r).
    1,2: apply bind_Some in Hd as (u & _ & Hd); destruct (_ <=? _); [eapply campaign_reading; [exact Hd|]|injection Hd as <-]; (eapply reading_keep; [exact Hr|..]; try done; by right).
    destruct (_ <=? _); [|injection Hd as <-; eapply reading_keep; [exact Hr|..]; try done; by right]. apply bind_Some in Hd as (r1 & H1%bcastAppend_unread & H2%retry_rounds_unread).
    eapply reading_unread; [exact H2|]. eapply reading_unread; [exact H1|]. eapply reading_keep; [exact Hr|..]; try done; by right.
  - eapply Step_reading; [|exact Hd|exact Hr]. intros Hc. by apply Hf.
  - apply fmap_Some in Hd as ([r1 b] & Hp & ->). unfold Propose in Hp. destruct (state r); [by injection Hp as <- _..|]. apply bind_Some in Hp as (r2 & H2 & [= <- _]). by eapply appendEntry_reading.
  - apply fmap_Some in Hd as ([r1 b] & Hp & ->). unfold ReadIndex in Hp. destruct (state r); [by injection Hp as <- _..|]. destruct (j =? 0); [by injection Hp as <- _|]. destruct (readRounds r !! j); [by injection Hp as <- _|].
    apply bind_Some in Hp as (r2 & H2 & [= <- _]). eapply startReadRound_reading; [exact H2|]. apply insert_reading; [done|]. intros ->. done.
  - injection Hd as <-. destruct Hr as [A1 A2 A3 A4]. split; [done|done| |done]. simpl. intros round [_ Hd]%lookup_delete_Some. by destruct (A3 round Hd).
  - pose proof (TakeSnapshot_quiet _ _ _ _ Hd) as Hq. eapply reading_unread; [|exact Hr]. split; [done|]. unfold TakeSnapshot in Hd. destruct (_ <=? _); [by injection Hd as <-|].
    apply bind_Some in Hd as (t & _ & Hd). apply bind_Some in Hd as (l & _ & [= <-]). simpl. by destruct (state r).
  - injection Hd as <-. destruct Hr as [A1 A2 A3 A4]. split; [done|done| |].
    + simpl. intros round Hd. by destruct (A3 round Hd).
    + simpl. intros rs Hrs. by apply elem_of_nil in Hrs.
Qed.
End reading.

(** ** Calls in sequence *)

Fixpoint node_calls `{RangeOrder} (r : Raft) (calls : list input) : option Raft :=
  match calls with
  | [] => Some r
  | i :: calls => r ← node_do r i; node_calls r calls
  end.

Lemma node_calls_reading `{RangeOrder} n k T floor members S calls : forall r r', Reads k ∉ calls -> (forall i p, i ∈ calls -> confirms k T i = Some p -> p ∈ S) -> node_calls r calls = Some r' ->
  reading n k T floor members S r -> reading n k T floor members S r'.
Proof.
  induction calls as [|i calls IH]; intros r r' Hn Hs Hc Hr; [by injection Hc as <-|]. simpl in Hc. apply bind_Some in Hc as (r1 & H1 & H2). apply not_elem_of_cons in Hn as [Hi Hn].
  eapply IH; [done| |exact H2|].
  - intros j p Hj. apply Hs. by right.
  - eapply node_do_reading; [by apply not_eq_sym| |exact H1|exact Hr]. intros p. apply Hs. left.
Qed.

(** C0. A linearizable read is fresh and confirmed.  When a leader answers the request
    [k], the index of the answer is at least the commit index when the request was
    made and is committed, and the leader together with peers that answered this
    request in the leader's term is a quorum. *)
Theorem read_confirmed `{RangeOrder} k calls r0 r1 r2 rs :
  (forall rs, rs ∈ readStates r0 -> rs_readID rs <> k) -> ReadIndex r0 k = Some (r1, true) -> Reads k ∉ calls -> node_calls r1 calls = Some r2 -> rs ∈ readStates r2 -> rs_readID rs = k ->
  CommitIndex (hardState r0) <= rs_index rs <= CommitIndex (hardState r2) /\
  exists Q : gset Z, (quorum r0 <= size Q)%nat /\ Q ⊆ list_to_set (omap (confirms k (Term (hardState r0))) calls) ∪ {[id r0]}.
Proof.
  intros Hf Hk Hn Hc Hrs Hid. unfold ReadIndex in Hk. destruct (state r0) eqn:Es; [done..|]. destruct (k =? 0); [done|]. destruct (readRounds r0 !! k) eqn:Ek; [done|]. apply bind_Some in Hk as (r & Hst & [= <-]).
  set (S := list_to_set (omap (confirms k (Term (hardState r0))) calls) : gset Z).
  assert (reading (id r0) k (Term (hardState r0)) (CommitIndex (hardState r0)) (dom (prs r0)) S (set_readRounds r0 (<[k := mkReadRound 0 false ∅]> (readRounds r0)))) as Hr.
  { split; [done|done| |]; simpl.
    - intros round Hl. rewrite lookup_insert_eq in Hl. injection Hl as <-. split; [done|done|simpl; lia|done].
    - intros rs' Hrs' Hk'. by destruct (Hf rs' Hrs'). }
  eapply startReadRound_reading in Hr; [|exact Hst]. eapply node_calls_reading in Hr; [|exact Hn| |exact Hc].
  - destruct (rd_answer _ _ _ _ _ _ _ Hr rs Hrs Hid) as (A & Q & B & C). split; [done|]. exists Q. split; [|done]. unfold quorum. by rewrite <- size_dom.
  - intros i p Hi Hp. unfold S. apply elem_of_list_to_set, list_elem_of_omap. eauto.
Qed.

(** A leader that has committed an entry of its term. *)
Definition committed_leader : Raft :=
  mkRaft 1 StateLeader 1 (mkHardState 1 1 1) (mkRaftLog [mkEntry 0 0 []; mkEntry 1 1 []] 0) {[1 := mkProgress 1 2; 2 := mkProgress 1 2; 3 := mkProgress 0 1]}
    ∅ [] 0 0 10 2 None None [] None [] [] ∅ 1.

(** The answer of peer 2 to the append message of request 7. *)
Definition confirmation : input := Receives (mkMessage MsgAppResp 2 1 1 0 1 0 [] false 7 None).

Lemma read_confirmed_witness : exists r1 r2 rs, @ReadIndex key_order committed_leader 7 = Some (r1, true) /\ readStates r1 = [] /\ @node_calls key_order r1 [confirmation] = Some r2 /\ readStates r2 = [rs] /\
  (1 <= rs_index rs <= CommitIndex (hardState r2) /\ exists Q : gset Z, (quorum committed_leader <= size Q)%nat /\ Q ⊆ list_to_set (omap (confirms 7 1) [confirmation]) ∪ {[1]}).
Proof.
  do 3 eexists. split; [vm_compute; reflexivity|]. split; [reflexivity|]. split; [vm_compute; reflexivity|]. split; [reflexivity|].
  eapply (@read_confirmed key_order 7 [confirmation] committed_leader).
  - intros rs Hrs. by apply elem_of_nil in Hrs.
  - vm_compute. reflexivity.
  - by intros [?|?%elem_of_nil]%elem_of_cons.
  - vm_compute. reflexivity.
  - left.
  - reflexivity.
Defined.
