(* ===== verification/RaftCluster.v ===== *)
(** A cluster of Raft nodes (raft/raft.go) over a network that delays, reorders and
    repeats messages: election safety where it holds, and the runs that break
    election safety and state machine safety where they do not. *)
From S2P Require Import Prelude RaftLog Raft RaftNode.

(** ** Clusters *)

(** The network keeps every message that was ever sent. *)
Record Cluster := mkCluster { c_nodes : gmap Z Raft; c_network : list Message }.

Inductive action :=
  | Local (n : Z) (i : input)    (* a call of node [n] that is not a message of a peer *)
  | Flush (n : Z)                (* the messages of [n] go to the network, [Advance] *)
  | Deliver (k : nat).           (* the [k]-th message reaches its node *)

Definition local_input (i : input) : bool := match i with Receives m => IsLocalMsg (m_type m) && (m_term m =? 0) | _ => true end.

(** A vote response is prompt when the term it was given in has not passed. *)
Definition prompt (r : Raft) (m : Message) : bool := match m_type m with MsgVoteResp => Term (hardState r) <=? m_term m | _ => true end.

(** [strict] networks deliver only prompt vote responses.  A run in which a term
    reaches the largest number is not considered. *)
Definition cluster_do `{RangeOrder} (strict : bool) (c : Cluster) (a : action) : option Cluster :=
  match a with
  | Local n i =>
      r ← c_nodes c !! n;
      _ ← assert_that (local_input i && (Term (hardState r) <? kUint64Max));
      r ← node_do r i;
      Some (mkCluster (<[n := r]> (c_nodes c)) (c_network c))
  | Flush n =>
      r ← c_nodes c !! n;
      Some (mkCluster (<[n := Advance r]> (c_nodes c)) (c_network c ++ rd_messages (ready r)))
  | Deliver k =>
      m ← c_network c !! k;
      r ← c_nodes c !! m_to m;
      _ ← assert_that ((negb strict || prompt r m) && (Term (hardState r) <? kUint64Max));
      r ← Step r m;
      Some (mkCluster (<[m_to m := r]> (c_nodes c)) (c_network c))
  end.

Fixpoint cluster_run `{RangeOrder} (strict : bool) (c : Cluster) (acts : list action) : option Cluster :=
  match acts with
  | [] => Some c
  | a :: acts => c ← cluster_do strict c a; cluster_run strict c acts
  end.

(** New nodes that know the same members. *)
Definition start (members : list Z) (election heartbeat : Z) : Cluster :=
  mkCluster (list_to_map (map (fun n => (n, NewRaft (mkConfig n members election heartbeat))) members)) [].

(** ** Votes *)

(** A vote: who, in which term, for whom. *)
Notation vote := (Z * Z * Z)%type.

Definition cast (V : gset vote) (r : Raft) : gset vote :=
  if Vote (hardState r) =? 0 then V else {[(id r, Term (hardState r), Vote (hardState r))]} ∪ V.

(** Messages come from members, and a granted response tells of a vote. *)
Definition tells (members : gset Z) (V : gset vote) (m : Message) : Prop :=
  m_from m ∈ members /\ IsLocalMsg (m_type m) = false /\ (m_type m = MsgVoteResp -> m_reject m = false -> (m_from m, m_term m, m_to m) ∈ V).

(** What the votes [V] cast so far say about a node. *)
Record node_ok (members : gset Z) (V : gset vote) (r : Raft) : Prop := {
  no_id : id r ∈ members;
  no_members : dom (prs r) = members;
  no_term : 0 <= Term (hardState r);
  no_cast : Vote (hardState r) <> 0 -> (id r, Term (hardState r), Vote (hardState r)) ∈ V;
  no_past : forall t v, (id r, t, v) ∈ V -> t < Term (hardState r) \/ (t = Term (hardState r) /\ v = Vote (hardState r));
  no_candidate : state r = StateCandidate -> forall v, votes r !! v = Some true -> (v, Term (hardState r), id r) ∈ V;
  no_leader : state r = StateLeader -> exists Q : gset Z, (size members / 2 < size Q)%nat /\ forall v, v ∈ Q -> (v, Term (hardState r), id r) ∈ V;
  no_messages : Forall (tells members V) (msgs r);
}.

Record votes_ok (members : gset Z) (V : gset vote) : Prop := {
  vo_members : forall n t v, (n, t, v) ∈ V -> n ∈ members /\ v <> 0;
  vo_once : forall n t v v', (n, t, v) ∈ V -> (n, t, v') ∈ V -> v = v';
}.

Record cluster_ok (members : gset Z) (V : gset vote) (c : Cluster) : Prop := {
  co_ids : forall n r, c_nodes c !! n = Some r -> id r = n;
  co_nodes : forall n r, c_nodes c !! n = Some r -> node_ok members V r;
  co_network : Forall (tells members V) (c_network c);
  co_votes : votes_ok members V;
}.

Lemma quorums_meet (members Q Q' : gset Z) : Q ⊆ members -> Q' ⊆ members -> (size members / 2 < size Q)%nat -> (size members / 2 < size Q')%nat -> exists v, v ∈ Q /\ v ∈ Q'.
Proof.
  intros HQ HQ' H1 H2. destruct (decide (Q ## Q')) as [Hd|Hd].
  - pose proof (size_union Q Q' Hd) as Hs. assert (size (Q ∪ Q') <= size members)%nat by (apply subseteq_size; set_solver). pose proof (Nat.div_mod_eq (size members) 2). pose proof (Nat.mod_upper_bound (size members) 2). lia.
  - destruct (set_choose_or_empty (Q ∩ Q')) as [[v Hv]|He]; [exists v; set_solver|]. exfalso. apply Hd. set_solver.
Qed.

(** ** Votes grow *)

Lemma tells_mono members V V' ms : V ⊆ V' -> Forall (tells members V) ms -> Forall (tells members V') ms.
Proof. intros Hs. rewrite !Forall_elem. intros Hms m Hm. destruct (Hms m Hm) as (H1 & H2 & H3). split_and!; [done|done|]. intros E1 E2. by apply Hs, H3. Qed.

Lemma cast_mono V r : V ⊆ cast V r.
Proof. unfold cast. destruct (_ =? 0); set_solver. Qed.

Lemma cast_own V r : Vote (hardState r) <> 0 -> (id r, Term (hardState r), Vote (hardState r)) ∈ cast V r.
Proof. intros Hv. unfold cast. rewrite (proj2 (Z.eqb_neq _ _)) by done. set_solver. Qed.

Lemma cast_inv V r n t v : (n, t, v) ∈ cast V r -> (n, t, v) ∈ V \/ (n = id r /\ t = Term (hardState r) /\ v = Vote (hardState r) /\ v <> 0).
Proof. unfold cast. destruct (Z.eqb_spec (Vote (hardState r)) 0); [by left|]. rewrite elem_of_union, elem_of_singleton. intros [[= -> -> ->]|]; [right; auto|by left]. Qed.

(** A node that grew casts at most the one vote. *)
Lemma grown_votes members V r r' : votes_ok members V -> node_ok members V r -> grows r r' -> votes_ok members (cast V r').
Proof.
  intros [V1 V2] [N1 N2 N3 N4 N5 _ _ _] [G1 G2 _ G4]. split.
  - intros n t v [Hin|(-> & _ & _ & Hv)]%cast_inv; [by eapply V1|]. split; [by rewrite G1|done].
  - assert (forall t v, (id r', t, v) ∈ V -> t = Term (hardState r') -> v = Vote (hardState r')) as Hown.
    { intros t v Hin Et. rewrite G1 in Hin. destruct (V1 _ _ _ Hin) as [_ Hv0]. destruct (N5 t v Hin) as [Hlt|[E1 E2]]; [lia|]. destruct G4 as [|[_ [|]]]; [lia|congruence|congruence]. }
    intros n t v v' [Hin|(-> & -> & -> & Hv)]%cast_inv [Hin'|(E1 & E2 & E3 & Hv')]%cast_inv; [by eapply V2|..|congruence].
    + subst. eapply Hown; [exact Hin|done].
    + symmetry. eapply Hown; [exact Hin'|done].
Qed.

(** The evidence a role needs. *)
Record role_ok (members : gset Z) (V : gset vote) (r : Raft) : Prop := {
  ro_candidate : state r = StateCandidate -> forall v, votes r !! v = Some true -> (v, Term (hardState r), id r) ∈ V;
  ro_leader : state r = StateLeader -> exists Q : gset Z, (size members / 2 < size Q)%nat /\ forall v, v ∈ Q -> (v, Term (hardState r), id r) ∈ V;
  ro_messages : Forall (tells members V) (msgs r);
}.

Lemma node_role members V r : node_ok members V r -> role_ok members V r.
Proof. by intros []. Qed.

Lemma role_mono members V V' r : V ⊆ V' -> role_ok members V r -> role_ok members V' r.
Proof. intros Hs [R1 R2 R3]. split; [eauto| |by eapply tells_mono]. intros Hl. destruct (R2 Hl) as (Q & ? & HQ). exists Q. eauto. Qed.

Lemma grown_node members V r r' : votes_ok members V -> node_ok members V r -> grows r r' -> role_ok members (cast V r') r' -> node_ok members (cast V r') r'.
Proof.
  intros [V1 _] [N1 N2 N3 N4 N5 _ _ _] [G1 G2 G3 G4] [R1 R2 R3]. split; try done.
  - by rewrite G1.
  - by rewrite G2.
  - lia.
  - apply cast_own.
  - intros t v [Hin|(_ & -> & -> & _)]%cast_inv; [|by right]. rewrite G1 in Hin. destruct (V1 _ _ _ Hin) as [_ Hv]. destruct (N5 t v Hin) as [|[E1 E2]]; [left; lia|].
    destruct G4 as [|[E3 [E4|E4]]]; [left; lia|congruence|right; split; congruence].
Qed.

(** Other nodes do not notice. *)
Lemma other_node members V r r' : id r <> id r' -> node_ok members V r -> node_ok members (cast V r') r.
Proof.
  intros Hne [N1 N2 N3 N4 N5 N6 N7 N8]. pose proof (role_mono _ _ _ r (cast_mono V r') (Build_role_ok _ _ _ N6 N7 N8)) as [R1 R2 R3]. split; try done.
  - intros Hv. by apply cast_mono, N4.
  - intros t v [Hin|(E & _)]%cast_inv; [by apply N5|done].
Qed.

(** ** Methods and the evidence *)

Lemma quiet_role members V r r' : id r ∈ members -> quiet r r' -> role_ok members V r -> role_ok members V r'.
Proof.
  intros Hid [Q1 Q2 Q3 Q4 _ Q6 _ (ms & Q8 & Q9)] [R1 R2 R3]. split; rewrite ?Q1, ?Q2, ?Q3, ?Q6; try done. rewrite Q8. apply Forall_app. split; [done|]. rewrite Forall_elem in Q9 |- *.
  intros m Hm. destruct (Q9 m Hm) as (Ht & Hf & Hloc). split_and!; [by rewrite Hf|done|done].
Qed.

Lemma becomeFollower_role members V r term lead : role_ok members V r -> role_ok members V (becomeFollower r term lead).
Proof. intros [_ _ R3]. unfold becomeFollower. simpl. destruct (_ <? term); by split. Qed.

Lemma becomeFollower_state r term lead : state (becomeFollower r term lead) = StateFollower.
Proof. unfold becomeFollower. simpl. by destruct (_ <? term). Qed.

Section roles.
Context `{RangeOrder} (members : gset Z) (Hzero : 0 ∉ members).

Lemma becomeLeader_role V r r' : id r ∈ members -> becomeLeader r = Some r' -> Forall (tells members V) (msgs r) ->
  (exists Q : gset Z, (size members / 2 < size Q)%nat /\ forall v, v ∈ Q -> (v, Term (hardState r), id r) ∈ V) -> role_ok members V r'.
Proof. intros Hid Hl%becomeLeader_step Hm HQ. eapply quiet_role; [|exact Hl|]; [done|]. by split. Qed.

Lemma campaign_role V r r' : id r ∈ members -> dom (prs r) = members -> 0 <= Term (hardState r) < kUint64Max -> campaign r = Some r' -> role_ok members V r -> role_ok members (cast V r') r'.
Proof.
  intros Hid Hd Ht Hc [_ _ R3]. unfold campaign in Hc. set (r1 := becomeCandidate r) in *. assert (id r <> 0) as Hnz by (intros E; rewrite E in Hid; done).
  assert (Vote (hardState r1) = id r1 /\ id r1 = id r) as [Ev Ei] by done.
  assert (forall r2, quiet r2 r' -> id r2 = id r1 -> hardState r2 = hardState r1 -> (id r1, Term (hardState r1), id r1) ∈ cast V r') as Hown.
  { intros r2 [Q1 _ Q3 Q4 _ _ _ _] E1 E2. pose proof (cast_own V r') as Hc'. rewrite Q1, Q3, Q4, E1, E2, Ev in Hc'. apply Hc'. by rewrite Ei. }
  destruct (Nat.eqb_spec (size (prs r1)) 1) as [E|_].
  - eapply becomeLeader_role; [|exact Hc|by eapply tells_mono, R3; apply cast_mono|]; [done|]. exists {[id r1]}. rewrite size_singleton. split.
    + assert (size members = 1%nat) as ->; [|cbn; lia]. rewrite <- Hd, size_dom. done.
    + intros v ->%elem_of_singleton. exact (Hown _ (becomeLeader_step _ _ Hc) eq_refl eq_refl).
  - injection Hc as <-. pose proof (campaign_loop_quiet (keys (prs r1)) r1) as Hq. eapply quiet_role; [|exact Hq|]; [done|]. split; [|done|by eapply tells_mono, R3; apply cast_mono].
    intros _ v Hv. assert (v = id r1) as ->; [|exact (Hown _ Hq eq_refl eq_refl)]. change (({[id r := true]} : gmap Z bool) !! v = Some true) in Hv. by apply lookup_singleton_Some in Hv as [<- _].
Qed.

Lemma handleVote_role V r m : id r ∈ members -> m_from m ∈ members -> role_ok members V r -> role_ok members (cast V (handleVote r m)) (handleVote r m).
Proof.
  intros Hid Hf Hr. pose proof (role_mono _ _ _ r (cast_mono V (handleVote r m)) Hr) as [R1 R2 R3].
  assert (canVote r m = true -> (id r, Term (hardState r), m_from m) ∈ cast V (handleVote r m)) as Hcast.
  { intros E. unfold cast, handleVote. rewrite E. simpl. rewrite (proj2 (Z.eqb_neq _ _)) by (intros E0; by rewrite E0 in Hf). set_solver. }
  generalize dependent (cast V (handleVote r m)). intros V' R1 R2 R3 Hcast. unfold handleVote. destruct (canVote r m) eqn:E; (split; [done|done|]; simpl; apply Forall_app; split; [done|]; apply Forall_singleton; split_and!; [done|done|]); [|done].
  intros _ _. by apply Hcast.
Qed.

(** Counting the votes in the map. *)
Lemma count_votes_size (votes : gmap Z bool) : count_votes true votes = size (dom (filter (fun kv => kv.2 = true) votes)).
Proof.
  unfold count_votes. rewrite size_dom, <- length_map_to_list. apply Permutation_length. apply NoDup_Permutation; [apply list.NoDup_filter, NoDup_map_to_list|apply NoDup_map_to_list|].
  intros [k b]. rewrite list_elem_of_filter, !elem_of_map_to_list, map_lookup_filter_Some. naive_solver.
Qed.

Lemma handleVoteResp_role V r m r' : id r ∈ members -> dom (prs r) = members -> state r = StateCandidate -> m_term m = Term (hardState r) -> m_to m = id r -> m_type m = MsgVoteResp -> tells members V m ->
  handleVoteResp r m = Some r' -> role_ok members V r -> role_ok members V r'.
Proof.
  intros Hid Hd Hst Ht Hto Hty (_ & _ & Htell) Hh [R1 R2 R3]. unfold handleVoteResp in Hh. set (r1 := set_votes r _) in *.
  assert (forall v, votes r1 !! v = Some true -> (v, Term (hardState r), id r) ∈ V) as Hvotes.
  { intros v. simpl. destruct (decide (v = m_from m)) as [->|Hne]; [|rewrite lookup_insert_ne by done; by apply R1]. rewrite lookup_insert_eq. intros [= E]. rewrite <- Ht, <- Hto. apply Htell; [done|]. by destruct (m_reject m). }
  destruct (Nat.leb_spec (quorum r1) (count_votes true (votes r1))) as [Hq|_].
  - eapply becomeLeader_role; [|exact Hh|exact R3|]; [done|]. exists (dom (filter (fun kv => kv.2 = true) (votes r1))). rewrite <- count_votes_size. split.
    + assert (quorum r1 = (size members / 2 + 1)%nat) as Eq by (by rewrite <- Hd, size_dom). lia.
    + intros v Hv. apply elem_of_dom in Hv as [b Hb]. apply map_lookup_filter_Some in Hb as [Hb E]. simpl in E. subst. by apply Hvotes.
  - destruct (_ <=? _)%nat; injection Hh as <-; [by apply becomeFollower_role|]. split; [by intros _|intros E; change (state r = StateLeader) in E; congruence|done].
Qed.

Lemma handleAppend_role V r m r' : id r ∈ members -> handleAppend r m = Some r' -> role_ok members V r -> role_ok members V r'.
Proof.
  intros Hid Hh Hr. unfold handleAppend in Hh. destruct (_ <? _); [injection Hh as <-; by eapply quiet_role; [|by apply send_quiet|]|].
  eapply quiet_role; [|by eapply append_entries_quiet|by apply becomeFollower_role]. by rewrite (g_id _ _ (becomeFollower_grows r (m_term m) (m_from m))).
Qed.

Lemma RestoreSnapshot_role V r snap : state r = StateFollower -> role_ok members V r -> role_ok members V (RestoreSnapshot r snap).
Proof.
  intros Hs [_ _ R3]. assert (state (RestoreSnapshot r snap) = state r /\ msgs (RestoreSnapshot r snap) = msgs r) as (F2 & F3).
  { unfold RestoreSnapshot. destruct (_ =? 0); [done|]. simpl. by destruct (_ <? _). }
  split; rewrite ?F2, ?Hs; try done. by rewrite F3.
Qed.

Lemma handleSnapshot_role V r m : id r ∈ members -> role_ok members V r -> role_ok members V (handleSnapshot r m).
Proof.
  intros Hid Hr. unfold handleSnapshot. destruct (m_snapshot m) as [snap|]; [|by eapply quiet_role; [|by apply send_quiet|]]. destruct (_ <? _); [by eapply quiet_role; [|by apply send_quiet|]|].
  destruct (_ <=? _); [by eapply quiet_role; [|by apply send_quiet|]|].
  pose proof (becomeFollower_role members V r (m_term m) (m_from m) Hr) as Hr1. pose proof (becomeFollower_state r (m_term m) (m_from m)) as Hs1. pose proof (g_id _ _ (becomeFollower_grows r (m_term m) (m_from m))) as Hi1.
  generalize dependent (becomeFollower r (m_term m) (m_from m)). intros r1 Hr1 Hs1 Hi1. pose proof (set_pendingSnapshot_quiet r1 (Some snap)) as Hq. assert (id r1 ∈ members) as Hid1 by (by rewrite Hi1).
  pose proof (quiet_role _ _ _ _ Hid1 Hq Hr1) as Hr2. pose proof (q_state _ _ Hq) as Hs2. pose proof (q_id _ _ Hq) as Hi2. generalize dependent (set_pendingSnapshot r1 (Some snap)). intros r2 Hq Hr2 Hs2 Hi2.
  eapply quiet_role; [|by apply send_quiet|by apply RestoreSnapshot_role; [congruence|]]. rewrite (g_id _ _ (RestoreSnapshot_grows r2 snap)). congruence.
Qed.

(** ** Steps *)

Lemma quiet_step V r r' : node_ok members V r -> quiet r r' -> grows r r' /\ role_ok members (cast V r') r'.
Proof. intros Hr Hq. split; [by apply quiet_grows|]. eapply role_mono; [apply cast_mono|]. eapply quiet_role; [apply Hr|done|by apply node_role]. Qed.

Lemma local_step V r i r' : node_ok members V r -> local_input i = true -> Term (hardState r) < kUint64Max -> node_do r i = Some r' -> grows r r' /\ role_ok members (cast V r') r'.
Proof.
  intros Hr Hl Ht Hd. pose proof (no_term _ _ _ Hr) as Ht0. split.
  { eapply node_do_grows; [done| |done]. intros m -> _. simpl in Hl. apply andb_true_iff in Hl as [_ E%Z.eqb_eq]. rewrite E. unfold kUint64Max. lia. }
  assert (quiet r r' \/ (exists r1, quiet r r1 /\ campaign r1 = Some r') \/ r' = Advance r) as [Hq|[(r1 & Hq & Hc)| ->]].
  { destruct i as [jitter|m|data|readID|readID|index data|]; simpl in Hd, Hl.
    - unfold Tick in Hd. destruct (state r).
      1,2: apply bind_Some in Hd as (u & _ & Hd); destruct (_ <=? _); [right; left; eexists; split; [|exact Hd]; by apply quiet_fields|left; injection Hd as <-; by apply quiet_fields].
      left. destruct (_ <=? _); [|injection Hd as <-; by apply quiet_fields]. apply bind_Some in Hd as (r1 & H1%bcastAppend_still%still_quiet & H2%retry_rounds_still%still_quiet). etrans; [|exact H2]. etrans; [|exact H1]. by apply quiet_fields.
    - apply andb_true_iff in Hl as [Hloc E%Z.eqb_eq]. unfold Step in Hd. rewrite E, (proj2 (Z.ltb_ge (Term (hardState r)) 0)), Hloc in Hd by lia.
      destruct (m_type m), (state r); try done; try (left; by injection Hd as <-); [right; left; by exists r|right; left; by exists r|left]. by apply still_quiet, (bcastAppend_still _ 0).
    - left. apply fmap_Some in Hd as ([r1 b] & Hp & ->). unfold Propose in Hp. destruct (state r); [by injection Hp as <- _..|]. apply bind_Some in Hp as (r2 & H2%appendEntry_quiet & [= <- _]). done.
    - left. apply fmap_Some in Hd as ([r1 b] & Hp & ->). unfold ReadIndex in Hp. destruct (state r); [by injection Hp as <- _..|]. destruct (readID =? 0); [by injection Hp as <- _|]. destruct (readRounds r !! readID); [by injection Hp as <- _|].
      apply bind_Some in Hp as (r2 & H2%startReadRound_still%still_quiet & [= <- _]). etrans; [|exact H2]. by apply quiet_fields.
    - left. injection Hd as <-. by apply quiet_fields.
    - left. by eapply TakeSnapshot_quiet.
    - right. right. by injection Hd as <-. }
  - by apply quiet_step with r.
  - pose proof Hq as [Q1 _ Q3 _ _ _ Q7 _]. eapply campaign_role; [by rewrite Q1; apply Hr|by rewrite Q7; apply Hr|by rewrite Q3|exact Hc|]. eapply quiet_role; [apply Hr|done|by apply node_role].
  - eapply role_mono; [apply cast_mono|]. destruct (node_role _ _ _ Hr). split; [done|done|constructor].
Qed.

Lemma deliver_step V r m r' : node_ok members V r -> tells members V m -> m_to m = id r -> prompt r m = true -> 0 <= Term (hardState r) < kUint64Max ->
  Step r m = Some r' -> grows r r' /\ role_ok members (cast V r') r'.
Proof.
  intros Hr (Hf & Hloc & Htell) Hto Hp Ht Hd. split.
  { eapply (node_do_grows r (Receives m)); [done| |done]. intros m' [= <-]. by rewrite Hloc. }
  pose proof (node_role _ _ _ Hr) as Hrole. destruct Hr as [N1 N2 _ _ _ _ _ _]. unfold Step in Hd. rewrite Hloc in Hd. destruct (Z.ltb_spec (Term (hardState r)) (m_term m)) as [Hlt|Hge].
  - pose proof (becomeFollower_role members V r (m_term m) 0 Hrole) as Hr1. pose proof (becomeFollower_state r (m_term m) 0) as Hs1. pose proof (g_id _ _ (becomeFollower_grows r (m_term m) 0)) as Hi1.
    generalize dependent (becomeFollower r (m_term m) 0). intros r1 Hd Hr1 Hs1 Hi1. rewrite Hs1 in Hd. assert (id r1 ∈ members) as Hid1 by (by rewrite Hi1).
    unfold stepFollower in Hd. destruct (m_type m); try (injection Hd as <-; by eapply role_mono; [apply cast_mono|]).
    + eapply role_mono; [apply cast_mono|]. by eapply handleAppend_role.
    + injection Hd as <-. by apply handleVote_role.
    + injection Hd as <-. eapply role_mono; [apply cast_mono|]. by apply handleSnapshot_role.
  - destruct (state r) eqn:Es.
    + unfold stepFollower in Hd. destruct (m_type m); try (injection Hd as <-; by eapply role_mono; [apply cast_mono|]).
      * eapply role_mono; [apply cast_mono|]. by eapply handleAppend_role.
      * injection Hd as <-. by apply handleVote_role.
      * injection Hd as <-. eapply role_mono; [apply cast_mono|]. by apply handleSnapshot_role.
    + unfold stepCandidate in Hd. destruct (m_type m) eqn:Et; try (injection Hd as <-; by eapply role_mono; [apply cast_mono|]).
      * eapply role_mono; [apply cast_mono|]. by eapply handleAppend_role.
      * injection Hd as <-. by apply handleVote_role.
      * eapply role_mono; [apply cast_mono|]. unfold prompt in Hp. rewrite Et in Hp. apply Z.leb_le in Hp. eapply handleVoteResp_role; [exact N1|exact N2|exact Es| |exact Hto|exact Et| |exact Hd|exact Hrole]; [lia|split_and!; [done|by rewrite Et|by rewrite Et]].
      * injection Hd as <-. eapply role_mono; [apply cast_mono|]. by apply handleSnapshot_role.
    + eapply role_mono; [apply cast_mono|]. unfold stepLeader in Hd. destruct (m_type m); try (by injection Hd as <-).
      * eapply quiet_role; [exact N1|by eapply handleAppendResp_quiet|done].
      * injection Hd as <-. eapply quiet_role; [exact N1|apply handleSnapshotResp_quiet|done].
Qed.

(** ** Runs *)

Lemma update_ok V c n r r' : cluster_ok members V c -> c_nodes c !! n = Some r -> grows r r' -> role_ok members (cast V r') r' ->
  cluster_ok members (cast V r') (mkCluster (<[n := r']> (c_nodes c)) (c_network c)).
Proof.
  intros [C1 C2 C3 C4] Hn Hg Hr. pose proof (C1 _ _ Hn) as Hid. assert (id r' = n) as Hid' by (rewrite (g_id _ _ Hg); done). split; simpl.
  - intros n1 r1. destruct (decide (n1 = n)) as [->|Hne]; [rewrite lookup_insert_eq; intros [= <-]; done|rewrite lookup_insert_ne by done; apply C1].
  - intros n1 r1. destruct (decide (n1 = n)) as [->|Hne].
    + rewrite lookup_insert_eq. intros [= <-]. eapply grown_node; [done|by eapply C2|done|done].
    + rewrite lookup_insert_ne by done. intros Hn1. apply other_node; [|by eapply C2]. rewrite (C1 _ _ Hn1). by rewrite Hid'.
  - eapply tells_mono; [apply cast_mono|done].
  - eapply grown_votes; [done|by eapply C2|done].
Qed.

Lemma cluster_do_ok V c a c' : cluster_ok members V c -> cluster_do true c a = Some c' -> exists V', cluster_ok members V' c'.
Proof.
  intros Hc Hd. pose proof Hc as [C1 C2 C3 C4]. destruct a as [n i|n|k]; simpl in Hd.
  - apply bind_Some in Hd as (r & Hn & Hd). apply bind_Some in Hd as (u & Ha & Hd). apply bind_Some in Hd as (r' & Hr' & [= <-]). unfold assert_that in Ha. destruct (_ && _) eqn:E; [|done]. apply andb_true_iff in E as [El Et%Z.ltb_lt].
    destruct (local_step V r i r') as [Hg Hrole]; [by eapply C2|done|done|done|]. eexists. by eapply update_ok.
  - apply bind_Some in Hd as (r & Hn & [= <-]). pose proof (C2 _ _ Hn) as Hr. exists (cast V (Advance r)). destruct (update_ok V c n r (Advance r)) as [D1 D2 D3 D4]; [done|done|split; try done; right; auto| |].
    + eapply role_mono; [apply cast_mono|]. destruct (node_role _ _ _ Hr). split; [done|done|constructor].
    + split; [done|done| |done]. simpl. apply Forall_app. split; [done|]. eapply tells_mono; [apply cast_mono|]. apply (no_messages _ _ _ Hr).
  - apply bind_Some in Hd as (m & Hk & Hd). apply bind_Some in Hd as (r & Hn & Hd). apply bind_Some in Hd as (u & Ha & Hd). apply bind_Some in Hd as (r' & Hr' & [= <-]). unfold assert_that in Ha. simpl in Ha. destruct (_ && _) eqn:E; [|done].
    apply andb_true_iff in E as [Ep Et%Z.ltb_lt]. pose proof (C2 _ _ Hn) as Hr. destruct (deliver_step V r m r') as [Hg Hrole]; [done| |by rewrite (C1 _ _ Hn)|done|split; [apply Hr|done]|done|].
    + rewrite Forall_elem in C3. apply C3. by eapply list_elem_of_lookup_2.
    + eexists. by eapply update_ok.
Qed.

Lemma cluster_run_ok acts : forall V c c', cluster_ok members V c -> cluster_run true c acts = Some c' -> exists V', cluster_ok members V' c'.
Proof.
  induction acts as [|a acts IH]; intros V c c' Hc; simpl; [intros [= <-]; by exists V|]. intros Hr. apply bind_Some in Hr as (c1 & Hd & Hr). destruct (cluster_do_ok _ _ _ _ Hc Hd) as [V1 Hc1]. by eapply IH.
Qed.

Lemma leaders_unique V c n n' r r' : cluster_ok members V c -> c_nodes c !! n = Some r -> c_nodes c !! n' = Some r' -> state r = StateLeader -> state r' = StateLeader ->
  Term (hardState r) = Term (hardState r') -> n = n'.
Proof.
  intros [C1 C2 _ [V1 V2]] Hn Hn' Hl Hl' Ht. destruct (no_leader _ _ _ (C2 _ _ Hn) Hl) as (Q & HQ & HQv). destruct (no_leader _ _ _ (C2 _ _ Hn') Hl') as (Q' & HQ' & HQv').
  destruct (quorums_meet members Q Q') as (v & Hv & Hv'); [intros x Hx; by eapply V1, HQv|intros x Hx; by eapply V1, HQv'|done|done|].
  specialize (HQv v Hv). specialize (HQv' v Hv'). rewrite Ht in HQv. pose proof (V2 _ _ _ _ HQv HQv') as E. rewrite (C1 _ _ Hn), (C1 _ _ Hn') in E. done.
Qed.
End roles.

(** ** Election safety *)

Lemma start_prs (peers : list Z) (m : gmap Z Progress) : dom (foldl (fun prs peer => <[peer := mkProgress 0 1]> prs) m peers) = list_to_set peers ∪ dom m.
Proof. revert m. induction peers as [|p peers IH]; intros m; simpl; [set_solver|]. rewrite IH, dom_insert_L. set_solver. Qed.

Lemma start_ok peers election heartbeat : cluster_ok (list_to_set peers) ∅ (start peers election heartbeat).
Proof.
  assert (forall n r, c_nodes (start peers election heartbeat) !! n = Some r -> n ∈ peers /\ r = NewRaft (mkConfig n peers election heartbeat)) as Hnode.
  { intros n r Hn. simpl in Hn. apply elem_of_list_to_map_2, list_elem_of_fmap in Hn as (x & [= -> ->] & Hx). done. }
  split.
  - intros n r [_ ->]%Hnode. done.
  - intros n r [Hn ->]%Hnode. split; try done; simpl; [by apply elem_of_list_to_set|]. rewrite start_prs. set_solver.
  - constructor.
  - split; intros; set_solver.
Qed.

(** C0. Election safety: a term has at most one leader.  Start any number of nodes
    that agree on the members, let them tick, propose, read and compact as they
    like, and let the network lose, delay, reorder and repeat their messages, but
    deliver a vote response only to a candidate whose term has not passed that of
    the response: two nodes that are leaders in the same term are the same node. *)
Theorem election_safety `{RangeOrder} peers election heartbeat acts c n n' r r' :
  0 ∉ peers -> cluster_run true (start peers election heartbeat) acts = Some c ->
  c_nodes c !! n = Some r -> c_nodes c !! n' = Some r' -> state r = StateLeader -> state r' = StateLeader -> Term (hardState r) = Term (hardState r') -> n = n'.
Proof.
  intros Hz Hr Hn Hn' Hl Hl' Ht. destruct (cluster_run_ok (list_to_set peers) ltac:(by rewrite elem_of_list_to_set) acts _ _ _ (start_ok peers election heartbeat) Hr) as [V Hc]. by eapply leaders_unique.
Qed.

(** ** Runs that go wrong *)

#[local] Existing Instance key_order.

Definition hup : input := Receives (mkMessage MsgHup 0 0 0 0 0 0 [] false 0 None).

Definition three : Cluster := start [1; 2; 3] 10 2.

(** Node 1 campaigns in term 1 and gets a vote, which is delayed; it campaigns in
    term 2, in which node 3 is elected; then the old vote arrives. *)
Definition late_vote : list action :=
  [Local 1 hup; Flush 1; Deliver 1; Flush 2; Local 1 hup; Local 3 hup; Local 3 hup; Flush 3; Deliver 5; Flush 2; Deliver 7; Deliver 2].

(** Node 1 is elected, appends two entries and sends the first alone and then both.
    Both arrive and are acknowledged, so node 1 commits them; then the message
    with the first entry alone arrives, and node 2 drops the second.  With its
    shorter log node 2 is elected by node 3 and commits another entry. *)
Definition late_append : list action :=
  [Local 1 hup; Flush 1; Deliver 1; Flush 2; Deliver 2; Local 1 (Proposes [x61]); Flush 1; Deliver 6; Flush 2; Deliver 7; Deliver 4;
   Local 2 hup; Flush 2; Deliver 9; Flush 3; Deliver 11; Flush 2; Deliver 12; Flush 3; Deliver 14; Local 2 (Ticks 0); Local 2 (Ticks 0); Flush 2; Deliver 15; Flush 3; Deliver 17].

(** C0. Without that restriction on the network election safety fails: a candidate
    counts a vote it was given in an earlier term, so that two nodes can be
    leaders of the same term. *)
Theorem late_vote_elects_second_leader : exists acts c r r', cluster_run false three acts = Some c /\ c_nodes c !! 1 = Some r /\ c_nodes c !! 3 = Some r' /\
  state r = StateLeader /\ state r' = StateLeader /\ Term (hardState r) = Term (hardState r').
Proof. exists late_vote. do 3 eexists. split_and!; [vm_compute; reflexivity|vm_compute; reflexivity|vm_compute; reflexivity|done|done|done]. Qed.

(** C0. State machine safety fails even when vote responses are prompt: a follower
    that receives an older append message drops entries it has acknowledged, so
    that two nodes hand different entries with the same index to their state
    machines as committed. *)
Theorem late_append_loses_commit : exists acts c r r' e e', cluster_run true three acts = Some c /\ c_nodes c !! 1 = Some r /\ c_nodes c !! 2 = Some r' /\
  e ∈ committedEntries r /\ e' ∈ committedEntries r' /\ e_index e = e_index e' /\ e_data e <> e_data e'.
Proof.
  exists late_append. do 3 eexists. exists (mkEntry 1 2 [x61]), (mkEntry 2 2 []). split_and!; [vm_compute; reflexivity|vm_compute; reflexivity|vm_compute; reflexivity| | |done|done].
  - simpl. right. left.
  - simpl. right. left.
Qed.

(** A term in which a leader is elected the intended way. *)
Lemma election_safety_witness : exists c r, cluster_run true three [Local 1 hup; Flush 1; Deliver 1; Flush 2; Deliver 2] = Some c /\ c_nodes c !! 1 = Some r /\ state r = StateLeader /\
  forall n' r', c_nodes c !! n' = Some r' -> state r' = StateLeader -> Term (hardState r') = 1 -> n' = 1.
Proof.
  do 2 eexists. split_and!; [vm_compute; reflexivity|vm_compute; reflexivity|reflexivity|]. intros n' r' Hn' Hl' Ht'.
  symmetry; eapply (@election_safety key_order [1; 2; 3] 10 2 [Local 1 hup; Flush 1; Deliver 1; Flush 2; Deliver 2]); [by apply (bool_decide_unpack _); vm_compute|vm_compute; reflexivity|vm_compute; reflexivity|exact Hn'|reflexivity|exact Hl'|symmetry; exact Ht'].
Defined.

(** Node 2 has the first two entries committed and compacts its log to a snapshot
    before the older of two append messages reaches it. *)
Definition late_append_after_snapshot : list action :=
  [Local 1 hup; Flush 1; Deliver 1; Flush 2; Deliver 2; Local 1 (Proposes [x61]); Flush 1; Deliver 6; Flush 2; Deliver 7;
   Local 1 (Ticks 0); Local 1 (Ticks 0); Flush 1; Deliver 9; Local 2 (Compacts 2 [])].

(** An append message from before the snapshot of its receiver that starts at index
    zero passes the term check, because an index below the log has term zero, and
    the slice index wraps: the node panics. *)
Theorem late_append_panics : exists c r m, cluster_run true three late_append_after_snapshot = Some c /\ c_network c !! 4%nat = Some m /\ c_nodes c !! m_to m = Some r /\ Step r m = None.
Proof. do 3 eexists. split_and!; [vm_compute; reflexivity|vm_compute; reflexivity|vm_compute; reflexivity|vm_compute; reflexivity]. Qed.
